(* ===== verification/_CoqProject ===== *)
-Q . S2P
Prelude.v
GoLib.v
GoFS.v
GoHttp.v
BitcaskStore.v
BitcaskMerge.v
BitcaskMergeRefine.v
BitcaskMergeTotal.v
BitcaskTheorems.v
WordDictionary.v
WordDictionarySpec.v
WordDictionaryImport.v
WordDictionaryTheorems.v
ConsistentHashing.v
LoadBalancer.v
LoadBalancerSpec.v
LoadBalancerTheorems.v
LoadBalancerSmooth.v
LoadBalancerHandler.v
LoadBalancerHandlerTheorems.v
LoadBalancerSystem.v
DiskIds.v
DiskIdsTheorems.v
Fairness.v
ConnPool.v
RangeDb.v
RangeLogic.v
RangeIds.v
RangeStore.v
RangeServer.v
UuidTable.v
Dynamo.v
Sql.v
SqlServer.v
DynamoTheorems.v
DynamoMain.v
Upsert.v
SeatDb.v
SeatLogic.v
Bookings.v
SeatServer.v
BookingTheorems.v
BookingSystem.v
Sse.v
SseSite.v
Chat.v
Demos.v
TcpServer.v
TcpLoops.v
EventServer.v
Mains.v
