(* ===== verification/Prelude.v ===== *)
(** * A verification library for design-pocs

    The repository is a collection of small Go programs, each a proof of concept of one
    idea of system design.  This library models the programs that have logic of their
    own and proves what makes them correct, or where they are not.

    ** How the code is modelled

    - A Go function is a Rocq function in the state-and-error monad [M] of this file:
      [Ok], [Err] for a returned error, [Panic] for a panic or [log.Fatal]; [NoFuel] is
      the model's own and is excluded by the theorems.  [attempt] is [x, err := f()],
      [ignore] drops an error, [defer] runs a cleanup however the body ends.  Integers
      are [Z], with the wrap-around of [int], [int32], [uint32] written out ([i64], [i32],
      [u32], ...); bytes are [Init.Byte.byte]; maps are [gmap]; pointers that are shared
      are addresses in a store.
    - [GoLib] holds the functions of Go's standard library the programs compute with
      (encoding/binary, hash/crc32 and crc64, decimal text, sort, strings.TrimSpace) and
      [MapRange], the class of orders in which Go may run over a map: theorems hold for
      every order.  [GoFS] holds package os: directory, inodes, descriptors, and a script
      of faults, one entry per system call; a theorem over all scripts covers every
      pattern of I/O failures.  [GoHttp] holds the headers, response writers and replies of
      net/http.
    - A loop is structural where the code's is, and has fuel otherwise; a theorem says
      which fuel is enough.  A loop without an end ([for] around [Accept], [Read] or
      [Kevent]) runs for any number of rounds, or is a step relation.
    - Goroutines: where the code holds a mutex the critical section is one step.
      Interleavings are step relations with their reflexive transitive closure
      ([Fairness], [ConnPool], [TcpServer], [SseSite], [LoadBalancerHandler], [SeatDb],
      [RangeDb], [Upsert], [BookingSystem], [Chat]) or a script of the calls other goroutines make
      wherever the mutex is free ([BitcaskMerge]).
    - Third-party code (MySQL behind database/sql, the kernel's sockets behind
      golang.org/x/sys, socket.io, Redis) is a parameter: a class of operations and a class of laws, which
      state its documented behaviour; a concrete instance runs the examples.  The laws of
      the databases are about the texts of SQL statements, written down apart from the
      code's ([Sql] gives an abstract syntax its text and its meaning; [RangeDb], [SeatDb],
      [Upsert] and [UuidTable] name their few statements literally), so a program keeps its theorems only
      as long as it sends these very texts.

    ** The parts

    - bitcask/main.go: [BitcaskStore] ([New], [Put], [Delete], [Get], rotation of files,
      recovery), [BitcaskMerge] ([Merge] and its segments beside other goroutines),
      [BitcaskMergeRefine] and [BitcaskMergeTotal] (the proof of the merge),
      [BitcaskTheorems].  The specification is a map: [calls_refine_map] and
      [merge_refines_identity] are refinements, [put_under_faults] and [get_under_faults]
      cover every I/O failure, [put_rotates], [segment_capacity] and [entry_roundtrip] the
      file format, [merge_reclaims] what a merge gives back.  The scan of a file has the
      fuel of one step for each byte of the file, and each step takes an entry.
    - word-dictionary/main.go: [WordDictionary] (the code), [WordDictionarySpec] and
      [WordDictionaryImport] (codec, invariant, loops), [WordDictionaryTheorems]:
      look-ups are those of a map, an import is a union of maps, a failing import leaves
      the dictionary as it was; long words and partial writes break it.  The import's
      loops have the fuel of one step for each byte of both files, and each step takes
      an entry.
    - consistent_hashing/main.go: [ConsistentHashing]: every ring is well-formed, the owner
      of a key is the next slot clockwise; adding and deleting nodes moves only the keys
      it must.  The hash function is the code's.
    - The [main]s of these three are in [Mains]: the ten thousand numbers that bitcask
      stores; the dictionary of three words and a change log, and how a second run undoes
      the change log; the keys that move when a node leaves.
    - load-balancer/: [LoadBalancer] (the four algorithms and the servers' properties),
      [LoadBalancerSpec], [LoadBalancerTheorems] (distributions over a cycle, errors),
      [LoadBalancerSmooth] (conservation of the weights, the cycle of the smooth round
      robin), [LoadBalancerHandler] and [LoadBalancerHandlerTheorems] (the request handler
      against the interface's laws, the accounting of connections).  The network is the
      script of results the backends give.  [LoadBalancerSystem] puts the balancer, as
      [main] configures it, in front of three backends
      (backend_server/backend_server.go): the routes of [startServer], /health and
      redirections among them, and the shares of every hundred requests that are forwarded,
      when each is answered before the next is sent.
    - id-generators/disk-based/main.go: [DiskIds], [DiskIdsTheorems]: uniqueness of the
      identifiers across restarts, their durability across faults, and when both fail.
    - id-generators/amazon-way/main.go: [RangeDb] (what is relied on of the database: row
      locks, plain and locking reads, commits in doubt), [RangeLogic] (its rely and guarantee
      logic, sound for every interleaving), [RangeIds] (the transaction as a program of
      calls: ranges of one service are disjoint, whatever fails), [RangeStore] (a concrete
      database), [RangeServer] (the HTTP service around them: every request in a goroutine
      of its own, their calls interleaved, the JSON that goes out and the ranges that
      clients read in it).
    - id-generators/uuid-mysql/main.go: [UuidTable]: the rows the two loops leave behind,
      also when they are cut short; hex.EncodeToString and its inverse.
    - concurrency-examples/fairness/main.go: [Fairness]: primality by trial division (fuel:
      the square root, below 2^62), batches, and the workers of the shared counter.
    - relational-db/dynamo-db-implementation/: [Dynamo] (the operations and the SQL they
      build), [Sql] (REPLACE and SELECT statements: their syntax, their text, what each does
      to the tables of a catalog), [SqlServer] (a concrete database that reads these texts),
      [DynamoTheorems] (put and get, queries and their order, the order of arguments),
      [DynamoMain] (what [main] prints, whatever order Go takes its maps in, and exactly
      both orders on a server without failures).
    - relational-db/upsert/main.go: [Upsert]: a hundred goroutines and the wait group;
      ON DUPLICATE KEY UPDATE and REPLACE leave the same table whatever the interleaving.
    - relational-db/exclusive-locks/: [ConnPool] (db/db.go); [SeatDb] (what is relied on of
      the database: row locks, snapshots, commits in doubt, lost connections; programs as
      trees of calls), [SeatLogic] (rely, guarantee, weakest preconditions and their
      soundness for every interleaving), [Bookings] (the four [bookSeat]s and the statements they send), [SeatServer]
      (a concrete database), [BookingTheorems]: a seat reported as booked is booked,
      by one user only, with a locking read or with versions; without, not.
      [BookingSystem] puts [main], [Init], the pool, the goroutines and the wait group
      together: the whole refines the pool and the bookings, and nobody waits for a
      connection.
    - communication-mechanisms/server-sent-events/main.go: [Sse] (the handlers and what they
      do to the files), [SseSite] (deployments and clients interleaved): what a client is
      sent is an event stream that reads as the lines of its deployment, each once, in
      order; a short write breaks it.
    - communication-mechanisms/websockets/main.go and redis-pubsub/main.go: [Chat]: who
      hears which message of the chat room, with the callbacks of the connections
      interleaved call by call and a broadcast delivered member by member; what a
      subscriber of a channel receives of what was published.
    - http-server/main.go, socketio/main.go: [Demos]: the numbers of requests; descriptors
      are closed in every branch.
    - tcp_servers/: [TcpServer] (multi_threaded.go: listening, echo with the reader's buffer
      and writes cut short, signals and graceful shutdown; a signal that comes before the
      listener),
      [TcpLoops] (single_threaded.go, and the batches of events of
      single_threaded_with_epoll.go), [EventServer] (all of the latter, from the set-up
      on, watched for a number of rounds, after which it is still going or back with an
      error; the kernel may take a part of a write only).  The reads and accepts of a round have fuel; [ListeningForConnections_ends]
      says that some fuel is enough for any number of rounds, because the kernel's queues
      are finite.

    ** How the parts interact

    Most programs stand alone; within one, the client is proved against an interface
    that the implementation meets: the request handler against [LawfulAlgorithm], the
    booking programs against [SeatLaws], the identifier services against
    [RangeDb.DatabaseLaws] and [MachineLaws], the upserts against [Upsert.DatabaseLaws],
    the table operations against [SqlServer], the event loop against [KernelLaws], the chat room against [SocketIOLaws], the subscribers against
    [RedisLaws].  The whole programs are put together from these parts and are proved
    from their theorems' lemmas: [LoadBalancerSystem] from the handler, the smooth
    algorithm and the backends; [DynamoMain] from the operations of [Dynamo], on a
    [SqlServer] whose catalog has both tables; [RangeServer]
    from the transactions of [RangeIds]; [EventServer] from the event batches of
    [TcpLoops], with the calls of the set-up as a further interface ([EventLaws]).  In
    [BookingSystem] the state of the whole has a projection to the pool ([ConnPool]) and
    one to the bookings ([Bookings] on a [SeatDatabase]); every step of the whole is a
    step of each, or none, so that both parts' invariants hold in it.

    ** Not modelled, and why

    - Log lines, timing and sleeping, and output where no theorem is about it.
    - Listening and serving as net/http, gorilla/mux and the socket.io library do it, and
      static files: library code that is only called.  Handlers start where these call
      them.
    - The opening of connections to MySQL and Redis ([newConn], [NewDynamoDB], [init] of
      uuid-mysql and amazon-way): driver calls with addresses; the state they give is where
      the models start. *)


From stdpp Require Import gmap strings list fin_maps.
From Stdlib Require Import ZArith Lia.
From coqutil Require Byte Word.LittleEndianList.

#[global] Open Scope Z_scope.

(** * Bytes and strings *)

(** A Go byte; a Go string is an immutable sequence of bytes, so the
    conversions [[]byte(s)] and [string(b)] are the two bijections below. *)
Abbreviation byte := Corelib.Init.Byte.byte.
Abbreviation bytes := (list Corelib.Init.Byte.byte).

Definition string_of (b : bytes) : string := String.string_of_list_byte b.
Definition bytes_of (s : string) : bytes := String.list_byte_of_string s.

#[export] Instance byte_eq_dec : EqDecision Corelib.Init.Byte.byte :=
  Stdlib.Strings.Byte.byte_eq_dec.

(** [len(x)] of a slice, as a Go [int]. *)
Definition len {A} (l : list A) : Z := Z.of_nat (length l).

(** * Machine integers, with their wrap-around *)

(** [uint32(x)], [uint64(x)], [byte(x)]. *)
Definition u32 (z : Z) : Z := z mod 2 ^ 32.
Definition u64 (z : Z) : Z := z mod 2 ^ 64.
(** [int32(x)] and [int64(x)] ([int] is 64 bits wide): two's complement. *)
Definition i32 (z : Z) : Z := (z + 2 ^ 31) mod 2 ^ 32 - 2 ^ 31.
Definition i64 (z : Z) : Z := (z + 2 ^ 63) mod 2 ^ 64 - 2 ^ 63.

(** * Outcomes of Go code *)

(** The error values the modelled code produces or compares with. *)
Inductive goerr : Type :=
| ErrEOF                                   (* io.EOF *)
| ErrIO                                    (* a failed system call *)
| ErrInvalid                               (* os.ErrInvalid: nil *os.File *)
| ErrClosed                                (* os.ErrClosed *)
| ErrNotExist                              (* os.ErrNotExist *)
| ErrNoRows                                (* sql.ErrNoRows *)
| ErrNew (msg : string)                    (* errors.New, fmt.Errorf *)
| ErrWrap (msg : string) (e : goerr).      (* fmt.Errorf("...%w", e) *)

#[export] Instance goerr_eq_dec : EqDecision goerr.
Proof. solve_decision. Defined.

(** [errors.Is(e, target)]. *)
Fixpoint errors_is (target e : goerr) : bool :=
  bool_decide (e = target) || match e with ErrWrap _ e => errors_is target e | _ => false end.

(** A Go function returning [(T, error)] gives [Ok] or [Err]; [Panic] is a
    run-time panic (or [log.Fatal]); [NoFuel] is never produced by Go: it is
    what a loop of the model gives when its fuel is too small, and the theorems
    exclude it. *)
Inductive outcome (A : Type) : Type :=
| Ok (a : A)
| Err (e : goerr)
| Panic (why : string)
| NoFuel.
Arguments Ok {A} a.
Arguments Err {A} e.
Arguments Panic {A} why.
Arguments NoFuel {A}.

(** * The state-and-error monad *)

Definition M (S A : Type) : Type := S → outcome A * S.

Definition ret {S A} (a : A) : M S A := λ s, (Ok a, s).
Definition fail {S A} (e : goerr) : M S A := λ s, (Err e, s).
Definition panic {S A} (why : string) : M S A := λ s, (Panic why, s).
Definition get_st {S} : M S S := λ s, (Ok s, s).
Definition put_st {S} (s : S) : M S unit := λ _, (Ok tt, s).
Definition gets {S A} (f : S → A) : M S A := λ s, (Ok (f s), s).
Definition modify {S} (f : S → S) : M S unit := λ s, (Ok tt, f s).

Definition bind {S A B} (m : M S A) (k : A → M S B) : M S B := λ s,
  match m s with
  | (Ok a, s') => k a s'
  | (Err e, s') => (Err e, s')
  | (Panic w, s') => (Panic w, s')
  | (NoFuel, s') => (NoFuel, s')
  end.

(** [x, err := m()]: the error becomes a value the caller inspects. *)
Definition attempt {S A} (m : M S A) : M S (A + goerr) := λ s,
  match m s with
  | (Ok a, s') => (Ok (inl a), s')
  | (Err e, s') => (Ok (inr e), s')
  | (Panic w, s') => (Panic w, s')
  | (NoFuel, s') => (NoFuel, s')
  end.

(** Run an operation on a part of the state. *)
Definition zoom {S T A} (view : S → T) (upd : T → S → S) (m : M T A) : M S A :=
  λ s, let '(r, t) := m (view s) in (r, upd t s).

Declare Scope go_scope.
Delimit Scope go_scope with go.
Notation "'let!' x ':=' m 'in' k" := (bind m (fun x => k))
  (at level 10, x pattern, m at level 100, k at level 200,
   format "'[v' 'let!'  x  ':='  m  'in' '/' k ']'") : go_scope.
Notation "'do!' m 'in' k" := (bind m (fun _ => k))
  (at level 10, m at level 100, k at level 200,
   format "'[v' 'do!'  m  'in' '/' k ']'") : go_scope.
#[global] Open Scope go_scope.

(** [if err != nil { return ..., fmt.Errorf("msg: %w", err) }]. *)
Definition wrap_err {S A} (msg : string) (m : M S A) : M S A := λ s,
  match m s with
  | (Err e, s') => (Err (ErrWrap msg e), s')
  | r => r
  end.

(** [defer cleanup()]: it runs however [m] ends, its own result is dropped. *)
Definition defer {S A} (cleanup : M S unit) (m : M S A) : M S A := λ s,
  let '(r, s1) := m s in let '(_, s2) := cleanup s1 in (r, s2).

(** A step whose error is not looked at. *)
Definition ignore {S A} (m : M S A) : M S unit := bind (attempt m) (λ _, ret tt).

(** * Lists *)

Lemma filter_none {A} (P : A → Prop) `{∀ x, Decision (P x)} (l : list A) :
  (∀ x, x ∈ l → ¬ P x) → filter P l = [].
Proof.
  induction l as [|x l IH]; intros Hl; [done|]. rewrite filter_cons.
  rewrite decide_False by (apply Hl; by left). apply IH. intros y Hy. apply Hl. by right.
Qed.
Lemma filter_all {A} (P : A → Prop) `{∀ x, Decision (P x)} (l : list A) :
  (∀ x, x ∈ l → P x) → filter P l = l.
Proof.
  induction l as [|x l IH]; intros Hl; [done|]. rewrite filter_cons.
  rewrite decide_True by (apply Hl; by left). f_equal. apply IH. intros y Hy. apply Hl. by right.
Qed.

(** Sums of integers. *)
Fixpoint zsum (l : list Z) : Z := match l with [] => 0 | x :: l => x + zsum l end.

Lemma zsum_app l1 l2 : zsum (l1 ++ l2) = zsum l1 + zsum l2.
Proof. induction l1 as [|x l1 IH]; simpl; [done|lia]. Qed.

Lemma zsum_perm l1 l2 : l1 ≡ₚ l2 → zsum l1 = zsum l2.
Proof. induction 1; simpl; lia. Qed.

Lemma zsum_nonneg l : Forall (Z.le 0) l → 0 ≤ zsum l.
Proof. induction 1; simpl; lia. Qed.

Lemma zsum_elem l x : Forall (Z.le 0) l → x ∈ l → x ≤ zsum l.
Proof.
  induction 1 as [|y l Hy Hl IH]; [by intros ?%not_elem_of_nil|].
  pose proof (zsum_nonneg l Hl). intros [->|Hx]%elem_of_cons; simpl; [lia|]. specialize (IH Hx). lia.
Qed.

Lemma zsum_plus {A} (f g : A → Z) l :
  zsum ((λ x, f x + g x) <$> l) = zsum (f <$> l) + zsum (g <$> l).
Proof. induction l as [|x l IH]; csimpl; lia. Qed.

Lemma zsum_ext {A} (f g : A → Z) l :
  (∀ x, x ∈ l → f x = g x) → zsum (f <$> l) = zsum (g <$> l).
Proof.
  induction l as [|x l IH]; intros H; csimpl; [done|].
  rewrite IH; [rewrite (H x) by left; done|]. intros y Hy. apply H. by right.
Qed.

Lemma zsum_le {A} (f g : A → Z) l :
  (∀ x, x ∈ l → f x ≤ g x) → zsum (f <$> l) ≤ zsum (g <$> l).
Proof.
  induction l as [|x l IH]; intros H; csimpl; [done|].
  assert (f x ≤ g x) by (apply H; by left). specialize (IH (λ y Hy, H y (list_elem_of_further _ _ _ Hy))). lia.
Qed.

(** One element replaced. *)
Lemma zsum_insert {A} (f : A → Z) l k x x' :
  l !! k = Some x → zsum (f <$> <[k := x']> l) = zsum (f <$> l) - f x + f x'.
Proof.
  revert k. induction l as [|y l IH]; intros [|k] Hk; [done|done|..]; csimpl.
  - injection Hk as ->. lia.
  - rewrite (IH _ Hk). lia.
Qed.

(** One term of the sum changed, in a list without duplicates. *)
Lemma zsum_update {A} `{EqDecision A} (f : A → Z) (a : A) (d : Z) l :
  NoDup l → a ∈ l → zsum ((λ x, if decide (x = a) then f x + d else f x) <$> l) = zsum (f <$> l) + d.
Proof.
  induction l as [|x l IH]; intros Hnd Hin; [by apply not_elem_of_nil in Hin|].
  apply NoDup_cons in Hnd as [Hx Hnd]. csimpl.
  apply elem_of_cons in Hin as [->|Hin].
  - rewrite decide_True by done. rewrite (zsum_ext _ f l); [lia|].
    intros y Hy. rewrite decide_False; [done|]. by intros ->.
  - rewrite decide_False by (by intros ->). rewrite IH by done. lia.
Qed.

(** * Reasoning about the monad *)

Create HintDb go.
Create Rewrite HintDb go.

Section monad_lemmas.
Context {S : Type}.

Lemma bind_ok {A B} (m : M S A) (k : A → M S B) s a s' :
  m s = (Ok a, s') → bind m k s = k a s'.
Proof. unfold bind. by intros ->. Qed.

Lemma bind_err {A B} (m : M S A) (k : A → M S B) s e s' :
  m s = (Err e, s') → bind m k s = (Err e, s').
Proof. unfold bind. by intros ->. Qed.

(** What a successful sequence went through. *)
Lemma bind_inv {A B} (m : M S A) (k : A → M S B) s b s'' :
  bind m k s = (Ok b, s'') → ∃ a s', m s = (Ok a, s') ∧ k a s' = (Ok b, s'').
Proof. unfold bind. destruct (m s) as [[a|e|w|] s']; intros [=]; by exists a, s'. Qed.

Lemma attempt_ok {A} (m : M S A) s a s' :
  m s = (Ok a, s') → attempt m s = (Ok (inl a), s').
Proof. unfold attempt. by intros ->. Qed.
Lemma ignore_ok {A} (m : M S A) s a s' : m s = (Ok a, s') → ignore m s = (Ok tt, s').
Proof. intros E. unfold ignore. by rewrite (bind_ok _ _ _ _ _ (attempt_ok _ _ _ _ E)). Qed.

Lemma attempt_err {A} (m : M S A) s e s' :
  m s = (Err e, s') → attempt m s = (Ok (inr e), s').
Proof. unfold attempt. by intros ->. Qed.

End monad_lemmas.

(** [m] changes nothing that [f] sees. *)
Definition keeps {S A T} (f : S → T) (m : M S A) : Prop := ∀ s, f (m s).2 = f s.

Create HintDb keeps.

Section keeps_lemmas.
Context {S T : Type} (f : S → T).

Lemma keeps_bind {A B} (m : M S A) (k : A → M S B) :
  keeps f m → (∀ a, keeps f (k a)) → keeps f (bind m k).
Proof.
  intros Hm Hk s. unfold bind. specialize (Hm s).
  destruct (m s) as [[a|e|w|] s']; simpl in *; [|done..].
  by rewrite Hk.
Qed.
Lemma keeps_attempt {A} (m : M S A) : keeps f m → keeps f (attempt m).
Proof. intros Hm s. unfold attempt. specialize (Hm s). by destruct (m s) as [[] ?]. Qed.
Lemma keeps_ignore {A} (m : M S A) : keeps f m → keeps f (ignore m).
Proof. intros Hm. apply keeps_bind; [by apply keeps_attempt|done]. Qed.
Lemma keeps_defer {A} (c : M S unit) (m : M S A) :
  keeps f c → keeps f m → keeps f (defer c m).
Proof.
  intros Hc Hm s. unfold defer. specialize (Hm s). destruct (m s) as [r s1]. simpl in Hm.
  specialize (Hc s1). destruct (c s1) as [r' s2]. simpl in *. by rewrite Hc, Hm.
Qed.
Lemma keeps_wrap_err {A} msg (m : M S A) : keeps f m → keeps f (wrap_err msg m).
Proof. intros Hm s. unfold wrap_err. specialize (Hm s). by destruct (m s) as [[] ?]. Qed.
Lemma keeps_ret {A} (a : A) : keeps f (ret a).
Proof. done. Qed.
Lemma keeps_fail {A} e : keeps f (@fail S A e).
Proof. done. Qed.
Lemma keeps_panic {A} w : keeps f (@panic S A w).
Proof. done. Qed.
Lemma keeps_gets {A} (g : S → A) : keeps f (gets g).
Proof. done. Qed.
End keeps_lemmas.
#[export] Hint Resolve keeps_bind keeps_attempt keeps_ret keeps_fail keeps_panic
  keeps_gets keeps_ignore keeps_defer keeps_wrap_err : keeps.

(** * Generic lemmas *)

Lemma string_of_bytes_of s : string_of (bytes_of s) = s.
Proof. apply String.string_of_list_byte_of_string. Qed.
Lemma bytes_of_string_of b : bytes_of (string_of b) = b.
Proof. apply String.list_byte_of_string_of_list_byte. Qed.
#[export] Hint Rewrite string_of_bytes_of bytes_of_string_of : go.

Lemma string_of_inj b1 b2 : string_of b1 = string_of b2 → b1 = b2.
Proof. intros H. by rewrite <-(bytes_of_string_of b1), H, bytes_of_string_of. Qed.

#[export] Instance string_of_Inj : Inj (=) (=) string_of.
Proof. intros b1 b2. apply string_of_inj. Qed.

Lemma len_nonneg {A} (l : list A) : 0 ≤ len l.
Proof. unfold len. lia. Qed.
Lemma len_app {A} (l1 l2 : list A) : len (l1 ++ l2) = len l1 + len l2.
Proof. unfold len. rewrite length_app. lia. Qed.
Lemma len_nil {A} : len (@nil A) = 0.
Proof. done. Qed.
Lemma len_cons {A} (x : A) l : len (x :: l) = 1 + len l.
Proof. unfold len. simpl. lia. Qed.
#[export] Hint Rewrite @len_app @len_nil @len_cons : go.
#[export] Hint Resolve len_nonneg : go.

Lemma u32_small z : 0 ≤ z < 2 ^ 32 → u32 z = z.
Proof. apply Z.mod_small. Qed.
Lemma u64_small z : 0 ≤ z < 2 ^ 64 → u64 z = z.
Proof. apply Z.mod_small. Qed.
Lemma i32_small z : -2 ^ 31 ≤ z < 2 ^ 31 → i32 z = z.
Proof. intros H. unfold i32. rewrite Z.mod_small by lia. lia. Qed.
Lemma i64_small z : -2 ^ 63 ≤ z < 2 ^ 63 → i64 z = z.
Proof. intros H. unfold i64. rewrite Z.mod_small by lia. lia. Qed.
Lemma u32_range z : 0 ≤ u32 z < 2 ^ 32.
Proof. by apply Z.mod_pos_bound. Qed.
Lemma i32_range z : -2 ^ 31 ≤ i32 z < 2 ^ 31.
Proof. unfold i32. pose proof (Z.mod_pos_bound (z + 2 ^ 31) (2 ^ 32)). lia. Qed.
Lemma i64_range z : -2 ^ 63 ≤ i64 z < 2 ^ 63.
Proof. unfold i64. pose proof (Z.mod_pos_bound (z + 2 ^ 63) (2 ^ 64)). lia. Qed.

(** [m] keeps the invariant [P], however it ends. *)
Definition preserves {S A} (P : S → Prop) (m : M S A) : Prop := ∀ s, P s → P (m s).2.

(** From [P], [m] leads to [P'] when it succeeds, otherwise to [Q]. *)
Definition leads {S A} (P : S → Prop) (m : M S A) (P' : A → S → Prop) (Q : S → Prop) : Prop :=
  ∀ s, P s → match m s with (Ok a, s') => P' a s' | (_, s') => Q s' end.

(** From [P], [m] leads to [Q] unless it succeeds or fails with an error in [E]. *)
Definition spares {S A} (E : goerr → Prop) (P Q : S → Prop) (m : M S A) : Prop :=
  ∀ s, P s → match m s with
             | (Ok _, _) => True
             | (Err e, s') => E e ∨ Q s'
             | (_, s') => Q s'
             end.

Create HintDb preserves.

Section preserves_lemmas.
Context {S : Type} (E : goerr → Prop) (P : S → Prop).

Lemma preserves_bind {A B} (m : M S A) (k : A → M S B) :
  preserves P m → (∀ a, preserves P (k a)) → preserves P (bind m k).
Proof.
  intros Hm Hk s Hs. unfold bind. specialize (Hm s Hs).
  destruct (m s) as [[a|e|w|] s']; simpl in *; [by apply Hk|done..].
Qed.
Lemma preserves_attempt {A} (m : M S A) : preserves P m → preserves P (attempt m).
Proof. intros Hm s Hs. unfold attempt. specialize (Hm s Hs). by destruct (m s) as [[] ?]. Qed.
Lemma preserves_ignore {A} (m : M S A) : preserves P m → preserves P (ignore m).
Proof. intros Hm. apply preserves_bind; [by apply preserves_attempt|by intros ? ?]. Qed.
Lemma preserves_wrap_err {A} msg (m : M S A) : preserves P m → preserves P (wrap_err msg m).
Proof. intros Hm s Hs. unfold wrap_err. specialize (Hm s Hs). by destruct (m s) as [[] ?]. Qed.
Lemma preserves_ret {A} (a : A) : preserves P (ret a).
Proof. by intros s. Qed.
Lemma preserves_fail {A} e : preserves P (@fail S A e).
Proof. by intros s. Qed.
Lemma preserves_panic {A} w : preserves P (@panic S A w).
Proof. by intros s. Qed.

Lemma preserves_leads {A} (m : M S A) (Q : S → Prop) :
  preserves P m → (∀ s, P s → Q s) → leads P m (λ _, P) Q.
Proof. intros Hm HQ s Hs. specialize (Hm s Hs). destruct (m s) as [[] ?]; auto. Qed.
Lemma spares_bind {A B} (m : M S A) (k : A → M S B) (P' : A → S → Prop) (Q : S → Prop) :
  leads P m P' Q → (∀ a, spares E (P' a) Q (k a)) → spares E P Q (bind m k).
Proof.
  intros Hm Hk s Hs. unfold bind. specialize (Hm s Hs).
  destruct (m s) as [[a|e|w|] s']; simpl in *; [by apply Hk|by right|done..].
Qed.
Lemma spares_defer {A} (c : M S unit) (m : M S A) (Q : S → Prop) :
  preserves Q c → spares E P Q m → spares E P Q (defer c m).
Proof.
  intros Hc Hm s Hs. unfold defer. specialize (Hm s Hs). destruct (m s) as [r s1].
  specialize (Hc s1). destruct (c s1) as [r' s2]. simpl in *.
  destruct r; try by auto. destruct Hm; auto.
Qed.
Lemma spares_weaken {A} (m : M S A) (Q Q' : S → Prop) :
  (∀ s, Q s → Q' s) → spares E P Q m → spares E P Q' m.
Proof.
  intros HQ Hm s Hs. specialize (Hm s Hs). destruct (m s) as [[] ?]; auto.
  destruct Hm; auto.
Qed.
End preserves_lemmas.
#[export] Hint Resolve preserves_bind preserves_attempt preserves_ignore preserves_wrap_err
  preserves_ret preserves_fail preserves_panic : preserves.

(** * Tactics of the development *)

(** Compositional proofs of [preserves]. *)
Ltac preserves_tac :=
  repeat first
    [ progress (eauto with preserves)
    | apply preserves_bind; [solve [eauto with preserves]|intros ?]
    | apply preserves_bind; [|intros ?]
    | apply preserves_attempt | apply preserves_ignore | apply preserves_wrap_err
    | case_match ].

(** Compositional proofs of [keeps]. *)
Ltac keeps_tac :=
  repeat first
    [ progress (eauto with keeps)
    | apply keeps_bind; [solve [eauto with keeps]|intros ?]
    | apply keeps_bind; [|intros ?]
    | apply keeps_attempt | apply keeps_ignore | apply keeps_defer | apply keeps_wrap_err
    | case_match ].

(** Split the outermost [match] or [if] of the goal, keeping the equation. *)
Ltac go_case :=
  match goal with
  | |- context [match ?x with _ => _ end] =>
      lazymatch x with
      | context [match _ with _ => _ end] => fail
      | _ => let E := fresh "E" in destruct x eqn:E
      end
  end.

(** The same in a hypothesis. *)
Ltac go_case_in H :=
  match type of H with
  | context [match ?x with _ => _ end] =>
      lazymatch x with
      | context [match _ with _ => _ end] => fail
      | _ => let E := fresh "E" in destruct x eqn:E
      end
  end.

(** Close or simplify goals about lengths. *)
Ltac len_lia := unfold len in *; rewrite ?length_app, ?length_take, ?length_drop,
  ?length_replicate in *; simpl in *; lia.
