(* ===== verification/GoLib.v ===== *)
(** The parts of Go's standard library the modelled code computes with:
    [encoding/binary] (little endian), [hash/crc32] and [hash/crc64],
    [fmt.Sprintf("%d")] and [strconv.ParseInt], [sort.Search], [sort.Strings]
    and [sort.Slice] on totally ordered data.  Each is written from the
    library's documentation and is executable; the lemmas are what the
    components rely on. *)

From Stdlib Require Import ZArith Lia Ascii String DecimalString DecimalZ.
From stdpp Require Import gmap strings list fin_maps sorting.
From coqutil Require Byte Word.LittleEndianList.
From S2P Require Import Prelude.
Import LittleEndianList(le_split, le_combine).

(** * encoding/binary: [binary.LittleEndian] *)

Definition put_u32 (v : Z) : bytes := le_split 4 v.
Definition put_u64 (v : Z) : bytes := le_split 8 v.
Definition get_u32 (b : bytes) : Z := le_combine (take 4 b).

(** * hash/crc32 and hash/crc64, reflected, bit by bit *)

Fixpoint crc_shift (n : nat) (poly c : Z) : Z :=
  match n with
  | O => c
  | S n =>
      crc_shift n poly
        (if Z.odd c then Z.lxor (Z.shiftr c 1) poly else Z.shiftr c 1)
  end.

Definition crc_update (poly : Z) (c : Z) (b : bytes) : Z :=
  fold_left (λ c x, crc_shift 8 poly (Z.lxor c (Byte.byte.unsigned x))) b c.

(** [crc32.ChecksumIEEE]. *)
Definition crc32 (b : bytes) : Z :=
  Z.lxor (crc_update 0xEDB88320 (2 ^ 32 - 1) b) (2 ^ 32 - 1).

(** [crc64.Checksum(b, crc64.MakeTable(crc64.ISO))]. *)
Definition crc64_iso (b : bytes) : Z :=
  Z.lxor (crc_update 0xD800000000000000 (2 ^ 64 - 1) b) (2 ^ 64 - 1).

(** * Decimal text *)

(** [fmt.Sprint(n)], ["%d"], [strconv.FormatInt(n, 10)]. *)
Definition itoa (n : Z) : string := NilZero.string_of_int (Z.to_int n).

(** Digits only, at least one. *)
Definition parse_digits (s : string) : option Z :=
  match s with
  | EmptyString => None
  | _ => (λ d, Z.of_uint d) <$> NilZero.uint_of_string s
  end.

(** [strconv.ParseInt(s, 10, 64)]: an optional sign, digits, range check. *)
Definition parse_int64 (s : string) : outcome Z :=
  let signed :=
    match s with
    | String "-"%char s' => Z.opp <$> parse_digits s'
    | String "+"%char s' => parse_digits s'
    | _ => parse_digits s
    end in
  match signed with
  | None => Err (ErrNew "invalid syntax")
  | Some v =>
      if (- 2 ^ 63 <=? v) && (v <? 2 ^ 63) then Ok v
      else Err (ErrNew "value out of range")
  end.

(** * sort.Search: binary search over [0, n) *)

Fixpoint search_loop (fuel : nat) (f : nat → bool) (i j : nat) : nat :=
  match fuel with
  | O => i
  | S fuel =>
      if decide (i < j)%nat then
        let h := Nat.div2 (i + j) in
        if f h then search_loop fuel f i h else search_loop fuel f (S h) j
      else i
  end.

Definition sort_search (n : nat) (f : nat → bool) : nat := search_loop n f 0 n.

(** * Sorting

    [sort.Slice] and [sort.Strings] promise a sorted permutation.  On a total
    order that is antisymmetric there is exactly one, so a merge sort gives the
    same slice as Go's pattern-defeating quicksort. *)
Definition sort_u64 (l : list Z) : list Z := merge_sort Z.le l.
Definition sort_strings (l : list string) : list string := merge_sort String.le l.

(** * [for k, v := range m]

    Go leaves the order of a map iteration open.  A component that iterates is
    written against this interface, so its theorems hold for every order. *)
Class MapRange := {
  range : ∀ {A : Type}, gmap string A → list (string * A);
  range_perm : ∀ {A : Type} (m : gmap string A), range m ≡ₚ map_to_list m;
}.

(** One order, to run the model with. *)
#[export] Instance map_range_default : MapRange | 100 :=
  { range _ m := map_to_list m; range_perm _ m := Permutation_refl _ }.

(** * strings.TrimSpace

    The white space of Unicode, in UTF-8, off both ends. *)
Definition spaces : list (list ascii) :=
  map (map ascii_of_N)
  [[9]; [10]; [11]; [12]; [13]; [32]; [194; 133]; [194; 160]; [225; 154; 128];
   [226; 128; 128]; [226; 128; 129]; [226; 128; 130]; [226; 128; 131]; [226; 128; 132];
   [226; 128; 133]; [226; 128; 134]; [226; 128; 135]; [226; 128; 136]; [226; 128; 137];
   [226; 128; 138]; [226; 128; 168]; [226; 128; 169]; [226; 128; 175]; [226; 129; 159];
   [227; 128; 128]]%N.

Fixpoint strip (p s : list ascii) : option (list ascii) :=
  match p, s with
  | [], _ => Some s
  | c :: p, d :: s => if Ascii.eqb c d then strip p s else None
  | _ :: _, [] => None
  end.

(** Any of [ps] off the front, again and again; each takes at least a byte. *)
Fixpoint trim_front (fuel : nat) (ps : list (list ascii)) (s : list ascii) : list ascii :=
  match fuel with
  | O => s
  | S fuel =>
      match omap (λ p, strip p s) ps with
      | s' :: _ => trim_front fuel ps s'
      | [] => s
      end
  end.

Definition TrimSpace (s : string) : string :=
  let l := list_ascii_of_string s in
  let l := trim_front (length l) spaces l in
  let l := trim_front (length l) (reverse <$> spaces) (reverse l) in
  string_of_list_ascii (reverse l).

(** [l[i]]; [None] is a panic. *)
Definition index {A} (l : list A) (i : Z) : option A :=
  if i <? 0 then None else l !! Z.to_nat i.

(** * Lemmas *)

Lemma elem_of_range `{MapRange} {A} (m : gmap string A) k v :
  (k, v) ∈ range m ↔ m !! k = Some v.
Proof. by rewrite range_perm, elem_of_map_to_list. Qed.

Lemma NoDup_range `{MapRange} {A} (m : gmap string A) : NoDup (range m).*1.
Proof. rewrite range_perm. apply NoDup_fst_map_to_list. Qed.

Lemma len_put_u32 v : len (put_u32 v) = 4.
Proof. unfold len, put_u32. by rewrite LittleEndianList.length_le_split. Qed.
Lemma len_put_u64 v : len (put_u64 v) = 8.
Proof. unfold len, put_u64. by rewrite LittleEndianList.length_le_split. Qed.
#[export] Hint Rewrite len_put_u32 len_put_u64 : go.

(** Reading back a stored [uint32], whatever follows it. *)
Lemma get_put_u32 v rest : get_u32 (put_u32 v ++ rest) = u32 v.
Proof.
  unfold get_u32, put_u32. rewrite take_app_le, take_ge;
    rewrite ?LittleEndianList.length_le_split; try lia.
  by rewrite LittleEndianList.le_combine_split.
Qed.

Lemma get_u32_range b : 0 ≤ get_u32 b < 2 ^ 32.
Proof.
  unfold get_u32. pose proof (LittleEndianList.le_combine_bound (take 4 b)) as H.
  split; [lia|]. eapply Z.lt_le_trans; [apply H|].
  apply Z.pow_le_mono_r; [lia|]. rewrite length_take. lia.
Qed.

Lemma lxor_range n a b :
  0 < n → 0 ≤ a < 2 ^ n → 0 ≤ b < 2 ^ n → 0 ≤ Z.lxor a b < 2 ^ n.
Proof.
  intros Hn Ha Hb. assert (0 ≤ Z.lxor a b) as H0 by (apply Z.lxor_nonneg; lia).
  split; [done|]. destruct (decide (Z.lxor a b = 0)) as [->|Hne]; [lia|].
  apply Z.log2_lt_pow2; [lia|].
  pose proof (Z.log2_lxor a b ltac:(lia) ltac:(lia)).
  assert (∀ x, 0 ≤ x < 2 ^ n → Z.log2 x < n) as Hl.
  { intros x Hx. destruct (decide (x = 0)) as [->|]; [done|].
    apply Z.log2_lt_pow2; lia. }
  pose proof (Hl a Ha). pose proof (Hl b Hb). lia.
Qed.

Lemma crc_shift_range n k poly c :
  0 < n → 0 ≤ poly < 2 ^ n → 0 ≤ c < 2 ^ n → 0 ≤ crc_shift k poly c < 2 ^ n.
Proof.
  intros Hn Hp. revert c. induction k as [|k IH]; intros c Hc; [done|]. simpl.
  assert (0 ≤ Z.shiftr c 1 < 2 ^ n) as Hs.
  { rewrite Z.shiftr_div_pow2 by lia. change (2 ^ 1) with 2. split.
    - apply Z.div_pos; lia.
    - apply Z.div_lt_upper_bound; lia. }
  apply IH. destruct (Z.odd c); [by apply lxor_range|done].
Qed.

Lemma crc_update_range n poly c b :
  8 ≤ n → 0 ≤ poly < 2 ^ n → 0 ≤ c < 2 ^ n → 0 ≤ crc_update poly c b < 2 ^ n.
Proof.
  intros Hn Hp. revert c. induction b as [|x b IH]; intros c Hc; [done|].
  change (crc_update poly c (x :: b)) with
    (crc_update poly (crc_shift 8 poly (Z.lxor c (Byte.byte.unsigned x))) b).
  apply IH. apply crc_shift_range; [lia|done|].
  apply lxor_range; [lia|done|]. pose proof (Byte.byte.unsigned_range x) as Hx.
  assert (2 ^ 8 ≤ 2 ^ n) by (apply Z.pow_le_mono_r; lia). lia.
Qed.

Lemma crc32_range b : 0 ≤ crc32 b < 2 ^ 32.
Proof.
  apply lxor_range; [lia| |lia]. by apply crc_update_range.
Qed.

Lemma crc64_range b : 0 ≤ crc64_iso b < 2 ^ 64.
Proof.
  apply lxor_range; [lia| |lia]. by apply crc_update_range.
Qed.

Lemma to_int_not_nil n : Z.to_int n ≠ Decimal.Pos Decimal.Nil ∧
  Z.to_int n ≠ Decimal.Neg Decimal.Nil.
Proof.
  split; intros H; pose proof (DecimalZ.of_to n) as E; rewrite H in E;
    simpl in E; subst n; simpl in H; congruence.
Qed.

Lemma int_of_itoa n : NilZero.int_of_string (itoa n) = Some (Z.to_int n).
Proof. apply NilZero.isi; apply to_int_not_nil. Qed.

(** Distinct numbers print differently. *)
Lemma itoa_inj n m : itoa n = itoa m → n = m.
Proof.
  intros H. pose proof (int_of_itoa n) as Hn. rewrite H, int_of_itoa in Hn.
  injection Hn as Hn. by rewrite <-(DecimalZ.of_to n), <-(DecimalZ.of_to m), Hn.
Qed.

#[export] Instance itoa_Inj : Inj (=) (=) itoa.
Proof. intros n m. apply itoa_inj. Qed.

(** The text of a number starts with a digit or a minus sign. *)
Lemma itoa_head n : ∃ c s, itoa n = String c s ∧ c ≠ "m"%char.
Proof.
  unfold itoa. destruct (Z.to_int n) as [d|d]; simpl.
  - destruct d; eexists _, _; (split; [reflexivity|done]).
  - eexists _, _. split; [reflexivity|done].
Qed.

(** * Lemmas on string concatenation *)

Lemma ascii_of_app s1 s2 :
  list_ascii_of_string (s1 +:+ s2) = list_ascii_of_string s1 ++ list_ascii_of_string s2.
Proof. induction s1 as [|c s1 IH]; simpl; [done|by rewrite IH]. Qed.

Lemma str_app_assoc s1 s2 s3 : s1 +:+ (s2 +:+ s3) = (s1 +:+ s2) +:+ s3.
Proof.
  induction s1 as [|c s1 IH]; [done|]. change (String c (s1 +:+ (s2 +:+ s3)) = String c ((s1 +:+ s2) +:+ s3)).
  by f_equal.
Qed.

Lemma str_app_nil_r s : s +:+ "" = s.
Proof. induction s as [|c s IH]; [done|]. change (String c (s +:+ "") = String c s). by rewrite IH. Qed.

(** Equal strings with suffixes of one length have equal parts. *)
Lemma str_app_inj_tail s1 s2 t1 t2 :
  String.length t1 = String.length t2 → s1 +:+ t1 = s2 +:+ t2 → s1 = s2 ∧ t1 = t2.
Proof.
  intros Hl H. assert (∀ s, length (list_ascii_of_string s) = String.length s) as Hls.
  { intros s. induction s as [|c s IH]; simpl; [done|by rewrite IH]. }
  apply (f_equal list_ascii_of_string) in H. rewrite !ascii_of_app in H.
  apply app_inj_2 in H as [H1 H2]; [|by rewrite !Hls].
  apply (f_equal string_of_list_ascii) in H1, H2.
  by rewrite !string_of_list_ascii_of_string in H1, H2.
Qed.

(** A text without a character, and splitting at the first one. *)
Fixpoint without (c : ascii) (s : string) : Prop :=
  match s with EmptyString => True | String x s => x ≠ c ∧ without c s end.

#[export] Instance without_dec c s : Decision (without c s).
Proof. induction s; simpl; solve_decision. Defined.

Lemma str_sep_inj c s1 s2 t1 t2 :
  without c s1 → without c s2 → s1 +:+ String c t1 = s2 +:+ String c t2 → s1 = s2 ∧ t1 = t2.
Proof.
  revert s2. induction s1 as [|x s1 IH]; intros [|y s2] H1 H2; cbn in *.
  - by intros [= ->].
  - intros [= -> _]. by destruct H2.
  - intros [= -> _]. by destruct H1.
  - intros [= -> E]. destruct (IH s2) as [-> ->]; tauto.
Qed.

(** The text of a number has digits only, and a minus sign. *)
Lemma itoa_without n c :
  Forall (λ x, x ≠ c) (list_ascii_of_string "-0123456789") → without c (itoa n).
Proof.
  cbn [list_ascii_of_string]. rewrite !Forall_cons. intros Hc.
  assert (∀ d, without c (NilEmpty.string_of_uint d)) as Hd.
  { induction d; cbn [NilEmpty.string_of_uint without]; tauto. }
  assert (∀ d, without c (NilZero.string_of_uint d)) as Hd'.
  { intros []; [cbn; tauto|..]; apply (Hd (_ _)). }
  unfold itoa. destruct (Z.to_int n) as [d|d]; [apply Hd'|].
  split; [tauto|apply Hd'].
Qed.

Section search.
Local Open Scope nat_scope.
Variable f : nat → bool.
Variable n : nat.
Hypothesis f_mono : ∀ i j, i ≤ j → j < n → f i = true → f j = true.

Lemma search_loop_spec fuel i j :
  i ≤ j → j ≤ n → j - i ≤ fuel →
  let r := search_loop fuel f i j in
  i ≤ r ≤ j ∧ (∀ k, i ≤ k < r → f k = false) ∧
  (r < j → f r = true).
Proof.
  revert i j. induction fuel as [|fuel IH]; intros i j Hij Hjn Hf; simpl.
  - repeat split; lia.
  - case_decide as Hlt; [|repeat split; lia].
    pose proof (Nat.div2_div (i + j)) as Hd.
    assert (i ≤ Nat.div2 (i + j) < j) as Hh.
    { rewrite Hd. split.
      - apply Nat.div_le_lower_bound; lia.
      - apply Nat.Div0.div_lt_upper_bound; lia. }
    destruct (f (Nat.div2 (i + j))) eqn:Ef.
    + destruct (IH i (Nat.div2 (i + j))) as (H1 & H2 & H3); [lia..|].
      repeat split; try lia; [done|]. intros _.
      destruct (decide (search_loop fuel f i (Nat.div2 (i + j))
        < Nat.div2 (i + j))) as [Hl|Hl]; [by apply H3|].
      eapply f_mono; [| |exact Ef]; lia.
    + destruct (IH (S (Nat.div2 (i + j))) j) as (H1 & H2 & H3); [lia..|].
      repeat split; try lia; [|done]. intros k Hk.
      destruct (decide (k ≤ Nat.div2 (i + j))) as [Hl|Hl]; [|apply H2; lia].
      destruct (f k) eqn:Ek; [|done].
      rewrite (f_mono _ _ Hl ltac:(lia) Ek) in Ef. done.
Qed.

(** The smallest index in [0, n) at which a monotone [f] is true, or [n]. *)
Lemma sort_search_spec :
  let r := sort_search n f in
  r ≤ n ∧ (∀ k, k < r → f k = false) ∧ (r < n → f r = true).
Proof.
  unfold sort_search. cbv zeta.
  destruct (search_loop_spec n 0 n) as (H1 & H2 & H3); [lia..|].
  repeat split; [lia| |done]. intros k Hk. apply H2. lia.
Qed.
End search.

Lemma sort_u64_perm l : sort_u64 l ≡ₚ l.
Proof. apply merge_sort_Permutation. Qed.
Lemma sort_u64_sorted l : StronglySorted Z.le (sort_u64 l).
Proof. apply (StronglySorted_merge_sort _). Qed.
Lemma sort_strings_perm l : sort_strings l ≡ₚ l.
Proof. apply merge_sort_Permutation. Qed.
Lemma sort_strings_sorted l : StronglySorted String.le (sort_strings l).
Proof. apply (StronglySorted_merge_sort _). Qed.

(** The check values of the two CRC parameter sets. *)
Example crc32_check : crc32 (bytes_of "123456789") = 0xCBF43926.
Proof. vm_compute. reflexivity. Qed.
Example crc64_check : crc64_iso (bytes_of "123456789") = 0xB90956C775A41001.
Proof. vm_compute. reflexivity. Qed.

(** * Printing and parsing *)

Lemma parse_digits_uint d : d ≠ Decimal.Nil →
  parse_digits (NilZero.string_of_uint d) = Some (Z.of_uint d).
Proof.
  intros Hd. assert (parse_digits (NilZero.string_of_uint d) =
    (λ d, Z.of_uint d) <$> NilZero.uint_of_string (NilZero.string_of_uint d)) as ->.
  { destruct d; done. }
  by rewrite NilZero.usu.
Qed.

(** [ParseInt] reads back what [FormatInt] printed. *)
Lemma parse_itoa n : -2 ^ 63 ≤ n < 2 ^ 63 → parse_int64 (itoa n) = Ok n.
Proof.
  intros Hn. destruct (to_int_not_nil n) as [H1 H2].
  assert (Z.of_int (Z.to_int n) = n) as En by apply DecimalZ.of_to.
  assert (∀ d s, NilZero.string_of_uint d ≠ String "-" s ∧ NilZero.string_of_uint d ≠ String "+" s) as Hs.
  { intros d s. destruct d; done. }
  unfold parse_int64, itoa. destruct (Z.to_int n) as [d|d].
  - assert (d ≠ Decimal.Nil) as Hd by congruence. cbn [NilZero.string_of_int].
    pose proof (parse_digits_uint d Hd) as E.
    destruct (NilZero.string_of_uint d) as [|c s] eqn:Es; [done|].
    assert (c ≠ "-"%char ∧ c ≠ "+"%char) as [Hm Hp].
    { split; intros ->; destruct (Hs d s); congruence. }
    assert ((match String c s with
             | String "-" s' => Z.opp <$> parse_digits s'
             | String "+" s' => parse_digits s'
             | _ => parse_digits (String c s)
             end) = parse_digits (String c s)) as ->.
    { destruct c as [[] [] [] [] [] [] [] []]; done. }
    rewrite E. cbn in En. rewrite En.
    destruct (Z.leb_spec (- 2 ^ 63) n), (Z.ltb_spec n (2 ^ 63)); try lia; done.
  - assert (d ≠ Decimal.Nil) as Hd by congruence. cbn [NilZero.string_of_int].
    rewrite parse_digits_uint by done. cbn in En. simpl fmap. cbn [fmap option_fmap option_map].
    rewrite En.
    destruct (Z.leb_spec (- 2 ^ 63) n), (Z.ltb_spec n (2 ^ 63)); try lia; done.
Qed.
