(* ===== verification/GoFS.v ===== *)
(** Package [os] as the programs use it: a directory of paths, the contents of
    the files (inodes) and the open file descriptors, with POSIX semantics
    (removing a path leaves open descriptors usable, [O_APPEND] writes at the
    end, [ReadAt] past the end is [io.EOF], writing past the end fills with
    zeros).

    Every system call first takes one entry of the fault script [w_faults]:
    [None] (or an exhausted script) lets it succeed, [Some k] makes it fail, a
    failing write having stored its first [k] bytes.  A theorem over all worlds
    is therefore a theorem over every pattern of I/O failures. *)

From stdpp Require Import gmap strings list fin_maps.
From Stdlib Require Import ZArith Lia.
From S2P Require Import Prelude.

(** * Data *)

Record fd := mkFd {
  fd_ino : nat;
  fd_append : bool;
  fd_pos : Z;
  fd_open : bool;
}.

Record World := mkWorld {
  w_dir : gmap string nat;          (* path -> inode *)
  w_ino : gmap nat bytes;           (* inode -> contents *)
  w_fd : gmap nat fd;               (* descriptor table *)
  w_next : nat;                     (* next unused inode and descriptor *)
  w_faults : list (option nat);     (* outcomes of the coming system calls *)
}.

(** A [*os.File]: [None] is the nil pointer. *)
Abbreviation File := (option nat).

Definition empty_world : World := mkWorld ∅ ∅ ∅ 0 [].

Definition set_dir f (w : World) :=
  mkWorld (f (w_dir w)) (w_ino w) (w_fd w) (w_next w) (w_faults w).
Definition set_ino f (w : World) :=
  mkWorld (w_dir w) (f (w_ino w)) (w_fd w) (w_next w) (w_faults w).
Definition set_fd f (w : World) :=
  mkWorld (w_dir w) (w_ino w) (f (w_fd w)) (w_next w) (w_faults w).
Definition set_faults fs (w : World) :=
  mkWorld (w_dir w) (w_ino w) (w_fd w) (w_next w) fs.
Definition bump (w : World) :=
  mkWorld (w_dir w) (w_ino w) (w_fd w) (S (w_next w)) (w_faults w).

(** Contents of an inode. *)
Definition content (w : World) (ino : nat) : bytes := default [] (w_ino w !! ino).

(** * Byte ranges *)

(** [n] bytes from offset [off] on, fewer at the end. *)
Definition slice (off n : Z) (l : bytes) : bytes :=
  take (Z.to_nat n) (drop (Z.to_nat off) l).

(** [buf] stored at offset [off], zeros filling a gap; storing nothing changes
    nothing. *)
Definition write_bytes (off : Z) (buf l : bytes) : bytes :=
  match buf with
  | [] => l
  | _ =>
      take (Z.to_nat off) (l ++ replicate (Z.to_nat off - length l) Byte.x00)
      ++ buf ++ drop (Z.to_nat off + length buf) l
  end.

(** * System calls *)

Definition syscall : M World (option nat) := λ w,
  match w_faults w with
  | [] => (Ok None, w)
  | x :: fs => (Ok x, set_faults fs w)
  end.

(** A call without partial effects: it fails, or runs [m]. *)
Definition guarded {A} (m : M World A) : M World A :=
  let! x := syscall in
  match x with None => m | Some _ => fail ErrIO end.

(** The descriptor behind a file, [checkValid] included. *)
Definition resolve (h : File) : M World (nat * fd) := λ w,
  match h with
  | None => (Err ErrInvalid, w)
  | Some n =>
      match w_fd w !! n with
      | Some f => if fd_open f then (Ok (n, f), w) else (Err ErrClosed, w)
      | None => (Err ErrInvalid, w)
      end
  end.

Record open_flags := mkFlags { o_create : bool; o_append : bool; o_trunc : bool }.

(** [os.OpenFile(path, flags, perm)]. *)
Definition OpenFile (path : string) (fl : open_flags) : M World File :=
  guarded (λ w,
    let fdno := w_next w in
    match w_dir w !! path with
    | Some ino =>
        let w1 := if o_trunc fl then set_ino (insert ino []) w else w in
        (Ok (Some fdno),
         bump (set_fd (insert fdno (mkFd ino (o_append fl) 0 true)) w1))
    | None =>
        if o_create fl then
          let ino := w_next w in
          (Ok (Some fdno),
           bump (set_fd (insert fdno (mkFd ino (o_append fl) 0 true))
             (set_ino (insert ino []) (set_dir (insert path ino) w))))
        else (Err ErrNotExist, w)
    end).

(** [f.ReadAt(buf, off)] with [len(buf) = n]. *)
Definition ReadAt (h : File) (n off : Z) : M World bytes :=
  match h with
  | None => fail ErrInvalid
  | Some _ =>
      if off <? 0 then fail (ErrNew "negative offset")
      else if n =? 0 then ret []
      else
        let! (_, f) := resolve h in
        guarded (λ w,
          let data := slice off n (content w (fd_ino f)) in
          if len data <? n then (Err ErrEOF, w) else (Ok data, w))
  end.

(** Store [buf] at [off] through descriptor [f]; a fault stores a prefix. *)
Definition pwrite (f : fd) (buf : bytes) (off : Z) : M World Z :=
  let! x := syscall in
  let put b := modify (set_ino (λ m,
    <[fd_ino f := write_bytes off b (default [] (m !! fd_ino f))]> m)) in
  match x with
  | None => do! put buf in ret (len buf)
  | Some k => do! put (take k buf) in fail ErrIO
  end.

(** [f.WriteAt(buf, off)]: the number of bytes written. *)
Definition WriteAt (h : File) (buf : bytes) (off : Z) : M World Z :=
  let! (_, f) := resolve h in
  if fd_append f then fail (ErrNew "os: invalid use of WriteAt on file opened with O_APPEND")
  else if off <? 0 then fail (ErrNew "negative offset")
  else if len buf =? 0 then ret 0
  else pwrite f buf off.

(** [f.Write(buf)]: at the end of an append file, else at the position. *)
Definition Write (h : File) (buf : bytes) : M World Z :=
  let! (n, f) := resolve h in
  let! w := get_st in
  let off := if fd_append f then len (content w (fd_ino f)) else fd_pos f in
  let! k := pwrite f buf off in
  do! modify (set_fd (insert n (mkFd (fd_ino f) (fd_append f) (off + k) true))) in
  ret k.

(** [f.Sync()], [f.Close()], [f.Stat().Size()]. *)
Definition Sync (h : File) : M World unit :=
  let! _ := resolve h in guarded (ret tt).
Definition Close (h : File) : M World unit :=
  let! (n, f) := resolve h in
  do! modify (set_fd (insert n (mkFd (fd_ino f) (fd_append f) (fd_pos f) false))) in
  guarded (ret tt).
Definition StatSize (h : File) : M World Z :=
  let! (_, f) := resolve h in
  guarded (λ w, (Ok (len (content w (fd_ino f))), w)).

(** [os.Stat(path)]: only whether it exists is used. *)
Definition Stat (path : string) : M World unit :=
  guarded (λ w,
    match w_dir w !! path with Some _ => (Ok tt, w) | None => (Err ErrNotExist, w) end).

(** [os.Remove(path)], [os.Rename(old, new)]. *)
Definition Remove (path : string) : M World unit :=
  guarded (λ w,
    match w_dir w !! path with
    | Some _ => (Ok tt, set_dir (delete path) w)
    | None => (Err ErrNotExist, w)
    end).
Definition Rename (old new : string) : M World unit :=
  guarded (λ w,
    match w_dir w !! old with
    | Some ino => (Ok tt, set_dir (λ d, <[new := ino]> (delete old d)) w)
    | None => (Err ErrNotExist, w)
    end).

(** [os.ReadFile(path)] and [os.WriteFile(path, data, perm)] (create, truncate,
    write, close). *)
Definition ReadFile (path : string) : M World bytes :=
  guarded (λ w,
    match w_dir w !! path with
    | Some ino => (Ok (content w ino), w)
    | None => (Err ErrNotExist, w)
    end).
Definition WriteFile (path : string) (data : bytes) : M World unit :=
  let! h := OpenFile path (mkFlags true false true) in
  let! r := attempt (Write h data) in
  let! c := attempt (Close h) in
  match r, c with
  | inr e, _ | inl _, inr e => fail e
  | inl _, inl _ => ret tt
  end.
(** [os.Create(path)]. *)
Definition Create (path : string) : M World File := OpenFile path (mkFlags true false true).

(** * Well-formed worlds *)

(** Identifiers are below [w_next], paths name existing inodes, and no two
    paths name the same one (no hard links are ever made). *)
Record wf_world (w : World) : Prop := {
  wf_dir : ∀ p ino, w_dir w !! p = Some ino → is_Some (w_ino w !! ino);
  wf_dir_inj : ∀ p q ino,
    w_dir w !! p = Some ino → w_dir w !! q = Some ino → p = q;
  wf_ino : ∀ ino, is_Some (w_ino w !! ino) → (ino < w_next w)%nat;
  wf_fd : ∀ n, is_Some (w_fd w !! n) → (n < w_next w)%nat;
}.

(** [h] is an open descriptor of inode [ino], not in append mode. *)
Definition open_at (w : World) (h : File) (ino : nat) : Prop :=
  ∃ n pos, h = Some n ∧ w_fd w !! n = Some (mkFd ino false pos true).

(** The fault script a call leaves: none where there was none. *)
Definition fault_step (w : World) (fs : list (option nat)) : Prop :=
  w_faults w = [] → fs = [].

(** * Lemmas on byte ranges *)

Lemma slice_at off n pre data rest :
  off = len pre → n = len data → slice off n (pre ++ data ++ rest) = data.
Proof.
  intros -> ->. unfold slice, len. rewrite !Nat2Z.id, drop_app_length, take_app_length.
  done.
Qed.

Lemma len_slice off n l :
  0 ≤ off → 0 ≤ n → off + n ≤ len l → len (slice off n l) = n.
Proof. unfold slice, len. rewrite length_take, length_drop. lia. Qed.

Lemma len_slice_le off n l : 0 ≤ n → len (slice off n l) ≤ n.
Proof. unfold slice, len. rewrite length_take. lia. Qed.

Lemma slice_take off n m l :
  0 ≤ n ≤ m → slice off n l = take (Z.to_nat n) (slice off m l).
Proof. intros H. unfold slice. rewrite take_take. f_equal. lia. Qed.

Lemma slice_past off n l : len l ≤ off → slice off n l = [].
Proof.
  intros H. unfold slice, len in *. rewrite drop_ge by lia. apply take_nil.
Qed.

(** Writing right after a prefix keeps the prefix. *)
Lemma write_bytes_app pre buf tail :
  write_bytes (len pre) buf (pre ++ tail) = pre ++ buf ++ drop (length buf) tail.
Proof.
  unfold write_bytes, len. destruct buf as [|x buf]; [done|].
  rewrite !Nat2Z.id. rewrite <-!(assoc_L (++)), take_app_length. f_equal. f_equal.
  apply drop_app_add.
Qed.

Lemma write_bytes_end pre buf : write_bytes (len pre) buf pre = pre ++ buf.
Proof.
  pose proof (write_bytes_app pre buf []) as H. rewrite (right_id_L [] (++)) in H.
  by rewrite H, drop_nil, (right_id_L [] (++)).
Qed.

(** * Lemmas on system calls *)

Lemma syscall_spec w :
  ∃ x fs, syscall w = (Ok x, set_faults fs w) ∧ fault_step w fs ∧
    (w_faults w = [] → x = None).
Proof.
  unfold syscall, fault_step. destruct w as [d i f n [|x fs]]; simpl.
  - by exists None, [].
  - by exists x, fs.
Qed.

Lemma guarded_spec {A} (m : M World A) w :
  ∃ fs, fault_step w fs ∧
    ((guarded m w = (Err ErrIO, set_faults fs w) ∧ w_faults w ≠ []) ∨
     guarded m w = m (set_faults fs w)).
Proof.
  destruct (syscall_spec w) as (x & fs & E & Hfs & Hx). exists fs. split; [done|].
  unfold guarded. rewrite (bind_ok _ _ _ _ _ E). destruct x; [left|by right].
  split; [done|]. intros H. by specialize (Hx H).
Qed.

(** Split a goal about one guarded call into its failure, closed, and success. *)
Ltac guarded_cases :=
  match goal with
  | |- context [guarded ?m ?w] =>
      let fs := fresh "fs" in let Hfs := fresh "Hfs" in
      let E := fresh "E" in let Hne := fresh "Hne" in
      destruct (guarded_spec m w) as (fs & Hfs & [[E Hne]|E]); rewrite E;
      exists fs; (split; [done|]); [by left|right]
  end.

Lemma resolve_open w h ino :
  open_at w h ino →
  ∃ n pos, h = Some n ∧ resolve h w = (Ok (n, mkFd ino false pos true), w).
Proof. intros (n & pos & -> & E). exists n, pos. unfold resolve. by rewrite E. Qed.

(** [ReadAt] on an open file: the bytes asked for, [io.EOF] when there are
    fewer, or a fault; the world changes only in its script. *)
Lemma ReadAt_spec w h ino n off :
  open_at w h ino → 0 ≤ off → 0 < n →
  ∃ fs, fault_step w fs ∧
    ((ReadAt h n off w = (Err ErrIO, set_faults fs w) ∧ w_faults w ≠ []) ∨
     ReadAt h n off w =
       (if len (slice off n (content w ino)) <? n then Err ErrEOF
        else Ok (slice off n (content w ino)), set_faults fs w)).
Proof.
  intros Ho Hoff Hn. destruct (resolve_open _ _ _ Ho) as (k & pos & -> & Er).
  unfold ReadAt. destruct (Z.ltb_spec off 0); [lia|].
  destruct (Z.eqb_spec n 0); [lia|]. rewrite (bind_ok _ _ _ _ _ Er).
  guarded_cases. simpl.
  change (content (set_faults fs w) ino) with (content w ino). by destruct (_ <? _).
Qed.

(** The world after [b] has been stored at [off] in inode [ino]. *)
Definition stored (ino : nat) (off : Z) (b : bytes) (w : World) : World :=
  set_ino (λ m, <[ino := write_bytes off b (default [] (m !! ino))]> m) w.

Lemma WriteAt_spec w h ino buf off :
  open_at w h ino → 0 ≤ off → 0 < len buf →
  ∃ fs, fault_step w fs ∧
    ((∃ k, WriteAt h buf off w =
       (Err ErrIO, stored ino off (take k buf) (set_faults fs w)) ∧ w_faults w ≠ []) ∨
     WriteAt h buf off w = (Ok (len buf), stored ino off buf (set_faults fs w))).
Proof.
  intros Ho Hoff Hb. destruct (resolve_open _ _ _ Ho) as (n & pos & -> & Er).
  unfold WriteAt. rewrite (bind_ok _ _ _ _ _ Er). simpl.
  destruct (Z.ltb_spec off 0); [lia|]. destruct (Z.eqb_spec (len buf) 0); [lia|].
  destruct (syscall_spec w) as (x & fs & E & Hfs & Hx). exists fs. split; [done|].
  unfold pwrite. rewrite (bind_ok _ _ _ _ _ E).
  destruct x as [k|]; [left; exists k; split; [done|]|by right].
  intros H'. by specialize (Hx H').
Qed.

(** The world after a path has been opened without truncation. *)
Definition opened (path : string) (app : bool) (w : World) : World :=
  let n := w_next w in
  let ino := default n (w_dir w !! path) in
  bump (set_fd (insert n (mkFd ino app 0 true))
    (match w_dir w !! path with
     | Some _ => w
     | None => set_ino (insert n []) (set_dir (insert path n) w)
     end)).

Lemma OpenFile_spec w p app :
  ∃ fs, fault_step w fs ∧
    ((OpenFile p (mkFlags true app false) w = (Err ErrIO, set_faults fs w)
      ∧ w_faults w ≠ []) ∨
     OpenFile p (mkFlags true app false) w =
       (Ok (Some (w_next w)), opened p app (set_faults fs w))).
Proof.
  unfold OpenFile.
  guarded_cases.
  unfold opened. simpl. by destruct (w_dir w !! p).
Qed.

(** * Preservation of well-formedness *)

Lemma wf_set_faults fs w : wf_world w → wf_world (set_faults fs w).
Proof. intros [? ? ? ?]. by constructor. Qed.

Lemma wf_stored ino off b w :
  is_Some (w_ino w !! ino) → wf_world w → wf_world (stored ino off b w).
Proof.
  intros Hi [H1 H2 H3 H4]. constructor; simpl; [| done | | done].
  - intros p i Hp. destruct (decide (i = ino)) as [->|Hne].
    + rewrite lookup_insert_eq. by eexists.
    + rewrite lookup_insert_ne by done. by eapply H1.
  - intros i. destruct (decide (i = ino)) as [->|Hne]; [intros _; by apply H3|].
    rewrite lookup_insert_ne by done. apply H3.
Qed.

Lemma wf_fresh_ino w : wf_world w → w_ino w !! w_next w = None.
Proof.
  intros H. destruct (w_ino w !! w_next w) eqn:E; [|done].
  assert (w_next w < w_next w)%nat; [|lia]. apply (wf_ino w H). rewrite E. by eexists.
Qed.

Lemma wf_fresh_fd w : wf_world w → w_fd w !! w_next w = None.
Proof.
  intros H. destruct (w_fd w !! w_next w) eqn:E; [|done].
  assert (w_next w < w_next w)%nat; [|lia]. apply (wf_fd w H). rewrite E. by eexists.
Qed.

Lemma wf_opened p app w : wf_world w → wf_world (opened p app w).
Proof.
  intros Hw. pose proof (wf_fresh_ino w Hw) as Hf. destruct Hw as [H1 H2 H3 H4].
  assert (∀ q, w_dir w !! q ≠ Some (w_next w)) as Hnew.
  { intros q Hq. destruct (H1 _ _ Hq) as [c Hc]. congruence. }
  unfold opened. destruct (w_dir w !! p) as [ino|] eqn:Ep; constructor; simpl.
  - intros q i Hq. by eapply H1.
  - done.
  - intros i Hi. specialize (H3 i Hi). lia.
  - intros n. destruct (decide (n = w_next w)) as [->|Hne]; [lia|].
    rewrite lookup_insert_ne by done. intros Hn. specialize (H4 n Hn). lia.
  - intros q i. destruct (decide (i = w_next w)) as [->|Hne].
    { rewrite lookup_insert_eq. by eexists. }
    rewrite (lookup_insert_ne (w_ino w)) by done. intros Hq. simplify_map_eq.
    destruct (decide (q = p)) as [->|Hqp]; simplify_map_eq. by eapply H1.
  - intros q r i Hq Hr. destruct (decide (q = p)) as [->|Hqp], (decide (r = p)) as [->|Hrp];
      simplify_map_eq; try done; [| |by eapply H2]; exfalso; by eapply Hnew.
  - intros i. destruct (decide (i = w_next w)) as [->|Hne]; [lia|].
    rewrite lookup_insert_ne by done. intros Hi. specialize (H3 i Hi). lia.
  - intros n. destruct (decide (n = w_next w)) as [->|Hne]; [lia|].
    rewrite lookup_insert_ne by done. intros Hn. specialize (H4 n Hn). lia.
Qed.

#[export] Hint Resolve wf_set_faults wf_stored wf_opened : go.

(** The opened path, and what stays of the old world. *)
Lemma opened_dir p app w :
  w_dir (opened p app w) = <[p := default (w_next w) (w_dir w !! p)]> (w_dir w).
Proof. unfold opened. destruct (w_dir w !! p) eqn:E; simpl; [by rewrite insert_id|done]. Qed.

Lemma opened_ino p app w i c :
  wf_world w → w_ino w !! i = Some c → w_ino (opened p app w) !! i = Some c.
Proof.
  intros Hw Hi. pose proof (wf_fresh_ino w Hw). unfold opened.
  destruct (w_dir w !! p); simpl; [done|]. rewrite lookup_insert_ne; [done|congruence].
Qed.

Lemma opened_open p w :
  open_at (opened p false w) (Some (w_next w)) (default (w_next w) (w_dir w !! p)).
Proof.
  unfold opened, open_at. exists (w_next w), 0.
  destruct (w_dir w !! p); simpl; by rewrite lookup_insert_eq.
Qed.

Lemma opened_keep p app w h ino :
  wf_world w → open_at w h ino → open_at (opened p app w) h ino.
Proof.
  intros Hw (n & pos & -> & E). pose proof (wf_fresh_fd w Hw). exists n, pos.
  split; [done|]. unfold opened.
  destruct (w_dir w !! p); simpl; (rewrite lookup_insert_ne; [done|congruence]).
Qed.

(** Only this inode changes. *)
Lemma stored_ino_eq ino off b w c :
  w_ino w !! ino = Some c →
  w_ino (stored ino off b w) !! ino = Some (write_bytes off b c).
Proof. intros E. unfold stored. simpl. by rewrite lookup_insert_eq, E. Qed.
Lemma stored_ino_ne ino off b w i :
  i ≠ ino → w_ino (stored ino off b w) !! i = w_ino w !! i.
Proof. intros H. unfold stored. simpl. by rewrite lookup_insert_ne. Qed.

Lemma opened_faults p app w : w_faults (opened p app w) = w_faults w.
Proof. unfold opened. simpl. by destruct (w_dir w !! p). Qed.

(** Opening a path that does not exist creates an empty file. *)
Lemma opened_new p app w :
  w_dir w !! p = None →
  opened p app w = bump (set_fd (insert (w_next w) (mkFd (w_next w) app 0 true))
    (set_ino (insert (w_next w) []) (set_dir (insert p (w_next w)) w))).
Proof. intros H. unfold opened. by rewrite H. Qed.

Lemma stored_dir ino off b w : w_dir (stored ino off b w) = w_dir w.
Proof. done. Qed.
Lemma stored_fd ino off b w : w_fd (stored ino off b w) = w_fd w.
Proof. done. Qed.
Lemma stored_faults ino off b w : w_faults (stored ino off b w) = w_faults w.
Proof. done. Qed.
#[export] Hint Rewrite stored_dir stored_fd stored_faults opened_dir opened_faults : go.


(** * System calls when no fault is to come *)

Section no_faults.
Variable w : World.
Hypothesis Hnf : w_faults w = [].

Lemma syscall_nf : syscall w = (Ok None, w).
Proof. unfold syscall. by rewrite Hnf. Qed.

Lemma guarded_nf {A} (m : M World A) : guarded m w = m w.
Proof. unfold guarded. by rewrite (bind_ok _ _ _ _ _ syscall_nf). Qed.

Lemma OpenFile_nf p :
  OpenFile p (mkFlags true false false) w = (Ok (Some (w_next w)), opened p false w).
Proof.
  unfold OpenFile. rewrite guarded_nf. unfold opened. simpl.
  by destruct (w_dir w !! p).
Qed.

Lemma Stat_nf p :
  Stat p w = (if w_dir w !! p is Some _ then Ok tt else Err ErrNotExist, w).
Proof. unfold Stat. rewrite guarded_nf. by destruct (w_dir w !! p). Qed.

Lemma Remove_nf p :
  Remove p w = (if w_dir w !! p is Some _ then Ok tt else Err ErrNotExist, set_dir (delete p) w).
Proof.
  unfold Remove. rewrite guarded_nf. destruct (w_dir w !! p) eqn:E; [done|].
  unfold set_dir. rewrite delete_id by done. by destruct w.
Qed.

Variables (h : File) (ino : nat).
Hypothesis Ho : open_at w h ino.

Lemma StatSize_nf : StatSize h w = (Ok (len (content w ino)), w).
Proof.
  destruct (resolve_open _ _ _ Ho) as (n & pos & -> & Er).
  unfold StatSize. rewrite (bind_ok _ _ _ _ _ Er). by rewrite guarded_nf.
Qed.

Lemma Sync_nf : Sync h w = (Ok tt, w).
Proof.
  destruct (resolve_open _ _ _ Ho) as (n & pos & -> & Er).
  unfold Sync. rewrite (bind_ok _ _ _ _ _ Er). by rewrite guarded_nf.
Qed.

Lemma Close_nf :
  ∃ n pos, h = Some n ∧
    Close h w = (Ok tt, set_fd (insert n (mkFd ino false pos false)) w).
Proof.
  destruct (resolve_open _ _ _ Ho) as (n & pos & -> & Er). exists n, pos.
  split; [done|]. unfold Close. rewrite (bind_ok _ _ _ _ _ Er).
  unfold bind, modify, guarded, bind, syscall. simpl. by rewrite Hnf.
Qed.

Lemma WriteAt_nf buf off :
  0 ≤ off → 0 < len buf → WriteAt h buf off w = (Ok (len buf), stored ino off buf w).
Proof.
  intros H1 H2. destruct (resolve_open _ _ _ Ho) as (n & pos & -> & Er).
  unfold WriteAt. rewrite (bind_ok _ _ _ _ _ Er). simpl.
  destruct (Z.ltb_spec off 0); [lia|]. destruct (Z.eqb_spec (len buf) 0); [lia|].
  unfold pwrite. by rewrite (bind_ok _ _ _ _ _ syscall_nf).
Qed.

Lemma ReadAt_nf n off :
  0 ≤ off → 0 < n →
  ReadAt h n off w =
    (if len (slice off n (content w ino)) <? n then Err ErrEOF
     else Ok (slice off n (content w ino)), w).
Proof.
  intros H1 H2. destruct (resolve_open _ _ _ Ho) as (k & pos & -> & Er).
  unfold ReadAt. destruct (Z.ltb_spec off 0); [lia|].
  destruct (Z.eqb_spec n 0); [lia|]. rewrite (bind_ok _ _ _ _ _ Er), guarded_nf.
  simpl. by destruct (_ <? _).
Qed.
End no_faults.

(** The same for a descriptor known in full, in append mode or not. *)
Section descriptors.
Variable w : World.
Hypothesis Hnf : w_faults w = [].
Variables (n : nat) (f : fd).
Hypothesis Hn : w_fd w !! n = Some f.
Hypothesis Hop : fd_open f = true.

Lemma resolve_fd : resolve (Some n) w = (Ok (n, f), w).
Proof. unfold resolve. by rewrite Hn, Hop. Qed.

Lemma ReadAt_fd k off :
  0 ≤ off → 0 ≤ k →
  ReadAt (Some n) k off w =
    (if len (slice off k (content w (fd_ino f))) <? k then Err ErrEOF
     else Ok (slice off k (content w (fd_ino f))), w).
Proof.
  intros H1 H2. unfold ReadAt. destruct (Z.ltb_spec off 0); [lia|].
  destruct (Z.eqb_spec k 0) as [->|Hk].
  - assert (slice off 0 (content w (fd_ino f)) = []) as -> by done. done.
  - rewrite (bind_ok _ _ _ _ _ resolve_fd), guarded_nf by done. simpl.
    by destruct (_ <? _).
Qed.

Lemma StatSize_fd : StatSize (Some n) w = (Ok (len (content w (fd_ino f))), w).
Proof. unfold StatSize. by rewrite (bind_ok _ _ _ _ _ resolve_fd), guarded_nf. Qed.

Lemma Sync_fd : Sync (Some n) w = (Ok tt, w).
Proof. unfold Sync. by rewrite (bind_ok _ _ _ _ _ resolve_fd), guarded_nf. Qed.

Lemma Close_fd :
  Close (Some n) w =
    (Ok tt, set_fd (insert n (mkFd (fd_ino f) (fd_append f) (fd_pos f) false)) w).
Proof.
  unfold Close. rewrite (bind_ok _ _ _ _ _ resolve_fd).
  rewrite (bind_ok _ _ _ tt _) by done. by rewrite guarded_nf.
Qed.

Lemma Write_fd buf :
  let off := if fd_append f then len (content w (fd_ino f)) else fd_pos f in
  Write (Some n) buf w =
    (Ok (len buf), set_fd (insert n (mkFd (fd_ino f) (fd_append f) (off + len buf) true))
      (set_ino (insert (fd_ino f) (write_bytes off buf (content w (fd_ino f)))) w)).
Proof.
  intros off. unfold Write. rewrite (bind_ok _ _ _ _ _ resolve_fd).
  rewrite (bind_ok _ _ w w w) by done. fold off.
  unfold pwrite, bind at 1, bind at 1. by rewrite syscall_nf.
Qed.
End descriptors.

(** * Opening, truncating and renaming *)

(** A new descriptor of inode [ino]. *)
Definition with_fd (ino : nat) (app : bool) (w : World) : World :=
  bump (set_fd (insert (w_next w) (mkFd ino app 0 true)) w).

(** A path created, or truncated when it exists. *)
Definition emptied (p : string) (w : World) : World :=
  let ino := default (w_next w) (w_dir w !! p) in
  bump (set_fd (insert (w_next w) (mkFd ino false 0 true))
    (set_ino (insert ino []) (set_dir (insert p ino) w))).

Lemma OpenFile_existing w p ino create app :
  w_faults w = [] → w_dir w !! p = Some ino →
  OpenFile p (mkFlags create app false) w = (Ok (Some (w_next w)), with_fd ino app w).
Proof. intros F E. unfold OpenFile. rewrite guarded_nf by done. by rewrite E. Qed.

Lemma OpenFile_trunc w p :
  w_faults w = [] →
  OpenFile p (mkFlags true false true) w = (Ok (Some (w_next w)), emptied p w).
Proof.
  intros F. unfold OpenFile, emptied. rewrite guarded_nf by done.
  destruct (w_dir w !! p) eqn:E; simpl; [|done].
  unfold set_ino, set_dir, set_fd, bump. simpl. by rewrite (insert_id (w_dir w)).
Qed.

Lemma Rename_nf w p q ino :
  w_faults w = [] → w_dir w !! p = Some ino →
  Rename p q w = (Ok tt, set_dir (λ d, <[q := ino]> (delete p d)) w).
Proof. intros F E. unfold Rename. rewrite guarded_nf by done. by rewrite E. Qed.

Lemma wf_set_fd n f w : (n < w_next w)%nat → wf_world w → wf_world (set_fd (insert n f) w).
Proof.
  intros Hn [H1 H2 H3 H4]. constructor; simpl; try done.
  intros k. destruct (decide (k = n)) as [->|]; [done|rewrite lookup_insert_ne by done; auto].
Qed.

Lemma wf_set_ino i b w :
  is_Some (w_ino w !! i) → wf_world w → wf_world (set_ino (insert i b) w).
Proof.
  intros Hi [H1 H2 H3 H4]. constructor; simpl; try done.
  - intros p ino Hp. destruct (decide (ino = i)) as [->|];
      [rewrite lookup_insert_eq; by eexists|rewrite lookup_insert_ne by done; by eapply H1].
  - intros k. destruct (decide (k = i)) as [->|]; [auto|rewrite lookup_insert_ne by done; auto].
Qed.

Lemma wf_with_fd ino app w : wf_world w → wf_world (with_fd ino app w).
Proof.
  intros [H1 H2 H3 H4]. constructor; simpl; try done.
  - intros k Hk. specialize (H3 k Hk). lia.
  - intros k. destruct (decide (k = w_next w)) as [->|]; [lia|].
    rewrite lookup_insert_ne by done. intros Hk. specialize (H4 k Hk). lia.
Qed.

Lemma wf_emptied p w : wf_world w → wf_world (emptied p w).
Proof.
  intros Hw. unfold emptied. destruct (w_dir w !! p) as [i|] eqn:E; simpl.
  - replace (set_dir (insert p i) w) with w.
    2: { unfold set_dir. rewrite insert_id by done. by destruct w. }
    apply (wf_with_fd i false (set_ino (insert i []) w)), wf_set_ino; [|done].
    by eapply (wf_dir w Hw).
  - pose proof (wf_opened p false w Hw) as H. by rewrite (opened_new _ _ _ E) in H.
Qed.

(** Renaming onto a path that then names the inode alone. *)
Lemma wf_rename p q ino w :
  w_dir w !! p = Some ino → wf_world w →
  wf_world (set_dir (λ d, <[q := ino]> (delete p d)) w).
Proof.
  intros Hp [H1 H2 H3 H4].
  assert (∀ r i, <[q:=ino]> (delete p (w_dir w)) !! r = Some i →
    (r = q ∧ i = ino) ∨ (r ≠ q ∧ r ≠ p ∧ w_dir w !! r = Some i)) as Hr.
  { intros r i [[-> ->]|[Hne [? ?]%lookup_delete_Some]]%lookup_insert_Some;
      [by left|right; by split_and!]. }
  constructor; simpl; try done.
  - intros r i [[-> ->]|(_ & _ & Hi)]%Hr; by eapply H1.
  - intros r r' i [[-> ->]|(N1 & N2 & E1)]%Hr [[-> ?]|(N3 & N4 & E2)]%Hr; try done.
    + destruct N4. exact (H2 _ _ _ E2 Hp).
    + subst. destruct N2. exact (H2 _ _ _ E1 Hp).
    + by eapply H2.
Qed.

(** * What calls leave alone, whatever the faults *)

(** [p] names inode [ci], which holds [b]; descriptor [n] is one of another inode. *)
Record apart (p : string) (ci : nat) (b : bytes) (n : nat) (w : World) : Prop := {
  ap_dir : w_dir w !! p = Some ci;
  ap_ino : w_ino w !! ci = Some b;
  ap_fd : ∃ f, w_fd w !! n = Some f ∧ fd_ino f ≠ ci;
}.

Section apart.
Variables (p : string) (ci : nat) (b : bytes) (n : nat).
Abbreviation P := (apart p ci b n).

Lemma apart_faults fs w : P w → P (set_faults fs w).
Proof. by intros [? ? ?]. Qed.

Lemma apart_guarded {A} (m : M World A) : preserves P m → preserves P (guarded m).
Proof.
  intros Hm w Hw. destruct (guarded_spec m w) as (fs & _ & [[E _]|E]); rewrite E;
    [by apply apart_faults|by apply Hm, apart_faults].
Qed.

Lemma apart_resolve h : preserves P (resolve h).
Proof. intros w Hw. unfold resolve. by repeat case_match. Qed.

Lemma apart_ReadAt h k off : preserves P (ReadAt h k off).
Proof.
  unfold ReadAt. destruct h; [|apply preserves_fail].
  destruct (off <? 0); [apply preserves_fail|]. destruct (k =? 0); [apply preserves_ret|].
  apply preserves_bind; [apply apart_resolve|]. intros [? f]. apply apart_guarded.
  intros w Hw. by case_match.
Qed.

Lemma apart_StatSize h : preserves P (StatSize h).
Proof.
  apply preserves_bind; [apply apart_resolve|]. intros [? f]. apply apart_guarded. by intros w.
Qed.

Lemma apart_Sync h : preserves P (Sync h).
Proof.
  apply preserves_bind; [apply apart_resolve|]. intros _. apply apart_guarded, preserves_ret.
Qed.

Lemma apart_Close h : preserves P (Close h).
Proof.
  intros w Hw. unfold Close, bind at 1, resolve.
  destruct h as [k|]; [|done]. destruct (w_fd w !! k) as [g|] eqn:Ek; [|done].
  destruct (fd_open g); [|done]. rewrite (bind_ok _ _ _ tt _) by done.
  apply (apart_guarded (ret tt)); [apply preserves_ret|].
  destruct Hw as [H1 H2 (f & H3 & H4)]. constructor; [done..|]. simpl.
  destruct (decide (k = n)) as [->|Hne];
    [rewrite lookup_insert_eq; eexists; split; [done|]; simpl; by simplify_eq|].
  rewrite lookup_insert_ne by done. by exists f.
Qed.

(** Writing through the other descriptor. *)
Lemma apart_pwrite f buf off : fd_ino f ≠ ci → preserves P (pwrite f buf off).
Proof.
  intros Hf w Hw. unfold pwrite. destruct (syscall_spec w) as (x & fs & E & _ & _).
  rewrite (bind_ok _ _ _ _ _ E). apply (apart_faults fs) in Hw.
  assert (∀ c, P (set_ino (λ m, <[fd_ino f := write_bytes off c (default [] (m !! fd_ino f))]> m)
    (set_faults fs w))) as Hst.
  { intros c. destruct Hw as [H1 H2 H3]. constructor; [done| |done]. simpl.
    by rewrite lookup_insert_ne. }
  destruct x; apply Hst.
Qed.

Lemma apart_Write buf : preserves P (Write (Some n) buf).
Proof.
  intros w Hw. unfold Write, bind at 1, resolve.
  destruct (ap_fd _ _ _ _ _ Hw) as (f & Ef & Hf). rewrite Ef.
  destruct (fd_open f); [|done]. unfold bind at 1, get_st. cbn zeta.
  pose proof (apart_pwrite f buf
    (if fd_append f then len (content w (fd_ino f)) else fd_pos f) Hf w Hw) as H.
  unfold bind at 1. destruct (pwrite _ _ _ w) as [[k| | |] w']; try done. simpl in *.
  destruct H as [H1 H2 _]. constructor; [done..|]. simpl.
  rewrite lookup_insert_eq. by eexists.
Qed.
End apart.
#[export] Hint Resolve apart_ReadAt apart_StatSize apart_Sync apart_Close apart_Write
  : preserves.

#[global] Opaque opened stored.

(** * Whole files *)

(** The contents behind a path. *)
Definition file_at (w : World) (p : string) : option bytes := content w <$> w_dir w !! p.

Lemma emptied_at p w : file_at (emptied p w) p = Some [].
Proof.
  unfold file_at, emptied, content. simpl. rewrite lookup_insert_eq. simpl.
  by rewrite lookup_insert_eq.
Qed.

Lemma ReadFile_nf w p :
  w_faults w = [] →
  ReadFile p w = (match file_at w p with Some b => Ok b | None => Err ErrNotExist end, w).
Proof.
  intros F. unfold ReadFile, file_at. rewrite guarded_nf by done. by destruct (w_dir w !! p).
Qed.

(** The descriptor [emptied] makes. *)
Lemma emptied_fd p w :
  w_fd (emptied p w) !! w_next w = Some (mkFd (default (w_next w) (w_dir w !! p)) false 0 true).
Proof. unfold emptied. simpl. by rewrite lookup_insert_eq. Qed.

Lemma Create_nf w p :
  w_faults w = [] → Create p w = (Ok (Some (w_next w)), emptied p w).
Proof. apply OpenFile_trunc. Qed.

Lemma write_whole buf : write_bytes 0 buf [] = buf.
Proof. unfold write_bytes. destruct buf; [done|]. simpl. by rewrite (right_id_L [] (++)). Qed.

Lemma WriteFile_nf w p data :
  w_faults w = [] →
  ∃ w', WriteFile p data w = (Ok tt, w') ∧ file_at w' p = Some data ∧ w_faults w' = [].
Proof.
  intros F. unfold WriteFile. rewrite (bind_ok _ _ _ _ _ (OpenFile_trunc _ p F)).
  pose proof (emptied_fd p w) as Hf.
  pose proof (Write_fd (emptied p w) F _ _ Hf eq_refl data) as Ew. cbn [fd_append fd_pos fd_ino] in Ew.
  rewrite (bind_ok _ _ _ _ _ (attempt_ok _ _ _ _ Ew)).
  match type of Ew with _ = (_, ?w1) => set (w1' := w1) in * end.
  assert (w_fd w1' !! w_next w =
    Some (mkFd (default (w_next w) (w_dir w !! p)) false (0 + len data) true)) as Hf1.
  { unfold w1'. simpl. by rewrite lookup_insert_eq. }
  rewrite (bind_ok _ _ _ _ _ (attempt_ok _ _ _ _ (Close_fd w1' F _ _ Hf1 eq_refl))).
  eexists. split; [reflexivity|]. split; [|done].
  unfold file_at, content, w1', emptied. simpl. rewrite lookup_insert_eq. simpl.
  rewrite lookup_insert_eq. simpl. unfold content. simpl. rewrite lookup_insert_eq. simpl.
  by rewrite write_whole.
Qed.

Lemma file_at_set_fd f w p : file_at (set_fd f w) p = file_at w p.
Proof. done. Qed.
Lemma file_at_set_faults fs w p : file_at (set_faults fs w) p = file_at w p.
Proof. done. Qed.

Lemma syscall_none w w' : syscall w = (Ok None, w') → ∃ fs, w' = set_faults fs w.
Proof.
  unfold syscall. destruct (w_faults w) as [|x fs] eqn:E; intros [=]; subst.
  - exists []. rewrite <-E. by destruct w'.
  - by eexists.
Qed.

Lemma guarded_ok {A} (m : M World A) w a w' :
  guarded m w = (Ok a, w') → ∃ fs, m (set_faults fs w) = (Ok a, w').
Proof.
  unfold guarded. intros (x & w1 & E & E')%bind_inv. destruct x; [done|].
  destruct (syscall_none _ _ E) as [fs ->]. by exists fs.
Qed.

Lemma OpenFile_trunc_ok p w h w' :
  OpenFile p (mkFlags true false true) w = (Ok h, w') →
  ∃ fs, h = Some (w_next w) ∧ w' = set_faults fs (emptied p w).
Proof.
  unfold OpenFile. intros [fs E]%guarded_ok. exists fs. revert E. unfold emptied. simpl.
  destruct (w_dir w !! p) eqn:Ed; simpl; intros [= <- <-]; split; try done.
  unfold set_ino, set_dir, set_fd, bump, set_faults. simpl. by rewrite (insert_id (w_dir w)).
Qed.

(** A [WriteFile] that succeeds has stored the data, whatever faults there were. *)
Lemma WriteFile_ok w p data w' :
  WriteFile p data w = (Ok tt, w') → file_at w' p = Some data.
Proof.
  unfold WriteFile. intros (h & w1 & (fs & -> & ->)%OpenFile_trunc_ok & E)%bind_inv.
  pose proof (emptied_fd p w) as Hf. set (ino := default (w_next w) (w_dir w !! p)) in *.
  apply bind_inv in E as (r & w2 & E2 & E). apply bind_inv in E as (c & w3 & E3 & E).
  destruct r as [k|]; [|done]. destruct c as [[]|]; [|done]. injection E as ->.
  assert (file_at w2 p = Some data) as H2.
  { revert E2. unfold attempt, Write.
    rewrite (bind_ok _ _ _ _ _ (resolve_fd (set_faults fs (emptied p w)) _ _ Hf eq_refl)).
    rewrite (bind_ok get_st _ _ _ _ eq_refl). cbn [fd_append fd_pos]. unfold pwrite, bind at 1, bind at 1.
    destruct (syscall (set_faults fs (emptied p w))) as [[[x|]|e|y|] w4] eqn:E4; try by intros [=].
    destruct (syscall_none _ _ E4) as [fs' ->]. intros [= _ <-].
    unfold file_at, content. cbn. rewrite lookup_insert_eq. cbn. rewrite lookup_insert_eq. cbn.
    rewrite lookup_insert_eq. cbn. by rewrite write_whole. }
  revert E3. unfold attempt, Close, bind, resolve. destruct (w_fd w2 !! _) as [f|]; [|by intros [=]].
  destruct (fd_open f); [|by intros [=]]. cbn. unfold guarded, bind.
  destruct (syscall _) as [[[x|]|e|y|] w4] eqn:E4; cbn; try by intros [=].
  destruct (syscall_none _ _ E4) as [fs' ->]. intros [= <-]. exact H2.
Qed.

(** * What stays of the other files *)

(** No fault is to come. *)
Definition calm (w : World) : Prop := w_faults w = [] ∧ wf_world w.

Lemma file_at_set_ino w p i b q :
  wf_world w → w_dir w !! p = Some i →
  file_at (set_ino (insert i b) w) q = if decide (q = p) then Some b else file_at w q.
Proof.
  intros W Hp. unfold file_at, content. simpl. case_decide as Hq.
  - subst q. rewrite Hp. simpl. by rewrite lookup_insert_eq.
  - destruct (w_dir w !! q) as [j|] eqn:Ej; [|done]. simpl. rewrite lookup_insert_ne; [done|].
    intros ->. by apply Hq, (wf_dir_inj _ W _ _ j).
Qed.

Lemma file_at_with_fd i app w q : file_at (with_fd i app w) q = file_at w q.
Proof. done. Qed.

Lemma file_at_emptied p w q :
  wf_world w → file_at (emptied p w) q = if decide (q = p) then Some [] else file_at w q.
Proof.
  intros W. case_decide as Hq; [subst q; apply emptied_at|].
  unfold file_at, content, emptied. simpl. rewrite lookup_insert_ne by done.
  destruct (w_dir w !! q) as [j|] eqn:Ej; [|done]. simpl. rewrite lookup_insert_ne; [done|].
  intros <-. destruct (w_dir w !! p) as [i|] eqn:Ei; simpl in Ej.
  - by apply Hq, (wf_dir_inj _ W _ _ i).
  - destruct (wf_dir _ W _ _ Ej) as [b Hb]. pose proof (wf_ino _ W _ (mk_is_Some _ _ Hb)). lia.
Qed.

Lemma calm_with_fd i app w : calm w → calm (with_fd i app w).
Proof. intros [F W]. split; [done|by apply wf_with_fd]. Qed.
Lemma calm_emptied p w : calm w → calm (emptied p w).
Proof. intros [F W]. split; [done|by apply wf_emptied]. Qed.

(** One write through a descriptor of [p], and its close. *)
Lemma Write_Close w n i app pos p buf :
  calm w → w_fd w !! n = Some (mkFd i app pos true) → w_dir w !! p = Some i →
  let off := if app then len (content w i) else pos in
  ∃ w2 w3, Write (Some n) buf w = (Ok (len buf), w2) ∧ Close (Some n) w2 = (Ok tt, w3) ∧ calm w3 ∧
    ∀ q, file_at w3 q =
      if decide (q = p) then Some (write_bytes off buf (content w i)) else file_at w q.
Proof.
  intros [F W] Hn Hp off. pose proof (Write_fd w F n _ Hn eq_refl buf) as E.
  cbn [fd_append fd_ino fd_pos] in E. fold off in E.
  match type of E with _ = (_, ?w2) => set (w2' := w2) in * end.
  assert (w_fd w2' !! n = Some (mkFd i app (off + len buf) true)) as Hn2 by apply lookup_insert_eq.
  pose proof (wf_fd _ W _ (mk_is_Some _ _ Hn)) as Hlt.
  assert (wf_world w2') as W2 by (apply wf_set_fd; [done|]; apply wf_set_ino; [by eapply wf_dir|done]).
  eexists _, _. split; [exact E|]. split; [by apply (Close_fd w2' F n _ Hn2 eq_refl)|]. split.
  - split; [exact F|by apply wf_set_fd].
  - intros q. unfold w2'. rewrite !file_at_set_fd. by apply file_at_set_ino.
Qed.

Lemma wf_empty : wf_world empty_world.
Proof.
  constructor; simpl; [|by intros p q i; rewrite lookup_empty|..];
    intros *; rewrite lookup_empty; try done; by intros [? ?].
Qed.

Lemma calm_empty : calm empty_world.
Proof. split; [done|apply wf_empty]. Qed.
