(* ===== verification/GoHttp.v ===== *)
(** The parts of package net/http that the servers use: header maps, response writers, and
    the replies the package makes itself. *)

From Stdlib Require Import ZArith Lia Ascii String.
From stdpp Require Import gmap strings list fin_maps.
From S2P Require Import Prelude GoLib.

Module Http.

(** * Headers *)

(** Canonical keys, values in the order they were added. *)
Abbreviation Header := (gmap string (list string)).

Definition ascii_between (a b c : ascii) : bool :=
  (N_of_ascii a <=? N_of_ascii c)%N && (N_of_ascii c <=? N_of_ascii b)%N.
Definition is_lower := ascii_between "a" "z".
Definition is_upper := ascii_between "A" "Z".
Definition is_digit := ascii_between "0" "9".
Definition to_upper (c : ascii) : ascii :=
  if is_lower c then ascii_of_N (N_of_ascii c - 32) else c.
Definition to_lower (c : ascii) : ascii :=
  if is_upper c then ascii_of_N (N_of_ascii c + 32) else c.

(** Bytes valid in a header field name. *)
Definition is_token (c : ascii) : bool :=
  is_lower c || is_upper c || is_digit c ||
  existsb (Ascii.eqb c) (list_ascii_of_string "!#$%&'*+-.^_`|~").

Fixpoint canonical_from (up : bool) (s : list ascii) : list ascii :=
  match s with
  | [] => []
  | c :: s => (if up then to_upper c else to_lower c) :: canonical_from (Ascii.eqb c "-") s
  end.

(** [http.CanonicalHeaderKey]. *)
Definition canonical (key : string) : string :=
  let s := list_ascii_of_string key in
  if forallb is_token s then string_of_list_ascii (canonical_from true s) else key.

(** [h.Add(key, value)] and [h.Set(key, value)]. *)
Definition header_add (key value : string) (h : Header) : Header :=
  <[canonical key := default [] (h !! canonical key) ++ [value]]> h.
Definition header_set (key value : string) (h : Header) : Header :=
  <[canonical key := [value]]> h.

(** * Response writers *)

(** [http.ResponseWriter].  The status is set once; a code that is not of three digits
    panics, an informational code (but 101) is sent and not kept. *)
Record Writer := mkWriter { wStatus : option Z; wHeader : Header; wBody : bytes }.
Definition empty_writer : Writer := mkWriter None ∅ [].

Definition WriteHeader (code : Z) : M Writer unit :=
  let! w := get_st in
  match wStatus w with
  | Some _ => ret tt
  | None =>
      if (code <? 100) || (999 <? code) then panic "invalid WriteHeader code"
      else if (code <? 200) && negb (code =? 101) then ret tt
      else put_st (mkWriter (Some code) (wHeader w) (wBody w))
  end.
Definition Write (b : bytes) : M Writer unit :=
  modify (λ w, mkWriter (Some (default 200 (wStatus w))) (wHeader w) (wBody w ++ b)).

Definition set_header (key value : string) : M Writer unit :=
  modify (λ w, mkWriter (wStatus w) (header_set key value (wHeader w)) (wBody w)).

Definition newline : string := String "010"%char "".
Definition quote : string := String "034"%char "".

(** [http.NotFound]. *)
Definition NotFound : M Writer unit :=
  do! set_header "Content-Type" "text/plain; charset=utf-8" in
  do! set_header "X-Content-Type-Options" "nosniff" in
  do! WriteHeader 404 in
  Write (bytes_of ("404 page not found" +:+ newline)).

(** * Replies on their way *)

(** The package sends the header as it is when the status is written; what is set later does
    not go out. *)
Record Conn := mkConn { cWriter : Writer; cSent : option Header }.
Definition new_conn : Conn := mkConn empty_writer None.

(** A call on the writer, and the header that goes out with the status. *)
Definition through {A} (m : M Writer A) : M Conn A := λ c,
  let '(r, w) := m (cWriter c) in
  (r, mkConn w (match cSent c, wStatus w with
                | Some h, _ => Some h
                | None, Some _ => Some (wHeader (cWriter c))
                | None, None => None
                end)).

(** [http.Error]. *)
Definition Error (msg : string) (code : Z) : M Conn unit :=
  do! through (set_header "Content-Type" "text/plain; charset=utf-8") in
  do! through (set_header "X-Content-Type-Options" "nosniff") in
  do! through (WriteHeader code) in
  through (Write (bytes_of (msg +:+ newline))).

(** [http.Redirect] of a request by GET, to a path of visible ASCII that needs no escaping,
    on a response without a Content-Type. *)
Definition SeeOther (url : string) : M Conn unit :=
  do! through (set_header "Location" url) in
  do! through (set_header "Content-Type" "text/html; charset=utf-8") in
  do! through (WriteHeader 303) in
  through (Write (bytes_of ("<a href=" +:+ quote +:+ url +:+ quote +:+ ">See Other</a>." +:+ newline +:+ newline))).

End Http.
