(* ===== verification/BitcaskStore.v ===== *)
(** [bitcask/main.go]: the log-structured key-value store, its data, [New],
    [Put], [Delete] and [Get].  Merging is in [BitcaskMerge].

    [Inv L s m] relates a store [s] to the map [m] it represents; the ghost [L]
    gives, for every file of [filePtrs], the entries it holds in order. *)

From stdpp Require Import gmap strings list fin_maps.
From Stdlib Require Import ZArith Lia.
From coqutil Require Byte Word.LittleEndianList.
From S2P Require Import Prelude GoLib GoFS.

(** * Data *)

Record KeyDirEntry := mkKeyDirEntry {
  filePath : string;
  fileEntryOffset : Z;
  valueSize : Z;
}.

Record BitCask := mkBitCask {
  fileBasePath : string;
  currOffset : Z;
  filePtrs : gmap string File;
  keyDir : gmap string KeyDirEntry;
  fileCnt : Z;
  maxFileSizeBytes : Z;
  mergeFileCnt : Z;
  mergeFileOffset : Z;
  mergeHintFileOffset : Z;
}.

Definition headerSize : Z := 17.

Definition New : BitCask :=
  mkBitCask "./" 0 ∅ ∅ 1 65536 1 0 0.

Definition set_currOffset z (b : BitCask) := mkBitCask (fileBasePath b) z
  (filePtrs b) (keyDir b) (fileCnt b) (maxFileSizeBytes b) (mergeFileCnt b)
  (mergeFileOffset b) (mergeHintFileOffset b).
Definition set_filePtrs f (b : BitCask) := mkBitCask (fileBasePath b)
  (currOffset b) (f (filePtrs b)) (keyDir b) (fileCnt b) (maxFileSizeBytes b)
  (mergeFileCnt b) (mergeFileOffset b) (mergeHintFileOffset b).
Definition set_keyDir f (b : BitCask) := mkBitCask (fileBasePath b)
  (currOffset b) (filePtrs b) (f (keyDir b)) (fileCnt b) (maxFileSizeBytes b)
  (mergeFileCnt b) (mergeFileOffset b) (mergeHintFileOffset b).
Definition set_fileCnt z (b : BitCask) := mkBitCask (fileBasePath b)
  (currOffset b) (filePtrs b) (keyDir b) z (maxFileSizeBytes b)
  (mergeFileCnt b) (mergeFileOffset b) (mergeHintFileOffset b).
Definition set_mergeFileCnt z (b : BitCask) := mkBitCask (fileBasePath b)
  (currOffset b) (filePtrs b) (keyDir b) (fileCnt b) (maxFileSizeBytes b) z
  (mergeFileOffset b) (mergeHintFileOffset b).
Definition set_mergeOffsets d h (b : BitCask) := mkBitCask (fileBasePath b)
  (currOffset b) (filePtrs b) (keyDir b) (fileCnt b) (maxFileSizeBytes b)
  (mergeFileCnt b) d h.

(** The store and the file system it lives in. *)
Record Store := mkStore { bk : BitCask; wd : World }.

Definition set_bk f (s : Store) := mkStore (f (bk s)) (wd s).
Definition onfs {A} (m : M World A) : M Store A :=
  zoom wd (λ w s, mkStore (bk s) w) m.
Definition modbk (f : BitCask → BitCask) : M Store unit := modify (set_bk f).

(** [fmt.Sprintf("%s%d.data", b.fileBasePath, n)]. *)
Definition activePath (b : BitCask) (n : Z) : string :=
  fileBasePath b +:+ itoa n +:+ ".data".

(** [O_CREATE|O_RDWR]. *)
Definition creat : open_flags := mkFlags true false false.

(** The nil file where the map has no entry. *)
Definition filePtr_at (b : BitCask) (p : string) : File := default None (filePtrs b !! p).

(** * Operations *)

(** The buffer [put] builds: crc(4) tstamp(4) ksz(4) vsz(4) flag(1) key value. *)
Definition encode_entry (timestamp : Z) (key value : bytes) (flag : byte) : bytes :=
  let body := put_u32 timestamp ++ put_u32 (u32 (len key)) ++
    put_u32 (u32 (len value)) ++ [flag] ++ key ++ value in
  put_u32 (crc32 body) ++ body.

(** The three parts of [put]'s critical section: open the first data file ... *)
Definition put_open (path : string) : M Store unit :=
  let! b := gets bk in
  if (size (filePtrs b) =? 0)%nat then
    let! filePtr := onfs (OpenFile path creat) in
    modbk (set_filePtrs (insert path filePtr))
  else ret tt.

(** ... write the entry and index it ... *)
Definition put_write (path : string) (buf : bytes) (entrySize : Z) (keyStr : string)
    (valueLen : Z) (flag : byte) : M Store unit :=
  let! b := gets bk in
  let! numBytes := onfs (WriteAt (filePtr_at b path) buf (currOffset b)) in
  if negb (numBytes =? entrySize) then fail (ErrNew "Incomplete entry written")
  else
    do! (if bool_decide (flag = Byte.x00) then
           modbk (set_keyDir (insert keyStr
             (mkKeyDirEntry path (currOffset b) (u32 valueLen))))
         else modbk (set_keyDir (delete keyStr))) in
    modbk (set_currOffset (currOffset b + entrySize)).

(** ... and start the next data file when this one is full. *)
Definition put_rotate : M Store unit :=
  let! b := gets bk in
  if maxFileSizeBytes b <=? currOffset b then
    do! modbk (set_fileCnt (fileCnt b + 1)) in
    let newFilePath := activePath b (fileCnt b + 1) in
    let! filePtr := onfs (OpenFile newFilePath creat) in
    do! modbk (set_filePtrs (insert newFilePath filePtr)) in
    modbk (set_currOffset 0)
  else ret tt.

(** [put]; [now] is [time.Now().Unix()]. *)
Definition put (now : Z) (key value : bytes) (flag : byte) : M Store unit :=
  let keyLen := len key in
  let valueLen := len value in
  let timestamp := u32 now in
  let entrySize := headerSize + keyLen + valueLen in
  let buf := encode_entry timestamp key value flag in
  let keyStr := string_of key in
  let! b := gets bk in
  let path := activePath b (fileCnt b) in
  do! put_open path in
  do! put_write path buf entrySize keyStr valueLen flag in
  put_rotate.

Definition Put (now : Z) (key value : bytes) : M Store unit :=
  put now key value Byte.x00.

Definition Delete (now : Z) (key : bytes) : M Store unit :=
  put now key [] Byte.x01.

Definition errNotFound : goerr := ErrNew "Key not found".

Definition Get (key : bytes) : M Store bytes :=
  let! b := gets bk in
  match keyDir b !! string_of key with
  | None => fail errNotFound
  | Some e =>
      let filePtr := filePtr_at b (filePath e) in
      let! headerBuf := onfs (ReadAt filePtr headerSize (fileEntryOffset e)) in
      let storedKeySize := get_u32 (slice 8 4 headerBuf) in
      let storedValueSize := get_u32 (slice 12 4 headerBuf) in
      let flag := nth 16 headerBuf Byte.x00 in
      let! buf := onfs (ReadAt filePtr
        (headerSize + storedKeySize + storedValueSize) (fileEntryOffset e)) in
      let crc := get_u32 (slice 0 4 buf) in
      let checkSum := crc32 (drop 4 buf) in
      if negb (checkSum =? crc) then fail (ErrNew "Corrupted entry found")
      else if negb (bool_decide
        (string_of (slice headerSize storedKeySize buf) = string_of key))
      then fail (ErrNew "Key mismatch")
      else if bool_decide (flag = Byte.x01) then fail errNotFound
      else ret (drop (Z.to_nat (headerSize + storedKeySize)) buf)
  end.

(** * The entry format *)

(** An entry as the proofs see it. *)
Record entry := mkEntry { e_time : Z; e_key : bytes; e_val : bytes; e_flag : byte }.

Definition enc (r : entry) : bytes :=
  encode_entry (e_time r) (e_key r) (e_val r) (e_flag r).
Definition enc_all (rs : list entry) : bytes := mjoin (enc <$> rs).
Definition entry_size (r : entry) : Z := headerSize + len (e_key r) + len (e_val r).

(** Sizes that fit the 32-bit fields and their 32-bit sum. *)
Definition entry_ok (r : entry) : Prop := entry_size r < 2 ^ 32.

(** Size fields of an entry, read back from its header. *)
Definition hdr_key_size (hdr : bytes) : Z := get_u32 (slice 8 4 hdr).
Definition hdr_val_size (hdr : bytes) : Z := get_u32 (slice 12 4 hdr).

Section codec.
Variable r : entry.
Let body := put_u32 (e_time r) ++ put_u32 (u32 (len (e_key r))) ++
  put_u32 (u32 (len (e_val r))) ++ [e_flag r] ++ e_key r ++ e_val r.

Lemma enc_split : enc r = put_u32 (crc32 body) ++ body.
Proof. done. Qed.

Lemma len_enc : len (enc r) = entry_size r.
Proof.
  rewrite enc_split. unfold body, entry_size, headerSize.
  autorewrite with go. lia.
Qed.

Lemma len_enc_pos : 17 ≤ len (enc r).
Proof. rewrite len_enc. unfold entry_size, headerSize. len_lia. Qed.

(** Any buffer that starts with the 17 bytes of the header gives the sizes
    and the flag back. *)
Lemma header_fields rest :
  entry_ok r →
  let hdr := slice 0 headerSize (enc r ++ rest) in
  len hdr = headerSize ∧ hdr_key_size hdr = len (e_key r) ∧
  hdr_val_size hdr = len (e_val r) ∧ nth 16 hdr Byte.x00 = e_flag r.
Proof.
  intros Hok hdr.
  set (h0 := (put_u32 (crc32 body) ++ put_u32 (e_time r)) ++
    put_u32 (u32 (len (e_key r))) ++ put_u32 (u32 (len (e_val r))) ++ [e_flag r]).
  assert (hdr = h0) as Eh.
  { unfold hdr. replace (enc r ++ rest) with ([] ++ h0 ++ e_key r ++ e_val r ++ rest).
    - apply slice_at; [done|]. unfold h0. by autorewrite with go.
    - rewrite enc_split. unfold body, h0. simpl. by rewrite <-!(assoc_L (++)). }
  unfold h0 in Eh.
  unfold entry_ok, entry_size, headerSize in Hok.
  pose proof (len_nonneg (e_key r)). pose proof (len_nonneg (e_val r)).
  rewrite Eh. split; [autorewrite with go; done|].
  unfold hdr_key_size, hdr_val_size.
  rewrite (slice_at 8 4 (put_u32 (crc32 body) ++ put_u32 (e_time r)));
    [|by autorewrite with go..].
  rewrite (assoc_L (++) _ (put_u32 (u32 (len (e_key r))))).
  rewrite (slice_at 12 4); [|by autorewrite with go..].
  rewrite <-(right_id_L [] (++) (put_u32 (u32 (len (e_key r))))) at 1.
  rewrite <-(right_id_L [] (++) (put_u32 (u32 (len (e_val r))))) at 1.
  rewrite !get_put_u32, !(u32_small (u32 _)), !u32_small by
    (try apply u32_range; lia).
  repeat split.
Qed.

(** The whole entry: checksum, key and value. *)
Lemma enc_fields :
  get_u32 (slice 0 4 (enc r)) = crc32 (drop 4 (enc r)) ∧
  slice headerSize (len (e_key r)) (enc r) = e_key r ∧
  drop (Z.to_nat (headerSize + len (e_key r))) (enc r) = e_val r.
Proof.
  rewrite enc_split. split_and!.
  - assert (slice 0 4 (put_u32 (crc32 body) ++ body) = put_u32 (crc32 body)) as ->.
    { by rewrite <-(slice_at 0 4 [] (put_u32 (crc32 body)) body). }
    rewrite <-(right_id_L [] (++) (put_u32 (crc32 body))) at 1.
    rewrite get_put_u32, u32_small by apply crc32_range.
    done.
  - unfold body. rewrite !(assoc_L (++)), <-(assoc_L (++) _ (e_key r)).
    by apply slice_at; autorewrite with go.
  - unfold body. rewrite !(assoc_L (++)). apply drop_app_length'.
    unfold headerSize, len, put_u32.
    rewrite !length_app, !LittleEndianList.length_le_split. simpl. lia.
Qed.
End codec.

(** * Paths *)

(** [fmt.Sprintf("%smerge-%d.data", ...)] and its [.hint]. *)
Definition mergeDataPath (b : BitCask) (id : Z) : string :=
  fileBasePath b +:+ "merge-" +:+ itoa id +:+ ".data".
Definition mergeHintPath (b : BitCask) (id : Z) : string :=
  fileBasePath b +:+ "merge-" +:+ itoa id +:+ ".hint".

Section paths.
Variables b : BitCask.

Lemma activePath_inj n m : activePath b n = activePath b m → n = m.
Proof.
  unfold activePath. intros H. apply (inj (String.append _)) in H.
  by apply str_app_inj_tail in H as [H%itoa_inj _].
Qed.

Lemma mergeDataPath_inj n m : mergeDataPath b n = mergeDataPath b m → n = m.
Proof.
  unfold mergeDataPath. intros H. do 2 apply (inj (String.append _)) in H.
  by apply str_app_inj_tail in H as [H%itoa_inj _].
Qed.

Lemma active_not_merge n m : activePath b n ≠ mergeDataPath b m.
Proof.
  unfold activePath, mergeDataPath. intros H. apply (inj (String.append _)) in H.
  destruct (itoa_head n) as (c & s & E & Hc). rewrite E in H.
  by injection H.
Qed.

Lemma suffix_differs (x y : string) :
  fileBasePath b +:+ x +:+ ".data" ≠ fileBasePath b +:+ y +:+ ".hint".
Proof.
  intros H. apply (inj (String.append _)) in H.
  by apply str_app_inj_tail in H as [_ H].
Qed.

Lemma active_not_hint n m : activePath b n ≠ mergeHintPath b m.
Proof. apply (suffix_differs (itoa n) ("merge-" +:+ itoa m)). Qed.

Lemma data_not_hint n m : mergeDataPath b n ≠ mergeHintPath b m.
Proof. apply (suffix_differs ("merge-" +:+ itoa n) ("merge-" +:+ itoa m)). Qed.
End paths.
#[export] Hint Resolve active_not_merge active_not_hint data_not_hint : go.

(** * The representation invariant *)

(** The entries of every data file, oldest first. *)
Abbreviation layout := (gmap string (list entry)).
(** The abstract contents of the store. *)
Abbreviation kvmap := (gmap string bytes).

(** Key-directory entry [e] points at a live entry of key [k] and value [v]. *)
Definition live_at (L : layout) (k : string) (v : bytes) (e : KeyDirEntry) : Prop :=
  ∃ rs1 r rs2, L !! filePath e = Some (rs1 ++ r :: rs2) ∧
    fileEntryOffset e = len (enc_all rs1) ∧ string_of (e_key r) = k ∧
    e_flag r = Byte.x00 ∧ e_val r = v ∧ valueSize e = len v.

(** File [h] of path [p] holds the entries [rs], then possibly bytes of a failed
    write. *)
Definition file_ok (w : World) (p : string) (h : File) (rs : list entry) : Prop :=
  ∃ ino tail, w_dir w !! p = Some ino ∧ open_at w h ino ∧
    w_ino w !! ino = Some (enc_all rs ++ tail).

Definition active (b : BitCask) : string := activePath b (fileCnt b).

Record Inv (L : layout) (s : Store) (m : kvmap) : Prop := {
  inv_wf : wf_world (wd s);
  inv_dom : ∀ p, is_Some (L !! p) ↔ is_Some (filePtrs (bk s) !! p);
  inv_files : ∀ p h rs,
    filePtrs (bk s) !! p = Some h → L !! p = Some rs → file_ok (wd s) p h rs;
  inv_small : ∀ p rs, L !! p = Some rs → Forall entry_ok rs;
  inv_paths : ∀ p, is_Some (filePtrs (bk s) !! p) →
    (∃ n, n ≤ fileCnt (bk s) ∧ p = activePath (bk s) n) ∨
    (∃ n, n ≤ mergeFileCnt (bk s) ∧ p = mergeDataPath (bk s) n);
  inv_active : filePtrs (bk s) = ∅ ∨ is_Some (L !! active (bk s)) →
    currOffset (bk s) = len (enc_all (default [] (L !! active (bk s))));
  inv_live : ∀ k,
    match keyDir (bk s) !! k, m !! k with
    | Some e, Some v => live_at L k v e
    | None, None => True
    | _, _ => False
    end;
}.

(** * Lemmas on the invariant *)

Lemma enc_all_app rs1 rs2 : enc_all (rs1 ++ rs2) = enc_all rs1 ++ enc_all rs2.
Proof. unfold enc_all. by rewrite fmap_app, join_app. Qed.
Lemma enc_all_cons r rs : enc_all (r :: rs) = enc r ++ enc_all rs.
Proof. done. Qed.
Lemma enc_all_nil : enc_all [] = [].
Proof. done. Qed.
#[export] Hint Rewrite enc_all_app enc_all_cons enc_all_nil len_enc : go.

Lemma live_at_ext L L' k v e :
  (∀ p rs, L !! p = Some rs → ∃ more, L' !! p = Some (rs ++ more)) →
  live_at L k v e → live_at L' k v e.
Proof.
  intros HL (rs1 & r & rs2 & E & H). destruct (HL _ _ E) as [more E'].
  exists rs1, r, (rs2 ++ more). split; [|done].
  by rewrite E', <-(assoc_L (++)).
Qed.

Lemma file_ok_set_faults fs w p h rs :
  file_ok w p h rs → file_ok (set_faults fs w) p h rs.
Proof. done. Qed.

Lemma file_ok_stored_ne ino off b w p h rs :
  w_dir w !! p ≠ Some ino → file_ok w p h rs → file_ok (stored ino off b w) p h rs.
Proof.
  intros Hne (i & tail & Hd & Ho & Hi). exists i, tail. repeat split; [done..|].
  rewrite stored_ino_ne; [done|congruence].
Qed.

(** Storing after the entries of a file keeps them. *)
Lemma file_ok_stored ino b w p h rs :
  w_dir w !! p = Some ino → file_ok w p h rs →
  file_ok (stored ino (len (enc_all rs)) b w) p h rs ∧
  ∀ r, b = enc r →
    file_ok (stored ino (len (enc_all rs)) b w) p h (rs ++ [r]).
Proof.
  intros Hd (i & tail & Hd' & Ho & Hi). rewrite Hd in Hd'. injection Hd' as <-.
  pose proof (stored_ino_eq ino (len (enc_all rs)) b w _ Hi) as Hs.
  rewrite write_bytes_app in Hs. split.
  - by eexists ino, _.
  - intros r ->. exists ino, (drop (length (enc r)) tail). repeat split; [done..|].
    autorewrite with go. rewrite (right_id_L [] (++)), Hs. by rewrite <-(assoc_L (++)).
Qed.

Lemma file_ok_opened p' w p h rs :
  wf_world w → file_ok w p h rs → file_ok (opened p' false w) p h rs.
Proof.
  intros Hw (ino & tail & Hd & Ho & Hi). exists ino, tail. repeat split.
  - rewrite opened_dir. destruct (decide (p = p')) as [->|Hne];
      [by rewrite lookup_insert_eq, Hd|by rewrite lookup_insert_ne].
  - by apply opened_keep.
  - by apply opened_ino.
Qed.

(** A file opened at a path without entries of ours. *)
Lemma file_ok_fresh p w :
  wf_world w → file_ok (opened p false w) p (Some (w_next w)) [].
Proof.
  intros Hw. pose proof (wf_opened p false w Hw) as Hw'.
  set (ino := default (w_next w) (w_dir w !! p)).
  assert (w_dir (opened p false w) !! p = Some ino) as Hd.
  { by rewrite opened_dir, lookup_insert_eq. }
  destruct (wf_dir _ Hw' _ _ Hd) as [c Hc].
  exists ino, c. split_and!; [done|apply opened_open|done].
Qed.

Lemma inv_weq L s m fs : Inv L s m → Inv L (mkStore (bk s) (set_faults fs (wd s))) m.
Proof. intros [H1 H2 H3 H4 H5 H6 H7]. constructor; simpl; auto with go. Qed.

(** Two files of the store are different inodes. *)
Lemma files_inj L s m p ino :
  Inv L s m → w_dir (wd s) !! p = Some ino →
  ∀ q, q ≠ p → w_dir (wd s) !! q ≠ Some ino.
Proof. intros H Hp q Hq Hd. apply Hq. eapply (wf_dir_inj _ (inv_wf _ _ _ H)); eauto. Qed.

(** The empty store represents the empty map. *)
Lemma inv_New w : wf_world w → Inv ∅ (mkStore New w) ∅.
Proof.
  intros Hw. constructor; simpl; [done|..].
  - intros p. by rewrite !lookup_empty.
  - intros p h rs Hp. by rewrite lookup_empty in Hp.
  - intros p rs Hp. by rewrite lookup_empty in Hp.
  - intros p [h Hp]. by rewrite lookup_empty in Hp.
  - intros _. by rewrite lookup_empty.
  - intros k. by rewrite !lookup_empty.
Qed.

(** * One step of [put] at a time *)

(** A new data file [p] joins the store, [b'] being the rest of the change. *)
Lemma inv_add_file L s m b' p :
  Inv L s m → filePtrs (bk s) !! p = None →
  filePtrs b' = <[p := Some (w_next (wd s))]> (filePtrs (bk s)) →
  keyDir b' = keyDir (bk s) →
  (∀ q, is_Some (filePtrs b' !! q) →
    (∃ n, n ≤ fileCnt b' ∧ q = activePath b' n) ∨
    (∃ n, n ≤ mergeFileCnt b' ∧ q = mergeDataPath b' n)) →
  (is_Some (<[p := []]> L !! active b') →
    currOffset b' = len (enc_all (default [] (<[p := []]> L !! active b')))) →
  Inv (<[p := []]> L) (mkStore b' (opened p false (wd s))) m.
Proof.
  intros H Hp Hf Hk Hpaths Hact.
  assert (L !! p = None) as HLp.
  { destruct (L !! p) eqn:E; [|done].
    assert (is_Some (L !! p)) as Hs by (by eexists).
    apply (inv_dom _ _ _ H) in Hs as [? ?]. congruence. }
  constructor; simpl.
  - apply wf_opened, H.
  - intros q. rewrite Hf. destruct (decide (q = p)) as [->|Hne].
    + rewrite !lookup_insert_eq. by split; eexists.
    + rewrite !lookup_insert_ne by done. apply H.
  - intros q h rs. rewrite Hf. destruct (decide (q = p)) as [->|Hne].
    + rewrite !lookup_insert_eq. intros [= <-] [= <-]. apply file_ok_fresh, H.
    + rewrite !lookup_insert_ne by done. intros Hq HL.
      apply file_ok_opened; [apply H|]. by eapply (inv_files _ _ _ H).
  - intros q rs. destruct (decide (q = p)) as [->|Hne].
    + rewrite lookup_insert_eq. by intros [= <-].
    + rewrite lookup_insert_ne by done. apply H.
  - done.
  - intros [He|He]; [|by apply Hact]. rewrite Hf in He. by apply insert_non_empty in He.
  - intros k. rewrite Hk. pose proof (inv_live _ _ _ H k) as Hl.
    destruct (keyDir (bk s) !! k), (m !! k); try done.
    eapply live_at_ext, Hl. intros q rs Hq. exists [].
    rewrite lookup_insert_ne by congruence. by rewrite (right_id_L [] (++)).
Qed.

(** A failed write to the active file changes nothing the map depends on. *)
Lemma inv_partial L s m h rs ino b :
  Inv L s m → filePtrs (bk s) !! active (bk s) = Some h →
  L !! active (bk s) = Some rs → w_dir (wd s) !! active (bk s) = Some ino →
  Inv L (mkStore (bk s) (stored ino (len (enc_all rs)) b (wd s))) m.
Proof.
  intros H Hf HL Hd. pose proof (inv_files _ _ _ H _ _ _ Hf HL) as Hfo.
  destruct H as [H1 H2 H3 H4 H5 H6 H7] eqn:EH. constructor; simpl; try done.
  - apply wf_stored; [by eapply wf_dir|done].
  - intros p h' rs' Hp HLp. destruct (decide (p = active (bk s))) as [->|Hne].
    + simplify_eq. by eapply file_ok_stored.
    + apply file_ok_stored_ne; [|by apply H3]. by eapply (files_inj _ _ _ _ _ H).
Qed.

(** What [put] does to the abstract map. *)
Definition put_map (k : string) (v : bytes) (flag : byte) (m : kvmap) : kvmap :=
  if bool_decide (flag = Byte.x00) then <[k := v]> m else delete k m.

Definition put_keyDir (k : string) (e : KeyDirEntry) (flag : byte) :=
  if bool_decide (flag = Byte.x00) then insert (M := gmap string _) k e else delete k.

(** The key directory and the map after an entry was appended to the active file. *)
Lemma live_append L s m rs r k :
  Inv L s m → L !! active (bk s) = Some rs → currOffset (bk s) = len (enc_all rs) → entry_ok r →
  let e := mkKeyDirEntry (active (bk s)) (currOffset (bk s)) (u32 (len (e_val r))) in
  match put_keyDir (string_of (e_key r)) e (e_flag r) (keyDir (bk s)) !! k,
        put_map (string_of (e_key r)) (e_val r) (e_flag r) m !! k with
  | Some e, Some v => live_at (<[active (bk s) := rs ++ [r]]> L) k v e
  | None, None => True
  | _, _ => False
  end.
Proof.
  intros H HL Hoff Hr e.
  assert (∀ p rs0, L !! p = Some rs0 →
    ∃ more, <[active (bk s) := rs ++ [r]]> L !! p = Some (rs0 ++ more)) as Hext.
  { intros p rs0 Hp. destruct (decide (p = active (bk s))) as [->|Hne].
    - rewrite HL in Hp. injection Hp as ->. rewrite lookup_insert_eq. by eexists.
    - exists []. by rewrite lookup_insert_ne, (right_id_L [] (++)). }
  unfold put_keyDir, put_map. pose proof (inv_live _ _ _ H k) as Hl.
  assert (string_of (e_key r) ≠ k →
    match keyDir (bk s) !! k, m !! k with
    | Some e, Some v => live_at (<[active (bk s) := rs ++ [r]]> L) k v e
    | None, None => True
    | _, _ => False end) as Hother.
  { intros _. destruct (keyDir (bk s) !! k), (m !! k); try done.
    by eapply live_at_ext. }
  destruct (decide (string_of (e_key r) = k)) as [<-|Hne]; case_bool_decide as Hfl.
  - rewrite !lookup_insert_eq. exists rs, r, []. simpl.
    rewrite lookup_insert_eq. repeat split; try done.
    apply u32_small. unfold entry_ok, entry_size, headerSize in Hr.
    pose proof (len_nonneg (e_key r)). pose proof (len_nonneg (e_val r)). lia.
  - by rewrite !lookup_delete_eq.
  - rewrite !lookup_insert_ne by done. by apply Hother.
  - rewrite !lookup_delete_ne by done. by apply Hother.
Qed.

(** A complete write, indexed. *)
Lemma inv_append L s m h rs ino r :
  Inv L s m → filePtrs (bk s) !! active (bk s) = Some h →
  L !! active (bk s) = Some rs → w_dir (wd s) !! active (bk s) = Some ino →
  entry_ok r →
  let e := mkKeyDirEntry (active (bk s)) (currOffset (bk s)) (u32 (len (e_val r))) in
  let b' := set_currOffset (currOffset (bk s) + entry_size r)
    (set_keyDir (put_keyDir (string_of (e_key r)) e (e_flag r)) (bk s)) in
  Inv (<[active (bk s) := rs ++ [r]]> L)
    (mkStore b' (stored ino (currOffset (bk s)) (enc r) (wd s)))
    (put_map (string_of (e_key r)) (e_val r) (e_flag r) m).
Proof.
  intros H Hf HL Hd Hr e b'. pose proof (inv_files _ _ _ H _ _ _ Hf HL) as Hfo.
  assert (currOffset (bk s) = len (enc_all rs)) as Hoff.
  { rewrite (inv_active _ _ _ H) by (right; by eexists). by rewrite HL. }
  constructor; simpl.
  - apply wf_stored; [by eapply wf_dir; [apply H|]|apply H].
  - intros p. destruct (decide (p = active (bk s))) as [->|Hne].
    + rewrite lookup_insert_eq, Hf. by split; eexists.
    + rewrite lookup_insert_ne by done. apply H.
  - intros p h' rs' Hp HLp. rewrite Hoff.
    destruct (decide (p = active (bk s))) as [->|Hne].
    + rewrite lookup_insert_eq in HLp. simplify_eq.
      by eapply (file_ok_stored ino (enc r)).
    + rewrite lookup_insert_ne in HLp by done.
      apply file_ok_stored_ne; [|by eapply (inv_files _ _ _ H)].
      by eapply (files_inj _ _ _ _ _ H).
  - intros p rs'. destruct (decide (p = active (bk s))) as [->|Hne].
    + rewrite lookup_insert_eq. intros [= <-]. apply Forall_app. split.
      * by eapply (inv_small _ _ _ H).
      * by apply Forall_singleton.
    + rewrite lookup_insert_ne by done. apply H.
  - apply H.
  - intros _. change (active b') with (active (bk s)).
    rewrite lookup_insert_eq, Hoff. simpl. autorewrite with go. lia.
  - intros k. by apply live_append.
Qed.

(** * What a call may change *)

(** No coming [put] writes to [p]: it is not the active file, now or later. *)
Definition immutable (b : BitCask) (p : string) : Prop :=
  ∀ n, fileCnt b ≤ n → p ≠ activePath b n.

(** [ext x y]: from store [x] to store [y] files only grow at the active end,
    nothing is closed or removed, and no key starts to point into an immutable
    file.  This is what a merge relies on of the calls that run beside it. *)
Record ext (x y : layout * Store) : Prop := {
  ext_base : fileBasePath (bk y.2) = fileBasePath (bk x.2);
  ext_max : maxFileSizeBytes (bk y.2) = maxFileSizeBytes (bk x.2);
  ext_mcnt : mergeFileCnt (bk y.2) = mergeFileCnt (bk x.2);
  ext_cnt : fileCnt (bk x.2) ≤ fileCnt (bk y.2);
  ext_ptrs : ∀ p, immutable (bk x.2) p → filePtrs (bk y.2) !! p = filePtrs (bk x.2) !! p;
  ext_dir : ∀ p, immutable (bk x.2) p → w_dir (wd y.2) !! p = w_dir (wd x.2) !! p;
  ext_open : ∀ h ino, open_at (wd x.2) h ino → open_at (wd y.2) h ino;
  ext_layout : ∀ p, immutable (bk x.2) p → y.1 !! p = x.1 !! p;
  ext_keyDir : ∀ k e, keyDir (bk y.2) !! k = Some e →
    immutable (bk x.2) (filePath e) → keyDir (bk x.2) !! k = Some e;
  ext_faults : w_faults (wd x.2) = [] → w_faults (wd y.2) = [];
}.

(** A store whose calls succeed: no faults to come, no leftovers of failed
    writes, and the paths it will create are free. *)
Record Clean (L : layout) (s : Store) : Prop := {
  cl_faults : w_faults (wd s) = [];
  cl_exact : ∀ p rs ino, L !! p = Some rs → w_dir (wd s) !! p = Some ino →
    w_ino (wd s) !! ino = Some (enc_all rs);
  cl_active : filePtrs (bk s) = ∅ ∨ is_Some (L !! active (bk s));
  cl_fresh : ∀ n, fileCnt (bk s) < n → w_dir (wd s) !! activePath (bk s) n = None;
  cl_first : filePtrs (bk s) = ∅ → w_dir (wd s) !! active (bk s) = None;
  cl_merge : ∀ n, mergeFileCnt (bk s) ≤ n →
    is_Some (w_dir (wd s) !! mergeDataPath (bk s) n) →
    is_Some (L !! mergeDataPath (bk s) n);
}.

Lemma activePath_base b b' n :
  fileBasePath b' = fileBasePath b → activePath b' n = activePath b n.
Proof. unfold activePath. by intros ->. Qed.
Lemma mergeDataPath_base b b' n :
  fileBasePath b' = fileBasePath b → mergeDataPath b' n = mergeDataPath b n.
Proof. unfold mergeDataPath. by intros ->. Qed.

Lemma immutable_ext x y p :
  ext x y → immutable (bk x.2) p → immutable (bk y.2) p.
Proof.
  intros E Hp n Hn. rewrite (activePath_base (bk x.2)) by apply E.
  apply Hp. pose proof (ext_cnt _ _ E). lia.
Qed.

#[export] Instance ext_preorder : PreOrder ext.
Proof.
  split.
  - intros x. by constructor.
  - intros x y z Exy Eyz. constructor.
    + by rewrite (ext_base _ _ Eyz), (ext_base _ _ Exy).
    + by rewrite (ext_max _ _ Eyz), (ext_max _ _ Exy).
    + by rewrite (ext_mcnt _ _ Eyz), (ext_mcnt _ _ Exy).
    + etrans; [apply Exy|apply Eyz].
    + intros p Hp. rewrite (ext_ptrs _ _ Eyz p), (ext_ptrs _ _ Exy p);
        [done..|by eapply immutable_ext].
    + intros p Hp. rewrite (ext_dir _ _ Eyz p), (ext_dir _ _ Exy p);
        [done..|by eapply immutable_ext].
    + intros h ino H. by apply Eyz, Exy.
    + intros p Hp. rewrite (ext_layout _ _ Eyz p), (ext_layout _ _ Exy p);
        [done..|by eapply immutable_ext].
    + intros k e Hk He. apply (ext_keyDir _ _ Exy); [|done].
      apply (ext_keyDir _ _ Eyz); [done|by eapply immutable_ext].
    + intros H. by apply Eyz, Exy.
Qed.

Lemma immutable_not_active b p : immutable b p → p ≠ active b.
Proof. intros H. apply H. lia. Qed.

(** The active path of a coming file is not in use. *)
Lemma next_active_fresh L s m n :
  Inv L s m → fileCnt (bk s) < n → filePtrs (bk s) !! activePath (bk s) n = None.
Proof.
  intros H Hn. destruct (filePtrs (bk s) !! activePath (bk s) n) eqn:E; [|done].
  destruct (inv_paths _ _ _ H _ (mk_is_Some _ _ E)) as [(k & Hk & Ek)|(k & Hk & Ek)].
  - apply activePath_inj in Ek. lia.
  - by apply active_not_merge in Ek.
Qed.

Lemma inv_no_files L s m : Inv L s m → filePtrs (bk s) = ∅ → L = ∅.
Proof.
  intros H Hf. apply map_eq. intros p. rewrite lookup_empty.
  destruct (L !! p) eqn:E; [|done].
  destruct (proj1 (inv_dom _ _ _ H p) (mk_is_Some _ _ E)) as [h Hh].
  by rewrite Hf, lookup_empty in Hh.
Qed.

(** * [put], stage by stage, under any I/O faults *)

Definition stage_ok (L : layout) (s : Store) (L' : layout) (s' : Store)
    (r : outcome unit) : Prop :=
  ext (L, s) (L', s') ∧ (r = Ok tt ∨ ∃ e, r = Err e) ∧
  (Clean L s → r = Ok tt ∧ Clean L' s').

Lemma stage_ok_refl L s : stage_ok L s L s (Ok tt).
Proof. split_and!; [reflexivity|by left|done]. Qed.

(** A stage that fails having used up faults only. *)
Lemma stage_ok_fault L s fs e :
  fault_step (wd s) fs → w_faults (wd s) ≠ [] →
  stage_ok L s L (mkStore (bk s) (set_faults fs (wd s))) (Err e).
Proof.
  intros Hfs Hne. split_and!; [constructor; simpl; auto; done|by right; eexists|].
  intros Hc. by destruct (Hne (cl_faults _ _ Hc)).
Qed.

Lemma put_open_spec L s m :
  Inv L s m →
  ∃ r s1 L1, put_open (active (bk s)) s = (r, s1) ∧ Inv L1 s1 m ∧
    stage_ok L s L1 s1 r ∧ active (bk s1) = active (bk s) ∧
    (r = Ok tt → filePtrs (bk s1) ≠ ∅).
Proof.
  intros H. unfold put_open, bind at 1, gets.
  destruct (Nat.eqb_spec (size (filePtrs (bk s))) 0) as [Hsz|Hsz].
  2: { exists (Ok tt), s, L. split_and!; [done|done|apply stage_ok_refl|done|].
       intros _ Hf. by rewrite Hf in Hsz. }
  apply map_size_empty_inv in Hsz.
  destruct (OpenFile_spec (wd s) (active (bk s)) false) as (fs & Hfs & [[E Hne]|E]).
  - exists (Err ErrIO), (mkStore (bk s) (set_faults fs (wd s))), L.
    unfold bind, onfs, zoom. unfold creat. rewrite E. simpl.
    split_and!; [done|by apply inv_weq|by apply stage_ok_fault|done|by intros].
  - set (s1 := mkStore (set_filePtrs (insert (active (bk s)) (Some (w_next (wd s)))) (bk s))
      (opened (active (bk s)) false (set_faults fs (wd s)))).
    exists (Ok tt), s1, (<[active (bk s) := []]> L).
    unfold bind, onfs, zoom. unfold creat. rewrite E. simpl.
    split; [done|]. pose proof (inv_weq _ _ _ fs H) as H'.
    split; [|split; [split_and!|split]].
    + eapply (inv_add_file L (mkStore (bk s) (set_faults fs (wd s)))); simpl; try done.
      * by rewrite Hsz, lookup_empty.
      * intros q [h Hq]. left. exists (fileCnt (bk s)). split; [lia|].
        rewrite Hsz in Hq. by apply lookup_singleton_Some in Hq as [<- _].
      * intros _. change (active _) with (active (bk s)).
        rewrite lookup_insert_eq. rewrite (inv_active _ _ _ H) by by left.
        by rewrite (inv_no_files _ _ _ H Hsz), lookup_empty.
    + constructor; simpl; try done.
      * intros p Hp%immutable_not_active. by rewrite lookup_insert_ne.
      * intros p Hp%immutable_not_active. by rewrite opened_dir, lookup_insert_ne.
      * intros h ino Ho. apply opened_keep; [apply wf_set_faults, H|done].
      * intros p Hp%immutable_not_active. by rewrite lookup_insert_ne.
      * intros Hw. rewrite opened_faults. by apply Hfs.
    + by left.
    + intros Hc. split; [done|]. pose proof (cl_first _ _ Hc Hsz) as Hfree.
      unfold s1. rewrite opened_new by done. constructor; simpl.
      * apply Hfs, Hc.
      * rewrite (inv_no_files _ _ _ H Hsz). intros p rs ino Hp.
        apply lookup_singleton_Some in Hp as [<- <-]. rewrite lookup_insert_eq.
        intros [= <-]. by rewrite lookup_insert_eq.
      * right. change (active _) with (active (bk s)). rewrite lookup_insert_eq. by eexists.
      * intros n Hn. rewrite lookup_insert_ne; [by apply (cl_fresh _ _ Hc)|].
        intros Ea. apply (activePath_inj (bk s)) in Ea. lia.
      * intros He. by apply insert_non_empty in He.
      * intros n Hn. rewrite !lookup_insert_ne by apply (active_not_merge (bk s)).
        by apply (cl_merge _ _ Hc).
    + done.
    + intros _. apply insert_non_empty.
Qed.

(** The rotation of a clean store is clean. *)
Lemma rotated_clean L s fs m b h :
  let p := activePath (bk s) (fileCnt (bk s) + 1) in
  Inv L s m → Clean L s → fault_step (wd s) fs →
  fileBasePath b = fileBasePath (bk s) → fileCnt b = fileCnt (bk s) + 1 →
  mergeFileCnt b = mergeFileCnt (bk s) → filePtrs b = <[p := h]> (filePtrs (bk s)) →
  Clean (<[p := []]> L) (mkStore b (opened p false (set_faults fs (wd s)))).
Proof.
  intros p H Hc Hfs Eb Ec Em Ep.
  assert (active b = p) as Ea by (unfold active, p, activePath; by rewrite Eb, Ec).
  assert (∀ n, activePath b n = activePath (bk s) n) as Ea' by (intros n; unfold activePath; by rewrite Eb).
  assert (∀ n, mergeDataPath b n = mergeDataPath (bk s) n) as Em' by (intros n; unfold mergeDataPath; by rewrite Eb).
  assert (w_dir (wd s) !! p = None) as Hfree by (apply (cl_fresh _ _ Hc); lia).
  rewrite opened_new by done. constructor; simpl.
  - apply Hfs, Hc.
  - intros q rs ino. destruct (decide (q = p)) as [->|Hqp].
    + rewrite !lookup_insert_eq. intros [= <-] [= <-]. by rewrite lookup_insert_eq.
    + rewrite !(lookup_insert_ne _ p q) by done. intros Hq Hd.
      rewrite lookup_insert_ne; [by eapply (cl_exact _ _ Hc)|].
      intros <-. destruct (wf_dir _ (inv_wf _ _ _ H) _ _ Hd) as [c Ecc].
      by rewrite (wf_fresh_ino _ (inv_wf _ _ _ H)) in Ecc.
  - right. rewrite Ea, lookup_insert_eq. by eexists.
  - intros n Hn. rewrite Ea', lookup_insert_ne; [apply (cl_fresh _ _ Hc); lia|].
    intros Ean. apply (activePath_inj (bk s)) in Ean. lia.
  - rewrite Ep. intros He. by apply insert_non_empty in He.
  - intros n Hn. rewrite Em', !lookup_insert_ne by apply (active_not_merge (bk s)).
    apply (cl_merge _ _ Hc). lia.
Qed.

Lemma put_rotate_spec L s m :
  Inv L s m → filePtrs (bk s) ≠ ∅ →
  ∃ r s1 L1, put_rotate s = (r, s1) ∧ Inv L1 s1 m ∧ stage_ok L s L1 s1 r.
Proof.
  intros H Hne. unfold put_rotate, bind at 1, gets.
  destruct (Z.leb_spec (maxFileSizeBytes (bk s)) (currOffset (bk s))) as [Hfull|Hfull].
  2: { exists (Ok tt), s, L. split_and!; [done|done|apply stage_ok_refl]. }
  set (p := activePath (bk s) (fileCnt (bk s) + 1)).
  assert (filePtrs (bk s) !! p = None) as Hp by (eapply next_active_fresh; [done|lia]).
  assert (L !! p = None) as HLp.
  { apply eq_None_not_Some. rewrite (inv_dom _ _ _ H), Hp. by intros [? ?]. }
  assert (∀ q, is_Some (filePtrs (bk s) !! q) →
    (∃ n, n ≤ fileCnt (bk s) + 1 ∧ q = activePath (bk s) n) ∨
    (∃ n, n ≤ mergeFileCnt (bk s) ∧ q = mergeDataPath (bk s) n)) as Hpaths.
  { intros q Hq. destruct (inv_paths _ _ _ H q Hq) as [(n & Hn & ->)|(n & Hn & ->)];
      [left|right]; exists n; (split; [lia|done]). }
  assert (∀ q, immutable (bk s) q → q ≠ p) as Himm by (intros q Hq; apply Hq; lia).
  unfold modbk, modify, bind at 1.
  destruct (OpenFile_spec (wd s) p false) as (fs & Hfs & [[E Hnf]|E]);
    unfold bind, onfs, zoom; unfold creat; simpl; fold p; rewrite E; simpl.
  - eexists _, _, L. split; [done|]. split; [|split_and!].
    + pose proof (inv_weq _ _ _ fs H) as [H1 H2 H3 H4 H5 H6 H7].
      constructor; simpl in *; auto. intros [He|[rs He]]; [done|].
      change (L !! p = Some rs) in He. congruence.
    + constructor; simpl; auto; lia.
    + right. by eexists.
    + intros Hc. by destruct (Hnf (cl_faults _ _ Hc)).
  - eexists _, _, (<[p := []]> L). split; [done|]. unfold set_bk. simpl.
    split; [|split_and!].
    + eapply (inv_add_file L (mkStore (bk s) (set_faults fs (wd s)))); simpl; try done.
      * by apply inv_weq.
      * intros q [h Hq]. destruct (decide (q = p)) as [->|Hqp].
        -- left. exists (fileCnt (bk s) + 1). split; [lia|done].
        -- rewrite lookup_insert_ne in Hq by done. apply Hpaths. by eexists.
      * intros _. change (active _) with p. by rewrite lookup_insert_eq.
    + constructor; simpl; try done; [lia|..].
      * intros q Hq%Himm. by rewrite lookup_insert_ne.
      * intros q Hq%Himm. by rewrite opened_dir, lookup_insert_ne.
      * intros h ino Ho. apply opened_keep; [apply wf_set_faults, H|done].
      * intros q Hq%Himm. by rewrite lookup_insert_ne.
      * intros Hw. rewrite opened_faults. by apply Hfs.
    + by left.
    + intros Hc. split; [done|].
      by eapply (rotated_clean L s fs m).
Qed.

(** A complete write leaves a clean store clean. *)
Lemma append_clean L s fs m h rs ino tail r kd :
  Inv L s m → Clean L s → fault_step (wd s) fs → filePtrs (bk s) !! active (bk s) = Some h →
  L !! active (bk s) = Some rs → w_dir (wd s) !! active (bk s) = Some ino →
  w_ino (wd s) !! ino = Some (enc_all rs ++ tail) → currOffset (bk s) = len (enc_all rs) →
  Clean (<[active (bk s) := rs ++ [r]]> L)
    (mkStore (set_currOffset (currOffset (bk s) + entry_size r) (set_keyDir kd (bk s)))
      (stored ino (currOffset (bk s)) (enc r) (set_faults fs (wd s)))).
Proof.
  intros H Hc Hfs Ef HL Hd Hi Hoff. assert (tail = []) as ->.
  { pose proof (cl_exact _ _ Hc _ _ _ HL Hd) as Hx. rewrite Hi in Hx.
    injection Hx as Hx. rewrite <-(right_id_L [] (++) (enc_all rs)) in Hx at 2.
    by apply app_inv_head in Hx. }
  constructor; simpl.
  - apply Hfs, Hc.
  - intros p rs' i. destruct (decide (p = active (bk s))) as [->|Hne].
    + rewrite lookup_insert_eq, stored_dir. simpl. intros [= <-] Hd'. simplify_eq.
      erewrite stored_ino_eq by done.
      rewrite Hoff, (right_id_L [] (++)), write_bytes_end.
      by rewrite enc_all_app, enc_all_cons, enc_all_nil, (right_id_L [] (++)).
    + rewrite lookup_insert_ne, stored_dir by done. simpl. intros Hp Hd'.
      rewrite stored_ino_ne; [by eapply (cl_exact _ _ Hc)|].
      intros ->. by eapply (files_inj _ _ _ _ _ H Hd).
  - right. change (active _) with (active (bk s)). rewrite lookup_insert_eq. by eexists.
  - apply Hc.
  - intros He. by rewrite He, lookup_empty in Ef.
  - intros n Hn Hx. destruct (decide (mergeDataPath (bk s) n = active (bk s))) as [Ex|Ex].
    + by destruct (active_not_merge (bk s) (fileCnt (bk s)) n).
    + rewrite lookup_insert_ne by done. by apply (cl_merge _ _ Hc).
Qed.


Lemma put_write_spec L s m r :
  Inv L s m → (e_flag r = Byte.x00 ∨ e_flag r = Byte.x01) → entry_ok r →
  ∃ res s1 L1,
    put_write (active (bk s)) (enc r) (entry_size r) (string_of (e_key r))
      (len (e_val r)) (e_flag r) s = (res, s1) ∧
    Inv L1 s1 (match res with
      | Ok _ => put_map (string_of (e_key r)) (e_val r) (e_flag r) m | _ => m end) ∧
    ext (L, s) (L1, s1) ∧ (res = Ok tt ∨ ∃ e, res = Err e) ∧
    (res = Ok tt → filePtrs (bk s1) ≠ ∅) ∧
    (Clean L s → filePtrs (bk s) ≠ ∅ → res = Ok tt ∧ Clean L1 s1).
Proof.
  intros H Hfl Hr. unfold put_write, bind at 1, gets.
  destruct (filePtrs (bk s) !! active (bk s)) as [h|] eqn:Ef.
  2: { exists (Err ErrInvalid), s, L. unfold bind, onfs, zoom, filePtr_at. rewrite Ef.
       simpl. destruct s as [b w]. simpl. split_and!; [done|done|reflexivity|..].
       - right. by eexists.
       - done.
       - intros Hc Hne. destruct (cl_active _ _ Hc) as [He|Hs]; [done|].
         apply (inv_dom _ _ _ H) in Hs as [h Hh]. simpl in *. congruence. }
  destruct (proj2 (inv_dom _ _ _ H (active (bk s))) (mk_is_Some _ _ Ef)) as [rs HL].
  destruct (inv_files _ _ _ H _ _ _ Ef HL) as (ino & tail & Hd & Ho & Hi).
  assert (currOffset (bk s) = len (enc_all rs)) as Hoff.
  { rewrite (inv_active _ _ _ H) by (right; by eexists). by rewrite HL. }
  destruct (WriteAt_spec (wd s) h ino (enc r) (currOffset (bk s)) Ho)
    as (fs & Hfs & [(k & E & Hnf)|E]).
  { rewrite Hoff. apply len_nonneg. }
  { pose proof (len_enc_pos r). lia. }
  all: unfold bind, onfs, zoom, filePtr_at; rewrite Ef; simpl; rewrite E.
  - simpl. eexists _, _, L. split; [done|]. split_and!; [..|by intros|].
    + rewrite Hoff. by eapply (inv_partial L (mkStore (bk s) (set_faults fs (wd s))));
        [apply inv_weq|..].
    + by constructor.
    + right. by eexists.
    + intros Hc. by destruct (Hnf (cl_faults _ _ Hc)).
  - rewrite len_enc, Z.eqb_refl.
    pose proof (inv_append L (mkStore (bk s) (set_faults fs (wd s))) m h rs ino r
      (inv_weq _ _ _ fs H) Ef HL Hd Hr) as H'.
    simpl in H'. match type of H' with Inv _ ?x _ => set (s1 := x) in H' end.
    exists (Ok tt), s1, (<[active (bk s) := rs ++ [r]]> L). split_and!.
    + unfold s1, put_keyDir. by case_bool_decide.
    + done.
    + constructor; simpl; try done.
      * intros p Hp%immutable_not_active. by rewrite lookup_insert_ne.
      * intros k e. unfold put_keyDir. case_bool_decide.
        -- rewrite lookup_insert_Some. intros [[_ <-]|[_ He]]; [|done]. intros Hp.
           by destruct (immutable_not_active _ _ Hp).
        -- by intros [_ He]%lookup_delete_Some.
    + by left.
    + intros _ He. simpl in He. by rewrite He, lookup_empty in Ef.
    + intros Hc _. split; [done|].
      subst s1. by eapply (append_clean L s fs m h rs ino tail).
Qed.

(** * The operations, under any I/O faults *)

(** The whole of [put]: after an error the store represents the old map or, when
    only starting the next file failed, the new one. *)
Lemma put_spec L s m now key value flag :
  Inv L s m → flag = Byte.x00 ∨ flag = Byte.x01 →
  entry_ok (mkEntry (u32 now) key value flag) →
  ∃ r s' L', put now key value flag s = (r, s') ∧ ext (L, s) (L', s') ∧
    match r with
    | Ok _ => Inv L' s' (put_map (string_of key) value flag m)
    | Err _ => Inv L' s' m ∨ Inv L' s' (put_map (string_of key) value flag m)
    | _ => False
    end ∧
    (Clean L s → r = Ok tt ∧ Clean L' s').
Proof.
  intros H Hfl Hr.
  destruct (put_open_spec L s m H)
    as (r1 & s1 & L1 & E1 & H1 & (X1 & O1 & C1) & A1 & N1).
  assert (put now key value flag s = bind (put_open (active (bk s))) (λ _,
    bind (put_write (active (bk s)) (enc (mkEntry (u32 now) key value flag))
      (entry_size (mkEntry (u32 now) key value flag)) (string_of key) (len value) flag)
      (λ _, put_rotate)) s) as Eput by done.
  rewrite Eput. clear Eput. unfold bind at 1. rewrite E1.
  destruct O1 as [->|[e ->]].
  2: { exists (Err e), s1, L1. split_and!; [done|done|by left|].
       intros Hc. by destruct (C1 Hc) as [? _]. }
  destruct (put_write_spec L1 s1 m (mkEntry (u32 now) key value flag) H1 Hfl Hr)
    as (r2 & s2 & L2 & E2 & H2 & X2 & O2 & N2 & C2).
  rewrite A1 in E2. simpl in E2. unfold bind. rewrite E2.
  assert (Clean L s → r2 = Ok tt ∧ Clean L2 s2) as C12.
  { intros Hc. apply C2; [by apply C1|by apply N1]. }
  destruct O2 as [->|[e ->]].
  2: { exists (Err e), s2, L2. split_and!; [done|by etrans|by left|].
       intros Hc. by destruct (C12 Hc) as [? _]. }
  destruct (put_rotate_spec L2 s2 _ H2 (N2 eq_refl))
    as (r3 & s3 & L3 & E3 & H3 & (X3 & O3 & C3)).
  exists r3, s3, L3. rewrite E3. split_and!; [done|by do 2 (etrans; [eassumption|])|..].
  - destruct O3 as [->|[e ->]]; [done|by right].
  - intros Hc. by apply C3, C12.
Qed.

Lemma slice_off n pre rest : slice (len pre) n (pre ++ rest) = slice 0 n rest.
Proof. unfold slice, len. by rewrite Nat2Z.id, drop_app_length. Qed.

Lemma slice_prefix a b : slice 0 (len a) (a ++ b) = a.
Proof. by apply (slice_at 0 (len a) [] a b). Qed.

(** What reading at the offset of an entry gives. *)
Lemma entry_header r rest :
  (len (slice 0 headerSize (enc r ++ rest)) <? headerSize) = false.
Proof.
  apply Z.ltb_ge. rewrite len_slice; [done..|]. rewrite len_app.
  pose proof (len_enc_pos r). pose proof (len_nonneg rest). unfold headerSize. lia.
Qed.

Lemma entry_whole r rest : slice 0 (entry_size r) (enc r ++ rest) = enc r.
Proof. rewrite <-len_enc. apply slice_prefix. Qed.

Lemma Get_spec L s m key :
  Inv L s m →
  ∃ r fs, Get key s = (r, mkStore (bk s) (set_faults fs (wd s))) ∧
    fault_step (wd s) fs ∧
    match r with
    | Ok v => m !! string_of key = Some v
    | Err e => (e = errNotFound ∧ m !! string_of key = None) ∨
        (e = ErrIO ∧ w_faults (wd s) ≠ [])
    | _ => False
    end.
Proof.
  intros H. pose proof (inv_live _ _ _ H (string_of key)) as Hl.
  unfold Get, bind at 1, gets. destruct (keyDir (bk s) !! string_of key) as [e|].
  2: { destruct (m !! string_of key); [done|].
       exists (Err errNotFound), (w_faults (wd s)).
       destruct s as [b [w1 w2 w3 w4 w5]]. split_and!; [done| |left; by split].
       by intros Hx. }
  destruct (m !! string_of key) as [v|]; [|done].
  destruct Hl as (rs1 & r & rs2 & HL & Hoff & Hk & Hfl & <- & Hvs).
  destruct (proj1 (inv_dom _ _ _ H _) (mk_is_Some _ _ HL)) as [h Hh].
  destruct (inv_files _ _ _ H _ _ _ Hh HL) as (ino & tail & Hd & Ho & Hi).
  pose proof (inv_small _ _ _ H _ _ HL) as Hsm.
  apply Forall_app in Hsm as [_ [Hr _]%Forall_cons].
  set (rest := enc_all rs2 ++ tail).
  assert (content (wd s) ino = enc_all rs1 ++ enc r ++ rest) as Hc.
  { transitivity ((enc_all rs1 ++ enc r ++ enc_all rs2) ++ tail).
    - unfold content. by rewrite Hi, enc_all_app, enc_all_cons.
    - unfold rest. by rewrite <-!(assoc_L (++)). }
  destruct (header_fields r rest Hr) as (_ & Eks & Evs & Efl).
  unfold filePtr_at. rewrite Hh. simpl. rewrite Hoff.
  destruct (ReadAt_spec (wd s) h ino headerSize (len (enc_all rs1)) Ho) as
    (fs1 & F1 & [[E1 N1]|E1]); [apply len_nonneg|done|..].
  { unfold bind at 1, onfs, zoom. rewrite E1.
    exists (Err ErrIO), fs1. split_and!; [done|done|by right]. }
  rewrite Hc, slice_off, entry_header in E1.
  unfold bind at 1, onfs at 1, zoom at 1. rewrite E1.
  fold (hdr_key_size (slice 0 headerSize (enc r ++ rest))).
  fold (hdr_val_size (slice 0 headerSize (enc r ++ rest))).
  rewrite Eks, Evs, Efl. fold (entry_size r).
  destruct (ReadAt_spec (set_faults fs1 (wd s)) h ino (entry_size r)
    (len (enc_all rs1)) Ho) as (fs2 & F2 & [[E2 N2]|E2]).
  { apply len_nonneg. }
  { rewrite <-len_enc. pose proof (len_enc_pos r). lia. }
  { unfold bind at 1, onfs, zoom. simpl. rewrite E2. exists (Err ErrIO), fs2.
    split_and!; [done|by intros Hx; apply F2, F1|]. right. split; [done|].
    intros Hx. by apply N2, F1. }
  change (content (set_faults fs1 (wd s)) ino) with (content (wd s) ino) in E2.
  rewrite Hc, slice_off, entry_whole, len_enc, Z.ltb_irrefl in E2.
  unfold bind at 1, onfs, zoom. simpl. rewrite E2.
  destruct (enc_fields r) as (Ecrc & Ekey & Eval).
  rewrite Ecrc, Z.eqb_refl, Ekey, Hfl, Eval. simpl.
  rewrite bool_decide_eq_true_2 by done. simpl.
  exists (Ok (e_val r)), fs2. split_and!; [done|by intros Hx; apply F2, F1|done].
Qed.
