(* ===== verification/BitcaskMerge.v ===== *)
(** [bitcask/main.go]: [Merge] and its merge segments.

    [Merge] runs beside other goroutines: it releases the mutex between its
    critical sections.  The model makes the interleaving explicit.  [yield]
    stands wherever the code does not hold the mutex; it runs the next batch of
    the calls [env] that other goroutines make there and records their results.
    A theorem over all [env] is a theorem over all interleavings of [Put],
    [Delete] and [Get] with one [Merge]. *)

From stdpp Require Import gmap strings list fin_maps.
From Stdlib Require Import ZArith Lia.
From coqutil Require Byte Word.LittleEndianList.
From S2P Require Import Prelude GoLib GoFS BitcaskStore.

(** * Calls of other goroutines *)

Inductive op :=
| OPut (now : Z) (key value : bytes)
| ODelete (now : Z) (key : bytes)
| OGet (key : bytes).

Definition run_op (o : op) : M Store bytes :=
  match o with
  | OPut now k v => let! _ := Put now k v in ret []
  | ODelete now k => let! _ := Delete now k in ret []
  | OGet k => Get k
  end.

(** The store during a merge, the calls to come at each release of the mutex,
    and the calls made so far with their results. *)
Record Conc := mkConc {
  st : Store;
  env : list (list op);
  done_ops : list (op * outcome bytes);
}.

Definition set_st f (c : Conc) := mkConc (f (st c)) (env c) (done_ops c).
Definition onst {A} (m : M Store A) : M Conc A :=
  zoom st (λ s c, mkConc s (env c) (done_ops c)) m.

Fixpoint run_batch (os : list op) (c : Conc) : Conc :=
  match os with
  | [] => c
  | o :: os =>
      let '(r, s) := run_op o (st c) in
      run_batch os (mkConc s (env c) (done_ops c ++ [(o, r)]))
  end.

Definition yield : M Conc unit := λ c,
  match env c with
  | [] => (Ok tt, c)
  | os :: rest => (Ok tt, run_batch os (mkConc (st c) rest (done_ops c)))
  end.

(** * Merge segments *)

Record mergeUpdate := mkMergeUpdate {
  originalFilePath : string;
  originalOffset : Z;
  originalValSize : Z;
  newEntry : KeyDirEntry;
}.

Record mergeSegment := mkMergeSegment {
  seg_id : Z;
  dataPath : string;
  hintPath : string;
  dataFile : File;
  hintFile : File;
  dataOffset : Z;
  hintOffset : Z;
}.

Definition openMergeSegment (id : Z) : M Store mergeSegment :=
  let! b := gets bk in
  let dataPath := mergeDataPath b id in
  let hintPath := mergeHintPath b id in
  let! stat := attempt (onfs (Stat dataPath)) in
  let! dataAlreadyExists :=
    match stat with
    | inl _ => ret true
    | inr ErrNotExist => ret false
    | inr e => fail e
    end in
  let! dataFile := onfs (OpenFile dataPath creat) in
  let! r := attempt (onfs (OpenFile hintPath creat)) in
  match r with
  | inr e =>
      do! ignore (onfs (Close dataFile)) in
      do! (if dataAlreadyExists then ret tt else ignore (onfs (Remove dataPath))) in
      fail e
  | inl hintFile =>
      let! dataInfo := attempt (onfs (StatSize dataFile)) in
      let! hintInfo :=
        match dataInfo with
        | inl _ => attempt (onfs (StatSize hintFile))
        | inr e => ret (inr e)
        end in
      match dataInfo, hintInfo with
      | inl dsize, inl hsize =>
          ret (mkMergeSegment id dataPath hintPath dataFile hintFile dsize hsize)
      | inr e, _ | _, inr e =>
          do! ignore (onfs (Close dataFile)) in
          do! ignore (onfs (Close hintFile)) in
          fail e
      end
  end.

(** [(m *mergeSegment) sync], [closeHint]. *)
Definition seg_sync (m : mergeSegment) : M Store unit :=
  do! onfs (Sync (dataFile m)) in onfs (Sync (hintFile m)).
Definition closeHint (m : mergeSegment) : M Store unit := onfs (Close (hintFile m)).

Definition rotateMergeSegmentLocked (segment : mergeSegment) : M Store mergeSegment :=
  do! seg_sync segment in
  do! closeHint segment in
  let! b := gets bk in
  do! modbk (set_mergeFileCnt (mergeFileCnt b + 1)) in
  let! nextSegment := openMergeSegment (mergeFileCnt b + 1) in
  do! modbk (set_filePtrs (insert (dataPath nextSegment) (dataFile nextSegment))) in
  ret nextSegment.

Definition ensureMergeSegmentCapacityLocked (segment : mergeSegment) (nextDataSize : Z)
    : M Store mergeSegment :=
  let! b := gets bk in
  if dataOffset segment + nextDataSize <=? maxFileSizeBytes b then ret segment
  else rotateMergeSegmentLocked segment.

(** The record [appendEntry] writes to the hint file. *)
Definition hint_record (key : bytes) (valueSize dataOffset : Z) : bytes :=
  put_u32 (u32 (len key)) ++ put_u32 valueSize ++ put_u64 (u64 dataOffset) ++ key.

(** [appendEntry] mutates the segment it is called on; the model returns it. *)
Definition appendEntry (m : mergeSegment) (entryBuf key : bytes) (valueSize : Z)
    : M Store (KeyDirEntry * mergeSegment) :=
  do! onfs (WriteAt (dataFile m) entryBuf (dataOffset m)) in
  let hintRecordBuf := hint_record key valueSize (dataOffset m) in
  do! onfs (WriteAt (hintFile m) hintRecordBuf (hintOffset m)) in
  ret (mkKeyDirEntry (dataPath m) (dataOffset m) valueSize,
       mkMergeSegment (seg_id m) (dataPath m) (hintPath m) (dataFile m) (hintFile m)
         (dataOffset m + len entryBuf) (hintOffset m + len hintRecordBuf)).

(** * Merge *)

(** What the scan of one file leaves: the segment now appended to ([None] is the
    nil pointer a failed rotation returns), whether the scan succeeded, and the
    updates to apply. *)
Abbreviation scan_result :=
  (option mergeSegment * bool * gmap string mergeUpdate)%type.

(** The critical section of the scan: make room, append, note the offsets. *)
Definition mergeAppend (segment : mergeSegment) (blockSize : Z) (buf1 key : bytes)
    (valueSize : Z) : M Store (option mergeSegment * option KeyDirEntry) :=
  let! r := attempt (ensureMergeSegmentCapacityLocked segment blockSize) in
  match r with
  | inr _ => ret (None, None)
  | inl segment =>
      let! a := attempt (appendEntry segment buf1 key valueSize) in
      match a with
      | inr _ =>
          do! modbk (set_mergeOffsets (dataOffset segment) (hintOffset segment)) in
          ret (Some segment, None)
      | inl (newEntry, segment) =>
          do! modbk (set_mergeOffsets (dataOffset segment) (hintOffset segment)) in
          ret (Some segment, Some newEntry)
      end
  end.

(** The loop over the entries of one file.  Passing an entry whose sizes fit their
    fields advances by at least the 17 bytes of its header, so the length of the
    file bounds the iterations. *)
Fixpoint mergeScan (fuel : nat) (path : string) (filePtr : File)
    (segment : mergeSegment) (curOffset : Z) (pendingUpdates : gmap string mergeUpdate)
    : M Conc scan_result :=
  match fuel with
  | O => λ c, (NoFuel, c)
  | S fuel =>
      do! yield in
      let! hdr := attempt (onst (onfs (ReadAt filePtr 17 curOffset))) in
      match hdr with
      | inr ErrEOF => ret (Some segment, true, pendingUpdates)
      | inr _ => ret (Some segment, false, pendingUpdates)
      | inl buf =>
          let keySize := get_u32 (slice 8 4 buf) in
          let valueSize' := get_u32 (slice 12 4 buf) in
          let isDeleted := nth 16 buf Byte.x00 in
          let blockSize := u32 (17 + keySize + valueSize') in
          if bool_decide (isDeleted = Byte.x00) then
            let! ent := attempt (onst (onfs (ReadAt filePtr blockSize curOffset))) in
            match ent with
            | inr _ => ret (Some segment, false, pendingUpdates)
            | inl buf1 =>
                if blockSize <? 4 then panic "slice bounds out of range" else
                let storedCRC := get_u32 (slice 0 4 buf1) in
                let computedCRC := crc32 (drop 4 buf1) in
                if negb (storedCRC =? computedCRC) then
                  mergeScan fuel path filePtr segment (curOffset + blockSize) pendingUpdates
                else if (u32 (17 + keySize) <? 17) || (blockSize <? u32 (17 + keySize)) then
                  panic "slice bounds out of range"
                else
                  let key := slice 17 (u32 (17 + keySize) - 17) buf1 in
                  let keyStr := string_of key in
                  do! yield in
                  let! b := gets (λ c, bk (st c)) in
                  let live :=
                    match keyDir b !! keyStr with
                    | Some e => bool_decide (filePath e = path) &&
                        (fileEntryOffset e =? curOffset) && (valueSize e =? valueSize')
                    | None => false
                    end in
                  if live then
                    do! yield in
                    let! r := onst (mergeAppend segment blockSize buf1 key valueSize') in
                    match r with
                    | (Some segment, Some newEntry) =>
                        mergeScan fuel path filePtr segment (curOffset + blockSize)
                          (<[keyStr := mkMergeUpdate path curOffset valueSize' newEntry]>
                             pendingUpdates)
                    | (seg, _) => ret (seg, false, pendingUpdates)
                    end
                  else mergeScan fuel path filePtr segment (curOffset + blockSize)
                    pendingUpdates
            end
          else mergeScan fuel path filePtr segment (curOffset + blockSize) pendingUpdates
      end
  end.

(** Apply one pending update unless the key has been written since. *)
Definition applyUpdate (kd : gmap string KeyDirEntry) (u : string * mergeUpdate)
    : gmap string KeyDirEntry :=
  match kd !! u.1 with
  | Some current =>
      if bool_decide (filePath current = originalFilePath u.2) &&
         (fileEntryOffset current =? originalOffset u.2) &&
         (valueSize current =? originalValSize u.2)
      then <[u.1 := newEntry u.2]> kd else kd
  | None => kd
  end.

(** [strings.TrimSuffix(path, ".data") + ".hint"]. *)
Definition hint_of_data (path : string) : string :=
  let n := String.length path in
  (if String.eqb (String.substring (n - 5) 5 path) ".data" then
     String.substring 0 (n - 5) path else path) +:+ ".hint".

(** [strings.Contains(s, sub)]. *)
Fixpoint contains (sub s : string) : bool :=
  String.prefix sub s ||
  match s with EmptyString => false | String _ s' => contains sub s' end.

Section merge.
Context `{MapRange}.

(** The last critical section for a file: sync, update the directory, delete. *)
Definition mergeFinish (path : string) (filePtr : File) (segment : mergeSegment)
    (fileMergedSuccessfully : bool) (pendingUpdates : gmap string mergeUpdate)
    : M Store unit :=
  let! r := attempt (seg_sync segment) in
  match r with
  | inr _ => ret tt
  | inl _ =>
      if negb fileMergedSuccessfully then ret tt
      else
        do! modbk (set_keyDir (λ kd, fold_left applyUpdate (range pendingUpdates) kd)) in
        do! ignore (onfs (Close filePtr)) in
        do! modbk (set_filePtrs (delete path)) in
        do! ignore (onfs (Remove path)) in
        do! (if contains "merge" path then ignore (onfs (Remove (hint_of_data path)))
             else ret tt) in
        modbk (set_mergeOffsets (dataOffset segment) (hintOffset segment))
  end.

(** The length of a file bounds the iterations of its scan. *)
Definition scan_fuel (w : World) (h : File) : nat :=
  match h with
  | Some n =>
      match w_fd w !! n with
      | Some f => S (length (content w (fd_ino f)))
      | None => 1
      end
  | None => 1
  end.

(** One iteration of the loop over the immutable files. *)
Definition mergeFile (segment : mergeSegment) (path : string) : M Conc mergeSegment :=
  do! yield in
  let! s := gets st in
  match filePtrs (bk s) !! path with
  | None => ret segment
  | Some filePtr =>
      let! res := mergeScan (scan_fuel (wd s) filePtr) path filePtr segment 0 ∅ in
      do! yield in
      match res with
      | (None, _, _) => panic "nil pointer dereference"
      | (Some segment, ok, pending) =>
          do! onst (mergeFinish path filePtr segment ok pending) in
          ret segment
      end
  end.

Fixpoint mergeFiles (segment : mergeSegment) (paths : list string)
    : M Conc mergeSegment :=
  match paths with
  | [] => ret segment
  | p :: paths => let! segment := mergeFile segment p in mergeFiles segment paths
  end.

(** The first critical section: open the segment, snapshot the other files. *)
Definition mergeBegin : M Store (mergeSegment * list string) :=
  let! b := gets bk in
  let activeFilePath := activePath b (fileCnt b) in
  let! segment := openMergeSegment (mergeFileCnt b) in
  do! modbk (set_filePtrs (insert (dataPath segment) (dataFile segment))) in
  let! b := gets bk in
  ret (segment,
    filter (λ p, p ≠ activeFilePath ∧ p ≠ dataPath segment) (range (filePtrs b)).*1).

Definition Merge : M Conc unit :=
  let! r := attempt (onst mergeBegin) in
  match r with
  | inr _ => ret tt
  | inl (segment, immutableFiles) =>
      let! segment := mergeFiles segment immutableFiles in
      do! yield in
      ignore (onst (closeHint segment))
  end.
End merge.
