(* ===== verification/BitcaskMergeRefine.v ===== *)
(** [Merge] refines the identity: a merge that runs beside any [Put], [Delete]
    and [Get] calls leaves the map those calls built, every one of them having
    seen the map of the moment.  The lemmas follow the code: calls at a
    [yield], opening and appending to a segment, the scan of a file, the last
    critical section, the loop over the files. *)

From stdpp Require Import gmap strings list fin_maps.
From Stdlib Require Import ZArith Lia.
From coqutil Require Byte Word.LittleEndianList.
From S2P Require Import Prelude GoLib GoFS BitcaskStore BitcaskMerge.

(** * The specification: a map *)

#[export] Instance outcome_eq_dec `{EqDecision A} : EqDecision (outcome A).
Proof. solve_decision. Defined.

(** What one call answers and does to the map. *)
Definition spec_op (o : op) (m : kvmap) : outcome bytes * kvmap :=
  match o with
  | OPut _ k v => (Ok [], <[string_of k := v]> m)
  | ODelete _ k => (Ok [], delete (string_of k) m)
  | OGet k =>
      (match m !! string_of k with Some v => Ok v | None => Err errNotFound end, m)
  end.

(** A history of calls and answers, checked against the map [m]: the final map,
    provided every answer is the one the map gives. *)
Fixpoint replay (m : kvmap) (h : list (op * outcome bytes)) : option kvmap :=
  match h with
  | [] => Some m
  | (o, r) :: h =>
      let '(r', m') := spec_op o m in
      if decide (r = r') then replay m' h else None
  end.

(** The entry a call writes has sizes that fit. *)
Definition op_ok (o : op) : Prop :=
  match o with
  | OPut now k v => entry_ok (mkEntry (u32 now) k v Byte.x00)
  | ODelete now k => entry_ok (mkEntry (u32 now) k [] Byte.x01)
  | OGet _ => True
  end.

Lemma replay_snoc m h m' o :
  replay m h = Some m' →
  replay m (h ++ [(o, (spec_op o m').1)]) = Some (spec_op o m').2.
Proof.
  revert m. induction h as [|[o' r'] h IH]; intros m; simpl.
  - intros [= ->]. destruct (spec_op o m') as [r m'']. simpl. by rewrite decide_True.
  - destruct (spec_op o' m) as [r m'']. case_decide; [apply IH|done].
Qed.

(** * Calls at a yield *)

Lemma run_op_spec L s m o :
  Inv L s m → Clean L s → op_ok o →
  ∃ s' L', run_op o s = ((spec_op o m).1, s') ∧ Inv L' s' (spec_op o m).2 ∧
    Clean L' s' ∧ ext (L, s) (L', s').
Proof.
  intros H Hc Ho. destruct o as [now k v|now k|k]; simpl.
  - destruct (put_spec L s m now k v Byte.x00 H (or_introl eq_refl) Ho)
      as (r & s' & L' & E & X & P & C).
    destruct (C Hc) as [-> C']. unfold bind, Put. rewrite E. by exists s', L'.
  - destruct (put_spec L s m now k [] Byte.x01 H (or_intror eq_refl) Ho)
      as (r & s' & L' & E & X & P & C).
    destruct (C Hc) as [-> C']. unfold bind, Delete. rewrite E. by exists s', L'.
  - destruct (Get_spec L s m k H) as (r & fs & E & F & P).
    pose proof (cl_faults _ _ Hc) as Hf. specialize (F Hf). subst fs.
    assert (mkStore (bk s) (set_faults [] (wd s)) = s) as Es.
    { destruct s as [b [w1 w2 w3 w4 w5]]. simpl in *. by rewrite Hf. }
    rewrite E, Es. exists s, L. split_and!; [|done|done|reflexivity].
    f_equal. destruct r as [v|e| |]; [by rewrite P| |done|done].
    destruct P as [[-> P]|[_ P]]; [by rewrite P|by destruct (P Hf)].
Qed.

(** The invariant of a concurrent run that started from the map [m0]. *)
Record CInv (m0 : kvmap) (c : Conc) (L : layout) (m : kvmap) : Prop := {
  ci_inv : Inv L (st c) m;
  ci_clean : Clean L (st c);
  ci_replay : replay m0 (done_ops c) = Some m;
  ci_env : Forall (Forall op_ok) (env c);
}.

Lemma run_batch_spec m0 os c L m :
  CInv m0 c L m → Forall op_ok os →
  ∃ L' m', CInv m0 (run_batch os c) L' m' ∧ ext (L, st c) (L', st (run_batch os c)).
Proof.
  revert c L m. induction os as [|o os IH]; intros c L m H Ho; simpl.
  - exists L, m. split; [done|reflexivity].
  - apply Forall_cons in Ho as [Ho Hos].
    destruct (run_op_spec L (st c) m o) as (s' & L' & E & H' & C' & X');
      [apply H|apply H|done|].
    rewrite E. edestruct (IH (mkConc s' (env c) (done_ops c ++ [(o, (spec_op o m).1)])))
      as (L2 & m2 & H2 & X2); [|done|].
    + constructor; simpl; [done|done|apply replay_snoc, H|apply H].
    + exists L2, m2. split; [done|]. by etrans; [exact X'|].
Qed.

Lemma yield_spec m0 c L m :
  CInv m0 c L m →
  ∃ c' L' m', yield c = (Ok tt, c') ∧ CInv m0 c' L' m' ∧ ext (L, st c) (L', st c').
Proof.
  intros H. unfold yield. destruct (env c) as [|os rest] eqn:Ee.
  - exists c, L, m. split_and!; [done|done|reflexivity].
  - pose proof (ci_env _ _ _ _ H) as He. rewrite Ee in He.
    apply Forall_cons in He as [Hos Hrest].
    destruct (run_batch_spec m0 os (mkConc (st c) rest (done_ops c)) L m)
      as (L' & m' & H' & X'); [|done|by eexists _, L', m'].
    destruct H as [? ? ? _]. by constructor.
Qed.

(** * What the scan of a file relies on *)

(** Neither a coming [put] nor this merge writes to [p]. *)
Definition sealed (b : BitCask) (p : string) : Prop :=
  immutable b p ∧ ∀ n, mergeFileCnt b ≤ n → p ≠ mergeDataPath b n.

(** From [x] to [y], by other goroutines' calls and by appending to segments:
    sealed files stay as they are and lose live entries only; entries elsewhere
    stay. *)
Record sgrow (x y : layout * Store) : Prop := {
  sg_base : fileBasePath (bk y.2) = fileBasePath (bk x.2);
  sg_max : maxFileSizeBytes (bk y.2) = maxFileSizeBytes (bk x.2);
  sg_cnt : fileCnt (bk x.2) ≤ fileCnt (bk y.2);
  sg_mcnt : mergeFileCnt (bk x.2) ≤ mergeFileCnt (bk y.2);
  sg_ptrs : ∀ p, sealed (bk x.2) p → filePtrs (bk y.2) !! p = filePtrs (bk x.2) !! p;
  sg_dir : ∀ p, sealed (bk x.2) p → (∀ n, p ≠ mergeHintPath (bk x.2) n) →
    w_dir (wd y.2) !! p = w_dir (wd x.2) !! p;
  sg_layout : ∀ p, sealed (bk x.2) p → y.1 !! p = x.1 !! p;
  sg_keyDir : ∀ k e, keyDir (bk y.2) !! k = Some e →
    sealed (bk x.2) (filePath e) → keyDir (bk x.2) !! k = Some e;
  sg_grow : ∀ p rs, immutable (bk x.2) p → x.1 !! p = Some rs →
    ∃ more, y.1 !! p = Some (rs ++ more);
}.

Lemma sealed_sgrow x y p : sgrow x y → sealed (bk x.2) p → sealed (bk y.2) p.
Proof.
  intros E [H1 H2]. pose proof (sg_cnt _ _ E). pose proof (sg_mcnt _ _ E).
  split; intros n Hn.
  - rewrite (activePath_base (bk x.2)) by apply E. apply H1. lia.
  - rewrite (mergeDataPath_base (bk x.2)) by apply E. apply H2. lia.
Qed.

Lemma immutable_sgrow x y p : sgrow x y → immutable (bk x.2) p → immutable (bk y.2) p.
Proof.
  intros E H n Hn. pose proof (sg_cnt _ _ E).
  rewrite (activePath_base (bk x.2)) by apply E. apply H. lia.
Qed.

Lemma mergeHintPath_base b b' n :
  fileBasePath b' = fileBasePath b → mergeHintPath b' n = mergeHintPath b n.
Proof. unfold mergeHintPath. by intros ->. Qed.

#[export] Instance sgrow_preorder : PreOrder sgrow.
Proof.
  split.
  - intros x. constructor; try done. intros p rs _ Hp. exists [].
    by rewrite (right_id_L [] (++)).
  - intros x y z Exy Eyz. constructor.
    + by rewrite (sg_base _ _ Eyz), (sg_base _ _ Exy).
    + by rewrite (sg_max _ _ Eyz), (sg_max _ _ Exy).
    + etrans; [apply Exy|apply Eyz].
    + etrans; [apply Exy|apply Eyz].
    + intros p Hp. rewrite (sg_ptrs _ _ Eyz p), (sg_ptrs _ _ Exy p);
        [done..|by eapply sealed_sgrow].
    + intros p Hp Hh. rewrite (sg_dir _ _ Eyz p), (sg_dir _ _ Exy p);
        [done..|by eapply sealed_sgrow|]. intros n.
      rewrite (mergeHintPath_base (bk x.2)); [done|apply Exy].
    + intros p Hp. rewrite (sg_layout _ _ Eyz p), (sg_layout _ _ Exy p);
        [done..|by eapply sealed_sgrow].
    + intros k e Hk He. apply (sg_keyDir _ _ Exy); [|done].
      apply (sg_keyDir _ _ Eyz); [done|by eapply sealed_sgrow].
    + intros p rs Hp Hx. destruct (sg_grow _ _ Exy p rs Hp Hx) as [m1 Hy].
      destruct (sg_grow _ _ Eyz p _ (immutable_sgrow _ _ _ Exy Hp) Hy) as [m2 Hz].
      exists (m1 ++ m2). by rewrite (assoc_L (++)).
Qed.

Lemma ext_sgrow x y : ext x y → sgrow x y.
Proof.
  intros E. constructor; try apply E.
  - by rewrite (ext_mcnt _ _ E).
  - intros p [Hp _]. by apply E.
  - intros p [Hp _] _. by apply E.
  - intros p [Hp _]. by apply E.
  - intros k e Hk [He _]. by apply E.
  - intros p rs Hp Hx. exists [].
    by rewrite (ext_layout _ _ E p Hp), (right_id_L [] (++)).
Qed.

(** The segment being appended to: its data file is of the store, its offset the
    end of that file; its hint file is open. *)
Record seg_ok (L : layout) (s : Store) (g : mergeSegment) : Prop := {
  so_path : dataPath g = mergeDataPath (bk s) (mergeFileCnt (bk s));
  so_ptr : filePtrs (bk s) !! dataPath g = Some (dataFile g);
  so_off : ∃ rs, L !! dataPath g = Some rs ∧ dataOffset g = len (enc_all rs);
  so_hint : ∃ hino, w_dir (wd s) !! mergeHintPath (bk s) (mergeFileCnt (bk s)) = Some hino ∧
    open_at (wd s) (hintFile g) hino;
  so_hoff : 0 ≤ hintOffset g;
}.

Lemma merge_immutable b n : immutable b (mergeDataPath b n).
Proof. intros k _ E. by apply (active_not_merge b k n). Qed.
Lemma hint_immutable b n : immutable b (mergeHintPath b n).
Proof. intros k _ E. by apply (active_not_hint b k n). Qed.

Lemma seg_ok_ext L s L' s' g : ext (L, s) (L', s') → seg_ok L s g → seg_ok L' s' g.
Proof.
  intros E [H1 H2 (rs & H3 & H4) (hi & H5 & H6) H7].
  pose proof (ext_base _ _ E) as Eb. pose proof (ext_mcnt _ _ E) as Em. simpl in *.
  assert (immutable (bk s) (dataPath g)) as Hi by (rewrite H1; apply merge_immutable).
  constructor; [..|done].
  - by rewrite Em, (mergeDataPath_base (bk s)).
  - etrans; [apply (ext_ptrs _ _ E _ Hi)|done].
  - exists rs. split; [|done]. etrans; [apply (ext_layout _ _ E _ Hi)|done].
  - exists hi. rewrite Em, (mergeHintPath_base (bk s)) by done. split.
    + etrans; [apply (ext_dir _ _ E _ (hint_immutable _ _))|done].
    + by apply (ext_open _ _ E).
Qed.

(** * Opening a segment *)

(** Opening a path that is no data file changes nothing of the store. *)
Lemma inv_open_other L s m p :
  Inv L s m → Inv L (mkStore (bk s) (opened p false (wd s))) m.
Proof.
  intros H. pose proof H as [H1 H2 H3 H4 H5 H6 H7]. constructor; simpl; try done.
  - by apply wf_opened.
  - intros q h rs Hq HL. apply file_ok_opened; [done|by apply H3].
Qed.

(** Opening a data file again replaces its handle. *)
Lemma inv_reopen L s m p rs :
  Inv L s m → L !! p = Some rs →
  Inv L (mkStore (set_filePtrs (insert p (Some (w_next (wd s)))) (bk s))
    (opened p false (wd s))) m.
Proof.
  intros H HL. destruct (proj1 (inv_dom _ _ _ H p) (mk_is_Some _ _ HL)) as [h0 Hh0].
  destruct (inv_files _ _ _ H _ _ _ Hh0 HL) as (ino & tail & Hd & Ho & Hi).
  pose proof H as [H1 H2 H3 H4 H5 H6 H7]. constructor; simpl; try done.
  - by apply wf_opened.
  - intros q. destruct (decide (q = p)) as [->|Hne].
    + rewrite lookup_insert_eq. split; intros _; by eexists.
    + by rewrite lookup_insert_ne.
  - intros q h rs' Hq HL'. destruct (decide (q = p)) as [->|Hne].
    + rewrite lookup_insert_eq in Hq. simplify_eq. exists ino, tail. split_and!.
      * by rewrite opened_dir, lookup_insert_eq, Hd.
      * pose proof (opened_open p (wd s)) as Hop. by rewrite Hd in Hop.
      * by apply opened_ino.
    + rewrite lookup_insert_ne in Hq by done.
      apply file_ok_opened; [done|by apply H3].
  - intros q [h Hq]. destruct (decide (q = p)) as [->|Hne].
    + apply H5. by eexists.
    + rewrite lookup_insert_ne in Hq by done. apply H5. by eexists.
  - intros [He|He]; [by apply insert_non_empty in He|]. apply H6. by right.
Qed.

Definition add_ptr (g : mergeSegment) (s : Store) : Store :=
  mkStore (set_filePtrs (insert (dataPath g) (dataFile g)) (bk s)) (wd s).

Lemma merge_path_fresh L s m n :
  Inv L s m → L !! mergeDataPath (bk s) n = None →
  filePtrs (bk s) !! mergeDataPath (bk s) n = None.
Proof.
  intros H HL. apply eq_None_not_Some. rewrite <-(inv_dom _ _ _ H), HL. by intros [? ?].
Qed.

(** The store once the data file of the current segment has been opened. *)
(** Opening the data file of a new segment, with the other files as they were. *)
Section open_data.
Context (L : layout) (s : Store) (m : kvmap).
Hypotheses (H : Inv L s m) (Hc : Clean L s) (Hnz : filePtrs (bk s) ≠ ∅).
Let dp := mergeDataPath (bk s) (mergeFileCnt (bk s)).
Let s' := mkStore (set_filePtrs (insert dp (Some (w_next (wd s)))) (bk s))
  (opened dp false (wd s)).
Let L' := <[dp := default [] (L !! dp)]> L.

Lemma data_not_sealed p : sealed (bk s) p → p ≠ dp.
Proof. intros [_ Hp]. apply Hp. lia. Qed.
Lemma data_not_active n : dp ≠ activePath (bk s) n.
Proof. intros E. by eapply active_not_merge. Qed.

Lemma open_data_inv : Inv L' s' m.
Proof.
  pose proof data_not_active as Hna.
  subst L'. destruct (L !! dp) as [rs|] eqn:E; simpl.
  - rewrite insert_id by done. by eapply inv_reopen.
  - eapply inv_add_file; simpl; try done.
    + by eapply merge_path_fresh.
    + intros q [h Hq]. destruct (decide (q = dp)) as [->|Hne].
      * right. eexists. split; [|reflexivity]. simpl. lia.
      * rewrite lookup_insert_ne in Hq by done. apply (inv_paths _ _ _ H). by eexists.
    + change (active _) with (active (bk s)). rewrite lookup_insert_ne by apply Hna.
      intros Hx. apply (inv_active _ _ _ H). by right.
Qed.

Lemma open_data_clean : Clean L' s'.
Proof.
  pose proof data_not_active as Hna. assert (wf_world (wd s)) as Hw by apply H.
  assert (L !! dp = None → w_dir (wd s) !! dp = None) as Hfree.
  { intros E. destruct (w_dir (wd s) !! dp) eqn:Ed; [|done].
    destruct (cl_merge _ _ Hc (mergeFileCnt (bk s))) as [? Hx]; [lia|by eexists|].
    fold dp in Hx. congruence. }
  constructor; simpl.
  - rewrite opened_faults. apply Hc.
  - intros p rs ino. subst L'. rewrite opened_dir.
    destruct (decide (p = dp)) as [->|Hne].
    + rewrite !lookup_insert_eq. intros [= <-] [= <-].
      destruct (L !! dp) as [rs|] eqn:E; simpl.
      * destruct (proj1 (inv_dom _ _ _ H dp) (mk_is_Some _ _ E)) as [h0 Hh0].
         destruct (inv_files _ _ _ H _ _ _ Hh0 E) as (ino & tail & Hd & Ho & Hi).
         rewrite Hd. simpl. apply opened_ino; [done|]. by eapply (cl_exact _ _ Hc).
      * rewrite Hfree, opened_new by auto. simpl. by rewrite lookup_insert_eq.
    + rewrite !(lookup_insert_ne _ dp p) by done. intros Hp Hd.
      apply opened_ino; [done|]. by eapply (cl_exact _ _ Hc).
  - change (active _) with (active (bk s)). right. subst L'.
    rewrite lookup_insert_ne by apply Hna. by destruct (cl_active _ _ Hc).
  - intros n Hn. rewrite opened_dir, lookup_insert_ne by apply Hna.
    by apply (cl_fresh _ _ Hc).
  - intros He. by apply insert_non_empty in He.
  - intros n Hn. subst L'. rewrite opened_dir, (mergeDataPath_base (bk s)) by done.
    destruct (decide (mergeDataPath (bk s) n = dp)) as [->|Hne].
    + rewrite !lookup_insert_eq. by eexists.
    + rewrite !lookup_insert_ne by done. by apply (cl_merge _ _ Hc).
Qed.

Lemma open_data_sgrow : sgrow (L, s) (L', s').
Proof.
  pose proof data_not_sealed as Hse.
  constructor; simpl; try done.
  - intros p Hp. rewrite lookup_insert_ne; [done|]. intros <-. by apply (Hse dp).
  - intros p Hp _. rewrite opened_dir, lookup_insert_ne; [done|].
    intros <-. by apply (Hse dp).
  - intros p Hp. subst L'. rewrite lookup_insert_ne; [done|]. intros <-. by apply (Hse dp).
  - intros p rs Hp HL. subst L'. destruct (decide (p = dp)) as [->|Hne].
    + rewrite lookup_insert_eq, HL. exists []. by rewrite (right_id_L [] (++)).
    + rewrite lookup_insert_ne by done. exists []. by rewrite (right_id_L [] (++)).
Qed.

Lemma open_data_spec : Inv L' s' m ∧ Clean L' s' ∧ sgrow (L, s) (L', s').
Proof. split_and!; [apply open_data_inv|apply open_data_clean|apply open_data_sgrow]. Qed.
End open_data.

Lemma open_hint_spec L s m n :
  Inv L s m → Clean L s →
  let s' := mkStore (bk s) (opened (mergeHintPath (bk s) n) false (wd s)) in
  Inv L s' m ∧ Clean L s' ∧ sgrow (L, s) (L, s').
Proof.
  intros H Hc s'. assert (wf_world (wd s)) as Hw by apply H.
  assert (∀ k, mergeHintPath (bk s) n ≠ activePath (bk s) k) as Ha.
  { intros k E. by eapply active_not_hint. }
  assert (∀ k, mergeHintPath (bk s) n ≠ mergeDataPath (bk s) k) as Hm.
  { intros k E. by eapply data_not_hint. }
  split_and!; [by apply inv_open_other|..].
  - constructor; simpl.
    + rewrite opened_faults. apply Hc.
    + intros p rs ino HL. rewrite opened_dir.
      assert (p ≠ mergeHintPath (bk s) n) as Hne.
      { pose proof (proj1 (inv_dom _ _ _ H p) (mk_is_Some _ _ HL)) as Hp.
        destruct (inv_paths _ _ _ H p Hp) as [(k & _ & ->)|(k & _ & ->)];
          [by apply active_not_hint|by apply data_not_hint]. }
      rewrite lookup_insert_ne by done. intros Hd.
      apply opened_ino; [done|]. by eapply (cl_exact _ _ Hc).
    + apply Hc.
    + intros k Hk. rewrite opened_dir, lookup_insert_ne by apply Ha.
      by apply (cl_fresh _ _ Hc).
    + intros He. rewrite opened_dir, lookup_insert_ne by apply Ha.
      by apply (cl_first _ _ Hc).
    + intros k Hk. rewrite opened_dir, lookup_insert_ne by apply Hm.
      by apply (cl_merge _ _ Hc).
  - constructor; simpl; try done.
    + intros p Hp Hh. rewrite opened_dir, lookup_insert_ne; [done|].
      intros <-. by apply (Hh n).
    + intros p rs _ HL. exists []. by rewrite (right_id_L [] (++)).
Qed.

Lemma onfs_ok {A} (m : M World A) s r w' :
  m (wd s) = (r, w') → onfs m s = (r, mkStore (bk s) w').
Proof. unfold onfs, zoom. by intros ->. Qed.

(** A clean-up step whose error is ignored leaves only its effect on the disk. *)
Lemma ignore_onfs {A B} (m : M World A) (k : M Store B) s r w' :
  m (wd s) = (r, w') → (match r with Ok _ | Err _ => True | _ => False end) →
  bind (ignore (onfs m)) (λ _, k) s = k (mkStore (bk s) w').
Proof.
  intros E Hr. unfold bind, ignore, bind, attempt. rewrite (onfs_ok _ _ _ _ E).
  by destruct r.
Qed.

Lemma Remove_at w p i :
  w_faults w = [] → w_dir w !! p = Some i → Remove p w = (Ok tt, set_dir (delete p) w).
Proof. intros F E. by rewrite Remove_nf, E. Qed.

Lemma Remove_any w p :
  w_faults w = [] →
  ∃ r, Remove p w = (r, set_dir (delete p) w) ∧
    match r with Ok _ | Err _ => True | _ => False end.
Proof. intros F. rewrite Remove_nf by done. eexists. split; [done|]. by destruct (w_dir w !! p). Qed.

(** [openMergeSegment] when no fault is to come. *)
Lemma openMergeSegment_nf b w id :
  w_faults w = [] → wf_world w →
  let dp := mergeDataPath b id in
  let hp := mergeHintPath b id in
  let w1 := opened dp false w in
  let w2 := opened hp false w1 in
  let dino := default (w_next w) (w_dir w !! dp) in
  let hino := default (w_next w1) (w_dir w1 !! hp) in
  openMergeSegment id (mkStore b w) =
    (Ok (mkMergeSegment id dp hp (Some (w_next w)) (Some (w_next w1))
      (len (content w2 dino)) (len (content w2 hino))), mkStore b w2).
Proof.
  intros F0 Hw dp hp w1 w2 dino hino.
  assert (w_faults w1 = []) as F1 by (unfold w1; by rewrite opened_faults).
  assert (w_faults w2 = []) as F2 by (unfold w2; by rewrite opened_faults).
  assert (open_at w2 (Some (w_next w)) dino) as Od.
  { apply opened_keep; [by apply wf_opened|]. apply opened_open. }
  assert (open_at w2 (Some (w_next w1)) hino) as Oh by apply opened_open.
  unfold openMergeSegment, bind, gets, attempt, onfs, zoom, creat. cbn [bk wd].
  fold dp hp. rewrite (Stat_nf _ F0).
  destruct (w_dir w !! dp); cbn [bk wd ret]; unfold ret;
    rewrite (OpenFile_nf _ F0); fold w1; cbn [bk wd];
    rewrite (OpenFile_nf _ F1); fold w2; cbn [bk wd];
    rewrite (StatSize_nf _ F2 _ _ Od); cbn [bk wd];
    by rewrite (StatSize_nf _ F2 _ _ Oh).
Qed.

(** [openMergeSegment] followed by the entry of its data file in [filePtrs]. *)
Lemma open_segment_spec L s m :
  Inv L s m → Clean L s → filePtrs (bk s) ≠ ∅ →
  ∃ g s1 L', openMergeSegment (mergeFileCnt (bk s)) s = (Ok g, s1) ∧
    Inv L' (add_ptr g s1) m ∧ Clean L' (add_ptr g s1) ∧ seg_ok L' (add_ptr g s1) g ∧
    sgrow (L, s) (L', add_ptr g s1) ∧
    bk s1 = bk s ∧ dataPath g = mergeDataPath (bk s) (mergeFileCnt (bk s)) ∧
    dataOffset g = len (enc_all (default [] (L !! dataPath g))).
Proof.
  intros H Hc Hnz. set (id := mergeFileCnt (bk s)).
  set (dp := mergeDataPath (bk s) id). set (hp := mergeHintPath (bk s) id).
  destruct (open_data_spec L s m H Hc Hnz) as (H1 & C1 & G1).
  destruct (open_hint_spec _ _ _ id H1 C1) as (H2 & C2 & G2).
  pose proof (openMergeSegment_nf (bk s) (wd s) id (cl_faults _ _ Hc) (inv_wf _ _ _ H)) as E.
  cbv zeta in E. cbn [bk wd] in H1, C1, G1, H2, C2, G2.
  change (mergeHintPath _ id) with hp in H2, C2, G2, E.
  fold id in H1, C1, G1, H2, C2, G2. fold dp in E, H1, C1, G1, H2, C2, G2.
  assert (mkStore (bk s) (wd s) = s) as Es by by destruct s. rewrite Es in E.
  eexists _, _, (<[dp := default [] (L !! dp)]> L). split; [exact E|].
  match goal with |- _ ∧ _ ∧ _ ∧ _ ∧ _ ∧ _ ∧ ?Q => assert Q as Hoff end.
  { cbn [dataOffset dataPath]. unfold content.
    erewrite (cl_exact _ _ C2 dp); [done|by rewrite lookup_insert_eq|].
    cbn [bk wd]. rewrite opened_dir, lookup_insert_ne.
    + by rewrite opened_dir, lookup_insert_eq.
    + intros Eq. by eapply data_not_hint. }
  split_and!; [exact H2|exact C2| |by etrans|done..|exact Hoff].
  constructor; cbn [bk wd dataPath dataFile hintOffset hintFile add_ptr].
  - done.
  - cbn [filePtrs set_filePtrs]. by rewrite lookup_insert_eq.
  - eexists. rewrite lookup_insert_eq. split; [done|exact Hoff].
  - eexists. split; [|apply opened_open].
    change (mergeHintPath _ _) with hp. by rewrite opened_dir, lookup_insert_eq.
  - apply len_nonneg.
Qed.

(** * Appending to a segment *)

(** The invariant asks of the world only that it is well formed and that it
    holds the files. *)
Lemma inv_world L s m w' :
  Inv L s m → wf_world w' →
  (∀ p h rs, filePtrs (bk s) !! p = Some h → L !! p = Some rs → file_ok w' p h rs) →
  Inv L (mkStore (bk s) w') m.
Proof. intros [H1 H2 H3 H4 H5 H6 H7] Hw Hf. by constructor. Qed.

(** [ino] is the inode of no data file. *)
Definition foreign (s : Store) (ino : nat) : Prop :=
  ∀ p, is_Some (filePtrs (bk s) !! p) → w_dir (wd s) !! p ≠ Some ino.

Lemma hint_foreign L s m n hino :
  Inv L s m → w_dir (wd s) !! mergeHintPath (bk s) n = Some hino → foreign s hino.
Proof.
  intros H Hh p Hp Hd.
  pose proof (wf_dir_inj _ (inv_wf _ _ _ H) _ _ _ Hh Hd) as <-.
  destruct (inv_paths _ _ _ H _ Hp) as [(k & _ & E)|(k & _ & E)];
    [by eapply active_not_hint|by eapply data_not_hint].
Qed.

Lemma store_foreign L s m ino off b :
  Inv L s m → Clean L s → foreign s ino → is_Some (w_ino (wd s) !! ino) →
  Inv L (mkStore (bk s) (stored ino off b (wd s))) m ∧
  Clean L (mkStore (bk s) (stored ino off b (wd s))).
Proof.
  intros H Hc Hf Hi. split.
  - apply inv_world; [done|by apply wf_stored; [|apply H]|].
    intros p h rs Hp HL. apply file_ok_stored_ne; [apply Hf; by eexists|].
    by eapply (inv_files _ _ _ H).
  - destruct Hc as [C1 C2 C3 C4 C5 C6]. constructor; simpl; rewrite ?stored_dir; try done.
    intros p rs i HL Hd. rewrite stored_ino_ne; [by eapply C2|].
    intros ->. apply (Hf p); [|done]. apply (inv_dom _ _ _ H). by eexists.
Qed.

(** Closing a handle of a foreign inode. *)
Lemma close_foreign L s m n pos ino :
  Inv L s m → Clean L s → foreign s ino → open_at (wd s) (Some n) ino →
  let s' := mkStore (bk s) (set_fd (insert n (mkFd ino false pos false)) (wd s)) in
  Inv L s' m ∧ Clean L s'.
Proof.
  intros H Hc Hf (n' & pos' & [= <-] & Hn). split.
  - apply inv_world; [done|..].
    + destruct (inv_wf _ _ _ H) as [W1 W2 W3 W4]. constructor; simpl; try done.
      intros k. destruct (decide (k = n)) as [->|Hne]; [|by rewrite lookup_insert_ne; auto].
      intros _. apply W4. by eexists.
    + intros p h rs Hp HL.
      destruct (inv_files _ _ _ H _ _ _ Hp HL) as (i & tail & Hd & (k & q & -> & Hk) & Hi).
      exists i, tail. split_and!; [done| |done]. exists k, q. split; [done|]. simpl.
      rewrite lookup_insert_ne; [done|]. intros <-. rewrite Hn in Hk.
      injection Hk as <- _. apply (Hf p); [by eexists|done].
  - by destruct Hc.
Qed.

(** One more entry at the end of a file that is not the active one. *)
Lemma extend_file L s m p rs ino r :
  Inv L s m → Clean L s → p ≠ active (bk s) → L !! p = Some rs →
  w_dir (wd s) !! p = Some ino → entry_ok r →
  let L' := <[p := rs ++ [r]]> L in
  let s' := mkStore (bk s) (stored ino (len (enc_all rs)) (enc r) (wd s)) in
  Inv L' s' m ∧ Clean L' s' ∧
  (∀ q rs0, L !! q = Some rs0 → ∃ more, L' !! q = Some (rs0 ++ more)).
Proof.
  intros H Hc Hpa HL Hd Hr L' s'.
  assert (∀ q rs0, L !! q = Some rs0 → ∃ more, L' !! q = Some (rs0 ++ more)) as Hext.
  { intros q rs0 Hq. subst L'. destruct (decide (q = p)) as [->|Hne].
    - rewrite HL in Hq. injection Hq as <-. rewrite lookup_insert_eq. by eexists.
    - rewrite lookup_insert_ne by done. exists []. by rewrite (right_id_L [] (++)). }
  split_and!; [..|done].
  - pose proof H as [H1 H2 H3 H4 H5 H6 H7]. constructor; simpl.
    + apply wf_stored; [by eapply wf_dir|done].
    + intros q. rewrite <-H2. subst L'. destruct (decide (q = p)) as [->|Hne].
      * rewrite lookup_insert_eq, HL. by split; eexists.
      * by rewrite lookup_insert_ne.
    + intros q h rs' Hq. subst L'. destruct (decide (q = p)) as [->|Hne].
      * rewrite lookup_insert_eq. intros [= <-].
        by eapply (file_ok_stored ino (enc r) (wd s) p h rs); [| apply H3|].
      * rewrite lookup_insert_ne by done. intros HL'.
        apply file_ok_stored_ne; [|by apply H3]. by eapply (files_inj _ _ _ _ _ H).
    + intros q rs'. subst L'. destruct (decide (q = p)) as [->|Hne].
      * rewrite lookup_insert_eq. intros [= <-]. apply Forall_app.
        split; [by eapply H4|by apply Forall_singleton].
      * rewrite lookup_insert_ne by done. apply H4.
    + done.
    + subst L'. by rewrite lookup_insert_ne.
    + intros k. specialize (H7 k). destruct (keyDir (bk s) !! k), (m !! k); try done.
      by eapply live_at_ext.
  - pose proof Hc as [C1 C2 C3 C4 C5 C6]. constructor; simpl; rewrite ?stored_dir; try done.
    + intros q rs' i. subst L'. destruct (decide (q = p)) as [->|Hne].
      * rewrite lookup_insert_eq. intros [= <-] Hd'. simplify_eq.
        erewrite stored_ino_eq by (by eapply C2). rewrite write_bytes_end.
        by rewrite enc_all_app, enc_all_cons, enc_all_nil, (right_id_L [] (++)).
      * rewrite lookup_insert_ne by done. intros Hq Hd'.
        rewrite stored_ino_ne; [by eapply C2|].
        intros ->. by eapply (files_inj _ _ _ _ _ H Hd).
    + destruct C3 as [C3|[rs' C3]]; [by left|right]. destruct (Hext _ _ C3) as [more E].
      by eexists.
    + intros k Hk Hx. destruct (C6 k Hk Hx) as [rs' E].
      destruct (Hext _ _ E) as [more E']. by eexists.
Qed.

Lemma extend_sgrow L s p L' w' :
  (∀ q, q ≠ p → L' !! q = L !! q) → ¬ sealed (bk s) p →
  (∀ q rs0, L !! q = Some rs0 → ∃ more, L' !! q = Some (rs0 ++ more)) →
  w_dir w' = w_dir (wd s) →
  sgrow (L, s) (L', mkStore (bk s) w').
Proof.
  intros HL Hp Hext Hd. constructor; simpl; try done.
  - by rewrite Hd.
  - intros q Hq. apply HL. by intros ->.
  - intros q rs _. apply Hext.
Qed.

Lemma seg_not_sealed L s g : seg_ok L s g → ¬ sealed (bk s) (dataPath g).
Proof. intros H [_ Hs]. by apply (Hs (mergeFileCnt (bk s))); [|apply H]. Qed.

Lemma seg_not_active L s g : seg_ok L s g → dataPath g ≠ active (bk s).
Proof. intros H. rewrite (so_path _ _ _ H). intros E. by eapply active_not_merge. Qed.

Lemma len_hint_record k v o : 0 < len (hint_record k v o).
Proof.
  unfold hint_record. autorewrite with go. pose proof (len_nonneg k). lia.
Qed.

Lemma append_spec L s m g r :
  Inv L s m → Clean L s → seg_ok L s g → entry_ok r → e_flag r = Byte.x00 →
  ∃ ne g' s' L', appendEntry g (enc r) (e_key r) (len (e_val r)) s = (Ok (ne, g'), s') ∧
    Inv L' s' m ∧ Clean L' s' ∧ seg_ok L' s' g' ∧ sgrow (L, s) (L', s') ∧
    live_at L' (string_of (e_key r)) (e_val r) ne ∧
    bk s' = bk s ∧ filePath ne = dataPath g.
Proof.
  intros H Hc Hg Hr Hfl. destruct (so_off _ _ _ Hg) as (rs & HL & Hoff).
  destruct (so_hint _ _ _ Hg) as (hi & Hhd & Hho).
  destruct (inv_files _ _ _ H _ _ _ (so_ptr _ _ _ Hg) HL) as (ino & tail & Hd & Ho & _).
  destruct (extend_file L s m (dataPath g) rs ino r H Hc) as (H1 & C1 & Hext);
    [by eapply seg_not_active|done..|].
  set (L' := <[dataPath g := rs ++ [r]]> L) in *.
  set (w1 := stored ino (len (enc_all rs)) (enc r) (wd s)) in *.
  assert (foreign (mkStore (bk s) w1) hi) as Hfor by (eapply (hint_foreign _ _ _ _ _ H1), Hhd).
  destruct (store_foreign L' (mkStore (bk s) w1) m hi (hintOffset g)
    (hint_record (e_key r) (len (e_val r)) (dataOffset g)) H1 C1 Hfor) as [H2 C2].
  { apply (wf_dir _ (inv_wf _ _ _ H1) _ _ Hhd). }
  eexists _, _, _, L'.
  assert (w_faults (wd s) = []) as F0 by apply Hc.
  assert (w_faults w1 = []) as F1 by done.
  split; [|split_and!; [exact H2|exact C2|..]].
  - unfold appendEntry, bind, onfs, zoom. rewrite Hoff.
    rewrite (WriteAt_nf _ F0 _ _ Ho); [|apply len_nonneg|].
    2: { pose proof (len_enc_pos r). lia. }
    fold w1. cbn [bk wd].
    assert (open_at w1 (hintFile g) hi) as Hho1 by exact Hho.
    rewrite (WriteAt_nf _ F1 _ _ Hho1); [|apply Hg|apply len_hint_record].
    rewrite <-Hoff. reflexivity.
  - constructor; cbn [bk wd dataPath dataFile dataOffset hintOffset hintFile].
    + apply Hg.
    + apply Hg.
    + exists (rs ++ [r]). subst L'. rewrite lookup_insert_eq. split; [done|].
      rewrite Hoff. autorewrite with go. lia.
    + exists hi. split; [exact Hhd|exact Hho].
    + pose proof (so_hoff _ _ _ Hg).
      pose proof (len_nonneg (hint_record (e_key r) (len (e_val r)) (dataOffset g))). lia.
  - apply (extend_sgrow L s (dataPath g)); [|by eapply seg_not_sealed|done|done].
    intros q Hq. subst L'. by rewrite lookup_insert_ne.
  - exists rs, r, []. cbn [filePath fileEntryOffset valueSize]. subst L'.
    rewrite lookup_insert_eq. done.
  - done.
  - done.
Qed.

Lemma set_mcnt_spec L s m :
  Inv L s m → Clean L s →
  let s' := mkStore (set_mergeFileCnt (mergeFileCnt (bk s) + 1) (bk s)) (wd s) in
  Inv L s' m ∧ Clean L s' ∧ sgrow (L, s) (L, s').
Proof.
  intros [H1 H2 H3 H4 H5 H6 H7] [C1 C2 C3 C4 C5 C6] s'. split_and!.
  - constructor; simpl; try done. intros p Hp.
    destruct (H5 p Hp) as [?|(n & Hn & ->)]; [by left|right].
    exists n. split; [lia|done].
  - constructor; simpl; try done. intros n Hn. apply C6. lia.
  - constructor; simpl; try done; [lia|].
    intros p rs _ HL. exists []. by rewrite (right_id_L [] (++)).
Qed.

Lemma sgrow_world L s w' :
  w_dir w' = w_dir (wd s) → sgrow (L, s) (L, mkStore (bk s) w').
Proof.
  intros Hd. constructor; simpl; try done; [by rewrite Hd|].
  intros p rs _ HL. exists []. by rewrite (right_id_L [] (++)).
Qed.

Lemma rotate_spec L s m g :
  Inv L s m → Clean L s → seg_ok L s g → filePtrs (bk s) ≠ ∅ →
  ∃ g' s' L', rotateMergeSegmentLocked g s = (Ok g', s') ∧
    Inv L' s' m ∧ Clean L' s' ∧ seg_ok L' s' g' ∧ sgrow (L, s) (L', s') ∧
    filePtrs (bk s') ≠ ∅ ∧ dataOffset g' = 0.
Proof.
  intros H Hc Hg Hnz. destruct (so_off _ _ _ Hg) as (rs & HL & Hoff).
  destruct (so_hint _ _ _ Hg) as (hi & Hhd & Hho).
  destruct (inv_files _ _ _ H _ _ _ (so_ptr _ _ _ Hg) HL) as (ino & tail & Hd & Ho & _).
  assert (w_faults (wd s) = []) as F0 by apply Hc.
  destruct (Close_nf _ F0 _ _ Hho) as (n & pos & Ehf & Ecl).
  rewrite Ehf in Hho.
  destruct (close_foreign L s m n pos hi H Hc (hint_foreign _ _ _ _ _ H Hhd) Hho) as [H1 C1].
  set (w1 := set_fd (insert n (mkFd hi false pos false)) (wd s)) in *.
  destruct (set_mcnt_spec _ _ _ H1 C1) as (H2 & C2 & G2). cbn [bk wd] in H2, C2, G2.
  destruct (open_segment_spec _ _ _ H2 C2 Hnz) as (g' & s3 & L' & E & H3 & C3 & S3 & G3 & B3 & P3 & O3).
  exists g', (add_ptr g' s3), L'. split; [|split_and!; [done..| | |]].
  - unfold rotateMergeSegmentLocked, seg_sync, closeHint.
    unfold bind at 1. unfold bind at 1.
    rewrite (onfs_ok _ _ _ _ (Sync_nf _ F0 _ _ Ho)).
    assert (mkStore (bk s) (wd s) = s) as Es by by destruct s. rewrite Es.
    rewrite Ehf. rewrite (onfs_ok _ _ _ _ (Sync_nf _ F0 _ _ Hho)), Es.
    rewrite Ehf in Ecl. unfold bind at 1. rewrite (onfs_ok _ _ _ _ Ecl). fold w1.
    unfold gets, modbk, modify. cbn [bind]. unfold bind. cbn [bk wd set_bk].
    cbn [bk wd mergeFileCnt set_mergeFileCnt] in E. unfold set_bk. cbn [bk wd].
    rewrite E. done.
  - etrans; [by apply (sgrow_world L s w1)|]. by etrans.
  - intros He. pose proof (so_ptr _ _ _ S3) as Hp. by rewrite He, lookup_empty in Hp.
  - assert (dataPath g' = mergeDataPath (bk s) (mergeFileCnt (bk s) + 1)) as P4 by exact P3.
    rewrite O3, P4.
    destruct (L !! mergeDataPath (bk s) (mergeFileCnt (bk s) + 1)) eqn:El; [exfalso|done].
    destruct (inv_paths _ _ _ H (mergeDataPath (bk s) (mergeFileCnt (bk s) + 1)))
      as [(k & _ & Ek)|(k & Hk & Ek)].
    + apply (inv_dom _ _ _ H). by rewrite El.
    + symmetry in Ek. by eapply active_not_merge.
    + apply mergeDataPath_inj in Ek. lia.
Qed.

Lemma set_mergeOffsets_spec L s m d h g :
  Inv L s m → Clean L s → seg_ok L s g →
  let s' := set_bk (set_mergeOffsets d h) s in
  Inv L s' m ∧ Clean L s' ∧ seg_ok L s' g ∧ sgrow (L, s) (L, s').
Proof.
  intros [H1 H2 H3 H4 H5 H6 H7] [C1 C2 C3 C4 C5 C6] [S1 S2 S3 S4 S5] s'.
  split_and!; [by constructor|by constructor|by constructor|].
  constructor; simpl; try done.
  intros p rs _ HL. exists []. by rewrite (right_id_L [] (++)).
Qed.

(** The critical section of the scan. *)
Lemma mergeAppend_spec L s m g r :
  Inv L s m → Clean L s → seg_ok L s g → filePtrs (bk s) ≠ ∅ →
  entry_ok r → e_flag r = Byte.x00 →
  ∃ ne g' s' L',
    mergeAppend g (entry_size r) (enc r) (e_key r) (len (e_val r)) s =
      (Ok (Some g', Some ne), s') ∧
    Inv L' s' m ∧ Clean L' s' ∧ seg_ok L' s' g' ∧ sgrow (L, s) (L', s') ∧
    live_at L' (string_of (e_key r)) (e_val r) ne ∧
    (∃ n, mergeFileCnt (bk s) ≤ n ∧ filePath ne = mergeDataPath (bk s) n).
Proof.
  intros H Hc Hg Hnz Hr Hfl.
  assert (∃ g1 s1 L1, ensureMergeSegmentCapacityLocked g (entry_size r) s = (Ok g1, s1) ∧
    Inv L1 s1 m ∧ Clean L1 s1 ∧ seg_ok L1 s1 g1 ∧ sgrow (L, s) (L1, s1)) as
    (g1 & s1 & L1 & E1 & H1 & C1 & S1 & G1).
  { unfold ensureMergeSegmentCapacityLocked, bind, gets. destruct (_ <=? _).
    - exists g, s, L. split_and!; [done..|reflexivity].
    - destruct (rotate_spec L s m g H Hc Hg Hnz) as (g1 & s1 & L1 & E & ? & ? & ? & ? & _ & _).
      by exists g1, s1, L1. }
  destruct (append_spec L1 s1 m g1 r H1 C1 S1 Hr Hfl)
    as (ne & g2 & s2 & L2 & E2 & H2 & C2 & S2 & G2 & Hlive & B2 & P2).
  destruct (set_mergeOffsets_spec L2 s2 m (dataOffset g2) (hintOffset g2) g2 H2 C2 S2)
    as (H3 & C3 & S3 & G3).
  exists ne, g2, (set_bk (set_mergeOffsets (dataOffset g2) (hintOffset g2)) s2), L2.
  split; [|split_and!; [done..| |done|]].
  - unfold mergeAppend. erewrite bind_ok by (by apply attempt_ok). cbn beta iota.
    erewrite bind_ok by (by apply attempt_ok). done.
  - etrans; [exact G1|]. by etrans.
  - exists (mergeFileCnt (bk s1)). split; [apply G1|]. rewrite P2, (so_path _ _ _ S1).
    apply mergeDataPath_base, G1.
Qed.

(** * The scan of one file *)

(** Lists of entries are cut at unique offsets. *)
Lemma boundary_unique rs1 r rs2 ra r' rb :
  rs1 ++ r :: rs2 = ra ++ r' :: rb →
  len (enc_all rs1) ≤ len (enc_all ra) < len (enc_all rs1) + entry_size r →
  ra = rs1 ∧ r' = r.
Proof.
  revert ra. induction rs1 as [|x rs1 IH]; intros [|y ra] E Hl; simpl in E;
    injection E as -> E; autorewrite with go in Hl.
  - done.
  - pose proof (len_nonneg (enc_all ra)). lia.
  - pose proof (len_nonneg (enc_all rs1)). pose proof (len_enc_pos r').
    rewrite len_enc in *. lia.
  - destruct (IH ra E) as [-> ->]; [lia|done].
Qed.

Lemma onst_ok {A} (m : M Store A) c r s' :
  m (st c) = (r, s') → onst m c = (r, mkConc s' (env c) (done_ops c)).
Proof. unfold onst, zoom. by intros ->. Qed.

(** Reading an open file changes nothing. *)
Lemma read_conc c h ino n off :
  w_faults (wd (st c)) = [] → open_at (wd (st c)) h ino → 0 ≤ off → 0 < n →
  attempt (onst (onfs (ReadAt h n off))) c =
    (Ok (if len (slice off n (content (wd (st c)) ino)) <? n then inr ErrEOF
         else inl (slice off n (content (wd (st c)) ino))), c).
Proof.
  intros F Ho Hoff Hn. unfold attempt, onst, onfs, zoom.
  rewrite (ReadAt_nf _ F _ _ Ho) by done.
  destruct c as [[b w] e d]. cbn [st wd bk env done_ops]. by destruct (_ <? _).
Qed.

Lemma file_content L s m p h rs :
  Inv L s m → Clean L s → L !! p = Some rs → filePtrs (bk s) !! p = Some h →
  ∃ ino, open_at (wd s) h ino ∧ content (wd s) ino = enc_all rs.
Proof.
  intros H Hc HL Hp. destruct (inv_files _ _ _ H _ _ _ Hp HL) as (ino & tail & Hd & Ho & _).
  exists ino. split; [done|]. unfold content. by rewrite (cl_exact _ _ Hc _ _ _ HL Hd).
Qed.

Section scan.
Variables (m0 : kvmap) (p : string) (h : File) (rs : list entry).

(** The pending updates cover the live entries scanned so far ([off]), and lead
    to entries of the same key and value. *)
Record PInv (off : Z) (L : layout) (s : Store) (pending : gmap string mergeUpdate)
    : Prop := {
  pi_old : ∀ k u, pending !! k = Some u → originalFilePath u = p ∧
    ∃ ra r rb, rs = ra ++ r :: rb ∧ originalOffset u = len (enc_all ra) ∧
      live_at L k (e_val r) (newEntry u);
  pi_new : ∀ k u, pending !! k = Some u →
    filePath (newEntry u) ≠ p ∧ immutable (bk s) (filePath (newEntry u));
  pi_all : ∀ k e, keyDir (bk s) !! k = Some e → filePath e = p →
    fileEntryOffset e < off →
    ∃ u, pending !! k = Some u ∧ originalOffset u = fileEntryOffset e ∧
      originalValSize u = valueSize e;
}.

Lemma live_at_sgrow L s L' s' k v e :
  sgrow (L, s) (L', s') → immutable (bk s) (filePath e) →
  live_at L k v e → live_at L' k v e.
Proof.
  intros G Hi (ra & r & rb & E & Hr). destruct (sg_grow _ _ G _ _ Hi E) as [more E'].
  exists ra, r, (rb ++ more). split; [|done]. simpl in E'.
  by rewrite E', <-(assoc_L (++)).
Qed.

Lemma PInv_sgrow off L s L' s' pending :
  sgrow (L, s) (L', s') → sealed (bk s) p →
  PInv off L s pending → PInv off L' s' pending.
Proof.
  intros G Hs [P1 P2 P3]. constructor.
  - intros k u Hu. destruct (P1 k u Hu) as (E & ra & r & rb & E1 & E2 & E3).
    split; [done|]. exists ra, r, rb. split_and!; [done..|].
    eapply live_at_sgrow; [done| |done]. by apply (P2 k u Hu).
  - intros k u Hu. destruct (P2 k u Hu) as [E1 E2]. split; [done|].
    by eapply (immutable_sgrow (L, s) (L', s')).
  - intros k e Hk <- Ho. apply P3; [|done..]. by apply (sg_keyDir _ _ G).
Qed.

(** What the scan keeps from one iteration to the next. *)
Record SInv (c : Conc) (L : layout) (m : kvmap) (g : mergeSegment) (off : Z)
    (pending : gmap string mergeUpdate) : Prop := {
  si_ci : CInv m0 c L m;
  si_sealed : sealed (bk (st c)) p;
  si_layout : L !! p = Some rs;
  si_ptr : filePtrs (bk (st c)) !! p = Some h;
  si_seg : seg_ok L (st c) g;
  si_pending : PInv off L (st c) pending;
}.

Lemma SInv_step c L m g off pending c' L' m' g' :
  SInv c L m g off pending → sgrow (L, st c) (L', st c') →
  CInv m0 c' L' m' → seg_ok L' (st c') g' → SInv c' L' m' g' off pending.
Proof.
  intros [S1 S2 S3 S4 S5 S6] G C' S'. constructor; [done|..|done|].
  - by eapply (sealed_sgrow (L, st c) (L', st c')).
  - etrans; [apply (sg_layout _ _ G _ S2)|done].
  - etrans; [apply (sg_ptrs _ _ G _ S2)|done].
  - by eapply PInv_sgrow.
Qed.

Lemma SInv_set c L m g off pending off' pending' :
  SInv c L m g off pending → PInv off' L (st c) pending' →
  SInv c L m g off' pending'.
Proof. intros [S1 S2 S3 S4 S5 S6] P. by constructor. Qed.

Lemma SInv_inv c L m g off pending : SInv c L m g off pending → Inv L (st c) m.
Proof. intros S. apply S. Qed.

(** A yield inside the scan. *)
Lemma SInv_yield c L m g off pending :
  SInv c L m g off pending →
  ∃ c' L' m', yield c = (Ok tt, c') ∧ SInv c' L' m' g off pending ∧
    sgrow (L, st c) (L', st c') ∧ ext (L, st c) (L', st c').
Proof.
  intros S. destruct (yield_spec _ _ _ _ (si_ci _ _ _ _ _ _ S))
    as (c' & L' & m' & E & C' & X). exists c', L', m'. split; [done|].
  pose proof (ext_sgrow _ _ X) as G. split; [|done].
  eapply SInv_step; [done..|]. by eapply seg_ok_ext; [|apply S].
Qed.

(** Passing over an entry that no key points at. *)
Lemma PInv_skip rs1 r rs2 L s m pending :
  rs = rs1 ++ r :: rs2 → Inv L s m → L !! p = Some rs →
  (∀ e, keyDir (bk s) !! string_of (e_key r) = Some e → e_flag r = Byte.x00 →
    ¬ (filePath e = p ∧ fileEntryOffset e = len (enc_all rs1) ∧
       valueSize e = len (e_val r))) →
  PInv (len (enc_all rs1)) L s pending →
  PInv (len (enc_all (rs1 ++ [r]))) L s pending.
Proof.
  intros Ers H HL Hno [P1 P2 P3]. constructor; [done|done|].
  intros k e Hk Hp Ho.
  destruct (Z.lt_ge_cases (fileEntryOffset e) (len (enc_all rs1))) as [Hlt|Hge];
    [by apply P3|exfalso].
  pose proof (inv_live _ _ _ H k) as Hl. rewrite Hk in Hl.
  destruct (m !! k) as [v|]; [|done].
  destruct Hl as (ra & r' & rb & E & E1 & E2 & E3 & E4 & E5).
  rewrite Hp, HL in E. injection E as E. autorewrite with go in Ho.
  destruct (boundary_unique rs1 r rs2 ra r' rb) as [-> ->]; [congruence|lia|].
  subst k v. by eapply (Hno e).
Qed.

(** Appending the entry at hand, [c] being the store of the live test. *)
Lemma PInv_add rs1 r rs2 L s L' s' m pending e ne :
  rs = rs1 ++ r :: rs2 → Inv L' s' m → L' !! p = Some rs →
  sgrow (L, s) (L', s') → sealed (bk s) p →
  keyDir (bk s) !! string_of (e_key r) = Some e →
  fileEntryOffset e = len (enc_all rs1) →
  filePath ne ≠ p → immutable (bk s') (filePath ne) →
  live_at L' (string_of (e_key r)) (e_val r) ne →
  PInv (len (enc_all rs1)) L' s' pending →
  PInv (len (enc_all (rs1 ++ [r]))) L' s'
    (<[string_of (e_key r) := mkMergeUpdate p (len (enc_all rs1)) (len (e_val r)) ne]>
       pending).
Proof.
  intros Ers H HL G Hse Hk Hoff Hne Himm Hlive [P1 P2 P3]. constructor.
  - intros k u. destruct (decide (k = string_of (e_key r))) as [->|Hkr].
    + rewrite lookup_insert_eq. intros [= <-]. split; [done|].
      exists rs1, r, rs2. done.
    + rewrite lookup_insert_ne by done. apply P1.
  - intros k u. destruct (decide (k = string_of (e_key r))) as [->|Hkr].
    + rewrite lookup_insert_eq. by intros [= <-].
    + rewrite lookup_insert_ne by done. apply P2.
  - intros k e' Hk' Hp Ho.
    assert (keyDir (bk s) !! k = Some e') as Hk0.
    { apply (sg_keyDir _ _ G); [done|]. simpl. by rewrite Hp. }
    destruct (Z.lt_ge_cases (fileEntryOffset e') (len (enc_all rs1))) as [Hlt|Hge].
    + rewrite lookup_insert_ne; [by apply P3|]. intros <-. rewrite Hk in Hk0.
      injection Hk0 as <-. lia.
    + pose proof (inv_live _ _ _ H k) as Hl. rewrite Hk' in Hl.
      destruct (m !! k) as [v|]; [|done].
      destruct Hl as (ra & r' & rb & E & E1 & E2 & E3 & E4 & E5).
      rewrite Hp, HL in E. injection E as E. autorewrite with go in Ho.
      destruct (boundary_unique rs1 r rs2 ra r' rb) as [-> ->]; [congruence|lia|].
      subst k v. rewrite lookup_insert_eq. eexists. by split_and!.
Qed.

(** The fields of the entry under the scan, as [Merge] reads them. *)
Lemma scan_entry rs1 r rs2 :
  entry_ok r →
  let buf := slice (len (enc_all rs1)) 17 (enc_all (rs1 ++ r :: rs2)) in
  (len buf <? 17) = false ∧ get_u32 (slice 8 4 buf) = len (e_key r) ∧
  get_u32 (slice 12 4 buf) = len (e_val r) ∧ nth 16 buf Byte.x00 = e_flag r ∧
  u32 (17 + len (e_key r) + len (e_val r)) = entry_size r ∧
  u32 (17 + len (e_key r)) = 17 + len (e_key r) ∧
  slice (len (enc_all rs1)) (entry_size r) (enc_all (rs1 ++ r :: rs2)) = enc r.
Proof.
  intros Hr buf. subst buf. rewrite enc_all_app, enc_all_cons, !slice_off. destruct (header_fields r (enc_all rs2) Hr) as (E0 & E1 & E2 & E3).
  unfold entry_ok, entry_size, headerSize in Hr.
  pose proof (len_nonneg (e_key r)). pose proof (len_nonneg (e_val r)).
  split_and!; [apply entry_header|done..| | |apply entry_whole].
  - unfold entry_size, headerSize. rewrite u32_small; lia.
  - rewrite u32_small; lia.
Qed.

(** The checks of a whole entry: its checksum holds and its key is where it should be. *)
Lemma scan_checks r :
  (entry_size r <? 4) = false ∧
  (get_u32 (slice 0 4 (enc r)) =? crc32 (drop 4 (enc r))) = true ∧
  (17 + len (e_key r) <? 17) || (entry_size r <? 17 + len (e_key r)) = false ∧
  slice 17 (17 + len (e_key r) - 17) (enc r) = e_key r.
Proof.
  assert (17 ≤ entry_size r) as H17 by (rewrite <-len_enc; apply len_enc_pos).
  pose proof (len_nonneg (e_key r)). pose proof (len_nonneg (e_val r)).
  destruct (enc_fields r) as (Ecrc & Ekey & _). split; [lia|]. split; [by rewrite Ecrc, Z.eqb_refl|]. split.
  - destruct (Z.ltb_spec (17 + len (e_key r)) 17); [lia|].
    destruct (Z.ltb_spec (entry_size r) (17 + len (e_key r))); [unfold entry_size, headerSize in *; lia|done].
  - replace (17 + len (e_key r) - 17) with (len (e_key r)) by lia. exact Ekey.
Qed.

(** A live entry is copied: other calls, then the append to the segment. *)
Lemma scan_append c L m g rs1 r rs2 pending e :
  rs = rs1 ++ r :: rs2 → SInv c L m g (len (enc_all rs1)) pending →
  entry_ok r → e_flag r = Byte.x00 →
  keyDir (bk (st c)) !! string_of (e_key r) = Some e → fileEntryOffset e = len (enc_all rs1) →
  ∃ c' L' m' g' ne,
    (∀ B (k : _ → M Conc B),
      bind yield (λ _, bind (onst (mergeAppend g (entry_size r) (enc r) (e_key r) (len (e_val r)))) k) c =
        k (Some g', Some ne) c') ∧
    SInv c' L' m' g' (len (enc_all (rs1 ++ [r])))
      (<[string_of (e_key r) := mkMergeUpdate p (len (enc_all rs1)) (len (e_val r)) ne]> pending) ∧
    sgrow (L, st c) (L', st c').
Proof.
  intros Ers S2 Hr Hfl He Hoff.
  destruct (SInv_yield _ _ _ _ _ _ S2) as (c3 & L3 & m3 & E3 & S3 & G3 & _).
  destruct (mergeAppend_spec L3 (st c3) m3 g r) as
    (ne & g4 & s4 & L4 & E4 & H4 & C4 & S4 & G4 & Hlive & n & Hn & Hpath);
    [apply S3|apply S3|apply S3| |done|done|].
  { intros Hemp. pose proof (si_ptr _ _ _ _ _ _ S3) as Hp. by rewrite Hemp, lookup_empty in Hp. }
  set (c4 := mkConc s4 (env c3) (done_ops c3)). exists c4, L4, m3, g4, ne. split.
  { intros B k. erewrite bind_ok by exact E3. erewrite bind_ok by (by apply onst_ok). done. }
  assert (sealed (bk (st c3)) p) as Hse3 by apply S3.
  assert (SInv c4 L4 m3 g4 (len (enc_all rs1)) pending) as S4'.
  { eapply (SInv_step c3 L3 m3 g); [done|exact G4| |done].
    destruct (si_ci _ _ _ _ _ _ S3). by constructor. }
  assert (sgrow (L, st c) (L4, st c4)) as G by by repeat (etrans; [eassumption|]).
  split; [|done]. eapply SInv_set; [exact S4'|].
  eapply (PInv_add rs1 r rs2 L (st c) L4 s4 m3 pending e ne);
    [done|done|apply S4'|exact G|apply S2|done|done| | |done|apply S4'].
  - rewrite Hpath. intros Ep. by apply (proj2 Hse3 n Hn).
  - rewrite Hpath. eapply (immutable_sgrow (L3, st c3) (L4, s4)); [done|]. apply merge_immutable.
Qed.

(** One round of the scan: it passes one entry. *)
Lemma scan_step fuel c L m g rs1 r rs2 pending :
  rs = rs1 ++ r :: rs2 → SInv c L m g (len (enc_all rs1)) pending →
  ∃ c' L' m' g' pending',
    mergeScan (S fuel) p h g (len (enc_all rs1)) pending c =
      mergeScan fuel p h g' (len (enc_all (rs1 ++ [r]))) pending' c' ∧
    SInv c' L' m' g' (len (enc_all (rs1 ++ [r]))) pending' ∧ sgrow (L, st c) (L', st c').
Proof.
  intros Ers S. destruct (SInv_yield _ _ _ _ _ _ S) as (c1 & L1 & m1 & E1 & S1 & G1 & _).
  destruct (file_content L1 (st c1) m1 p h rs) as (ino & Ho & Hcont);
    [apply S1|apply S1|apply S1|apply S1|].
  assert (w_faults (wd (st c1)) = []) as F1 by apply S1.
  pose proof (read_conc c1 h ino 17 (len (enc_all rs1)) F1 Ho (len_nonneg _) eq_refl)
    as Er. rewrite Hcont in Er.
  cbn [mergeScan]. erewrite bind_ok by exact E1. erewrite bind_ok by exact Er.
  pose proof (inv_small _ _ _ (ci_inv _ _ _ _ (si_ci _ _ _ _ _ _ S1)) _ _
    (si_layout _ _ _ _ _ _ S1)) as Hsm.
  rewrite Ers in Hsm. apply Forall_app in Hsm as [_ [Hr _]%Forall_cons].
  destruct (scan_entry rs1 r rs2 Hr) as (Eb & Ek & Ev & Efl & Eblk & Ekk & Ewh).
  rewrite Ers, Eb. cbv beta iota zeta. rewrite Ek, Ev, Efl, Eblk.
  assert (len (enc_all rs1) + entry_size r = len (enc_all (rs1 ++ [r]))) as ->.
  { autorewrite with go. lia. }
  case_bool_decide as Hfl.
  2: { exists c1, L1, m1, g, pending. split; [done|]. split; [|done]. eapply SInv_set; [done|].
       eapply PInv_skip; [exact Ers|by eapply SInv_inv|apply S1|by intros|apply S1]. }
  pose proof (read_conc c1 h ino (entry_size r) (len (enc_all rs1)) F1 Ho (len_nonneg _))
    as Er2. rewrite Hcont, Ers, Ewh, len_enc, Z.ltb_irrefl in Er2.
  erewrite bind_ok by (apply Er2; pose proof (len_enc_pos r); rewrite len_enc in *; lia). clear Er2.
  destruct (scan_checks r) as (K1 & K2 & K3 & K4). rewrite K1, Ekk. cbv zeta. rewrite K2, K3, K4. cbn [negb].
  destruct (SInv_yield _ _ _ _ _ _ S1) as (c2 & L2 & m2 & E2 & S2 & G2 & _).
  erewrite bind_ok by exact E2. unfold gets at 1.
  match goal with |- context [bind ?m ?k c2] => change (bind m k c2) with (k (bk (st c2)) c2) end.
  cbn beta.
  match goal with |- context [if ?b then _ else _] => destruct b eqn:Elive end.
  2: { exists c2, L2, m2, g, pending. split; [done|]. split; [|by etrans]. eapply SInv_set; [done|].
       eapply PInv_skip; [exact Ers|by eapply SInv_inv|apply S2| |apply S2].
       intros e He _ (Hp1 & Hp2 & Hp3). rewrite He in Elive.
       rewrite bool_decide_eq_true_2, Hp2, Hp3, !Z.eqb_refl in Elive by done. done. }
  destruct (keyDir (bk (st c2)) !! string_of (e_key r)) as [e|] eqn:He; [|done].
  apply andb_prop in Elive as [[Hp1%bool_decide_eq_true Hp2%Z.eqb_eq]%andb_prop Hp3%Z.eqb_eq].
  destruct (scan_append c2 L2 m2 g rs1 r rs2 pending e Ers S2 Hr Hfl He Hp2)
    as (c4 & L4 & m4 & g4 & ne & E4 & S4 & G4).
  rewrite E4. eexists c4, L4, m4, g4, _.
  split; [done|]. split; [exact S4|by repeat (etrans; [eassumption|])].
Qed.

(** At the end of the file the scan stops. *)
Lemma scan_stops fuel c L m g pending :
  SInv c L m g (len (enc_all rs)) pending →
  ∃ c' L' m', mergeScan (S fuel) p h g (len (enc_all rs)) pending c = (Ok (Some g, true, pending), c') ∧
    SInv c' L' m' g (len (enc_all rs)) pending ∧ sgrow (L, st c) (L', st c').
Proof.
  intros S. destruct (SInv_yield _ _ _ _ _ _ S) as (c1 & L1 & m1 & E1 & S1 & G1 & _).
  destruct (file_content L1 (st c1) m1 p h rs) as (ino & Ho & Hcont);
    [apply S1|apply S1|apply S1|apply S1|].
  assert (w_faults (wd (st c1)) = []) as F1 by apply S1.
  pose proof (read_conc c1 h ino 17 (len (enc_all rs)) F1 Ho (len_nonneg _) eq_refl) as Er.
  rewrite Hcont in Er. cbn [mergeScan]. erewrite bind_ok by exact E1. erewrite bind_ok by exact Er.
  rewrite slice_past by lia. cbn. exists c1, L1, m1. by split_and!.
Qed.

Lemma scan_spec fuel c L m g rs1 rs2 pending :
  rs = rs1 ++ rs2 → (length rs2 < fuel)%nat →
  SInv c L m g (len (enc_all rs1)) pending →
  ∃ c' L' m' g' pending',
    mergeScan fuel p h g (len (enc_all rs1)) pending c = (Ok (Some g', true, pending'), c') ∧
    SInv c' L' m' g' (len (enc_all rs)) pending' ∧ sgrow (L, st c) (L', st c').
Proof.
  revert c L m g rs1 rs2 pending.
  induction fuel as [|fuel IH]; intros c L m g rs1 rs2 pending Ers Hf S; [lia|].
  destruct rs2 as [|r rs2].
  { rewrite (right_id_L [] (++)) in Ers. rewrite <-Ers in S |- *.
    destruct (scan_stops fuel c L m g pending S) as (c' & L' & m' & E & S' & G).
    by exists c', L', m', g, pending. }
  destruct (scan_step fuel c L m g rs1 r rs2 pending Ers S) as (c2 & L2 & m2 & g2 & p2 & -> & S2 & G2).
  destruct (IH c2 L2 m2 g2 (rs1 ++ [r]) rs2 p2) as (c' & L' & m' & g' & p' & E & S' & G');
    [by rewrite <-(assoc_L (++))|simpl in Hf; lia|done|].
  exists c', L', m', g', p'. split_and!; [done|done|by etrans].
Qed.
End scan.

(** * Removing a merged file *)

Lemma string_app_assoc (x y z : string) : (x +:+ y) +:+ z = x +:+ y +:+ z.
Proof. induction x as [|c x IH]; [done|]. exact (f_equal (String c) IH). Qed.

Lemma string_length_app (x y : string) :
  String.length (x +:+ y) = (String.length x + String.length y)%nat.
Proof. induction x as [|c x IH]; [done|]. exact (f_equal Datatypes.S IH). Qed.

Lemma substring_prefix (x y : string) :
  String.substring 0 (String.length x) (x +:+ y) = x.
Proof. induction x as [|c x IH]; [by destruct y|]. exact (f_equal (String c) IH). Qed.

Lemma substring_suffix (x y : string) k :
  String.substring (String.length x) k (x +:+ y) = String.substring 0 k y.
Proof. induction x as [|c x IH]; [done|exact IH]. Qed.

(** The hint path [Merge] computes from a data path. *)
Lemma hint_of_data_spec x : hint_of_data (x +:+ ".data") = x +:+ ".hint".
Proof.
  unfold hint_of_data. rewrite string_length_app. cbn [String.length].
  replace (String.length x + 5 - 5)%nat with (String.length x) by lia.
  rewrite substring_suffix, substring_prefix. done.
Qed.

Lemma data_path_form L s m p :
  Inv L s m → is_Some (filePtrs (bk s) !! p) →
  ∃ x, p = fileBasePath (bk s) +:+ x +:+ ".data" ∧
    hint_of_data p = fileBasePath (bk s) +:+ x +:+ ".hint".
Proof.
  intros H Hp. destruct (inv_paths _ _ _ H p Hp) as [(n & _ & ->)|(n & _ & ->)].
  - exists (itoa n). split; [done|].
    pose proof (hint_of_data_spec (fileBasePath (bk s) +:+ itoa n)) as E.
    by rewrite !string_app_assoc in E.
  - exists ("merge-" +:+ itoa n). split; [done|].
    pose proof (hint_of_data_spec (fileBasePath (bk s) +:+ "merge-" +:+ itoa n)) as E.
    rewrite !string_app_assoc in E. exact E.
Qed.

(** The hint file removed with [p] is neither a data file nor the hint file of
    the current segment. *)
Lemma hint_removed L s m p :
  Inv L s m → is_Some (filePtrs (bk s) !! p) →
  (∀ q, is_Some (filePtrs (bk s) !! q) → hint_of_data p ≠ q) ∧
  (∀ n, p ≠ mergeDataPath (bk s) n → hint_of_data p ≠ mergeHintPath (bk s) n).
Proof.
  intros H Hp. destruct (data_path_form _ _ _ _ H Hp) as (x & Ep & Eh). rewrite Eh. split.
  - intros q Hq. destruct (data_path_form _ _ _ _ H Hq) as (y & -> & _).
    intros E. symmetry in E. by eapply suffix_differs.
  - intros n Hn E. apply Hn. rewrite Ep. unfold mergeHintPath, mergeDataPath in *.
    apply (inj (String.append _)) in E. f_equal.
    change ("merge-" +:+ itoa n +:+ ".hint") with (("merge-" +:+ itoa n) +:+ ".hint") in E.
    by apply str_app_inj_tail in E as [-> _].
Qed.

Lemma inv_remove L s m p h ino n pos dir' :
  Inv L s m → Clean L s → filePtrs (bk s) !! p = Some h → w_dir (wd s) !! p = Some ino →
  open_at (wd s) h ino → h = Some n → p ≠ active (bk s) →
  (∀ k e, keyDir (bk s) !! k = Some e → filePath e ≠ p) →
  dir' !! p = None → (∀ q i, dir' !! q = Some i → w_dir (wd s) !! q = Some i) →
  (∀ q, q ≠ p → is_Some (filePtrs (bk s) !! q) → dir' !! q = w_dir (wd s) !! q) →
  let w' := mkWorld dir' (w_ino (wd s)) (<[n := mkFd ino false pos false]> (w_fd (wd s)))
    (w_next (wd s)) (w_faults (wd s)) in
  let s' := mkStore (set_filePtrs (delete p) (bk s)) w' in
  filePtrs (bk s') ≠ ∅ →
  Inv (delete p L) s' m ∧ Clean (delete p L) s'.
Proof.
  intros H Hc Hp Hd Ho -> Hpa Hkd Hdp Hsub Hsame w' s' Hne'.
  destruct Ho as (n' & pos' & [= <-] & Hn).
  pose proof H as [H1 H2 H3 H4 H5 H6 H7]. pose proof Hc as [C1 C2 C3 C4 C5 C6]. split.
  - constructor; simpl.
    + destruct H1 as [W1 W2 W3 W4]. constructor; simpl; eauto.
      intros k. destruct (decide (k = n)) as [->|Hne]; [|by rewrite lookup_insert_ne; auto].
      intros _. apply W4. by eexists.
    + intros q. destruct (decide (q = p)) as [->|Hne].
      * rewrite !lookup_delete_eq. split; by intros [? ?].
      * by rewrite !lookup_delete_ne.
    + intros q h' rs. destruct (decide (q = p)) as [->|Hne];
        [by rewrite lookup_delete_eq|]. rewrite !lookup_delete_ne by done. intros Hq HL.
      destruct (H3 _ _ _ Hq HL) as (i & tail & Hd' & (k & pk & -> & Hk) & Hi).
      exists i, tail. split_and!; [|exists k, pk; split; [done|]|done]; simpl.
      * rewrite Hsame; [done|done|by eexists].
      * rewrite lookup_insert_ne; [done|]. intros <-. rewrite Hn in Hk.
        injection Hk as <- _. by eapply (files_inj _ _ _ _ _ H Hd).
    + intros q rs. destruct (decide (q = p)) as [->|Hne]; [by rewrite lookup_delete_eq|].
      rewrite lookup_delete_ne by done. apply H4.
    + intros q [h' Hq]. apply lookup_delete_Some in Hq as [_ Hq]. apply H5. by eexists.
    + intros [He|He]; [done|]. change (active _) with (active (bk s)) in *.
      rewrite lookup_delete_ne in * by done. apply H6. by right.
    + intros k. specialize (H7 k). specialize (Hkd k).
      destruct (keyDir (bk s) !! k) as [e|], (m !! k) as [v|]; try done.
      destruct H7 as (ra & r & rb & E & Hr). exists ra, r, rb. split; [|done].
      rewrite lookup_delete_ne; [done|]. symmetry. by apply Hkd.
  - constructor; simpl; try done.
    + intros q rs i. destruct (decide (q = p)) as [->|Hne]; [by rewrite lookup_delete_eq|].
      rewrite lookup_delete_ne by done. intros HL Hq. by eapply C2, Hsub.
    + right. change (active _) with (active (bk s)). rewrite lookup_delete_ne by done.
      destruct C3 as [C3|C3]; [|done]. by rewrite C3, lookup_empty in Hp.
    + intros k Hk. destruct (dir' !! activePath (bk s) k) eqn:E; [|done].
      apply Hsub in E. by rewrite C4 in E.
    + intros k Hk [i Hi]. change (mergeDataPath _ k) with (mergeDataPath (bk s) k) in *.
      rewrite lookup_delete_ne; [|intros ->; congruence].
      apply C6; [done|]. eexists. by apply Hsub.
Qed.

(** * Applying the pending updates *)

Definition matches (e : KeyDirEntry) (u : mergeUpdate) : Prop :=
  filePath e = originalFilePath u ∧ fileEntryOffset e = originalOffset u ∧
  valueSize e = originalValSize u.

Lemma applyUpdate_other kd k u k' : k' ≠ k → applyUpdate kd (k, u) !! k' = kd !! k'.
Proof.
  intros Hne. unfold applyUpdate. simpl. destruct (kd !! k); [|done].
  destruct (_ && _); [|done]. by rewrite lookup_insert_ne.
Qed.

Lemma applyUpdate_this kd k u :
  (∃ e, kd !! k = Some e ∧ matches e u ∧ applyUpdate kd (k, u) !! k = Some (newEntry u)) ∨
  (applyUpdate kd (k, u) = kd ∧ ∀ e, kd !! k = Some e → ¬ matches e u).
Proof.
  unfold applyUpdate, matches. simpl. destruct (kd !! k) as [e|] eqn:E; [|by right].
  destruct (bool_decide_reflect (filePath e = originalFilePath u)) as [E1|E1];
    destruct (Z.eqb_spec (fileEntryOffset e) (originalOffset u)) as [E2|E2];
    destruct (Z.eqb_spec (valueSize e) (originalValSize u)) as [E3|E3]; simpl;
    [left; exists e; rewrite lookup_insert_eq; done|right..];
    (split; [done|]; intros e' [= <-]; tauto).
Qed.

Lemma apply_all_notin l kd k :
  k ∉ l.*1 → fold_left applyUpdate l kd !! k = kd !! k.
Proof.
  revert kd. induction l as [|[k' u] l IH]; intros kd; simpl; [done|].
  intros [Hne Hn]%not_elem_of_cons. rewrite IH by done. by apply applyUpdate_other.
Qed.

(** Every key's entry is replaced exactly when it is still the one merged. *)
Lemma apply_all_lookup l kd k :
  NoDup l.*1 →
  (∃ u e, (k, u) ∈ l ∧ kd !! k = Some e ∧ matches e u ∧
    fold_left applyUpdate l kd !! k = Some (newEntry u)) ∨
  (fold_left applyUpdate l kd !! k = kd !! k ∧
   ∀ u e, (k, u) ∈ l → kd !! k = Some e → ¬ matches e u).
Proof.
  revert kd. induction l as [|[k' u] l IH]; intros kd Hnd; simpl.
  - right. split; [done|]. intros u e Hin. by apply not_elem_of_nil in Hin.
  - simpl in Hnd. apply NoDup_cons in Hnd as [Hk' Hnd].
    destruct (decide (k = k')) as [->|Hne].
    + rewrite apply_all_notin by done.
      destruct (applyUpdate_this kd k' u) as [(e & E1 & E2 & E3)|[E1 E2]].
      * left. exists u, e. split_and!; [by left|done..].
      * right. rewrite E1. split; [done|]. intros u' e' [Hin|Hin]%elem_of_cons He.
        -- injection Hin as ->. by apply E2.
        -- exfalso. apply Hk', list_elem_of_fmap. by exists (k', u').
    + destruct (IH (applyUpdate kd (k', u)) Hnd) as [(u' & e & E1 & E2 & E3 & E4)|[E1 E2]];
        rewrite applyUpdate_other in * by done.
      * left. exists u', e. split_and!; [by right|done..].
      * right. split; [done|]. intros u' e' [Hin|Hin]%elem_of_cons He.
        -- by injection Hin.
        -- by eapply E2.
Qed.

Section finish.
Context `{MapRange}.

(** After the updates the map is the same and no key points into [p]. *)
Lemma apply_updates_spec p rs L s m pending :
  Inv L s m → Clean L s → L !! p = Some rs →
  PInv p rs (len (enc_all rs)) L s pending →
  let s' := set_bk (set_keyDir (λ kd, fold_left applyUpdate (range pending) kd)) s in
  Inv L s' m ∧ Clean L s' ∧
  ∀ k e, keyDir (bk s') !! k = Some e → filePath e ≠ p.
Proof.
  intros H0 Hc HL [P1 P2 P3] s'.
  assert (∀ k e v, keyDir (bk s) !! k = Some e → m !! k = Some v → live_at L k v e) as Hlv.
  { intros k e v Hk Hm. pose proof (inv_live _ _ _ H0 k) as Hl. by rewrite Hk, Hm in Hl. }
  split_and!.
  - pose proof H0 as [H1 H2 H3 H4 H5 H6 H7]. constructor; simpl; try done.
    intros k. specialize (H7 k).
    destruct (apply_all_lookup (range pending) (keyDir (bk s)) k (NoDup_range _))
      as [(u & e & Hin & Hk & (M1 & M2 & M3) & ->)|[-> _]]; [|done].
    rewrite Hk in H7. destruct (m !! k) as [v|] eqn:Hm; [|done].
    apply elem_of_range in Hin.
    destruct (P1 k u Hin) as (Ep & ra & r & rb & Ers & Eoff & Hlive).
    destruct H7 as (ra' & r' & rb' & E & E1 & E2 & E3 & <- & E5).
    rewrite M1, Ep, HL in E. injection E as E.
    destruct (boundary_unique ra r rb ra' r' rb') as [_ ->]; [congruence| |done].
    rewrite <-E1, M2, Eoff. pose proof (len_enc_pos r). rewrite len_enc in *. lia.
  - by destruct Hc.
  - intros k e. simpl.
    destruct (apply_all_lookup (range pending) (keyDir (bk s)) k (NoDup_range _))
      as [(u & e0 & Hin & Hk & _ & ->)|[-> Hno]].
    + intros [= <-]. apply elem_of_range in Hin. by apply (P2 k u).
    + intros Hk Hp. pose proof (inv_live _ _ _ H0 k) as Hl. rewrite Hk in Hl.
      destruct (m !! k) as [v|]; [|done].
      destruct Hl as (ra & r & rb & E & E1 & E2 & E3 & E4 & E5).
      rewrite Hp, HL in E. injection E as ->.
      destruct (P3 k e Hk Hp) as (u & Hu & U1 & U2).
      { rewrite E1. autorewrite with go. pose proof (len_enc_pos r).
        rewrite len_enc in *. pose proof (len_nonneg (enc_all rb)). lia. }
      apply (Hno u e); [by apply elem_of_range|done|].
      destruct (P1 k u Hu) as [Eu _]. unfold matches. by rewrite Eu, U1, U2.
Qed.

(** The world after the critical section: the descriptor is closed, the file and its hint
    file are gone. *)
Definition finished_world (p : string) (n ino : nat) (pos : Z) (w : World) : World :=
  let w := set_dir (delete p) (set_fd (insert n (mkFd ino false pos false)) w) in
  if contains "merge" p then set_dir (delete (hint_of_data p)) w else w.

Definition finished (p : string) (g : mergeSegment) (pending : gmap string mergeUpdate)
    (n ino : nat) (pos : Z) (s : Store) : Store :=
  mkStore (set_mergeOffsets (dataOffset g) (hintOffset g) (set_filePtrs (delete p)
      (set_keyDir (λ kd, fold_left applyUpdate (range pending) kd) (bk s))))
    (finished_world p n ino pos (wd s)).

Lemma finished_sub p n ino pos w q i :
  w_dir (finished_world p n ino pos w) !! q = Some i → w_dir w !! q = Some i.
Proof.
  unfold finished_world. destruct (contains _ _); simpl.
  - by intros [_ [_ Hq]%lookup_delete_Some]%lookup_delete_Some.
  - by intros [_ Hq]%lookup_delete_Some.
Qed.

Lemma finished_gone p n ino pos w : w_dir (finished_world p n ino pos w) !! p = None.
Proof.
  unfold finished_world. destruct (contains _ _); simpl; [|by rewrite lookup_delete_eq].
  apply lookup_delete_None. right. by rewrite lookup_delete_eq.
Qed.

Lemma finished_same p n ino pos w q :
  q ≠ p → hint_of_data p ≠ q → w_dir (finished_world p n ino pos w) !! q = w_dir w !! q.
Proof.
  intros Hq1 Hq2. unfold finished_world. destruct (contains _ _); simpl; by rewrite ?lookup_delete_ne.
Qed.

Lemma finished_fd p n ino pos w :
  w_fd (finished_world p n ino pos w) = <[n := mkFd ino false pos false]> (w_fd w).
Proof. unfold finished_world. by destruct (contains _ _). Qed.

(** The run of the critical section, when nothing fails. *)
Lemma mergeFinish_run p h g pending s ino gi hi n pos :
  w_faults (wd s) = [] → w_dir (wd s) !! p = Some ino →
  open_at (wd s) (dataFile g) gi → open_at (wd s) (hintFile g) hi →
  Close h (wd s) = (Ok tt, set_fd (insert n (mkFd ino false pos false)) (wd s)) →
  mergeFinish p h g true pending s = (Ok tt, finished p g pending n ino pos s).
Proof.
  intros F0 Hd Hgo Hho Ecl. unfold finished.
  set (w1 := set_fd (insert n (mkFd ino false pos false)) (wd s)) in *.
  set (w2 := set_dir (delete p) w1).
  set (b1 := set_keyDir (λ kd, fold_left applyUpdate (range pending) kd) (bk s)).
  assert (w_faults w1 = [] ∧ w_faults w2 = []) as [F1 F2] by done.
  unfold mergeFinish. rewrite (bind_ok _ _ s (inl tt) s).
  2: { apply attempt_ok. unfold seg_sync. rewrite (bind_ok _ _ s tt s).
       - by rewrite (onfs_ok _ _ _ _ (Sync_nf _ F0 _ _ Hho)); destruct s.
       - by rewrite (onfs_ok _ _ _ _ (Sync_nf _ F0 _ _ Hgo)); destruct s. }
  cbn [negb]. rewrite (bind_ok _ _ s tt (mkStore b1 (wd s))) by done.
  rewrite (ignore_onfs _ _ (mkStore b1 (wd s)) _ w1 Ecl) by done.
  rewrite (bind_ok _ _ _ tt (mkStore (set_filePtrs (delete p) b1) w1)) by done.
  rewrite (ignore_onfs _ _ (mkStore _ w1) _ w2 (Remove_at _ _ _ F1 Hd)) by done.
  unfold finished_world. fold w1. fold w2. destruct (contains "merge" p); [|done].
  destruct (Remove_any w2 (hint_of_data p) F2) as [r [Er Hr]].
  by rewrite (ignore_onfs _ _ (mkStore _ w2) r _ Er Hr).
Qed.

(** The segment outlives the file. *)
Lemma finished_seg_ok p h g pending L s m ino n pos :
  Inv L s m → seg_ok L s g → sealed (bk s) p → filePtrs (bk s) !! p = Some h →
  w_dir (wd s) !! p = Some ino → open_at (wd s) h ino → h = Some n → p ≠ dataPath g →
  seg_ok (delete p L) (finished p g pending n ino pos s) g.
Proof.
  intros H0 Hg Hse Hp Hd Ho Eh Hpg. assert (is_Some (filePtrs (bk s) !! p)) as Hps by (by eexists).
  destruct (so_off _ _ _ Hg) as (rsg & HLg & Hoff). destruct (so_hint _ _ _ Hg) as (hi & Hhd & Hho).
  constructor; [apply Hg| |..|apply Hg].
  - simpl. rewrite lookup_delete_ne by done. apply Hg.
  - exists rsg. by rewrite lookup_delete_ne.
  - exists hi. change (mergeHintPath _ _) with (mergeHintPath (bk s) (mergeFileCnt (bk s))). split.
    + cbn [wd finished]. rewrite finished_same; [done|..].
      * intros E. destruct (inv_paths _ _ _ H0 p Hps) as [(k & _ & Ek)|(k & _ & Ek)];
          rewrite Ek in E; symmetry in E; [by eapply active_not_hint|by eapply data_not_hint].
      * apply (hint_removed L s m p H0 Hps). apply Hse. lia.
    + destruct Hho as (k & pk & -> & Hk). exists k, pk. split; [done|]. cbn [wd finished].
      rewrite finished_fd, lookup_insert_ne; [done|]. intros <-.
      destruct Ho as (n' & pos' & En & Hn). rewrite Eh in En. injection En as <-.
      rewrite Hn in Hk. injection Hk as -> _. by apply (hint_foreign _ _ _ _ _ H0 Hhd p Hps).
Qed.

Lemma mergeFinish_spec p h rs L s m g pending :
  Inv L s m → Clean L s → seg_ok L s g → sealed (bk s) p →
  L !! p = Some rs → filePtrs (bk s) !! p = Some h →
  PInv p rs (len (enc_all rs)) L s pending →
  ∃ s', mergeFinish p h g true pending s = (Ok tt, s') ∧
    Inv (delete p L) s' m ∧ Clean (delete p L) s' ∧ seg_ok (delete p L) s' g ∧
    filePtrs (bk s') = delete p (filePtrs (bk s)) ∧
    w_dir (wd s') !! p = None ∧
    (∀ q, w_dir (wd s) !! q = None → w_dir (wd s') !! q = None) ∧
    fileBasePath (bk s') = fileBasePath (bk s) ∧
    fileCnt (bk s') = fileCnt (bk s) ∧ mergeFileCnt (bk s') = mergeFileCnt (bk s).
Proof.
  intros H0 Hc Hg Hse HL Hp HP.
  destruct (so_off _ _ _ Hg) as (rsg & HLg & _). destruct (so_hint _ _ _ Hg) as (hi & _ & Hho).
  destruct (inv_files _ _ _ H0 _ _ _ (so_ptr _ _ _ Hg) HLg) as (gi & gtail & Hgd & Hgo & _).
  destruct (inv_files _ _ _ H0 _ _ _ Hp HL) as (ino & tail & Hd & Ho & _).
  assert (w_faults (wd s) = []) as F0 by apply Hc.
  destruct (Close_nf _ F0 _ _ Ho) as (n & pos & Eh & Ecl).
  destruct (apply_updates_spec p rs L s m pending H0 Hc HL HP) as (H1 & C1 & Hkd).
  assert (p ≠ dataPath g) as Hpg by (intros ->; by eapply seg_not_sealed).
  assert (is_Some (filePtrs (bk s) !! p)) as Hps by (by eexists).
  destruct (hint_removed L s m p H0 Hps) as [Hh1 _].
  assert (seg_ok (delete p L) (finished p g pending n ino pos s) g) as Hg'
    by (by eapply finished_seg_ok).
  exists (finished p g pending n ino pos s). split; [by eapply mergeFinish_run|].
  set (w3 := finished_world p n ino pos (wd s)).
  destruct (inv_remove L (set_bk (set_keyDir (λ kd, fold_left applyUpdate (range pending) kd)) s)
    m p h ino n pos (w_dir w3) H1 C1 Hp Hd Ho Eh) as [H2 C2].
  { by apply immutable_not_active, Hse. }
  { exact Hkd. }
  { apply finished_gone. }
  { intros q i. apply finished_sub. }
  { intros q Hq Hqs. by apply finished_same; [|apply Hh1]. }
  { simpl. intros He. pose proof (so_ptr _ _ _ Hg') as Hgp. cbn in Hgp.
    by rewrite He, lookup_empty in Hgp. }
  assert (mkWorld (w_dir w3) (w_ino (wd s)) (<[n:=mkFd ino false pos false]> (w_fd (wd s)))
    (w_next (wd s)) (w_faults (wd s)) = w3) as Ew.
  { unfold w3, finished_world. by destruct (contains _ _). }
  simpl in H2, C2. rewrite Ew in H2, C2. split_and!; [| |done|done| | |done..].
  - destruct H2 as [A1 A2 A3 A4 A5 A6 A7]. by constructor.
  - destruct C2 as [A1 A2 A3 A4 A5 A6]. by constructor.
  - apply finished_gone.
  - intros q Hq. destruct (w_dir w3 !! q) eqn:E; [|done]. apply finished_sub in E. congruence.
Qed.
End finish.
