(* ===== verification/BitcaskMergeTotal.v ===== *)
(** The whole of [Merge]: one iteration of its loop over the immutable files, the
    loop, and the run from the first critical section to the last. *)

From stdpp Require Import gmap strings list fin_maps.
From Stdlib Require Import ZArith Lia.
From coqutil Require Byte Word.LittleEndianList.
From S2P Require Import Prelude GoLib GoFS BitcaskStore BitcaskMerge BitcaskMergeRefine.

(** * What one iteration does to the other files *)

(** From [x] to [y] the sealed files outside [done] stay open, and a file that
    has left the directory does not return. *)
Record fstep (gone : string → Prop) (x y : Store) : Prop := {
  fs_base : fileBasePath (bk y) = fileBasePath (bk x);
  fs_sealed : ∀ q, sealed (bk x) q → sealed (bk y) q;
  fs_ptrs : ∀ q, sealed (bk x) q → ¬ gone q →
    filePtrs (bk y) !! q = filePtrs (bk x) !! q;
  fs_none : ∀ q, sealed (bk x) q → filePtrs (bk x) !! q = None →
    filePtrs (bk y) !! q = None;
  fs_dir : ∀ q, sealed (bk x) q → (∀ n, q ≠ mergeHintPath (bk x) n) →
    w_dir (wd x) !! q = None → w_dir (wd y) !! q = None;
}.

Lemma fstep_trans P x y z : fstep P x y → fstep P y z → fstep P x z.
Proof.
  intros A B. constructor.
  - by rewrite (fs_base _ _ _ B), (fs_base _ _ _ A).
  - intros q Hq. by apply B, A.
  - intros q Hq Hn. rewrite (fs_ptrs _ _ _ B), (fs_ptrs _ _ _ A); [done..| |done].
    by apply A.
  - intros q Hq Hn. apply B; by apply A.
  - intros q Hq Hh Hn. apply B; [by apply A| |by apply A].
    intros n. rewrite (mergeHintPath_base (bk x)); [done|apply A].
Qed.

Lemma fstep_weaken (P Q : string → Prop) x y :
  (∀ q, P q → Q q) → fstep P x y → fstep Q x y.
Proof. intros HPQ [A1 A2 A3 A4 A5]. constructor; naive_solver. Qed.

Lemma sgrow_fstep P L s L' s' : sgrow (L, s) (L', s') → fstep P s s'.
Proof.
  intros G. constructor.
  - apply (sg_base _ _ G).
  - intros q. apply (sealed_sgrow _ _ _ G).
  - intros q Hq _. apply (sg_ptrs _ _ G _ Hq).
  - intros q Hq Hn. etrans; [apply (sg_ptrs _ _ G _ Hq)|done].
  - intros q Hq Hh Hn. etrans; [apply (sg_dir _ _ G _ Hq Hh)|done].
Qed.

(** Paths of data files are not paths of hint files. *)
Lemma ptr_not_hint L s m p n :
  Inv L s m → is_Some (filePtrs (bk s) !! p) → p ≠ mergeHintPath (bk s) n.
Proof.
  intros H Hp E. destruct (inv_paths _ _ _ H p Hp) as [(k & _ & ->)|(k & _ & ->)].
  - by eapply active_not_hint.
  - by eapply data_not_hint.
Qed.

Lemma length_enc_all rs : (length rs ≤ length (enc_all rs))%nat.
Proof.
  induction rs as [|r rs IH]; [simpl; lia|]. rewrite enc_all_cons, length_app.
  pose proof (len_enc_pos r) as H. unfold len in H. simpl. lia.
Qed.

Section loop.
Context `{MapRange}.
Variable m0 : kvmap.

(** At the start of a scan nothing is pending and nothing has been passed. *)
Lemma PInv_start p rs L s m :
  Inv L s m → PInv p rs 0 L s ∅.
Proof.
  intros H0. constructor.
  - intros k u. by rewrite lookup_empty.
  - intros k u. by rewrite lookup_empty.
  - intros k e Hk Hp Ho. exfalso. pose proof (inv_live _ _ _ H0 k) as Hl.
    rewrite Hk in Hl. destruct (m !! k); [|done].
    destruct Hl as (ra & r & rb & _ & E & _). pose proof (len_nonneg (enc_all ra)). lia.
Qed.

(** The fuel of the scan exceeds the number of entries. *)
Lemma scan_fuel_enough L s m p h rs :
  Inv L s m → Clean L s → L !! p = Some rs → filePtrs (bk s) !! p = Some h →
  (length rs < scan_fuel (wd s) h)%nat.
Proof.
  intros H0 Hc HL Hp. destruct (file_content _ _ _ _ _ _ H0 Hc HL Hp) as (ino & Ho & E).
  destruct Ho as (n & pos & -> & Hn). unfold scan_fuel. rewrite Hn. simpl. rewrite E.
  pose proof (length_enc_all rs). lia.
Qed.

Lemma mergeFile_spec c L m g p :
  CInv m0 c L m → seg_ok L (st c) g → sealed (bk (st c)) p →
  is_Some (filePtrs (bk (st c)) !! p) →
  ∃ c' L' m' g', mergeFile g p c = (Ok g', c') ∧ CInv m0 c' L' m' ∧
    seg_ok L' (st c') g' ∧ fstep (eq p) (st c) (st c') ∧
    filePtrs (bk (st c')) !! p = None ∧ w_dir (wd (st c')) !! p = None.
Proof.
  intros HC Hg Hse Hp.
  destruct (yield_spec _ _ _ _ HC) as (c1 & L1 & m1 & E1 & C1 & X1).
  pose proof (ext_sgrow _ _ X1) as G1.
  pose proof (seg_ok_ext _ _ _ _ _ X1 Hg) as Hg1.
  pose proof (sealed_sgrow _ _ _ G1 Hse) as Hse1.
  destruct Hp as [h Hp]. assert (filePtrs (bk (st c1)) !! p = Some h) as Hp1.
  { rewrite <-Hp. apply (sg_ptrs _ _ G1 _ Hse). }
  destruct (proj2 (inv_dom _ _ _ (ci_inv _ _ _ _ C1) p)) as [rs HL1]; [by eexists|].
  pose proof (PInv_start p rs _ _ _ (ci_inv _ _ _ _ C1)) as HP1.
  unfold mergeFile. rewrite (bind_ok _ _ _ _ _ E1).
  rewrite (bind_ok _ _ c1 (st c1) c1) by done. rewrite Hp1.
  destruct (scan_spec m0 p h rs (scan_fuel (wd (st c1)) h) c1 L1 m1 g [] rs ∅)
    as (c2 & L2 & m2 & g2 & pend & E2 & S2 & G2); [done| |by constructor|].
  { apply (scan_fuel_enough L1 (st c1) m1 p); [apply C1|apply C1|done|done]. }
  rewrite (bind_ok _ _ _ _ _ E2).
  destruct (SInv_yield _ _ _ _ _ _ _ _ _ _ S2) as (c3 & L3 & m3 & E3 & S3 & G3 & _).
  rewrite (bind_ok _ _ _ _ _ E3). destruct S3 as [C3 Hse3 HL3 Hp3 Hg3 HP3].
  destruct (mergeFinish_spec p h rs L3 (st c3) m3 g2 pend)
    as (s4 & E4 & H4 & Cl4 & Hg4 & Ep & Ed & Hmono & Eb & Ec & Em); [apply C3|apply C3|done..|].
  rewrite (bind_ok _ _ _ _ _ (onst_ok _ _ _ _ E4)).
  exists (mkConc s4 (env c3) (done_ops c3)), (delete p L3), m3, g2. split; [done|]. simpl.
  split_and!; [by constructor; [..|apply C3|apply C3]|done| |by rewrite Ep, lookup_delete_eq|done].
  apply (fstep_trans _ _ (st c3)).
  { eapply sgrow_fstep. etrans; [exact G1|]. etrans; [exact G2|exact G3]. }
  constructor.
  - done.
  - intros q [Hq1 Hq2]. split.
    + intros n. rewrite Ec, (activePath_base (bk (st c3))) by done. apply Hq1.
    + intros n. rewrite Em, (mergeDataPath_base (bk (st c3))) by done. apply Hq2.
  - intros q _ Hq. by rewrite Ep, lookup_delete_ne.
  - intros q _ Hq. rewrite Ep. by apply lookup_delete_None; right.
  - intros q _ _. apply Hmono.
Qed.

Lemma mergeFiles_spec ps c L m g :
  CInv m0 c L m → seg_ok L (st c) g → NoDup ps →
  (∀ p, p ∈ ps → sealed (bk (st c)) p ∧ is_Some (filePtrs (bk (st c)) !! p)) →
  ∃ c' L' m' g', mergeFiles g ps c = (Ok g', c') ∧ CInv m0 c' L' m' ∧
    seg_ok L' (st c') g' ∧ fstep (.∈ ps) (st c) (st c') ∧
    ∀ p, p ∈ ps → filePtrs (bk (st c')) !! p = None ∧ w_dir (wd (st c')) !! p = None.
Proof.
  revert c L m g. induction ps as [|p ps IH]; intros c L m g HC Hg Hnd Hps.
  - exists c, L, m, g. split_and!; [done..| |by intros p Hp%not_elem_of_nil].
    by apply (sgrow_fstep _ L (st c) L (st c)).
  - apply NoDup_cons in Hnd as [Hnp Hnd].
    destruct (Hps p (list_elem_of_here _ _)) as [Hse Hp].
    destruct (mergeFile_spec c L m g p HC Hg Hse Hp)
      as (c1 & L1 & m1 & g1 & E1 & C1 & Hg1 & F1 & N1 & D1).
    simpl. rewrite (bind_ok _ _ _ _ _ E1).
    destruct (IH c1 L1 m1 g1 C1 Hg1 Hnd) as (c2 & L2 & m2 & g2 & E2 & C2 & Hg2 & F2 & N2).
    { intros q Hq. destruct (Hps q (list_elem_of_further _ _ _ Hq)) as [Hsq Hq'].
      split; [by apply F1|]. rewrite (fs_ptrs _ _ _ F1); [done..|congruence]. }
    exists c2, L2, m2, g2. split_and!; [done..| |].
    + eapply fstep_trans; [eapply fstep_weaken, F1|eapply fstep_weaken, F2].
      * intros q <-. by left.
      * intros q Hq. by right.
    + intros q [->|Hq]%elem_of_cons; [|by apply N2].
      split; [apply F2; [by apply F1|done]|]. apply F2; [by apply F1| |done].
      intros n. rewrite (mergeHintPath_base (bk (st c))) by apply F1.
      by eapply ptr_not_hint; [apply HC|].
Qed.
End loop.

(** * No call is lost *)

(** The calls of the other goroutines, made and to come. *)
Definition calls (c : Conc) : list op := (done_ops c).*1 ++ mjoin (env c).

Lemma calls_run_batch os c :
  calls (run_batch os c) = (done_ops c).*1 ++ os ++ mjoin (env c).
Proof.
  revert c. induction os as [|o os IH]; intros c; simpl; [done|].
  destruct (run_op o (st c)) as [r s]. rewrite IH. simpl.
  by rewrite fmap_app, <-!(assoc_L (++)).
Qed.

Lemma calls_yield : keeps calls yield.
Proof.
  intros c. unfold yield, calls at 2. destruct (env c) as [|os rest] eqn:E; simpl.
  - unfold calls. by rewrite E.
  - by rewrite calls_run_batch.
Qed.

Lemma calls_onst {A} (m : M Store A) : keeps calls (onst m).
Proof. intros c. unfold onst, zoom. by destruct (m (st c)). Qed.
#[export] Hint Resolve calls_yield calls_onst : keeps.

Lemma calls_mergeScan fuel path h g off pending :
  keeps calls (mergeScan fuel path h g off pending).
Proof.
  revert g off pending. induction fuel as [|fuel IH]; intros g off pending; [done|].
  cbn [mergeScan]. keeps_tac.
Qed.
#[export] Hint Resolve calls_mergeScan : keeps.

Lemma calls_mergeFiles `{MapRange} g ps : keeps calls (mergeFiles g ps).
Proof.
  revert g. induction ps as [|p ps IH]; intros g; [done|]. simpl.
  unfold mergeFile. keeps_tac.
Qed.
#[export] Hint Resolve calls_mergeFiles : keeps.

Lemma calls_Merge `{MapRange} : keeps calls Merge.
Proof. unfold Merge, ignore. keeps_tac. Qed.

(** * The whole merge *)

(** The files a merge that starts in [b] takes in. *)
Definition merged (b : BitCask) (p : string) : Prop :=
  is_Some (filePtrs b !! p) ∧ p ≠ active b ∧ p ≠ mergeDataPath b (mergeFileCnt b).

(** Every file of the store but the active one and the current segment is sealed. *)
Lemma merged_sealed L s m p : Inv L s m → merged (bk s) p → sealed (bk s) p.
Proof.
  intros H (Hp & Ha & Hm).
  destruct (inv_paths _ _ _ H p Hp) as [(n & Hn & ->)|(n & Hn & ->)].
  - assert (n ≠ fileCnt (bk s)) by (intros ->; by apply Ha).
    split; intros k Hk E; [apply activePath_inj in E; lia|by eapply active_not_merge].
  - assert (n ≠ mergeFileCnt (bk s)) by (intros ->; by apply Hm).
    split; [apply merge_immutable|]. intros k Hk E. apply mergeDataPath_inj in E. lia.
Qed.

Section whole.
Context `{MapRange}.

Lemma mergeBegin_spec L s m :
  Inv L s m → Clean L s → filePtrs (bk s) ≠ ∅ →
  ∃ g ps s' L', mergeBegin s = (Ok (g, ps), s') ∧ Inv L' s' m ∧ Clean L' s' ∧
    seg_ok L' s' g ∧ NoDup ps ∧
    (∀ p, p ∈ ps → sealed (bk s') p ∧ is_Some (filePtrs (bk s') !! p)) ∧
    (∀ p, merged (bk s) p → p ∈ ps).
Proof.
  intros H0 Hc Hnz.
  destruct (open_segment_spec L s m H0 Hc Hnz)
    as (g & s1 & L' & E & H1 & C1 & Hg & G & Eb & Ep & _).
  set (s' := add_ptr g s1).
  exists g, (filter (λ p, p ≠ activePath (bk s) (fileCnt (bk s)) ∧ p ≠ dataPath g)
    (range (filePtrs (bk s'))).*1), s', L'.
  split. { unfold mergeBegin. rewrite (bind_ok _ _ s (bk s) s) by done.
           by rewrite (bind_ok _ _ _ _ _ E). }
  split_and!; [done..| | |].
  - apply NoDup_filter, NoDup_range.
  - intros p [[Ha Hd] Hin]%list_elem_of_filter.
    apply list_elem_of_fmap in Hin as ([p' h] & -> & Hp%elem_of_range). simpl in *.
    split; [|by eexists]. apply (merged_sealed L' s' m); [done|]. split_and!; [by eexists|..].
    + change (p' ≠ activePath (bk s1) (fileCnt (bk s1))). by rewrite Eb.
    + change (p' ≠ mergeDataPath (bk s1) (mergeFileCnt (bk s1))). by rewrite Eb, <-Ep.
  - intros p ([h Hp] & Ha & Hm). apply list_elem_of_filter. split; [by rewrite Ep|].
    apply list_elem_of_fmap. exists (p, h). split; [done|]. apply elem_of_range. simpl.
    rewrite lookup_insert_ne by (rewrite Ep; congruence). by rewrite Eb.
Qed.

(** Closing the hint file at the end. *)
Lemma closeHint_spec L s m g :
  Inv L s m → Clean L s → seg_ok L s g →
  ∃ s', closeHint g s = (Ok tt, s') ∧ Inv L s' m ∧ Clean L s' ∧ bk s' = bk s ∧
    w_dir (wd s') = w_dir (wd s).
Proof.
  intros H0 Hc Hg. destruct (so_hint _ _ _ Hg) as (hi & Hhd & Hho).
  assert (w_faults (wd s) = []) as F0 by apply Hc.
  destruct (Close_nf _ F0 _ _ Hho) as (n & pos & Eh & Ecl).
  pose proof (hint_foreign _ _ _ _ _ H0 Hhd) as Hf.
  rewrite Eh in Hho. destruct (close_foreign L s m n pos hi H0 Hc Hf Hho) as [H1 C1].
  eexists. split; [by apply onfs_ok|]. by split_and!.
Qed.

Lemma Merge_spec L s m os :
  Inv L s m → Clean L s → filePtrs (bk s) ≠ ∅ → Forall (Forall op_ok) os →
  ∃ c' L' m', Merge (mkConc s os []) = (Ok tt, c') ∧ CInv m c' L' m' ∧
    ∀ p, merged (bk s) p →
      filePtrs (bk (st c')) !! p = None ∧ w_dir (wd (st c')) !! p = None.
Proof.
  intros H0 Hc Hnz Hos.
  destruct (mergeBegin_spec L s m H0 Hc Hnz)
    as (g & ps & s1 & L1 & E1 & H1 & C1 & Hg1 & Hnd & Hps & Hall).
  unfold Merge. rewrite (bind_ok _ _ _ (inl (g, ps)) (mkConc s1 os [])).
  2: { exact (attempt_ok _ _ _ _ (onst_ok _ (mkConc s os []) _ _ E1)). }
  assert (CInv m (mkConc s1 os []) L1 m) as HC1 by by constructor.
  destruct (mergeFiles_spec m ps _ L1 m g HC1 Hg1 Hnd Hps)
    as (c2 & L2 & m2 & g2 & E2 & C2 & Hg2 & F2 & N2).
  rewrite (bind_ok _ _ _ _ _ E2).
  destruct (yield_spec _ _ _ _ C2) as (c3 & L3 & m3 & E3 & C3 & X3).
  rewrite (bind_ok _ _ _ _ _ E3).
  destruct (closeHint_spec L3 (st c3) m3 g2) as (s4 & E4 & H4 & C4 & Eb & Ed);
    [apply C3|apply C3|by eapply seg_ok_ext|].
  exists (mkConc s4 (env c3) (done_ops c3)), L3, m3. split_and!.
  - unfold ignore. rewrite (bind_ok _ _ _ (inl tt) (mkConc s4 (env c3) (done_ops c3)));
      [done|]. apply attempt_ok, (onst_ok _ _ _ _ E4).
  - constructor; [done|done|apply C3|apply C3].
  - intros p Hp%Hall. simpl. rewrite Eb, Ed.
    destruct (Hps p Hp) as [Hse Hpp]. destruct (N2 p Hp) as [N D].
    pose proof (sgrow_fstep (λ _, False) _ _ _ _ (ext_sgrow _ _ X3)) as F3.
    assert (sealed (bk (st c2)) p) as Hse2 by by apply F2.
    split; [by apply F3|]. apply F3; [done| |done]. intros n.
    rewrite (mergeHintPath_base (bk s1)) by apply F2. by eapply ptr_not_hint.
Qed.
End whole.
