(* ===== verification/BitcaskTheorems.v ===== *)
(** What [bitcask/main.go] promises: its calls are those of a map, also beside a
    merge and also when the file system fails; a merge gives back the files it
    took in; entries read back as they were written; files stay within their
    size. *)

From stdpp Require Import gmap strings list fin_maps.
From Stdlib Require Import ZArith Lia.
From S2P Require Import Prelude GoLib GoFS BitcaskStore BitcaskMerge BitcaskMergeRefine.
From S2P Require Import BitcaskMergeTotal.

(** * The abstract view of a store *)

(** [s] holds the map [m]; its files may end in bytes of failed writes. *)
Definition holds (s : Store) (m : kvmap) : Prop := ∃ L, Inv L s m.

(** [s] holds [m], and no fault is to come or has left anything behind. *)
Definition represents (s : Store) (m : kvmap) : Prop := ∃ L, Inv L s m ∧ Clean L s.

(** A disk without files of an earlier run, and without faults to come. *)
Record fresh_disk (w : World) : Prop := {
  fd_wf : wf_world w;
  fd_faults : w_faults w = [];
  fd_active : ∀ n, w_dir w !! activePath New n = None;
  fd_merge : ∀ n, w_dir w !! mergeDataPath New n = None;
}.

(** A new store whose files hold [max] bytes; [New] takes 65536. *)
Definition new_with (max : Z) : BitCask := mkBitCask "./" 0 ∅ ∅ 1 max 1 0 0.

(** The run of [os] on a new store. *)
Definition run_new (max : Z) (w : World) (os : list op) : Conc :=
  run_batch os (mkConc (mkStore (new_with max) w) [] []).

Lemma represents_new max w : fresh_disk w → represents (mkStore (new_with max) w) ∅.
Proof.
  intros [W F A G]. exists ∅. split.
  - constructor; simpl; [done|..].
    + intros p. by rewrite !lookup_empty.
    + intros p h rs Hp. by rewrite lookup_empty in Hp.
    + intros p rs Hp. by rewrite lookup_empty in Hp.
    + intros p [h Hp]. by rewrite lookup_empty in Hp.
    + intros _. by rewrite lookup_empty.
    + intros k. by rewrite !lookup_empty.
  - constructor; simpl; [done| |by left|by intros; apply A|by intros; apply A|].
    + intros p rs ino Hp. by rewrite lookup_empty in Hp.
    + intros n _ [i Hs]. change (mergeDataPath _ n) with (mergeDataPath New n) in Hs.
      by rewrite G in Hs.
Qed.

Lemma fresh_empty : fresh_disk empty_world.
Proof. constructor; [apply wf_empty|done|intros; apply lookup_empty..]. Qed.

Lemma run_new_spec max w os :
  fresh_disk w → Forall op_ok os →
  ∃ m, replay ∅ (done_ops (run_new max w os)) = Some m ∧
    represents (st (run_new max w os)) m.
Proof.
  intros Hw Hos. destruct (represents_new max w Hw) as (L & H & C).
  destruct (run_batch_spec ∅ os (mkConc (mkStore (new_with max) w) [] []) L ∅)
    as (L' & m & HC & _); [by constructor|done|].
  exists m. split; [apply HC|]. exists L'. split; apply HC.
Qed.

(** A small store for the witnesses: two keys written, one of them twice, a file
    for each entry. *)
Definition demo_ops : list op :=
  [OPut 1 (bytes_of "a") (bytes_of "x"); OPut 2 (bytes_of "b") (bytes_of "y");
   OPut 3 (bytes_of "a") (bytes_of "z")].
Definition demo : Store := st (run_new 16 empty_world demo_ops).

Lemma demo_ops_ok : Forall op_ok demo_ops.
Proof. repeat constructor. Qed.

Lemma demo_represents : ∃ m, represents demo m.
Proof.
  destruct (run_new_spec 16 empty_world demo_ops fresh_empty demo_ops_ok) as (m & _ & H).
  by exists m.
Qed.

(** * Calls refine a map *)

(** C2: On a new store and a disk that does not fail, every sequence of [Put], [Delete]
    and [Get] calls gives the answers of a map, each call seeing the writes before
    it, rotation of data files included; no call is left out. *)
Theorem calls_refine_map w os :
  fresh_disk w → Forall op_ok os →
  ∃ m, replay ∅ (done_ops (run_new 65536 w os)) = Some m ∧
    represents (st (run_new 65536 w os)) m ∧ (done_ops (run_new 65536 w os)).*1 = os.
Proof.
  intros Hw Hos. destruct (run_new_spec 65536 w os Hw Hos) as (m & E & H).
  exists m. split_and!; [done..|].
  assert (∀ c, env c = [] → (done_ops (run_batch os c)).*1 = (done_ops c).*1 ++ os)
    as Hrun; [|by apply Hrun].
  clear. induction os as [|o os IH]; intros c Hc; simpl; [by rewrite app_nil_r|].
  destruct (run_op o (st c)) as [r s]. rewrite IH by done. simpl.
  by rewrite fmap_app, <-(assoc_L (++)).
Qed.

Lemma calls_refine_map_witness :
  ∃ m, replay ∅ (done_ops (run_new 65536 empty_world (demo_ops ++ [OGet (bytes_of "a")]))) =
      Some m ∧
    represents (st (run_new 65536 empty_world (demo_ops ++ [OGet (bytes_of "a")]))) m ∧
    (done_ops (run_new 65536 empty_world (demo_ops ++ [OGet (bytes_of "a")]))).*1 =
      demo_ops ++ [OGet (bytes_of "a")].
Proof. apply (calls_refine_map _ _ fresh_empty). repeat constructor. Defined.

(** * Merging *)

(** C1: A merge of a store that has a data file (one that something was put into), beside any
    calls of other goroutines, made at any points where it does not hold the mutex, ends
    normally; all those calls get the answers of the
    map of their moment, none is lost, and the store then holds the map the calls
    built: the merge itself changes nothing. *)
Theorem merge_refines_identity `{MapRange} s m os :
  represents s m → filePtrs (bk s) ≠ ∅ → Forall (Forall op_ok) os →
  ∃ c' m', Merge (mkConc s os []) = (Ok tt, c') ∧ represents (st c') m' ∧
    replay m (done_ops c') = Some m' ∧ (done_ops c').*1 ++ mjoin (env c') = mjoin os.
Proof.
  intros (L & H0 & C0) Hnz Hos.
  destruct (Merge_spec L s m os H0 C0 Hnz Hos) as (c' & L' & m' & E & HC & _).
  exists c', m'. split_and!; [done|exists L'; split; apply HC|apply HC|].
  pose proof (calls_Merge (mkConc s os [])) as K. by rewrite E in K.
Qed.

(** Calls that overwrite, delete and read a key while the merge is at work. *)
Definition demo_env : list (list op) :=
  [[]; [OPut 4 (bytes_of "b") (bytes_of "w")]; [ODelete 5 (bytes_of "a")];
   [OGet (bytes_of "b")]].

Lemma demo_env_ok : Forall (Forall op_ok) demo_env.
Proof. repeat constructor. Qed.

Lemma size_nonempty {A} (m : gmap string A) n : size m = S n → m ≠ ∅.
Proof. intros E ->. by rewrite map_size_empty in E. Qed.

Lemma demo_nonempty : filePtrs (bk demo) ≠ ∅.
Proof. apply (size_nonempty _ 3). by vm_compute. Qed.

Lemma merge_refines_identity_witness :
  ∃ m c' m', Merge (mkConc demo demo_env []) = (Ok tt, c') ∧ represents (st c') m' ∧
    replay m (done_ops c') = Some m' ∧
    (done_ops c').*1 ++ mjoin (env c') = mjoin demo_env.
Proof.
  destruct demo_represents as [m Hm]. exists m.
  apply (merge_refines_identity demo m demo_env Hm demo_nonempty demo_env_ok).
Defined.

(** C19: A merge reclaims: every file of the store at its start, but the active one and
    the segment it appends to, is afterwards neither open in the store nor in the
    directory; every key of the index still points into an open file. *)
Theorem merge_reclaims `{MapRange} s m os :
  represents s m → filePtrs (bk s) ≠ ∅ → Forall (Forall op_ok) os →
  ∃ c', Merge (mkConc s os []) = (Ok tt, c') ∧
    (∀ p, is_Some (filePtrs (bk s) !! p) → p ≠ active (bk s) →
      p ≠ mergeDataPath (bk s) (mergeFileCnt (bk s)) →
      filePtrs (bk (st c')) !! p = None ∧ w_dir (wd (st c')) !! p = None) ∧
    ∀ k e, keyDir (bk (st c')) !! k = Some e →
      is_Some (filePtrs (bk (st c')) !! filePath e).
Proof.
  intros (L & H0 & C0) Hnz Hos.
  destruct (Merge_spec L s m os H0 C0 Hnz Hos) as (c' & L' & m' & E & HC & Hgone).
  exists c'. split_and!; [done|by intros p Hp Ha Hm; apply Hgone|].
  intros k e Hk. pose proof (inv_live _ _ _ (ci_inv _ _ _ _ HC) k) as Hl. rewrite Hk in Hl.
  destruct (m' !! k); [|done]. destruct Hl as (rs1 & r & rs2 & HL & _).
  apply (inv_dom _ _ _ (ci_inv _ _ _ _ HC)). by eexists.
Qed.

Lemma merge_reclaims_witness :
  is_Some (filePtrs (bk demo) !! "./1.data"%string) ∧
  ∃ c', Merge (mkConc demo demo_env []) = (Ok tt, c') ∧
    (∀ p, is_Some (filePtrs (bk demo) !! p) → p ≠ active (bk demo) →
      p ≠ mergeDataPath (bk demo) (mergeFileCnt (bk demo)) →
      filePtrs (bk (st c')) !! p = None ∧ w_dir (wd (st c')) !! p = None) ∧
    ∀ k e, keyDir (bk (st c')) !! k = Some e →
      is_Some (filePtrs (bk (st c')) !! filePath e).
Proof.
  split; [eexists; by vm_compute|]. destruct demo_represents as [m Hm].
  apply (merge_reclaims demo m demo_env Hm demo_nonempty demo_env_ok).
Defined.

(** C5: Whatever faults the file system injects, [put] neither panics nor loses data:
    when it reports success the store holds the written map, when it reports an
    error the store holds the old map or the written one. *)
Theorem put_under_faults s m now key value flag :
  holds s m → flag = Byte.x00 ∨ flag = Byte.x01 →
  headerSize + len key + len value < 2 ^ 32 →
  ∃ r s', put now key value flag s = (r, s') ∧
    match r with
    | Ok _ => holds s' (put_map (string_of key) value flag m)
    | Err _ => holds s' m ∨ holds s' (put_map (string_of key) value flag m)
    | _ => False
    end.
Proof.
  intros [L H0] Hfl Hr.
  destruct (put_spec L s m now key value flag H0 Hfl Hr) as (r & s' & L' & E & _ & P & _).
  exists r, s'. split; [done|]. destruct r; [by exists L'| |done|done].
  destruct P; [left|right]; by exists L'.
Qed.

(** The store [demo] on a disk about to fail with a short write. *)
Definition failing : Store := mkStore (bk demo) (set_faults [Some 3%nat] (wd demo)).

Lemma put_under_faults_witness :
  ∃ m r s', put 7 (bytes_of "a") (bytes_of "q") Byte.x00 failing = (r, s') ∧
    match r with
    | Ok _ => holds s' (put_map "a"%string (bytes_of "q") Byte.x00 m)
    | Err _ => holds s' m ∨ holds s' (put_map "a"%string (bytes_of "q") Byte.x00 m)
    | _ => False
    end.
Proof.
  destruct demo_represents as (m & L & H0 & _). exists m.
  apply (put_under_faults failing m 7 (bytes_of "a") (bytes_of "q") Byte.x00);
    [by exists L; apply inv_weq|by left|by vm_compute].
Defined.

(** C20: Whatever faults the file system injects, [Get] changes nothing of the store and
    answers from the map: a value it returns is the key's value, and it says "not
    found" only of an absent key; the one other error is the file system's. *)
Theorem get_under_faults s m key :
  holds s m →
  ∃ r fs, Get key s = (r, mkStore (bk s) (set_faults fs (wd s))) ∧
    match r with
    | Ok v => m !! string_of key = Some v
    | Err e => (e = errNotFound ∧ m !! string_of key = None) ∨
        (e = ErrIO ∧ w_faults (wd s) ≠ [])
    | _ => False
    end.
Proof.
  intros [L H0]. destruct (Get_spec L s m key H0) as (r & fs & E & _ & P).
  by exists r, fs.
Qed.

Lemma get_under_faults_witness :
  ∃ (m : kvmap) r fs, Get (bytes_of "a") failing = (r, mkStore (bk failing) (set_faults fs (wd failing))) ∧
    match r with
    | Ok v => m !! "a"%string = Some v
    | Err e => (e = errNotFound ∧ m !! "a"%string = None) ∨
        (e = ErrIO ∧ w_faults (wd failing) ≠ [])
    | _ => False
    end.
Proof.
  destruct demo_represents as (m & L & H0 & _). exists m.
  apply (get_under_faults failing m (bytes_of "a")). by exists L; apply inv_weq.
Defined.

(** * Entries *)

(** An entry reads back as it was written: from the header [Get] takes the two sizes
    and the flag, from the whole the checksum agrees and key and value are those
    written. *)
Theorem entry_roundtrip timestamp key value flag :
  headerSize + len key + len value < 2 ^ 32 →
  let buf := encode_entry timestamp key value flag in
  let hdr := slice 0 headerSize buf in
  len buf = headerSize + len key + len value ∧
  get_u32 (slice 8 4 hdr) = len key ∧ get_u32 (slice 12 4 hdr) = len value ∧
  nth 16 hdr Byte.x00 = flag ∧
  get_u32 (slice 0 4 buf) = crc32 (drop 4 buf) ∧
  slice headerSize (len key) buf = key ∧
  drop (Z.to_nat (headerSize + len key)) buf = value.
Proof.
  intros Hr buf hdr. set (r := mkEntry timestamp key value flag).
  destruct (header_fields r [] Hr) as (_ & Ek & Ev & Ef).
  rewrite (right_id_L [] (++)) in Ek, Ev, Ef.
  destruct (enc_fields r) as (Ecrc & Ekey & Eval).
  split_and!; [apply (len_enc r)|exact Ek|exact Ev|exact Ef|exact Ecrc|exact Ekey|exact Eval].
Qed.

Lemma entry_roundtrip_witness :
  let key := bytes_of "k" in let value := bytes_of "v1" in
  let buf := encode_entry 9 key value Byte.x01 in
  let hdr := slice 0 headerSize buf in
  len buf = headerSize + len key + len value ∧
  get_u32 (slice 8 4 hdr) = len key ∧ get_u32 (slice 12 4 hdr) = len value ∧
  nth 16 hdr Byte.x00 = Byte.x01 ∧
  get_u32 (slice 0 4 buf) = crc32 (drop 4 buf) ∧
  slice headerSize (len key) buf = key ∧
  drop (Z.to_nat (headerSize + len key)) buf = value.
Proof. apply (entry_roundtrip 9 (bytes_of "k") (bytes_of "v1") Byte.x01). by vm_compute. Defined.

(** * Sizes of files *)

(** The fields of the store that say where the next entry goes. *)
Definition place (s : Store) : Z * Z * Z :=
  (currOffset (bk s), fileCnt (bk s), maxFileSizeBytes (bk s)).

Lemma place_onfs {A} (m : M World A) : keeps place (onfs m).
Proof. intros s. unfold onfs, zoom. by destruct (m (wd s)). Qed.
Lemma place_set_filePtrs f : keeps place (modbk (set_filePtrs f)).
Proof. done. Qed.
Lemma place_set_keyDir f : keeps place (modbk (set_keyDir f)).
Proof. done. Qed.
#[export] Hint Resolve @place_onfs place_set_filePtrs place_set_keyDir : keeps.

Lemma put_open_keeps path : keeps place (put_open path).
Proof. unfold put_open. keeps_tac. Qed.

(** A successful write moves the place by the size of the entry. *)
Lemma put_write_moves path buf n k vl flag s s' :
  put_write path buf n k vl flag s = (Ok tt, s') →
  place s' = (currOffset (bk s) + n, fileCnt (bk s), maxFileSizeBytes (bk s)).
Proof.
  unfold put_write. intros E. apply bind_inv in E as (b & s1 & [= <- <-] & E).
  apply bind_inv in E as (z & s1 & E1 & E).
  assert (place s1 = place s) as K1.
  { pose proof (place_onfs (WriteAt (filePtr_at (bk s) path) buf (currOffset (bk s))) s) as K.
    by rewrite E1 in K. }
  destruct (negb (z =? n)); [done|]. apply bind_inv in E as (u & s2 & E2 & [= <-]).
  assert (place s2 = place s1) as K2.
  { destruct (bool_decide _); injection E2 as _ <-; done. }
  unfold place in *. simpl. injection K1 as _ <- <-. by injection K2 as _ -> ->.
Qed.

(** A successful [put] leaves room in the active file: its offset is below the limit
    again, and the data file number grows by one exactly when the entry filled
    the file. *)
Theorem put_rotates now key value flag s s' :
  put now key value flag s = (Ok tt, s') → 0 < maxFileSizeBytes (bk s) →
  currOffset (bk s') < maxFileSizeBytes (bk s) ∧
  let full := currOffset (bk s) + (headerSize + len key + len value) in
  if maxFileSizeBytes (bk s) <=? full
  then fileCnt (bk s') = fileCnt (bk s) + 1 ∧ currOffset (bk s') = 0
  else fileCnt (bk s') = fileCnt (bk s) ∧ currOffset (bk s') = full.
Proof.
  intros E Hmax. unfold put in E.
  apply bind_inv in E as (b0 & s0 & [= <- <-] & E).
  apply bind_inv in E as (u1 & s1 & E1 & E).
  apply bind_inv in E as (u2 & s2 & E2 & E).
  pose proof (put_open_keeps (activePath (bk s) (fileCnt (bk s))) s) as K1.
  rewrite E1 in K1. destruct u1, u2. apply put_write_moves in E2. simpl in K1.
  injection K1 as K1 K2 K3. injection E2 as E2 E3 E4.
  unfold put_rotate in E. apply bind_inv in E as (b & s3 & [= <- <-] & E).
  rewrite E4, K3, E2, K1 in E. set (n := headerSize + len key + len value) in *.
  cbn zeta. destruct (Z.leb_spec (maxFileSizeBytes (bk s)) (currOffset (bk s) + n)).
  - apply bind_inv in E as ([] & s4 & [= <-] & E).
    apply bind_inv in E as (h & s5 & E5 & E).
    apply bind_inv in E as ([] & s6 & [= <-] & [= <-]).
    unfold onfs, zoom in E5. destruct (OpenFile _ _ _) as [r w]. injection E5 as -> <-.
    simpl. rewrite E3, K2. lia.
  - injection E as <-. rewrite E2, E3, K1, K2. lia.
Qed.

Lemma put_rotates_witness :
  let s' := (put 1 (bytes_of "k") (bytes_of "v") Byte.x00 demo).2 in
  currOffset (bk s') < 16 ∧
  let full := currOffset (bk demo) + (headerSize + 1 + 1) in
  if 16 <=? full
  then fileCnt (bk s') = fileCnt (bk demo) + 1 ∧ currOffset (bk s') = 0
  else fileCnt (bk s') = fileCnt (bk demo) ∧ currOffset (bk s') = full.
Proof.
  apply (put_rotates 1 (bytes_of "k") (bytes_of "v") Byte.x00 demo); [|done].
  by vm_compute.
Defined.

(** A merge segment stays within the limit: making room for the next entry either
    leaves a segment with place for it or starts an empty one. *)
Theorem segment_capacity s L m g n :
  Inv L s m → Clean L s → seg_ok L s g → filePtrs (bk s) ≠ ∅ →
  ∃ g' s', ensureMergeSegmentCapacityLocked g n s = (Ok g', s') ∧
    (dataOffset g' + n ≤ maxFileSizeBytes (bk s') ∨
     dataOffset g' = 0 ∧ maxFileSizeBytes (bk s) < dataOffset g + n).
Proof.
  intros H0 Hc Hg Hnz. unfold ensureMergeSegmentCapacityLocked, bind, gets.
  destruct (Z.leb_spec (dataOffset g + n) (maxFileSizeBytes (bk s))) as [Hle|Hgt].
  - exists g, s. split; [done|]. by left.
  - destruct (rotate_spec L s m g H0 Hc Hg Hnz) as (g' & s' & L' & E & _ & _ & _ & _ & _ & O).
    exists g', s'. split; [done|]. by right.
Qed.

Lemma segment_capacity_witness :
  ∃ s g g' s', dataPath g = mergeDataPath (bk s) 1 ∧
    ensureMergeSegmentCapacityLocked g 18 s = (Ok g', s') ∧
    (dataOffset g' + 18 ≤ maxFileSizeBytes (bk s') ∨
     dataOffset g' = 0 ∧ maxFileSizeBytes (bk s) < dataOffset g + 18).
Proof.
  destruct demo_represents as (m & L & H0 & C0).
  destruct (open_segment_spec L demo m H0 C0 demo_nonempty)
    as (g & s1 & L' & _ & H1 & C1 & Hg & _ & Eb & Ep & _).
  assert (dataPath g = mergeDataPath (bk (add_ptr g s1)) 1) as E1.
  { rewrite Ep. change (mergeDataPath (bk (add_ptr g s1)) 1) with (mergeDataPath (bk s1) 1).
    rewrite Eb. by vm_compute. }
  destruct (segment_capacity (add_ptr g s1) L' m g 18 H1 C1 Hg) as (g' & s' & E & O).
  { intros He. pose proof (so_ptr _ _ _ Hg) as Hp. by rewrite He, lookup_empty in Hp. }
  exists (add_ptr g s1), g, g', s'. exact (conj E1 (conj E O)).
Defined.

(** * Merging too early *)

(** With files open but not the active one, [put] fails and changes nothing. *)
Lemma put_nil_active s now key value flag :
  filePtrs (bk s) ≠ ∅ → filePtrs (bk s) !! active (bk s) = None →
  put now key value flag s = (Err ErrInvalid, s).
Proof.
  intros Hne Hn. unfold put, bind at 1, gets.
  rewrite (bind_ok _ _ s tt s).
  2: { unfold put_open, bind, gets. destruct (Nat.eqb_spec (size (filePtrs (bk s))) 0) as [E|];
       [by apply map_size_empty_inv in E|done]. }
  apply bind_err. unfold put_write, bind at 1, gets, filePtr_at.
  unfold active in Hn. rewrite Hn. by destruct s.
Qed.

(** The store a merge leaves that ran before anything was written. *)
Definition merged_new : Store := st (Merge (mkConc (mkStore New empty_world) [] [])).2.

(** A merge that runs before the first write leaves a store on which no [Put] and no
    [Delete] ever succeeds: the merge registers its own segment, so that [put] no
    longer opens a first data file and writes to a nil file. *)
Theorem merge_before_put_breaks_put now key value flag :
  put now key value flag merged_new = (Err ErrInvalid, merged_new).
Proof.
  apply put_nil_active.
  - apply (size_nonempty _ 0). by vm_compute.
  - by vm_compute.
Qed.
