(* ===== verification/WordDictionary.v ===== *)
(** [word-dictionary/main.go]: an append-only file of words and meanings with an
    index in memory; [Import] merges it with a sorted change log into a new
    file.  The file handle [file] is a global variable of the program, here a
    field of the state. *)

From stdpp Require Import gmap strings list fin_maps sorting.
From Stdlib Require Import ZArith Lia.
From coqutil Require Byte.
From S2P Require Import Prelude GoLib GoFS.

Module WordDict.

(** * Data *)

Record DictionaryEntryMeta := mkMeta { offset : Z; entrySize : Z }.

Record WordDictionary := mkDict {
  wordMetaMap : gmap string DictionaryEntryMeta;
  currentOffset : Z;
}.

(** The dictionary, the global [file] and the file system. *)
Record DState := mkDState { dict : WordDictionary; file : File; dwd : World }.

Definition set_dict f (s : DState) := mkDState (f (dict s)) (file s) (dwd s).
Definition set_file h (s : DState) := mkDState (dict s) h (dwd s).
Definition ondisk {A} (m : M World A) : M DState A :=
  zoom dwd (λ w s, mkDState (dict s) (file s) w) m.

Definition FilePath : string := "./word_dictionary".
Definition appendFlags : open_flags := mkFlags true true false.

(** [init]: the program ends when the file does not open. *)
Definition init : M DState unit :=
  let! r := attempt (ondisk (OpenFile FilePath appendFlags)) in
  match r with
  | inl f => modify (set_file f)
  | inr _ => panic "log.Fatalf"
  end.

(** [NewWordDictionary] starts with an empty index at the end of the file; the
    error of [Stat] is not handled. *)
Definition NewWordDictionary : M DState WordDictionary :=
  let! f := gets file in
  let! info := attempt (ondisk (StatSize f)) in
  match info with
  | inl size => ret (mkDict ∅ size)
  | inr _ => panic "nil pointer dereference"
  end.

(** * Entries: word size (1 byte), meaning size (3 bytes), word, meaning *)

(** [byte(z)]. *)
Definition to_byte (z : Z) : byte := Byte.byte.of_Z z.

Definition encode_word (wordBytes meaningBytes : bytes) : bytes :=
  let wordLen := len wordBytes in
  let meaningLen := len meaningBytes in
  [to_byte wordLen] ++
  [to_byte (Z.shiftr meaningLen 16); to_byte (Z.shiftr meaningLen 8); to_byte meaningLen] ++
  wordBytes ++ meaningBytes.

(** [int(b[0])], and [int(b[1])<<16 | int(b[2])<<8 | int(b[3])]. *)
Definition word_len (b : bytes) : Z := Byte.byte.unsigned (nth 0 b Byte.x00).
Definition meaning_len (b : bytes) : Z :=
  Z.lor (Z.lor (Z.shiftl (Byte.byte.unsigned (nth 1 b Byte.x00)) 16)
               (Z.shiftl (Byte.byte.unsigned (nth 2 b Byte.x00)) 8))
        (Byte.byte.unsigned (nth 3 b Byte.x00)).

(** * Insert and GetMeaning *)

Definition Insert (word meaning : string) : M DState unit :=
  let! s := get_st in
  match wordMetaMap (dict s) !! word with
  | Some _ => ret tt
  | None =>
      let result := encode_word (bytes_of word) (bytes_of meaning) in
      let totalLen := 4 + len (bytes_of word) + len (bytes_of meaning) in
      do! ondisk (Write (file s) result) in
      modify (set_dict (λ w, mkDict
        (<[word := mkMeta (currentOffset w) totalLen]> (wordMetaMap w))
        (currentOffset w + totalLen)))
  end.

(** An absent word and a failing read both give the empty string; the slice
    expressions panic when the sizes in the entry pass its end. *)
Definition GetMeaning (word : string) : M DState string :=
  let! s := get_st in
  match wordMetaMap (dict s) !! word with
  | None => ret EmptyString
  | Some meta =>
      let! r := attempt (ondisk (ReadAt (file s) (entrySize meta) (offset meta))) in
      match r with
      | inr _ => ret EmptyString
      | inl byteArr =>
          if entrySize meta <? 4 then panic "slice bounds out of range" else
          let wordLenInt := word_len byteArr in
          let meaningLenInt := meaning_len byteArr in
          if entrySize meta <? 4 + wordLenInt + meaningLenInt
          then panic "slice bounds out of range"
          else ret (string_of (slice (4 + wordLenInt) meaningLenInt byteArr))
      end
  end.

(** * Import *)

(** What the loops of [Import] carry: the two read offsets, the index and the
    offset of the new file. *)
Record import_state := mkImport {
  currentFileOffset : Z;
  changeLogFileOffset : Z;
  tempMetaMap : gmap string DictionaryEntryMeta;
  tempFileOffset : Z;
}.

(** [n, err := tempFile.Write(buf)] with the check of [n], then the new entry of
    the index. *)
Definition write_temp (tempFile : File) (msg_err msg_short : string)
    (entryBytes : bytes) (size : Z) : M DState unit :=
  let! n := wrap_err msg_err (ondisk (Write tempFile entryBytes)) in
  if negb (n =? size) then fail (ErrNew msg_short) else ret tt.

Definition note_entry (word : string) (size : Z) (i : import_state) : import_state :=
  mkImport (currentFileOffset i) (changeLogFileOffset i)
    (<[word := mkMeta (tempFileOffset i) size]> (tempMetaMap i)) (tempFileOffset i + size).

Definition advance (cur ch : Z) (i : import_state) : import_state :=
  mkImport (currentFileOffset i + cur) (changeLogFileOffset i + ch)
    (tempMetaMap i) (tempFileOffset i).

(** An entry's length bytes and payload, in the two reads of the merge loop. *)
Definition read_entry (f : File) (off : Z) (msg_len msg_payload : string)
    : M DState (bytes * bytes) :=
  let! lenBytes := wrap_err msg_len (ondisk (ReadAt f 4 off)) in
  let! payload := wrap_err msg_payload
    (ondisk (ReadAt f (word_len lenBytes + meaning_len lenBytes) (off + 4))) in
  ret (lenBytes, payload).

(** The word and the size of an entry so read. *)
Definition read_word (e : bytes * bytes) : string :=
  string_of (take (Z.to_nat (word_len e.1)) e.2).
Definition read_size (e : bytes * bytes) : Z := 4 + word_len e.1 + meaning_len e.1.

(** The merge of the two files while both have entries. *)
Fixpoint mergeLoop (fuel : nat) (cur changeLog temp : File) (limit size : Z)
    (i : import_state) : M DState import_state :=
  match fuel with
  | O => λ s, (NoFuel, s)
  | S fuel =>
      if (currentFileOffset i <? limit) && (changeLogFileOffset i <? size) then
        let! c := read_entry cur (currentFileOffset i)
          "reading current file length bytes" "reading current file payload" in
        let! h := read_entry changeLog (changeLogFileOffset i)
          "reading change log length bytes" "reading change log payload" in
        let '(entry, i') :=
          match String.compare (read_word c) (read_word h) with
          | Eq => (h, advance (read_size c) (read_size h) i)
          | Lt => (c, advance (read_size c) 0 i)
          | Gt => (h, advance 0 (read_size h) i)
          end in
        do! write_temp temp "writing to temp file" "incomplete write to temp file"
          (entry.1 ++ entry.2) (read_size entry) in
        mergeLoop fuel cur changeLog temp limit size
          (note_entry (read_word entry) (read_size entry) i')
      else ret i
  end.

(** The length bytes, then the whole entry: the reads of the two copying loops. *)
Definition read_whole (f : File) (off : Z) (msg_len msg_entry : string) : M DState bytes :=
  let! lenBytes := wrap_err msg_len (ondisk (ReadAt f 4 off)) in
  wrap_err msg_entry
    (ondisk (ReadAt f (4 + word_len lenBytes + meaning_len lenBytes) off)).

Definition whole_word (buf : bytes) : string := string_of (slice 4 (word_len buf) buf).
Definition whole_size (buf : bytes) : Z := 4 + word_len buf + meaning_len buf.

(** The remaining entries of the current file. *)
Fixpoint appendCurrent (fuel : nat) (cur temp : File) (limit : Z) (i : import_state)
    : M DState import_state :=
  match fuel with
  | O => λ s, (NoFuel, s)
  | S fuel =>
      if currentFileOffset i <? limit then
        let! buf := read_whole cur (currentFileOffset i)
          "reading current file length bytes" "reading current file entry bytes" in
        do! write_temp temp "writing current file entry to temp file"
          "incomplete write of current file entry" buf (whole_size buf) in
        appendCurrent fuel cur temp limit
          (advance (whole_size buf) 0 (note_entry (whole_word buf) (whole_size buf) i))
      else ret i
  end.

(** The remaining entries of the change log; here the index is updated before the
    write. *)
Fixpoint appendChangeLog (fuel : nat) (changeLog temp : File) (size : Z)
    (i : import_state) : M DState import_state :=
  match fuel with
  | O => λ s, (NoFuel, s)
  | S fuel =>
      if changeLogFileOffset i <? size then
        let! buf := read_whole changeLog (changeLogFileOffset i)
          "reading length bytes" "reading entry bytes" in
        let i := note_entry (whole_word buf) (whole_size buf) i in
        do! write_temp temp "writing temp file" "incomplete write to temp file"
          buf (whole_size buf) in
        appendChangeLog fuel changeLog temp size (advance 0 (whole_size buf) i)
      else ret i
  end.

(** The three loops: every iteration passes an entry, of at least four bytes. *)
Definition mergeFilesInto (cur changeLog temp : File) (limit size : Z)
    : M DState import_state :=
  let fuel := S (Z.to_nat limit + Z.to_nat size) in
  let! i := mergeLoop fuel cur changeLog temp limit size (mkImport 0 0 ∅ 0) in
  let! i := appendCurrent fuel cur temp limit i in
  appendChangeLog fuel changeLog temp size i.

Definition tempFilePath : string := FilePath +:+ "_temp".

(** From the first read to the swap of the index. *)
Definition importInto (changeLogFile tempFile : File) (size : Z) : M DState unit :=
  let! s := get_st in
  let! i := mergeFilesInto (file s) changeLogFile tempFile (currentOffset (dict s)) size in
  do! ignore (ondisk (Sync tempFile)) in
  do! ignore (ondisk (Close tempFile)) in
  do! ignore (ondisk (Close (file s))) in
  do! wrap_err "renaming temp file failed" (ondisk (Rename tempFilePath FilePath)) in
  let! r := attempt (ondisk (OpenFile FilePath appendFlags)) in
  match r with
  | inr e =>
      do! modify (set_file None) in fail (ErrWrap "reopening file failed" e)
  | inl f =>
      do! modify (set_file f) in
      modify (set_dict (λ _, mkDict (tempMetaMap i) (tempFileOffset i)))
  end.

Definition Import (changeLogFilePath : string) : M DState unit :=
  let! changeLogFile := wrap_err "error opening change log"
    (ondisk (OpenFile changeLogFilePath (mkFlags false false false))) in
  defer (ignore (ondisk (Close changeLogFile))) (
    let! size := wrap_err "error stating change log" (ondisk (StatSize changeLogFile)) in
    let! tempFile := wrap_err "error creating temp file"
      (ondisk (OpenFile tempFilePath (mkFlags true false true))) in
    defer (ignore (ondisk (Close tempFile)))
      (importInto changeLogFile tempFile size)).

End WordDict.
