(* ===== verification/WordDictionarySpec.v ===== *)
(** Lemmas on the word dictionary: the entry codec, the abstract contents of the
    file, the loops of [Import], and the representation invariant. *)

From stdpp Require Import gmap strings list fin_maps sorting.
From Stdlib Require Import ZArith Lia.
From coqutil Require Byte.
From S2P Require Import Prelude GoLib GoFS WordDictionary.
Import WordDict.

(** * Entries *)

Record wentry := mkWentry { we_word : bytes; we_meaning : bytes }.

Definition wenc (e : wentry) : bytes := encode_word (we_word e) (we_meaning e).
Definition wenc_all (l : list wentry) : bytes := mjoin (wenc <$> l).
Definition wsize (e : wentry) : Z := 4 + len (we_word e) + len (we_meaning e).
Definition wkey (e : wentry) : string := string_of (we_word e).

(** Sizes that fit one and three bytes. *)
Definition w_ok (e : wentry) : Prop := len (we_word e) < 2 ^ 8 ∧ len (we_meaning e) < 2 ^ 24.

Definition whdr (e : wentry) : bytes :=
  [to_byte (len (we_word e)); to_byte (Z.shiftr (len (we_meaning e)) 16);
   to_byte (Z.shiftr (len (we_meaning e)) 8); to_byte (len (we_meaning e))].

Lemma wenc_split e : wenc e = whdr e ++ we_word e ++ we_meaning e.
Proof. done. Qed.

Lemma len_whdr e : len (whdr e) = 4.
Proof. done. Qed.
#[export] Hint Rewrite len_whdr : go.

Lemma len_wenc e : len (wenc e) = wsize e.
Proof. rewrite wenc_split. unfold wsize. autorewrite with go. lia. Qed.
Lemma wenc_all_app l1 l2 : wenc_all (l1 ++ l2) = wenc_all l1 ++ wenc_all l2.
Proof. unfold wenc_all. by rewrite fmap_app, join_app. Qed.
Lemma wenc_all_cons e l : wenc_all (e :: l) = wenc e ++ wenc_all l.
Proof. done. Qed.
Lemma wenc_all_nil : wenc_all [] = [].
Proof. done. Qed.
#[export] Hint Rewrite wenc_all_app wenc_all_cons wenc_all_nil len_wenc : go.

Lemma wsize_pos e : 4 ≤ wsize e.
Proof. unfold wsize. pose proof (len_nonneg (we_word e)). pose proof (len_nonneg (we_meaning e)). lia. Qed.

Lemma unsigned_to_byte z : Byte.byte.unsigned (to_byte z) = z mod 2 ^ 8.
Proof. unfold to_byte. by rewrite Byte.byte.unsigned_of_Z. Qed.

(** Three bytes hold a 24-bit number. *)
Lemma bytes_of_24 n :
  0 ≤ n < 2 ^ 24 →
  Z.lor (Z.lor (Z.shiftl (Z.shiftr n 16 mod 2 ^ 8) 16) (Z.shiftl (Z.shiftr n 8 mod 2 ^ 8) 8))
    (n mod 2 ^ 8) = n.
Proof.
  intros Hn. apply Z.bits_inj'. intros i Hi.
  rewrite !Z.lor_spec, !Z.shiftl_spec by done.
  destruct (Z.ltb_spec i 8).
  { rewrite (Z.mod_pow2_bits_low n) by lia. rewrite !Z.testbit_neg_r by lia. done. }
  rewrite (Z.mod_pow2_bits_high n) by lia. rewrite orb_false_r.
  destruct (Z.ltb_spec i 16).
  { rewrite (Z.testbit_neg_r _ (i - 16)) by lia. rewrite Z.mod_pow2_bits_low by lia.
    rewrite Z.shiftr_spec, orb_false_l by lia. f_equal. lia. }
  rewrite (Z.mod_pow2_bits_high _ _ (i - 8)) by lia. rewrite orb_false_r.
  destruct (Z.ltb_spec i 24).
  { rewrite Z.mod_pow2_bits_low by lia. rewrite Z.shiftr_spec by lia. f_equal. lia. }
  rewrite Z.mod_pow2_bits_high by lia.
  rewrite <-(Z.mod_small n (2 ^ 24)) by done. by rewrite Z.mod_pow2_bits_high by lia.
Qed.

Lemma word_len_hdr e rest : w_ok e → word_len (whdr e ++ rest) = len (we_word e).
Proof.
  intros [H _]. unfold word_len. simpl. rewrite unsigned_to_byte.
  pose proof (len_nonneg (we_word e)). by apply Z.mod_small.
Qed.

Lemma meaning_len_hdr e rest : w_ok e → meaning_len (whdr e ++ rest) = len (we_meaning e).
Proof.
  intros [_ H]. unfold meaning_len. simpl. rewrite !unsigned_to_byte.
  pose proof (len_nonneg (we_meaning e)). by apply bytes_of_24.
Qed.

(** What the reads of [Import] and [GetMeaning] find at the offset of an entry. *)
Lemma read_at_entry l1 e l2 :
  let off := len (wenc_all l1) in let buf := wenc_all (l1 ++ e :: l2) in
  slice off 4 buf = whdr e ∧
  slice (off + 4) (len (we_word e) + len (we_meaning e)) buf = we_word e ++ we_meaning e ∧
  slice off (wsize e) buf = wenc e.
Proof.
  intros off buf. unfold off, buf. rewrite wenc_all_app, wenc_all_cons. split_and!.
  - rewrite wenc_split, <-!(assoc_L (++)). by apply slice_at.
  - rewrite wenc_split, !(assoc_L (++)), <-(assoc_L (++) _ (we_word e)), <-(assoc_L (++) _ _ (wenc_all l2)).
    apply slice_at; by autorewrite with go.
  - apply slice_at; by autorewrite with go.
Qed.

Lemma whole_entry e : w_ok e →
  whole_word (wenc e) = wkey e ∧ whole_size (wenc e) = wsize e ∧
  slice (4 + word_len (wenc e)) (meaning_len (wenc e)) (wenc e) = we_meaning e.
Proof.
  intros H. unfold whole_word, whole_size. rewrite wenc_split.
  rewrite word_len_hdr, meaning_len_hdr by done. split_and!; [|done|].
  - unfold wkey. f_equal. by apply slice_at.
  - rewrite (assoc_L (++)). rewrite <-(right_id_L [] (++) (we_meaning e)) at 2.
    apply slice_at; by autorewrite with go.
Qed.

(** * The index of a file *)

(** The index and the end offset after the entries [l], later ones replacing. *)
Definition index_step (a : gmap string DictionaryEntryMeta * Z) (e : wentry) :=
  (<[wkey e := mkMeta a.2 (wsize e)]> a.1, a.2 + wsize e).
Definition index (l : list wentry) : gmap string DictionaryEntryMeta :=
  (fold_left index_step l (∅, 0)).1.

(** The map of words to meanings of a file, later entries replacing. *)
Definition meanings (l : list wentry) : gmap string string :=
  fold_left (λ M e, <[wkey e := string_of (we_meaning e)]> M) l ∅.

Lemma index_end l : (fold_left index_step l (∅, 0)).2 = len (wenc_all l).
Proof.
  induction l as [|e l IH] using rev_ind; [done|].
  rewrite fold_left_app. simpl. rewrite IH. autorewrite with go. lia.
Qed.

Lemma index_snoc l e :
  index (l ++ [e]) = <[wkey e := mkMeta (len (wenc_all l)) (wsize e)]> (index l).
Proof. unfold index at 1. rewrite fold_left_app. simpl. by rewrite index_end. Qed.

Lemma meanings_snoc l e :
  meanings (l ++ [e]) = <[wkey e := string_of (we_meaning e)]> (meanings l).
Proof. unfold meanings. by rewrite fold_left_app. Qed.

(** [meta] leads to an entry of [w] and [v] in the file [l]. *)
Definition entry_at (l : list wentry) (w : string) (meta : DictionaryEntryMeta) (v : string)
    : Prop :=
  ∃ l1 e l2, l = l1 ++ e :: l2 ∧ wkey e = w ∧ string_of (we_meaning e) = v ∧
    meta = mkMeta (len (wenc_all l1)) (wsize e).

(** The index [I] of the file [l] represents the map [m]. *)
Definition indexes (l : list wentry) (I : gmap string DictionaryEntryMeta)
    (m : gmap string string) : Prop :=
  ∀ w, match I !! w, m !! w with
       | Some meta, Some v => entry_at l w meta v
       | None, None => True
       | _, _ => False
       end.

Lemma entry_at_app l l' w meta v : entry_at l w meta v → entry_at (l ++ l') w meta v.
Proof.
  intros (l1 & e & l2 & -> & H). exists l1, e, (l2 ++ l'). split; [|done].
  by rewrite <-(assoc_L (++)).
Qed.

Lemma indexes_snoc l e I m :
  indexes l I m →
  indexes (l ++ [e]) (<[wkey e := mkMeta (len (wenc_all l)) (wsize e)]> I)
    (<[wkey e := string_of (we_meaning e)]> m).
Proof.
  intros H w. destruct (decide (w = wkey e)) as [->|Hne].
  - rewrite !lookup_insert_eq. by exists l, e, [].
  - rewrite !lookup_insert_ne by done. specialize (H w).
    destruct (I !! w), (m !! w); [by apply entry_at_app|done..].
Qed.

Lemma index_meanings l : indexes l (index l) (meanings l).
Proof.
  induction l as [|e l IH] using rev_ind; [intros w; done|].
  rewrite index_snoc, meanings_snoc. by apply indexes_snoc.
Qed.

(** * The merge of two lists of entries *)

Fixpoint merge_entries (cur : list wentry) : list wentry → list wentry :=
  fix aux (ch : list wentry) :=
    match cur, ch with
    | [], _ => ch
    | _, [] => cur
    | c :: cur', h :: ch' =>
        match String.compare (wkey c) (wkey h) with
        | Eq => h :: merge_entries cur' ch'
        | Lt => c :: merge_entries cur' ch
        | Gt => h :: aux ch'
        end
    end.

Lemma merge_nil_l ch : merge_entries [] ch = ch.
Proof. by destruct ch. Qed.
Lemma merge_nil_r cur : merge_entries cur [] = cur.
Proof. by destruct cur. Qed.
Lemma merge_cons c cur h ch :
  merge_entries (c :: cur) (h :: ch) =
    match String.compare (wkey c) (wkey h) with
    | Eq => h :: merge_entries cur ch
    | Lt => c :: merge_entries cur (h :: ch)
    | Gt => h :: merge_entries (c :: cur) ch
    end.
Proof. done. Qed.

Lemma merge_ok cur ch : Forall w_ok cur → Forall w_ok ch → Forall w_ok (merge_entries cur ch).
Proof.
  revert ch. induction cur as [|c cur IHc]; intros ch Hc Hh; [by rewrite merge_nil_l|].
  induction ch as [|h ch IHh]; [by rewrite merge_nil_r|]. rewrite merge_cons.
  apply Forall_cons in Hc as [Hc1 Hc2], Hh as [Hh1 Hh2].
  destruct (String.compare _ _); constructor; auto.
Qed.

(** * Sorted files *)

(** Strict lexicographic order of bytes. *)
Definition slt (x y : string) : Prop := String.compare x y = Lt.

Definition sorted (l : list wentry) : Prop := StronglySorted slt (wkey <$> l).

Lemma slt_le x y : slt x y ↔ String.le x y ∧ x ≠ y.
Proof.
  unfold slt, String.le, String.leb. destruct (String.compare x y) eqn:E; split; try done.
  - apply String.compare_eq_iff in E. by intros [_ ?].
  - intros _. split; [done|]. intros ->.
    assert (String.compare y y = Eq) as E' by (clear E; induction y as [|a y IH];
      [done|simpl; unfold Ascii.compare; by rewrite N.compare_refl]).
    congruence.
  - by intros [? _].
Qed.

#[export] Instance slt_trans : Transitive slt.
Proof.
  intros x y z [H1 N1]%slt_le [H2 N2]%slt_le. apply slt_le. split; [by etrans|].
  intros ->. by apply N1, (anti_symm String.le).
Qed.

Lemma slt_irrefl x : ¬ slt x x.
Proof. by intros [_ ?]%slt_le. Qed.

Lemma compare_gt x y : String.compare x y = Gt → slt y x.
Proof. unfold slt. rewrite String.compare_antisym. by destruct (String.compare y x). Qed.

Lemma compare_eq x y : String.compare x y = Eq → x = y.
Proof. apply String.compare_eq_iff. Qed.

Lemma sorted_cons e l : sorted (e :: l) ↔ Forall (slt (wkey e)) (wkey <$> l) ∧ sorted l.
Proof.
  unfold sorted. simpl. split.
  - intros H. by apply StronglySorted_inv in H as [? ?].
  - intros [? ?]. by constructor.
Qed.

Lemma merge_forall (P : string → Prop) cur ch :
  Forall P (wkey <$> cur) → Forall P (wkey <$> ch) → Forall P (wkey <$> merge_entries cur ch).
Proof.
  revert ch. induction cur as [|c cur IHc]; intros ch Hc Hh; [by rewrite merge_nil_l|].
  induction ch as [|h ch IHh]; [by rewrite merge_nil_r|]. rewrite merge_cons.
  inversion_clear Hc. inversion_clear Hh.
  destruct (String.compare _ _); simpl; constructor; auto; apply IHc; auto.
  by constructor.
Qed.

Lemma forall_below x y l :
  slt x y → Forall (slt y) (wkey <$> l) → Forall (slt x) (wkey <$> l).
Proof. intros Hxy F. eapply Forall_impl; [exact F|]. intros z Hz. by etrans. Qed.

Lemma merge_sorted cur ch : sorted cur → sorted ch → sorted (merge_entries cur ch).
Proof.
  revert ch. induction cur as [|c cur IHc]; intros ch Hc Hh; [by rewrite merge_nil_l|].
  induction ch as [|h ch IHh]; [by rewrite merge_nil_r|]. rewrite merge_cons.
  pose proof Hc as [Fc Sc]%sorted_cons. pose proof Hh as [Fh Sh]%sorted_cons.
  destruct (String.compare (wkey c) (wkey h)) eqn:E; apply sorted_cons.
  - split; [|auto]. apply compare_eq in E. apply merge_forall; [by rewrite <-E|done].
  - split; [|auto]. apply merge_forall; [done|]. simpl. constructor; [done|].
    by eapply forall_below.
  - split; [|auto]. apply compare_gt in E. apply merge_forall; [|done].
    simpl. constructor; [done|]. by eapply forall_below.
Qed.

Definition kv (e : wentry) : string * string := (wkey e, string_of (we_meaning e)).

Lemma sorted_NoDup l : sorted l → NoDup (kv <$> l).*1.
Proof.
  intros H. assert ((kv <$> l).*1 = wkey <$> l) as ->.
  { rewrite <-list_fmap_compose. by apply list_fmap_ext. }
  induction l as [|e l IH]; [constructor|]. apply sorted_cons in H as [F S].
  simpl. constructor; [|auto]. intros Hin. rewrite Forall_forall in F.
  by apply (slt_irrefl (wkey e)), F.
Qed.

Lemma meanings_to_map l : meanings l = list_to_map (reverse (kv <$> l)).
Proof.
  induction l as [|e l IH] using rev_ind; [done|].
  rewrite meanings_snoc, IH, fmap_app. simpl. by rewrite reverse_snoc.
Qed.

(** In a sorted file every word occurs once, so its order does not matter. *)
Lemma meanings_sorted l : sorted l → meanings l = list_to_map (kv <$> l).
Proof.
  intros H. rewrite meanings_to_map. symmetry. apply list_to_map_proper.
  - by apply sorted_NoDup.
  - by rewrite reverse_Permutation.
Qed.

Lemma not_in_sorted x l :
  Forall (slt x) (wkey <$> l) → (list_to_map (kv <$> l) : gmap string string) !! x = None.
Proof.
  intros F. apply not_elem_of_list_to_map. rewrite <-list_fmap_compose.
  intros Hin. rewrite Forall_forall in F. by apply (slt_irrefl x), F.
Qed.

Lemma to_map_cons e l :
  (list_to_map (kv <$> e :: l) : gmap string string) =
    <[wkey e := string_of (we_meaning e)]> (list_to_map (kv <$> l)).
Proof. done. Qed.

Lemma merge_to_map cur ch :
  sorted cur → sorted ch →
  (list_to_map (kv <$> merge_entries cur ch) : gmap string string) =
    list_to_map (kv <$> ch) ∪ list_to_map (kv <$> cur).
Proof.
  revert ch. induction cur as [|c cur IHc]; intros ch Hc Hh.
  { rewrite merge_nil_l. simpl. by rewrite (right_id_L ∅ (∪)). }
  induction ch as [|h ch IHh]; [rewrite merge_nil_r; symmetry; apply (left_id_L ∅ (∪))|].
  rewrite merge_cons.
  pose proof Hc as [Fc Sc]%sorted_cons. pose proof Hh as [Fh Sh]%sorted_cons.
  destruct (String.compare (wkey c) (wkey h)) eqn:E.
  - apply compare_eq in E. rewrite !to_map_cons, IHc by done. rewrite E.
    rewrite <-insert_union_l. apply map_eq. intros w.
    destruct (decide (w = wkey h)) as [->|Hne]; [by rewrite !lookup_insert_eq|].
    rewrite !lookup_insert_ne, !lookup_union by done. by rewrite lookup_insert_ne.
  - rewrite !to_map_cons, IHc by done. rewrite to_map_cons, insert_union_r; [done|].
    rewrite lookup_insert_None. split; [|intros Hk; rewrite Hk in E; by apply slt_irrefl in E].
    apply not_in_sorted. by eapply forall_below.
  - rewrite !to_map_cons, IHh by done. by rewrite to_map_cons, insert_union_l.
Qed.

(** On sorted files the merge is the union of the maps, the change log winning. *)
Lemma merge_union cur ch :
  sorted cur → sorted ch → meanings (merge_entries cur ch) = meanings ch ∪ meanings cur.
Proof.
  intros Hc Hh. rewrite !meanings_sorted by auto using merge_sorted.
  by apply merge_to_map.
Qed.
