(* ===== verification/WordDictionaryImport.v ===== *)
(** [Insert], [GetMeaning] and [Import] against the contents of the file: the
    representation invariant, the loops of [Import], the whole import. *)

From stdpp Require Import gmap strings list fin_maps sorting.
From Stdlib Require Import ZArith Lia.
From coqutil Require Byte.
From S2P Require Import Prelude GoLib GoFS WordDictionary WordDictionarySpec.
Import WordDict.

(** * The representation invariant *)

(** The file holds the entries [l], the index leads to the map [m], and no fault
    is to come. *)
Record DInv (l : list wentry) (s : DState) (m : gmap string string) : Prop := {
  di_faults : w_faults (dwd s) = [];
  di_wf : wf_world (dwd s);
  di_file : ∃ n ino pos, file s = Some n ∧
    w_fd (dwd s) !! n = Some (mkFd ino true pos true) ∧
    w_dir (dwd s) !! FilePath = Some ino ∧ w_ino (dwd s) !! ino = Some (wenc_all l);
  di_off : currentOffset (dict s) = len (wenc_all l);
  di_ok : Forall w_ok l;
  di_map : indexes l (wordMetaMap (dict s)) m;
}.

Lemma ondisk_ok {A} (m : M World A) s r w' :
  m (dwd s) = (r, w') → ondisk m s = (r, mkDState (dict s) (file s) w').
Proof. unfold ondisk, zoom. by intros ->. Qed.

Lemma wrap_ok {S A} msg (m : M S A) s a s' :
  m s = (Ok a, s') → wrap_err msg m s = (Ok a, s').
Proof. unfold wrap_err. by intros ->. Qed.

(** * Insert and GetMeaning *)

(** The first meaning of a word stays. *)
Definition insert_map (word meaning : string) (m : gmap string string) : gmap string string :=
  match m !! word with Some _ => m | None => <[word := meaning]> m end.

(** What the insertion appends. *)
Definition insert_file (word meaning : string) (m : gmap string string) : list wentry :=
  match m !! word with
  | Some _ => []
  | None => [mkWentry (bytes_of word) (bytes_of meaning)]
  end.

(** The other files stay as they are. *)
Definition others_kept (w w' : World) : Prop :=
  ∀ p i, p ≠ FilePath → w_dir w !! p = Some i →
    w_dir w' !! p = Some i ∧ w_ino w' !! i = w_ino w !! i.

#[export] Instance others_kept_preorder : PreOrder others_kept.
Proof.
  split; [done|]. intros w1 w2 w3 H1 H2 p i Hp Hi.
  destruct (H1 p i Hp Hi) as [Hd Ei]. destruct (H2 p i Hp Hd) as [Hd' Ei'].
  split; [done|congruence].
Qed.

Lemma Insert_spec l s m word meaning :
  DInv l s m → len (bytes_of word) < 2 ^ 8 → len (bytes_of meaning) < 2 ^ 24 →
  ∃ s', Insert word meaning s = (Ok tt, s') ∧
    DInv (l ++ insert_file word meaning m) s' (insert_map word meaning m) ∧
    others_kept (dwd s) (dwd s').
Proof.
  intros H Hw Hm. pose proof (di_map _ _ _ H word) as Hi.
  unfold Insert, insert_map, insert_file. rewrite (bind_ok _ _ s s s) by done.
  destruct (wordMetaMap (dict s) !! word), (m !! word) eqn:Em; try done.
  { exists s. rewrite (right_id_L [] (++)). by split_and!. }
  set (e := mkWentry (bytes_of word) (bytes_of meaning)).
  assert (wkey e = word ∧ string_of (we_meaning e) = meaning) as [Ek Ev].
  { unfold wkey. simpl. by autorewrite with go. }
  destruct (di_file _ _ _ H) as (n & ino & pos & Ef & En & Ed & Ei).
  rewrite Ef. assert (content (dwd s) ino = wenc_all l) as Hc by (unfold content; by rewrite Ei).
  pose proof (Write_fd (dwd s) (di_faults _ _ _ H) n _ En eq_refl (wenc e)) as E.
  cbn [fd_append fd_ino fd_pos] in E. rewrite Hc, write_bytes_end in E.
  rewrite (bind_ok _ _ _ _ _ (ondisk_ok _ _ _ _ E)).
  eexists _. split_and!; [done| |].
  2: { intros p i Hp Hi'. simpl. split; [done|]. rewrite lookup_insert_ne; [done|].
       intros <-. by apply Hp, (wf_dir_inj _ (di_wf _ _ _ H) _ _ ino). }
  fold e. pose proof (wf_fd _ (di_wf _ _ _ H) n (mk_is_Some _ _ En)) as Hn.
  constructor; simpl.
  - apply H.
  - apply wf_set_fd; [done|]. apply wf_set_ino; [by eexists|apply H].
  - eexists n, ino, _. rewrite !lookup_insert_eq. split_and!; [done..|].
    rewrite wenc_all_app, wenc_all_cons, wenc_all_nil. by rewrite (right_id_L [] (++)).
  - rewrite (di_off _ _ _ H). autorewrite with go. unfold wsize, e. simpl. lia.
  - apply Forall_app. split; [apply H|by constructor].
  - rewrite (di_off _ _ _ H). pose proof (indexes_snoc l e _ _ (di_map _ _ _ H)) as Hx.
    by rewrite Ek, Ev in Hx.
Qed.

Lemma GetMeaning_spec l s m word :
  DInv l s m → GetMeaning word s = (Ok (default EmptyString (m !! word)), s).
Proof.
  intros H. pose proof (di_map _ _ _ H word) as Hi.
  unfold GetMeaning. rewrite (bind_ok _ _ s s s) by done.
  destruct (wordMetaMap (dict s) !! word) as [meta|], (m !! word) as [v|]; try done.
  destruct Hi as (l1 & e & l2 & -> & _ & <- & ->).
  destruct (di_file _ _ _ H) as (n & ino & pos & Ef & En & Ed & Ei).
  pose proof (di_ok _ _ _ H) as [_ [Hok _]%Forall_cons]%Forall_app.
  pose proof (wsize_pos e). pose proof (len_nonneg (wenc_all l1)).
  pose proof (ReadAt_fd (dwd s) (di_faults _ _ _ H) n _ En eq_refl (wsize e)
    (len (wenc_all l1))) as E. cbn [fd_ino] in E. unfold content in E. rewrite Ei in E.
  cbn [from_option id] in E. destruct (read_at_entry l1 e l2) as (_ & _ & Er).
  cbn zeta in Er. rewrite Er, len_wenc, Z.ltb_irrefl in E.
  cbn [entrySize offset]. rewrite Ef.
  rewrite (bind_ok _ _ s (inl (wenc e)) s).
  2: { apply attempt_ok. rewrite (ondisk_ok _ _ _ _ (E ltac:(done) ltac:(lia))).
       by destruct s. }
  destruct (whole_entry e Hok) as (_ & Es & Em). unfold whole_size in Es.
  destruct (Z.ltb_spec (wsize e) 4); [lia|]. rewrite Es, Z.ltb_irrefl.
  unfold ret. by rewrite Em.
Qed.

(** * The loops of Import *)

Section loops.
Variables (d : WordDictionary) (w0 : World).
Variables (cn hn tn ci hi ti : nat) (cpos hpos : Z) (capp : bool).
Variables (cur ch : list wentry).

(** The world during the loops: only the temporary file grows. *)
Definition tw (tb : bytes) : World :=
  set_fd (insert tn (mkFd ti false (len tb) true)) (set_ino (insert ti tb) w0).
Definition ts (out : list wentry) : DState := mkDState d (Some cn) (tw (wenc_all out)).

(** The import state after the entries [pc] and [ph] were passed and [out] written. *)
Definition ist (pc ph out : list wentry) : import_state :=
  mkImport (len (wenc_all pc)) (len (wenc_all ph)) (index out) (len (wenc_all out)).

Hypothesis Hnf : w_faults w0 = [].
Hypothesis Hc : w_fd w0 !! cn = Some (mkFd ci true cpos true).
Hypothesis Hh : w_fd w0 !! hn = Some (mkFd hi capp hpos true).
Hypothesis Hci : w_ino w0 !! ci = Some (wenc_all cur).
Hypothesis Hhi : w_ino w0 !! hi = Some (wenc_all ch).
Hypothesis Hne : cn ≠ tn ∧ hn ≠ tn ∧ ci ≠ ti ∧ hi ≠ ti.
Hypothesis Hcok : Forall w_ok cur.
Hypothesis Hhok : Forall w_ok ch.

Lemma tw_cur tb : w_fd (tw tb) !! cn = Some (mkFd ci true cpos true) ∧
  content (tw tb) ci = wenc_all cur.
Proof.
  destruct Hne as (N1 & N2 & N3 & N4). unfold tw, content. simpl.
  rewrite !lookup_insert_ne by done. by rewrite Hci.
Qed.

Lemma tw_ch tb : w_fd (tw tb) !! hn = Some (mkFd hi capp hpos true) ∧
  content (tw tb) hi = wenc_all ch.
Proof.
  destruct Hne as (N1 & N2 & N3 & N4). unfold tw, content. simpl.
  rewrite !lookup_insert_ne by done. by rewrite Hhi.
Qed.

(** A read of an open file in one of these worlds. *)
Lemma read_tw n ino app pos out b k off m :
  w_fd (tw (wenc_all out)) !! n = Some (mkFd ino app pos true) →
  content (tw (wenc_all out)) ino = b → 0 ≤ off → 0 ≤ k → len (slice off k b) = k →
  wrap_err m (ondisk (ReadAt (Some n) k off)) (ts out) = (Ok (slice off k b), ts out).
Proof.
  intros En Ec H1 H2 Hl. apply wrap_ok.
  pose proof (ReadAt_fd (tw (wenc_all out)) Hnf n _ En eq_refl k off H1 H2) as E.
  cbn [fd_ino] in E. rewrite Ec, Hl, Z.ltb_irrefl in E.
  by rewrite (ondisk_ok _ (ts out) _ _ E).
Qed.

Lemma write_tw out e m1 m2 :
  w_ok e →
  write_temp (Some tn) m1 m2 (wenc e) (wsize e) (ts out) = (Ok tt, ts (out ++ [e])).
Proof.
  intros He. unfold write_temp.
  assert (w_fd (tw (wenc_all out)) !! tn = Some (mkFd ti false (len (wenc_all out)) true))
    as En by (unfold tw; simpl; by rewrite lookup_insert_eq).
  assert (content (tw (wenc_all out)) ti = wenc_all out) as Ec
    by (unfold tw, content; simpl; by rewrite lookup_insert_eq).
  pose proof (Write_fd (tw (wenc_all out)) Hnf tn _ En eq_refl (wenc e)) as E.
  cbn [fd_append fd_ino fd_pos] in E. rewrite Ec, write_bytes_end in E.
  rewrite (bind_ok _ _ (ts out) (wsize e) (ts (out ++ [e]))); [by rewrite Z.eqb_refl|].
  apply wrap_ok. rewrite (ondisk_ok _ (ts out) _ _ E), len_wenc. f_equal.
  unfold ts. f_equal. unfold tw, set_fd, set_ino. simpl.
  rewrite wenc_all_app, wenc_all_cons, wenc_all_nil, (right_id_L [] (++)).
  rewrite !insert_insert_eq, len_app, len_wenc. done.
Qed.

(** Reading the next entry of either file. *)
Lemma read_entry_tw n ino app pos out l1 e l2 m1 m2 :
  w_fd (tw (wenc_all out)) !! n = Some (mkFd ino app pos true) →
  content (tw (wenc_all out)) ino = wenc_all (l1 ++ e :: l2) → w_ok e →
  read_entry (Some n) (len (wenc_all l1)) m1 m2 (ts out) =
    (Ok (whdr e, we_word e ++ we_meaning e), ts out).
Proof.
  intros En Ec He. destruct (read_at_entry l1 e l2) as (R1 & R2 & _). cbn zeta in R1, R2.
  pose proof (len_nonneg (wenc_all l1)). pose proof (len_nonneg (we_word e)).
  pose proof (len_nonneg (we_meaning e)).
  unfold read_entry.
  rewrite (bind_ok _ _ _ _ _ (read_tw n ino app pos out _ 4 (len (wenc_all l1)) m1 En Ec
    ltac:(done) ltac:(done) ltac:(by rewrite R1))). rewrite R1.
  rewrite <-(right_id_L [] (++) (whdr e)) at 1 2.
  rewrite word_len_hdr, meaning_len_hdr by done.
  rewrite (bind_ok _ _ _ _ _ (read_tw n ino app pos out _
    (len (we_word e) + len (we_meaning e)) (len (wenc_all l1) + 4) m2 En Ec ltac:(lia)
    ltac:(lia) ltac:(rewrite R2; by autorewrite with go))). by rewrite R2.
Qed.

Lemma read_whole_tw n ino app pos out l1 e l2 m1 m2 :
  w_fd (tw (wenc_all out)) !! n = Some (mkFd ino app pos true) →
  content (tw (wenc_all out)) ino = wenc_all (l1 ++ e :: l2) → w_ok e →
  read_whole (Some n) (len (wenc_all l1)) m1 m2 (ts out) = (Ok (wenc e), ts out).
Proof.
  intros En Ec He. destruct (read_at_entry l1 e l2) as (R1 & _ & R3). cbn zeta in R1, R3.
  pose proof (len_nonneg (wenc_all l1)). pose proof (wsize_pos e).
  unfold read_whole.
  rewrite (bind_ok _ _ _ _ _ (read_tw n ino app pos out _ 4 (len (wenc_all l1)) m1 En Ec
    ltac:(done) ltac:(done) ltac:(by rewrite R1))). rewrite R1.
  rewrite <-(right_id_L [] (++) (whdr e)) at 1 2.
  rewrite word_len_hdr, meaning_len_hdr by done. fold (wsize e).
  rewrite (read_tw n ino app pos out _ (wsize e) (len (wenc_all l1)) m2 En Ec) by
    (first [done|lia|by rewrite R3, len_wenc]). by rewrite R3.
Qed.

Lemma read_entry_fields e :
  w_ok e → let p := (whdr e, we_word e ++ we_meaning e) in
  read_word p = wkey e ∧ read_size p = wsize e ∧ p.1 ++ p.2 = wenc e.
Proof.
  intros He p. unfold read_word, read_size, p, wkey, wsize. simpl.
  change (whdr e) with (whdr e ++ []).
  rewrite word_len_hdr, meaning_len_hdr by done. split_and!; [|done|done].
  f_equal. unfold len. rewrite Nat2Z.id. by rewrite take_app_length.
Qed.

(** Passing an entry and writing one. *)
Lemma ist_note pc ph out e :
  note_entry (wkey e) (wsize e) (ist pc ph out) = ist pc ph (out ++ [e]).
Proof.
  unfold note_entry, ist. simpl. rewrite index_snoc. f_equal.
  autorewrite with go. lia.
Qed.
Lemma ist_cur pc ph out e :
  advance (wsize e) 0 (ist pc ph out) = ist (pc ++ [e]) ph out.
Proof. unfold advance, ist. simpl. f_equal; autorewrite with go; lia. Qed.
Lemma ist_ch pc ph out e :
  advance 0 (wsize e) (ist pc ph out) = ist pc (ph ++ [e]) out.
Proof. unfold advance, ist. simpl. f_equal; autorewrite with go; lia. Qed.
Lemma ist_both pc ph out e h :
  advance (wsize e) (wsize h) (ist pc ph out) = ist (pc ++ [e]) (ph ++ [h]) out.
Proof. unfold advance, ist. simpl. f_equal; autorewrite with go; lia. Qed.

(** An offset is below the end of the file when an entry is left. *)
Lemma off_ltb l pc c :
  l = pc ++ c →
  (len (wenc_all pc) <? len (wenc_all l)) = match c with [] => false | _ => true end.
Proof.
  intros ->. destruct c as [|e c]; autorewrite with go; [apply Z.ltb_ge; lia|].
  apply Z.ltb_lt. pose proof (wsize_pos e). pose proof (len_nonneg (wenc_all c)). lia.
Qed.

Lemma ok_next l pc e c : Forall w_ok l → l = pc ++ e :: c → w_ok e.
Proof. intros H ->. by apply Forall_app in H as [_ [? _]%Forall_cons]. Qed.

Lemma appendCurrent_spec fuel pc c ph out :
  cur = pc ++ c → (length c < fuel)%nat →
  appendCurrent fuel (Some cn) (Some tn) (len (wenc_all cur)) (ist pc ph out) (ts out) =
    (Ok (ist cur ph (out ++ c)), ts (out ++ c)).
Proof.
  revert pc c out. induction fuel as [|fuel IH]; intros pc c out E Hf; [lia|].
  destruct (tw_cur (wenc_all out)) as [En Ec].
  cbn [appendCurrent currentFileOffset ist]. rewrite (off_ltb _ _ _ E).
  destruct c as [|e c].
  { rewrite (right_id_L [] (++)) in *. by subst pc. }
  pose proof (ok_next _ _ _ _ Hcok E) as He.
  rewrite E in Ec. rewrite (bind_ok _ _ _ _ _ (read_whole_tw _ _ _ _ out _ _ _ _ _ En Ec He)).
  destruct (whole_entry e He) as (Hw & Hs & _). rewrite Hw, Hs.
  rewrite (bind_ok _ _ _ _ _ (write_tw out e _ _ He)).
  change (mkImport _ _ _ _) with (ist pc ph out). rewrite ist_note, ist_cur.
  rewrite (IH (pc ++ [e]) c); [by rewrite <-(assoc_L (++))|by rewrite <-(assoc_L (++))|simpl in Hf; lia].
Qed.

Lemma appendChangeLog_spec fuel pc ph h out :
  ch = ph ++ h → (length h < fuel)%nat →
  appendChangeLog fuel (Some hn) (Some tn) (len (wenc_all ch)) (ist pc ph out) (ts out) =
    (Ok (ist pc ch (out ++ h)), ts (out ++ h)).
Proof.
  revert ph h out. induction fuel as [|fuel IH]; intros ph h out E Hf; [lia|].
  destruct (tw_ch (wenc_all out)) as [En Ec].
  cbn [appendChangeLog changeLogFileOffset ist]. rewrite (off_ltb _ _ _ E).
  destruct h as [|e h].
  { rewrite (right_id_L [] (++)) in *. by subst ph. }
  pose proof (ok_next _ _ _ _ Hhok E) as He.
  rewrite E in Ec. rewrite (bind_ok _ _ _ _ _ (read_whole_tw _ _ _ _ out _ _ _ _ _ En Ec He)).
  destruct (whole_entry e He) as (Hw & Hs & _). rewrite Hw, Hs.
  change (mkImport _ _ _ _) with (ist pc ph out). rewrite ist_note.
  rewrite (bind_ok _ _ _ _ _ (write_tw out e _ _ He)). rewrite ist_ch.
  rewrite (IH (ph ++ [e]) h); [by rewrite <-(assoc_L (++))|by rewrite <-(assoc_L (++))|simpl in Hf; lia].
Qed.

Lemma mergeLoop_spec fuel pc c ph h out :
  cur = pc ++ c → ch = ph ++ h → (length c + length h < fuel)%nat →
  ∃ pc' c' ph' h' out',
    mergeLoop fuel (Some cn) (Some hn) (Some tn) (len (wenc_all cur)) (len (wenc_all ch))
      (ist pc ph out) (ts out) = (Ok (ist pc' ph' out'), ts out') ∧
    cur = pc' ++ c' ∧ ch = ph' ++ h' ∧
    out ++ merge_entries c h = out' ++ c' ++ h' .
Proof.
  revert pc c ph h out. induction fuel as [|fuel IH]; intros pc c ph h out E1 E2 Hf; [lia|].
  cbn [mergeLoop currentFileOffset changeLogFileOffset ist].
  rewrite (off_ltb _ _ _ E1), (off_ltb _ _ _ E2).
  destruct c as [|e c].
  { exists pc, [], ph, h, out. split_and!; [done..|]. by rewrite merge_nil_l. }
  destruct h as [|g h].
  { exists pc, (e :: c), ph, [], out. split_and!; [done..|].
    by rewrite merge_nil_r, (right_id_L [] (++)). }
  cbn [andb].
  pose proof (ok_next _ _ _ _ Hcok E1) as He.
  pose proof (ok_next _ _ _ _ Hhok E2) as Hg.
  destruct (tw_cur (wenc_all out)) as [En Ec]. rewrite E1 in Ec.
  destruct (tw_ch (wenc_all out)) as [Em Ed]. rewrite E2 in Ed.
  rewrite (bind_ok _ _ _ _ _ (read_entry_tw _ _ _ _ out _ _ _ _ _ En Ec He)).
  rewrite (bind_ok _ _ _ _ _ (read_entry_tw _ _ _ _ out _ _ _ _ _ Em Ed Hg)).
  destruct (read_entry_fields e He) as (Fe1 & Fe2 & Fe3).
  destruct (read_entry_fields g Hg) as (Fg1 & Fg2 & Fg3).
  rewrite Fe1, Fe2, Fg1, Fg2, merge_cons. simpl in Hf.
  change (mkImport _ _ _ _) with (ist pc ph out).
  destruct (String.compare (wkey e) (wkey g)).
  - rewrite Fg1, Fg2, Fg3, ist_both. rewrite (bind_ok _ _ _ _ _ (write_tw out g _ _ Hg)).
    rewrite ist_note.
    destruct (IH (pc ++ [e]) c (ph ++ [g]) h (out ++ [g])) as (pc' & c' & ph' & h' & out' & E & R);
      [by rewrite <-(assoc_L (++))..|lia|].
    exists pc', c', ph', h', out'. split; [done|]. by rewrite <-(assoc_L (++)) in R.
  - rewrite Fe1, Fe2, Fe3, ist_cur. rewrite (bind_ok _ _ _ _ _ (write_tw out e _ _ He)).
    rewrite ist_note.
    destruct (IH (pc ++ [e]) c ph (g :: h) (out ++ [e])) as (pc' & c' & ph' & h' & out' & E & R);
      [by rewrite <-(assoc_L (++))|done|simpl; lia|].
    exists pc', c', ph', h', out'. split; [done|]. by rewrite <-(assoc_L (++)) in R.
  - rewrite Fg1, Fg2, Fg3, ist_ch. rewrite (bind_ok _ _ _ _ _ (write_tw out g _ _ Hg)).
    rewrite ist_note.
    destruct (IH pc (e :: c) (ph ++ [g]) h (out ++ [g])) as (pc' & c' & ph' & h' & out' & E & R);
      [done|by rewrite <-(assoc_L (++))|simpl; lia|].
    exists pc', c', ph', h', out'. split; [done|]. by rewrite <-(assoc_L (++)) in R.
Qed.

Lemma length_wenc_all l : (length l ≤ Z.to_nat (len (wenc_all l)))%nat.
Proof.
  induction l as [|e l IH]; [simpl; lia|]. rewrite wenc_all_cons, len_app, len_wenc.
  pose proof (wsize_pos e). pose proof (len_nonneg (wenc_all l)). simpl. lia.
Qed.

Lemma mergeFilesInto_spec :
  mergeFilesInto (Some cn) (Some hn) (Some tn) (len (wenc_all cur)) (len (wenc_all ch))
    (ts []) = (Ok (ist cur ch (merge_entries cur ch)), ts (merge_entries cur ch)).
Proof.
  pose proof (length_wenc_all cur). pose proof (length_wenc_all ch).
  unfold mergeFilesInto. cbn zeta.
  set (fuel := S (Z.to_nat (len (wenc_all cur)) + Z.to_nat (len (wenc_all ch)))).
  destruct (mergeLoop_spec fuel [] cur [] ch []) as (pc & c & ph & h & out & E & E1 & E2 & R);
    [done|done|unfold fuel; lia|].
  change (mkImport 0 0 ∅ 0) with (ist [] [] []).
  rewrite (bind_ok _ _ _ _ _ E).
  assert (length c ≤ length cur ∧ length h ≤ length ch)%nat as [Hl1 Hl2].
  { rewrite E1, E2, !length_app. lia. }
  rewrite (bind_ok _ _ _ _ _ (appendCurrent_spec fuel pc c ph out E1 ltac:(unfold fuel; lia))).
  rewrite (appendChangeLog_spec fuel cur ph h (out ++ c) E2 ltac:(unfold fuel; lia)).
  by rewrite <-(assoc_L (++)), <-R.
Qed.
End loops.

(** * The whole import *)

Lemma defer_ok {S A} (c : M S unit) (m : M S A) s a s1 r s2 :
  m s = (Ok a, s1) → c s1 = (r, s2) → defer c m s = (Ok a, s2).
Proof. intros E1 E2. unfold defer. by rewrite E1, E2. Qed.

(** Closing a file twice changes nothing the second time. *)
Lemma Close_closed w n f :
  w_fd w !! n = Some f → fd_open f = false → Close (Some n) w = (Err ErrClosed, w).
Proof. intros E F. unfold Close. apply bind_err. unfold resolve. by rewrite E, F. Qed.

Lemma ignore_err {S A} (m : M S A) s e s' : m s = (Err e, s') → ignore m s = (Ok tt, s').
Proof. intros E. unfold ignore. by rewrite (bind_ok _ _ _ _ _ (attempt_err _ _ _ _ E)). Qed.

(** The last part of [Import], from the world the loops leave. *)
Section swap.
Variables (d : WordDictionary) (w : World) (cn tn ci ti : nat) (cpos tpos : Z).
Hypothesis Hnf : w_faults w = [].
Hypothesis Hwf : wf_world w.
Hypothesis Hc : w_fd w !! cn = Some (mkFd ci true cpos true).
Hypothesis Ht : w_fd w !! tn = Some (mkFd ti false tpos true).
Hypothesis Hd : w_dir w !! tempFilePath = Some ti.
Hypothesis Hne : cn ≠ tn.

(** The world with both handles closed, the file renamed and opened again. *)
Definition swapped : World :=
  with_fd ti true (set_dir (λ m, <[FilePath := ti]> (delete tempFilePath m))
    (set_fd (insert cn (mkFd ci true cpos false))
      (set_fd (insert tn (mkFd ti false tpos false)) w))).

Lemma swapped_wf : wf_world swapped.
Proof.
  apply wf_with_fd, wf_rename; [done|].
  apply wf_set_fd; [by apply (wf_fd w Hwf); eexists|].
  apply wf_set_fd; [by apply (wf_fd w Hwf); eexists|done].
Qed.

Lemma swapped_fd :
  w_fd swapped !! w_next w = Some (mkFd ti true 0 true) ∧
  w_fd swapped !! tn = Some (mkFd ti false tpos false) ∧
  (∀ k f, w_fd w !! k = Some f → k ≠ cn → k ≠ tn → w_fd swapped !! k = Some f).
Proof.
  assert (∀ k, is_Some (w_fd w !! k) → k ≠ w_next w) as Hk.
  { intros k Hs. apply (wf_fd w Hwf) in Hs. lia. }
  unfold swapped. simpl. rewrite lookup_insert_eq. split_and!; [done|..].
  - rewrite lookup_insert_ne by (symmetry; apply Hk; by eexists).
    rewrite lookup_insert_ne by done. by rewrite lookup_insert_eq.
  - intros k f Hf N1 N2. rewrite !lookup_insert_ne; try done.
    symmetry. apply Hk. by eexists.
Qed.

Lemma swap_spec i tm lim size :
  mergeFilesInto (Some cn) lim (Some tn) (currentOffset d) size (mkDState d (Some cn) i) =
    (Ok tm, mkDState d (Some cn) w) →
  importInto lim (Some tn) size (mkDState d (Some cn) i) =
    (Ok tt, mkDState (mkDict (tempMetaMap tm) (tempFileOffset tm)) (Some (w_next w)) swapped).
Proof.
  intros E. unfold importInto. unfold bind at 1, get_st.
  cbn [file dict]. rewrite (bind_ok _ _ _ _ _ E).
  set (s0 := mkDState d (Some cn) w).
  rewrite (bind_ok _ _ s0 tt s0).
  2: { apply (ignore_ok _ _ tt). by rewrite (ondisk_ok _ s0 _ _ (Sync_fd w Hnf tn _ Ht eq_refl)). }
  pose proof (Close_fd w Hnf tn _ Ht eq_refl) as E1. cbn [fd_ino fd_append fd_pos] in E1.
  rewrite (bind_ok _ _ _ _ _ (ignore_ok _ _ _ _ (ondisk_ok _ s0 _ _ E1))).
  set (w1 := set_fd (insert tn (mkFd ti false tpos false)) w).
  assert (w_fd w1 !! cn = Some (mkFd ci true cpos true)) as Hc1.
  { unfold w1. simpl. by rewrite lookup_insert_ne. }
  pose proof (Close_fd w1 Hnf cn _ Hc1 eq_refl) as E2. cbn [fd_ino fd_append fd_pos] in E2.
  rewrite (bind_ok _ _ _ _ _ (ignore_ok _ _ _ _ (ondisk_ok _ (mkDState d (Some cn) w1) _ _ E2))).
  set (w2 := set_fd (insert cn (mkFd ci true cpos false)) w1).
  rewrite (bind_ok _ _ _ _ _ (wrap_ok _ _ _ _ _ (ondisk_ok _ (mkDState d (Some cn) w2) _ _
    (Rename_nf w2 tempFilePath FilePath ti Hnf Hd)))).
  set (w3 := set_dir (λ m, <[FilePath := ti]> (delete tempFilePath m)) w2).
  assert (w_dir w3 !! FilePath = Some ti) as Hd3 by (unfold w3; simpl; by rewrite lookup_insert_eq).
  rewrite (bind_ok _ _ _ _ _ (attempt_ok _ _ _ _ (ondisk_ok _ (mkDState d (Some cn) w3) _ _
    (OpenFile_existing w3 FilePath ti true true Hnf Hd3)))). done.
Qed.
End swap.

Lemma tw_nil w n i :
  w_fd w !! n = Some (mkFd i false 0 true) → w_ino w !! i = Some [] → tw w n i [] = w.
Proof.
  intros E1 E2. unfold tw, set_fd, set_ino. simpl. rewrite len_nil.
  rewrite !insert_id by done. by destruct w.
Qed.

Lemma temp_not_current : tempFilePath ≠ FilePath.
Proof. done. Qed.

(** Opening the change log and the temporary file: where all three files are. *)
Lemma opened_files l s m p hi ch :
  DInv l s m → w_dir (dwd s) !! p = Some hi → w_ino (dwd s) !! hi = Some ch →
  p ≠ tempFilePath →
  let hn := w_next (dwd s) in
  let w1 := with_fd hi false (dwd s) in
  let tn := w_next w1 in
  let ti := default tn (w_dir w1 !! tempFilePath) in
  let w2 := emptied tempFilePath w1 in
  ∃ cn ci pos, file s = Some cn ∧ w_fd w2 !! cn = Some (mkFd ci true pos true) ∧
    w_fd w2 !! hn = Some (mkFd hi false 0 true) ∧
    w_fd w2 !! tn = Some (mkFd ti false 0 true) ∧
    w_ino w2 !! ci = Some (wenc_all l) ∧ w_ino w2 !! hi = Some ch ∧
    w_ino w2 !! ti = Some [] ∧ w_dir w2 !! tempFilePath = Some ti ∧
    (cn ≠ tn ∧ hn ≠ tn ∧ ci ≠ ti ∧ hi ≠ ti) ∧ cn ≠ hn ∧
    w_faults w2 = [] ∧ wf_world w2.
Proof.
  intros H Hp Hhi Hne hn w1 tn ti w2.
  pose proof (di_wf _ _ _ H) as W.
  destruct (di_file _ _ _ H) as (cn & ci & pos & Ef & En & Ed & Ei).
  assert (cn < hn)%nat as Hcn by (apply (wf_fd _ W); by eexists).
  assert (tn = S hn) as Htn by done.
  assert (∀ q i, q ≠ tempFilePath → w_dir (dwd s) !! q = Some i → i ≠ ti) as Hti.
  { intros q i Hq Hi ->. unfold ti in Hi. change (w_dir w1) with (w_dir (dwd s)) in Hi.
    destruct (w_dir (dwd s) !! tempFilePath) as [t|] eqn:Et; simpl in Hi.
    - apply Hq. by eapply (wf_dir_inj _ W).
    - destruct (wf_dir _ W _ _ Hi) as [b Hb].
      assert (tn < w_next (dwd s))%nat by (apply (wf_ino _ W); by eexists). lia. }
  pose proof (Hti _ _ (not_eq_sym temp_not_current) Ed) as Nci.
  pose proof (Hti _ _ Hne Hp) as Nhi.
  assert (∀ k, w_fd w2 !! k = <[tn := mkFd ti false 0 true]>
    (<[hn := mkFd hi false 0 true]> (w_fd (dwd s))) !! k) as Hfd by done.
  assert (∀ k, w_ino w2 !! k = <[ti := []]> (w_ino (dwd s)) !! k) as Hino by done.
  exists cn, ci, pos. split; [done|]. repeat apply conj; try done; try lia.
  - by rewrite Hfd, !lookup_insert_ne by lia.
  - by rewrite Hfd, lookup_insert_ne, lookup_insert_eq by lia.
  - by rewrite Hfd, lookup_insert_eq.
  - by rewrite Hino, lookup_insert_ne.
  - by rewrite Hino, lookup_insert_ne.
  - by rewrite Hino, lookup_insert_eq.
  - unfold w2, emptied. simpl. by rewrite lookup_insert_eq.
  - apply H.
  - by apply wf_emptied, wf_with_fd.
Qed.

(** The import around its loops: the files are opened, and closed again at the end. *)
Lemma Import_runs l s m p hi ch cn s4 s5 :
  DInv l s m → w_dir (dwd s) !! p = Some hi → w_ino (dwd s) !! hi = Some ch →
  file s = Some cn →
  let hn := w_next (dwd s) in
  let w1 := with_fd hi false (dwd s) in
  let tn := w_next w1 in
  importInto (Some hn) (Some tn) (len ch) (mkDState (dict s) (Some cn) (emptied tempFilePath w1)) =
    (Ok tt, s4) →
  ondisk (Close (Some tn)) s4 = (Err ErrClosed, s4) →
  ondisk (Close (Some hn)) s4 = (Ok tt, s5) →
  Import p s = (Ok tt, s5).
Proof.
  intros H Hp Hhi Ef hn w1 tn ES K1 K2. unfold Import.
  rewrite (bind_ok _ _ _ _ _ (wrap_ok _ _ _ _ _ (ondisk_ok _ s _ _
    (OpenFile_existing (dwd s) p hi false false (di_faults _ _ _ H) Hp)))).
  apply (defer_ok _ _ _ tt s4 (Ok tt)); [|by apply (ignore_ok _ _ tt)].
  pose proof (StatSize_fd w1 (di_faults _ _ _ H) hn (mkFd hi false 0 true)) as ESt.
  rewrite (bind_ok _ _ _ (len ch) (mkDState (dict s) (file s) w1)).
  2: { apply wrap_ok, (ondisk_ok _ (mkDState (dict s) (file s) w1)). simpl. fold hn.
       rewrite ESt; [|unfold w1; simpl; by rewrite lookup_insert_eq|done].
       simpl. unfold content, w1. simpl. by rewrite Hhi. }
  rewrite (bind_ok _ _ _ _ _ (wrap_ok _ _ _ _ _ (ondisk_ok _ (mkDState (dict s) (file s) w1)
    _ _ (OpenFile_trunc w1 tempFilePath (di_faults _ _ _ H))))).
  cbn [dict file]. rewrite Ef.
  apply (defer_ok _ _ _ tt s4 (Ok tt)); [exact ES|].
  by apply (ignore_err _ _ ErrClosed).
Qed.

(** The invariant does not depend on descriptors other than the dictionary's. *)
Lemma dinv_closed l s m k f f' :
  DInv l s m → file s ≠ Some k → w_fd (dwd s) !! k = Some f → fd_ino f' = fd_ino f →
  DInv l (mkDState (dict s) (file s) (set_fd (insert k f') (dwd s))) m.
Proof.
  intros [F W (n & ino & pos & Ef & En & Ed & Ei) O Ok Mp] Hne Hk Hf.
  constructor; cbn [dwd dict file]; try done.
  - by apply wf_set_fd; [apply (wf_fd _ W); eexists|].
  - exists n, ino, pos. split_and!; try done. cbn. rewrite lookup_insert_ne; [done|]. intros ->. by apply Hne.
Qed.

Lemma Import_spec l s m p hi ch :
  DInv l s m → w_dir (dwd s) !! p = Some hi → w_ino (dwd s) !! hi = Some (wenc_all ch) →
  Forall w_ok ch → p ≠ tempFilePath →
  ∃ s', Import p s = (Ok tt, s') ∧
    DInv (merge_entries l ch) s' (meanings (merge_entries l ch)).
Proof.
  intros H Hp Hhi Hok Hne.
  destruct (opened_files l s m p hi _ H Hp Hhi Hne) as
    (cn & ci & pos & Ef & Ecn & Ehn & Etn & Eci & Ehi & Eti & Edt & HN & Nch & F2 & W2).
  set (hn := w_next (dwd s)) in *. set (w1 := with_fd hi false (dwd s)) in *.
  set (tn := w_next w1) in *. set (ti := default tn (w_dir w1 !! tempFilePath)) in *.
  set (w2 := emptied tempFilePath w1) in *. set (out := merge_entries l ch).
  pose proof (mergeFilesInto_spec (dict s) w2 cn hn tn ci hi ti pos 0 false l ch F2 Ecn Ehn
    Eci Ehi HN (di_ok _ _ _ H) Hok) as EL.
  set (w3 := tw w2 tn ti (wenc_all out)).
  assert (w_fd w3 !! cn = Some (mkFd ci true pos true)) as E3c.
  { unfold w3, tw. simpl. by rewrite lookup_insert_ne by (symmetry; apply HN). }
  assert (w_fd w3 !! tn = Some (mkFd ti false (len (wenc_all out)) true)) as E3t.
  { unfold w3, tw. simpl. by rewrite lookup_insert_eq. }
  assert (wf_world w3) as W3.
  { apply wf_set_fd; [by apply (wf_fd _ W2); eexists|].
    apply wf_set_ino; [by eexists|done]. }
  pose proof (swap_spec (dict s) w3 cn tn ci ti pos _ F2 E3c E3t Edt (proj1 HN) w2
    (ist l ch out) (Some hn) (len (wenc_all ch))) as ES.
  unfold ts in EL. change (wenc_all []) with (@nil byte) in EL.
  rewrite (tw_nil _ _ _ Etn Eti) in EL. rewrite (di_off _ _ _ H) in ES. specialize (ES EL).
  set (w4 := swapped w3 cn tn ci ti pos (len (wenc_all out))) in *.
  destruct (swapped_fd w3 cn tn ci ti pos _ W3 E3t (proj1 HN)) as (E4n & E4t & E4k).
  pose proof (swapped_wf w3 cn tn ci ti pos _ W3 E3c E3t Edt) as W4.
  fold w4 in E4n, E4t, E4k, W4.
  assert (w_fd w4 !! hn = Some (mkFd hi false 0 true)) as E4h.
  { apply E4k; [|by intros ->|apply HN]. unfold w3, tw. simpl.
    rewrite lookup_insert_ne by (symmetry; apply HN). done. }
  pose proof (Close_closed w4 tn _ E4t eq_refl) as K1.
  pose proof (Close_fd w4 F2 hn _ E4h eq_refl) as K2. cbn [fd_ino fd_append fd_pos] in K2.
  set (s4 := mkDState (mkDict (index out) (len (wenc_all out))) (Some (w_next w3)) w4) in *.
  exists (mkDState (dict s4) (file s4) (set_fd (insert hn (mkFd hi false 0 false)) w4)). split.
  - by apply (Import_runs l s m p hi (wenc_all ch) cn s4 _ H Hp Hhi Ef ES (ondisk_ok _ s4 _ _ K1)),
      (ondisk_ok _ s4 _ _ K2).
  - apply (dinv_closed out s4 _ hn (mkFd hi false 0 true)); [|intros E|done|done].
    2: { assert (w_next w3 = hn) as N by exact (f_equal (default 0%nat) E). rewrite N, E4h in E4n. discriminate. }
    constructor; cbn [dwd dict file s4]; [exact F2|exact W4| |done|by apply merge_ok; [apply H|]|apply index_meanings].
    exists (w_next w3), ti, 0. split_and!; [done..| |].
    + unfold w4, swapped. simpl. by rewrite lookup_insert_eq.
    + change (w_ino w4) with (w_ino w3). unfold w3, tw. simpl. by rewrite lookup_insert_eq.
Qed.
