(* ===== verification/WordDictionaryTheorems.v ===== *)
(** What [word-dictionary/main.go] promises: insertions and look-ups are those of a
    map, an import of a sorted change log is a union of maps, a failing import
    leaves the dictionary as it was; and where it breaks. *)

From stdpp Require Import gmap strings list fin_maps sorting.
From Stdlib Require Import ZArith Lia.
From coqutil Require Byte.
From S2P Require Import Prelude GoLib GoFS WordDictionary WordDictionarySpec.
From S2P Require Import WordDictionaryImport.
Import WordDict.

(** * A dictionary for the witnesses *)

(** The start of the program: [init], then [NewWordDictionary]. *)
Definition start : M DState unit :=
  do! init in let! d := NewWordDictionary in modify (set_dict (λ _, d)).
Definition blank (w : World) : DState := mkDState (mkDict ∅ 0) None w.
Definition fresh : DState := (start (blank empty_world)).2.

(** Insertions one after the other. *)
Fixpoint insert_all (ps : list (string * string)) : M DState unit :=
  match ps with
  | [] => ret tt
  | (word, meaning) :: ps => do! Insert word meaning in insert_all ps
  end.

Definition demo_words : list (string * string) :=
  [("Apple", "A fruit"); ("Ball", "A Ball"); ("Cat", "A Cat")]%string.
Definition demo_dict : DState := (insert_all demo_words fresh).2.

(** A dictionary of the entries [l] beside a change log of the entries [ch]. *)
Definition disk (l ch : list wentry) : World :=
  mkWorld (<[FilePath := 0%nat]> (<["./change_log"%string := 1%nat]> ∅))
    (<[0%nat := wenc_all l]> (<[1%nat := wenc_all ch]> ∅))
    (<[2%nat := mkFd 0 true 0 true]> ∅) 3 [].
Definition dict_of (l ch : list wentry) : DState :=
  mkDState (mkDict (index l) (len (wenc_all l))) (Some 2%nat) (disk l ch).
Definition faulty (fs : list (option nat)) (s : DState) : DState :=
  mkDState (dict s) (file s) (set_faults fs (dwd s)).

Definition demo_entries : list wentry :=
  (λ p, mkWentry (bytes_of p.1) (bytes_of p.2)) <$> demo_words.
Definition demo_log : list wentry :=
  [mkWentry (bytes_of "Ball") (bytes_of "Round"); mkWentry (bytes_of "Bat") (bytes_of "Flies")].

Lemma DInv_disk l ch : Forall w_ok l → DInv l (dict_of l ch) (meanings l).
Proof.
  intros Hl. constructor; [done| | |done|done|apply index_meanings].
  - constructor; simpl.
    + intros p i [[<- <-]|[_ [[<- <-]|[_ H]]%lookup_insert_Some]]%lookup_insert_Some;
        [by eexists|by eexists|by rewrite lookup_empty in H].
    + intros p q i [[<- <-]|[_ [[<- <-]|[_ H]]%lookup_insert_Some]]%lookup_insert_Some
        [[<- ?]|[_ [[<- ?]|[_ H']]%lookup_insert_Some]]%lookup_insert_Some;
        try done; by rewrite lookup_empty in *.
    + intros i [b [[<- _]|[_ [[<- _]|[_ H]]%lookup_insert_Some]]%lookup_insert_Some];
        [lia|lia|by rewrite lookup_empty in H].
    + intros i [b [[<- _]|[_ H]]%lookup_insert_Some]; [lia|by rewrite lookup_empty in H].
  - by exists 2%nat, 0%nat, 0.
Qed.

(** [DInv] on a concrete state, by computation. *)
Lemma DInv_fresh : DInv [] fresh ∅.
Proof.
  constructor.
  - by vm_compute.
  - assert (dwd fresh = opened FilePath true empty_world) as -> by done.
    apply wf_opened. constructor; simpl; intros *; rewrite ?lookup_empty; try done;
      by intros [? ?].
  - by exists 0%nat, 0%nat, 0.
  - by vm_compute.
  - constructor.
  - done.
Qed.

(** The entries that insertions append, in order. *)
Fixpoint inserted (ps : list (string * string)) (m : gmap string string) : list wentry :=
  match ps with
  | [] => []
  | (word, meaning) :: ps => insert_file word meaning m ++ inserted ps (insert_map word meaning m)
  end.

Lemma insert_all_spec ps l s m :
  DInv l s m →
  Forall (λ p, len (bytes_of p.1) < 2 ^ 8 ∧ len (bytes_of p.2) < 2 ^ 24) ps →
  ∃ s', insert_all ps s = (Ok tt, s') ∧
    DInv (l ++ inserted ps m) s' (fold_left (λ m p, insert_map p.1 p.2 m) ps m) ∧
    others_kept (dwd s) (dwd s').
Proof.
  revert l s m. induction ps as [|[w x] ps IH]; intros l s m H F.
  { exists s. simpl. rewrite (right_id_L [] (++)). by split_and!. }
  apply Forall_cons in F as [[F1 F2] F].
  destruct (Insert_spec l s m w x H F1 F2) as (s1 & E1 & H1 & O1).
  destruct (IH _ s1 _ H1 F) as (s2 & E2 & H2 & O2).
  exists s2. simpl. rewrite (assoc_L (++)). split_and!; [|done|by etrans].
  by rewrite (bind_ok _ _ _ _ _ E1).
Qed.

(** * Insertions and look-ups *)

(** C14: Insertions of words that fit succeed, and every look-up then gives the first
    meaning inserted of the word, or the empty string: the dictionary is a map on
    which later insertions of a word do nothing. *)
Theorem insert_get_first l s m ps :
  DInv l s m →
  Forall (λ p, len (bytes_of p.1) < 2 ^ 8 ∧ len (bytes_of p.2) < 2 ^ 24) ps →
  ∃ s', insert_all ps s = (Ok tt, s') ∧ ∀ word,
    GetMeaning word s' =
      (Ok (default EmptyString (fold_left (λ m p, insert_map p.1 p.2 m) ps m !! word)), s').
Proof.
  intros H F. destruct (insert_all_spec ps l s m H F) as (s' & E & H' & _).
  exists s'. split; [done|]. intros word. by eapply GetMeaning_spec.
Qed.

Lemma insert_get_first_witness :
  ∃ s', insert_all (demo_words ++ [("Ball", "again")]%string) fresh = (Ok tt, s') ∧ ∀ word,
    GetMeaning word s' =
      (Ok (default EmptyString (fold_left (λ m p, insert_map p.1 p.2 m)
        (demo_words ++ [("Ball", "again")]%string) ∅ !! word)), s').
Proof. apply (insert_get_first [] fresh ∅ _ DInv_fresh). repeat constructor. Defined.

(** The header of an entry whose word is shorter than 256 bytes and whose meaning is
    shorter than 2^24 gives both lengths back, so that the word and the meaning are
    cut out of the entry as they went in. *)
Theorem word_entry_roundtrip word meaning :
  len word < 2 ^ 8 → len meaning < 2 ^ 24 →
  let e := encode_word word meaning in
  len e = 4 + len word + len meaning ∧
  word_len e = len word ∧ meaning_len e = len meaning ∧
  slice 4 (word_len e) e = word ∧ slice (4 + word_len e) (meaning_len e) e = meaning.
Proof.
  intros Hw Hm e. set (r := mkWentry word meaning).
  assert (w_ok r) as Hr by done.
  destruct (whole_entry r Hr) as (Ek & Es & Em). change (wenc r) with e in *.
  assert (word_len e = len word) as Ew by by apply (word_len_hdr r).
  split_and!; [apply (len_wenc r)|done|by apply (meaning_len_hdr r)| |done].
  by apply string_of_inj.
Qed.

Lemma word_entry_roundtrip_witness :
  let word := bytes_of "Cat" in let meaning := bytes_of "A Cat" in
  let e := encode_word word meaning in
  len e = 4 + len word + len meaning ∧
  word_len e = len word ∧ meaning_len e = len meaning ∧
  slice 4 (word_len e) e = word ∧ slice (4 + word_len e) (meaning_len e) e = meaning.
Proof. apply (word_entry_roundtrip (bytes_of "Cat") (bytes_of "A Cat")); by vm_compute. Defined.

(** * Import *)

(** C3: The import of a sorted change log into a sorted dictionary file succeeds; the new
    file is sorted, and the dictionary then is the union of the two maps, the
    change log winning. *)
Theorem import_is_union l s m p hi ch :
  DInv l s m → sorted l → sorted ch →
  w_dir (dwd s) !! p = Some hi → w_ino (dwd s) !! hi = Some (wenc_all ch) →
  Forall w_ok ch → p ≠ tempFilePath →
  ∃ l' s', Import p s = (Ok tt, s') ∧ sorted l' ∧
    DInv l' s' (meanings ch ∪ meanings l) ∧
    ∀ word, GetMeaning word s' =
      (Ok (default EmptyString ((meanings ch ∪ meanings l) !! word)), s').
Proof.
  intros H Hl Hc Hp Hi Hok Hne.
  destruct (Import_spec l s m p hi ch H Hp Hi Hok Hne) as (s' & E & H').
  rewrite (merge_union l ch Hl Hc) in H'.
  exists (merge_entries l ch), s'. split_and!; [done|by apply merge_sorted|done|].
  intros word. by apply (GetMeaning_spec _ _ _ _ H').
Qed.

Lemma import_is_union_witness :
  ∃ l' s', Import "./change_log" (dict_of demo_entries demo_log) = (Ok tt, s') ∧ sorted l' ∧
    DInv l' s' (meanings demo_log ∪ meanings demo_entries) ∧
    ∀ word, GetMeaning word s' =
      (Ok (default EmptyString ((meanings demo_log ∪ meanings demo_entries) !! word)), s').
Proof.
  apply (import_is_union demo_entries (dict_of demo_entries demo_log) (meanings demo_entries)
    "./change_log" 1 demo_log); try done; try by repeat constructor.
  apply DInv_disk. by repeat constructor.
Defined.

(** What a failing import must not touch: the index, and the bytes of the
    dictionary file. *)
Definition untouched (d : WordDictionary) (ci : nat) (b : bytes) (n : nat) (s : DState) : Prop :=
  dict s = d ∧ apart FilePath ci b n (dwd s).

Lemma untouched_ondisk {A} d ci b n (m : M World A) :
  preserves (apart FilePath ci b n) m → preserves (untouched d ci b n) (ondisk m).
Proof.
  intros Hm s [Hd Hw]. unfold ondisk, zoom. specialize (Hm _ Hw).
  destruct (m (dwd s)) as [r w]. by split.
Qed.
#[export] Hint Resolve untouched_ondisk : preserves.

Lemma untouched_loops d ci b n fuel cur log lim size i :
  preserves (untouched d ci b n) (mergeLoop fuel cur log (Some n) lim size i) ∧
  preserves (untouched d ci b n) (appendCurrent fuel cur (Some n) lim i) ∧
  preserves (untouched d ci b n) (appendChangeLog fuel log (Some n) size i).
Proof.
  revert i. induction fuel as [|fuel IH]; intros i; [by split_and!; intros s|].
  assert (∀ m1 m2 e z, preserves (untouched d ci b n) (write_temp (Some n) m1 m2 e z)) as Hw.
  { intros m1 m2 e z. unfold write_temp. preserves_tac. }
  assert (∀ h o m1 m2, preserves (untouched d ci b n) (read_entry h o m1 m2)) as Hr.
  { intros h o m1 m2. unfold read_entry. preserves_tac. }
  assert (∀ h o m1 m2, preserves (untouched d ci b n) (read_whole h o m1 m2)) as Hr'.
  { intros h o m1 m2. unfold read_whole. preserves_tac. }
  split_and!; simpl; (case_match; [|apply preserves_ret]).
  - apply preserves_bind; [apply Hr|intros c]. apply preserves_bind; [apply Hr|intros h].
    case_match. apply preserves_bind; [apply Hw|intros _]. apply IH.
  - apply preserves_bind; [apply Hr'|intros c]. apply preserves_bind; [apply Hw|intros _].
    apply IH.
  - apply preserves_bind; [apply Hr'|intros c]. apply preserves_bind; [apply Hw|intros _].
    apply IH.
Qed.

Lemma untouched_files d ci b n cur log lim size :
  preserves (untouched d ci b n) (mergeFilesInto cur log (Some n) lim size).
Proof.
  unfold mergeFilesInto. cbn zeta. set (fuel := S _).
  assert (∀ i, _) as H by exact (untouched_loops d ci b n fuel cur log lim size).
  apply preserves_bind; [by destruct (H (mkImport 0 0 ∅ 0))|intros i].
  apply preserves_bind; [by destruct (H i) as (_ & ? & _)|intros i'].
  by destruct (H i') as (_ & _ & ?).
Qed.

(** The one error after the rename. *)
Definition reopen_error (e : goerr) : Prop := ∃ e', e = ErrWrap "reopening file failed" e'.

(** Every run of a guarded call starts by taking a fault. *)
Ltac guarded_split :=
  match goal with |- context [guarded ?m ?w] =>
    let fs := fresh "fs" in let E := fresh "E" in
    destruct (guarded_spec m w) as (fs & _ & [[E _]|E]); rewrite E; clear E end.

Lemma importInto_spares d ci b n log size :
  spares reopen_error (untouched d ci b n) (untouched d ci b n)
    (importInto log (Some n) size).
Proof.
  unfold importInto.
  apply (spares_bind _ _ _ _ (λ _, untouched d ci b n)); [by intros s|intros s0].
  apply (spares_bind _ _ _ _ (λ _, untouched d ci b n)).
  { apply preserves_leads; [apply untouched_files|done]. }
  intros i. do 3 (apply (spares_bind _ _ _ _ (λ _, untouched d ci b n));
    [apply preserves_leads; [preserves_tac|done]|intros _]).
  intros s [H1 H2]. unfold bind at 1, wrap_err, ondisk at 1, zoom, Rename.
  guarded_split; [by right; split; [|apply apart_faults]|].
  simpl. destruct (w_dir (dwd s) !! tempFilePath).
  2: { by right; split; [|apply (apart_faults _ _ _ _ fs)]. }
  unfold bind, attempt, ondisk, zoom, OpenFile.
  guarded_split; [by left; eexists|]. simpl. by destruct (_ !! FilePath).
Qed.

(** What of the state an error must not change, and what an import starts from. *)
Definition same_dictionary (d : WordDictionary) (ci : nat) (b : bytes) (s : DState) : Prop :=
  dict s = d ∧ w_dir (dwd s) !! FilePath = Some ci ∧ w_ino (dwd s) !! ci = Some b.
Definition intact (d : WordDictionary) (ci : nat) (b : bytes) (s : DState) : Prop :=
  same_dictionary d ci b s ∧ wf_world (dwd s).

Lemma intact_faults d ci b h s fs :
  intact d ci b s → intact d ci b (mkDState (dict s) h (set_faults fs (dwd s))).
Proof. intros [H1 H2]. split; [done|by apply wf_set_faults]. Qed.

Lemma intact_open_log d ci b msg p :
  leads (intact d ci b) (wrap_err msg (ondisk (OpenFile p (mkFlags false false false))))
    (λ _, intact d ci b) (same_dictionary d ci b).
Proof.
  intros s Hs. unfold wrap_err, ondisk, zoom, OpenFile.
  guarded_split; apply (intact_faults _ _ _ (file s) _ fs) in Hs; [apply Hs|]. simpl.
  destruct (w_dir (dwd s) !! p) as [i|]; [|apply Hs].
  destruct Hs as [H1 H2]. split; [done|by apply (wf_with_fd i false (set_faults fs (dwd s)))].
Qed.

Lemma intact_stat d ci b msg h :
  leads (intact d ci b) (wrap_err msg (ondisk (StatSize h)))
    (λ _, intact d ci b) (same_dictionary d ci b).
Proof.
  intros s Hs. unfold wrap_err, ondisk, zoom, StatSize, bind, resolve.
  destruct h as [k|]; [|apply Hs]. destruct (w_fd (dwd s) !! k) as [f|]; [|apply Hs].
  destruct (fd_open f); [|apply Hs].
  guarded_split; apply (intact_faults _ _ _ (file s) _ fs) in Hs; [apply Hs|done].
Qed.

(** The temporary file is another inode. *)
Lemma intact_open_temp d ci b msg :
  leads (intact d ci b) (wrap_err msg (ondisk (OpenFile tempFilePath (mkFlags true false true))))
    (λ h s, ∃ n, h = Some n ∧ untouched d ci b n s) (same_dictionary d ci b).
Proof.
  intros s Hs. unfold wrap_err, ondisk, zoom, OpenFile.
  guarded_split; apply (intact_faults _ _ _ (file s) _ fs) in Hs; [apply Hs|].
  destruct Hs as [(H1 & H3 & H4) H2]. simpl in *.
  assert (ci ≠ w_next (dwd s)) as Hci.
  { intros ->. assert (w_next (dwd s) < w_next (dwd s))%nat; [|lia].
    apply (wf_ino _ H2). by eexists. }
  destruct (w_dir (dwd s) !! tempFilePath) as [i|] eqn:Et;
    exists (w_next (dwd s)); (split; [done|]); (split; [done|]).
  - assert (i ≠ ci) as Hi.
    { intros ->. apply temp_not_current. by eapply (wf_dir_inj _ H2). }
    constructor; simpl; [done|by rewrite lookup_insert_ne|].
    rewrite lookup_insert_eq. by eexists.
  - constructor; simpl.
    + rewrite lookup_insert_ne; done.
    + by rewrite lookup_insert_ne.
    + rewrite lookup_insert_eq. by eexists.
Qed.

Lemma same_close d ci b h : preserves (same_dictionary d ci b) (ignore (ondisk (Close h))).
Proof.
  apply preserves_ignore. intros s (H1 & H2 & H3). unfold ondisk, zoom, Close, bind, resolve.
  destruct h as [k|]; [|by split_and!]. destruct (w_fd (dwd s) !! k) as [f|]; [|by split_and!].
  destruct (fd_open f); [|by split_and!]. simpl. guarded_split; by split_and!.
Qed.

Lemma Import_spares d ci b p :
  spares reopen_error (intact d ci b) (same_dictionary d ci b) (Import p).
Proof.
  unfold Import.
  apply (spares_bind _ _ _ _ (λ _, intact d ci b)); [apply intact_open_log|intros log].
  apply spares_defer; [apply same_close|].
  apply (spares_bind _ _ _ _ (λ _, intact d ci b)); [apply intact_stat|intros size].
  eapply spares_bind; [apply intact_open_temp|]. intros h s (n & -> & Hs).
  apply (spares_defer reopen_error (untouched d ci b n)); [apply same_close| |done].
  apply (spares_weaken _ _ _ (untouched d ci b n)); [|apply importInto_spares].
  intros s' [K1 [K2 K3 _]]. by split_and!.
Qed.

(** C21: Whatever faults the file system injects, and whatever the two files hold, an import
    that fails before the renamed file is opened again has changed neither the index
    nor the path of the dictionary file nor a byte of it. *)
Theorem import_error_untouched s p e s' ci b :
  wf_world (dwd s) → w_dir (dwd s) !! FilePath = Some ci → w_ino (dwd s) !! ci = Some b →
  Import p s = (Err e, s') →
  reopen_error e ∨
  (dict s' = dict s ∧ w_dir (dwd s') !! FilePath = Some ci ∧ w_ino (dwd s') !! ci = Some b).
Proof.
  intros W Hd Hi E.
  pose proof (Import_spares (dict s) ci b p s (conj (conj eq_refl (conj Hd Hi)) W)) as H.
  by rewrite E in H.
Qed.

Lemma fst_eq {A B} (x : A * B) a : x.1 = a → x = (a, x.2).
Proof. destruct x. by intros <-. Qed.

(** An import whose fourth system call fails. *)
Definition failing_import : DState :=
  faulty [None; None; None; Some 0%nat] (dict_of demo_entries demo_log).

Lemma import_error_untouched_witness :
  let e := ErrWrap "reading current file length bytes" ErrIO in
  let s' := (Import "./change_log" failing_import).2 in
  Import "./change_log" failing_import = (Err e, s') ∧
  (reopen_error e ∨
   (dict s' = dict failing_import ∧ w_dir (dwd s') !! FilePath = Some 0%nat ∧
    w_ino (dwd s') !! 0%nat = Some (wenc_all demo_entries))).
Proof.
  assert ((Import "./change_log" failing_import).1 =
    Err (ErrWrap "reading current file length bytes" ErrIO)) as E1 by by vm_compute.
  pose proof (fst_eq _ _ E1) as E.
  split; [exact E|].
  apply (import_error_untouched failing_import "./change_log" _ _ 0%nat); [|by vm_compute|by vm_compute|exact E].
  apply wf_set_faults, (di_wf demo_entries (dict_of demo_entries demo_log) (meanings demo_entries)).
  apply DInv_disk. by repeat constructor.
Defined.

(** * Where the dictionary breaks *)

(** A word of 256 bytes. *)
Definition long_word : string := string_of (replicate 256 (to_byte 97)).

(** Nothing checks that a word fits its one-byte length: a word of 256 bytes is stored
    with length 0, and its look-up succeeds with bytes of the word in place of the
    meaning. *)
Theorem long_word_wrong_meaning :
  ((do! Insert long_word "m" in GetMeaning long_word) fresh).1 = Ok "a"%string.
Proof. by vm_compute. Qed.

(** A write that fails half-way leaves its bytes in the file while the offset stays, so
    the next insertion reports success and is indexed at the wrong place: its
    look-up runs out of the bounds of the entry. *)
Theorem partial_write_corrupts_next :
  let s1 := (Insert "Apple" "A fruit" (faulty [Some 4%nat] fresh)).2 in
  let s2 := (Insert "Ball" "A Ball" s1).2 in
  (Insert "Apple" "A fruit" (faulty [Some 4%nat] fresh)).1 = Err ErrIO ∧
  (Insert "Ball" "A Ball" s1).1 = Ok tt ∧
  (GetMeaning "Ball" s2).1 = Panic "slice bounds out of range".
Proof. by vm_compute. Qed.

(** [Import] takes its inputs to be sorted, [Insert] appends in any order: a word
    that the change log changes can keep its old meaning. *)
Theorem unsorted_import_stale :
  let l := [mkWentry (bytes_of "Ball") (bytes_of "old");
            mkWentry (bytes_of "Apple") (bytes_of "stale")] in
  let ch := [mkWentry (bytes_of "Apple") (bytes_of "new")] in
  ((do! Import "./change_log" in GetMeaning "Apple") (dict_of l ch)).1 = Ok "stale"%string.
Proof. by vm_compute. Qed.

(** When the rename fails the old handle is closed already: the dictionary answers
    every look-up with the empty string. *)
Theorem failed_rename_loses_handle :
  let s := faulty (replicate 24 None ++ [Some 0%nat]) (dict_of demo_entries demo_log) in
  let s' := (Import "./change_log" s).2 in
  (Import "./change_log" s).1 = Err (ErrWrap "renaming temp file failed" ErrIO) ∧
  (GetMeaning "Apple" s').1 = Ok EmptyString ∧
  (Insert "Dog" "A pet" s').1 = Err ErrClosed.
Proof. by vm_compute. Qed.
