(* ===== verification/ConsistentHashing.v ===== *)
(** [consistent_hashing/main.go]: a ring of virtual nodes; [getNode] finds the owner
    of a key clockwise by binary search.  The mutex makes each method one step. *)

From stdpp Require Import gmap strings list fin_maps sorting.
From Stdlib Require Import ZArith Lia.
From S2P Require Import Prelude GoLib.

Module Ring.

(** * The code *)

Definition VirtualNodes : Z := 100.

Record StorageNode := mkNode { name : string; host : string }.

#[export] Instance StorageNode_eq_dec : EqDecision StorageNode.
Proof. solve_decision. Defined.

(** [nodes]: the slots, sorted; [nodeMap]: the node of each slot. *)
Record ConsistentHashingRing := mkRing {
  nodes : list Z;
  nodeMap : gmap Z StorageNode;
}.

Definition NewConsistentHashingRing : ConsistentHashingRing := mkRing [] ∅.

Definition computeHash (key : string) : Z := crc64_iso (bytes_of key).

(** [fmt.Sprintf("%s#%d", node.host, i)]. *)
Definition virtualNodeKey (node : StorageNode) (i : Z) : string :=
  host node +:+ "#" +:+ itoa i.

(** The body of [addNode]'s loop. *)
Definition addSlot (node : StorageNode) (c : ConsistentHashingRing) (i : Z)
    : ConsistentHashingRing :=
  let slot := computeHash (virtualNodeKey node i) in
  mkRing (nodes c ++ [slot]) (<[slot := node]> (nodeMap c)).

Definition addNode (node : StorageNode) : M ConsistentHashingRing unit :=
  do! modify (λ c, fold_left (addSlot node) (seqZ 0 VirtualNodes) c) in
  modify (λ c, mkRing (sort_u64 (nodes c)) (nodeMap c)).

(** The body of [deleteNode]'s first loop. *)
Definition deleteSlot (node : StorageNode) (m : gmap Z StorageNode) (i : Z)
    : gmap Z StorageNode :=
  delete (computeHash (virtualNodeKey node i)) m.

(** [make] panics on a negative capacity, after the slots have left the map. *)
Definition deleteNode (node : StorageNode) : M ConsistentHashingRing unit :=
  do! modify (λ c, mkRing (nodes c)
    (fold_left (deleteSlot node) (seqZ 0 VirtualNodes) (nodeMap c))) in
  let! c := get_st in
  if len (nodes c) - VirtualNodes <? 0 then panic "makeslice: cap out of range" else
  modify (λ c, mkRing (filter (λ hash, is_Some (nodeMap c !! hash)) (nodes c)) (nodeMap c)).

(** [None] is the nil pointer, of an empty ring and of a slot without a node. *)
Definition getNode (c : ConsistentHashingRing) (key : string) : option StorageNode :=
  if len (nodes c) =? 0 then None
  else
    let hash := computeHash key in
    let idx := sort_search (length (nodes c)) (λ i, hash <=? nth i (nodes c) 0) in
    let idx := if (idx =? length (nodes c))%nat then 0%nat else idx in
    nodeMap c !! nth idx (nodes c) 0.

(** * Slots *)

Definition slots (node : StorageNode) : list Z :=
  (λ i, computeHash (virtualNodeKey node i)) <$> seqZ 0 VirtualNodes.

Lemma length_slots node : length (slots node) = 100%nat.
Proof. unfold slots. rewrite length_fmap, length_seqZ. done. Qed.

(** [addNode] and [deleteNode] in one equation each. *)
Definition added (node : StorageNode) (c : ConsistentHashingRing) : ConsistentHashingRing :=
  mkRing (sort_u64 (nodes c ++ slots node))
    (fold_left (λ m s, <[s := node]> m) (slots node) (nodeMap c)).
Definition deleted (node : StorageNode) (c : ConsistentHashingRing) : ConsistentHashingRing :=
  let m := fold_left (λ m s, delete s m) (slots node) (nodeMap c) in
  mkRing (filter (λ hash, is_Some (m !! hash)) (nodes c)) m.

Lemma addSlots_eq node l c :
  fold_left (addSlot node) l c =
    mkRing (nodes c ++ ((λ i, computeHash (virtualNodeKey node i)) <$> l))
      (fold_left (λ m s, <[s := node]> m) ((λ i, computeHash (virtualNodeKey node i)) <$> l)
        (nodeMap c)).
Proof.
  revert c. induction l as [|i l IH]; intros c; simpl.
  - rewrite (right_id_L [] (++)). by destruct c.
  - rewrite IH. simpl. by rewrite <-(assoc_L (++)).
Qed.

Lemma deleteSlots_eq node l m :
  fold_left (deleteSlot node) l m =
    fold_left (λ m s, delete s m) ((λ i, computeHash (virtualNodeKey node i)) <$> l) m.
Proof. revert m. induction l as [|i l IH]; intros m; simpl; [done|by rewrite IH]. Qed.

Lemma addNode_eq node c : addNode node c = (Ok tt, added node c).
Proof. unfold addNode, bind, modify. by rewrite addSlots_eq. Qed.

Lemma deleteNode_eq node c :
  deleteNode node c =
    if len (nodes c) <? VirtualNodes
    then (Panic "makeslice: cap out of range", mkRing (nodes c) (nodeMap (deleted node c)))
    else (Ok tt, deleted node c).
Proof.
  unfold deleteNode, bind, modify, get_st. cbn [nodes nodeMap]. rewrite deleteSlots_eq.
  fold (slots node). destruct (Z.ltb_spec (len (nodes c) - VirtualNodes) 0),
    (Z.ltb_spec (len (nodes c)) VirtualNodes); try lia; done.
Qed.

Lemma insert_slots node l (m : gmap Z StorageNode) s :
  fold_left (λ m s, <[s := node]> m) l m !! s = if decide (s ∈ l) then Some node else m !! s.
Proof.
  revert m. induction l as [|x l IH]; intros m; cbn [fold_left].
  - rewrite decide_False; [done|apply not_elem_of_nil].
  - rewrite IH. destruct (decide (s ∈ l)) as [Hs|Hs].
    + rewrite decide_True; [done|by right].
    + destruct (decide (s = x)) as [->|Hne].
      * rewrite lookup_insert_eq, decide_True; [done|by left].
      * rewrite lookup_insert_ne by done. rewrite decide_False; [done|].
        by intros [?|?]%elem_of_cons.
Qed.

Lemma delete_slots l (m : gmap Z StorageNode) s :
  fold_left (λ m s, delete s m) l m !! s = if decide (s ∈ l) then None else m !! s.
Proof.
  revert m. induction l as [|x l IH]; intros m; cbn [fold_left].
  - rewrite decide_False; [done|apply not_elem_of_nil].
  - rewrite IH. destruct (decide (s ∈ l)) as [Hs|Hs].
    + rewrite decide_True; [done|by right].
    + destruct (decide (s = x)) as [->|Hne].
      * rewrite lookup_delete_eq, decide_True; [done|by left].
      * rewrite lookup_delete_ne by done. rewrite decide_False; [done|].
        by intros [?|?]%elem_of_cons.
Qed.

(** * The invariant *)

(** The slots are sorted, and they are exactly those with a node. *)
Record RInv (c : ConsistentHashingRing) : Prop := {
  ri_sorted : StronglySorted Z.le (nodes c);
  ri_dom : ∀ s, s ∈ nodes c ↔ is_Some (nodeMap c !! s);
}.

(** Every slot belongs to the node it was computed from. *)
Definition owned (c : ConsistentHashingRing) : Prop :=
  ∀ s x, nodeMap c !! s = Some x → s ∈ slots x.

Lemma RInv_new : RInv NewConsistentHashingRing.
Proof.
  constructor; [constructor|]. intros s. simpl. rewrite lookup_empty. split.
  - by intros ?%not_elem_of_nil.
  - by intros [? ?].
Qed.

Lemma RInv_added node c : RInv c → RInv (added node c).
Proof.
  intros [H1 H2]. constructor; [apply sort_u64_sorted|].
  intros s. cbn [added nodes nodeMap].
  rewrite sort_u64_perm, elem_of_app, insert_slots, H2.
  destruct (decide (s ∈ slots node)); [|tauto]. split; [by eexists|by right].
Qed.

Lemma StronglySorted_filter {A} (R : A → A → Prop) (P : A → Prop) `{∀ x, Decision (P x)} l :
  StronglySorted R l → StronglySorted R (filter P l).
Proof.
  induction 1 as [|x l Hl IH Hx]; [constructor|]. rewrite filter_cons.
  destruct (decide (P x)); [|done]. constructor; [done|].
  apply Forall_forall. intros y [_ Hy]%list_elem_of_filter. by apply (Forall_forall _ l).
Qed.

Lemma RInv_deleted node c : RInv c → RInv (deleted node c).
Proof.
  intros [H1 H2]. constructor; cbn [deleted nodes nodeMap]; [by apply StronglySorted_filter|].
  intros s. rewrite list_elem_of_filter, H2, delete_slots.
  destruct (decide (s ∈ slots node)); [split; [tauto|by intros [? ?]]|tauto].
Qed.

Lemma owned_added node c : owned c → owned (added node c).
Proof.
  intros H s x. cbn [added nodeMap]. rewrite insert_slots. destruct (decide _); [by intros [= <-]|apply H].
Qed.
Lemma owned_deleted node c : owned c → owned (deleted node c).
Proof.
  intros H s x. cbn [deleted nodeMap]. rewrite delete_slots. destruct (decide _); [done|apply H].
Qed.

(** * The clockwise successor *)

(** [s] is the first slot at or after [h], or the first of all when there is none. *)
Definition successor (l : list Z) (h s : Z) : Prop :=
  s ∈ l ∧
  ((h ≤ s ∧ ∀ t, t ∈ l → h ≤ t → s ≤ t) ∨
   ((∀ t, t ∈ l → t < h) ∧ ∀ t, t ∈ l → s ≤ t)).

Lemma successor_unique l h s t : successor l h s → successor l h t → s = t.
Proof.
  intros [Hs [[S1 S2]|[S1 S2]]] [Ht [[T1 T2]|[T1 T2]]].
  - pose proof (S2 t Ht T1). pose proof (T2 s Hs S1). lia.
  - pose proof (T1 s Hs). lia.
  - pose proof (S1 t Ht). lia.
  - pose proof (S2 t Ht). pose proof (T2 s Hs). lia.
Qed.

(** The successor stays when slots other than it go. *)
Lemma successor_subset l l' h s :
  (∀ t, t ∈ l' → t ∈ l) → successor l h s → s ∈ l' → successor l' h s.
Proof.
  intros Hsub [_ [[S1 S2]|[S1 S2]]] Hs; (split; [done|]); [left|right]; split; auto.
Qed.

Lemma sorted_nth l i j :
  StronglySorted Z.le l → (i ≤ j)%nat → (j < length l)%nat → nth i l 0 ≤ nth j l 0.
Proof.
  intros H. revert i j. induction H as [|x l Hl IH Hx]; intros i j Hij Hj; [simpl in Hj; lia|].
  destruct j as [|j]; [by replace i with 0%nat by lia|]. simpl in Hj.
  destruct i as [|i]; [|apply IH; lia]. simpl.
  rewrite Forall_forall in Hx. apply Hx, list_elem_of_In, nth_In. lia.
Qed.

Lemma nth_elem (l : list Z) i : (i < length l)%nat → nth i l 0 ∈ l.
Proof. intros H. by apply list_elem_of_In, nth_In. Qed.

Lemma elem_nth (l : list Z) x : x ∈ l → ∃ i, (i < length l)%nat ∧ nth i l 0 = x.
Proof.
  intros H%list_elem_of_In. destruct (In_nth l x 0 H) as (i & Hi & E). by exists i.
Qed.

(** What the binary search and the wrap-around compute. *)
Lemma getNode_slot c key :
  RInv c → nodes c ≠ [] →
  ∃ s, successor (nodes c) (computeHash key) s ∧ getNode c key = nodeMap c !! s.
Proof.
  intros H Hne. set (h := computeHash key).
  unfold getNode. destruct (Z.eqb_spec (len (nodes c)) 0) as [E|_].
  { destruct (nodes c); [done|]. unfold len in E. simpl in E. lia. }
  fold h. set (n := length (nodes c)). set (f := λ i, h <=? nth i (nodes c) 0).
  assert (0 < n)%nat as Hn by (unfold n; destruct (nodes c); [done|simpl; lia]).
  destruct (sort_search_spec f n) as (H1 & H2 & H3).
  { intros i j Hij Hj. unfold f. rewrite !Z.leb_le.
    pose proof (sorted_nth _ i j (ri_sorted _ H) Hij Hj). lia. }
  set (r := sort_search n f) in *.
  assert (∀ t i, (i < r)%nat → nth i (nodes c) 0 = t → t < h) as Hbefore.
  { intros t i Hi <-. specialize (H2 i Hi). unfold f in H2. lia. }
  destruct (Nat.eqb_spec r n) as [Er|Er].
  - exists (nth 0 (nodes c) 0). split; [|done]. split; [by apply nth_elem|]. right. split.
    + intros t (i & Hi & <-)%elem_nth. eapply Hbefore; [|done]. by rewrite Er.
    + intros t (i & Hi & <-)%elem_nth. apply sorted_nth; [apply H|lia|done].
  - exists (nth r (nodes c) 0). assert (r < n)%nat as Hr by lia. split; [|done].
    split; [by apply nth_elem|]. left. specialize (H3 Hr). unfold f in H3. split; [lia|].
    intros t (i & Hi & <-)%elem_nth Ht.
    destruct (decide (i < r)%nat) as [Hlt|Hge].
    + pose proof (Hbefore _ i Hlt eq_refl). lia.
    + apply sorted_nth; [apply H|lia|done].
Qed.

(** The lookup of a ring that holds slots always finds a node. *)
Lemma getNode_found c key :
  RInv c → nodes c ≠ [] →
  ∃ s x, successor (nodes c) (computeHash key) s ∧ nodeMap c !! s = Some x ∧
    getNode c key = Some x.
Proof.
  intros H Hne. destruct (getNode_slot c key H Hne) as (s & Hs & E).
  destruct (proj1 (ri_dom _ H s) (proj1 Hs)) as [x Hx]. exists s, x. by rewrite E.
Qed.

Lemma getNode_empty c key : nodes c = [] → getNode c key = None.
Proof. unfold getNode. by intros ->. Qed.


(** * Reachable rings *)

Inductive step : ConsistentHashingRing → ConsistentHashingRing → Prop :=
| step_add node c c' : addNode node c = (Ok tt, c') → step c c'
| step_delete node c c' : deleteNode node c = (Ok tt, c') → step c c'.

Definition reachable (c : ConsistentHashingRing) : Prop := rtc step NewConsistentHashingRing c.

Lemma deleteNode_inv node c c' :
  deleteNode node c = (Ok tt, c') → c' = deleted node c ∧ VirtualNodes ≤ len (nodes c).
Proof. rewrite deleteNode_eq. destruct (Z.ltb_spec (len (nodes c)) VirtualNodes); by intros [=]. Qed.

Lemma reachable_inv c : reachable c → RInv c ∧ owned c.
Proof.
  assert (∀ a b, rtc step a b → RInv a ∧ owned a → RInv b ∧ owned b) as H.
  { induction 1 as [|a b d Hs _ IH]; [done|]. intros [H1 H2]. apply IH. destruct Hs as [n x y E|n x y E].
    - rewrite addNode_eq in E. injection E as <-.
      split; [by apply RInv_added|by apply owned_added].
    - apply deleteNode_inv in E as [-> _].
      split; [by apply RInv_deleted|by apply owned_deleted]. }
  intros Hr. apply (H _ _ Hr). split; [apply RInv_new|]. intros s x. simpl. by rewrite lookup_empty.
Qed.

(** A ring is determined by its slots, up to their order, and its map. *)
Lemma ring_ext c c' :
  RInv c → RInv c' → nodes c ≡ₚ nodes c' → nodeMap c = nodeMap c' → c = c'.
Proof.
  intros [S1 _] [S2 _] Hp Hm. destruct c as [l m], c' as [l' m']. simpl in *. subst m'.
  f_equal. by eapply (StronglySorted_unique Z.le).
Qed.

(** * Theorems *)

(** The three storage nodes of [main], and their ring. *)
Definition nodeA := mkNode "A" "127.0.0.1".
Definition nodeB := mkNode "B" "192.168.1.2".
Definition nodeC := mkNode "C" "255.255.0.1".
Definition demo_ring : ConsistentHashingRing :=
  added nodeC (added nodeB (added nodeA NewConsistentHashingRing)).

Lemma reach_added node c : reachable c → reachable (added node c).
Proof. intros H. eapply rtc_r; [done|]. apply (step_add node). apply addNode_eq. Qed.

Lemma demo_reachable : reachable demo_ring.
Proof. do 3 apply reach_added. apply rtc_refl. Qed.

(** Slots of two nodes do not collide. *)
Definition disjoint_slots (l l' : list Z) : Prop := Forall (λ s, s ∉ l') l.
Definition no_collision (x y : StorageNode) : Prop := disjoint_slots (slots x) (slots y).

#[export] Instance disjoint_slots_dec l l' : Decision (disjoint_slots l l').
Proof. unfold disjoint_slots. apply _. Defined.

Lemma disjoint_slots_spec l l' s : disjoint_slots l l' → s ∈ l → s ∉ l'.
Proof. unfold disjoint_slots. rewrite Forall_forall. auto. Qed.

Lemma demo_no_collision : no_collision nodeB nodeC ∧ no_collision nodeC nodeA.
Proof. unfold no_collision. split; apply (bool_decide_unpack _); by vm_compute. Qed.

(** C17: Every ring that additions and deletions build is well-formed: its slots are sorted,
    they are the keys of the map, each is a 64-bit number and the hash of one of the
    hundred virtual nodes of its node; so that on a ring with slots every key has a
    node. *)
Theorem ring_wellformed c :
  reachable c →
  StronglySorted Z.le (nodes c) ∧
  (∀ s, s ∈ nodes c ↔ is_Some (nodeMap c !! s)) ∧
  (∀ s x, nodeMap c !! s = Some x → 0 ≤ s < 2 ^ 64 ∧
    ∃ i, 0 ≤ i < VirtualNodes ∧ s = computeHash (virtualNodeKey x i)) ∧
  (nodes c ≠ [] → ∀ key, is_Some (getNode c key)).
Proof.
  intros [[Hs Hd] Ho]%reachable_inv. split_and!; [done|done| |].
  - intros s x (i & -> & Hi%elem_of_seqZ)%Ho%list_elem_of_fmap.
    split; [apply crc64_range|]. exists i. split; [lia|done].
  - intros Hne key. destruct (getNode_found c key (Build_RInv c Hs Hd) Hne) as (s & x & _ & _ & ->).
    by eexists.
Qed.

Lemma ring_wellformed_witness :
  StronglySorted Z.le (nodes demo_ring) ∧
  (∀ s, s ∈ nodes demo_ring ↔ is_Some (nodeMap demo_ring !! s)) ∧
  (∀ s x, nodeMap demo_ring !! s = Some x → 0 ≤ s < 2 ^ 64 ∧
    ∃ i, 0 ≤ i < VirtualNodes ∧ s = computeHash (virtualNodeKey x i)) ∧
  (nodes demo_ring ≠ [] → ∀ key, is_Some (getNode demo_ring key)).
Proof. apply (ring_wellformed demo_ring demo_reachable). Defined.

(** C6: On every ring that additions and deletions build, the look-up of a key finds the
    node whose slot is the first at or after the key's hash, clockwise with
    wrap-around, and that slot is one of this node's. *)
Theorem getNode_clockwise c key :
  reachable c → nodes c ≠ [] →
  ∃ s x, getNode c key = Some x ∧ successor (nodes c) (computeHash key) s ∧
    nodeMap c !! s = Some x ∧ s ∈ slots x.
Proof.
  intros [H Ho]%reachable_inv Hne.
  destruct (getNode_found c key H Hne) as (s & x & Hs & Hx & E).
  exists s, x. split_and!; [done..|by apply Ho].
Qed.

Lemma demo_ring_nonempty : nodes demo_ring ≠ [].
Proof.
  intros E. apply (f_equal length) in E. revert E.
  assert (length (nodes demo_ring) = 300%nat) as -> by by vm_compute. done.
Qed.

Lemma getNode_clockwise_witness :
  ∃ s x, getNode demo_ring "user:1" = Some x ∧
    successor (nodes demo_ring) (computeHash "user:1") s ∧
    nodeMap demo_ring !! s = Some x ∧ s ∈ slots x.
Proof. apply (getNode_clockwise demo_ring "user:1" demo_reachable demo_ring_nonempty). Defined.

(** Adding a node moves keys to this node only: every key keeps its node or goes to
    the new one. *)
Theorem addNode_monotone c c' node key :
  reachable c → addNode node c = (Ok tt, c') →
  getNode c' key = Some node ∨ getNode c' key = getNode c key.
Proof.
  intros [H _]%reachable_inv E. rewrite addNode_eq in E. injection E as <-.
  pose proof (RInv_added node c H) as H'.
  assert (∀ s, s ∈ nodes (added node c) ↔ s ∈ nodes c ∨ s ∈ slots node) as Hel.
  { intros s. cbn [added nodes]. by rewrite sort_u64_perm, elem_of_app. }
  assert (nodes (added node c) ≠ []) as Hne.
  { pose proof (length_slots node) as Hl. destruct (slots node) as [|s l] eqn:Es; [done|].
    intros E. specialize (Hel s). rewrite E in Hel. destruct Hel as [_ Hel].
    apply (not_elem_of_nil s), Hel. right. by left. }
  destruct (getNode_found _ key H' Hne) as (s & x & Hs & Hx & ->).
  cbn [added nodeMap] in Hx. rewrite insert_slots in Hx.
  destruct (decide (s ∈ slots node)) as [Hin|Hnin]; [left; congruence|right].
  assert (s ∈ nodes c) as Hc by (apply (ri_dom _ H); by eexists).
  assert (nodes c ≠ []) as Hne' by (intros E; rewrite E in Hc; by apply not_elem_of_nil in Hc).
  destruct (getNode_found c key H Hne') as (t & y & Ht & Hy & ->).
  assert (t = s) as ->.
  { eapply successor_unique; [done|]. eapply successor_subset; [|exact Hs|done].
    intros u Hu. apply Hel. by left. }
  congruence.
Qed.

Lemma addNode_monotone_witness :
  let c := added nodeB (added nodeA NewConsistentHashingRing) in
  getNode demo_ring "user:101" = Some nodeC ∨ getNode demo_ring "user:101" = getNode c "user:101".
Proof.
  apply (addNode_monotone (added nodeB (added nodeA NewConsistentHashingRing)) demo_ring).
  - do 2 apply reach_added. apply rtc_refl.
  - apply addNode_eq.
Defined.

(** C31: Deleting a node moves its own keys only: a key of a node whose slots do not
    collide with the deleted one's keeps its node, and no key is left with the
    deleted node. *)
Theorem deleteNode_keeps c c' node x key :
  reachable c → deleteNode node c = (Ok tt, c') →
  getNode c key = Some x → no_collision x node →
  getNode c' key = Some x ∧ ∀ k, getNode c' k ≠ Some node.
Proof.
  intros [H Ho]%reachable_inv [-> _]%deleteNode_inv Hx Hnc.
  pose proof (RInv_deleted node c H) as H'. pose proof (owned_deleted node c Ho) as Ho'.
  assert (∀ s y, nodeMap (deleted node c) !! s = Some y → s ∉ slots node) as Hgone.
  { intros s y. cbn [deleted nodeMap]. rewrite delete_slots. by destruct (decide _). }
  split.
  - assert (nodes c ≠ []) as Hne by (intros E; by rewrite getNode_empty in Hx).
    destruct (getNode_found c key H Hne) as (s & x' & Hs & Hsx & E).
    rewrite Hx in E. injection E as <-.
    assert (nodeMap (deleted node c) !! s = Some x) as Hsx'.
    { cbn [deleted nodeMap]. rewrite delete_slots, decide_False; [done|].
      by eapply disjoint_slots_spec, Ho. }
    assert (s ∈ nodes (deleted node c)) as Hs' by (apply (ri_dom _ H'); by eexists).
    assert (nodes (deleted node c) ≠ []) as Hne'
      by (intros E; rewrite E in Hs'; by apply not_elem_of_nil in Hs').
    destruct (getNode_found _ key H' Hne') as (t & y & Ht & Hy & ->).
    assert (t = s) as ->; [|congruence].
    eapply successor_unique; [done|]. eapply successor_subset; [|exact Hs|done].
    intros u. cbn [deleted nodes]. by intros [_ ?]%list_elem_of_filter.
  - intros k E. destruct (decide (nodes (deleted node c) = [])) as [Hn|Hn];
      [by rewrite getNode_empty in E|].
    destruct (getNode_found _ k H' Hn) as (s & y & _ & Hy & E'). rewrite E in E'.
    injection E' as <-. by eapply Hgone, Ho'.
Qed.

Lemma deleteNode_keeps_witness :
  getNode (deleted nodeC demo_ring) "user:1028" = Some nodeB ∧
  ∀ k, getNode (deleted nodeC demo_ring) k ≠ Some nodeC.
Proof.
  apply (deleteNode_keeps demo_ring _ nodeC nodeB "user:1028" demo_reachable).
  - rewrite deleteNode_eq. by assert ((len (nodes demo_ring) <? VirtualNodes) = false)
      as -> by by vm_compute.
  - by vm_compute.
  - apply demo_no_collision.
Defined.

(** C18: Deleting a node just added to a ring whose slots its own do not meet restores the
    ring exactly. *)
Theorem delete_undoes_add c node :
  reachable c → disjoint_slots (slots node) (nodes c) →
  (do! addNode node in deleteNode node) c = (Ok tt, c).
Proof.
  intros [H _]%reachable_inv Hd. unfold bind. rewrite addNode_eq, deleteNode_eq.
  assert (nodes (added node c) ≡ₚ nodes c ++ slots node) as Hp by apply sort_u64_perm.
  destruct (Z.ltb_spec (len (nodes (added node c))) VirtualNodes) as [Hl|_].
  { exfalso. revert Hl. unfold len. rewrite Hp, length_app, length_slots. unfold VirtualNodes. lia. }
  f_equal. pose proof (λ s, disjoint_slots_spec _ _ s Hd) as Hd'. clear Hd. rename Hd' into Hd.
  assert (nodeMap (deleted node (added node c)) = nodeMap c) as Hm.
  { apply map_eq. intros s. cbn [deleted added nodeMap]. rewrite delete_slots.
    destruct (decide (s ∈ slots node)) as [Hin|Hn].
    - symmetry. apply eq_None_not_Some. intros Hs%(ri_dom _ H). by apply (Hd s).
    - rewrite insert_slots. by rewrite decide_False. }
  apply ring_ext; [by apply RInv_deleted, RInv_added|done| |done].
  change (nodes (deleted node (added node c))) with
    (filter (λ h, is_Some (nodeMap (deleted node (added node c)) !! h)) (nodes (added node c))).
  rewrite Hm, Hp, filter_app.
  assert (filter (λ h, is_Some (nodeMap c !! h)) (slots node) = []) as ->.
  { apply filter_none. intros s Hin Hs. apply (ri_dom _ H) in Hs. by apply (Hd s). }
  rewrite (right_id_L [] (++)), filter_all; [done|]. intros s Hs. by apply (ri_dom _ H).
Qed.
Lemma delete_undoes_add_witness :
  (do! addNode nodeC in deleteNode nodeC) (added nodeB (added nodeA NewConsistentHashingRing)) =
    (Ok tt, added nodeB (added nodeA NewConsistentHashingRing)).
Proof.
  apply delete_undoes_add.
  - do 2 apply reach_added. apply rtc_refl.
  - apply (bool_decide_unpack _). by vm_compute.
Defined.

Lemma sort_twice l x y : sort_u64 (sort_u64 (l ++ x) ++ y) ≡ₚ l ++ x ++ y.
Proof.
  etrans; [apply sort_u64_perm|]. etrans; [apply Permutation_app_tail, sort_u64_perm|].
  by rewrite <-(assoc_L (++)).
Qed.

(** The order in which two nodes without colliding slots join does not matter: the two
    rings are equal. *)
Theorem addNode_commutes c a b :
  reachable c → no_collision a b →
  (do! addNode a in addNode b) c = (do! addNode b in addNode a) c.
Proof.
  intros [H _]%reachable_inv Hnc. unfold bind. rewrite !addNode_eq. f_equal.
  apply ring_ext; [by do 2 apply RInv_added..| |].
  - cbn [added nodes]. rewrite !sort_twice. apply Permutation_app_head, Permutation_app_comm.
  - apply map_eq. intros s. cbn [added nodeMap]. rewrite !insert_slots.
    repeat case_decide; try done. exfalso. by eapply (disjoint_slots_spec (slots a) (slots b)).
Qed.

Lemma addNode_commutes_witness :
  (do! addNode nodeB in addNode nodeC) NewConsistentHashingRing =
  (do! addNode nodeC in addNode nodeB) NewConsistentHashingRing.
Proof. apply addNode_commutes; [apply rtc_refl|apply demo_no_collision]. Defined.

(** Deleting from a ring of fewer than 100 slots, an empty one for example, panics in
    [make], after the slots of the node have already left the map. *)
Theorem deleteNode_small_ring_panics c node :
  len (nodes c) < VirtualNodes →
  ∃ c', deleteNode node c = (Panic "makeslice: cap out of range", c') ∧
    nodes c' = nodes c ∧ ∀ s, s ∈ slots node → nodeMap c' !! s = None.
Proof.
  intros Hl. rewrite deleteNode_eq. destruct (Z.ltb_spec (len (nodes c)) VirtualNodes); [|lia].
  eexists. split; [done|]. split; [done|]. intros s Hs. cbn [nodeMap deleted].
  rewrite delete_slots. by rewrite decide_True.
Qed.

Lemma deleteNode_small_ring_panics_witness :
  ∃ c', deleteNode nodeA NewConsistentHashingRing =
      (Panic "makeslice: cap out of range", c') ∧
    nodes c' = [] ∧ ∀ s, s ∈ slots nodeA → nodeMap c' !! s = None.
Proof. by apply (deleteNode_small_ring_panics NewConsistentHashingRing nodeA). Defined.

End Ring.
