(* ===== verification/LoadBalancer.v ===== *)
(** [load-balancer/]: the four algorithms behind the interface
    [LoadBalancingAlgorithm], the properties of a backend server, and the request
    handler.  Servers are shared by pointer, so they live in a store [Heap] of
    addresses; an algorithm sees its own state and that store. *)

From stdpp Require Import gmap strings list fin_maps sorting.
From Stdlib Require Import ZArith Lia.
From S2P Require Import Prelude GoLib.

Module LB.

(** * backend_server_properties.go *)

Record BackendServerProperties := mkServer {
  id : string;
  baseUrl : string;
  apiPort : Z;
  healthCheckPort : Z;
  activeConnectionsCount : Z;     (* atomic.Int32 *)
  weight : Z;
}.

Definition NewBackendServer (id url : string) (apiPort healthCheckPort : Z)
    : BackendServerProperties := mkServer id url apiPort healthCheckPort 0 0.

Definition GetID := id.
Definition GetUrl := baseUrl.
Definition GetAPIPort := apiPort.
Definition GetActiveConnections := activeConnectionsCount.

(** The weight is a [uint]. *)
Definition SetWeight (w : Z) : M BackendServerProperties unit :=
  if 100 <? w then fail (ErrNew "Weight cannot be greater than 100") else
  modify (λ b, mkServer (id b) (baseUrl b) (apiPort b) (healthCheckPort b)
    (activeConnectionsCount b) w).

(** [activeConnectionsCount.Add(d)], modulo 2^32. *)
Definition addConnections (d : Z) (b : BackendServerProperties) : BackendServerProperties :=
  mkServer (id b) (baseUrl b) (apiPort b) (healthCheckPort b)
    (i32 (activeConnectionsCount b + d)) (weight b).
Definition IncrementConnections := addConnections 1.
Definition DecrementConnections := addConnections (-1).

(** * main.go: configuration *)

(** A pointer to a server; [None] is nil. *)
Abbreviation ptr := nat.
Abbreviation Heap := (gmap ptr BackendServerProperties).

Record LoadBalancer := mkLB {
  Servers : list ptr;
  HealthCheckFrequencySec : Z;
}.

(** [NewLoadBalancer]; the algorithm of the configuration is the type [A] below. *)
Definition NewLoadBalancer (servers : list ptr) (healthCheckFrequency : Z) : LoadBalancer :=
  mkLB servers healthCheckFrequency.

(** The interface: the next server, [None] for a nil result without an error. *)
Class LoadBalancingAlgorithm (A : Type) :=
  getNext : option LoadBalancer → M (A * Heap) (option ptr).

Definition errEmpty : goerr := ErrNew "backend servers cannot be empty".

(** [lb == nil || len(lb.Config.Servers) == 0]. *)
Definition servers_of (lb : option LoadBalancer) : list ptr :=
  match lb with None => [] | Some lb => Servers lb end.

Section access.
Context {A : Type}.

Definition deref (p : ptr) : M (A * Heap) BackendServerProperties :=
  let! s := get_st in
  match s.2 !! p with
  | Some b => ret b
  | None => panic "nil pointer dereference"
  end.
Definition set_alg (a : A) : M (A * Heap) unit := modify (λ s, (a, s.2)).

(** The first server whose [GetID] is the key. *)
Fixpoint find_server (key : string) (servers : list ptr) : M (A * Heap) (option ptr) :=
  match servers with
  | [] => ret None
  | p :: ps =>
      let! b := deref p in
      if bool_decide (GetID b = key) then ret (Some p) else find_server key ps
  end.
End access.

(** * round_robin.go *)

Record RoundRobinLoadBalancingAlgorithm := mkRR { counter : Z }.

#[export] Instance round_robin : LoadBalancingAlgorithm RoundRobinLoadBalancingAlgorithm := λ lb,
  let servers := servers_of lb in
  if len servers =? 0 then fail errEmpty else
  let! s := get_st in
  let r := s.1 in
  match index servers (Z.rem (counter r) (len servers)) with
  | None => panic "index out of range"
  | Some result =>
      do! set_alg (mkRR (Z.rem (i64 (counter r + 1)) (len servers))) in
      ret (Some result)
  end.

(** * classic_weighted_round_robin.go *)

Record ClassicWeightedRoundRobin := mkClassic {
  requestCount : Z;
  serverWeights : gmap string Z;
  keys : list string;
}.

(** [weightSum] of the constructors, a 64-bit sum in the order of the map. *)
Definition weight_sum (ws : list (string * Z)) : Z :=
  fold_left (λ sum kw, i64 (sum + kw.2)) ws 0.

Definition errNoWeights : goerr := ErrNew "provided empty server weights".
Definition errSum : goerr := ErrNew "sum of all weights should be 100".

Definition NewClassicWeightedRoundRobin `{MapRange} (serverWeights : gmap string Z)
    : ClassicWeightedRoundRobin + goerr :=
  if (size serverWeights =? 0)%nat then inr errNoWeights
  else if negb (weight_sum (range serverWeights) =? 100) then inr errSum
  else inl (mkClassic 0 serverWeights (sort_strings (range serverWeights).*1)).

(** [m[key]], zero for an absent key. *)
Definition weight_of (ws : gmap string Z) (key : string) : Z := default 0 (ws !! key).

(** The loop over the keys: the first whose running sum reaches the request. *)
Fixpoint classic_pick (ws : gmap string Z) (requestCount weightSum : Z) (keys : list string)
    : string :=
  match keys with
  | [] => EmptyString
  | key :: keys =>
      let weightSum := i64 (weightSum + weight_of ws key) in
      if requestCount <=? weightSum then key
      else classic_pick ws requestCount weightSum keys
  end.

#[export] Instance classic : LoadBalancingAlgorithm ClassicWeightedRoundRobin := λ lb,
  let servers := servers_of lb in
  if len servers =? 0 then fail errEmpty else
  let! s := get_st in
  let w := s.1 in
  let count := Z.rem (requestCount w) 100 + 1 in
  do! set_alg (mkClassic count (serverWeights w) (keys w)) in
  let backendServerId := classic_pick (serverWeights w) count 0 (keys w) in
  let! r := find_server backendServerId servers in
  match r with
  | Some p => ret (Some p)
  | None => fail (ErrNew "unexpected error occurred")
  end.

(** * smooth_weighted_round_robin.go *)

Record SmoothWeightedRoundRobin := mkSmooth {
  s_requestCount : Z;
  s_serverWeights : gmap string Z;
  currentWeights : gmap string Z;
  s_keys : list string;
}.

Definition NewSmoothWeightRoundRobin `{MapRange} (serverWeights : gmap string Z)
    : SmoothWeightedRoundRobin + goerr :=
  if (size serverWeights =? 0)%nat then inr errNoWeights
  else if negb (weight_sum (range serverWeights) =? 100) then inr errSum
  else inl (mkSmooth 0 serverWeights
    (fold_left (λ m key, <[key := 0]> m) (range serverWeights).*1 ∅)
    (sort_strings (range serverWeights).*1)).

Definition MinInt : Z := - 2 ^ 63.

(** The loop over the keys: the current weights grow, the first largest is kept. *)
Fixpoint smooth_pick (ws : gmap string Z) (keys : list string) (cw : gmap string Z)
    (max : Z) (maxKey : string) : gmap string Z * string :=
  match keys with
  | [] => (cw, maxKey)
  | key :: keys =>
      let v := i64 (weight_of cw key + weight_of ws key) in
      let cw := <[key := v]> cw in
      if max <? v then smooth_pick ws keys cw v key else smooth_pick ws keys cw max maxKey
  end.

#[export] Instance smooth : LoadBalancingAlgorithm SmoothWeightedRoundRobin := λ lb,
  let servers := servers_of lb in
  if len servers =? 0 then fail errEmpty else
  let! st := get_st in
  let s := st.1 in
  let '(cw, maxKey) := smooth_pick (s_serverWeights s) (s_keys s) (currentWeights s)
    MinInt EmptyString in
  do! set_alg (mkSmooth (s_requestCount s) (s_serverWeights s) cw (s_keys s)) in
  let! result := find_server maxKey servers in
  match result with
  | None => fail (ErrNew "unexpected error")
  | Some p =>
      do! set_alg (mkSmooth (s_requestCount s) (s_serverWeights s)
        (<[maxKey := i64 (weight_of cw maxKey - 100)]> cw) (s_keys s)) in
      ret (Some p)
  end.

(** * least_connections.go *)

Record LeastConnectionsAlgorithm := mkLeast {}.

Definition MaxInt32 : Z := 2 ^ 31 - 1.

Fixpoint least_loop {A} (servers : list ptr) (min : Z) (result : option ptr)
    : M (A * Heap) (option ptr) :=
  match servers with
  | [] => ret result
  | p :: ps =>
      let! b := deref p in
      let activeConnections := GetActiveConnections b in
      if activeConnections <? min then least_loop ps activeConnections (Some p)
      else least_loop ps min result
  end.

#[export] Instance least_connections : LoadBalancingAlgorithm LeastConnectionsAlgorithm := λ lb,
  let servers := servers_of lb in
  if len servers =? 0 then fail errEmpty else least_loop servers MaxInt32 None.

End LB.
