(* ===== verification/LoadBalancerSpec.v ===== *)
(** Lemmas on the load-balancing algorithms: look-up of servers, runs of calls, the
    pure choices each algorithm makes. *)

From stdpp Require Import gmap strings list fin_maps sorting.
From Stdlib Require Import ZArith Lia.
From S2P Require Import Prelude GoLib LoadBalancer.
Import LB.

(** * Runs of calls *)

(** [n] calls of [getNext], their results in order. *)
Fixpoint run_calls {A} `{LoadBalancingAlgorithm A} (lb : option LoadBalancer) (n : nat)
    : M (A * Heap) (list (option ptr)) :=
  match n with
  | O => ret []
  | S n => let! r := getNext lb in let! rs := run_calls lb n in ret (r :: rs)
  end.

Section runs.
Context `{LoadBalancingAlgorithm A}.

Lemma run_calls_S lb n s r s1 rs s2 :
  getNext lb s = (Ok r, s1) → run_calls lb n s1 = (Ok rs, s2) →
  run_calls lb (S n) s = (Ok (r :: rs), s2).
Proof. intros E1 E2. simpl. rewrite (bind_ok _ _ _ _ _ E1). by rewrite (bind_ok _ _ _ _ _ E2). Qed.

Lemma run_calls_app lb n m s rs s1 rs' s2 :
  run_calls lb n s = (Ok rs, s1) → run_calls lb m s1 = (Ok rs', s2) →
  run_calls lb (n + m) s = (Ok (rs ++ rs'), s2).
Proof.
  revert s rs. induction n as [|n IH]; intros s rs E1 E2.
  - injection E1 as <- <-. exact E2.
  - simpl in E1. apply bind_inv in E1 as (r & s3 & E3 & E1).
    apply bind_inv in E1 as (rs3 & s4 & E4 & [= <- <-]).
    eapply (run_calls_S lb (n + m)); [exact E3|]. by eapply IH.
Qed.
End runs.

(** * Finding a server *)

(** Every address of the configuration is a server. *)
Definition live (h : Heap) (lb : LoadBalancer) : Prop :=
  Forall (λ p, is_Some (h !! p)) (Servers lb).

(** [p] is the first server of the list with this identifier. *)
Definition is_server (h : Heap) (servers : list ptr) (key : string) (p : ptr) : Prop :=
  ∃ l1 l2 b, servers = l1 ++ p :: l2 ∧ h !! p = Some b ∧ GetID b = key ∧
    Forall (λ q, ∀ b, h !! q = Some b → GetID b ≠ key) l1.

(** Some server has this identifier. *)
Definition has_server (h : Heap) (servers : list ptr) (key : string) : Prop :=
  Exists (λ p, ∃ b, h !! p = Some b ∧ GetID b = key) servers.

Lemma find_server_spec {A} key servers (s : A * Heap) :
  Forall (λ p, is_Some (s.2 !! p)) servers →
  (∃ p, find_server key servers s = (Ok (Some p), s) ∧ is_server s.2 servers key p) ∨
  (find_server key servers s = (Ok None, s) ∧ ¬ has_server s.2 servers key).
Proof.
  induction servers as [|p ps IH]; intros Hl.
  { right. split; [done|]. by intros ?%Exists_nil. }
  apply Forall_cons in Hl as [[b Hb] Hl]. simpl.
  rewrite (bind_ok _ _ s b s) by (unfold deref, bind, get_st; by rewrite Hb).
  case_bool_decide as Hk.
  - left. exists p. split; [done|]. exists [], ps, b. by split_and!.
  - destruct (IH Hl) as [(q & E & l1 & l2 & c & -> & Hc & Hi & F)|[E Hn]].
    + left. exists q. split; [done|]. exists (p :: l1), l2, c. split_and!; [done..|].
      constructor; [|done]. intros b' Hb'. congruence.
    + right. split; [done|]. intros [(b' & Hb' & E')|He]%Exists_cons; [congruence|done].
Qed.

Lemma find_server_has {A} key servers (s : A * Heap) :
  Forall (λ p, is_Some (s.2 !! p)) servers → has_server s.2 servers key →
  ∃ p, find_server key servers s = (Ok (Some p), s) ∧ is_server s.2 servers key p.
Proof. intros Hl Hh. by destruct (find_server_spec key servers s Hl) as [?|[_ ?]]. Qed.

(** The identifiers of the servers chosen by a run. *)
Definition chosen (h : Heap) (servers : list ptr) (rs : list (option ptr)) (ks : list string)
    : Prop :=
  Forall2 (λ r k, ∃ p, r = Some p ∧ is_server h servers k p) rs ks.

(** * Weights *)

(** Weights the constructors are meant for: none negative, their sum 100. *)
Record weights_ok (ws : gmap string Z) : Prop := {
  wo_nonneg : ∀ k w, ws !! k = Some w → 0 ≤ w;
  wo_sum : zsum ((map_to_list ws).*2) = 100;
}.

Lemma i64_id z : - 2 ^ 63 ≤ z < 2 ^ 63 → i64 z = z.
Proof. apply i64_small. Qed.

Lemma weight_sum_exact l acc :
  0 ≤ acc → acc + zsum l.*2 < 2 ^ 63 → Forall (λ kw : string * Z, 0 ≤ kw.2) l →
  fold_left (λ sum kw, i64 (sum + kw.2)) l acc = acc + zsum l.*2.
Proof.
  revert acc. induction l as [|[k w] l IH]; intros acc Ha Hb Hf; csimpl; [lia|].
  apply Forall_cons in Hf as [Hw Hf]. csimpl in *.
  assert (0 ≤ zsum l.*2) by (apply zsum_nonneg; by apply Forall_fmap).
  rewrite i64_id by lia. rewrite IH by (try done; lia). lia.
Qed.

Section weights.
Context `{MapRange}.
Variable ws : gmap string Z.
Hypothesis Hok : weights_ok ws.

(** The keys as the constructors keep them. *)
Definition sorted_keys : list string := sort_strings (range ws).*1.

Lemma sorted_keys_perm : sorted_keys ≡ₚ (map_to_list ws).*1.
Proof. unfold sorted_keys. by rewrite sort_strings_perm, range_perm. Qed.

Lemma sorted_keys_NoDup : NoDup sorted_keys.
Proof. rewrite sorted_keys_perm. apply NoDup_fst_map_to_list. Qed.

Lemma elem_sorted_keys k : k ∈ sorted_keys ↔ is_Some (ws !! k).
Proof.
  rewrite sorted_keys_perm. split.
  - intros ([k' w] & -> & Hin%elem_of_map_to_list)%list_elem_of_fmap. by eexists.
  - intros [w Hw]. apply list_elem_of_fmap. exists (k, w). split; [done|].
    by apply elem_of_map_to_list.
Qed.

Lemma weight_nonneg k : 0 ≤ weight_of ws k.
Proof.
  unfold weight_of. destruct (ws !! k) eqn:E; simpl; [by eapply wo_nonneg|done].
Qed.

Lemma sum_sorted : zsum (weight_of ws <$> sorted_keys) = 100.
Proof.
  rewrite (zsum_perm _ (weight_of ws <$> (map_to_list ws).*1)) by (by rewrite sorted_keys_perm).
  rewrite <-(wo_sum _ Hok). f_equal. rewrite <-list_fmap_compose. apply list_fmap_ext.
  intros i [k w] Hin%list_elem_of_lookup_2%elem_of_map_to_list. simpl.
  unfold weight_of. by rewrite Hin.
Qed.

Lemma weight_le_100 k : weight_of ws k ≤ 100.
Proof.
  destruct (decide (k ∈ sorted_keys)) as [Hk|Hk].
  - rewrite <-sum_sorted. apply zsum_elem.
    + apply Forall_fmap, Forall_forall. intros x _. apply weight_nonneg.
    + apply list_elem_of_fmap. by exists k.
  - rewrite elem_sorted_keys in Hk. unfold weight_of.
    apply eq_None_not_Some in Hk. rewrite Hk. simpl. lia.
Qed.

Lemma ws_nonempty : size ws ≠ 0%nat.
Proof.
  intros E%map_size_empty_inv. pose proof (wo_sum _ Hok) as Hs. rewrite E in Hs.
  by rewrite map_to_list_empty in Hs.
Qed.

Lemma weight_sum_100 : weight_sum (range ws) = 100.
Proof.
  assert (zsum (range ws).*2 = 100) as Hs.
  { rewrite <-(wo_sum _ Hok). apply zsum_perm. by rewrite range_perm. }
  unfold weight_sum. rewrite weight_sum_exact; [lia|done|lia|].
  apply Forall_forall. intros [k w] Hin%elem_of_range. by eapply wo_nonneg.
Qed.

(** The constructors accept such weights. *)
Lemma NewClassic_ok : NewClassicWeightedRoundRobin ws = inl (mkClassic 0 ws sorted_keys).
Proof.
  unfold NewClassicWeightedRoundRobin. rewrite weight_sum_100.
  destruct (Nat.eqb_spec (size ws) 0) as [E|_]; [by apply ws_nonempty in E|done].
Qed.
End weights.
