(* ===== verification/LoadBalancerTheorems.v ===== *)
(** What [load-balancer/] promises: each algorithm's distribution of requests over a
    cycle, and the errors. *)

From stdpp Require Import gmap strings list fin_maps sorting.
From Stdlib Require Import ZArith Lia.
From S2P Require Import Prelude GoLib LoadBalancer LoadBalancerSpec.
Import LB.

(** * The three servers of [main] *)

Definition demo_heap : Heap :=
  <[1%nat := NewBackendServer "1" "http://localhost" 9001 9001]>
  (<[2%nat := NewBackendServer "2" "http://localhost" 9002 9002]>
  (<[3%nat := NewBackendServer "3" "http://localhost" 9003 9003]> ∅)).
Definition demo_lb : LoadBalancer := NewLoadBalancer [1; 2; 3]%nat 10.
Definition demo_weights : gmap string Z :=
  <["1"%string := 50]> (<["2"%string := 25]> (<["3"%string := 25]> ∅)).

Lemma demo_live : live demo_heap demo_lb.
Proof. repeat constructor; by eexists. Qed.

Lemma demo_weights_ok : weights_ok demo_weights.
Proof.
  constructor; [|by vm_compute]. intros k w.
  unfold demo_weights. intros [[_ <-]|[_ [[_ <-]|[_ [[_ <-]|[_ Hw]]%lookup_insert_Some]]%lookup_insert_Some]]%lookup_insert_Some;
    [done..|by rewrite lookup_empty in Hw].
Qed.

Lemma demo_has_server k :
  is_Some (demo_weights !! k) → has_server demo_heap (Servers demo_lb) k.
Proof.
  unfold demo_weights. intros [w Hw].
  apply lookup_insert_Some in Hw as [[<- _]|[_ Hw]].
  { apply Exists_cons_hd. by eexists. }
  apply lookup_insert_Some in Hw as [[<- _]|[_ Hw]].
  { apply Exists_cons_tl, Exists_cons_hd. by eexists. }
  apply lookup_insert_Some in Hw as [[<- _]|[_ Hw]]; [|by rewrite lookup_empty in Hw].
  do 2 apply Exists_cons_tl. apply Exists_cons_hd. by eexists.
Qed.

(** * Round robin *)

Lemma round_robin_step lb c h p :
  len (Servers lb) < 2 ^ 63 → 0 ≤ c → Servers lb !! Z.to_nat c = Some p →
  getNext (Some lb) (mkRR c, h) =
    (Ok (Some p), (mkRR (Z.rem (c + 1) (len (Servers lb))), h)).
Proof.
  intros Hb Hc Hp. pose proof (lookup_lt_Some _ _ _ Hp) as Hl.
  unfold getNext, round_robin. cbn [servers_of].
  destruct (Z.eqb_spec (len (Servers lb)) 0) as [E|_]; [unfold len in E; lia|].
  unfold bind at 1, get_st. cbn [fst counter].
  rewrite (Z.rem_small c) by (unfold len; lia). unfold index.
  destruct (Z.ltb_spec c 0) as [?|_]; [lia|]. rewrite Hp.
  rewrite i64_id; [done|]. unfold len in Hb. lia.
Qed.

(** A run that does not pass the end of the list. *)
Lemma round_robin_run lb h k c :
  len (Servers lb) < 2 ^ 63 → (c + k ≤ length (Servers lb))%nat →
  run_calls (Some lb) k (mkRR (Z.of_nat c), h) =
    (Ok (Some <$> take k (drop c (Servers lb))),
     (mkRR (if decide (k = 0%nat) then Z.of_nat c
            else Z.rem (Z.of_nat (c + k)) (len (Servers lb))), h)).
Proof.
  intros Hb. revert c. induction k as [|k IH]; intros c Hk; [done|].
  destruct (lookup_lt_is_Some_2 (Servers lb) c) as [p Hp]; [lia|].
  rewrite (drop_S _ _ _ Hp), firstn_cons, fmap_cons.
  pose proof (round_robin_step lb (Z.of_nat c) h p) as E. rewrite Nat2Z.id in E.
  specialize (E Hb ltac:(lia) Hp).
  destruct (decide (k = 0%nat)) as [->|Hk0].
  - rewrite (run_calls_S _ 0 _ _ _ [] _ E eq_refl). by rewrite Nat2Z.inj_add.
  - rewrite Z.rem_small in E by (unfold len; lia).
    replace (Z.of_nat c + 1) with (Z.of_nat (S c)) in E by lia.
    rewrite (run_calls_S _ k _ _ _ _ _ E (IH (S c) ltac:(lia))).
    rewrite decide_False by done. by replace (S c + k)%nat with (c + S k)%nat by lia.
Qed.

(** Round robin is fair: from any position in the list, as many calls as there are
    servers return every server once, in the order of the list from that position
    on, and bring the counter back. *)
Theorem round_robin_cycle lb h c :
  len (Servers lb) < 2 ^ 63 → (c < length (Servers lb))%nat →
  run_calls (Some lb) (length (Servers lb)) (mkRR (Z.of_nat c), h) =
    (Ok (Some <$> (drop c (Servers lb) ++ take c (Servers lb))), (mkRR (Z.of_nat c), h)).
Proof.
  intros Hb Hc. set (n := length (Servers lb)).
  pose proof (round_robin_run lb h (n - c) c Hb ltac:(lia)) as E1.
  rewrite decide_False in E1 by lia.
  replace (c + (n - c))%nat with n in E1 by lia.
  rewrite Z.rem_same in E1 by (unfold len; lia).
  pose proof (round_robin_run lb h c 0 Hb ltac:(lia)) as E2. rewrite drop_0 in E2.
  pose proof (run_calls_app _ (n - c) c _ _ _ _ _ E1 E2) as E.
  replace (n - c + c)%nat with n in E by lia. rewrite E, take_ge, <-fmap_app by (rewrite length_drop; lia).
  do 3 f_equal. case_decide; [by subst|]. rewrite Z.rem_small; [done|unfold len; lia].
Qed.

Lemma round_robin_cycle_witness :
  run_calls (Some demo_lb) 3 (mkRR 1, demo_heap) =
    (Ok [Some 2; Some 3; Some 1]%nat, (mkRR 1, demo_heap)).
Proof. apply (round_robin_cycle demo_lb demo_heap 1); [by vm_compute|]. simpl. lia. Defined.

(** With no balancer or no servers every algorithm reports the error and changes
    nothing. *)
Theorem no_servers_error lb :
  servers_of lb = [] →
  (∀ s : RoundRobinLoadBalancingAlgorithm * Heap, getNext lb s = (Err errEmpty, s)) ∧
  (∀ s : ClassicWeightedRoundRobin * Heap, getNext lb s = (Err errEmpty, s)) ∧
  (∀ s : SmoothWeightedRoundRobin * Heap, getNext lb s = (Err errEmpty, s)) ∧
  (∀ s : LeastConnectionsAlgorithm * Heap, getNext lb s = (Err errEmpty, s)).
Proof.
  intros E. unfold getNext, round_robin, classic, smooth, least_connections. rewrite E.
  by split_and!.
Qed.

Lemma no_servers_error_witness :
  getNext None (mkRR 0, demo_heap) = (Err errEmpty, (mkRR 0, demo_heap)).
Proof. by apply (no_servers_error None). Defined.

(** * Classic weighted round robin *)

(** Over the requests of a cycle the running sums pick each key weight-many times
    in a row. *)
Lemma classic_pick_all ws ks acc :
  0 ≤ acc → Forall (λ k, 0 ≤ weight_of ws k) ks →
  acc + zsum (weight_of ws <$> ks) < 2 ^ 63 →
  (λ r, classic_pick ws r acc ks) <$> seqZ (acc + 1) (zsum (weight_of ws <$> ks)) =
    mjoin ((λ k, replicate (Z.to_nat (weight_of ws k)) k) <$> ks).
Proof.
  revert acc. induction ks as [|k ks IH]; intros acc Ha Hf Hb; [done|].
  apply Forall_cons in Hf as [Hk Hf]. csimpl in *.
  assert (0 ≤ zsum (weight_of ws <$> ks)) as Hs by (apply zsum_nonneg; by apply Forall_fmap).
  rewrite seqZ_app by done. rewrite fmap_app. f_equal.
  - apply (list_eq_same_length _ _ (Z.to_nat (weight_of ws k)));
      [by rewrite length_replicate|by rewrite length_fmap, length_seqZ|].
    intros i x y Hi. rewrite list_lookup_fmap, lookup_seqZ_lt by lia.
    rewrite lookup_replicate_2 by done. intros [= <-] [= <-].
    cbn [classic_pick]. rewrite i64_id by lia. by destruct (Z.leb_spec (acc + 1 + Z.of_nat i) (acc + weight_of ws k)); [|lia].
  - replace (acc + 1 + weight_of ws k) with (acc + weight_of ws k + 1) by lia.
    rewrite <-(IH (acc + weight_of ws k)) by (try done; lia). apply list_fmap_ext. intros i r Hr.
    apply lookup_seqZ in Hr as [-> Hi]. cbn [classic_pick]. rewrite i64_id by lia.
    by destruct (Z.leb_spec (acc + weight_of ws k + 1 + Z.of_nat i) (acc + weight_of ws k)); [lia|].
Qed.

Section classic.
Context (lb : LoadBalancer) (h : Heap) (ws : gmap string Z) (ks : list string).
Hypothesis Hlive : live h lb.
Hypothesis Hne : Servers lb ≠ [].

Lemma servers_nonempty : (len (servers_of (Some lb)) =? 0) = false.
Proof. apply Z.eqb_neq. cbn [servers_of]. destruct (Servers lb); [done|]. unfold len. simpl. lia. Qed.

Lemma classic_step count key :
  key = classic_pick ws (Z.rem count 100 + 1) 0 ks → has_server h (Servers lb) key →
  ∃ p, getNext (Some lb) (mkClassic count ws ks, h) =
      (Ok (Some p), (mkClassic (Z.rem count 100 + 1) ws ks, h)) ∧
    is_server h (Servers lb) key p.
Proof.
  intros -> Hk. unfold getNext, classic. rewrite servers_nonempty.
  unfold bind at 1, get_st. cbn [fst requestCount serverWeights keys].
  rewrite (bind_ok _ _ _ tt (mkClassic (Z.rem count 100 + 1) ws ks, h)) by done.
  cbn [servers_of].
  destruct (find_server_has _ (Servers lb) (mkClassic (Z.rem count 100 + 1) ws ks, h) Hlive Hk)
    as (p & E & Hp).
  exists p. split; [|done]. by rewrite (bind_ok _ _ _ _ _ E).
Qed.

(** Requests [count + 1] to [count + n] of a cycle. *)
Lemma classic_run n count :
  0 ≤ count → count + Z.of_nat n ≤ 100 →
  (∀ r, 1 ≤ r ≤ 100 → has_server h (Servers lb) (classic_pick ws r 0 ks)) →
  ∃ rs, run_calls (Some lb) n (mkClassic count ws ks, h) =
      (Ok rs, (mkClassic (count + Z.of_nat n) ws ks, h)) ∧
    chosen h (Servers lb) rs ((λ r, classic_pick ws r 0 ks) <$> seqZ (count + 1) (Z.of_nat n)).
Proof.
  revert count. induction n as [|n IH]; intros count H1 H2 Hs.
  - exists []. split; [|constructor]. by rewrite Z.add_0_r.
  - assert (Z.rem count 100 = count) as Er by (apply Z.rem_small; lia).
    destruct (classic_step count _ eq_refl) as (p & E & Hp); [apply Hs; rewrite Er; lia|].
    rewrite Er in E, Hp.
    destruct (IH (count + 1)) as (rs & E' & Hrs); [lia..|done|].
    exists (Some p :: rs). split.
    + rewrite (run_calls_S _ n _ _ _ _ _ E E'). by replace (count + Z.of_nat (S n)) with (count + 1 + Z.of_nat n) by lia.
    + rewrite seqZ_cons by lia. csimpl. constructor; [by exists p|].
      replace (Z.pred (Z.of_nat (S n))) with (Z.of_nat n) by lia.
      by replace (Z.succ (count + 1)) with (count + 1 + 1) by lia.
Qed.
End classic.

(** The request after the hundredth is the first again. *)
Lemma classic_wrap lb h ws ks n :
  Servers lb ≠ [] →
  run_calls (Some lb) (S n) (mkClassic 100 ws ks, h) =
    run_calls (Some lb) (S n) (mkClassic 0 ws ks, h).
Proof.
  intros Hne. cbn [run_calls]. unfold getNext, classic. by rewrite servers_nonempty.
Qed.

(** The blocks of a cycle: each key as many times as its weight. *)
Definition blocks (ws : gmap string Z) (ks : list string) : list string :=
  mjoin ((λ k, replicate (Z.to_nat (weight_of ws k)) k) <$> ks).

(** Classic weighted round robin: with non-negative weights of sum 100 the constructor
    succeeds, and every 100 calls from the start of a cycle go to the servers in
    blocks, key by key in sorted order, each server exactly as often as its weight;
    the next 100 calls then start a cycle again. *)
Theorem classic_cycle `{MapRange} lb h ws count :
  live h lb → Servers lb ≠ [] → weights_ok ws →
  (∀ k, is_Some (ws !! k) → has_server h (Servers lb) k) → count = 0 ∨ count = 100 →
  NewClassicWeightedRoundRobin ws = inl (mkClassic 0 ws (sorted_keys ws)) ∧
  ∃ rs, run_calls (Some lb) 100 (mkClassic count ws (sorted_keys ws), h) =
      (Ok rs, (mkClassic 100 ws (sorted_keys ws), h)) ∧
    chosen h (Servers lb) rs (blocks ws (sorted_keys ws)).
Proof.
  intros Hl Hne Hw Hk Hc. split; [by apply NewClassic_ok|].
  assert (Forall (λ k, 0 ≤ weight_of ws k) (sorted_keys ws)) as Hnn.
  { apply Forall_forall. intros k _. by apply weight_nonneg. }
  pose proof (classic_pick_all ws (sorted_keys ws) 0 ltac:(done) Hnn) as Hp.
  rewrite sum_sorted in Hp by done. specialize (Hp ltac:(done)).
  assert (∀ r, 1 ≤ r ≤ 100 →
    has_server h (Servers lb) (classic_pick ws r 0 (sorted_keys ws))) as Hs.
  { intros r Hr. apply Hk, elem_sorted_keys.
    assert (classic_pick ws r 0 (sorted_keys ws) ∈ blocks ws (sorted_keys ws)) as Hin.
    { unfold blocks. rewrite <-Hp. apply list_elem_of_fmap. exists r. split; [done|].
      apply elem_of_seqZ. lia. }
    unfold blocks in Hin. apply list_elem_of_join in Hin as (l & Hin & Hl').
    apply list_elem_of_fmap in Hl' as (k & -> & Hk'). by apply elem_of_replicate in Hin as [-> _]. }
  destruct (classic_run lb h ws (sorted_keys ws) Hl Hne 100 0) as (rs & E & Hrs); [done..|].
  change (Z.of_nat 100) with 100 in *. rewrite Hp in Hrs. exists rs. split; [|exact Hrs].
  destruct Hc as [->| ->]; [exact E|]. by rewrite classic_wrap.
Qed.

Lemma classic_cycle_witness :
  NewClassicWeightedRoundRobin demo_weights =
    inl (mkClassic 0 demo_weights (sorted_keys demo_weights)) ∧
  ∃ rs, run_calls (Some demo_lb) 100
      (mkClassic 0 demo_weights (sorted_keys demo_weights), demo_heap) =
      (Ok rs, (mkClassic 100 demo_weights (sorted_keys demo_weights), demo_heap)) ∧
    chosen demo_heap (Servers demo_lb) rs (blocks demo_weights (sorted_keys demo_weights)).
Proof.
  apply (classic_cycle demo_lb demo_heap demo_weights 0 demo_live); [done|apply demo_weights_ok| |by left].
  apply demo_has_server.
Defined.

(** * Least connections *)

Section least.
Context (h : Heap).

(** The connection count at an address. *)
Definition count_at (p : ptr) : Z := default 0 (activeConnectionsCount <$> h !! p).

(** [p] is the first of the list with the smallest count. *)
Definition first_min (servers : list ptr) (p : ptr) : Prop :=
  ∃ l1 l2, servers = l1 ++ p :: l2 ∧ Forall (λ q, count_at p < count_at q) l1 ∧
    Forall (λ q, count_at p ≤ count_at q) l2.

Lemma least_loop_spec servers min r (a : LeastConnectionsAlgorithm) :
  Forall (λ p, is_Some (h !! p)) servers →
  (least_loop servers min r (a, h) = (Ok r, (a, h)) ∧ Forall (λ q, min ≤ count_at q) servers) ∨
  (∃ p, least_loop servers min r (a, h) = (Ok (Some p), (a, h)) ∧
    count_at p < min ∧ first_min servers p).
Proof.
  revert min r. induction servers as [|p ps IH]; intros min r Hl; [by left|].
  apply Forall_cons in Hl as [[b Hb] Hl]. cbn [least_loop].
  rewrite (bind_ok _ _ (a, h) b (a, h)) by (unfold deref, bind, get_st; cbn; by rewrite Hb).
  assert (GetActiveConnections b = count_at p) as -> by (unfold count_at; by rewrite Hb).
  destruct (Z.ltb_spec (count_at p) min) as [Hlt|Hge].
  - right. destruct (IH (count_at p) (Some p) Hl) as [[E F]|(q & E & Hq & l1 & l2 & -> & F1 & F2)].
    + exists p. split; [done|]. split; [done|]. by exists [], ps.
    + exists q. split; [done|]. split; [lia|]. exists (p :: l1), l2. split; [done|]. by split; [constructor|].
  - destruct (IH min r Hl) as [[E F]|(q & E & Hq & l1 & l2 & -> & F1 & F2)].
    + left. split; [done|]. by constructor.
    + right. exists q. split; [done|]. split; [done|]. exists (p :: l1), l2. split; [done|].
      split; [|done]. constructor; [lia|done].
Qed.
End least.

(** Least connections returns the first of the servers with the fewest active connections,
    and changes nothing; only when every count is at the largest [int32] does it
    return a nil server, without an error. *)
Theorem least_connections_min lb h a :
  live h lb → Servers lb ≠ [] →
  (∃ p, getNext (A := LeastConnectionsAlgorithm) (Some lb) (a, h) = (Ok (Some p), (a, h)) ∧
    count_at h p < MaxInt32 ∧ first_min h (Servers lb) p) ∨
  (getNext (A := LeastConnectionsAlgorithm) (Some lb) (a, h) = (Ok None, (a, h)) ∧
    Forall (λ q, MaxInt32 ≤ count_at h q) (Servers lb)).
Proof.
  intros Hl Hne. unfold getNext, least_connections. rewrite servers_nonempty by done.
  cbn [servers_of]. destruct (least_loop_spec h (Servers lb) MaxInt32 None a Hl) as [?|?]; [by right|by left].
Qed.

Lemma least_connections_min_witness :
  let h := <[1%nat := IncrementConnections (NewBackendServer "1" "http://localhost" 9001 9001)]> demo_heap in
  (∃ p, getNext (Some demo_lb) (mkLeast, h) = (Ok (Some p), (mkLeast, h)) ∧
    count_at h p < MaxInt32 ∧ first_min h (Servers demo_lb) p) ∨
  (getNext (Some demo_lb) (mkLeast, h) = (Ok None, (mkLeast, h)) ∧
    Forall (λ q, MaxInt32 ≤ count_at h q) (Servers demo_lb)).
Proof.
  intros h. apply (least_connections_min demo_lb h mkLeast); [|done].
  repeat constructor; by eexists.
Defined.
