(* ===== verification/LoadBalancerSmooth.v ===== *)
(** The smooth weighted round robin: what one pass over the keys computes, the
    conservation law of the current weights, and the distribution over a cycle. *)

From stdpp Require Import gmap strings list fin_maps sorting.
From Stdlib Require Import ZArith Lia.
From S2P Require Import Prelude GoLib LoadBalancer LoadBalancerSpec LoadBalancerTheorems.
Import LB.

(** * One pass over the keys *)

Lemma weight_of_insert (m : gmap string Z) k v k' :
  weight_of (<[k := v]> m) k' = if decide (k' = k) then v else weight_of m k'.
Proof.
  unfold weight_of. destruct (decide (k' = k)) as [->|Hne];
    [by rewrite lookup_insert_eq|by rewrite lookup_insert_ne].
Qed.

(** Every key grows by its weight; the key kept is a largest one. *)
Lemma smooth_pick_spec ws ks cw max maxKey :
  NoDup ks →
  (∀ k, k ∈ ks → - 2 ^ 63 ≤ weight_of cw k + weight_of ws k < 2 ^ 63) →
  let r := smooth_pick ws ks cw max maxKey in
  (∀ k, is_Some (r.1 !! k) ↔ is_Some (cw !! k) ∨ k ∈ ks) ∧
  (∀ k, weight_of r.1 k =
    if decide (k ∈ ks) then weight_of cw k + weight_of ws k else weight_of cw k) ∧
  (r.2 = maxKey ∧ (∀ k, k ∈ ks → weight_of r.1 k ≤ max) ∨
   r.2 ∈ ks ∧ max < weight_of r.1 r.2 ∧ ∀ k, k ∈ ks → weight_of r.1 k ≤ weight_of r.1 r.2).
Proof.
  revert cw max maxKey. induction ks as [|key ks IH]; intros cw max maxKey Hnd Hb.
  { simpl. split_and!; [|done|].
    - intros k. split; [by left|]. by intros [?|?%not_elem_of_nil].
    - left. split; [done|]. by intros k ?%not_elem_of_nil. }
  apply NoDup_cons in Hnd as [Hk Hnd]. cbn [smooth_pick].
  rewrite (i64_id _ (Hb key (list_elem_of_here _ _))).
  set (v := weight_of cw key + weight_of ws key). set (cw1 := <[key := v]> cw).
  assert (∀ k, k ∈ ks → weight_of cw1 k = weight_of cw k) as Hsame.
  { intros k Hin. unfold cw1. rewrite weight_of_insert, decide_False; [done|]. by intros ->. }
  assert (∀ k, k ∈ ks → - 2 ^ 63 ≤ weight_of cw1 k + weight_of ws k < 2 ^ 63) as Hb1.
  { intros k Hin. rewrite Hsame by done. apply Hb. by right. }
  assert (∀ k, is_Some (cw1 !! k) ↔ is_Some (cw !! k) ∨ k = key) as Hdom.
  { intros k. unfold cw1. rewrite lookup_insert_is_Some.
    destruct (decide (key = k)) as [->|Hn]; [by split; auto|].
    split; [intros [?|[? ?]]; [done|by left]|intros [?|?]; [by right|congruence]]. }
  assert (∀ mx mk, let r := smooth_pick ws ks cw1 mx mk in
    (∀ k, is_Some (r.1 !! k) ↔ is_Some (cw !! k) ∨ k ∈ key :: ks) ∧
    (∀ k, weight_of r.1 k = if decide (k ∈ key :: ks)
       then weight_of cw k + weight_of ws k else weight_of cw k) ∧
    weight_of r.1 key = v ∧
    (r.2 = mk ∧ (∀ k, k ∈ ks → weight_of r.1 k ≤ mx) ∨
     r.2 ∈ ks ∧ mx < weight_of r.1 r.2 ∧ ∀ k, k ∈ ks → weight_of r.1 k ≤ weight_of r.1 r.2))
    as Hrest.
  { intros mx mk r. destruct (IH cw1 mx mk Hnd Hb1) as (R1 & R2 & R3). fold r in R1, R2, R3.
    split_and!; [| | |done].
    - intros k. rewrite R1, Hdom, elem_of_cons. tauto.
    - intros k. rewrite R2. destruct (decide (k ∈ ks)) as [Hin|Hnin].
      + rewrite decide_True by (by right). by rewrite Hsame.
      + unfold cw1. rewrite weight_of_insert. destruct (decide (k = key)) as [->|Hne].
        * by rewrite decide_True by left.
        * rewrite decide_False; [done|]. by intros [?|?]%elem_of_cons.
    - rewrite R2, decide_False by done. unfold cw1. by rewrite weight_of_insert, decide_True. }
  destruct (Z.ltb_spec max v) as [Hlt|Hge].
  - destruct (Hrest v key) as (R1 & R2 & Rk & R3).
    set (r := smooth_pick ws ks cw1 v key) in *. split_and!; [done|done|].
    right. destruct R3 as [[-> Hle]|(Hin & Hlt' & Hle)].
    + rewrite Rk. split_and!; [by left|done|]. intros k [->|Hk']%elem_of_cons; [lia|auto].
    + split_and!; [by right|lia|]. intros k [->|Hk']%elem_of_cons; [lia|auto].
  - destruct (Hrest max maxKey) as (R1 & R2 & Rk & R3).
    set (r := smooth_pick ws ks cw1 max maxKey) in *. split_and!; [done|done|].
    destruct R3 as [[E Hle]|(Hin & Hlt' & Hle)]; [left|right].
    + split; [done|]. intros k [->|Hk']%elem_of_cons; [lia|auto].
    + split_and!; [by right|done|]. intros k [->|Hk']%elem_of_cons; [lia|auto].
Qed.

(** * The conservation law *)

(** How often a key occurs. *)
Definition occ (k : string) (l : list string) : Z :=
  zsum ((λ x, if decide (x = k) then 1 else 0) <$> l).

Lemma occ_snoc k l x : occ k (l ++ [x]) = occ k l + if decide (x = k) then 1 else 0.
Proof. unfold occ. rewrite fmap_app, zsum_app. csimpl. lia. Qed.

Lemma occ_nonneg k l : 0 ≤ occ k l.
Proof.
  apply zsum_nonneg, Forall_fmap, Forall_forall. intros x _. simpl. by destruct (decide _).
Qed.

Lemma zsum_scale {A} (c : Z) (f : A → Z) l : zsum ((λ x, c * f x) <$> l) = c * zsum (f <$> l).
Proof. induction l as [|x l IH]; csimpl; lia. Qed.

Lemma zsum_const {A} (c : Z) (l : list A) : zsum ((λ _, c) <$> l) = c * len l.
Proof. induction l as [|x l IH]; csimpl; [unfold len; simpl; lia|]. rewrite IH. autorewrite with go. lia. Qed.

(** All larger or equal and of the same sum: equal. *)
Lemma zsum_squeeze {A} (f g : A → Z) l :
  (∀ x, x ∈ l → f x ≤ g x) → zsum (f <$> l) = zsum (g <$> l) → ∀ x, x ∈ l → f x = g x.
Proof.
  induction l as [|y l IH]; intros Hle He x Hx; [by apply not_elem_of_nil in Hx|].
  csimpl in *. assert (f y ≤ g y) as H1 by (apply Hle; by left).
  assert (∀ x, x ∈ l → f x ≤ g x) as H2 by (intros z Hz; apply Hle; by right).
  pose proof (zsum_le f g l H2). apply elem_of_cons in Hx as [->|Hx]; [lia|].
  apply IH; [done|lia|done].
Qed.

Section smooth.
Context `{MapRange}.
Context (lb : LoadBalancer) (h : Heap) (ws : gmap string Z).
Hypothesis Hlive : live h lb.
Hypothesis Hne : Servers lb ≠ [].
Hypothesis Hw : weights_ok ws.
Hypothesis Hsize : Z.of_nat (size ws) ≤ 2 ^ 32.
Hypothesis Hservers : ∀ k, is_Some (ws !! k) → has_server h (Servers lb) k.
Abbreviation ks := (sorted_keys ws).

(** After the keys [l] were chosen, every current weight is what the key is owed:
    its share of the requests less 100 for each it got. *)
Record SInv (cw : gmap string Z) (l : list string) : Prop := {
  si_dom : ∀ k, is_Some (cw !! k) ↔ k ∈ ks;
  si_owed : ∀ k, k ∈ ks → weight_of cw k = len l * weight_of ws k - 100 * occ k l;
  si_low : ∀ k, k ∈ ks → -100 < weight_of cw k;
  si_keys : Forall (.∈ ks) l;
}.

Lemma len_ks : len ks = Z.of_nat (size ws).
Proof.
  unfold len. rewrite sorted_keys_perm, length_fmap. by rewrite length_map_to_list.
Qed.

Lemma occ_sum l : Forall (.∈ ks) l → zsum ((λ k, occ k l) <$> ks) = len l.
Proof.
  induction l as [|x l IH] using rev_ind; intros Hl.
  - apply (zsum_const 0).
  - apply Forall_app in Hl as [Hl [Hx _]%Forall_cons].
    rewrite (zsum_ext _ (λ k, if decide (k = x) then occ k l + 1 else occ k l)).
    + rewrite zsum_update by (done || apply sorted_keys_NoDup). rewrite IH by done.
      autorewrite with go. lia.
    + intros k _. rewrite occ_snoc. repeat case_decide; (congruence || lia).
Qed.

(** The current weights sum to zero, so none exceeds 100 times the others. *)
Lemma SInv_sum cw l : SInv cw l → zsum (weight_of cw <$> ks) = 0.
Proof.
  intros [_ H2 _ H4]. rewrite (zsum_ext _ _ _ H2).
  rewrite (zsum_ext _ (λ k, len l * weight_of ws k + -100 * occ k l)) by (intros; lia).
  rewrite (zsum_plus (λ k, len l * weight_of ws k) (λ k, -100 * occ k l)).
  rewrite !zsum_scale, sum_sorted, occ_sum by done. lia.
Qed.

Lemma SInv_high cw l k : SInv cw l → k ∈ ks → weight_of cw k < 100 * len ks.
Proof.
  intros HS Hk. pose proof (SInv_sum _ _ HS) as Hsum.
  assert (zsum ((λ x, weight_of cw x + 100) <$> ks) = 100 * len ks) as Hs.
  { rewrite (zsum_plus (weight_of cw) (λ _, 100)), Hsum, zsum_const. lia. }
  assert (weight_of cw k + 100 ≤ 100 * len ks); [|lia].
  rewrite <-Hs. apply zsum_elem.
  - apply Forall_fmap, Forall_forall. intros x Hx. simpl. pose proof (si_low _ _ HS x Hx). lia.
  - apply list_elem_of_fmap. by exists k.
Qed.

(** One call. *)
Lemma smooth_step cw l c :
  SInv cw l →
  ∃ p m cw', getNext (Some lb) (mkSmooth c ws cw ks, h) =
      (Ok (Some p), (mkSmooth c ws cw' ks, h)) ∧
    is_server h (Servers lb) m p ∧ SInv cw' (l ++ [m]).
Proof.
  intros HS. pose proof HS as [S1 S2 S3 S4].
  destruct (smooth_pick_spec ws ks cw MinInt EmptyString) as (R1 & R2 & R3).
  { apply sorted_keys_NoDup. }
  { intros k Hk. pose proof (S3 k Hk). pose proof (SInv_high _ _ _ HS Hk).
    pose proof (weight_nonneg ws Hw k). pose proof (weight_le_100 ws Hw k).
    rewrite len_ks in *. lia. }
  destruct (smooth_pick ws ks cw MinInt EmptyString) as [cw1 m] eqn:Ep. cbn [fst snd] in *.
  assert (∀ k, k ∈ ks → weight_of cw1 k = weight_of cw k + weight_of ws k) as Hy.
  { intros k Hk. by rewrite R2, decide_True. }
  assert (zsum (weight_of cw1 <$> ks) = 100) as Hsum.
  { rewrite (zsum_ext _ _ _ Hy), (zsum_plus (weight_of cw) (weight_of ws)).
    rewrite (SInv_sum _ _ HS), sum_sorted by done. lia. }
  assert (m ∈ ks ∧ ∀ k, k ∈ ks → weight_of cw1 k ≤ weight_of cw1 m) as [Hm Hmax].
  { destruct R3 as [[_ Hle]|(? & _ & ?)]; [|done]. exfalso.
    assert (zsum (weight_of cw1 <$> ks) ≤ zsum ((λ _, 0) <$> ks)) as Hz.
    { apply zsum_le. intros k Hk. specialize (Hle k Hk). unfold MinInt in Hle. lia. }
    rewrite zsum_const in Hz. lia. }
  assert (0 < weight_of cw1 m) as Hpos.
  { destruct (Z.ltb_spec 0 (weight_of cw1 m)); [done|]. exfalso.
    assert (zsum (weight_of cw1 <$> ks) ≤ zsum ((λ _, 0) <$> ks)) as Hz.
    { apply zsum_le. intros k Hk. specialize (Hmax k Hk). lia. }
    rewrite zsum_const in Hz. lia. }
  set (cw2 := <[m := weight_of cw1 m - 100]> cw1).
  assert (i64 (weight_of cw1 m - 100) = weight_of cw1 m - 100) as Hi.
  { apply i64_id. rewrite Hy by done. pose proof (S3 m Hm). pose proof (SInv_high _ _ _ HS Hm).
    pose proof (weight_nonneg ws Hw m). pose proof (weight_le_100 ws Hw m).
    rewrite len_ks in *. lia. }
  destruct (find_server_has m (Servers lb) (mkSmooth c ws cw1 ks, h) Hlive) as (p & Ef & Hp).
  { by apply Hservers, (elem_sorted_keys ws). }
  exists p, m, cw2. split_and!; [|done|].
  - unfold getNext, smooth. rewrite servers_nonempty by done.
    unfold bind at 1, get_st. cbn [fst s_serverWeights s_keys currentWeights s_requestCount].
    rewrite Ep. rewrite (bind_ok _ _ _ tt (mkSmooth c ws cw1 ks, h)) by done.
    cbn [servers_of]. rewrite (bind_ok _ _ _ _ _ Ef). rewrite Hi. done.
  - constructor.
    + intros k. unfold cw2. rewrite lookup_insert_is_Some, R1, S1.
      destruct (decide (m = k)) as [->|Hne']; [tauto|]. split; [tauto|]. right. tauto.
    + intros k Hk. unfold cw2. rewrite weight_of_insert, occ_snoc. autorewrite with go.
      specialize (S2 k Hk). specialize (Hy k Hk). repeat case_decide; subst; (congruence || lia).
    + intros k Hk. unfold cw2. rewrite weight_of_insert. destruct (decide (k = m)); [lia|].
      rewrite Hy by done. pose proof (S3 k Hk). pose proof (weight_nonneg ws Hw k). lia.
    + apply Forall_app. by repeat constructor.
Qed.

Lemma smooth_run n cw l c :
  SInv cw l →
  ∃ rs ms cw', run_calls (Some lb) n (mkSmooth c ws cw ks, h) =
      (Ok rs, (mkSmooth c ws cw' ks, h)) ∧
    chosen h (Servers lb) rs ms ∧ length ms = n ∧ SInv cw' (l ++ ms).
Proof.
  revert cw l. induction n as [|n IH]; intros cw l HS.
  - exists [], [], cw. rewrite (right_id_L [] (++)). split_and!; [done|constructor|done|done].
  - destruct (smooth_step cw l c HS) as (p & m & cw1 & E & Hp & HS1).
    destruct (IH cw1 _ HS1) as (rs & ms & cw2 & E2 & Hrs & Hlen & HS2).
    exists (Some p :: rs), (m :: ms), cw2. split_and!.
    + by apply (run_calls_S _ n _ _ _ _ _ E E2).
    + constructor; [by exists p|done].
    + simpl. by rewrite Hlen.
    + by rewrite <-(assoc_L (++)) in HS2.
Qed.

(** The state of the constructor. *)
Definition zero_weights : gmap string Z := fold_left (λ m key, <[key := 0]> m) (range ws).*1 ∅.

Lemma zero_lookup k : zero_weights !! k = if decide (k ∈ ks) then Some 0 else None.
Proof.
  unfold zero_weights.
  assert (∀ (l : list string) (m : gmap string Z),
    fold_left (λ m key, <[key := 0]> m) l m !! k = if decide (k ∈ l) then Some 0 else m !! k) as Hf.
  { induction l as [|x l IH]; intros m; cbn [fold_left].
    - rewrite decide_False; [done|apply not_elem_of_nil].
    - rewrite IH. destruct (decide (k ∈ l)) as [Hin|Hin].
      + rewrite decide_True; [done|by right].
      + destruct (decide (k = x)) as [->|Hne'].
        * rewrite lookup_insert_eq, decide_True; [done|by left].
        * rewrite lookup_insert_ne by done. rewrite decide_False; [done|].
          by intros [?|?]%elem_of_cons. }
  rewrite Hf, lookup_empty. unfold sorted_keys.
  pose proof (sort_strings_perm (range ws).*1) as Hp.
  destruct (decide (k ∈ (range ws).*1)) as [Hi|Hi]; rewrite <-Hp in Hi;
    [by rewrite decide_True|by rewrite decide_False].
Qed.

Lemma SInv_zero : SInv zero_weights [].
Proof.
  assert (∀ k, weight_of zero_weights k = 0) as Hz.
  { intros k. unfold weight_of. rewrite zero_lookup. by destruct (decide _). }
  constructor; [|intros k _; by rewrite Hz|intros k _; by rewrite Hz|constructor].
  intros k. rewrite zero_lookup. destruct (decide (k ∈ ks)); [by split|]. by split; [intros [? ?]|].
Qed.

Lemma NewSmooth_ok : NewSmoothWeightRoundRobin ws = inl (mkSmooth 0 ws zero_weights ks).
Proof.
  unfold NewSmoothWeightRoundRobin. rewrite weight_sum_100 by done.
  destruct (Nat.eqb_spec (size ws) 0) as [E|_]; [by apply ws_nonempty in E|done].
Qed.

(** After 100 requests everything is as at the start. *)
Lemma SInv_cycle cw l :
  SInv cw l → length l = 100%nat →
  cw = zero_weights ∧ ∀ k, k ∈ ks → occ k l = weight_of ws k.
Proof.
  intros HS Hl. pose proof HS as [S1 S2 S3 S4].
  assert (len l = 100) as Hlen by (unfold len; lia). rewrite Hlen in S2.
  assert (∀ k, k ∈ ks → occ k l = weight_of ws k) as Ho.
  { apply zsum_squeeze.
    - intros k Hk. pose proof (S2 k Hk). pose proof (S3 k Hk). lia.
    - rewrite occ_sum, sum_sorted by done. done. }
  split; [|done]. apply map_eq. intros k. rewrite zero_lookup.
  destruct (decide (k ∈ ks)) as [Hk|Hk].
  - pose proof (S2 k Hk) as E. rewrite (Ho k Hk) in E. unfold weight_of in E at 1.
    destruct (proj2 (S1 k) Hk) as [v Hv]. rewrite Hv in *. simpl in E. f_equal. lia.
  - apply eq_None_not_Some. by rewrite S1.
Qed.
End smooth.

(** * Theorems *)

(** C4: Smooth weighted round robin: with non-negative weights of sum 100 the constructor
    succeeds, and 100 calls from its state choose every server exactly as often as
    its weight and bring the current weights back to zero, so that the next cycle
    is the same again. *)
Theorem smooth_cycle `{MapRange} lb h ws :
  live h lb → Servers lb ≠ [] → weights_ok ws → Z.of_nat (size ws) ≤ 2 ^ 32 →
  (∀ k, is_Some (ws !! k) → has_server h (Servers lb) k) →
  ∃ s rs ms, NewSmoothWeightRoundRobin ws = inl s ∧
    run_calls (Some lb) 100 (s, h) = (Ok rs, (s, h)) ∧
    chosen h (Servers lb) rs ms ∧ ∀ k, is_Some (ws !! k) → occ k ms = weight_of ws k.
Proof.
  intros Hl Hne Hw Hsz Hs.
  destruct (smooth_run lb h ws Hl Hne Hw Hsz Hs 100 _ [] 0 (SInv_zero ws))
    as (rs & ms & cw & E & Hrs & Hlen & HS). cbn [app] in HS.
  destruct (SInv_cycle ws Hw cw ms HS Hlen) as [-> Ho].
  exists (mkSmooth 0 ws (zero_weights ws) (sorted_keys ws)), rs, ms.
  split_and!; [by apply NewSmooth_ok|exact E|done|]. intros k Hk.
  by apply Ho, elem_sorted_keys.
Qed.

Lemma smooth_cycle_witness :
  ∃ s rs ms, NewSmoothWeightRoundRobin demo_weights = inl s ∧
    run_calls (Some demo_lb) 100 (s, demo_heap) = (Ok rs, (s, demo_heap)) ∧
    chosen demo_heap (Servers demo_lb) rs ms ∧
    ∀ k, is_Some (demo_weights !! k) → occ k ms = weight_of demo_weights k.
Proof.
  apply (smooth_cycle demo_lb demo_heap demo_weights demo_live);
    [done|apply demo_weights_ok|by vm_compute|apply demo_has_server].
Defined.

(** C15: It is smooth: after any number [n] of requests a server of weight [w] has received
    fewer than one request more than its share [n * w / 100], and its lag stays below
    the number of servers; no current weight overflows on the way. *)
Theorem smooth_within_share `{MapRange} lb h ws n :
  live h lb → Servers lb ≠ [] → weights_ok ws → Z.of_nat (size ws) ≤ 2 ^ 32 →
  (∀ k, is_Some (ws !! k) → has_server h (Servers lb) k) →
  ∃ s rs s' ms, NewSmoothWeightRoundRobin ws = inl s ∧
    run_calls (Some lb) n (s, h) = (Ok rs, (s', h)) ∧
    chosen h (Servers lb) rs ms ∧ ∀ k, is_Some (ws !! k) →
      weight_of (currentWeights s') k = Z.of_nat n * weight_of ws k - 100 * occ k ms ∧
      -100 < weight_of (currentWeights s') k < 100 * Z.of_nat (size ws).
Proof.
  intros Hl Hne Hw Hsz Hs.
  destruct (smooth_run lb h ws Hl Hne Hw Hsz Hs n _ [] 0 (SInv_zero ws))
    as (rs & ms & cw & E & Hrs & Hlen & HS). cbn [app] in HS.
  exists (mkSmooth 0 ws (zero_weights ws) (sorted_keys ws)), rs,
    (mkSmooth 0 ws cw (sorted_keys ws)), ms.
  split_and!; [by apply NewSmooth_ok|exact E|done|]. intros k Hk%(elem_sorted_keys ws).
  cbn [currentWeights]. pose proof (si_owed _ _ _ HS k Hk) as Ho.
  unfold len in Ho. rewrite Hlen in Ho. split; [exact Ho|].
  rewrite <-len_ks. split; [by apply (si_low _ _ _ HS)|by apply (SInv_high ws Hw cw ms)].
Qed.

Lemma smooth_within_share_witness :
  ∃ s rs s' ms, NewSmoothWeightRoundRobin demo_weights = inl s ∧
    run_calls (Some demo_lb) 7 (s, demo_heap) = (Ok rs, (s', demo_heap)) ∧
    chosen demo_heap (Servers demo_lb) rs ms ∧ ∀ k, is_Some (demo_weights !! k) →
      weight_of (currentWeights s') k = Z.of_nat 7 * weight_of demo_weights k - 100 * occ k ms ∧
      -100 < weight_of (currentWeights s') k < 100 * Z.of_nat (size demo_weights).
Proof.
  apply (smooth_within_share demo_lb demo_heap demo_weights 7 demo_live);
    [done|apply demo_weights_ok|by vm_compute|apply demo_has_server].
Defined.
