(* ===== verification/LoadBalancerHandler.v ===== *)
(** [load-balancer/main.go]: [requestHandler] and [forwardRequest].  The handler
    is written against the interface [LoadBalancingAlgorithm].  The network is
    the script [net] of results [client.Do] will give; what is sent is recorded. *)

From Stdlib Require Import ZArith Lia Ascii String.
From stdpp Require Import gmap strings list fin_maps.
From S2P Require Import Prelude GoLib GoHttp LoadBalancer.
Import LB.

Module Handler.
Export Http.

(** [for key, values := range src { for _, value := range values { dst.Add } }]. *)
Definition copy_headers `{MapRange} (src dst : Header) : Header :=
  fold_left (λ h kv, fold_left (λ h v, header_add kv.1 v h) kv.2 h) (range src) dst.

(** * Requests and responses *)

Record Request := mkRequest {
  Method : string;
  Path : string;
  RawQuery : string;
  RemoteAddr : string;
  Host : string;
  TLS : bool;               (* r.TLS != nil *)
  rHeader : Header;
  rBody : bytes;
}.

(** A request as sent to a backend. *)
Record BackendRequest := mkBackend {
  bMethod : string;
  bUrl : string;
  bHeader : Header;
  bBody : bytes;
}.

(** A backend's response; the body is what can be read of it. *)
Record Response := mkResponse {
  StatusCode : Z;
  respHeader : Header;
  respBody : bytes;
}.

Definition add_headers `{MapRange} (h : Header) : M Writer unit :=
  modify (λ w, mkWriter (wStatus w) (copy_headers h (wHeader w)) (wBody w)).

(** * The handler *)

Section handler.
Context `{LoadBalancingAlgorithm A} `{MapRange}.

(** [http.NewRequest] rejects a malformed method or URL. *)
Variable NewRequest_err : string → string → option goerr.

(** The algorithm, the servers, the coming results of [client.Do], the requests
    sent so far, and the writer of the request at hand. *)
Record HState := mkHState {
  alg : A;
  heap : Heap;
  net : list (Response + goerr);
  sent : list BackendRequest;
  writer : Writer;
}.

Definition set_heap f (s : HState) :=
  mkHState (alg s) (f (heap s)) (net s) (sent s) (writer s).
Definition on_writer {B} (m : M Writer B) : M HState B :=
  zoom writer (λ w s, mkHState (alg s) (heap s) (net s) (sent s) w) m.
Definition on_alg {B} (m : M (A * Heap) B) : M HState B :=
  zoom (λ s, (alg s, heap s))
    (λ t s, mkHState t.1 t.2 (net s) (sent s) (writer s)) m.

(** [client.Do]: the next result of the script; an exhausted script is a network
    that is down. *)
Definition Do (req : BackendRequest) : M HState Response := λ s,
  let s' r := mkHState (alg s) (heap s) r (sent s ++ [req]) (writer s) in
  match net s with
  | inl resp :: rest => (Ok resp, s' rest)
  | inr e :: rest => (Err e, s' rest)
  | [] => (Err ErrIO, s' [])
  end.

(** The URL and the headers of the forwarded request. *)
Definition backend_url (b : BackendServerProperties) (r : Request) : string :=
  let backendURL := GetUrl b +:+ ":" +:+ itoa (GetAPIPort b) +:+ Path r in
  if String.eqb (RawQuery r) "" then backendURL else backendURL +:+ "?" +:+ RawQuery r.
Definition backend_header (r : Request) : Header :=
  let h := copy_headers (rHeader r) ∅ in
  let h := header_set "X-Forwarded-For" (RemoteAddr r) h in
  let h := header_set "X-Forwarded-Host" (Host r) h in
  if TLS r then header_set "X-Forwarded-Proto" "https" h
  else header_set "X-Forwarded-Proto" "http" h.

(** A reply of the balancer's own. *)
Definition reply (code : Z) (msg : string) : M HState unit :=
  on_writer (do! WriteHeader code in Write (bytes_of msg)).

(** Up to [client.Do]: the server whose connection count was incremented and the
    request for it, or [None] when a reply was written. *)
Definition forwardStart (r : Request) (server : option ptr)
    : M HState (option (ptr * BackendRequest)) :=
  match server with
  | None => panic "nil pointer dereference"
  | Some p =>
      let! b := on_alg (deref p) in
      let backendURL := backend_url b r in
      match NewRequest_err (Method r) backendURL with
      | Some _ => do! reply 500 "Failed to create backend request" in ret None
      | None =>
          do! modify (set_heap (alter IncrementConnections p)) in
          ret (Some (p, mkBackend (Method r) backendURL (backend_header r) (rBody r)))
      end
  end.

(** After [client.Do]: what goes back to the client, and the deferred decrement,
    which only a response registers.  An error while the body is copied is only
    printed. *)
Definition forwardEnd (server : ptr) (backendResp : Response + goerr) : M HState unit :=
  match backendResp with
  | inr _ => reply 502 "Backend server unavailable"
  | inl resp =>
      defer (modify (set_heap (alter DecrementConnections server)))
        (on_writer
          (do! add_headers (respHeader resp) in
           do! WriteHeader (StatusCode resp) in
           Write (respBody resp)))
  end.

Definition forwardRequest (r : Request) (server : option ptr) : M HState unit :=
  let! start := forwardStart r server in
  match start with
  | None => ret tt
  | Some (p, backendReq) =>
      let! backendResp := attempt (Do backendReq) in
      forwardEnd p backendResp
  end.

(** [requestHandler], with what follows [getNext] as an argument. *)
Definition handleWith {B} (forward : option ptr → M HState B) (other : B)
    (lb : LoadBalancer) : M HState B :=
  let! nextServer := attempt (on_alg (getNext (Some lb))) in
  match nextServer with
  | inr _ => do! reply 500 "Error while processing the request" in ret other
  | inl p => forward p
  end.
Definition requestHandler (lb : LoadBalancer) (r : Request) : M HState unit :=
  handleWith (forwardRequest r) tt lb.

(** [healthCheck]. *)
Definition healthCheck : M HState unit :=
  on_writer (do! WriteHeader 200 in Write (bytes_of "Hello")).
End handler.
Arguments HState A : clear implicits.

(** [startServer]: the patterns of the mux, the longest match first. *)
Inductive route := HealthRoute | RequestRoute.
Definition mux (path : string) : route :=
  if String.eqb path "/health" then HealthRoute else RequestRoute.

End Handler.
