(* ===== verification/LoadBalancerHandlerTheorems.v ===== *)
(** What the request handler of [load-balancer/main.go] promises to a client and to a
    backend, and the accounting of connections when requests overlap.  The handler
    is proved against the laws of [LawfulAlgorithm], which the four algorithms meet. *)

From Stdlib Require Import ZArith Lia Ascii String.
From stdpp Require Import gmap strings list fin_maps.
From S2P Require Import Prelude GoLib LoadBalancer LoadBalancerSpec LoadBalancerTheorems.
From S2P Require Import LoadBalancerHandler.
Import LB Handler.

(** * The interface's laws *)

(** An algorithm leaves the servers alone and chooses among the configured ones. *)
Class LawfulAlgorithm (A : Type) `{LoadBalancingAlgorithm A} := {
  getNext_heap lb : keeps snd (getNext (A := A) lb);
  getNext_member lb s p s' : getNext lb s = (Ok (Some p), s') → p ∈ servers_of lb;
}.

Lemma keeps_deref {A} p : keeps snd (@deref A p).
Proof. intros s. unfold deref, bind, get_st. by destruct (s.2 !! p). Qed.
Lemma keeps_set_alg {A} (a : A) : keeps snd (set_alg a).
Proof. done. Qed.
Lemma keeps_get_st {S T} (f : S → T) : keeps f get_st.
Proof. done. Qed.
#[export] Hint Resolve keeps_deref keeps_set_alg keeps_get_st : keeps.

Lemma keeps_find_server {A} key servers : keeps snd (@find_server A key servers).
Proof. induction servers as [|p ps IH]; simpl; keeps_tac. Qed.
Lemma keeps_least_loop {A} servers m r : keeps snd (@least_loop A servers m r).
Proof. revert m r. induction servers as [|p ps IH]; intros m r; simpl; keeps_tac. Qed.
#[export] Hint Resolve keeps_find_server keeps_least_loop : keeps.

Lemma index_elem {A} (l : list A) i x : index l i = Some x → x ∈ l.
Proof. unfold index. destruct (i <? 0); [done|]. apply list_elem_of_lookup_2. Qed.

Lemma find_server_elem {A} key servers (s : A * Heap) p s' :
  find_server key servers s = (Ok (Some p), s') → p ∈ servers.
Proof.
  induction servers as [|q qs IH]; simpl; [by intros [=]|].
  intros (b & s1 & E & E')%bind_inv.
  assert (s1 = s) as ->.
  { revert E. unfold deref, bind, get_st. destruct (s.2 !! q); by intros [=]. }
  revert E'. case_bool_decide; [intros [= <- _]; by left|]. intros E'. right. by apply IH.
Qed.

Lemma least_loop_elem {A} servers m r (s : A * Heap) p s' :
  least_loop servers m r s = (Ok (Some p), s') → r = Some p ∨ p ∈ servers.
Proof.
  revert m r s. induction servers as [|q qs IH]; simpl; intros m r s; [intros [= ->]; by left|].
  intros (b & s1 & E & E')%bind_inv. destruct (_ <? _).
  - destruct (IH _ _ _ E') as [[= ->]|?]; right; [by left|by right].
  - destruct (IH _ _ _ E') as [->|?]; [by left|right; by right].
Qed.

#[export] Instance round_robin_lawful : LawfulAlgorithm RoundRobinLoadBalancingAlgorithm.
Proof.
  split.
  - intros lb. unfold getNext, round_robin. keeps_tac.
  - intros lb s p s'. unfold getNext, round_robin. destruct (_ =? 0); [done|].
    intros (s0 & s1 & [= <- <-] & E)%bind_inv.
    destruct (index _ _) as [q|] eqn:Ei; [|done].
    apply bind_inv in E as (? & ? & _ & [= <- _]). by eapply index_elem.
Qed.

#[export] Instance classic_lawful : LawfulAlgorithm ClassicWeightedRoundRobin.
Proof.
  split.
  - intros lb. unfold getNext, classic. keeps_tac.
  - intros lb s p s'. unfold getNext, classic. destruct (_ =? 0); [done|].
    intros (s0 & s1 & [= <- <-] & E)%bind_inv.
    apply bind_inv in E as (? & s2 & _ & E). apply bind_inv in E as (r & s3 & E & E').
    destruct r as [q|]; [|done]. injection E' as -> ->. by eapply find_server_elem.
Qed.

#[export] Instance smooth_lawful : LawfulAlgorithm SmoothWeightedRoundRobin.
Proof.
  split.
  - intros lb. unfold getNext, smooth. keeps_tac.
  - intros lb s p s'. unfold getNext, smooth. destruct (_ =? 0); [done|].
    intros (s0 & s1 & [= <- <-] & E)%bind_inv.
    destruct (smooth_pick _ _ _ _ _) as [cw maxKey].
    apply bind_inv in E as (? & s2 & _ & E). apply bind_inv in E as (r & s3 & E & E').
    destruct r as [q|]; [|done]. apply bind_inv in E' as (? & ? & _ & [= -> _]).
    by eapply find_server_elem.
Qed.

#[export] Instance least_connections_lawful : LawfulAlgorithm LeastConnectionsAlgorithm.
Proof.
  split.
  - intros lb. unfold getNext, least_connections. keeps_tac.
  - intros lb s p s'. unfold getNext, least_connections. destruct (_ =? 0); [done|].
    intros E. by destruct (least_loop_elem _ _ _ _ _ _ E).
Qed.

(** * Headers *)

(** What net/http documents of the headers it parses: canonical keys, each with a value. *)
Definition parsed (h : Header) : Prop :=
  ∀ k vs, h !! k = Some vs → canonical k = k ∧ vs ≠ [].

Lemma add_values k vs (h : Header) :
  canonical k = k → vs ≠ [] →
  fold_left (λ h v, header_add k v h) vs h = <[k := default [] (h !! k) ++ vs]> h.
Proof.
  intros Hk. revert h. induction vs as [|v vs IH]; intros h Hne; [done|]. simpl.
  unfold header_add at 2. rewrite Hk. destruct vs as [|v' vs]; [done|].
  rewrite IH, lookup_insert_eq by done. simpl. by rewrite insert_insert_eq, <-app_assoc.
Qed.

Lemma copy_values (l : list (string * list string)) (dst : Header) :
  NoDup l.*1 → Forall (λ kv, canonical kv.1 = kv.1 ∧ kv.2 ≠ []) l →
  (∀ k vs, (k, vs) ∈ l → dst !! k = None) →
  fold_left (λ h kv, fold_left (λ h v, header_add kv.1 v h) kv.2 h) l dst = list_to_map l ∪ dst.
Proof.
  revert dst. induction l as [|[k vs] l IH]; intros dst Hnd Hf Hd; csimpl in *.
  { by rewrite (left_id_L ∅ (∪)). }
  apply NoDup_cons in Hnd as [Hk Hnd]. apply Forall_cons in Hf as [[Hc Hv] Hf]. simpl in *.
  rewrite add_values by done. rewrite (Hd k vs) by (by left). simpl.
  assert ((list_to_map l : Header) !! k = None) as Hn by by apply not_elem_of_list_to_map.
  rewrite IH; [|done..|].
  - by rewrite <-insert_union_r, insert_union_l by done.
  - intros k' vs' Hin. rewrite lookup_insert_ne; [eapply Hd; by right|].
    intros ->. apply Hk. apply list_elem_of_fmap. by exists (k', vs').
Qed.

(** Copying parsed headers into empty ones copies them exactly. *)
Lemma copy_parsed `{MapRange} h : parsed h → copy_headers h ∅ = h.
Proof.
  intros Hp. unfold copy_headers. rewrite copy_values.
  - rewrite (right_id_L ∅ (∪)). transitivity (list_to_map (map_to_list h) : Header).
    + apply list_to_map_proper; [apply NoDup_range|apply range_perm].
    + apply list_to_map_to_list.
  - apply NoDup_range.
  - apply Forall_forall. intros [k vs] Hin%elem_of_range. by apply Hp.
  - intros k vs _. apply lookup_empty.
Qed.

(** The headers a backend receives: the client's, with the three that describe the
    client replaced. *)
Definition forwarded_headers (r : Request) : Header :=
  <["X-Forwarded-Proto" := [if TLS r then "https" else "http"]]>
  (<["X-Forwarded-Host" := [Host r]]> (<["X-Forwarded-For" := [RemoteAddr r]]> (rHeader r))).

Lemma backend_header_spec `{MapRange} r :
  parsed (rHeader r) → backend_header r = forwarded_headers r.
Proof.
  intros Hp. unfold backend_header, forwarded_headers. rewrite copy_parsed by done.
  by destruct (TLS r).
Qed.

(** * One request *)

(** The counter of a server is an [int32]. *)
Definition int32_count (b : BackendServerProperties) : Prop :=
  -2 ^ 31 ≤ activeConnectionsCount b < 2 ^ 31.

Lemma i32_congr x y : x mod 2 ^ 32 = y mod 2 ^ 32 → i32 x = i32 y.
Proof.
  intros H. unfold i32. f_equal. rewrite (Z.add_mod x), (Z.add_mod y) by done. by rewrite H.
Qed.
Lemma i32_mod x : i32 x mod 2 ^ 32 = x mod 2 ^ 32.
Proof.
  unfold i32. rewrite Zminus_mod, Zmod_mod, <-Zminus_mod. f_equal. lia.
Qed.
Lemma i32_i32_add x d : i32 (i32 x + d) = i32 (x + d).
Proof. apply i32_congr. rewrite Z.add_mod, i32_mod, <-Z.add_mod by done. done. Qed.

Lemma add_connections_cancel b :
  int32_count b → DecrementConnections (IncrementConnections b) = b.
Proof.
  intros Hb. unfold DecrementConnections, IncrementConnections, addConnections.
  cbn [activeConnectionsCount id baseUrl apiPort healthCheckPort weight].
  rewrite i32_i32_add. replace (_ + 1 + -1) with (activeConnectionsCount b) by lia.
  rewrite i32_small by done. by destruct b.
Qed.

Lemma alter_cancel {A} (f g : A → A) p (h : gmap nat A) :
  (∀ b, h !! p = Some b → g (f b) = b) → alter g p (alter f p h) = h.
Proof.
  intros Hc. apply map_eq. intros q. destruct (decide (q = p)) as [->|Hq].
  - rewrite !lookup_alter_eq. destruct (h !! p) as [b|] eqn:E; simpl; [|done]. by rewrite Hc.
  - by rewrite !lookup_alter_ne by done.
Qed.

(** A status that [WriteHeader] keeps; [client.Do] follows the informational ones itself. *)
Definition final_status (code : Z) : Prop := code = 101 ∨ 200 ≤ code ≤ 999.

Lemma WriteHeader_final code (w : Writer) :
  final_status code → wStatus w = None →
  WriteHeader code w = (Ok tt, mkWriter (Some code) (wHeader w) (wBody w)).
Proof.
  intros Hc Hw. unfold WriteHeader, bind, get_st. rewrite Hw.
  destruct (Z.ltb_spec code 100), (Z.ltb_spec 999 code), (Z.ltb_spec code 200),
    (Z.eqb_spec code 101); simpl; unfold final_status in Hc; try lia; done.
Qed.

Section one_request.
Context `{LoadBalancingAlgorithm A} `{MapRange}.
Variable NewRequest_err : string → string → option goerr.
Implicit Types s : HState A.

(** The request [forwardStart] builds, and the state it leaves. *)
Definition sent_request (b : BackendServerProperties) (r : Request) : BackendRequest :=
  mkBackend (Method r) (backend_url b r) (forwarded_headers r) (rBody r).
Definition counted (p : ptr) s : HState A := set_heap (alter IncrementConnections p) s.

Lemma forwardStart_sends r p b s :
  heap s !! p = Some b → NewRequest_err (Method r) (backend_url b r) = None →
  parsed (rHeader r) →
  forwardStart NewRequest_err r (Some p) s = (Ok (Some (p, sent_request b r)), counted p s).
Proof.
  intros Hb Hn Hp. unfold forwardStart.
  rewrite (bind_ok _ _ s b s).
  - rewrite Hn. by rewrite backend_header_spec.
  - unfold on_alg, zoom, deref, bind, get_st. cbn [snd]. rewrite Hb. by destruct s.
Qed.

Lemma reply_spec code msg s :
  final_status code → wStatus (writer s) = None →
  reply code msg s = (Ok tt, mkHState (alg s) (heap s) (net s) (sent s)
    (mkWriter (Some code) (wHeader (writer s)) (wBody (writer s) ++ bytes_of msg))).
Proof.
  intros Hc Hw. unfold reply, on_writer, zoom.
  by rewrite (bind_ok _ _ _ _ _ (WriteHeader_final code (writer s) Hc Hw)).
Qed.

Lemma forwardEnd_response p resp s :
  parsed (respHeader resp) → final_status (StatusCode resp) → writer s = empty_writer →
  forwardEnd p (inl resp) s = (Ok tt, mkHState (alg s)
    (alter DecrementConnections p (heap s)) (net s) (sent s)
    (mkWriter (Some (StatusCode resp)) (respHeader resp) (respBody resp))).
Proof.
  intros Hp Hc Hw. unfold forwardEnd, defer, on_writer, zoom. rewrite Hw.
  rewrite (bind_ok _ _ empty_writer tt (mkWriter None (respHeader resp) [])).
  - by rewrite (bind_ok _ _ _ _ _ (WriteHeader_final (StatusCode resp)
      (mkWriter None (respHeader resp) []) Hc eq_refl)).
  - unfold add_headers, modify, empty_writer. cbn. by rewrite copy_parsed.
Qed.

(** The balancer after [getNext] chose [p]. *)
Lemma handleWith_chosen {B} (forward : option ptr → M (HState A) B) other lb s p a :
  getNext (Some lb) (alg s, heap s) = (Ok (Some p), (a, heap s)) →
  handleWith forward other lb s =
    forward (Some p) (mkHState a (heap s) (net s) (sent s) (writer s)).
Proof.
  intros E. unfold handleWith.
  rewrite (bind_ok _ _ s (inl (Some p)) (mkHState a (heap s) (net s) (sent s) (writer s))).
  - done.
  - apply attempt_ok. unfold on_alg, zoom. by rewrite E.
Qed.

(** C12: A request the backend answers is passed through: the chosen server is sent exactly
    one request, at its URL and port, with the client's method, path, query, body
    and headers, [X-Forwarded-*] overwritten; the client gets the backend's status,
    headers and body; and afterwards every connection count is what it was. *)
Theorem request_forwarded lb r p b a resp rest s :
  getNext (Some lb) (alg s, heap s) = (Ok (Some p), (a, heap s)) →
  heap s !! p = Some b → int32_count b →
  NewRequest_err (Method r) (backend_url b r) = None →
  parsed (rHeader r) → parsed (respHeader resp) → final_status (StatusCode resp) →
  net s = inl resp :: rest → writer s = empty_writer →
  requestHandler NewRequest_err lb r s = (Ok tt,
    mkHState a (heap s) rest (sent s ++ [sent_request b r])
      (mkWriter (Some (StatusCode resp)) (respHeader resp) (respBody resp))).
Proof.
  intros E Hb Hi Hn Hp Hp' Hc Hnet Hw. unfold requestHandler.
  rewrite (handleWith_chosen _ _ _ _ _ _ E). unfold forwardRequest.
  rewrite (bind_ok _ _ _ _ _ (forwardStart_sends r p b
    (mkHState a (heap s) (net s) (sent s) (writer s)) Hb Hn Hp)).
  unfold counted, set_heap. cbn [alg heap net sent writer].
  rewrite (bind_ok _ _ _ (inl resp) (mkHState a (alter IncrementConnections p (heap s)) rest
    (sent s ++ [sent_request b r]) (writer s))).
  - rewrite forwardEnd_response by done. cbn [alg heap net sent writer]. do 3 f_equal.
    apply alter_cancel. intros b' Hb'. simplify_eq. by apply add_connections_cancel.
  - apply attempt_ok. unfold Do. cbn [net]. by rewrite Hnet.
Qed.

(** When [client.Do] fails the client gets 502, and the connection stays counted: the
    decrement is deferred only after the error is checked, so every failed request
    raises the server's count by one for good. *)
Theorem failed_request_stays_counted lb r p b a e rest s :
  getNext (Some lb) (alg s, heap s) = (Ok (Some p), (a, heap s)) →
  heap s !! p = Some b →
  NewRequest_err (Method r) (backend_url b r) = None →
  parsed (rHeader r) → net s = inr e :: rest → writer s = empty_writer →
  requestHandler NewRequest_err lb r s = (Ok tt,
    mkHState a (<[p := IncrementConnections b]> (heap s)) rest (sent s ++ [sent_request b r])
      (mkWriter (Some 502) ∅ (bytes_of "Backend server unavailable"))).
Proof.
  intros E Hb Hn Hp Hnet Hw. unfold requestHandler.
  rewrite (handleWith_chosen _ _ _ _ _ _ E). unfold forwardRequest.
  rewrite (bind_ok _ _ _ _ _ (forwardStart_sends r p b
    (mkHState a (heap s) (net s) (sent s) (writer s)) Hb Hn Hp)).
  unfold counted, set_heap. cbn [alg heap net sent writer].
  rewrite (bind_ok _ _ _ (inr e) (mkHState a (alter IncrementConnections p (heap s)) rest
    (sent s ++ [sent_request b r]) (writer s))).
  - unfold forwardEnd. rewrite reply_spec; [|by right|cbn; by rewrite Hw].
    cbn [alg heap net sent writer]. rewrite Hw. do 2 f_equal.
    apply map_eq. intros q. destruct (decide (q = p)) as [->|Hq].
    + by rewrite lookup_alter_eq, Hb, lookup_insert_eq.
    + by rewrite lookup_alter_ne, lookup_insert_ne.
  - unfold attempt, Do. cbn [net]. by rewrite Hnet.
Qed.

(** When no backend is sent anything the client still gets a reply, 500 in both cases: the
    algorithm reports an error, or the request cannot be built.  Neither a
    connection is counted nor the network used. *)
Theorem rejected_request lb r s a :
  (∃ e, getNext (Some lb) (alg s, heap s) = (Err e, (a, heap s))) ∨
  (∃ p b e, getNext (Some lb) (alg s, heap s) = (Ok (Some p), (a, heap s)) ∧
    heap s !! p = Some b ∧ NewRequest_err (Method r) (backend_url b r) = Some e) →
  writer s = empty_writer →
  ∃ msg, requestHandler NewRequest_err lb r s = (Ok tt,
    mkHState a (heap s) (net s) (sent s) (mkWriter (Some 500) ∅ (bytes_of msg))).
Proof.
  intros Hor Hw.
  assert (∀ msg, reply 500 msg (mkHState a (heap s) (net s) (sent s) (writer s)) = (Ok tt,
    mkHState a (heap s) (net s) (sent s) (mkWriter (Some 500) ∅ (bytes_of msg)))) as Hr.
  { intros msg. rewrite reply_spec; [|by right|cbn; by rewrite Hw]. cbn. by rewrite Hw. }
  destruct Hor as [[e E]|(p & b & e & E & Hb & Hn)]; eexists; unfold requestHandler.
  - unfold handleWith.
    rewrite (bind_ok _ _ s (inr e) (mkHState a (heap s) (net s) (sent s) (writer s))).
    + rewrite (bind_ok _ _ _ _ _ (Hr _)). reflexivity.
    + unfold attempt, on_alg, zoom. by rewrite E.
  - rewrite (handleWith_chosen _ _ _ _ _ _ E). unfold forwardRequest, forwardStart.
    set (t := mkHState a (heap s) (net s) (sent s) (writer s)).
    assert (on_alg (deref p) t = (Ok b, t)) as Et.
    { unfold on_alg, zoom, deref, bind, get_st. cbn. by rewrite Hb. }
    unfold bind at 1. rewrite (bind_ok _ _ _ _ _ Et), Hn, (bind_ok _ _ _ _ _ (Hr _)). reflexivity.
Qed.
End one_request.

(** * Overlapping requests *)

(** The balancer between the atomic parts of its handlers: the requests waiting in
    [client.Do], and (not kept by the code) those that failed there. *)
Record Balancer (A : Type) := mkBalancer {
  b_alg : A;
  b_heap : Heap;
  b_flying : list ptr;
  b_failed : list ptr;
}.
Arguments mkBalancer {A}. Arguments b_alg {A}. Arguments b_heap {A}.
Arguments b_flying {A}. Arguments b_failed {A}.

(** The server a request went to, when it got that far. *)
Definition started (res : outcome (option (ptr * BackendRequest))) : list ptr :=
  match res with Ok (Some (p, _)) => [p] | _ => [] end.

(** One handler runs up to [client.Do], or one continues after it; a handler that
    panics is over. *)
Inductive handler_step `{LoadBalancingAlgorithm A} `{MapRange}
    (NewRequest_err : string → string → option goerr) (lb : LoadBalancer)
    : Balancer A → Balancer A → Prop :=
| step_start c r s res s' :
    alg s = b_alg c → heap s = b_heap c →
    handleWith (forwardStart NewRequest_err r) None lb s = (res, s') →
    handler_step NewRequest_err lb c
      (mkBalancer (alg s') (heap s') (started res ++ b_flying c) (b_failed c))
| step_end c l1 p l2 resp s out s' :
    alg s = b_alg c → heap s = b_heap c → b_flying c = l1 ++ p :: l2 →
    forwardEnd p resp s = (out, s') →
    handler_step NewRequest_err lb c
      (mkBalancer (alg s') (heap s') (l1 ++ l2)
        (match resp with inl _ => b_failed c | inr _ => p :: b_failed c end)).

(** How often a server occurs. *)
Definition occurrences (p : ptr) (l : list ptr) : Z := len (filter (p =.) l).

Lemma occurrences_app p l1 l2 : occurrences p (l1 ++ l2) = occurrences p l1 + occurrences p l2.
Proof. unfold occurrences. by rewrite filter_app, len_app. Qed.
Lemma occurrences_cons p q l :
  occurrences p (q :: l) = (if decide (p = q) then 1 else 0) + occurrences p l.
Proof. unfold occurrences. rewrite filter_cons. case_decide; [by rewrite len_cons|done]. Qed.

Lemma addConnections_add d e b :
  addConnections d (addConnections e b) = addConnections (e + d) b.
Proof. unfold addConnections. cbn. rewrite i32_i32_add. do 2 f_equal. lia. Qed.

Lemma addConnections_0 b : int32_count b → addConnections 0 b = b.
Proof. intros Hb. unfold addConnections. rewrite Z.add_0_r, i32_small by done. by destruct b. Qed.

(** Every count is the initial one plus the requests waiting and the requests failed. *)
Definition accounted {A} (h0 : Heap) (c : Balancer A) : Prop := ∀ p,
  b_heap c !! p =
    addConnections (occurrences p (b_flying c) + occurrences p (b_failed c)) <$> h0 !! p.

Lemma accounted_alter (h0 h : Heap) d q (n n' : ptr → Z) :
  (∀ p, h !! p = addConnections (n p) <$> h0 !! p) →
  (∀ p, n' p = n p + if decide (p = q) then d else 0) →
  ∀ p, alter (addConnections d) q h !! p = addConnections (n' p) <$> h0 !! p.
Proof.
  intros Hn Hn' p. rewrite Hn'. case_decide as Hp.
  - subst. rewrite lookup_alter_eq, Hn. destruct (h0 !! q); simpl; [|done].
    by rewrite addConnections_add.
  - by rewrite lookup_alter_ne, Hn, Z.add_0_r by done.
Qed.

Section overlapping.
Context `{LawfulAlgorithm A} `{MapRange}.
Variable NewRequest_err : string → string → option goerr.
Implicit Types s : HState A.

Lemma keeps_on_writer {B} (m : M Writer B) : keeps heap (on_writer (A := A) m).
Proof. intros s. unfold on_writer, zoom. by destruct (m _). Qed.
Lemma keeps_on_alg {B} (m : M (A * Heap) B) : keeps snd m → keeps heap (on_alg m).
Proof. intros Hm s. unfold on_alg, zoom. specialize (Hm (alg s, heap s)). by destruct (m _). Qed.

Lemma forwardStart_heap r sv s res s' :
  forwardStart NewRequest_err r sv s = (res, s') →
  heap s' = foldr (alter IncrementConnections) (heap s) (started res).
Proof.
  unfold forwardStart. destruct sv as [p|]; [|by intros [= <- <-]].
  unfold bind at 1. pose proof (keeps_on_alg _ (keeps_deref p) s) as Hd.
  destruct (on_alg _ s) as [[b|e|w|] s1]; cbn in Hd; [|by intros [= <- <-]..].
  destruct (NewRequest_err _ _).
  - unfold bind at 1. pose proof (keeps_on_writer (do! WriteHeader 500 in
      Write (bytes_of "Failed to create backend request")) s1) as Hw.
    unfold reply. destruct (on_writer _ s1) as [[] s2]; cbn in Hw; intros [=]; subst; simpl; congruence.
  - intros [= <- <-]. simpl. by rewrite Hd.
Qed.

Lemma handleStart_heap r lb s res s' :
  handleWith (forwardStart NewRequest_err r) None lb s = (res, s') →
  heap s' = foldr (alter IncrementConnections) (heap s) (started res).
Proof.
  unfold handleWith, bind at 1.
  pose proof (keeps_attempt _ _ (keeps_on_alg _ (getNext_heap (Some lb))) s) as Hd.
  destruct (attempt _ s) as [[[p|e]|e|w|] s1]; cbn in Hd;
    [| |by intros [= <- <-]..].
  - intros E. rewrite (forwardStart_heap _ _ _ _ _ E). by rewrite Hd.
  - unfold bind at 1. pose proof (keeps_on_writer (do! WriteHeader 500 in
      Write (bytes_of "Error while processing the request")) s1) as Hw.
    unfold reply. destruct (on_writer _ s1) as [[] s2]; cbn in Hw; intros [=]; subst; simpl; congruence.
Qed.

Lemma forwardEnd_heap p resp s out s' :
  forwardEnd p resp s = (out, s') →
  heap s' = match resp with
            | inl _ => alter DecrementConnections p (heap s)
            | inr _ => heap s
            end.
Proof.
  destruct resp as [resp|e]; unfold forwardEnd.
  - unfold defer. match goal with |- context [on_writer ?m] =>
      pose proof (keeps_on_writer m s) as Hw; destruct (on_writer m s) as [o s1] end.
    intros [= <- <-]. cbn in *. by rewrite Hw.
  - intros E. pose proof (keeps_on_writer (do! WriteHeader 502 in
      Write (bytes_of "Backend server unavailable")) s) as Hw.
    unfold reply in E. by rewrite E in Hw.
Qed.

Lemma handler_step_accounted lb h0 c c' :
  handler_step NewRequest_err lb c c' → accounted h0 c → accounted h0 c'.
Proof.
  intros [c1 r s res s' _ Hh E|c1 l1 p l2 resp s out s' _ Hh Hf E] Hc; unfold accounted; cbn.
  - rewrite (handleStart_heap _ _ _ _ _ E), Hh. destruct res as [[[q ?]|]|e|w|]; cbn; [|by apply Hc..].
    eapply accounted_alter; [exact Hc|]. intros p. cbn.
    rewrite occurrences_cons. case_decide; lia.
  - rewrite (forwardEnd_heap _ _ _ _ _ E), Hh. pose proof Hc as Hc'. unfold accounted in Hc'.
    rewrite Hf in Hc'. destruct resp.
    + eapply accounted_alter; [exact Hc'|]. intros q. cbn.
      rewrite !occurrences_app, occurrences_cons. case_decide; lia.
    + intros q. rewrite Hc'. f_equal. f_equal.
      rewrite !occurrences_app, !occurrences_cons. lia.
Qed.

(** C7: However handlers overlap, a server's connection count is its initial count plus the
    requests waiting at it plus the requests that ever failed at it, modulo 2^32,
    and nothing else of a server changes: with no failures every count is exact. *)
Theorem connections_accounted lb h0 a c :
  (∀ p b, h0 !! p = Some b → int32_count b) →
  rtc (handler_step NewRequest_err lb) (mkBalancer a h0 [] []) c →
  accounted h0 c.
Proof.
  intros Hi Hr. assert (accounted h0 (mkBalancer a h0 [] [])) as Ha.
  { intros p. cbn. destruct (h0 !! p) eqn:E; cbn; [|done].
    by rewrite addConnections_0 by by eapply Hi. }
  revert Ha. induction Hr as [|c1 c2 c3 Hs _ IH]; [done|].
  intros Ha. by eapply IH, handler_step_accounted.
Qed.
End overlapping.

(** * Witnesses *)

Definition demo_request : Request :=
  mkRequest "GET" "/api" "q=1" "10.0.0.9:5123" "example.org" false
    (<["Accept" := ["*/*"]]> ∅) [].
Definition demo_response : Response :=
  mkResponse 200 (<["Content-Type" := ["text/plain"]]> ∅) (bytes_of "ok").
Definition no_url_error (method url : string) : option goerr := None.
Definition demo_state (net : list (Response + goerr)) : HState RoundRobinLoadBalancingAlgorithm :=
  mkHState (mkRR 0) demo_heap net [] empty_writer.
Definition server1 : BackendServerProperties := NewBackendServer "1" "http://localhost" 9001 9001.

Lemma parsed_singleton k vs : canonical k = k → vs ≠ [] → parsed (<[k := vs]> ∅).
Proof.
  intros Hk Hv k' vs' Hl. apply lookup_insert_Some in Hl as [[<- <-]|[_ Hl]]; [done|].
  by rewrite lookup_empty in Hl.
Qed.

Lemma request_forwarded_witness :
  requestHandler no_url_error demo_lb demo_request (demo_state [inl demo_response]) = (Ok tt,
    mkHState (mkRR 1) demo_heap [] [sent_request server1 demo_request]
      (mkWriter (Some 200) (respHeader demo_response) (respBody demo_response))).
Proof.
  apply (request_forwarded no_url_error demo_lb demo_request 1%nat server1 (mkRR 1) demo_response []
    (demo_state [inl demo_response])); [vm_compute; reflexivity|vm_compute; reflexivity
    |split; vm_compute; congruence|reflexivity|by apply parsed_singleton|by apply parsed_singleton
    |right; simpl; lia|reflexivity|reflexivity].
Defined.

Lemma failed_request_stays_counted_witness :
  requestHandler no_url_error demo_lb demo_request (demo_state [inr ErrIO]) = (Ok tt,
    mkHState (mkRR 1) (<[1%nat := IncrementConnections server1]> demo_heap) []
      [sent_request server1 demo_request]
      (mkWriter (Some 502) ∅ (bytes_of "Backend server unavailable"))).
Proof.
  apply (failed_request_stays_counted no_url_error demo_lb demo_request 1%nat server1 (mkRR 1) ErrIO []
    (demo_state [inr ErrIO])); [vm_compute; reflexivity|vm_compute; reflexivity
    |reflexivity|by apply parsed_singleton|reflexivity|reflexivity].
Defined.

Lemma rejected_request_witness :
  ∃ msg, requestHandler no_url_error (NewLoadBalancer [] 10) demo_request (demo_state []) = (Ok tt,
    mkHState (mkRR 0) demo_heap [] [] (mkWriter (Some 500) ∅ (bytes_of msg))).
Proof.
  apply (rejected_request no_url_error (NewLoadBalancer [] 10) demo_request (demo_state []));
    [left; by eexists|reflexivity].
Defined.

(** A handler starting in, or coming back to, a balancer. *)
Definition start_in (lb : LoadBalancer) (c : Balancer RoundRobinLoadBalancingAlgorithm) :=
  let x := handleWith (forwardStart no_url_error demo_request) None lb
    (mkHState (b_alg c) (b_heap c) [] [] empty_writer) in
  mkBalancer (alg x.2) (heap x.2) (started x.1 ++ b_flying c) (b_failed c).
Definition end_in (l1 : list ptr) (p : ptr) (l2 : list ptr) (resp : Response + goerr)
    (c : Balancer RoundRobinLoadBalancingAlgorithm) :=
  let x := forwardEnd p resp (mkHState (b_alg c) (b_heap c) [] [] empty_writer) in
  mkBalancer (alg x.2) (heap x.2) (l1 ++ l2)
    (match resp with inl _ => b_failed c | inr _ => p :: b_failed c end).

Lemma start_in_step lb c : handler_step no_url_error lb c (start_in lb c).
Proof.
  unfold start_in. eapply (step_start no_url_error lb c demo_request
    (mkHState (b_alg c) (b_heap c) [] [] empty_writer)); [reflexivity|reflexivity|apply surjective_pairing].
Qed.
Lemma end_in_step lb l1 p l2 resp c :
  b_flying c = l1 ++ p :: l2 → handler_step no_url_error lb c (end_in l1 p l2 resp c).
Proof.
  intros Hf. unfold end_in. eapply (step_end no_url_error lb c l1 p l2 resp
    (mkHState (b_alg c) (b_heap c) [] [] empty_writer)); [reflexivity|reflexivity|exact Hf|apply surjective_pairing].
Qed.

(** Two requests start; the first fails and the second is answered. *)
Definition idle : Balancer RoundRobinLoadBalancingAlgorithm := mkBalancer (mkRR 0) demo_heap [] [].
Definition two_flying := start_in demo_lb (start_in demo_lb idle).
Definition after_failure :=
  end_in [] 2%nat [] (inl demo_response) (end_in [2%nat] 1%nat [] (inr ErrIO) two_flying).

Lemma demo_counts p b : demo_heap !! p = Some b → int32_count b.
Proof.
  unfold demo_heap. intros Hb.
  repeat (apply lookup_insert_Some in Hb as [[_ <-]|[_ Hb]]; [split; vm_compute; congruence|]).
  by rewrite lookup_empty in Hb.
Qed.

Lemma after_failure_reached : rtc (handler_step no_url_error demo_lb) idle after_failure.
Proof.
  eapply rtc_l; [apply start_in_step|]. eapply rtc_l; [apply start_in_step|].
  eapply rtc_l; [apply (end_in_step _ [2%nat] 1%nat []); vm_compute; reflexivity|].
  eapply rtc_l; [apply (end_in_step _ [] 2%nat []); vm_compute; reflexivity|]. apply rtc_refl.
Qed.

Lemma connections_accounted_witness :
  accounted demo_heap after_failure ∧
  (activeConnectionsCount <$> b_heap after_failure !! 1%nat) = Some 1.
Proof.
  split; [|vm_compute; reflexivity].
  apply (connections_accounted no_url_error demo_lb demo_heap (mkRR 0) after_failure);
    [exact demo_counts|exact after_failure_reached].
Defined.
