(* ===== verification/LoadBalancerSystem.v ===== *)
(** [load-balancer/backend_server/backend_server.go] and [main] of [load-balancer/main.go]: the
    balancer as it is configured there, in front of three of these backends. *)

From Stdlib Require Import ZArith Lia Ascii String.
From stdpp Require Import gmap strings list fin_maps.
From S2P Require Import Prelude GoLib LoadBalancer LoadBalancerSpec LoadBalancerTheorems LoadBalancerSmooth.
From S2P Require Import LoadBalancerHandler LoadBalancerHandlerTheorems.
Import LB Handler.

Module System.

(** * A backend *)

(** The handler of a backend; [port] is [os.Args[1]]. *)
Definition backend_handler (port : string) : M Writer unit :=
  let response := "Response from server on port " +:+ port +:+ String "010"%char "" in
  do! WriteHeader 200 in Write (bytes_of response).

(** What a client sees of a reply. *)
Definition seen (w : Writer) : option Z * bytes := (wStatus w, wBody w).
Definition page (port : Z) : option Z * bytes := seen (backend_handler (itoa port) empty_writer).2.

(** * The configuration *)

Definition main_servers : list BackendServerProperties :=
  [NewBackendServer "1" "http://localhost" 9001 9001;
   NewBackendServer "2" "http://localhost" 9002 9002;
   NewBackendServer "3" "http://localhost" 9003 9003].
Definition weightsMap : gmap string Z := list_to_map [("1", 50); ("2", 25); ("3", 25)].

(** The servers at the addresses 1 to 3; the constructor's error is dropped. *)
Definition main_heap : Heap := list_to_map (zip [1; 2; 3]%nat main_servers).
Definition main_lb : LoadBalancer := NewLoadBalancer [1; 2; 3]%nat 10.
Definition main_algorithm `{MapRange} : SmoothWeightedRoundRobin :=
  match NewSmoothWeightRoundRobin weightsMap with
  | inl a => a
  | inr _ => mkSmooth 0 ∅ ∅ []
  end.
Definition main_start `{MapRange} : HState SmoothWeightedRoundRobin :=
  mkHState main_algorithm main_heap [] [] empty_writer.

(** * Requests, one after another *)

Section serve.
Context `{LoadBalancingAlgorithm A} `{MapRange}.
Variable NewRequest_err : string → string → option goerr.
(** What [client.Do] gives for a request. *)
Variable dial : BackendRequest → Response + goerr.

(** [requestHandler], when [client.Do] is answered by [dial]. *)
Definition dial_to (req : BackendRequest) : M (HState A) Response := λ s,
  (match dial req with inl resp => Ok resp | inr e => Err e end,
   mkHState (alg s) (heap s) (net s) (sent s ++ [req]) (writer s)).

Definition forward (r : Request) (server : option ptr) : M (HState A) unit :=
  let! start := forwardStart NewRequest_err r server in
  match start with
  | None => ret tt
  | Some (p, backendReq) =>
      let! backendResp := attempt (dial_to backendReq) in
      forwardEnd p backendResp
  end.

(** A request with a writer of its own, for a path that the mux takes as it is, and what its
    client sees. *)
Definition serve (lb : LoadBalancer) (r : Request) : M (HState A) (option Z * bytes) :=
  do! modify (λ s, mkHState (alg s) (heap s) (net s) (sent s) empty_writer) in
  do! match mux (Path r) with
      | HealthRoute => healthCheck
      | RequestRoute => handleWith (forward r) tt lb
      end in
  gets (λ s, seen (writer s)).

Fixpoint serve_all (lb : LoadBalancer) (rs : list Request) : M (HState A) (list (option Z * bytes)) :=
  match rs with
  | [] => ret []
  | r :: rs => let! x := serve lb r in let! xs := serve_all lb rs in ret (x :: xs)
  end.
End serve.

(** [serve] is the handler of the code, on a network that answers as [dial] does. *)
Lemma serve_requestHandler `{LoadBalancingAlgorithm A} `{MapRange} err dial lb r s p b a :
  getNext (Some lb) (alg s, heap s) = (Ok (Some p), (a, heap s)) →
  heap s !! p = Some b → err (Method r) (backend_url b r) = None → parsed (rHeader r) →
  let start s net := mkHState (alg s) (heap s) net (sent s) empty_writer in
  let answer := dial (sent_request b r) in
  (requestHandler err lb r (start s [answer])).1 = (handleWith (forward err dial r) tt lb (start s [])).1 ∧
  writer (requestHandler err lb r (start s [answer])).2 =
    writer (handleWith (forward err dial r) tt lb (start s [])).2.
Proof.
  intros E Hb Hn Hp. cbv zeta. unfold requestHandler.
  rewrite !(handleWith_chosen _ _ _ _ p a) by exact E. unfold forwardRequest, forward.
  rewrite !(bind_ok _ _ _ _ _ (forwardStart_sends err r p b (mkHState a (heap s) _ (sent s) empty_writer) Hb Hn Hp)).
  unfold counted, set_heap, bind, attempt, Do, dial_to. cbn [alg heap net sent writer].
  destruct (dial (sent_request b r)) as [resp|e]; [|done].
  unfold forwardEnd, defer, on_writer, zoom, modify. cbn [writer].
  destruct (bind _ _ empty_writer) as [o w]. by cbn.
Qed.

(** * What the clients see *)

(** The backends run at their ports; net/http hands a request for such a URL to the handler
    above, and what it wrote comes back, with headers of the server's. *)
Definition with_body : list string := ["GET"; "POST"; "PUT"; "PATCH"; "DELETE"].
Definition backends_up (dial : BackendRequest → Response + goerr) : Prop :=
  ∀ req port path, port ∈ GetAPIPort <$> main_servers →
    bUrl req = "http://localhost:" +:+ itoa port +:+ "/" +:+ path → bMethod req ∈ with_body →
    ∃ resp, dial req = inl resp ∧ parsed (respHeader resp) ∧
      (Some (StatusCode resp), respBody resp) = page port.

(** What stands between the slashes of a path. *)
Fixpoint segments (path : string) : list string :=
  match path with
  | "" => [""]
  | String c path =>
      if Ascii.eqb c "/" then "" :: segments path
      else match segments path with s :: l => String c s :: l | [] => [] end
  end.

(** A path without empty, "." and ".." segments, but perhaps with a slash at the end; others
    the mux redirects. *)
Definition clean_path (path : string) : Prop :=
  match segments path with
  | s :: l => s = "" ∧ ("" ∉ removelast l) ∧ ("." ∉ l) ∧ (".." ∉ l)
  | [] => False
  end.
#[export] Instance clean_path_dec path : Decision (clean_path path).
Proof. unfold clean_path. destruct (segments path); apply _. Defined.

(** A request for such a path, but not for the health check, with such a method and canonical
    headers. *)
Definition ordinary (err : string → string → option goerr) (r : Request) : Prop :=
  Method r ∈ with_body ∧ (clean_path (Path r) ∧ (∃ path, Path r = "/" +:+ path) ∧ Path r ≠ "/health") ∧
  parsed (rHeader r) ∧ ∀ url, err (Method r) url = None.

(** What the health check answers. *)
Definition hello : option Z * bytes := (Some 200, bytes_of "Hello").

(** What clients see when those who do not ask for the health check get these pages in turn. *)
Fixpoint answers (rs : list Request) (pages : list (option Z * bytes)) : list (option Z * bytes) :=
  match rs with
  | [] => []
  | r :: rs =>
      if String.eqb (Path r) "/health" then hello :: answers rs pages
      else match pages with p :: pages => p :: answers rs pages | [] => [] end
  end.
Definition forwarded (rs : list Request) : list Request := filter (λ r, Path r ≠ "/health") rs.

Definition port_at (p : option ptr) : Z := default 0 (GetAPIPort <$> (p ≫= λ p, main_heap !! p)).

Lemma main_heap_server p b :
  main_heap !! p = Some b →
  b ∈ main_servers ∧ baseUrl b = "http://localhost" ∧ int32_count b.
Proof.
  intros Hb. apply elem_of_list_to_map_2 in Hb.
  assert (Forall (λ x : nat * BackendServerProperties,
    x.2 ∈ main_servers ∧ baseUrl x.2 = "http://localhost" ∧ int32_count x.2)
    (zip [1; 2; 3]%nat main_servers)) as Hf.
  { repeat constructor; cbn; try lia; unfold main_servers; set_solver. }
  rewrite Forall_forall in Hf. by apply (Hf (p, b)).
Qed.

Lemma backend_url_page b r path :
  baseUrl b = "http://localhost" → Path r = "/" +:+ path →
  ∃ path', backend_url b r = "http://localhost:" +:+ itoa (GetAPIPort b) +:+ "/" +:+ path'.
Proof.
  intros Hb Hp. unfold backend_url, GetUrl. rewrite Hb, Hp.
  destruct (String.eqb (RawQuery r) ""); [by exists path|].
  exists (path +:+ "?" +:+ RawQuery r). by rewrite <-!str_app_assoc.
Qed.

Section system.
Context `{LawfulAlgorithm A} `{MapRange}.
Variable err : string → string → option goerr.
Variable dial : BackendRequest → Response + goerr.
Hypothesis Hup : backends_up dial.
Implicit Types s : HState A.

Lemma served_page lb r s p b a :
  ordinary err r → getNext (Some lb) (alg s, heap s) = (Ok (Some p), (a, heap s)) →
  heap s = main_heap → heap s !! p = Some b →
  ∃ s', serve err dial lb r s = (Ok (page (GetAPIPort b)), s') ∧ alg s' = a ∧ heap s' = main_heap.
Proof.
  intros (Hm & (_ & [path Hpath] & Hnh) & Hp & Hn) E Hh Hb. rewrite Hh in Hb.
  destruct (main_heap_server p b Hb) as (Hin & Hurl & Hint).
  destruct (backend_url_page b r path Hurl Hpath) as [path' Hu].
  destruct (Hup (sent_request b r) (GetAPIPort b) path') as (resp & Hd & Hpr & Hpage);
    [apply list_elem_of_fmap; by exists b|exact Hu|exact Hm|].
  set (s0 := mkHState (alg s) (heap s) (net s) (sent s) empty_writer).
  unfold serve, mux. rewrite (proj2 (String.eqb_neq _ _) Hnh), (bind_ok _ _ s () s0) by done. unfold bind at 1.
  rewrite (handleWith_chosen _ _ _ _ p a) by exact E. cbn [s0 alg heap net sent writer]. unfold forward.
  rewrite (bind_ok _ _ _ _ _ (forwardStart_sends err r p b (mkHState a (heap s) (net s) (sent s) empty_writer)
    ltac:(cbn; by rewrite Hh) (Hn _) Hp)).
  rewrite (bind_ok _ _ _ (inl resp) (mkHState a (alter IncrementConnections p (heap s)) (net s)
    (sent s ++ [sent_request b r]) empty_writer))
    by (apply attempt_ok; unfold dial_to; by rewrite Hd).
  injection Hpage as Hs Hbody.
  rewrite forwardEnd_response; [|done|right; rewrite Hs; lia|done]. cbn [alg heap net sent writer].
  eexists. split; [unfold gets, seen; cbn; rewrite Hs, Hbody; reflexivity|]. split; [done|]. cbn [heap].
  rewrite Hh. apply alter_cancel. intros b' Hb'. simplify_eq. by apply add_connections_cancel.
Qed.

Lemma served_hello lb r s : Path r = "/health" →
  ∃ s', serve err dial lb r s = (Ok hello, s') ∧ alg s' = alg s ∧ heap s' = heap s.
Proof. intros Hp. unfold serve, mux. rewrite Hp. eexists. by split; [reflexivity|]. Qed.

Lemma serve_all_spec lb rs : ∀ s ps a,
  Forall (λ r, Path r = "/health" ∨ ordinary err r) rs → heap s = main_heap →
  run_calls (Some lb) (length (forwarded rs)) (alg s, heap s) = (Ok ps, (a, heap s)) →
  Forall (λ p, is_Some (p ≫= λ p, main_heap !! p)) ps →
  ∃ s', serve_all err dial lb rs s = (Ok (answers rs ((λ p, page (port_at p)) <$> ps)), s') ∧
    alg s' = a ∧ heap s' = main_heap.
Proof.
  induction rs as [|r rs IH]; intros s ps a Hr Hh E Hp.
  { injection E as <- <-. by exists s. }
  apply Forall_cons in Hr as [Hr Hrs]. unfold forwarded in E. rewrite filter_cons in E.
  cbn [answers serve_all]. destruct (String.eqb_spec (Path r) "/health") as [Hhp|Hhp].
  { rewrite decide_False in E by tauto. destruct (served_hello lb r s Hhp) as (s1 & E1 & Ha1 & Hh1).
    rewrite <-Ha1, <-Hh1 in E. rewrite <-Hh1 in Hh. destruct (IH s1 ps a Hrs Hh E Hp) as (s' & E' & Hs').
    exists s'. split; [|done]. by rewrite (bind_ok _ _ _ _ _ E1), (bind_ok _ _ _ _ _ E'). }
  rewrite decide_True in E by done. destruct Hr as [?|Hr]; [done|]. cbn [length run_calls] in E.
  apply bind_inv in E as (p & [a1 h1] & E1 & E). apply bind_inv in E as (ps' & s2 & E2 & [= <- ->]).
  apply Forall_cons in Hp as [[b Hb] Hps]. apply bind_Some in Hb as (q & -> & Hb).
  assert (h1 = heap s) as ->.
  { pose proof (getNext_heap (A := A) (Some lb) (alg s, heap s)) as Hk. by rewrite E1 in Hk. }
  destruct (served_page lb r s q b a1 Hr E1 Hh ltac:(by rewrite Hh)) as (s1 & Es & Ha & Hh1).
  rewrite Hh, <-Hh1 in E2. rewrite <-Ha in E2.
  destruct (IH s1 ps' a Hrs Hh1 E2 Hps) as (s' & E' & Ha' & Hh').
  exists s'. split; [|done]. rewrite (bind_ok _ _ _ _ _ Es), (bind_ok _ _ _ _ _ E').
  assert (port_at (Some q) = GetAPIPort b) as Ep by (change (default 0 (GetAPIPort <$> main_heap !! q) = GetAPIPort b); by rewrite Hb).
  csimpl. by rewrite Ep.
Qed.
End system.

(** The requests a port gets. *)
Definition share (port : Z) (ports : list Z) : Z := len (filter (port =.) ports).

(** The port of a server, by its identifier. *)
Definition key_port (k : string) : Z :=
  if decide (k = "1") then 9001 else if decide (k = "2") then 9002
  else if decide (k = "3") then 9003 else 0.

Lemma share_occ port k ms :
  (∀ k', key_port k' = port ↔ k' = k) → share port (key_port <$> ms) = occ k ms.
Proof.
  intros Hk. unfold share, occ. induction ms as [|m ms IH]; [done|]. csimpl. rewrite <-IH. clear IH.
  rewrite filter_cons. destruct (decide (m = k)) as [->|Hne].
  - rewrite decide_True by (by symmetry; apply Hk). rewrite len_cons. lia.
  - rewrite decide_False by (intros E; by apply Hne, Hk). lia.
Qed.

Lemma port_at_key p k : is_server main_heap (Servers main_lb) k p → port_at (Some p) = key_port k ∧
  is_Some (main_heap !! p).
Proof.
  intros (_ & _ & b & _ & Hb & <- & _). split; [|by eexists]. change (default 0 (GetAPIPort <$> main_heap !! p) = key_port (GetID b)). rewrite Hb. cbn [fmap option_fmap option_map default].
  apply elem_of_list_to_map_2 in Hb.
  assert (Forall (λ x : nat * BackendServerProperties, GetAPIPort x.2 = key_port (GetID x.2))
    (zip [1; 2; 3]%nat main_servers)) as Hf by by repeat constructor.
  rewrite Forall_forall in Hf. by apply (Hf (p, b)).
Qed.

Lemma chosen_ports rs ms :
  chosen main_heap (Servers main_lb) rs ms →
  (λ p, page (port_at p)) <$> rs = page <$> (key_port <$> ms) ∧
  Forall (λ p, is_Some (p ≫= λ p, main_heap !! p)) rs.
Proof.
  induction 1 as [|r k rs ms (p & -> & Hp) _ [IH1 IH2]]; [done|].
  destruct (port_at_key _ _ Hp) as [E Hs]. csimpl. rewrite IH1, E. split; [done|]. by constructor.
Qed.


(** Backends that answer whatever they are asked at their port. *)
Definition demo_dial (req : BackendRequest) : Response + goerr :=
  match find (λ port, String.prefix ("http://localhost:" +:+ itoa port +:+ "/") (bUrl req))
    (GetAPIPort <$> main_servers) with
  | Some port => inl (mkResponse 200 ∅ (page port).2)
  | None => inr ErrIO
  end.

Lemma demo_dial_up : backends_up demo_dial.
Proof.
  intros req port path Hport Hurl _. exists (mkResponse 200 ∅ (page port).2). split; [|split; [by intros ? ?|]].
  - unfold demo_dial. rewrite Hurl.
    cbn [main_servers fmap list_fmap GetAPIPort apiPort NewBackendServer] in *.
    rewrite !elem_of_cons, elem_of_nil in Hport.
    destruct Hport as [->|[->|[->|[]]]]; destruct path; vm_compute; reflexivity.
  - done.
Qed.

(** A health check among a hundred requests. *)
Definition health_request : Request := mkRequest "GET" "/health" "" "192.0.2.7:1234" "localhost:8080" false ∅ [].
Definition demo_requests : list Request := replicate 60 demo_request ++ health_request :: replicate 40 demo_request.

End System.
