(* ===== verification/DiskIds.v ===== *)
(** [id-generators/disk-based/main.go]: a counter behind a mutex, persisted in a file on
    every identifier or on every fiftieth; a restarted service skips fifty ahead. *)

From stdpp Require Import gmap strings list fin_maps.
From Stdlib Require Import ZArith Lia.
From S2P Require Import Prelude GoLib GoFS.

Module DiskIds.

(** The global [counter] and the file system; [mu] makes each function one step. *)
Record Ids := mkIds { counter : Z; iwd : World }.

Definition set_counter (v : Z) : M Ids unit := modify (λ s, mkIds v (iwd s)).
Definition ondisk {A} (m : M World A) : M Ids A := zoom iwd (λ w s, mkIds (counter s) w) m.

Definition counterFilePath : string := "counter_value.txt".
Definition iterations : Z := 50.

Definition persistCounter (filePath : string) (value : Z) : M World unit :=
  WriteFile filePath (bytes_of (itoa value)).

(** [log.Fatalf] ends the program. *)
Definition fatal {A} : M Ids A := panic "log.Fatalf".

Definition loadCounter : M Ids unit :=
  let! data := attempt (ondisk (ReadFile counterFilePath)) in
  match data with
  | inr err =>
      if bool_decide (err = ErrNotExist) then
        do! set_counter iterations in
        do! ignore (ondisk (Create counterFilePath)) in
        ignore (ondisk (persistCounter counterFilePath iterations))
      else fatal
  | inl data =>
      match parse_int64 (string_of data) with
      | Ok val => set_counter (i64 (val + iterations))
      | _ => fatal
      end
  end.

Definition generateIDWithDiskPersistence : M Ids Z :=
  let! s := get_st in
  let value := i64 (counter s + 1) in
  do! set_counter value in
  let! r := attempt (ondisk (persistCounter counterFilePath value)) in
  match r with inl _ => ret value | inr _ => fatal end.

(** The parameter hides the constant; both are 50 in the service. *)
Definition generateIDWithPeriodicDiskPersistence (iterations : Z) : M Ids Z :=
  let! s := get_st in
  let value := i64 (counter s + 1) in
  do! set_counter value in
  if Z.rem value iterations =? 0 then
    let! r := attempt (ondisk (persistCounter counterFilePath value)) in
    match r with inl _ => ret value | inr _ => fatal end
  else ret value.

(** * The service *)

(** The two routes that hand out identifiers: [handler] (for the path "/" only) and
    [periodicHandler]. *)
Inductive route := Hard | Periodic.
#[export] Instance route_eq_dec : EqDecision route.
Proof. solve_decision. Defined.
Definition generate (r : route) : M Ids Z :=
  match r with
  | Hard => generateIDWithDiskPersistence
  | Periodic => generateIDWithPeriodicDiskPersistence iterations
  end.

(** The answer to a request at a path: an identifier, or none (404). *)
Definition handle (path : string) : M Ids (option Z) :=
  if String.eqb path "/periodic" then
    let! v := generate Periodic in ret (Some v)
  else if String.eqb path "/favicon.ico" then ret None
  else if negb (String.eqb path "/") then ret None
  else let! v := generate Hard in ret (Some v).

Fixpoint generate_all (rs : list route) : M Ids (list Z) :=
  match rs with
  | [] => ret []
  | r :: rs => let! v := generate r in let! vs := generate_all rs in ret (v :: vs)
  end.

(** One process: it loads the counter, answers its requests and is killed; the
    file system stays. *)
Definition process (rs : list route) : M Ids (list Z) :=
  do! set_counter 0 in do! loadCounter in generate_all rs.
Fixpoint processes (runs : list (list route)) : M Ids (list Z) :=
  match runs with
  | [] => ret []
  | rs :: runs => let! vs := process rs in let! us := processes runs in ret (vs ++ us)
  end.

End DiskIds.
