(* ===== verification/DiskIdsTheorems.v ===== *)
(** What [id-generators/disk-based/main.go] promises: identifiers are never handed out
    twice, across restarts, and where that fails. *)

From stdpp Require Import gmap strings list fin_maps sorting.
From Stdlib Require Import ZArith Lia.
From S2P Require Import Prelude GoLib GoFS DiskIds.
Import DiskIds.

(** * The file *)

(** The file holds the number [P], and no fault is to come. *)
Definition holds (P : Z) (w : World) : Prop :=
  file_at w counterFilePath = Some (bytes_of (itoa P)) ∧ w_faults w = [].

Lemma on_disk_ok {A} (m : M World A) c w a w' :
  m w = (Ok a, w') → ondisk m (mkIds c w) = (Ok a, mkIds c w').
Proof. intros E. unfold ondisk, zoom. cbn [iwd]. by rewrite E. Qed.

Lemma persist_ok v w :
  w_faults w = [] → ∃ w', persistCounter counterFilePath v w = (Ok tt, w') ∧ holds v w'.
Proof.
  intros F. destruct (WriteFile_nf w counterFilePath (bytes_of (itoa v)) F) as (w' & E & H1 & H2).
  by exists w'.
Qed.

(** Loading a file with a number skips fifty, loading none starts at fifty. *)
Lemma load_number P c w :
  holds P w → 0 ≤ P → P + 50 < 2 ^ 63 → loadCounter (mkIds c w) = (Ok tt, mkIds (P + 50) w).
Proof.
  intros [Hw F] H0 H1. pose proof (ReadFile_nf w counterFilePath F) as E. rewrite Hw in E.
  unfold loadCounter. rewrite (bind_ok _ _ _ _ _ (attempt_ok _ _ _ _ (on_disk_ok _ _ _ _ _ E))).
  rewrite string_of_bytes_of, parse_itoa by lia. unfold set_counter, modify. cbn [iwd].
  by rewrite i64_small by (unfold iterations; lia).
Qed.

Lemma load_missing c w :
  w_faults w = [] → file_at w counterFilePath = None →
  ∃ w', loadCounter (mkIds c w) = (Ok tt, mkIds 50 w') ∧ holds 50 w'.
Proof.
  intros F Hn. pose proof (ReadFile_nf w counterFilePath F) as E. rewrite Hn in E.
  destruct (persist_ok iterations (emptied counterFilePath w) F) as (w' & Ep & Hw').
  exists w'. split; [|done]. unfold loadCounter.
  assert (ondisk (ReadFile counterFilePath) (mkIds c w) = (Err ErrNotExist, mkIds c w)) as Er.
  { unfold ondisk, zoom. cbn [iwd]. by rewrite E. }
  rewrite (bind_ok _ _ _ _ _ (attempt_err _ _ _ _ Er)). rewrite bool_decide_true by done.
  rewrite (bind_ok _ _ _ tt (mkIds 50 w)) by done.
  pose proof (on_disk_ok _ 50 _ _ _ (Create_nf w counterFilePath F)) as Ec.
  unfold ignore at 1. rewrite (bind_ok _ _ _ tt (mkIds 50 (emptied counterFilePath w))).
  - unfold ignore. by rewrite (bind_ok _ _ _ _ _ (attempt_ok _ _ _ _ (on_disk_ok _ _ _ _ _ Ep))).
  - by rewrite (bind_ok _ _ _ _ _ (attempt_ok _ _ _ _ Ec)).
Qed.

(** * One identifier *)

Lemma generate_persists r c w :
  w_faults w = [] → 0 ≤ c → c + 1 < 2 ^ 63 → r = Hard ∨ (c + 1) mod 50 = 0 →
  ∃ w', generate r (mkIds c w) = (Ok (c + 1), mkIds (c + 1) w') ∧ holds (c + 1) w'.
Proof.
  intros F H0 H1 Hr. destruct (persist_ok (c + 1) w F) as (w' & E & Hw). exists w'. split; [|done].
  pose proof (on_disk_ok _ (c + 1) _ _ _ E) as E'.
  destruct r; cbn [generate];
    unfold generateIDWithDiskPersistence, generateIDWithPeriodicDiskPersistence;
    rewrite (bind_ok get_st _ _ _ _ eq_refl); cbn [counter]; rewrite i64_small by lia;
    rewrite (bind_ok _ _ _ tt (mkIds (c + 1) w)) by done.
  - by rewrite (bind_ok _ _ _ _ _ (attempt_ok _ _ _ _ E')).
  - destruct Hr as [?|Hr]; [done|]. unfold iterations.
    rewrite Z.rem_mod_nonneg, Hr, Z.eqb_refl by lia.
    by rewrite (bind_ok _ _ _ _ _ (attempt_ok _ _ _ _ E')).
Qed.

Lemma generate_skips c w :
  0 ≤ c → c + 1 < 2 ^ 63 → (c + 1) mod 50 ≠ 0 →
  generate Periodic (mkIds c w) = (Ok (c + 1), mkIds (c + 1) w).
Proof.
  intros H0 H1 Hr. cbn [generate]. unfold generateIDWithPeriodicDiskPersistence.
  rewrite (bind_ok get_st _ _ _ _ eq_refl). cbn [counter]. rewrite i64_small by lia.
  rewrite (bind_ok _ _ _ tt (mkIds (c + 1) w)) by done. unfold iterations.
  rewrite Z.rem_mod_nonneg by lia. by destruct (Z.eqb_spec ((c + 1) mod 50) 0).
Qed.

(** * A process *)

(** The counter has passed no multiple of fifty since it was persisted. *)
Definition settled (P c : Z) : Prop := P ≤ c ∧ ∀ x, P < x ≤ c → x mod 50 ≠ 0.

Lemma settled_bound P c : settled P c → c < P + 50.
Proof.
  intros [_ H]. destruct (Z.lt_ge_cases c (P + 50)) as [?|Hge]; [done|].
  pose proof (Z.div_mod P 50 ltac:(done)). pose proof (Z.mod_pos_bound P 50 ltac:(done)).
  destruct (H (50 * (P / 50 + 1)) ltac:(lia)). by rewrite Z.mul_comm, Z_mod_mult.
Qed.

Lemma settled_refl c : settled c c.
Proof. split; [done|]. intros x Hx. lia. Qed.

Lemma settled_next P c : settled P c → (c + 1) mod 50 ≠ 0 → settled P (c + 1).
Proof.
  intros [H1 H2] Hc. split; [lia|]. intros x Hx. destruct (decide (x = c + 1)) as [->|]; [done|].
  apply H2. lia.
Qed.

(** The identifiers of a process are consecutive, and either the counter was persisted
    on the way or no request asked for it. *)
Lemma generate_all_spec rs P c w :
  holds P w → 0 ≤ c → c + len rs < 2 ^ 63 →
  ∃ P' w', generate_all rs (mkIds c w) = (Ok (seqZ (c + 1) (len rs)), mkIds (c + len rs) w') ∧
    holds P' w' ∧
    ((P' = P ∧ (Hard ∉ rs) ∧ ∀ x, c < x ≤ c + len rs → x mod 50 ≠ 0) ∨
     c < P' ∧ settled P' (c + len rs)).
Proof.
  revert P c w. induction rs as [|r rs IH]; intros P c w Hw H0 H1.
  { exists P, w. rewrite len_nil, Z.add_0_r. split; [done|]. split; [done|]. left.
    split; [done|]. split; [apply not_elem_of_nil|]. intros x Hx. lia. }
  rewrite len_cons in *. pose proof (len_nonneg rs) as Hl.
  assert (∀ w1 w', generate r (mkIds c w) = (Ok (c + 1), mkIds (c + 1) w1) →
    generate_all rs (mkIds (c + 1) w1) = (Ok (seqZ (c + 1 + 1) (len rs)), mkIds (c + 1 + len rs) w') →
    generate_all (r :: rs) (mkIds c w) = (Ok (seqZ (c + 1) (1 + len rs)), mkIds (c + (1 + len rs)) w'))
    as Hstep.
  { intros w1 w' E1 E2. cbn [generate_all]. rewrite (bind_ok _ _ _ _ _ E1).
    rewrite (bind_ok _ _ _ _ _ E2). rewrite (seqZ_cons (c + 1)) by lia.
    replace (c + 1 + len rs) with (c + (1 + len rs)) by lia.
    by replace (Z.pred (1 + len rs)) with (len rs) by lia. }
  replace (c + (1 + len rs)) with (c + 1 + len rs) by lia.
  destruct (decide (r = Hard ∨ (c + 1) mod 50 = 0)) as [Hp|Hp].
  - destruct (generate_persists r c w ltac:(apply Hw) H0 ltac:(lia) Hp) as (w1 & E1 & Hw1).
    destruct (IH (c + 1) (c + 1) w1 Hw1) as (P' & w' & E2 & Hw' & Hor); [lia..|].
    exists P', w'. split; [rewrite (Hstep w1 w' E1 E2); do 2 f_equal; lia|]. split; [done|].
    right. destruct Hor as [(-> & _ & Hx)|[? ?]]; [|split; [lia|done]]. split; [lia|].
    split; [lia|done].
  - destruct r; [tauto|]. assert ((c + 1) mod 50 ≠ 0) as Hm by tauto.
    pose proof (generate_skips c w H0 ltac:(lia) Hm) as E1.
    destruct (IH P (c + 1) w Hw) as (P' & w' & E2 & Hw' & Hor); [lia..|].
    exists P', w'. split; [rewrite (Hstep w w' E1 E2); do 2 f_equal; lia|]. split; [done|].
    destruct Hor as [(-> & Hh & Hx)|[? ?]]; [left|right; split; [lia|done]].
    split; [done|]. split; [by intros [?|?]%elem_of_cons|].
    intros x Hx'. destruct (decide (x = c + 1)) as [->|]; [done|]. apply Hx. lia.
Qed.

(** * Restarts *)

(** Every process that is killed and followed by another has handed out nothing, or has
    persisted its counter: it leaves another counter file than it found. *)
Fixpoint all_persisted (runs : list (list route)) (s : Ids) : Prop :=
  match runs with
  | [] => True
  | rs :: runs =>
      let s' := (process rs s).2 in
      (runs = [] ∨ rs = [] ∨ file_at (iwd s') counterFilePath ≠ file_at (iwd s) counterFilePath) ∧
      all_persisted runs s'
  end.

(** The largest counter the processes can reach. *)
Definition reach (runs : list (list route)) : Z := zsum ((λ rs, 50 + len rs) <$> runs).

Lemma reach_cons rs runs : reach (rs :: runs) = 50 + len rs + reach runs.
Proof. done. Qed.
Lemma reach_nonneg runs : 0 ≤ reach runs.
Proof. induction runs as [|rs runs IH]; [done|]. rewrite reach_cons. pose proof (len_nonneg rs). lia. Qed.

Lemma process_spec rs P c w :
  holds P w → 0 ≤ P → P + 50 + len rs < 2 ^ 63 →
  ∃ P' w', process rs (mkIds c w) = (Ok (seqZ (P + 51) (len rs)), mkIds (P + 50 + len rs) w') ∧
    holds P' w' ∧
    ((P' = P ∧ (Hard ∉ rs) ∧ ∀ x, P + 50 < x ≤ P + 50 + len rs → x mod 50 ≠ 0) ∨
     P + 50 < P' ∧ settled P' (P + 50 + len rs)).
Proof.
  intros Hw H0 H1. pose proof (len_nonneg rs). unfold process.
  rewrite (bind_ok _ _ _ tt (mkIds 0 w)) by done.
  rewrite (bind_ok _ _ _ _ _ (load_number P 0 w Hw H0 ltac:(lia))).
  destruct (generate_all_spec rs P (P + 50) w Hw) as (P' & w' & E & H'); [lia..|].
  exists P', w'. by replace (P + 51) with (P + 50 + 1) by lia.
Qed.

(** The identifiers of the processes, above the bound where they start. *)
Definition ascending_above (b : Z) (ids : list Z) : Prop :=
  StronglySorted Z.lt ids ∧ Forall (Z.lt b) ids.

Lemma ascending_seqZ b a n : b < a → ascending_above b (seqZ a n).
Proof.
  intros Hb. split.
  - destruct (Z.le_gt_cases 0 n) as [Hn|Hn]; [|rewrite seqZ_nil by lia; constructor].
    revert a Hb. pattern n. apply natlike_ind; [intros; constructor| |done].
    intros m Hm IH a Hb. rewrite seqZ_cons by lia. rewrite Z.pred_succ. constructor; [apply IH; lia|].
    apply Forall_forall. intros x Hx%elem_of_seqZ. lia.
  - apply Forall_forall. intros x Hx%elem_of_seqZ. lia.
Qed.

Lemma ascending_app b a n ids :
  b < a → 0 ≤ n → ascending_above (a + n - 1) ids → ascending_above b (seqZ a n ++ ids).
Proof.
  intros Hb Hn [S2 F2]. destruct (ascending_seqZ b a n Hb) as [S1 F1]. split.
  - apply StronglySorted_app_2; [|done..]. intros x y Hx Hy.
    apply elem_of_seqZ in Hx. eapply Forall_forall in F2; [|exact Hy]. lia.
  - apply Forall_app. split; [done|]. eapply Forall_impl; [exact F2|]. intros y Hy. simpl in Hy. lia.
Qed.

(** A process that is followed by another leaves a number from which the other starts beyond
    every identifier it gave. *)
Lemma processes_spec runs P c w :
  holds P w → 0 ≤ P → P + reach runs < 2 ^ 63 → all_persisted runs (mkIds c w) →
  ∃ ids s', processes runs (mkIds c w) = (Ok ids, s') ∧ ascending_above (P + 50) ids.
Proof.
  revert P c w. induction runs as [|rs runs IH]; intros P c w Hw H0 H1 Hs.
  { eexists [], _. split; [reflexivity|]. split; constructor. }
  rewrite reach_cons in H1. pose proof (len_nonneg rs). pose proof (reach_nonneg runs).
  destruct (process_spec rs P c w Hw H0 ltac:(lia)) as (P' & w' & E & Hw' & Hor).
  cbn [all_persisted] in Hs. rewrite E in Hs. cbn [snd iwd] in Hs. destruct Hs as [Hs Hrest].
  cbn [processes]. rewrite (bind_ok _ _ _ _ _ E).
  destruct (decide (runs = [])) as [->|Hruns].
  { eexists _, _. split; [reflexivity|]. rewrite (right_id_L [] (++)). apply ascending_seqZ. lia. }
  assert (P ≤ P' ∧ P + 50 + len rs - 1 < P' + 50 ∧ P' ≤ P + 50 + len rs) as (Hp1 & Hp2 & Hp3).
  { destruct Hor as [(-> & _)|[Hlt Hset]].
    - destruct Hs as [?|[->|Hf]]; [done|rewrite len_nil in *; lia|].
      destruct Hf. by rewrite (proj1 Hw), (proj1 Hw').
    - pose proof (settled_bound _ _ Hset). destruct Hset as [? _]. lia. }
  destruct (IH P' (P + 50 + len rs) w' Hw') as (ids & s' & E' & Ha & Hf); [lia|lia|done|].
  rewrite (bind_ok _ _ _ _ _ E'). eexists _, _. split; [reflexivity|].
  apply ascending_app; [lia|done|]. split; [done|].
  eapply Forall_impl; [exact Hf|]. intros x Hx. simpl in Hx. lia.
Qed.

(** Without a file the first process leaves such a number in any case. *)
Lemma processes_new rs runs w :
  w_faults w = [] → file_at w counterFilePath = None →
  reach (rs :: runs) < 2 ^ 63 → all_persisted (rs :: runs) (mkIds 0 w) →
  ∃ ids s', processes (rs :: runs) (mkIds 0 w) = (Ok ids, s') ∧ StronglySorted Z.lt ids.
Proof.
  intros F Hn Hb Hs. rewrite reach_cons in Hb. pose proof (len_nonneg rs). pose proof (reach_nonneg runs).
  destruct (load_missing 0 w F Hn) as (w1 & El & Hw1).
  destruct (generate_all_spec rs 50 50 w1 Hw1) as (P & w2 & Eg & Hw2 & Hor); [lia..|].
  assert (50 ≤ P ∧ settled P (50 + len rs)) as [HP Hset].
  { destruct Hor as [(-> & _ & Hx)|[? ?]]; [|split; [lia|done]]. split; [lia|]. split; [lia|done]. }
  pose proof (settled_bound _ _ Hset). destruct Hset as [Hle _].
  assert (process rs (mkIds 0 w) = (Ok (seqZ 51 (len rs)), mkIds (50 + len rs) w2)) as Ep.
  { unfold process. rewrite (bind_ok _ _ _ tt (mkIds 0 w)) by done. by rewrite (bind_ok _ _ _ _ _ El). }
  cbn [all_persisted] in Hs. rewrite Ep in Hs. destruct Hs as [_ Hs]. cbn [snd] in Hs.
  destruct (processes_spec runs P (50 + len rs) w2 Hw2) as (ids & s' & E & Ha & Hf); [lia..|done|].
  assert (ascending_above 50 (seqZ 51 (len rs) ++ ids)) as [Hss _].
  { apply ascending_app; [lia|done|]. split; [done|].
    eapply Forall_impl; [exact Hf|]. intros x Hx. simpl in Hx. lia. }
  cbn [processes]. rewrite (bind_ok _ _ _ _ _ Ep), (bind_ok _ _ _ _ _ E). by eexists _, _.
Qed.

(** * The theorems *)

(** What the service finds when it is first started: no counter file, or one that holds a
    number. *)
Definition first_number (w : World) (P : Z) : Prop :=
  file_at w counterFilePath = None ∧ P = 0 ∨
  file_at w counterFilePath = Some (bytes_of (itoa P)) ∧ 0 ≤ P.

(** C9: Over any sequence of processes, each killed between two requests and restarted, no
    identifier is handed out twice, they even ascend, when the file system has no faults, the
    file at the first start is missing or holds a number, the counter stays below 2^63, and
    every process that is followed by another has handed out no identifier or has persisted
    its counter (so that it left another file than it found; without a file the first process
    always does). *)
Theorem ids_unique runs w P :
  w_faults w = [] → first_number w P → P + reach runs < 2 ^ 63 → all_persisted runs (mkIds 0 w) →
  ∃ ids s', processes runs (mkIds 0 w) = (Ok ids, s') ∧ StronglySorted Z.lt ids.
Proof.
  intros F [[Hn ->]|[Hn HP]] Hb Hs.
  - destruct runs as [|rs runs]; [|by apply processes_new].
    eexists [], _. split; [reflexivity|constructor].
  - destruct (processes_spec runs P 0 w) as (ids & s' & E & Ha & _); [done..|]. by eexists _, _.
Qed.

(** The second process crosses a multiple of fifty with three identifiers; the third answers
    the persisting route; the fourth hands out nothing. *)
Definition some_runs : list (list route) :=
  [replicate 48 Hard; replicate 3 Periodic; [Periodic; Hard]; []; [Periodic]].

Lemma ids_unique_witness :
  ∃ ids s', processes some_runs (mkIds 0 empty_world) = (Ok ids, s') ∧ StronglySorted Z.lt ids.
Proof.
  apply (ids_unique some_runs empty_world 0); [done|by left|by vm_compute|].
  repeat split; try (by left); try (by right; left); right; right; vm_compute; discriminate.
Defined.

(** C22: An identifier handed out by the persisting route is in the file by then, whatever
    faults the file system had before; a process started next begins fifty above it. *)
Theorem hard_id_durable s v s' c :
  generate Hard s = (Ok v, s') → -2 ^ 63 ≤ v < 2 ^ 63 - 50 →
  file_at (iwd s') counterFilePath = Some (bytes_of (itoa v)) ∧
  (w_faults (iwd s') = [] → (loadCounter (mkIds c (iwd s'))) = (Ok tt, mkIds (v + 50) (iwd s'))).
Proof.
  intros E Hv. cbn [generate] in E. unfold generateIDWithDiskPersistence in E.
  rewrite (bind_ok get_st _ _ _ _ eq_refl) in E. set (value := i64 (counter s + 1)) in *.
  rewrite (bind_ok _ _ _ tt (mkIds value (iwd s))) in E by done.
  apply bind_inv in E as (r & s1 & E1 & E). destruct r as [[]|]; [|done]. injection E as Ev ->.
  rewrite Ev in E1.
  assert (file_at (iwd s') counterFilePath = Some (bytes_of (itoa v))) as Hf.
  { revert E1. unfold attempt, ondisk, zoom. cbn [iwd].
    destruct (persistCounter counterFilePath v (iwd s)) as [[[]|e|y|] w'] eqn:Ep; cbn; intros [=]; subst.
    cbn. by apply WriteFile_ok in Ep. }
  split; [done|]. intros F. pose proof (ReadFile_nf _ counterFilePath F) as Er. rewrite Hf in Er.
  unfold loadCounter. rewrite (bind_ok _ _ _ _ _ (attempt_ok _ _ _ _ (on_disk_ok _ c _ _ _ Er))).
  rewrite string_of_bytes_of, parse_itoa by lia. unfold set_counter, modify. cbn [iwd].
  by rewrite i64_small by (unfold iterations; lia).
Qed.

Lemma hard_id_durable_witness :
  let s' := (generate Hard (mkIds 1050 empty_world)).2 in
  file_at (iwd s') counterFilePath = Some (bytes_of (itoa 1051)) ∧
  (w_faults (iwd s') = [] → (loadCounter (mkIds 0 (iwd s'))) = (Ok tt, mkIds (1051 + 50) (iwd s'))).
Proof.
  intros s'. apply (hard_id_durable (mkIds 1050 empty_world) 1051 s' 0); [|lia].
  vm_compute. reflexivity.
Defined.

(** The skip of fifty is not itself persisted: a process that is restarted and killed
    before its first multiple of fifty leaves the old number, and the next process
    hands out the same identifiers. *)
Theorem periodic_ids_repeat :
  (processes [replicate 10 Periodic; replicate 10 Periodic; replicate 10 Periodic]
    (mkIds 0 empty_world)).1 = Ok (seqZ 51 10 ++ seqZ 101 10 ++ seqZ 101 10).
Proof. vm_compute. reflexivity. Qed.

(** The file is rewritten in place: when the write of 111 fails after one byte the process
    ends, "1" is what the next one finds, and it hands out 52 again. *)
Theorem torn_write_repeats :
  let first := process (replicate 60 Hard) (mkIds 0 empty_world) in
  let torn := generate Hard (mkIds (counter first.2) (set_faults [None; Some 1%nat] (iwd first.2))) in
  let second := process [Hard] torn.2 in
  first.1 = Ok (seqZ 51 60) ∧ torn.1 = Panic "log.Fatalf" ∧ second.1 = Ok [52].
Proof. vm_compute. split_and!; reflexivity. Qed.
