(* ===== verification/Fairness.v ===== *)
(** [concurrency-examples/fairness/main.go]: counting primes by trial division, in fixed
    batches or from a shared counter.  The goroutines are interleaved at their atomic
    operations. *)

From stdpp Require Import base list list_numbers sorting relations.
From Stdlib Require Import ZArith Lia Znumtheory.
From S2P Require Import Prelude.

Module Fairness.

(** * The code *)

Definition MaxNumber : Z := 500000000.
Definition NumWorkers : Z := 10.

(** The loop of [isPrime]: whether a divisor turns up. *)
Fixpoint trial (fuel : nat) (n i : Z) : M Z bool :=
  match fuel with
  | O => λ s, (NoFuel, s)
  | S fuel =>
      if i64 (i * i) <=? n then
        if Z.rem n i =? 0 then ret true else trial fuel n (i + 1)
      else ret false
  end.

(** [isPrime]; the state is [numPrimes], an [int32].  The loop ends after the square
    root of [n]. *)
Definition isPrime (n : Z) : M Z bool :=
  if Z.land n 1 =? 0 then ret false else
  let! divided := trial (S (Z.to_nat (Z.sqrt n))) n 3 in
  if divided then ret false else
  do! modify (λ numPrimes, i32 (numPrimes + 1)) in
  ret true.

(** The numbers of [calculatePrimesInRange], and what it does with them. *)
Definition in_range (nstart nend : Z) : list Z := seqZ nstart (nend - nstart).
Fixpoint check_all (l : list Z) : M Z unit :=
  match l with
  | [] => ret tt
  | n :: l => do! isPrime n in check_all l
  end.
Definition calculatePrimesInRange (nstart nend : Z) : M Z unit := check_all (in_range nstart nend).

Section sizes.
Variables MaxNumber NumWorkers : Z.

(** The bounds [nonFairPrimeCalculator] gives worker [i]. *)
Definition batch (i : Z) : Z * Z :=
  let nstart := 2 in
  let nend := MaxNumber in
  let batchSize := Z.quot MaxNumber NumWorkers in
  let batchStart := nstart + i * batchSize in
  let batchEnd := batchStart + batchSize in
  if i =? NumWorkers - 1 then (batchStart, nend) else (batchStart, batchEnd).
Definition batches : list (Z * Z) := batch <$> seqZ 0 NumWorkers.

(** A worker of [calculatePrimesFairly] before its [AddInt32], inside [isPrime], or
    after its loop. *)
Inductive worker := Asking | Checking (n : Z) | Done.

Record pool := mkPool {
  workers : list worker;
  primeStart : Z;           (* int32 *)
  numPrimes : Z;            (* int32 *)
  checked : list Z;         (* not in the code: the numbers isPrime was called with *)
}.

(** [fairPrimeCalculator] starts its workers. *)
Definition fair_start : pool :=
  mkPool (replicate (Z.to_nat NumWorkers) Asking) 1 0 [].

Inductive fair_step : pool → pool → Prop :=
| fair_take p k currentNumber :
    workers p !! k = Some Asking → currentNumber = i32 (primeStart p + 1) →
    fair_step p (mkPool
      (<[k := if MaxNumber <? currentNumber then Done else Checking currentNumber]> (workers p))
      currentNumber (numPrimes p) (checked p))
| fair_check p k n b numPrimes' :
    workers p !! k = Some (Checking n) → isPrime n (numPrimes p) = (Ok b, numPrimes') →
    fair_step p (mkPool (<[k := Asking]> (workers p)) (primeStart p) numPrimes' (checked p ++ [n])).

(** [wg.Wait] returns. *)
Definition finished (p : pool) : Prop := Forall (λ w, w = Done) (workers p).
End sizes.

(** * Primality *)

Lemma trial_spec fuel n i s :
  (0 < fuel)%nat → 3 ≤ i → 0 ≤ n < 2 ^ 62 → Z.sqrt n + 2 ≤ Z.of_nat fuel + i → i ≤ Z.sqrt n + 1 ∨ i = 3 →
  ∃ b, trial fuel n i s = (Ok b, s) ∧
    (b = true ↔ ∃ d, i ≤ d ∧ d * d ≤ n ∧ (d | n)).
Proof.
  intros H0 Hi Hn. pose proof (Z.sqrt_spec n ltac:(lia)) as Hs. simpl in Hs.
  pose proof (Z.sqrt_nonneg n) as Hp. revert i Hi H0. induction fuel as [|fuel IH]; intros i Hi H0 Hf Hb; [lia|].
  assert (Z.sqrt n < 2 ^ 31) as Hq by (apply Z.sqrt_lt_square; lia).
  assert (i64 (i * i) = i * i) as Ei.
  { apply i64_small. assert (0 ≤ i ≤ 2 ^ 31) as Hi' by lia. clear - Hi'. assert (i * i ≤ 2 ^ 31 * 2 ^ 31) by (apply Z.mul_le_mono_nonneg; lia). lia. }
  cbn [trial]. rewrite Ei. destruct (Z.leb_spec (i * i) n) as [Hle|Hgt].
  - destruct (Z.eqb_spec (Z.rem n i) 0) as [Hr|Hr].
    + exists true. split; [done|]. split; [|done]. intros _. exists i. split; [done|].
      split; [done|]. rewrite Z.rem_mod_nonneg in Hr by lia. apply Z.mod_divide in Hr; [done|lia].
    + assert (i ≤ Z.sqrt n) as Hsq by nia.
      destruct (IH (i + 1)) as (b & E & Hbd); [lia..|]. exists b. split; [done|]. rewrite Hbd.
      split; intros (d & H1 & H2 & H3); exists d; (split; [|done]); [lia|].
      destruct (decide (d = i)) as [->|]; [|lia]. destruct Hr.
      apply Z.mod_divide in H3; [|lia]. by rewrite Z.rem_mod_nonneg by lia.
  - exists false. split; [done|]. split; [done|]. intros (d & H1 & H2 & _). nia.
Qed.

Lemma prime_no_divisor n d : prime n → 1 < d < n → ¬ (d | n).
Proof.
  intros [_ Hp] Hd Hdn. destruct (Hp d ltac:(lia)) as [_ _ Hg].
  pose proof (Hg d (Z.divide_refl d) Hdn) as H1. apply Z.divide_1_r_nonneg in H1; lia.
Qed.

(** An odd number is prime unless an odd number up to its root divides it. *)
Lemma odd_prime n :
  3 ≤ n → Z.odd n = true → (prime n ↔ ¬ ∃ d, 3 ≤ d ∧ d * d ≤ n ∧ (d | n)).
Proof.
  intros Hn Ho. split.
  - intros Hp (d & H1 & H2 & H3). apply (prime_no_divisor n d); [done|nia|done].
  - intros Hd. destruct (prime_dec n) as [|Hnp]; [done|]. destruct Hd.
    destruct (not_prime_divide n ltac:(lia) Hnp) as (m & Hm & k & ->).
    assert (Z.odd k = true ∧ Z.odd m = true) as [Hk Hm'].
    { rewrite Z.odd_mul in Ho. by apply andb_true_iff in Ho. }
    assert (k ≠ 1) as Hk1 by nia. assert (0 < k) as Hk0 by nia.
    assert (3 ≤ k ∧ 3 ≤ m) as [Hk3 Hm3].
    { split; [destruct (decide (k = 2)) as [->|]|destruct (decide (m = 2)) as [->|]]; [done|lia|done|lia]. }
    destruct (Z.le_ge_cases k m).
    + exists k. split; [done|]. split; [nia|]. exists m; lia.
    + exists m. split; [done|]. split; [nia|]. by exists k.
Qed.

(** [isPrime] terminates, counts what it answers, and answers right from 3 on. *)
Lemma isPrime_total n c :
  0 ≤ n < 2 ^ 62 → ∃ b : bool, isPrime n c = (Ok b, if b then i32 (c + 1) else c).
Proof.
  intros Hn. unfold isPrime. destruct (Z.land n 1 =? 0); [by exists false|].
  destruct (trial_spec (S (Z.to_nat (Z.sqrt n))) n 3 c) as (b & E & _); [lia|done|lia| |by right|].
  { pose proof (Z.sqrt_nonneg n). lia. }
  rewrite (bind_ok _ _ _ _ _ E). exists (negb b). by destruct b.
Qed.

Lemma isPrime_prime n c :
  3 ≤ n < 2 ^ 62 → ∃ b : bool, isPrime n c = (Ok b, if b then i32 (c + 1) else c) ∧ (b = true ↔ prime n).
Proof.
  intros Hn. unfold isPrime. assert (Z.land n 1 = n mod 2) as -> by (apply (Z.land_ones n 1); lia).
  rewrite Zmod_odd. destruct (Z.odd n) eqn:Ho; simpl.
  - destruct (trial_spec (S (Z.to_nat (Z.sqrt n))) n 3 c) as (b & E & Hb); [lia|done|lia| |by right|].
    { pose proof (Z.sqrt_nonneg n). lia. }
    rewrite (bind_ok _ _ _ _ _ E). exists (negb b). rewrite (odd_prime n) by (done || lia).
    rewrite <-Hb. destruct b; (split; [done|]).
    + split; [discriminate|]. intros Hx. by destruct Hx.
    + split; [|done]. intros _. discriminate.
  - exists false. split; [done|]. split; [done|]. intros Hp.
    rewrite <-Z.negb_even in Ho. apply negb_false_iff, Z.even_spec in Ho as [k ->].
    destruct (prime_no_divisor (2 * k) 2); [done|lia|]. exists k. lia.
Qed.

(** * Theorems *)

(** [isPrime] answers primality for every number from 3 on (it is correct up to 2^62 on
    64-bit integers), in time bounded by the square root, and counts exactly what it
    answers; it denies 2 and affirms 1. *)
Theorem isPrime_correct n c :
  3 ≤ n < 2 ^ 62 →
  (∃ b : bool, isPrime n c = (Ok b, if b then i32 (c + 1) else c) ∧ (b = true ↔ prime n)) ∧
  isPrime 2 c = (Ok false, c) ∧ isPrime 1 c = (Ok true, i32 (c + 1)).
Proof. intros Hn. split; [by apply isPrime_prime|done]. Qed.

Lemma isPrime_correct_witness :
  (∃ b : bool, isPrime 97 0 = (Ok b, if b then i32 (0 + 1) else 0) ∧ (b = true ↔ prime 97)) ∧
  isPrime 2 0 = (Ok false, 0) ∧ isPrime 1 0 = (Ok true, i32 (0 + 1)).
Proof. apply (isPrime_correct 97 0). lia. Defined.

(** ** Batches *)

Lemma seqZ_one a : seqZ a 1 = [a].
Proof. rewrite seqZ_cons by lia. by rewrite seqZ_nil by lia. Qed.

(** The numbers of the first [k] batches, none of them the last. *)
Lemma batches_prefix max workers k :
  0 ≤ Z.quot max workers → 0 ≤ k < workers →
  mjoin ((λ b : Z * Z, in_range b.1 b.2) <$> (batch max workers <$> seqZ 0 k)) =
    seqZ 2 (k * Z.quot max workers).
Proof.
  intros Hq [Hk Hlt]. revert Hlt. pattern k. apply natlike_ind; [done| |done].
  clear k Hk. intros k Hk IH Hlt. rewrite <-Z.add_1_r, seqZ_app by lia.
  rewrite !fmap_app, join_app, IH, seqZ_one by lia. cbn. unfold batch.
  destruct (Z.eqb_spec (0 + k) (workers - 1)) as [?|_]; [lia|]. cbn.
  rewrite (right_id_L [] (++)). unfold in_range.
  replace (_ - _) with (Z.quot max workers) by lia.
  replace ((k + 1) * Z.quot max workers) with (k * Z.quot max workers + Z.quot max workers) by lia.
  rewrite seqZ_app by lia. do 2 f_equal; lia.
Qed.

(** The batches of the non-fair calculator are disjoint and cover exactly the numbers from 2
    up to, but without, the maximum. *)
Theorem batches_cover max workers :
  0 < workers → 2 ≤ max - (workers - 1) * Z.quot max workers → 0 ≤ Z.quot max workers →
  mjoin ((λ b : Z * Z, in_range b.1 b.2) <$> batches max workers) = seqZ 2 (max - 2).
Proof.
  intros Hw Hm Hq. assert (0 ≤ (workers - 1) * Z.quot max workers) as Hp by nia. unfold batches.
  replace workers with (workers - 1 + 1) at 2 by lia. rewrite seqZ_app by lia.
  rewrite !fmap_app, join_app, batches_prefix, seqZ_one by lia. cbn. unfold batch.
  destruct (Z.eqb_spec (0 + (workers - 1)) (workers - 1)) as [_|?]; [|lia]. cbn.
  rewrite (right_id_L [] (++)). unfold in_range.
  replace (max - 2) with
    ((workers - 1) * Z.quot max workers + (max - 2 - (workers - 1) * Z.quot max workers)) by lia.
  rewrite seqZ_app by lia. f_equal. f_equal; lia.
Qed.

Lemma batches_cover_witness :
  mjoin ((λ b : Z * Z, in_range b.1 b.2) <$> batches MaxNumber NumWorkers) = seqZ 2 (MaxNumber - 2).
Proof. apply (batches_cover MaxNumber NumWorkers); by vm_compute. Defined.

(** ** The shared counter *)

#[export] Instance prime_decision n : Decision (prime n) := prime_dec n.
#[export] Instance worker_eq_dec : EqDecision worker.
Proof. solve_decision. Defined.

(** What [isPrime] counts. *)
Definition counted (n : Z) : Prop := prime n ∧ n ≠ 2.
Definition count (n : Z) : Z := if decide (counted n) then 1 else 0.

Lemma isPrime_count n c :
  2 ≤ n < 2 ^ 62 → 0 ≤ c < 2 ^ 31 - 1 → ∃ b, isPrime n c = (Ok b, c + count n).
Proof.
  intros Hn Hc. unfold count, counted. destruct (decide (n = 2)) as [->|Hne].
  - exists false. rewrite decide_False by tauto. by rewrite Z.add_0_r.
  - destruct (isPrime_prime n c) as (b & E & Hb); [lia|]. exists b. rewrite E. f_equal.
    destruct b.
    + rewrite decide_True by (split; [by apply Hb|done]). apply i32_small. lia.
    + rewrite decide_False; [lia|]. intros [Hp _]. by apply Hb in Hp.
Qed.

Definition checking_of (w : worker) : option Z := match w with Checking n => Some n | _ => None end.
Definition checking (p : pool) : list Z := omap checking_of (workers p).
Definition dones (p : pool) : Z := len (filter (λ w, w = Done) (workers p)).

Section pool.
Variables max nworkers : Z.
Hypothesis Hmax : 2 ≤ max.
Hypothesis Hw : 0 < nworkers.
Hypothesis Hsmall : max + nworkers < 2 ^ 31.

Record pool_inv (p : pool) : Prop := {
  pi_len : len (workers p) = nworkers;
  pi_start : 1 ≤ primeStart p ≤ max + dones p;
  pi_done : Done ∈ workers p → max < primeStart p;
  pi_numbers : checked p ++ checking p ≡ₚ seqZ 2 (Z.min (primeStart p) max - 1);
  pi_count : numPrimes p = zsum (count <$> checked p);
}.

Lemma split_worker (l : list worker) k w :
  l !! k = Some w → ∃ l1 l2, l = l1 ++ w :: l2 ∧ ∀ w', <[k := w']> l = l1 ++ w' :: l2.
Proof.
  intros Hk. exists (take k l), (drop (S k) l). split; [by rewrite take_drop_middle|].
  intros w'. apply insert_take_drop. by eapply lookup_lt_Some.
Qed.

Lemma count_bounds l : 0 ≤ zsum (count <$> l) ≤ len l.
Proof.
  induction l as [|x l IH]; csimpl; [done|]. rewrite len_cons. unfold count at 1 3.
  destruct (decide _); lia.
Qed.

Lemma fair_inv_start : pool_inv (fair_start nworkers).
Proof.
  constructor; cbn.
  - unfold len. rewrite length_replicate. lia.
  - unfold dones, len. lia.
  - intros Hd%elem_of_replicate. by destruct Hd.
  - unfold checking. cbn. rewrite seqZ_nil by lia.
    by induction (Z.to_nat nworkers) as [|n IH].
  - done.
Qed.

Lemma dones_split p l1 w l2 : workers p = l1 ++ w :: l2 →
  dones p = len (filter (λ w, w = Done) (l1 ++ l2)) + (if decide (w = Done) then 1 else 0).
Proof.
  intros E. unfold dones. rewrite E, !filter_app, filter_cons, !len_app.
  destruct (decide _); [rewrite len_cons|]; lia.
Qed.

Lemma dones_le l : len (filter (λ w, w = Done) l) ≤ len l.
Proof. unfold len. apply inj_le, length_filter. Qed.

(** A worker draws the next number. *)
Lemma ask_inv p k cur :
  workers p !! k = Some Asking → cur = i32 (primeStart p + 1) → pool_inv p →
  pool_inv (mkPool (<[k := if max <? cur then Done else Checking cur]> (workers p)) cur (numPrimes p) (checked p)).
Proof.
  intros Hk Hcur [I1 I2 I3 I4 I5]. destruct (split_worker _ _ _ Hk) as (l1 & l2 & El & Ei).
  pose proof (dones_split p l1 Asking l2 El) as Hd. rewrite decide_False in Hd by done.
  pose proof (dones_le (l1 ++ l2)) as Hle. rewrite El in I1. unfold len in I1, Hle.
  rewrite length_app in I1. rewrite length_app in Hle. cbn in I1.
  assert (cur = primeStart p + 1) as -> by (subst cur; apply i32_small; unfold len in Hd; lia).
  clear Hcur. set (w' := if max <? primeStart p + 1 then Done else Checking (primeStart p + 1)).
  constructor; cbn [workers primeStart numPrimes checked].
  - rewrite Ei. unfold len. rewrite length_app. cbn. lia.
  - rewrite (dones_split _ l1 w' l2) by apply Ei. unfold w'.
    pose proof (len_nonneg (filter (λ w, w = Done) (l1 ++ l2))).
    destruct (Z.ltb_spec max (primeStart p + 1)); [rewrite decide_True by done|rewrite decide_False by done];
      cbn [primeStart]; lia.
  - rewrite Ei. unfold w'. intros [Hin|[Hin|Hin]%elem_of_cons]%elem_of_app.
    + assert (max < primeStart p); [|lia]. apply I3. rewrite El. apply elem_of_app. by left.
    + destruct (Z.ltb_spec max (primeStart p + 1)); [done|discriminate].
    + assert (max < primeStart p); [|lia]. apply I3. rewrite El. apply elem_of_app. right. by right.
  - unfold checking in *. cbn [workers]. rewrite Ei. rewrite El in I4.
    rewrite omap_app in I4 |- *. csimpl in *. unfold w'.
    destruct (Z.ltb_spec max (primeStart p + 1)) as [Hgt|Hle']; cbn.
    + rewrite I4. by replace (Z.min (primeStart p + 1) max) with (Z.min (primeStart p) max) by lia.
    + rewrite (assoc_L (++)) in I4 |- *. etrans; [symmetry; apply Permutation_middle|].
      etrans; [apply perm_skip, I4|]. rewrite !Z.min_l by lia.
      replace (primeStart p + 1 - 1) with (primeStart p - 1 + 1) by lia.
      rewrite seqZ_app, seqZ_one by lia.
      etrans; [apply Permutation_cons_append|].
      by replace (2 + (primeStart p - 1)) with (primeStart p + 1) by lia.
  - done.
Qed.

(** A worker has checked its number. *)
Lemma checked_inv p k n b np :
  workers p !! k = Some (Checking n) → isPrime n (numPrimes p) = (Ok b, np) → pool_inv p →
  pool_inv (mkPool (<[k := Asking]> (workers p)) (primeStart p) np (checked p ++ [n])).
Proof.
  intros Hk E [I1 I2 I3 I4 I5]. destruct (split_worker _ _ _ Hk) as (l1 & l2 & El & Ei).
  assert (n ∈ seqZ 2 (Z.min (primeStart p) max - 1)) as Hn.
  { rewrite <-I4. apply elem_of_app. right. unfold checking. rewrite El, omap_app.
    apply elem_of_app. right. csimpl. by left. }
  apply elem_of_seqZ in Hn.
  assert (len (checked p) ≤ max) as Hc.
  { apply Permutation_length in I4. rewrite length_app, length_seqZ in I4. unfold len. lia. }
  pose proof (count_bounds (checked p)) as Hb. rewrite <-I5 in Hb.
  destruct (isPrime_count n (numPrimes p)) as [b' E']; [lia|lia|]. rewrite E in E'.
  injection E' as _ ->. constructor; cbn [workers primeStart numPrimes checked].
  - rewrite Ei. rewrite El in I1. unfold len in *. rewrite length_app in *. cbn in *. lia.
  - rewrite (dones_split _ l1 Asking l2) by apply Ei.
    rewrite (dones_split p l1 _ l2 El) in I2. done.
  - rewrite Ei. intros Hin. apply I3. rewrite El. apply elem_of_app in Hin as [?|[?|?]%elem_of_cons];
      apply elem_of_app; [by left|discriminate|right; by right].
  - unfold checking in *. cbn [workers]. rewrite Ei. rewrite El in I4.
    rewrite omap_app in I4 |- *. csimpl in *. rewrite <-I4, <-(assoc_L (++)).
    apply Permutation_app_head. cbn. apply Permutation_middle.
  - rewrite fmap_app, zsum_app, I5. cbn. lia.
Qed.

Lemma fair_step_inv p p' : fair_step max p p' → pool_inv p → pool_inv p'.
Proof. destruct 1; intros Hi; [by apply ask_inv|by eapply checked_inv]. Qed.
End pool.

(** The number of primes the pool should find. *)
Definition odd_primes_up_to (max : Z) : Z := zsum (count <$> seqZ 2 (max - 1)).

Section runs.
Variables max nworkers : Z.
Hypothesis Hmax : 2 ≤ max.
Hypothesis Hw : 0 < nworkers.
Hypothesis Hsmall : max + nworkers < 2 ^ 31.

Lemma reachable_pool_inv p :
  rtc (fair_step max) (fair_start nworkers) p → pool_inv max nworkers p.
Proof.
  intros Hr. assert (pool_inv max nworkers (fair_start nworkers)) as Hi
    by (apply fair_inv_start; lia).
  revert Hi. induction Hr as [|p1 p2 p3 Hs _ IH]; [done|].
  intros Hi. by eapply IH, fair_step_inv.
Qed.

Lemma finished_checked p :
  pool_inv max nworkers p → finished p → checked p ≡ₚ seqZ 2 (max - 1).
Proof.
  intros [I1 I2 I3 I4 I5] Hf.
  assert (checking p = []) as Hc.
  { unfold checking. clear -Hf. unfold finished in Hf.
    induction Hf as [|w l -> Hl IH]; [done|]. csimpl. exact IH. }
  rewrite Hc, (right_id_L [] (++)) in I4. rewrite I4.
  assert (max < primeStart p); [|by rewrite Z.min_r by lia].
  apply I3. unfold finished in Hf. destruct (workers p) as [|w l]; [unfold len in I1; simpl in I1; lia|].
  apply Forall_cons in Hf as [-> _]. by left.
Qed.

(** What remains to be done. *)
Definition remaining (p : pool) : Z := 2 * (max + nworkers - primeStart p) + len (checking p).

Lemma fair_step_remaining p p' :
  fair_step max p p' → pool_inv max nworkers p → 0 ≤ remaining p' < remaining p.
Proof.
  intros Hs Hi. pose proof (fair_step_inv max nworkers Hmax Hw Hsmall p p' Hs Hi) as [J1 J2 _ _ _].
  assert (0 ≤ remaining p') as Hp.
  { unfold remaining. pose proof (len_nonneg (checking p')).
    pose proof (dones_le (workers p')) as Hd. fold (dones p') in Hd. lia. }
  split; [done|]. destruct Hi as [I1 I2 _ _ _]. unfold remaining, checking in *.
  destruct Hs as [p k cur Hk Hcur|p k n b np Hk E];
    destruct (split_worker _ _ _ Hk) as (l1 & l2 & El & Ei); cbn [workers primeStart] in *;
    rewrite Ei, El, !omap_app, !len_app; csimpl.
  - pose proof (dones_split p l1 Asking l2 El) as Hd. rewrite decide_False in Hd by done.
    pose proof (dones_le (l1 ++ l2)) as Hle. rewrite El in I1. rewrite len_app, len_cons in I1.
    rewrite (len_app l1 l2) in Hle.
    assert (cur = primeStart p + 1) as -> by (subst cur; apply i32_small; lia).
    destruct (max <? primeStart p + 1); cbn [checking_of]; rewrite ?len_cons; lia.
  - cbn [checking_of]. rewrite len_cons. lia.
Qed.

Lemma unfinished_step p :
  pool_inv max nworkers p → ¬ finished p → ∃ p', fair_step max p p'.
Proof.
  intros [I1 I2 I3 I4 I5] Hf. unfold finished in Hf.
  apply not_Forall_Exists in Hf; [|solve_decision].
  apply Exists_exists in Hf as (w & Hin & Hne). apply list_elem_of_lookup in Hin as [k Hk].
  destruct w as [|n|]; [| |by destruct Hne].
  - eexists. by eapply fair_take.
  - destruct (split_worker _ _ _ Hk) as (l1 & l2 & El & _).
    assert (n ∈ seqZ 2 (Z.min (primeStart p) max - 1)) as Hn.
    { rewrite <-I4. apply elem_of_app. right. unfold checking. rewrite El, omap_app.
      apply elem_of_app. right. csimpl. by left. }
    apply elem_of_seqZ in Hn.
    destruct (isPrime_total n (numPrimes p)) as (b & E); [lia|]. eexists. by eapply fair_check.
Qed.
End runs.

(** C10: However the workers interleave, every number from 2 up to the shared counter is being
    checked or has been checked exactly once, and [numPrimes] counts the odd primes
    among the checked ones; when all workers are done that is every number up to the
    maximum, so the total is the number of odd primes: 2 is missed. *)
Theorem fair_counts_primes max nworkers p :
  2 ≤ max → 0 < nworkers → max + nworkers < 2 ^ 31 →
  rtc (fair_step max) (fair_start nworkers) p →
  checked p ++ checking p ≡ₚ seqZ 2 (Z.min (primeStart p) max - 1) ∧
  numPrimes p = zsum (count <$> checked p) ∧
  (finished p → numPrimes p = odd_primes_up_to max).
Proof.
  intros Hm Hw Hs Hr. pose proof (reachable_pool_inv max nworkers Hm Hw Hs p Hr) as Hi.
  split; [apply Hi|]. split; [apply Hi|]. intros Hf.
  rewrite (pi_count _ _ _ Hi). unfold odd_primes_up_to. apply zsum_perm.
  apply fmap_Permutation. by eapply finished_checked.
Qed.

(** C32: The workers always finish: while some worker is not done a step is possible, and no run
    has more than twice as many steps as there are numbers and workers. *)
Theorem fair_terminates max nworkers n p :
  2 ≤ max → 0 < nworkers → max + nworkers < 2 ^ 31 →
  nsteps (fair_step max) n (fair_start nworkers) p →
  Z.of_nat n ≤ 2 * (max + nworkers - 1) ∧ (¬ finished p → ∃ p', fair_step max p p').
Proof.
  intros Hm Hw Hs Hr.
  assert (∀ m q, nsteps (fair_step max) m q p → pool_inv max nworkers q →
    Z.of_nat m + remaining max nworkers p ≤ remaining max nworkers q) as Hd.
  { induction m as [|m IH]; intros q Hq Hi; inversion Hq as [|? ? q' ? Hs1 Hs2]; subst; [lia|].
    pose proof (fair_step_remaining max nworkers Hm Hw Hs q q' Hs1 Hi).
    specialize (IH q' Hs2 (fair_step_inv max nworkers Hm Hw Hs q q' Hs1 Hi)). lia. }
  assert (pool_inv max nworkers (fair_start nworkers)) as Hi by (apply fair_inv_start; lia).
  assert (pool_inv max nworkers p) as Hip.
  { apply (reachable_pool_inv max nworkers); try done. apply rtc_nsteps. by exists n. }
  split; [|by apply (unfinished_step max nworkers)].
  specialize (Hd n _ Hr Hi).
  assert (remaining max nworkers (fair_start nworkers) = 2 * (max + nworkers - 1)) as E.
  { unfold remaining, checking. cbn. assert (omap checking_of (replicate (Z.to_nat nworkers) Asking) = []) as ->.
    { by induction (Z.to_nat nworkers). }
    rewrite len_nil. lia. }
  assert (0 ≤ remaining max nworkers p); [|lia]. unfold remaining. pose proof (len_nonneg (checking p)).
  pose proof (dones_le (workers p)) as Hle. fold (dones p) in Hle. destruct Hip as [J1 J2 _ _ _]. lia.
Qed.

(** Two workers and the numbers up to 5: 3 has been checked, 2 and 4 are being checked. *)
Definition demo_pool : pool := mkPool [Checking 2; Checking 4] 4 1 [3].

Lemma demo_steps : nsteps (fair_step 5) 4 (fair_start 2) demo_pool.
Proof.
  eapply (nsteps_l _ _ _ (mkPool [Checking 2; Asking] 2 0 [])).
  { apply (fair_take 5 (fair_start 2) 0 2); reflexivity. }
  eapply (nsteps_l _ _ _ (mkPool [Checking 2; Checking 3] 3 0 [])).
  { apply (fair_take 5 (mkPool [Checking 2; Asking] 2 0 []) 1 3); reflexivity. }
  eapply (nsteps_l _ _ _ (mkPool [Checking 2; Asking] 3 1 [3])).
  { apply (fair_check 5 (mkPool [Checking 2; Checking 3] 3 0 []) 1 3 true 1); reflexivity. }
  eapply (nsteps_l _ _ _ demo_pool); [|apply nsteps_O].
  apply (fair_take 5 (mkPool [Checking 2; Asking] 3 1 [3]) 1 4); reflexivity.
Qed.

Lemma fair_counts_primes_witness :
  checked demo_pool ++ checking demo_pool ≡ₚ seqZ 2 (Z.min (primeStart demo_pool) 5 - 1) ∧
  numPrimes demo_pool = zsum (count <$> checked demo_pool) ∧
  (finished demo_pool → numPrimes demo_pool = odd_primes_up_to 5).
Proof.
  apply (fair_counts_primes 5 2 demo_pool); [done|done|done|].
  apply rtc_nsteps. exists 4%nat. exact demo_steps.
Defined.

Lemma fair_terminates_witness :
  Z.of_nat 4 ≤ 2 * (5 + 2 - 1) ∧ (¬ finished demo_pool → ∃ p', fair_step 5 demo_pool p').
Proof. apply (fair_terminates 5 2 4 demo_pool); [done|done|done|exact demo_steps]. Defined.

End Fairness.
