(* ===== verification/ConnPool.v ===== *)
(** [relational-db/exclusive-locks/db/db.go]: a blocking pool of connections: a stack
    behind a mutex, and a buffered channel that counts what is in it.  Goroutines are
    interleaved between the channel operations and the critical sections. *)

From stdpp Require Import base strings list list_numbers sorting relations.
From Stdlib Require Import ZArith Lia.
From S2P Require Import Prelude GoLib.

Module ConnPool.

(** * The code *)

(** A connection, by address. *)
Abbreviation conn := nat.

(** [tokens]: how many values the channel holds; its capacity is [maxConn]. *)
Record cpool := mkPool {
  tokens : Z;
  conns : list conn;
  maxConn : Z;
}.

(** [pool.channel <- nil] and [<-pool.channel]; [None] when it blocks. *)
Definition send (p : cpool) : option cpool :=
  if tokens p <? maxConn p then Some (mkPool (tokens p + 1) (conns p) (maxConn p)) else None.
Definition receive (p : cpool) : option cpool :=
  if 0 <? tokens p then Some (mkPool (tokens p - 1) (conns p) (maxConn p)) else None.

(** The critical sections of [Put] and [Get]. *)
Definition push (c : conn) : M cpool unit :=
  modify (λ p, mkPool (tokens p) (conns p ++ [c]) (maxConn p)).
Definition pop : M cpool conn :=
  let! p := get_st in
  let lastIndex := len (conns p) - 1 in
  match index (conns p) lastIndex with
  | None => panic "index out of range"
  | Some c =>
      do! put_st (mkPool (tokens p) (take (Z.to_nat lastIndex) (conns p)) (maxConn p)) in
      ret c
  end.

(** The loop of [newPool]; [newConn i] is the connection of iteration [i].  [None]: it
    blocks for ever. *)
Fixpoint fill (newConn : nat → conn) (idx : list nat) (p : cpool) : option cpool :=
  match idx with
  | [] => Some p
  | i :: idx =>
      p ← send (mkPool (tokens p) (conns p ++ [newConn i]) (maxConn p));
      fill newConn idx p
  end.
Definition newPool (newConn : nat → conn) (maxConn : nat) : option cpool :=
  fill newConn (seq 0 maxConn) (mkPool 0 [] (Z.of_nat maxConn)).

(** * Goroutines *)

(** Where a goroutine is: outside, in [Get] before the lock, with a connection, in [Put]
    before the channel, or dead of a panic. *)
Inductive client := Outside | Getting | Holding (c : conn) | Putting | Panicked.
#[export] Instance client_eq_dec : EqDecision client.
Proof. solve_decision. Defined.

Record state := mkState { clients : list client; pool : cpool }.

(** Each goroutine calls [Get] and then [Put] with what it got, again and again. *)
Inductive pool_step : state → state → Prop :=
| get_receive s k p' :
    clients s !! k = Some Outside → receive (pool s) = Some p' →
    pool_step s (mkState (<[k := Getting]> (clients s)) p')
| get_pop s k c p' :
    clients s !! k = Some Getting → pop (pool s) = (Ok c, p') →
    pool_step s (mkState (<[k := Holding c]> (clients s)) p')
| get_panic s k w p' :
    clients s !! k = Some Getting → pop (pool s) = (Panic w, p') →
    pool_step s (mkState (<[k := Panicked]> (clients s)) p')
| put_push s k c p' :
    clients s !! k = Some (Holding c) → push c (pool s) = (Ok tt, p') →
    pool_step s (mkState (<[k := Putting]> (clients s)) p')
| put_send s k p' :
    clients s !! k = Some Putting → send (pool s) = Some p' →
    pool_step s (mkState (<[k := Outside]> (clients s)) p').

(** * The invariant *)

Definition held_by (c : client) : option conn := match c with Holding c => Some c | _ => None end.
Definition held (s : state) : list conn := omap held_by (clients s).

(** How much of the channel a client accounts for, and of the stack. *)
Definition out_token (c : client) : Z :=
  match c with Getting | Holding _ | Putting => 1 | _ => 0 end.
Definition in_stack (c : client) : Z := match c with Getting | Putting => 1 | _ => 0 end.

(** Each connection is in the pool or with one client; the channel and the stack
    differ by the clients between their two parts. *)
Record pool_inv (cs : list conn) (s : state) : Prop := {
  pi_max : maxConn (pool s) = len cs;
  pi_perm : conns (pool s) ++ held s ≡ₚ cs;
  pi_tokens : tokens (pool s) + zsum (out_token <$> clients s) = maxConn (pool s);
  pi_stack : len (conns (pool s)) = tokens (pool s) + zsum (in_stack <$> clients s);
  pi_nonneg : 0 ≤ tokens (pool s);
  pi_alive : Panicked ∉ clients s;
}.

(** [newPool] does not block, and its connections are all in the pool. *)
Lemma fill_spec newConn idx p :
  tokens p + len idx ≤ maxConn p →
  fill newConn idx p = Some (mkPool (tokens p + len idx) (conns p ++ (newConn <$> idx)) (maxConn p)).
Proof.
  revert p. induction idx as [|i idx IH]; intros p Hp; cbn [fill].
  { csimpl. rewrite len_nil, Z.add_0_r, (right_id_L [] (++)). by destruct p. }
  rewrite len_cons in *. pose proof (len_nonneg idx). unfold send at 1. cbn [tokens conns maxConn].
  destruct (Z.ltb_spec (tokens p) (maxConn p)) as [_|?]; [|lia]. cbn [mbind option_bind].
  rewrite IH by (cbn; lia). cbn. do 2 f_equal; [lia|]. by rewrite <-(assoc_L (++)).
Qed.

Lemma newPool_spec newConn n :
  newPool newConn n = Some (mkPool (Z.of_nat n) (newConn <$> seq 0 n) (Z.of_nat n)).
Proof.
  unfold newPool. assert (len (seq 0 n) = Z.of_nat n) as E by (unfold len; by rewrite length_seq).
  rewrite fill_spec; rewrite E; cbn; [done|lia].
Qed.

Lemma split_client (l : list client) k w :
  l !! k = Some w → ∃ l1 l2, l = l1 ++ w :: l2 ∧ ∀ w', <[k := w']> l = l1 ++ w' :: l2.
Proof.
  intros Hk. exists (take k l), (drop (S k) l). split; [by rewrite take_drop_middle|].
  intros w'. apply insert_take_drop. by eapply lookup_lt_Some.
Qed.

Lemma out_nonneg l : 0 ≤ zsum (out_token <$> l).
Proof. apply zsum_nonneg, Forall_fmap, Forall_forall. intros [] _; cbn; lia. Qed.
Lemma in_nonneg l : 0 ≤ zsum (in_stack <$> l).
Proof. apply zsum_nonneg, Forall_fmap, Forall_forall. intros [] _; cbn; lia. Qed.

(** [pop] takes the last connection of a stack that is not empty. *)
Lemma pop_spec p :
  0 < len (conns p) →
  ∃ l c, conns p = l ++ [c] ∧ pop p = (Ok c, mkPool (tokens p) l (maxConn p)).
Proof.
  destruct p as [t cs m]. cbn [conns tokens maxConn].
  destruct cs as [|c l _] using rev_ind; [done|]. intros _.
  exists l, c. split; [done|]. unfold pop. rewrite (bind_ok get_st _ _ _ _ eq_refl). cbn [conns tokens maxConn].
  rewrite len_app. unfold index. replace (len l + len [c] - 1) with (len l) by (unfold len; simpl; lia).
  destruct (Z.ltb_spec (len l) 0) as [?|_]; [pose proof (len_nonneg l); lia|].
  unfold len. rewrite Nat2Z.id, lookup_app_r, Nat.sub_diag by lia. cbn [lookup list_lookup].
  rewrite take_app_length. done.
Qed.

(** What a client's move changes in the sums. *)
Lemma sums_split (f : client → Z) l1 w l2 :
  zsum (f <$> (l1 ++ w :: l2)) = zsum (f <$> l1) + f w + zsum (f <$> l2).
Proof. rewrite fmap_app, zsum_app. csimpl. lia. Qed.

Lemma held_split l1 w l2 p :
  held (mkState (l1 ++ w :: l2) p) = omap held_by l1 ++ option_list (held_by w) ++ omap held_by l2.
Proof. unfold held. cbn [clients]. rewrite omap_app. csimpl. by destruct (held_by w). Qed.

Lemma not_panicked l1 w w' l2 :
  Panicked ∉ l1 ++ w :: l2 → w' ≠ Panicked → Panicked ∉ l1 ++ w' :: l2.
Proof.
  rewrite !elem_of_app, !elem_of_cons. intros H Hw [?|[?|?]]; [tauto|congruence|tauto].
Qed.

Lemma get_pops cs s k : pool_inv cs s → clients s !! k = Some Getting → 0 < len (conns (pool s)).
Proof.
  intros [_ _ _ I4 I5 _] Hk. destruct (split_client _ _ _ Hk) as (l1 & l2 & El & _).
  rewrite El, sums_split in I4. pose proof (in_nonneg l1). pose proof (in_nonneg l2). cbn in I4. lia.
Qed.

Lemma put_sends cs s k :
  pool_inv cs s → clients s !! k = Some Putting → tokens (pool s) < maxConn (pool s).
Proof.
  intros [_ _ I3 _ I5 _] Hk. destruct (split_client _ _ _ Hk) as (l1 & l2 & El & _).
  rewrite El, sums_split in I3. pose proof (out_nonneg l1). pose proof (out_nonneg l2). cbn in I3. lia.
Qed.

Ltac pool_sums := rewrite ?sums_split in *; cbn [out_token in_stack] in *; lia.

Lemma pool_step_inv cs s s' : pool_step s s' → pool_inv cs s → pool_inv cs s'.
Proof.
  intros Hs Hi. pose proof Hi as [I1 I2 I3 I4 I5 I6].
  destruct Hs as [s k p' Hk E|s k c p' Hk E|s k w p' Hk E|s k c p' Hk E|s k p' Hk E];
    destruct (split_client _ _ _ Hk) as (l1 & l2 & El & Ei); destruct s as [l p];
    cbn [clients pool] in *; subst l; rewrite Ei; rewrite held_split in I2.
  - revert E. unfold receive. destruct (Z.ltb_spec 0 (tokens p)); intros [= <-].
    constructor; cbn [clients pool tokens conns maxConn]; rewrite ?held_split; try done; try pool_sums.
    by eapply not_panicked.
  - destruct (pop_spec p (get_pops _ _ _ Hi Hk)) as (l & c' & Ec & E'). rewrite E in E'.
    injection E' as <- ->. rewrite Ec in *. rewrite len_app in I4. unfold len in I4 at 2. simpl in I4.
    constructor; cbn [clients pool tokens conns maxConn]; rewrite ?held_split; try done; try pool_sums.
    + rewrite <-I2. cbn. rewrite <-!(assoc_L (++)). apply Permutation_app_head. cbn.
      symmetry. apply Permutation_middle.
    + by eapply not_panicked.
  - destruct (pop_spec p (get_pops _ _ _ Hi Hk)) as (l & c' & Ec & E'). by rewrite E in E'.
  - injection E as <-.
    constructor; cbn [clients pool tokens conns maxConn]; rewrite ?held_split; try done; try pool_sums.
    + rewrite <-I2. cbn. rewrite <-!(assoc_L (++)). apply Permutation_app_head. cbn.
      apply Permutation_middle.
    + rewrite len_app. unfold len at 2. cbn [length]. pool_sums.
    + by eapply not_panicked.
  - revert E. unfold send. destruct (Z.ltb_spec (tokens p) (maxConn p)); intros [= <-].
    constructor; cbn [clients pool tokens conns maxConn]; rewrite ?held_split; try done; try pool_sums.
    by eapply not_panicked.
Qed.

Definition start (newConn : nat → conn) (maxConn nclients : nat) (s : state) : Prop :=
  clients s = replicate nclients Outside ∧ newPool newConn maxConn = Some (pool s).

Lemma pool_inv_start newConn n m s :
  start newConn n m s → pool_inv (newConn <$> seq 0 n) s.
Proof.
  intros [Hc Hp]. rewrite newPool_spec in Hp. injection Hp as Hp.
  assert (len (newConn <$> seq 0 n) = Z.of_nat n) as El
    by (unfold len; by rewrite length_fmap, length_seq).
  assert (∀ f : client → Z, f Outside = 0 → zsum (f <$> replicate m Outside) = 0) as Hz.
  { intros f Hf. clear -Hf. induction m as [|m IH]; csimpl; [done|]. by rewrite Hf, IH. }
  constructor; rewrite <-?Hp, ?Hc; cbn [tokens conns maxConn]; rewrite ?El, ?Hz; try done; try lia.
  - unfold held. rewrite Hc. assert (omap held_by (replicate m Outside) = []) as -> by (clear; by induction m).
    by rewrite (right_id_L [] (++)).
  - intros Hin%elem_of_replicate. by destruct Hin.
Qed.

Lemma reachable_pool newConn n m s0 s :
  start newConn n m s0 → rtc pool_step s0 s → pool_inv (newConn <$> seq 0 n) s.
Proof.
  intros Hs Hr. assert (pool_inv (newConn <$> seq 0 n) s0) as Hi by by eapply pool_inv_start.
  clear Hs. induction Hr as [|s1 s2 s3 Hs _ IH]; [done|]. by eapply IH, pool_step_inv.
Qed.

(** C26: Under any interleaving of clients that put back what they got, each connection is in the
    pool or with exactly one client, none is lost, and no [Get] pops an empty stack. *)
Theorem pool_exclusive newConn n m s0 s :
  NoDup (newConn <$> seq 0 n) → start newConn n m s0 → rtc pool_step s0 s →
  NoDup (held s) ∧ conns (pool s) ++ held s ≡ₚ newConn <$> seq 0 n ∧ Panicked ∉ clients s.
Proof.
  intros Hnd Hs Hr. destruct (reachable_pool newConn n m s0 s Hs Hr) as [_ I2 _ _ _ I6].
  split; [|done]. rewrite <-I2 in Hnd. by apply NoDup_app in Hnd as (_ & _ & ?).
Qed.

(** A client inside [Get] or [Put] can move. *)
Lemma client_moves cs s k c :
  pool_inv cs s → clients s !! k = Some c → c ≠ Outside →
  ∃ s', pool_step s s' ∧ clients s' !! k ≠ Some c.
Proof.
  intros Hi Hk Hc. pose proof (lookup_lt_Some _ _ _ Hk) as Hlt. destruct c as [| |c| |]; [done|..].
  - destruct (pop_spec _ (get_pops _ _ _ Hi Hk)) as (l & c & _ & E).
    eexists. split; [by eapply get_pop|]. cbn. by rewrite list_lookup_insert_eq.
  - eexists. split; [by eapply put_push|]. cbn. by rewrite list_lookup_insert_eq.
  - pose proof (put_sends _ _ _ Hi Hk) as Hlt'. eexists. split.
    + eapply put_send; [done|]. unfold send.
      by destruct (Z.ltb_spec (tokens (pool s)) (maxConn (pool s))); [|lia].
    + cbn. by rewrite list_lookup_insert_eq.
  - destruct (pi_alive _ _ Hi). by eapply list_elem_of_lookup_2.
Qed.

Lemma all_outside l : Forall (λ c, c = Outside) l → zsum (out_token <$> l) = 0.
Proof. induction 1 as [|c l -> _ IH]; csimpl; [done|lia]. Qed.

(** C33: The pool does not deadlock: a client that is inside [Get] or [Put] can always move on, a
    [Get] waits only while every connection is with (or on the way to or from) some
    client, and as long as there are connections and clients some step is possible. *)
Theorem pool_progress newConn n m s0 s :
  (0 < n)%nat → start newConn n m s0 → rtc pool_step s0 s →
  (∀ k c, clients s !! k = Some c → c ≠ Outside → ∃ s', pool_step s s' ∧ clients s' !! k ≠ Some c) ∧
  (receive (pool s) = None → zsum (out_token <$> clients s) = Z.of_nat n) ∧
  (clients s ≠ [] → ∃ s', pool_step s s').
Proof.
  intros Hn Hs Hr. pose proof (reachable_pool newConn n m s0 s Hs Hr) as Hi.
  pose proof (pi_tokens _ _ Hi) as Ht. pose proof (pi_nonneg _ _ Hi).
  assert (maxConn (pool s) = Z.of_nat n) as Hmax.
  { rewrite (pi_max _ _ Hi). unfold len. by rewrite length_fmap, length_seq. }
  split; [by intros k c; apply (client_moves _ _ k c Hi)|]. unfold receive.
  split; [destruct (Z.ltb_spec 0 (tokens (pool s))) as [?|Hle]; [done|]; lia|].
  intros Hne. destruct (decide (Forall (λ c, c = Outside) (clients s))) as [Ha|Ha].
  - rewrite (all_outside _ Ha) in Ht. destruct (clients s) as [|c cs] eqn:Ec; [done|].
    apply Forall_cons in Ha as [-> _]. eexists. eapply (get_receive s 0); [by rewrite Ec|].
    unfold receive. by destruct (Z.ltb_spec 0 (tokens (pool s))); [|lia].
  - apply not_Forall_Exists in Ha; [|solve_decision].
    apply Exists_exists in Ha as (c & Hin & Hc). apply list_elem_of_lookup in Hin as [k Hk].
    destruct (client_moves _ _ k c Hi Hk Hc) as (s' & ? & _). by exists s'.
Qed.

(** Two clients and one connection: the first has it, the second waits. *)
Definition demo_start : state := mkState [Outside; Outside] (mkPool 1 [0%nat] 1).
Definition demo_waiting : state := mkState [Holding 0%nat; Outside] (mkPool 0 [] 1).

Lemma demo_waiting_reached : rtc pool_step demo_start demo_waiting.
Proof.
  eapply (rtc_l _ _ (mkState [Getting; Outside] (mkPool 0 [0%nat] 1))).
  { by apply (get_receive demo_start 0). }
  eapply (rtc_l _ _ demo_waiting); [|apply rtc_refl].
  by apply (get_pop (mkState [Getting; Outside] (mkPool 0 [0%nat] 1)) 0).
Qed.

Lemma pool_exclusive_witness :
  NoDup (held demo_waiting) ∧ conns (pool demo_waiting) ++ held demo_waiting ≡ₚ [0%nat] ∧
  Panicked ∉ clients demo_waiting.
Proof.
  apply (pool_exclusive (λ i, i) 1 2 demo_start demo_waiting);
    [apply NoDup_singleton|done|exact demo_waiting_reached].
Defined.

Lemma pool_progress_witness :
  receive (pool demo_waiting) = None ∧ ∃ s', pool_step demo_waiting s'.
Proof.
  split; [reflexivity|].
  apply (pool_progress (λ i, i) 1 2 demo_start demo_waiting); [lia|done|exact demo_waiting_reached|done].
Defined.

End ConnPool.
