(* ===== verification/RangeDb.v ===== *)
(** The database behind [id-generators/amazon-way/]: what the service relies on of a SQL
    server with row locks, as laws over an abstract state, stated for the texts of the
    statements; and programs that call it, run by many goroutines at once. *)

From stdpp Require Import gmap strings list fin_maps sets.
From Stdlib Require Import ZArith Lia.
From S2P Require Import Prelude.

Module RangeDb.

(** * The abstract state *)

(** The column [value], by the collated [service_name], which is a unique key. *)
Abbreviation table := (gmap string Z).

(** A transaction is open, rolled back by the server after a failed statement, left by a
    failed commit, or over. *)
Inductive status := Open | Aborted | InDoubt | Done.
#[export] Instance status_eq_dec : EqDecision status.
Proof. solve_decision. Defined.
Record txn := mkTxn { st : status; locks : gset string; writes : table }.
Definition gone (s : status) : txn := mkTxn s ∅ ∅.

(** A commit that was carried out: whose, what it wrote, and over what. *)
Record entry := mkEntry { e_txn : nat; e_writes : table; e_before : table }.

(** [log]: the commits, the latest first. *)
Record idsdb := mkDb { committed : table; log : list entry; txns : gmap nat txn }.

Definition put_txn (t : nat) (x : txn) (d : idsdb) : idsdb := mkDb (committed d) (log d) (<[t := x]> (txns d)).

(** Some rows are locked by no transaction but [t]. *)
Definition lockable (t : nat) (L : gset string) (d : idsdb) : Prop :=
  ∀ t' x, t' ≠ t → txns d !! t' = Some x → L ## locks x.

(** The changes of a transaction [t] in state [x]. *)
Definition locked (t : nat) (x : txn) (L : gset string) (d : idsdb) : idsdb :=
  put_txn t (mkTxn (st x) (L ∪ locks x) (writes x)) d.
Definition written (t : nat) (x : txn) (L : gset string) (k : string) (v : Z) (d : idsdb) : idsdb :=
  put_txn t (mkTxn (st x) (L ∪ locks x) (<[k := v]> (writes x))) d.
Definition applied (t : nat) (x : txn) (d : idsdb) : idsdb :=
  mkDb (writes x ∪ committed d) (mkEntry t (writes x) (committed d) :: log d) (<[t := gone Done]> (txns d)).

(** What [t] reads of a row with a lock. *)
Definition current (x : txn) (d : idsdb) (k : string) : option Z := (writes x ∪ committed d) !! k.

(** * The calls, and what is documented of them *)

(** Arguments of statements. *)
Inductive value := VStr (s : string) | VInt (n : Z).

(** The calls of database/sql, as relations: a call may block or fail.  [query_row] is a
    QueryRow with the Scan of its one column; a transaction is used through its handle.
    [internal] is what the server does between calls. *)
Class Database (D : Type) := {
  begin_ : D → (nat + goerr) → D → Prop;
  query_row : nat → string → list value → D → (Z + goerr) → D → Prop;
  exec : nat → string → list value → D → (unit + goerr) → D → Prop;
  commit : nat → D → (unit + goerr) → D → Prop;
  rollback : nat → D → (unit + goerr) → D → Prop;
  internal : D → D → Prop;
}.

Definition is_err {A} (r : A + goerr) : Prop := match r with inl _ => False | inr _ => True end.

(** A statement that fails may have taken locks, or cost the transaction its life. *)
Definition failed (t : nat) (x : txn) (d d' : idsdb) : Prop :=
  ∃ L, lockable t L d ∧ (d' = locked t x L d ∨ d' = put_txn t (gone Aborted) d).

(** A call of an open transaction does this; a transaction that is over answers with an
    error.  Nothing is said of an aborted one. *)
Definition call_spec {A} (t : nat) (spec : txn → A + goerr → idsdb → Prop) (d : idsdb) (r : A + goerr) (d' : idsdb) : Prop :=
  match txns d !! t with
  | Some x =>
      match st x with
      | Open => spec x r d'
      | Aborted => True
      | InDoubt | Done => is_err r ∧ d' = d
      end
  | None => True
  end.

(** A plain SELECT sees some table that was committed, and locks nothing. *)
Definition plain_read (t : nat) (k : string) (d : idsdb) (x : txn) (r : Z + goerr) (d' : idsdb) : Prop :=
  match r with
  | inl v => d' = d ∧ ∃ m, m ∈ committed d :: (e_before <$> log d) ∧ m !! k = Some v
  | inr e => if errors_is ErrNoRows e then d' = d ∧ ∃ m, m ∈ committed d :: (e_before <$> log d) ∧ m !! k = None
             else failed t x d d'
  end.

(** FOR UPDATE: the latest value of the row, which is locked; no rows when there is none. *)
Definition locking_read (t : nat) (k : string) (d : idsdb) (x : txn) (r : Z + goerr) (d' : idsdb) : Prop :=
  match r with
  | inl v => ∃ L, lockable t L d ∧ k ∈ L ∧ d' = locked t x L d ∧ current x d k = Some v
  | inr e => if errors_is ErrNoRows e then ∃ L, lockable t L d ∧ d' = locked t x L d ∧ current x d k = None
             else failed t x d d'
  end.

(** An INSERT locks the row it makes; a row with the key is an error. *)
Definition insert_row (t : nat) (k : string) (v : Z) (d : idsdb) (x : txn) (r : unit + goerr) (d' : idsdb) : Prop :=
  match r with
  | inl _ => ∃ L, lockable t L d ∧ k ∈ L ∧ current x d k = None ∧ d' = written t x L k v d
  | inr _ => failed t x d d'
  end.

(** An UPDATE locks the row it changes, if there is one. *)
Definition update_row (t : nat) (k : string) (v : Z) (d : idsdb) (x : txn) (r : unit + goerr) (d' : idsdb) : Prop :=
  match r with
  | inl _ => ∃ L, lockable t L d ∧
      match current x d k with Some _ => k ∈ L ∧ d' = written t x L k v d | None => d' = locked t x L d end
  | inr _ => failed t x d d'
  end.

(** A commit that reports an error may have been carried out, or not, or its fate is open. *)
Definition committed_or_not (t : nat) (d : idsdb) (x : txn) (r : unit + goerr) (d' : idsdb) : Prop :=
  match r with
  | inl _ => d' = applied t x d
  | inr _ => d' = applied t x d ∨ d' = put_txn t (gone Done) d ∨ d' = put_txn t (mkTxn InDoubt (locks x) (writes x)) d
  end.

Definition begin_spec (d : idsdb) (r : nat + goerr) (d' : idsdb) : Prop :=
  match r with
  | inl t => txns d !! t = None ∧ d' = put_txn t (gone Open) d
  | inr _ => d' = d
  end.

(** The statements, by their texts. *)
Section statements.
Context (collate : string → string).

Definition query_spec (t : nat) (sql : string) (args : list value) (d : idsdb) (r : Z + goerr) (d' : idsdb) : Prop :=
  ∀ k, args = [VStr k] →
  (sql = "SELECT value FROM ids WHERE service_name = ?" → call_spec t (plain_read t (collate k) d) d r d') ∧
  (sql = "SELECT value FROM ids WHERE service_name = ? FOR UPDATE" → call_spec t (locking_read t (collate k) d) d r d').

Definition exec_spec (t : nat) (sql : string) (args : list value) (d : idsdb) (r : unit + goerr) (d' : idsdb) : Prop :=
  (∀ k v, sql = "INSERT INTO ids(service_name, value) VALUES(?, ?)" → args = [VStr k; VInt v] →
   call_spec t (insert_row t (collate k) v d) d r d') ∧
  (∀ k v, sql = "UPDATE ids SET value = ? WHERE service_name = ?" → args = [VInt v; VStr k] →
   call_spec t (update_row t (collate k) v d) d r d').
End statements.

Definition commit_spec (t : nat) (d : idsdb) (r : unit + goerr) (d' : idsdb) : Prop :=
  call_spec t (committed_or_not t d) d r d'.

(** A rollback ends an open or aborted transaction, whatever it reports. *)
Definition rollback_spec (t : nat) (d d' : idsdb) : Prop :=
  match st <$> txns d !! t with
  | Some Open | Some Aborted => d' = put_txn t (gone Done) d
  | _ => d' = d
  end.

(** Between calls the server settles a commit in doubt, or loses a connection. *)
Definition internal_spec (d d' : idsdb) : Prop :=
  d' = d ∨ ∃ t x, txns d !! t = Some x ∧
    (d' = put_txn t (gone Done) d ∨ st x = InDoubt ∧ d' = applied t x d).

Class DatabaseLaws (D : Type) `{Database D} := {
  collate : string → string;
  view : D → idsdb;
  begin_law d r d' : begin_ d r d' → begin_spec (view d) r (view d');
  query_law t sql args d r d' : query_row t sql args d r d' → query_spec collate t sql args (view d) r (view d');
  exec_law t sql args d r d' : exec t sql args d r d' → exec_spec collate t sql args (view d) r (view d');
  commit_law t d r d' : commit t d r d' → commit_spec t (view d) r (view d');
  rollback_law t d r d' : rollback t d r d' → rollback_spec t (view d) (view d');
  internal_law d d' : internal d d' → internal_spec (view d) (view d');
}.

(** * Programs that call the database *)

(** What a goroutine still has to do before it gives a result. *)
Inductive prog (A : Type) :=
| Ret (a : A)
| PBegin (k : nat + goerr → prog A)
| PQueryRow (t : nat) (sql : string) (args : list value) (k : Z + goerr → prog A)
| PExec (t : nat) (sql : string) (args : list value) (k : unit + goerr → prog A)
| PCommit (t : nat) (k : unit + goerr → prog A)
| PRollback (t : nat) (k : unit + goerr → prog A).
#[global] Arguments Ret {A} a.
#[global] Arguments PBegin {A} k.
#[global] Arguments PQueryRow {A} t sql args k.
#[global] Arguments PExec {A} t sql args k.
#[global] Arguments PCommit {A} t k.
#[global] Arguments PRollback {A} t k.

(** What follows a program. *)
Fixpoint pbind {A B} (p : prog A) (f : A → prog B) : prog B :=
  match p with
  | Ret a => f a
  | PBegin k => PBegin (λ r, pbind (k r) f)
  | PQueryRow t sql args k => PQueryRow t sql args (λ r, pbind (k r) f)
  | PExec t sql args k => PExec t sql args (λ r, pbind (k r) f)
  | PCommit t k => PCommit t (λ r, pbind (k r) f)
  | PRollback t k => PRollback t (λ r, pbind (k r) f)
  end.

Section run.
Context `{Database D} {X A : Type}.

Inductive prog_step : D → prog A → D → prog A → Prop :=
| step_begin d r d' k : begin_ d r d' → prog_step d (PBegin k) d' (k r)
| step_query d r d' t sql args k : query_row t sql args d r d' → prog_step d (PQueryRow t sql args k) d' (k r)
| step_exec d r d' t sql args k : exec t sql args d r d' → prog_step d (PExec t sql args k) d' (k r)
| step_commit d r d' t k : commit t d r d' → prog_step d (PCommit t k) d' (k r)
| step_rollback d r d' t k : rollback t d r d' → prog_step d (PRollback t k) d' (k r).

(** Goroutines, each for something, and the database. *)
Record sys := mkSys { db : D; threads : list (X * prog A) }.

(** A goroutine starts, makes a call of the database, or the server does something of its
    own. *)
Context (body : X → prog A).
Inductive sys_step : sys → sys → Prop :=
| sys_go d ths x : sys_step (mkSys d ths) (mkSys d (ths ++ [(x, body x)]))
| sys_internal d ths d' : internal d d' → sys_step (mkSys d ths) (mkSys d' ths)
| sys_call d ths i x p d' p' :
    ths !! i = Some (x, p) → prog_step d p d' p' → sys_step (mkSys d ths) (mkSys d' (<[i := (x, p')]> ths)).
End run.
Arguments sys : clear implicits.

End RangeDb.
