(* ===== verification/RangeLogic.v ===== *)
(** A logic for the goroutines that share the database of [RangeDb]: what a transaction may
    count on while others run, what each of its calls must leave intact, and a weakest
    precondition that is sound under every interleaving. *)

From stdpp Require Import gmap strings list fin_maps sets.
From Stdlib Require Import ZArith Lia.
From S2P Require Import Prelude RangeDb.
Import RangeDb.

(** How far a commit raises a counter. *)
Definition batch : Z := 100.

(** * Counters *)

(** The last identifier of a service; none is zero. *)
Definition last_in (k : string) (m : table) : Z := default 0 (m !! k).

(** The commits lead from one table to another, each raising what it writes by a batch. *)
Fixpoint chain (m0 : table) (l : list entry) (m : table) : Prop :=
  match l with
  | [] => m = m0
  | e :: l =>
      m = e_writes e ∪ e_before e ∧
      (∀ k v, e_writes e !! k = Some v → v = i64 (last_in k (e_before e) + batch)) ∧
      chain m0 l (e_before e)
  end.

Lemma chain_app m0 l1 l2 m : chain m0 (l1 ++ l2) m ↔ ∃ m', chain m0 l2 m' ∧ chain m' l1 m.
Proof.
  revert m. induction l1 as [|e l1 IH]; intros m; cbn [app chain].
  - split; [by exists m|]. by intros (m' & ? & ->).
  - rewrite IH. split; [intros (-> & Hw & m' & ? & ?)|intros (m' & ? & -> & ? & ?)]; eauto 10.
Qed.

(** Without an overflow, a commit leaves a counter or raises it. *)
Lemma last_union k w m : 0 ≤ last_in k m → last_in k m + batch < 2 ^ 63 →
  (∀ v, w !! k = Some v → v = i64 (last_in k m + batch)) →
  last_in k (w ∪ m) = last_in k m ∧ w !! k = None ∨
  last_in k (w ∪ m) = last_in k m + batch ∧ w !! k = Some (last_in k m + batch).
Proof.
  intros Hlo Hhi Hw. destruct (w !! k) as [v|] eqn:E.
  - right. rewrite (Hw v eq_refl) in *. rewrite i64_small in * by (unfold batch in *; lia).
    split; [|done]. unfold last_in at 1. by rewrite (lookup_union_Some_l _ _ _ _ E).
  - left. split; [|done]. unfold last_in. by rewrite lookup_union_r.
Qed.

Lemma chain_last m0 l m k :
  0 ≤ last_in k m0 → last_in k m0 + batch * len l < 2 ^ 63 → chain m0 l m →
  last_in k m0 ≤ last_in k m ≤ last_in k m0 + batch * len l.
Proof.
  revert m. induction l as [|e l IH]; intros m Hlo Hhi; cbn [chain]; [intros ->; change (len (@nil entry)) with 0; lia|].
  rewrite len_cons in Hhi |- *. pose proof (len_nonneg l). intros (-> & Hw & Hc).
  apply IH in Hc; [|done|unfold batch in *; lia].
  destruct (last_union k (e_writes e) (e_before e)) as [[-> _]|[-> _]]; unfold batch in *; try lia. by apply Hw.
Qed.

(** One commit among others: what it wrote lies above what was there before, and below what
    is there after. *)
Lemma chain_entry m0 l1 e l2 m k v :
  0 ≤ last_in k m0 → last_in k m0 + batch * len (l1 ++ e :: l2) < 2 ^ 63 →
  chain m0 (l1 ++ e :: l2) m → e_writes e !! k = Some v →
  last_in k m0 ≤ last_in k (e_before e) ∧ v = last_in k (e_before e) + batch ∧ v ≤ last_in k m ∧ v < 2 ^ 63 ∧
  (∀ e' v', e' ∈ l2 → e_writes e' !! k = Some v' → v' ≤ last_in k (e_before e)).
Proof.
  intros Hlo Hhi (m' & (-> & Hw & Hc2) & Hc1)%chain_app Hv.
  rewrite len_app, len_cons in Hhi. pose proof (len_nonneg l1). pose proof (len_nonneg l2). unfold batch in *.
  pose proof (chain_last m0 l2 _ k Hlo ltac:(unfold batch; lia) Hc2) as Hb. unfold batch in Hb.
  destruct (last_union k (e_writes e) (e_before e)) as [[_ Hn]|[El Hn]]; [lia|unfold batch; lia|by apply Hw|congruence|].
  unfold batch in *. rewrite Hn in Hv. injection Hv as <-.
  pose proof (chain_last _ l1 m k ltac:(rewrite El; lia) ltac:(rewrite El; unfold batch; lia) Hc1) as Ha.
  rewrite El in Ha. split_and!; [lia|done|lia|lia|].
  intros e' v' (l3 & l4 & ->)%list_elem_of_split Hv'. apply chain_app in Hc2 as (m' & (-> & Hw' & Hc4) & Hc3).
  rewrite len_app, len_cons in Hb, Hhi. pose proof (len_nonneg l3). pose proof (len_nonneg l4).
  pose proof (chain_last m0 l4 _ k Hlo ltac:(unfold batch; lia) Hc4) as Hb4. unfold batch in Hb4.
  destruct (last_union k (e_writes e') (e_before e')) as [[_ Hn']|[El' Hn']]; [lia|unfold batch; lia|by apply Hw'|congruence|].
  unfold batch in *. rewrite Hn' in Hv'. injection Hv' as <-.
  pose proof (chain_last _ l3 _ k ltac:(rewrite El'; lia) ltac:(rewrite El'; unfold batch; lia) Hc3) as H3. lia.
Qed.

(** * Valid databases *)

Section validity.
Context (m0 : table) (collate : string → string).

(** A transaction writes what it has locked, one batch above what is committed; one that was
    carried out is over. *)
Record valid (d : idsdb) : Prop := {
  v_locks t t' x x' : txns d !! t = Some x → txns d !! t' = Some x' → t ≠ t' → locks x ## locks x';
  v_writes t x k v : txns d !! t = Some x → writes x !! k = Some v →
    k ∈ locks x ∧ v = i64 (last_in k (committed d) + batch);
  v_chain : chain m0 (log d) (committed d);
  v_once : NoDup (e_txn <$> log d);
  v_logged t : t ∈ e_txn <$> log d → txns d !! t = Some (gone Done);
}.

(** * Rely and guarantee *)

(** What others, and the server, do to the transaction [T] of a goroutine. *)
Record rely (T : option nat) (d d' : idsdb) : Prop := {
  r_txns t x : txns d !! t = Some x →
    ∃ x', txns d' !! t = Some x' ∧ (T = Some t → x' = x ∨ x' = gone Done);
  r_locked t x k : T = Some t → txns d !! t = Some x → txns d' !! t = Some x → st x = Open →
    k ∈ locks x → committed d' !! k = committed d !! k;
  r_log : ∃ more, log d' = more ++ log d;
}.

#[export] Instance rely_preorder T : PreOrder (rely T).
Proof.
  split; [intros d; split; [eauto|done|by exists []]|]. intros d1 d2 d3 [A1 A2 A3] [B1 B2 B3]. split.
  - intros t x (x2 & E2 & H2)%A1. destruct (B1 _ _ E2) as (x3 & E3 & H3). exists x3.
    split; [done|]. intros HT. specialize (H2 HT). specialize (H3 HT).
    destruct H2 as [->| ->], H3 as [->| ->]; auto.
  - intros t x k HT E1 E3 Ho Hk. destruct (A1 _ _ E1) as (x2 & E2 & H2).
    specialize (H2 HT). destruct H2 as [->| ->]; [by rewrite (B2 t x k), (A2 t x k)|].
    destruct (B1 _ _ E2) as (x3 & E3' & H3). specialize (H3 HT). simplify_eq.
    by destruct H3 as [->| ->].
  - destruct A3 as [l1 E1], B3 as [l2 E2]. exists (l2 ++ l1). by rewrite E2, E1, app_assoc.
Qed.

(** What a call of the transaction [T] leaves intact for everyone else. *)
Definition guar (T : option nat) (d d' : idsdb) : Prop :=
  valid d' ∧ (∀ T', T' = None ∨ T' ≠ T → rely T' d d') ∧
  ∀ t, is_Some (txns d' !! t) → is_Some (txns d !! t) ∨ T = Some t.

Lemma range_rely_refl T d : rely T d d.
Proof. reflexivity. Qed.
Lemma range_guar_refl T d : valid d → guar T d d.
Proof. intros Hv. split; [done|]. split; [intros; apply range_rely_refl|by left]. Qed.

Lemma dom_insert_txn t t1 (x : txn) (m : gmap nat txn) :
  is_Some (<[t := x]> m !! t1) → is_Some (m !! t1) ∨ Some t = Some t1.
Proof. intros [y [[-> _]|[_ Hy]]%lookup_insert_Some]; [by right|left; by eexists]. Qed.

(** A transaction that is over leaves no trace but its entry. *)
Lemma logged_over t x d : valid d → txns d !! t = Some x → st x ≠ Done → t ∉ e_txn <$> log d.
Proof. intros Hv Ht Hs Hin%(v_logged _ Hv). rewrite Ht in Hin. by injection Hin as ->. Qed.

(** A transaction put in place of another one, or a new one. *)
Lemma range_put_txn_rely t x' d T : T ≠ Some t → rely T d (put_txn t x' d).
Proof.
  intros HT. split; [|done|by exists []]. intros t1 x1 H1. cbn. destruct (decide (t1 = t)) as [->|Hne].
  - exists x'. split; [apply lookup_insert_eq|done].
  - exists x1. rewrite lookup_insert_ne by done. auto.
Qed.

Lemma range_put_txn_guar t x' d :
  valid d → (t ∈ e_txn <$> log d → x' = gone Done) →
  (∀ t' x, t' ≠ t → txns d !! t' = Some x → locks x' ## locks x) →
  (∀ k v, writes x' !! k = Some v → k ∈ locks x' ∧ v = i64 (last_in k (committed d) + batch)) →
  guar (Some t) d (put_txn t x' d).
Proof.
  intros [V1 V2 V3 V4 V5] Hlog Hl Hw.
  split; [|split; [intros T' HT; apply range_put_txn_rely; by destruct HT as [->|]|intros t1; apply dom_insert_txn]].
  split; try done; cbn [txns put_txn committed log].
  - intros t1 t2 x1 x2 H1 H2 Hne. apply lookup_insert_Some in H1, H2.
    destruct H1 as [[<- <-]|[? H1]], H2 as [[<- <-]|[? H2]]; [done|by eapply Hl| |by eapply V1].
    symmetry. by eapply Hl.
  - intros t1 x1 k v [[<- <-]|[? H1]]%lookup_insert_Some Hs; [by apply Hw|by eapply V2].
  - intros t1 Hin. destruct (decide (t1 = t)) as [->|?]; [by rewrite lookup_insert_eq, Hlog|rewrite lookup_insert_ne by done; by apply V5].
Qed.

Lemma range_gone_guar t s d : valid d → (t ∈ e_txn <$> log d → s = Done) → guar (Some t) d (put_txn t (gone s) d).
Proof.
  intros Hv Hs. apply range_put_txn_guar; [done|by intros ->%Hs|..]; cbn.
  - intros. apply disjoint_empty_l.
  - intros k v Hk. by rewrite lookup_empty in Hk.
Qed.

(** Locks, and a write under them. *)
Lemma range_more_locks t x L d t' x' :
  valid d → txns d !! t = Some x → lockable t L d → t' ≠ t → txns d !! t' = Some x' → L ∪ locks x ## locks x'.
Proof.
  intros Hv Ht HL Hne Ht'. apply disjoint_union_l. split; [by eapply HL|]. by eapply (v_locks _ Hv t t').
Qed.

Lemma range_locked_guar t x L d :
  valid d → txns d !! t = Some x → st x = Open → lockable t L d → guar (Some t) d (locked t x L d).
Proof.
  intros Hv Ht Ho HL. apply range_put_txn_guar; [done|..]; cbn.
  - intros Hin. by eapply (logged_over t x d) in Hin; [..|congruence].
  - intros. by eapply range_more_locks.
  - intros k v Hk. destruct (v_writes _ Hv _ _ _ _ Ht Hk). split; [|done]. apply elem_of_union. by right.
Qed.

Lemma range_failed_guar t x d d' :
  valid d → txns d !! t = Some x → st x = Open → failed t x d d' → guar (Some t) d d'.
Proof.
  intros Hv Ht Ho (L & HL & [->| ->]); [by apply range_locked_guar|apply range_gone_guar; [done|]].
  intros Hin. by eapply (logged_over t x d) in Hin; [..|congruence].
Qed.

Lemma range_written_guar t x L k v d :
  valid d → txns d !! t = Some x → st x = Open → lockable t L d → k ∈ L →
  v = i64 (last_in k (committed d) + batch) → guar (Some t) d (written t x L k v d).
Proof.
  intros Hv Ht Ho HL Hk Ev. apply range_put_txn_guar; [done|..]; cbn.
  - intros Hin. by eapply (logged_over t x d) in Hin; [..|congruence].
  - intros. by eapply range_more_locks.
  - intros k' v' [[<- <-]|[? Hs]]%lookup_insert_Some; [split; [apply elem_of_union; by left|done]|].
    destruct (v_writes _ Hv _ _ _ _ Ht Hs). split; [|done]. apply elem_of_union. by right.
Qed.

(** The rows of others are not touched by a commit. *)
Lemma applied_others t x t1 x1 k d :
  valid d → txns d !! t = Some x → txns d !! t1 = Some x1 → t ≠ t1 → k ∈ locks x1 →
  (writes x ∪ committed d) !! k = committed d !! k.
Proof.
  intros Hv Ht Ht1 Hne Hk. rewrite lookup_union_r; [done|]. destruct (writes x !! k) as [v|] eqn:E; [|done].
  destruct (v_writes _ Hv _ _ _ _ Ht E) as [Hk' _]. by destruct (v_locks _ Hv _ _ _ _ Ht Ht1 Hne k).
Qed.

Lemma applied_valid t x d : valid d → txns d !! t = Some x → st x ≠ Done → valid (applied t x d).
Proof.
  intros Hv Ht Hs. pose proof Hv as [V1 V2 V3 V4 V5]. split; cbn.
  - intros t1 t2 x1 x2 H1 H2 Hne. apply lookup_insert_Some in H1, H2.
    destruct H1 as [[<- <-]|[? H1]], H2 as [[<- <-]|[? H2]];
      [done|apply disjoint_empty_l|apply disjoint_empty_r|by eapply V1].
  - intros t1 x1 k v [[<- <-]|[Hne H1]]%lookup_insert_Some Hk; [cbn in Hk; by rewrite lookup_empty in Hk|].
    destruct (V2 _ _ _ _ H1 Hk) as (Hk' & ->). split; [done|]. unfold last_in.
    by rewrite (applied_others t x t1 x1 k d).
  - split; [done|]. split; [|done]. intros k v Hk. by destruct (V2 _ _ _ _ Ht Hk).
  - apply NoDup_cons. split; [by eapply logged_over|done].
  - intros t1 [->|Hin]%elem_of_cons; [apply lookup_insert_eq|].
    destruct (decide (t1 = t)) as [->|?]; [apply lookup_insert_eq|rewrite lookup_insert_ne by done; by apply V5].
Qed.

Lemma range_applied_rely t x T d : valid d → txns d !! t = Some x → rely T d (applied t x d).
Proof.
  intros Hv Ht. split; cbn.
  - intros t1 x1 H1. destruct (decide (t1 = t)) as [->|Hne].
    + exists (gone Done). rewrite lookup_insert_eq. auto.
    + exists x1. rewrite lookup_insert_ne by done. auto.
  - intros t1 x1 k HT H1 H2 Ho Hk. destruct (decide (t1 = t)) as [->|Hne].
    + rewrite lookup_insert_eq in H2. injection H2 as <-. by apply elem_of_empty in Hk.
    + by apply (applied_others t x t1 x1 k d).
  - by exists [mkEntry t (writes x) (committed d)].
Qed.

Lemma range_applied_guar t x d : valid d → txns d !! t = Some x → st x ≠ Done → guar (Some t) d (applied t x d).
Proof. intros. split; [by apply applied_valid|]. split; [intros; by apply range_applied_rely|intros t1; apply dom_insert_txn]. Qed.

(** ** The calls *)

Lemma range_begin_guar d t : valid d → txns d !! t = None → guar (Some t) d (put_txn t (gone Open) d).
Proof. intros Hv Ht. apply range_gone_guar; [done|]. intros Hin%(v_logged _ Hv). congruence. Qed.

Lemma range_rollback_guar t d d' : valid d → rollback_spec t d d' → guar (Some t) d d'.
Proof.
  intros Hv. unfold rollback_spec.
  destruct (st <$> txns d !! t) as [[]|]; intros ->; try (by apply range_guar_refl); by apply range_gone_guar.
Qed.

Lemma commit_guar t x r d d' :
  valid d → txns d !! t = Some x → st x = Open → committed_or_not t d x r d' → guar (Some t) d d'.
Proof.
  intros Hv Ht Ho. assert (st x ≠ Done) as Hn by congruence. destruct r as [[]|e]; cbn.
  - intros ->. by apply range_applied_guar.
  - intros [->|[->| ->]]; [by apply range_applied_guar|by apply range_gone_guar|]. apply range_put_txn_guar; [done|..]; cbn.
    + intros Hin. by eapply (logged_over t x d) in Hin.
    + intros t' x' Hne Ht'. by eapply (v_locks _ Hv t t').
    + intros k v Hk. by eapply v_writes.
Qed.

Lemma call_spec_open {A} t (spec : txn → A + goerr → idsdb → Prop) d r d' x :
  txns d !! t = Some x → st x = Open → call_spec t spec d r d' → spec x r d'.
Proof. unfold call_spec. by intros -> ->. Qed.
Lemma call_spec_over {A} t (spec : txn → A + goerr → idsdb → Prop) d r d' :
  txns d !! t = Some (gone Done) → call_spec t spec d r d' → is_err r ∧ d' = d.
Proof. unfold call_spec. by intros ->. Qed.

(** What the server does by itself is in everyone's rely. *)
Lemma range_internal_ok d d' : valid d → internal_spec d d' →
  valid d' ∧ (∀ T, rely T d d') ∧ ∀ t, is_Some (txns d' !! t) → is_Some (txns d !! t).
Proof.
  intros Hv [->|(t & x & Ht & Hd)]; [split; [done|]; split; [intros; apply range_rely_refl|done]|].
  assert (∀ t1 x', is_Some (<[t := x']> (txns d) !! t1) → is_Some (txns d !! t1)) as Hdom.
  { intros t1 x' [?|[= <-]]%dom_insert_txn; [done|by exists x]. }
  destruct Hd as [->|[Hs ->]].
  - split; [by apply (range_gone_guar t)|]. split; [|intros t1; apply Hdom]. intros T. split; cbn; [|done|by exists []].
    intros t1 x1 H1. destruct (decide (t1 = t)) as [->|Hne].
    + exists (gone Done). rewrite lookup_insert_eq. auto.
    + exists x1. rewrite lookup_insert_ne by done. auto.
  - split; [apply applied_valid; [done..|congruence]|]. split; [|intros t1; apply Hdom]. intros T. by apply range_applied_rely.
Qed.

(** * Weakest preconditions *)

(** From [d], the database after the goroutine's last call, [p] keeps the guarantee at
    every call, whatever others do in between, and ends with a result as [Q] says.  [T] is
    the goroutine's transaction; it begins one at most. *)
Fixpoint wp {A} (Q : A → option nat → idsdb → Prop) (p : prog A) (T : option nat) (d : idsdb) : Prop :=
  ∀ d1, rely T d d1 → valid d1 →
  match p with
  | Ret a => Q a T d1
  | PBegin k => T = None ∧ ∀ r d2, begin_spec d1 r d2 →
      wp Q (k r) (match r with inl t => Some t | inr _ => T end) d2
  | PQueryRow t sql args k => T = Some t ∧ ∀ r d2, query_spec collate t sql args d1 r d2 →
      guar T d1 d2 ∧ wp Q (k r) T d2
  | PExec t sql args k => T = Some t ∧ ∀ r d2, exec_spec collate t sql args d1 r d2 →
      guar T d1 d2 ∧ wp Q (k r) T d2
  | PCommit t k => T = Some t ∧ ∀ r d2, commit_spec t d1 r d2 →
      guar T d1 d2 ∧ wp Q (k r) T d2
  | PRollback t k => T = Some t ∧ ∀ r d2, rollback_spec t d1 d2 → wp Q (k r) T d2
  end.

Lemma range_wp_rely {A} (Q : A → option nat → idsdb → Prop) p T d d1 : rely T d d1 → wp Q p T d → wp Q p T d1.
Proof. intros Hr Hw. destruct p; cbn [wp] in *; intros d2 Hr2; apply Hw; by transitivity d1. Qed.

Lemma wp_now {A} (Q : A → option nat → idsdb → Prop) p T d :
  (∀ d1, rely T d d1 → valid d1 → wp Q p T d1) → wp Q p T d.
Proof. intros Hw. destruct p; cbn [wp] in *; intros d1 Hr Hv; apply (Hw d1 Hr Hv d1 (range_rely_refl _ _) Hv). Qed.

Lemma wp_bind {A B} (Q : B → option nat → idsdb → Prop) (p : prog A) (f : A → prog B) T d :
  wp (λ a, wp Q (f a)) p T d → wp Q (pbind p f) T d.
Proof.
  revert T d. induction p as [a|k IH|t sql args k IH|t sql args k IH|t k IH|t k IH]; intros T d Hw; cbn [pbind].
  1: by apply wp_now.
  all: cbn [wp] in *; intros d1 Hr Hv; destruct (Hw d1 Hr Hv) as [HT Hk]; (split; [done|]); intros r d2 Hs;
    specialize (Hk r d2 Hs).
  2-4: destruct Hk as [? Hk]; (split; [done|]). all: by apply IH.
Qed.

(** The transaction stays the same once it has begun. *)
Lemma wp_mono {A} (Q Q' : A → option nat → idsdb → Prop) p T d :
  (∀ a T' d, T = T' ∨ T = None → Q a T' d → Q' a T' d) → wp Q p T d → wp Q' p T d.
Proof.
  revert T d. induction p as [a|k IH|t' sql args k IH|t' sql args k IH|t' k IH|t' k IH]; intros T d HQ Hw;
    cbn [wp] in *; intros d1 Hr Hv.
  1: apply HQ; [by left|by apply Hw].
  all: destruct (Hw d1 Hr Hv) as [HT Hk]; (split; [done|]); intros r d2 Hs; specialize (Hk r d2 Hs).
  2-4: destruct Hk as [? Hk]; (split; [done|]). all: apply IH; [|done]. 2-5: done.
  intros a T' d' _. apply HQ. by right.
Qed.
End validity.

(** * Soundness *)

Section adequacy.
Context `{DatabaseLaws D} {X A : Type} (m0 : table) (body : X → prog A).
Context (Q : X → A → option nat → idsdb → Prop).

(** [d0] and [n0]: the database at some earlier moment, and how many goroutines had started
    then; the transactions of later ones are new since. *)
Record sys_inv (d0 : idsdb) (n0 : nat) (d : idsdb) (ths : list (X * prog A)) (Ts : list (option nat)) : Prop := {
  si_valid : valid m0 d;
  si_len : length Ts = length ths;
  si_wp i x p T : ths !! i = Some (x, p) → Ts !! i = Some T → wp m0 collate (Q x) p T d;
  si_txns t : is_Some (txns d !! t) ↔ Some t ∈ Ts;
  si_apart i j t : Ts !! i = Some (Some t) → Ts !! j = Some (Some t) → i = j;
  si_new i t : (n0 ≤ i)%nat → Ts !! i = Some (Some t) → txns d0 !! t = None;
  si_since : (∃ more, log d = more ++ log d0) ∧ ∀ t, is_Some (txns d0 !! t) → is_Some (txns d !! t);
}.

(** The others' transactions are not [T]. *)
Lemma range_si_others d0 n0 d ths Ts i j T T' :
  sys_inv d0 n0 d ths Ts → Ts !! i = Some T → Ts !! j = Some T' → i ≠ j → T' = None ∨ T' ≠ T.
Proof.
  intros Hi HT HT' Hne. destruct T' as [t|]; [|by left]. right. intros <-.
  destruct Hne. by eapply si_apart.
Qed.

(** One goroutine moves to [p'] with the transaction [T'], the database to [d']. *)
Lemma range_sys_inv_move d0 n0 d ths Ts i x p p' T T' d' :
  sys_inv d0 n0 d ths Ts → ths !! i = Some (x, p) → Ts !! i = Some T → valid m0 d' →
  (T' = T ∨ ∃ t, T = None ∧ T' = Some t ∧ txns d !! t = None) →
  (∀ t, is_Some (txns d' !! t) ↔ is_Some (txns d !! t) ∨ T' = Some t) →
  (∃ more, log d' = more ++ log d) →
  (∀ T1, T1 = None ∨ T1 ≠ T' → rely T1 d d') → wp m0 collate (Q x) p' T' d' →
  sys_inv d0 n0 d' (<[i := (x, p')]> ths) (<[i := T']> Ts).
Proof.
  intros Hi Hth HT Hv HT' Ht [more Hlog] Hg Hw. pose proof (lookup_lt_Some _ _ _ HT) as Hlt.
  pose proof (si_len _ _ _ _ _ Hi) as Hlen.
  assert (∀ j t, j ≠ i → Ts !! j = Some (Some t) → Some t ≠ T') as Hne.
  { intros j t Hj Hjt E. destruct HT' as [->|(t' & -> & -> & Hn)].
    - destruct Hj. eapply si_apart; [exact Hi|exact Hjt|]. by rewrite HT, <-E.
    - injection E as ->. assert (is_Some (txns d !! t')) as [y Hy] by (apply (si_txns _ _ _ _ _ Hi); by eapply list_elem_of_lookup_2).
      congruence. }
  split; [done|by rewrite !length_insert|..].
  - intros j x1 p1 T1 H1 H2. apply list_lookup_insert_Some in H1, H2.
    destruct H1 as [(<- & [= <- <-] & _)|[Hj H1]], H2 as [(E & <- & _)|[? H2]]; try done.
    apply (range_wp_rely m0 _ _ _ _ d); [|by eapply si_wp]. apply Hg. destruct T1 as [t|]; [right; by eapply Hne|by left].
  - intros t. rewrite Ht, (si_txns _ _ _ _ _ Hi). split.
    + intros [[j Hj]%list_elem_of_lookup| ->]; [|by apply list_elem_of_lookup_2 with i, list_lookup_insert_eq].
      destruct (decide (j = i)) as [->|Hji]; [|apply list_elem_of_lookup_2 with j; by rewrite list_lookup_insert_ne].
      rewrite HT in Hj. injection Hj as ->. destruct HT' as [->|(? & ? & ?)]; [|done].
      by apply list_elem_of_lookup_2 with i, list_lookup_insert_eq.
    + intros [j [(<- & E & _)|[? Hj]]%list_lookup_insert_Some]%list_elem_of_lookup; [by right|].
      left. by eapply list_elem_of_lookup_2.
  - intros j1 j2 t H1 H2. apply list_lookup_insert_Some in H1, H2.
    destruct H1 as [(<- & E1 & _)|[Hn1 H1]], H2 as [(<- & E2 & _)|[Hn2 H2]]; [done|..|by eapply si_apart].
    + by destruct (Hne j2 t).
    + by destruct (Hne j1 t).
  - intros j t Hj [(<- & E & _)|[? H1]]%list_lookup_insert_Some; [|by eapply si_new].
    destruct HT' as [->|(t' & -> & -> & Hn)]; [subst T; by eapply si_new|]. injection E as ->.
    destruct (txns d0 !! t) eqn:E0; [|done]. destruct (si_since _ _ _ _ _ Hi) as [_ Hs].
    destruct (Hs t) as [y Hy]; [by eexists|congruence].
  - destruct (si_since _ _ _ _ _ Hi) as [[more' E'] Hs]. split; [exists (more ++ more'); by rewrite Hlog, E', app_assoc|].
    intros t Hd0. apply Ht. left. by apply Hs.
Qed.

Lemma range_prog_step_inv d0 n0 (a a' : D) ths Ts i x p p' :
  sys_inv d0 n0 (view a) ths Ts → ths !! i = Some (x, p) → prog_step a p a' p' →
  ∃ Ts', sys_inv d0 n0 (view a') (<[i := (x, p')]> ths) Ts'.
Proof.
  intros Hi Hth Hs. pose proof (si_valid _ _ _ _ _ Hi) as Hv.
  destruct (lookup_lt_is_Some_2 Ts i) as [T HT].
  { rewrite (si_len _ _ _ _ _ Hi). by eapply lookup_lt_Some. }
  pose proof (si_wp _ _ _ _ _ Hi _ _ _ _ Hth HT) as Hw.
  assert (∀ T' d', guar m0 (Some T') (view a) d' → T = Some T' → wp m0 collate (Q x) p' T d' →
    sys_inv d0 n0 d' (<[i := (x, p')]> ths) (<[i := T]> Ts)) as Hcall.
  { intros t d' (Hv' & Hg & Hdom) ET Hw'. assert (rely None (view a) d') as Hr by (apply Hg; by left).
    eapply range_sys_inv_move; [exact Hi|exact Hth|exact HT|done|by left| |apply (r_log _ _ _ Hr)|by subst T|done].
    intros t1. subst T. split; [intros [?|[= ->]]%Hdom; [by left|by right]|].
    assert (∀ t2, is_Some (txns (view a) !! t2) → is_Some (txns d' !! t2)) as Hkeep.
    { intros t2 [y Hy]. destruct (r_txns _ _ _ Hr t2 y Hy) as (y' & ? & _). by exists y'. }
    intros [?|[= <-]]; apply Hkeep; [done|]. apply (si_txns _ _ _ _ _ Hi). by eapply list_elem_of_lookup_2. }
  destruct Hs as [d r d' k Hb|d r d' t sql args k Hb|d r d' t sql args k Hb|d r d' t k Hb|d r d' t k Hb];
    cbn [wp] in Hw; destruct (Hw (view d) (range_rely_refl _ _) Hv) as [ET Hw'].
  - apply begin_law in Hb. specialize (Hw' r (view d') Hb). destruct r as [t|e]; cbn in Hb.
    + destruct Hb as [Hf E]. rewrite E in *. destruct (range_begin_guar _ _ _ Hv Hf) as (Hv' & Hg & Hdom).
      exists (<[i := Some t]> Ts). eapply range_sys_inv_move; [exact Hi|exact Hth|exact HT|done| | |by exists []|exact Hg|done].
      * right. by exists t.
      * intros t1. split; [apply Hdom|]. intros [[y Hy]|[= <-]]; cbn; [|exists (gone Open); apply lookup_insert_eq].
        destruct (decide (t1 = t)) as [->|Hne]; [congruence|]. rewrite lookup_insert_ne by done. by exists y.
    + rewrite Hb in *. exists (<[i := T]> Ts). eapply range_sys_inv_move; [exact Hi|exact Hth|exact HT|done|by left| |by exists []|by intros|done].
      intros t. subst T. split; [by left|by intros [?|?]].
  - apply query_law in Hb. destruct (Hw' r _ Hb) as [Hg Hk]. exists (<[i := T]> Ts). subst T. by eapply Hcall.
  - apply exec_law in Hb. destruct (Hw' r _ Hb) as [Hg Hk]. exists (<[i := T]> Ts). subst T. by eapply Hcall.
  - apply commit_law in Hb. destruct (Hw' r _ Hb) as [Hg Hk]. exists (<[i := T]> Ts). subst T. by eapply Hcall.
  - apply rollback_law in Hb. exists (<[i := T]> Ts). specialize (Hw' r _ Hb). subst T.
    eapply Hcall; [by eapply range_rollback_guar|done..].
Qed.

(** A step of the whole. *)
Context (Hbody : ∀ x d, wp m0 collate (Q x) (body x) None d).

Lemma sys_step_inv d0 n0 (s s' : sys D X A) Ts :
  (n0 ≤ length (threads s))%nat →
  sys_inv d0 n0 (view (db s)) (threads s) Ts → sys_step body s s' →
  (length (threads s) ≤ length (threads s'))%nat ∧ ∃ Ts', sys_inv d0 n0 (view (db s')) (threads s') Ts'.
Proof.
  intros Hn Hi Hs. destruct Hs as [d ths x|d ths d' Hint|d ths i x p d' p' Hth Hp]; cbn [db threads] in *.
  - rewrite length_app. split; [lia|]. exists (Ts ++ [None]). pose proof Hi as [I1 I2 I3 I4 I5 I6 I7].
    assert (∀ i t, (Ts ++ [None]) !! i = Some (Some t) → Ts !! i = Some (Some t)) as Hold.
    { intros i t [?|[_ Hl]]%lookup_app_Some; [done|]. apply list_lookup_singleton_Some in Hl as [_ ?]. done. }
    split; [done|by rewrite !length_app, I2|..|done].
    + intros i x1 p1 T1 [H1|[Hle [Hi0 [= <- <-]]%list_lookup_singleton_Some]]%lookup_app_Some HT.
      * rewrite lookup_app_l in HT by (rewrite I2; by eapply lookup_lt_Some). by eapply I3.
      * replace i with (length ths) in HT by lia. rewrite <-I2, list_lookup_middle in HT by done.
        injection HT as <-. apply Hbody.
    + intros t. rewrite I4, elem_of_app, list_elem_of_singleton. split; [by left|by intros [?|?]].
    + intros i j t H1%Hold H2%Hold. by eapply I5.
    + intros i t Hle H1%Hold. by eapply I6.
  - split; [done|]. exists Ts. pose proof Hi as [I1 I2 I3 I4 I5 I6 [[more E] I7]].
    destruct (range_internal_ok _ _ _ I1 (internal_law _ _ Hint)) as (Hv' & Hrel & Hdom).
    assert (∀ t, is_Some (txns (view d) !! t) → is_Some (txns (view d') !! t)) as Hkeep.
    { intros t [y Hy]. destruct (r_txns _ _ _ (Hrel None) t y Hy) as (y' & ? & _). by exists y'. }
    split; try done.
    + intros i x p T Hx HT. eapply range_wp_rely; [apply Hrel|]. by eapply I3.
    + intros t. rewrite <-I4. split; [apply Hdom|apply Hkeep].
    + destruct (r_log _ _ _ (Hrel None)) as [more' E']. split; [exists (more' ++ more); by rewrite E', E, app_assoc|].
      intros t Ht. by apply Hkeep, I7.
  - rewrite length_insert. split; [done|]. by eapply range_prog_step_inv.
Qed.

Lemma sys_steps_inv d0 n0 (s s' : sys D X A) Ts :
  (n0 ≤ length (threads s))%nat →
  sys_inv d0 n0 (view (db s)) (threads s) Ts → rtc (sys_step body) s s' →
  ∃ Ts', sys_inv d0 n0 (view (db s')) (threads s') Ts'.
Proof.
  intros Hn Hi Hs. revert Ts Hn Hi. induction Hs as [s|s1 s2 s3 H12 _ IH]; intros Ts Hn Hi; [by exists Ts|].
  destruct (sys_step_inv _ _ _ _ _ Hn Hi H12) as (Hl & Ts' & Hi'). eapply IH; [|exact Hi']. lia.
Qed.

(** What is true now, with this moment as the earlier one. *)
Lemma sys_inv_mark d0 n0 d ths Ts : sys_inv d0 n0 d ths Ts → sys_inv d (length ths) d ths Ts.
Proof.
  intros [I1 I2 I3 I4 I5 I6 I7]. split; try done.
  - intros i t Hle Hi%lookup_lt_Some. lia.
  - split; [by exists []|done].
Qed.

(** The beginning: no goroutine, no transaction, no commit. *)
Lemma sys_inv_start d : txns d = ∅ → log d = [] → committed d = m0 → sys_inv d 0 d [] [].
Proof.
  intros Ht Hl Hm. split; [|done|done| |done|done|split; [by exists []|done]].
  - split; rewrite ?Ht, ?Hl; [by intros ? ? ? ? ?%lookup_empty_Some..|done|apply NoDup_nil_2|by intros ? ?%not_elem_of_nil].
  - intros t. rewrite Ht, lookup_empty. split; [by intros [? ?]|by intros ?%not_elem_of_nil].
Qed.

(** Not more commits than goroutines. *)
Lemma sys_inv_commits d0 n0 d ths Ts : sys_inv d0 n0 d ths Ts → (length (log d) ≤ length ths)%nat.
Proof.
  intros Hi. rewrite <-(si_len _ _ _ _ _ Hi), <-(length_fmap e_txn (log d)), <-(length_fmap Some).
  apply submseteq_length, NoDup_submseteq; [apply NoDup_fmap; [by intros ?? [=]|apply (v_once _ _ (si_valid _ _ _ _ _ Hi))]|].
  intros o (t & -> & Hin)%list_elem_of_fmap. apply (si_txns _ _ _ _ _ Hi).
  rewrite (v_logged _ _ (si_valid _ _ _ _ _ Hi)) by done. by eexists.
Qed.
End adequacy.
