(* ===== verification/RangeIds.v ===== *)
(** [id-generators/amazon-way/main.go]: ranges of identifiers, handed out by transactions on
    one row per service, as programs over the database of [RangeDb]. *)

From stdpp Require Import gmap strings list fin_maps sets.
From Stdlib Require Import ZArith Lia.
From S2P Require Import Prelude RangeDb RangeLogic.
Import RangeDb.

Module RangeIds.

Local Open Scope string_scope.

(** * The handler *)

Definition ServiceName : string := "service_name".
Definition BatchSize : Z := 100.

Record IDRange := mkRange { Min : Z; Max : Z }.

(** The reply: a status, and the range when it is 200. *)
Inductive reply := Failed (status : Z) | Sent (r : IDRange).

(** From the query to the commit. *)
Definition transaction (txn : nat) (svcName : string) : prog reply :=
  PQueryRow txn "SELECT value FROM ids WHERE service_name = ? FOR UPDATE" [VStr svcName] (λ row,
  match row with
  | inr err =>
      if errors_is ErrNoRows err then
        let initialCounterValue := BatchSize in
        PExec txn "INSERT INTO ids(service_name, value) VALUES(?, ?)" [VStr svcName; VInt initialCounterValue] (λ r,
        match r with
        | inr _ => Ret (Failed 500)
        | inl _ =>
            PCommit txn (λ r,
            match r with
            | inr _ => Ret (Failed 500)
            | inl _ => Ret (Sent (mkRange 1 BatchSize))
            end)
        end)
      else Ret (Failed 500)
  | inl svcCounter =>
      let lowerValue := i64 (svcCounter + 1) in
      let upperValue := i64 (svcCounter + BatchSize) in
      PExec txn "UPDATE ids SET value = ? WHERE service_name = ?" [VInt upperValue; VStr svcName] (λ r,
      match r with
      | inr _ => Ret (Failed 500)
      | inl _ =>
          PCommit txn (λ r,
          match r with
          | inr _ => Ret (Failed 500)
          | inl _ => Ret (Sent (mkRange lowerValue upperValue))
          end)
      end)
  end).

(** The deferred rollback runs on every return from the transaction. *)
Definition generateHandler (svcName : string) : prog reply :=
  if String.eqb svcName "" then Ret (Failed 400) else
  PBegin (λ txn,
  match txn with
  | inr _ => Ret (Failed 500)
  | inl txn => pbind (transaction txn svcName) (λ rep, PRollback txn (λ _, Ret rep))
  end).

(** * What it does *)

Section handler.
Context (m0 : table) (collate : string → string).

(** A commit raised the counter from below a range to its end. *)
Definition granted (svc : string) (e : entry) (x : IDRange) : Prop :=
  let c := last_in (collate svc) (e_before e) in
  e_writes e !! collate svc = Some (i64 (c + BatchSize)) ∧ x = mkRange (i64 (c + 1)) (i64 (c + BatchSize)).

(** A range that is sent was granted by the handler's own commit. *)
Definition sent (svc : string) (rep : reply) (T : option nat) (d : idsdb) : Prop :=
  match rep with
  | Failed status => status = 400 ∨ status = 500
  | Sent x => ∃ e, e ∈ log d ∧ T = Some (e_txn e) ∧ granted svc e x
  end.

Lemma sent_log svc rep T d d1 : (∃ more, log d1 = (more ++ log d)%list) → sent svc rep T d → sent svc rep T d1.
Proof.
  intros [more E]. destruct rep as [|x]; [done|]. intros (e & He & Hx). exists e. split; [|done].
  rewrite E. apply elem_of_app. by right.
Qed.

Lemma wp_ret svc rep T d : sent svc rep T d → wp m0 collate (sent svc) (Ret rep) T d.
Proof. intros Hs d1 Hr _. eapply sent_log; [apply (r_log _ _ _ Hr)|done]. Qed.

Lemma wp_failed svc T d : wp m0 collate (sent svc) (Ret (Failed 500)) T d.
Proof. apply wp_ret. by right. Qed.

(** A transaction that others have run beside is what it was, or over. *)
Lemma still_open t x d d1 :
  rely (Some t) d d1 → txns d !! t = Some x → txns d1 !! t = Some x ∨ txns d1 !! t = Some (gone Done).
Proof. intros Hr Hx. destruct (r_txns _ _ _ Hr t x Hx) as (x' & E & [->| ->]); auto. Qed.

(** The commit at the end, over the counter [c]. *)
Lemma wp_commit svc t x d c :
  txns d !! t = Some x → st x = Open → collate svc ∈ locks x →
  writes x !! collate svc = Some (i64 (c + BatchSize)) → last_in (collate svc) (committed d) = c →
  wp m0 collate (sent svc) (PCommit t (λ r,
    match r with
    | inr _ => Ret (Failed 500)
    | inl _ => Ret (Sent (mkRange (i64 (c + 1)) (i64 (c + BatchSize))))
    end)) (Some t) d.
Proof.
  intros Hx Ho Hk Hw Hc d1 Hr Hv. split; [done|]. intros r d2 Hs.
  destruct (still_open t x d d1 Hr Hx) as [Hx1|Hx1].
  - apply (call_spec_open _ _ _ _ _ _ Hx1 Ho) in Hs. split; [by eapply commit_guar|].
    destruct r as [[]|e]; [|apply wp_failed]. cbn in Hs. subst d2. apply wp_ret.
    exists (mkEntry t (writes x) (committed d1)). split; [by left|]. split; [done|]. unfold granted. cbn [e_writes e_before].
    assert (last_in (collate svc) (committed d1) = c) as ->; [|done].
    unfold last_in. rewrite (r_locked _ _ _ Hr t x) by done. done.
  - apply (call_spec_over _ _ _ _ _ Hx1) in Hs as [He ->]. split; [by apply range_guar_refl|].
    destruct r; [done|apply wp_failed].
Qed.

(** No rows: the first batch. *)
Lemma wp_insert svc t x d :
  txns d !! t = Some x → st x = Open → writes x = ∅ →
  wp m0 collate (sent svc) (PExec t "INSERT INTO ids(service_name, value) VALUES(?, ?)" [VStr svc; VInt BatchSize] (λ r,
    match r with
    | inr _ => Ret (Failed 500)
    | inl _ => PCommit t (λ r,
        match r with
        | inr _ => Ret (Failed 500)
        | inl _ => Ret (Sent (mkRange 1 BatchSize))
        end)
    end)) (Some t) d.
Proof.
  intros Hx Ho Hw d1 Hr Hv. split; [done|]. intros r d2 [Hs _].
  specialize (Hs svc BatchSize eq_refl eq_refl). destruct (still_open t x d d1 Hr Hx) as [Hx1|Hx1].
  - apply (call_spec_open _ _ _ _ _ _ Hx1 Ho) in Hs. destruct r as [[]|e]; cbn in Hs; [|split; [by eapply range_failed_guar|apply wp_failed]].
    destruct Hs as (L & HL & Hk & Hn & ->). unfold current in Hn. rewrite Hw, (left_id_L ∅ (∪)) in Hn.
    assert (last_in (collate svc) (committed d1) = 0) as H0 by (unfold last_in; by rewrite Hn).
    split; [eapply range_written_guar; try done; by rewrite H0|].
    apply (wp_commit svc t (mkTxn Open (L ∪ locks x) (<[collate svc := BatchSize]> (writes x))) _ 0); cbn.
    + rewrite <-Ho. apply lookup_insert_eq.
    + done.
    + apply elem_of_union. by left.
    + apply lookup_insert_eq.
    + exact H0.
  - apply (call_spec_over _ _ _ _ _ Hx1) in Hs as [He ->]. split; [by apply range_guar_refl|].
    destruct r; [done|apply wp_failed].
Qed.

(** A counter, locked: the next batch. *)
Lemma wp_update svc t x d c :
  txns d !! t = Some x → st x = Open → writes x = ∅ → collate svc ∈ locks x → committed d !! collate svc = Some c →
  wp m0 collate (sent svc) (PExec t "UPDATE ids SET value = ? WHERE service_name = ?" [VInt (i64 (c + BatchSize)); VStr svc] (λ r,
    match r with
    | inr _ => Ret (Failed 500)
    | inl _ => PCommit t (λ r,
        match r with
        | inr _ => Ret (Failed 500)
        | inl _ => Ret (Sent (mkRange (i64 (c + 1)) (i64 (c + BatchSize))))
        end)
    end)) (Some t) d.
Proof.
  intros Hx Ho Hw Hl Hc d1 Hr Hv. split; [done|]. intros r d2 [_ Hs].
  specialize (Hs svc (i64 (c + BatchSize)) eq_refl eq_refl). destruct (still_open t x d d1 Hr Hx) as [Hx1|Hx1].
  - rewrite <-(r_locked _ _ _ Hr t x) in Hc by done.
    apply (call_spec_open _ _ _ _ _ _ Hx1 Ho) in Hs. destruct r as [[]|e]; cbn in Hs; [|split; [by eapply range_failed_guar|apply wp_failed]].
    destruct Hs as (L & HL & Hs). unfold current in Hs. rewrite Hw, (left_id_L ∅ (∪)), Hc in Hs. destruct Hs as [Hk ->].
    assert (last_in (collate svc) (committed d1) = c) as H0 by (unfold last_in; by rewrite Hc).
    split; [eapply range_written_guar; try done; by rewrite H0|].
    apply (wp_commit svc t (mkTxn Open (L ∪ locks x) (<[collate svc := i64 (c + BatchSize)]> (writes x))) _ c); cbn.
    + rewrite <-Ho. apply lookup_insert_eq.
    + done.
    + apply elem_of_union. by left.
    + apply lookup_insert_eq.
    + exact H0.
  - apply (call_spec_over _ _ _ _ _ Hx1) in Hs as [He ->]. split; [by apply range_guar_refl|].
    destruct r; [done|apply wp_failed].
Qed.

Lemma wp_transaction svc t d :
  txns d !! t = Some (gone Open) → wp m0 collate (sent svc) (transaction t svc) (Some t) d.
Proof.
  intros Hx d1 Hr Hv. split; [done|]. intros r d2 Hs. destruct (Hs svc eq_refl) as [_ Hs']. specialize (Hs' eq_refl).
  clear Hs. destruct (still_open t _ d d1 Hr Hx) as [Hx1|Hx1].
  - apply (call_spec_open _ _ _ _ _ _ Hx1 eq_refl) in Hs'. destruct r as [c|e]; cbn in Hs'.
    + destruct Hs' as (L & HL & Hk & -> & Hc). unfold current in Hc. cbn [gone writes] in Hc. rewrite (left_id_L ∅ (∪)) in Hc.
      split; [by eapply range_locked_guar|]. eapply wp_update; [apply lookup_insert_eq|done|done| |exact Hc].
      cbn. apply elem_of_union. by left.
    + destruct (errors_is ErrNoRows e); [|split; [by eapply range_failed_guar|apply wp_failed]].
      destruct Hs' as (L & HL & -> & _). split; [by eapply range_locked_guar|].
      eapply wp_insert; [apply lookup_insert_eq|done|done].
  - apply (call_spec_over _ _ _ _ _ Hx1) in Hs' as [He ->]. split; [by apply range_guar_refl|].
    destruct r as [|e]; [done|]. destruct (errors_is ErrNoRows e); [|apply wp_failed].
    intros d2 Hr2 Hv2. split; [done|]. intros r d3 [Hs _]. specialize (Hs svc BatchSize eq_refl eq_refl).
    assert (txns d2 !! t = Some (gone Done)) as Hx2 by by destruct (still_open t _ d1 d2 Hr2 Hx1).
    apply (call_spec_over _ _ _ _ _ Hx2) in Hs as [He' ->]. split; [by apply range_guar_refl|].
    destruct r; [done|apply wp_failed].
Qed.

Lemma wp_generateHandler svc d : wp m0 collate (sent svc) (generateHandler svc) None d.
Proof.
  unfold generateHandler. destruct (String.eqb svc ""); [apply wp_ret; by left|].
  intros d1 Hr Hv. split; [done|]. intros [t|e] d2 Hb; [|apply wp_failed].
  destruct Hb as [Hf ->]. apply wp_bind. pose proof (wp_transaction svc t (put_txn t (gone Open) d1) (lookup_insert_eq _ _ _)) as Hw.
  revert Hw. apply wp_mono. intros rep T d2 [<-|?] Hs; [|done]. intros d3 Hr3 _. split; [done|]. intros r d4 Hb. apply wp_ret.
  eapply sent_log; [|exact Hs]. destruct (r_log _ _ _ Hr3) as [more E]. exists more. rewrite <-E.
  unfold rollback_spec in Hb. by destruct (st <$> txns d3 !! t) as [[]|]; subst d4.
Qed.
End handler.
End RangeIds.
