(* ===== verification/RangeStore.v ===== *)
(** A concrete database that satisfies the laws of [RangeDb]: it answers at once or blocks on a
    lock, and loses the replies of the commits its script names.  The examples of the service
    run on it, the calls of its goroutines in a given order. *)

From stdpp Require Import gmap strings list fin_maps sets.
From Stdlib Require Import ZArith Lia.
From S2P Require Import Prelude RangeDb.
Import RangeDb.

Module RangeStore.

Definition errTxDone : goerr := ErrNew "sql: transaction has already been committed or rolled back".

(** [commits]: for each commit to come, [None], or the reply is lost and this tells
    whether it was carried out. *)
Record store := mkStore { data : idsdb; commits : list (option bool) }.
Definition on_data (s : store) (d : idsdb) : store := mkStore d (commits s).

(** No other transaction has this row. *)
Definition unlocked (t : nat) (k : string) (d : idsdb) : bool :=
  bool_decide (map_Forall (λ t' x, t' ≠ t → k ∉ locks x) (txns d)).

(** The result of a call, or [None] while it blocks. *)
Abbreviation answer A := (option ((A + goerr) * store)).

Definition with_txn {A} (t : nat) (s : store) (f : txn → answer A) : answer A :=
  match txns (data s) !! t with
  | Some x => if decide (st x = Open) then f x else Some (inr errTxDone, s)
  | None => Some (inr errTxDone, s)
  end.
Definition refuse {A} (t : nat) (x : txn) (s : store) (e : goerr) : answer A :=
  Some (inr e, on_data s (locked t x ∅ (data s))).

Definition s_begin (s : store) : answer nat :=
  let t := fresh (dom (txns (data s))) in
  Some (inl t, on_data s (put_txn t (gone Open) (data s))).

Definition s_query (t : nat) (sql : string) (args : list value) (s : store) : answer Z :=
  with_txn t s (λ x,
    match args with
    | [VStr k] =>
        if decide (sql = "SELECT value FROM ids WHERE service_name = ? FOR UPDATE"%string) then
          match current x (data s) k with
          | Some v => if unlocked t k (data s) then Some (inl v, on_data s (locked t x {[ k ]} (data s))) else None
          | None => refuse t x s ErrNoRows
          end
        else if decide (sql = "SELECT value FROM ids WHERE service_name = ?"%string) then
          Some (match committed (data s) !! k with Some v => inl v | None => inr ErrNoRows end, s)
        else refuse t x s (ErrNew "syntax error")
    | _ => refuse t x s (ErrNew "syntax error")
    end).

Definition s_exec (t : nat) (sql : string) (args : list value) (s : store) : answer unit :=
  with_txn t s (λ x,
    match args with
    | [VStr k; VInt v] =>
        if decide (sql = "INSERT INTO ids(service_name, value) VALUES(?, ?)"%string) then
          if unlocked t k (data s) then
            match current x (data s) k with
            | Some _ => refuse t x s (ErrNew "Duplicate entry")
            | None => Some (inl tt, on_data s (written t x {[ k ]} k v (data s)))
            end
          else None
        else refuse t x s (ErrNew "syntax error")
    | [VInt v; VStr k] =>
        if decide (sql = "UPDATE ids SET value = ? WHERE service_name = ?"%string) then
          if unlocked t k (data s) then
            match current x (data s) k with
            | Some _ => Some (inl tt, on_data s (written t x {[ k ]} k v (data s)))
            | None => Some (inl tt, on_data s (locked t x ∅ (data s)))
            end
          else None
        else refuse t x s (ErrNew "syntax error")
    | _ => refuse t x s (ErrNew "syntax error")
    end).

Definition s_commit (t : nat) (s : store) : answer unit :=
  with_txn t s (λ x,
    match commits s with
    | [] => Some (inl tt, on_data s (applied t x (data s)))
    | None :: l => Some (inl tt, mkStore (applied t x (data s)) l)
    | Some true :: l => Some (inr ErrIO, mkStore (applied t x (data s)) l)
    | Some false :: l => Some (inr ErrIO, mkStore (put_txn t (gone Done) (data s)) l)
    end).

Definition s_rollback (t : nat) (s : store) : answer unit :=
  match st <$> txns (data s) !! t with
  | Some Open | Some Aborted => Some (inl tt, on_data s (put_txn t (gone Done) (data s)))
  | _ => Some (inr errTxDone, s)
  end.

#[export] Instance store_database : Database store := {
  begin_ s r s' := s_begin s = Some (r, s');
  query_row t sql args s r s' := s_query t sql args s = Some (r, s');
  exec t sql args s r s' := s_exec t sql args s = Some (r, s');
  commit t s r s' := s_commit t s = Some (r, s');
  rollback t s r s' := s_rollback t s = Some (r, s');
  internal s s' := s' = s;
}.

(** ** It does what is documented *)

Lemma range_unlocked_lockable t k d : unlocked t k d = true → lockable t {[ k ]} d.
Proof.
  unfold unlocked. intros Hu%bool_decide_eq_true t' x Hne Hx. apply disjoint_singleton_l. by apply (Hu t' x Hx).
Qed.
Lemma nothing_lockable t d : lockable t ∅ d.
Proof. intros t' x _ _. apply disjoint_empty_l. Qed.
Create HintDb range_store.
Local Hint Resolve nothing_lockable range_unlocked_lockable : range_store.

Lemma range_with_txn_spec {A} t s (f : txn → answer A) (spec : txn → A + goerr → idsdb → Prop) r s' :
  with_txn t s f = Some (r, s') → (∀ x, txns (data s) !! t = Some x → f x = Some (r, s') → spec x r (data s')) →
  call_spec t spec (data s) r (data s').
Proof.
  unfold with_txn, call_spec. intros E Hf. destruct (txns (data s) !! t) as [x|]; [|done].
  destruct (decide (st x = Open)) as [Ho|Ho].
  - rewrite Ho. by apply Hf.
  - destruct (st x); [done|done|..]; by injection E as <- <-.
Qed.

Lemma refuse_failed {A} t x s e (r : A + goerr) s' :
  refuse t x s e = Some (r, s') → r = inr e ∧ failed t x (data s) (data s').
Proof. intros [= <- <-]. split; [done|]. exists ∅. split; [auto with range_store|by left]. Qed.

Lemma s_query_spec t sql args s r s' :
  s_query t sql args s = Some (r, s') → query_spec id t sql args (data s) r (data s').
Proof.
  intros E k ->. split; intros ->; (eapply range_with_txn_spec; [exact E|]); clear E; intros x Hx E; cbn [id] in *.
  - rewrite decide_False, decide_True in E by done. injection E as <- <-. unfold plain_read.
    destruct (committed (data s) !! k) eqn:Ec; cbn; (split; [done|]); exists (committed (data s)); (split; [by left|done]).
  - rewrite decide_True in E by done. unfold locking_read. destruct (current x (data s) k) as [v|] eqn:Ec.
    + destruct (unlocked t k (data s)) eqn:Eu; [|done]. injection E as <- <-. exists {[ k ]}.
      split_and!; [auto with range_store|by apply elem_of_singleton|done|done].
    + injection E as <- <-. exists ∅. split_and!; [auto with range_store|done|done].
Qed.

Lemma s_exec_spec t sql args s r s' :
  s_exec t sql args s = Some (r, s') → exec_spec id t sql args (data s) r (data s').
Proof.
  intros E. split; intros k v -> ->; (eapply range_with_txn_spec; [exact E|]); clear E; intros x Hx E; cbn [id] in *;
    rewrite decide_True in E by done; destruct (unlocked t k (data s)) eqn:Eu; try done;
    destruct (current x (data s) k) eqn:Ec.
  - by apply refuse_failed in E as [-> ?].
  - injection E as <- <-. exists {[ k ]}. split_and!; [auto with range_store|by apply elem_of_singleton|done|done].
  - injection E as <- <-. exists {[ k ]}. split; [auto with range_store|]. rewrite Ec.
    split; [by apply elem_of_singleton|done].
  - injection E as <- <-. exists ∅. split; [auto with range_store|]. by rewrite Ec.
Qed.

Lemma range_s_commit_spec t s r s' : s_commit t s = Some (r, s') → commit_spec t (data s) r (data s').
Proof.
  intros E. eapply range_with_txn_spec; [exact E|]. clear E. intros x Hx E.
  destruct (commits s) as [|[[]|] l]; injection E as <- <-; cbn; auto.
Qed.

#[export] Instance store_laws : DatabaseLaws store.
Proof.
  refine {| collate := id; view := data |}.
  - intros s r s' [= <- <-]. split; [|done]. apply not_elem_of_dom, is_fresh.
  - intros t sql args s r s'. apply s_query_spec.
  - intros t sql args s r s'. apply s_exec_spec.
  - intros t s r s'. apply range_s_commit_spec.
  - intros t s r s'. cbn. unfold s_rollback, rollback_spec. destruct (st <$> txns (data s) !! t) as [[]|]; by intros [= <- <-].
  - intros s s' ->. by left.
Defined.

(** * Runs in a given order *)

Definition perform {A} (p : prog A) (s : store) : option (store * prog A) :=
  let next {B} (a : answer B) (k : B + goerr → prog A) := '(r, s') ← a; Some (s', k r) in
  match p with
  | Ret _ => None
  | PBegin k => next (s_begin s) k
  | PQueryRow t sql args k => next (s_query t sql args s) k
  | PExec t sql args k => next (s_exec t sql args s) k
  | PCommit t k => next (s_commit t s) k
  | PRollback t k => next (s_rollback t s) k
  end.

Lemma perform_step {A} (p : prog A) s s' p' : perform p s = Some (s', p') → prog_step s p s' p'.
Proof.
  destruct p; cbn [perform]; [done|..]; intros ([r s1] & E & [= <- <-])%bind_Some; by constructor.
Qed.

(** A goroutine starts, or the [i]th makes its next call. *)
Inductive event {X} := Go (x : X) | Call (i : nat).
#[global] Arguments event : clear implicits.

Fixpoint play {X A} (body : X → prog A) (es : list (event X)) (s : sys store X A) : option (sys store X A) :=
  match es with
  | [] => Some s
  | Go x :: es => play body es (mkSys (db s) (threads s ++ [(x, body x)]))
  | Call i :: es =>
      '(x, p) ← threads s !! i; '(d', p') ← perform p (db s);
      play body es (mkSys d' (<[i := (x, p')]> (threads s)))
  end.

Lemma range_play_steps {X A} (body : X → prog A) es s s' : play body es s = Some s' → rtc (sys_step body) s s'.
Proof.
  revert s. induction es as [|[x|i] es IH]; intros [d ths]; cbn [play db threads]; [by intros [= <-]| |].
  - intros E%IH. eapply rtc_l; [apply sys_go|exact E].
  - intros ([x p] & Hi & ([d' p'] & Hp & E%IH)%bind_Some)%bind_Some.
    eapply rtc_l; [eapply sys_call; [exact Hi|by apply perform_step]|exact E].
Qed.

End RangeStore.
