(* ===== verification/RangeServer.v ===== *)
(** [id-generators/amazon-way/main.go], the service around the transactions of [RangeIds]: the
    routes, the replies as they go out, what a client reads in them; and the requests as
    net/http serves them, each in a goroutine of its own. *)

From Stdlib Require Import ZArith Lia Ascii String.
From stdpp Require Import gmap strings list fin_maps.
From S2P Require Import Prelude GoLib GoHttp RangeDb RangeLogic RangeIds RangeStore.
Import Http RangeDb RangeIds.

Module RangeServer.

Local Open Scope string_scope.

(** * JSON *)

Definition quoted (s : string) : string := String "034"%char "" +:+ s +:+ String "034"%char "".

(** What the encoder of encoding/json writes for an [IDRange], with its tags. *)
Definition Encode (x : IDRange) : string :=
  "{" +:+ quoted "min" +:+ ":" +:+ itoa (Min x) +:+ "," +:+
    quoted "max" +:+ ":" +:+ itoa (Max x) +:+ "}" +:+ newline.

Definition writeJSONResponse (result : IDRange) : M Conn unit :=
  do! through (set_header "Content-Type" "application/json") in
  through (Write (bytes_of (Encode result))).

(** * The service *)

Record Request := mkRequest { Path : string; Query : gmap string (list string) }.

(** [url.Values.Get]: the first value of a key. *)
Definition Get (q : gmap string (list string)) (key : string) : string :=
  match q !! key with Some (v :: _) => v | _ => "" end.

(** What the client of a request gets. *)
Record Response := mkResponse { rStatus : option Z; rHeader : option Header; rBody : bytes }.

(** The calls on the writer, and the response; none when they panic. *)
Definition send (m : M Conn unit) : option Response :=
  match m new_conn with
  | (Ok _, c) => Some (mkResponse (wStatus (cWriter c)) (cSent c) (wBody (cWriter c)))
  | _ => None
  end.

Definition homeHandler : M Conn unit :=
  do! through (WriteHeader 200) in
  through (Write (bytes_of "ID Generator Service is running.")).

(** [generateHandler] with its replies. *)
Definition reply_to (rep : reply) : M Conn unit :=
  match rep with
  | Failed status => through (WriteHeader status)
  | Sent result => do! through (WriteHeader 200) in writeJSONResponse result
  end.
Definition generate (r : Request) : prog (option Response) :=
  let svcName := Get (Query r) ServiceName in
  if String.eqb svcName "" then Ret (send (Error "Missing service_name parameter" 400)) else
  pbind (generateHandler svcName) (λ rep, Ret (send (reply_to rep))).

(** The mux of [main]: "/" takes every path that nothing else takes. *)
Definition route (r : Request) : prog (option Response) :=
  if String.eqb (Path r) "/generate" then generate r else Ret (send homeHandler).

(** * A client *)

(** The text before the first [c], and what follows it. *)
Fixpoint cut (c : ascii) (s : string) : option (string * string) :=
  match s with
  | "" => None
  | String x s =>
      if Ascii.eqb x c then Some ("", s) else '(a, b) ← cut c s; Some (String x a, b)
  end.
Fixpoint strip (p s : string) : option string :=
  match p, s with
  | "", s => Some s
  | String x p, String y s => if Ascii.eqb x y then strip p s else None
  | String _ _, "" => None
  end.
Definition number (s : string) : option Z := match parse_int64 s with Ok n => Some n | _ => None end.

(** A client that reads the two numbers of the object. *)
Definition Decode (b : bytes) : option IDRange :=
  s ← strip ("{" +:+ quoted "min" +:+ ":") (string_of b);
  '(lo, s) ← cut "," s;
  s ← strip (quoted "max" +:+ ":") s;
  '(hi, _) ← cut "}" s;
  lo ← number lo; hi ← number hi; Some (mkRange lo hi).

Lemma strip_app p s : strip p (p +:+ s) = Some s.
Proof. induction p as [|x p IH]; [by destruct s|]. change (String x p +:+ s) with (String x (p +:+ s)). cbn [strip]. by rewrite Ascii.eqb_refl. Qed.
Lemma cut_app c a b : without c a → cut c (a +:+ String c b) = Some (a, b).
Proof.
  induction a as [|x a IH]; intros Ha; [cbn; by destruct c as [[] [] [] [] [] [] [] []]|].
  destruct Ha as [Hx Ha]. change (String x a +:+ String c b) with (String x (a +:+ String c b)). cbn [cut].
  destruct (Ascii.eqb_spec x c); [done|]. by rewrite IH.
Qed.

Definition int64 (n : Z) : Prop := - 2 ^ 63 ≤ n < 2 ^ 63.

(** The encoding is read back. *)
Lemma decode_encode_range x : int64 (Min x) → int64 (Max x) → Decode (bytes_of (Encode x)) = Some x.
Proof.
  intros Hlo Hhi. unfold Decode, Encode. rewrite string_of_bytes_of.
  set (tl := "}" +:+ newline). set (q := itoa (Max x) +:+ tl).
  change ("{" +:+ quoted "min" +:+ ":" +:+ itoa (Min x) +:+ "," +:+ quoted "max" +:+ ":" +:+ q)
    with (("{" +:+ quoted "min" +:+ ":") +:+ (itoa (Min x) +:+ String "," ((quoted "max" +:+ ":") +:+ q))).
  rewrite strip_app. cbn [mbind option_bind].
  rewrite cut_app by (apply itoa_without; repeat constructor; done). cbn [mbind option_bind].
  rewrite strip_app. cbn [mbind option_bind].
  unfold q, tl. change ("}" +:+ newline) with (String "}" newline).
  rewrite cut_app by (apply itoa_without; repeat constructor; done). cbn [mbind option_bind].
  unfold number. rewrite !parse_itoa by done. by destruct x.
Qed.

(** * What the service sends *)

Definition home_response : Response :=
  mkResponse (Some 200) (Some ∅) (bytes_of "ID Generator Service is running.").
Definition missing_response : Response :=
  mkResponse (Some 400)
    (Some (header_set "X-Content-Type-Options" "nosniff"
      (header_set "Content-Type" "text/plain; charset=utf-8" ∅)))
    (bytes_of ("Missing service_name parameter" +:+ newline)).

(** The reply on the wire.  The Content-Type set after the status does not go out. *)
Definition on_wire (rep : reply) : Response :=
  match rep with
  | Sent x => mkResponse (Some 200) (Some ∅) (bytes_of (Encode x))
  | Failed status => mkResponse (Some status) (Some ∅) []
  end.

Lemma send_reply rep :
  match rep with Failed status => status = 400 ∨ status = 500 | Sent _ => True end →
  send (reply_to rep) = Some (on_wire rep).
Proof. destruct rep as [status|x]; [by intros [->| ->]|done]. Qed.

(** A client asked for a range of this service, by this collated name, and reads it. *)
Definition reads (key : string → string) (svc : string) (r : Request) (x : Response) : option IDRange :=
  if bool_decide (Path r = "/generate" ∧ key (Get (Query r) ServiceName) = key svc ∧ rStatus x = Some 200)
  then Decode (rBody x) else None.

Section site.
Context (m0 : table) (key : string → string).

(** How a request ends: with the page, the complaint, or the reply of the transaction. *)
Definition served (r : Request) (o : option Response) (T : option nat) (d : idsdb) : Prop :=
  if bool_decide (Path r = "/generate") then
    o = Some missing_response ∨
    ∃ rep, sent key (Get (Query r) ServiceName) rep T d ∧ o = Some (on_wire rep)
  else o = Some home_response.

Lemma wp_route r d : wp m0 key (served r) (route r) None d.
Proof.
  unfold route, served. destruct (String.eqb_spec (Path r) "/generate") as [Hp|Hp];
    [rewrite bool_decide_true by done|rewrite bool_decide_false by done; by intros d1 _ _].
  unfold generate. destruct (String.eqb_spec (Get (Query r) ServiceName) ""); [intros d1 _ _; by left|].
  apply wp_bind. eapply wp_mono; [|apply wp_generateHandler]. intros rep T' d' _ Hs d1 Hr _. right. exists rep.
  split; [by eapply sent_log; [apply (r_log _ _ _ Hr)|]|]. apply send_reply.
  destruct rep; [apply Hs|done].
Qed.

(** The range a client reads is the one of the handler's own commit. *)
Lemma reads_served svc r x y T d :
  served r (Some x) T d → reads key svc r x = Some y →
  ∃ e, e ∈ log d ∧ T = Some (e_txn e) ∧ granted key svc e y.
Proof.
  unfold reads. case_bool_decide as Hr; [|done]. destruct Hr as (Hp & Hk & Hst). unfold served.
  rewrite bool_decide_true by done. intros [[= ->]|(rep & Hs & [= ->])]; [discriminate Hst|].
  destruct rep as [status|z]; [by destruct Hs as [->| ->]; discriminate Hst|]. cbn [on_wire rBody].
  destruct Hs as (e & He & HT & Hs). unfold granted in *. rewrite Hk in Hs. cbn zeta in Hs. destruct Hs as [Hw ->].
  rewrite decode_encode_range by apply i64_range. intros [= <-]. by exists e.
Qed.
End site.

(** * The clients *)

Local Open Scope Z_scope.

Section clients.
Context `{DatabaseLaws D}.
Abbreviation site := (sys D Request (option Response)).

Definition last_id (svc : string) (d : D) : Z := last_in (collate svc) (committed (view d)).

(** The [i]th request has its response, in which its client reads a range of the service. *)
Definition answered (s : site) (svc : string) (i : nat) (x : IDRange) : Prop :=
  ∃ r y, threads s !! i = Some (r, Ret (Some y)) ∧ reads collate svc r y = Some x.

(** Where the requests stand, seen from an earlier moment. *)
Abbreviation inv m0 d0 n0 s Ts := (sys_inv m0 (served collate) d0 n0 (view (db s)) (threads s) Ts).

(** The end of a request, while others go on. *)
Lemma ended_served m0 d0 n0 (s : site) Ts i r o :
  inv m0 d0 n0 s Ts → threads s !! i = Some (r, Ret o) →
  ∃ T, Ts !! i = Some T ∧ served collate r o T (view (db s)).
Proof.
  intros Hi Hth. destruct (lookup_lt_is_Some_2 Ts i) as [T HT].
  { rewrite (si_len _ _ _ _ _ _ _ Hi). by eapply lookup_lt_Some. }
  exists T. split; [done|].
  apply (si_wp _ _ _ _ _ _ _ Hi i r (Ret o) T Hth HT _ (range_rely_refl _ _) (si_valid _ _ _ _ _ _ _ Hi)).
Qed.

(** The commit behind a range. *)
Lemma answered_entry m0 d0 n0 (s : site) Ts svc i x :
  inv m0 d0 n0 s Ts → answered s svc i x →
  ∃ e, e ∈ log (view (db s)) ∧ Ts !! i = Some (Some (e_txn e)) ∧ granted collate svc e x.
Proof.
  intros Hi (r & y & Hth & Hr). destruct (ended_served _ _ _ _ _ _ _ _ Hi Hth) as (T & HT & Hs).
  destruct (reads_served collate svc r y x T _ Hs Hr) as (e & He & -> & Hx). by exists e.
Qed.

Section bounded.
Context (m0 : table) (s : site) (d0 : idsdb) (n0 : nat) (Ts : list (option nat)) (svc : string).
Hypothesis Hi : inv m0 d0 n0 s Ts.
Hypothesis Hlo : 0 ≤ last_in (collate svc) m0.
Hypothesis Hhi : last_in (collate svc) m0 + BatchSize * len (threads s) < 2 ^ 63.

Lemma commits_bound : last_in (collate svc) m0 + batch * len (log (view (db s))) < 2 ^ 63.
Proof using Hi Hhi.
  pose proof (sys_inv_commits _ _ _ _ _ _ _ Hi) as Hc. unfold len, BatchSize, batch in *. lia.
Qed.

(** A range lies above what its commit found, and below the counter; those granted before lie
    below it. *)
Lemma granted_bounds l1 e l2 x :
  log (view (db s)) = (l1 ++ e :: l2)%list → granted collate svc e x →
  Max x = Min x + BatchSize - 1 ∧ last_in (collate svc) m0 < Min x ∧ Max x ≤ last_id svc (db s) ∧
  ∀ e' y, e' ∈ l2 → granted collate svc e' y → Max y < Min x.
Proof using Hi Hlo Hhi.
  intros El [Hw ->]. pose proof commits_bound as Hb. pose proof (v_chain _ _ (si_valid _ _ _ _ _ _ _ Hi)) as Hch.
  rewrite El in Hb, Hch. destruct (chain_entry _ _ _ _ _ _ _ Hlo Hb Hch Hw) as (H1 & H2 & H3 & H4 & H5).
  unfold BatchSize, batch in *. rewrite !i64_small in * by lia. cbn [Min Max]. split_and!; [lia|lia|unfold last_id; lia|].
  intros e' y He' [Hw' ->]. specialize (H5 _ _ He' Hw'). cbn [Max]. unfold BatchSize in *. lia.
Qed.

(** Two different commits. *)
Lemma granted_apart e e' x y :
  e ∈ log (view (db s)) → e' ∈ log (view (db s)) → e ≠ e' →
  granted collate svc e x → granted collate svc e' y → Max x < Min y ∨ Max y < Min x.
Proof using Hi Hlo Hhi.
  intros (l1 & l2 & El)%list_elem_of_split He' Hne Hx Hy. rewrite El in He'.
  apply elem_of_app in He' as [(l3 & l4 & ->)%list_elem_of_split|[->|He']%elem_of_cons]; [|done|].
  - left. rewrite <-app_assoc in El. cbn in El.
    destruct (granted_bounds _ _ _ y El Hy) as (_ & _ & _ & Ho). apply (Ho e); [|done].
    apply elem_of_app. right. by left.
  - right. destruct (granted_bounds _ _ _ x El Hx) as (_ & _ & _ & Ho). by apply (Ho e').
Qed.
End bounded.

Lemma range_inv_start (d : D) : txns (view d) = ∅ → log (view d) = [] →
  inv (committed (view d)) (view d) 0 (mkSys (X := Request) (A := option Response) d []) [].
Proof. intros Ht Hl. by apply sys_inv_start. Qed.
End clients.

(** C23: The requests run concurrently, each in its goroutine, their calls of the database
    interleaved in any order with one another and with what the server does; any of the calls
    may fail, and a commit that reports an error may have been carried out.  No one else writes
    to the table, the service name is its key, and no counter comes near 2 ^ 63.  Then each
    request that is over has a response; the ranges that the clients of a service read in the
    bodies are of 100 identifiers, above the counter at the start and not above it now; no two
    of them overlap; and a request that arrives when another one has its range gets a higher
    one. *)
Theorem clients_read_disjoint_ranges `{DatabaseLaws D} (d : D) (s1 s2 : sys D Request (option Response)) svc :
  txns (view d) = ∅ → log (view d) = [] →
  rtc (sys_step route) (mkSys d []) s1 → rtc (sys_step route) s1 s2 →
  0 ≤ last_id svc d → last_id svc d + BatchSize * len (threads s2) < 2 ^ 63 →
  (∀ i r o, threads s2 !! i = Some (r, Ret o) → is_Some o) ∧
  (∀ i x, answered s2 svc i x →
    Max x = Min x + BatchSize - 1 ∧ last_id svc d < Min x ∧ Max x ≤ last_id svc (db s2)) ∧
  (∀ i j x y, answered s2 svc i x → answered s2 svc j y → i ≠ j → Max x < Min y ∨ Max y < Min x) ∧
  (∀ i j x y, answered s1 svc i x → (length (threads s1) ≤ j)%nat → answered s2 svc j y → Max x < Min y).
Proof.
  intros Ht Hl R1 R2 Hlo Hhi. set (m0 := committed (view d)).
  destruct (sys_steps_inv m0 route (served collate) (wp_route m0 collate) (view d) 0 _ _ []
    (Nat.le_0_l _) (range_inv_start d Ht Hl) R1) as [Ts1 I1].
  pose proof (sys_inv_mark _ _ _ _ _ _ _ I1) as M1.
  destruct (sys_steps_inv m0 route (served collate) (wp_route m0 collate) _ _ _ _ _ (Nat.le_refl _) M1 R2) as [Ts2 I2].
  split_and!.
  - intros i r o Hth. destruct (ended_served _ _ _ _ _ _ _ _ I2 Hth) as (T & _ & Hs). revert Hs. unfold served.
    case_bool_decide; [intros [->|(rep & _ & ->)]|intros ->]; by eexists.
  - intros i x Hx. destruct (answered_entry _ _ _ _ _ _ _ _ I2 Hx) as (e & (l1 & l2 & El)%list_elem_of_split & _ & Hg).
    by destruct (granted_bounds _ _ _ _ _ _ I2 Hlo Hhi _ _ _ _ El Hg) as (? & ? & ? & _).
  - intros i j x y Hx Hy Hne. destruct (answered_entry _ _ _ _ _ _ _ _ I2 Hx) as (e & He & Hei & Hg).
    destruct (answered_entry _ _ _ _ _ _ _ _ I2 Hy) as (e' & He' & Hej & Hg').
    eapply (granted_apart _ _ _ _ _ _ I2 Hlo Hhi e e'); try done. intros ->. apply Hne.
    by eapply (si_apart _ _ _ _ _ _ _ I2).
  - intros i j x y Hx Hle Hy. destruct (answered_entry _ _ _ _ _ _ _ _ I1 Hx) as (e & He & _ & Hg).
    destruct (answered_entry _ _ _ _ _ _ _ _ I2 Hy) as (e' & (l1 & l2 & El)%list_elem_of_split & Hej & Hg').
    destruct (granted_bounds _ _ _ _ _ _ I2 Hlo Hhi _ _ _ _ El Hg') as (_ & _ & _ & Ho). apply (Ho e); [|done].
    pose proof (si_new _ _ _ _ _ _ _ I2 j _ Hle Hej) as Hnew.
    destruct (si_since _ _ _ _ _ _ _ I2) as [[more Em] _]. rewrite Em in El.
    assert (e' ∉ log (view (db s1))) as Hn.
    { intros Hin. rewrite (v_logged _ _ (si_valid _ _ _ _ _ _ _ I1)) in Hnew; [done|]. apply list_elem_of_fmap. by exists e'. }
    apply app_eq_inv in El as [(k & E1 & E2)|(k & -> & E2)].
    + destruct k as [|e1 k]; cbn in E2; [destruct Hn; rewrite <-E2; by left|]. injection E2 as <- ->.
      apply elem_of_app. by right.
    + destruct Hn. rewrite E2. apply elem_of_app. right. by left.
Qed.

(** The Content-Type is set when the status has gone out: a reply with a range has no header of
    the service's. *)
Theorem json_type_not_sent x : rHeader <$> send (reply_to (Sent x)) = Some (Some ∅).
Proof. reflexivity. Qed.

(** * Requests at the same time *)

Import RangeStore.

Definition ask (svc : string) : Request := mkRequest "/generate" {[ "service_name" := [svc] ]}.

(** Orders stand at 300; the reply of the third commit is lost. *)
Definition demo_store : store := mkStore (mkDb {[ "orders" := 300 ]} [] ∅) [None; None; Some true].
Abbreviation demo_site := (sys store Request (option Response)).

(** Two requests for orders overlap, with one for users; the second waits for the row of the
    first.  When they are over there is a third one. *)
Definition first_calls : list (event Request) :=
  [Go (ask "orders"); Go (ask "orders"); Go (mkRequest "/" ∅); Go (ask "users");
   Call 0; Call 1; Call 3; Call 0; Call 3; Call 0; Call 0; Call 3; Call 1; Call 0;
   Call 1; Call 3; Call 1; Call 3; Call 1]%nat.
Definition later_calls : list (event Request) :=
  [Go (ask "orders"); Call 4; Call 4; Call 4; Call 4; Call 4]%nat.

Definition demo_start : demo_site := mkSys demo_store [].
Definition demo_mid : demo_site := default demo_start (play route first_calls demo_start).
Definition demo_end : demo_site := default demo_start (play route later_calls demo_mid).

Definition body_of (s : demo_site) (i : nat) : option string :=
  '(_, p) ← threads s !! i;
  match p with Ret (Some x) => Some (string_of (rBody x)) | _ => None end.

Example demo_bodies :
  body_of demo_end <$> [0; 1; 2; 3; 4]%nat =
    [Some (Encode (mkRange 301 400)); Some ""; Some "ID Generator Service is running."; Some (Encode (mkRange 1 100));
     Some (Encode (mkRange 501 600))].
Proof. vm_compute. reflexivity. Qed.

Definition read_at (s : demo_site) (svc : string) (i : nat) : option IDRange :=
  '(r, p) ← threads s !! i;
  match p with Ret (Some y) => reads collate svc r y | _ => None end.
Lemma read_answered s svc i x : read_at s svc i = Some x → answered s svc i x.
Proof.
  unfold read_at, answered. destruct (threads s !! i) as [[r p]|]; [|done]. cbn.
  destruct p as [[y|]| | | | |]; try done. intros E. by exists r, y.
Qed.

Lemma played body (es : list (event Request)) (s : demo_site) :
  is_Some (play body es s) → rtc (sys_step body) s (default s (play body es s)).
Proof. intros [s' E]. rewrite E. by eapply range_play_steps. Qed.

Lemma clients_read_disjoint_ranges_witness :
  answered demo_mid "orders" 0 (mkRange 301 400) ∧ answered demo_end "orders" 4 (mkRange 501 600) ∧ 400 < 501.
Proof.
  assert (answered demo_mid "orders" 0 (mkRange 301 400)) as H0.
  { apply read_answered. vm_compute. reflexivity. }
  assert (answered demo_end "orders" 4 (mkRange 501 600)) as H4.
  { apply read_answered. vm_compute. reflexivity. }
  split; [done|]. split; [done|].
  destruct (clients_read_disjoint_ranges demo_store demo_mid demo_end "orders") as (_ & _ & _ & Ho).
  - reflexivity.
  - reflexivity.
  - apply played. vm_compute. by eexists.
  - apply (played route later_calls demo_mid). vm_compute. by eexists.
  - vm_compute. discriminate.
  - vm_compute. reflexivity.
  - apply (Ho 0%nat 4%nat (mkRange 301 400) (mkRange 501 600) H0); [vm_compute; lia|exact H4].
Defined.
End RangeServer.
