(* ===== verification/UuidTable.v ===== *)
(** [id-generators/uuid-mysql/main.go]: loops of INSERTs under random identifiers and under
    consecutive ones.  The database, the generator of UUIDs and the random numbers are
    parameters; hex.EncodeToString is modelled. *)

From Stdlib Require Import ZArith Lia Ascii String.
From stdpp Require Import gmap strings list list_numbers fin_maps.
From coqutil Require Byte Word.LittleEndianList.
From S2P Require Import Prelude GoLib.

Module UuidTable.

(** * encoding/hex *)

Definition hextable : list ascii := list_ascii_of_string "0123456789abcdef".
Definition hex_digit (v : Z) : ascii := default "000"%char (hextable !! Z.to_nat v).

(** [hex.EncodeToString]. *)
Fixpoint EncodeToString (b : bytes) : string :=
  match b with
  | [] => ""
  | v :: b =>
      let v := Byte.byte.unsigned v in
      String (hex_digit (Z.shiftr v 4)) (String (hex_digit (Z.land v 15)) (EncodeToString b))
  end.

(** Reading it back. *)
Definition hex_value (c : ascii) : option Z :=
  (λ x : nat * ascii, Z.of_nat x.1) <$> list_find (λ x, x = c) hextable.
Fixpoint decode (s : string) : option bytes :=
  match s with
  | EmptyString => Some []
  | String h (String l s) =>
      h ← hex_value h; l ← hex_value l; b ← decode s;
      Some (Byte.byte.of_Z (16 * h + l) :: b)
  | _ => None
  end.

Lemma decode_encode b : decode (EncodeToString b) = Some b.
Proof.
  induction b as [|v b IH]; [done|]. cbn [EncodeToString decode]. rewrite IH.
  destruct v; vm_compute; reflexivity.
Qed.

#[export] Instance EncodeToString_Inj : Inj (=) (=) EncodeToString.
Proof. intros b b' E%(f_equal decode). rewrite !decode_encode in E. by injection E. Qed.

Lemma length_encode b : String.length (EncodeToString b) = (2 * length b)%nat.
Proof. induction b as [|v b IH]; cbn; [done|]. rewrite IH. lia. Qed.

(** * The machine *)

(** An argument of a statement. *)
Inductive value := Text (s : string) | Int (n : Z).

(** The statements that the database is relied on for. *)
Definition sql_uuid : string := "INSERT INTO uuid_demo(id, age) VALUES(?, ?);".
Definition sql_int : string := "INSERT INTO int_demo(id, age) VALUES(?, ?);".

(** [uuid.New()], [rand.Intn(n)] and [db.Exec]. *)
Class Machine (W : Type) := {
  New : M W bytes;
  Intn : Z → M W Z;
  Exec : string → list value → M W unit;
}.

(** A row put under a key that was free. *)
Definition inserted {K} `{Countable K} (k : K) (age : Z) (m m' : gmap K Z) : Prop :=
  m !! k = None ∧ m' = <[k := age]> m.

(** What is documented of them, for the tables of the README: uuid_demo(id VARCHAR(32)
    PRIMARY KEY, age INT), int_demo(id INT PRIMARY KEY, age INT).  A call that fails
    did nothing, or its reply was lost; an id that is there is refused.  Of a text that is
    too long for its column nothing is said. *)
Class MachineLaws (W : Type) `{Machine W} := {
  uuid_demo : W → gmap string Z;
  int_demo : W → gmap Z Z;
  new_law w r w' : New w = (r, w') →
    uuid_demo w' = uuid_demo w ∧ int_demo w' = int_demo w ∧
    match r with Ok id => length id = 16%nat | Panic _ => True | _ => False end;
  intn_law n w r w' : 0 < n → Intn n w = (r, w') →
    uuid_demo w' = uuid_demo w ∧ int_demo w' = int_demo w ∧ ∃ a, r = Ok a ∧ 0 ≤ a < n;
  uuid_law id age w r w' : (String.length id ≤ 32)%nat → - 2 ^ 31 ≤ age < 2 ^ 31 →
    Exec sql_uuid [Text id; Int age] w = (r, w') →
    int_demo w' = int_demo w ∧
    match r with
    | Ok _ => inserted id age (uuid_demo w) (uuid_demo w')
    | Err _ => uuid_demo w' = uuid_demo w ∨ inserted id age (uuid_demo w) (uuid_demo w')
    | _ => False
    end;
  int_law id age w r w' : - 2 ^ 31 ≤ id < 2 ^ 31 → - 2 ^ 31 ≤ age < 2 ^ 31 →
    Exec sql_int [Int id; Int age] w = (r, w') →
    uuid_demo w' = uuid_demo w ∧
    match r with
    | Ok _ => inserted id age (int_demo w) (int_demo w')
    | Err _ => int_demo w' = int_demo w ∨ inserted id age (int_demo w) (int_demo w')
    | _ => False
    end;
}.

(** * The program *)

(** The statements that are sent. *)
Definition uuid_insert : string := "INSERT INTO uuid_demo(id, age) VALUES(?, ?);".
Definition int_insert : string := "INSERT INTO int_demo(id, age) VALUES(?, ?);".

Section program.
Context `{Machine W}.

Fixpoint for_each {A} (body : A → M W unit) (l : list A) : M W unit :=
  match l with
  | [] => ret ()
  | x :: l => do! body x in for_each body l
  end.

(** [if err != nil { log.Fatalf(...) }]. *)
Definition or_fatal (m : M W unit) (msg : string) : M W unit :=
  let! err := attempt m in
  match err with inr _ => panic msg | inl _ => ret () end.

Definition uuid_entry : M W unit :=
  let! id := New in
  let hexString := EncodeToString id in
  let! age := Intn 100 in
  or_fatal (Exec uuid_insert [Text hexString; Int age])
    "Some error occurred while trying to insert values into UUID table".

Definition int_entry (i : Z) : M W unit :=
  let! age := Intn 100 in
  or_fatal (Exec int_insert [Int i; Int age])
    "Some error occurred while trying to insert values into UUID table".

(** The loops are [for range 1000000] and [for i := range 1000000]. *)
Definition entries : Z := 1000000.
Definition insert_uuids (n : Z) : M W unit := for_each (λ _, uuid_entry) (seqZ 0 n).
Definition insert_ints (n : Z) : M W unit := for_each int_entry (seqZ 0 n).
Definition insertEntriesIntoUUIDBasedTable : M W unit := insert_uuids entries.
Definition insertEntriesIntoIntegerTable : M W unit := insert_ints entries.
Definition main : M W unit := insertEntriesIntoUUIDBasedTable.
End program.

(** * One entry *)

Section laws.
Context `{MachineLaws W}.
Implicit Types w : W.

(** An entry inserts a row, or is fatal and has inserted one or none. *)
Definition entry_spec {K} `{Countable K} (key : K → Prop) (m : gmap K Z) (r : outcome unit)
    (m' : gmap K Z) : Prop :=
  match r with
  | Ok _ => ∃ k a, key k ∧ 0 ≤ a < 100 ∧ inserted k a m m'
  | Panic _ => m' = m ∨ ∃ k a, key k ∧ 0 ≤ a < 100 ∧ inserted k a m m'
  | _ => False
  end.

(** The name of a UUID. *)
Definition uuid_key (k : string) : Prop := ∃ id, length id = 16%nat ∧ k = EncodeToString id.

Lemma or_fatal_cases (m : M W unit) msg w r w' :
  or_fatal m msg w = (r, w') →
  ∃ r0, m w = (r0, w') ∧ match r0 with Ok _ => r = Ok () | Err _ => r = Panic msg
                                     | Panic why => r = Panic why | NoFuel => r = NoFuel end.
Proof.
  unfold or_fatal, bind, attempt. destruct (m w) as [[[]|e|why|] w1]; intros [= <- <-]; by eexists.
Qed.

(** The end of an entry: the row goes in, or the error is fatal. *)
Lemma exec_entry {K} `{Countable K} (key : K → Prop) (table : W → gmap K Z) k a (m : M W unit) msg w r w' :
  key k → 0 ≤ a < 100 →
  (∀ r0 w1, m w = (r0, w1) →
     match r0 with
     | Ok _ => inserted k a (table w) (table w1)
     | Err _ => table w1 = table w ∨ inserted k a (table w) (table w1)
     | _ => False
     end) →
  or_fatal m msg w = (r, w') → entry_spec key (table w) r (table w').
Proof.
  intros Hk Ha Hm (r0 & E & Hr)%or_fatal_cases. specialize (Hm _ _ E).
  destruct r0 as [[]|e|why|]; [| |done..]; subst r; cbn.
  - by exists k, a.
  - destruct Hm as [?|?]; [by left|right]. by exists k, a.
Qed.

Lemma uuid_entry_spec w r w' :
  uuid_entry w = (r, w') → int_demo w' = int_demo w ∧ entry_spec uuid_key (uuid_demo w) r (uuid_demo w').
Proof.
  unfold uuid_entry, bind. destruct (New w) as [r1 w1] eqn:En.
  destruct (new_law _ _ _ En) as (Hu1 & Hi1 & Hid). destruct r1 as [id|e|why|]; [|done| |done].
  2:{ intros [= <- <-]. split; [done|]. by left. }
  destruct (Intn 100 w1) as [r2 w2] eqn:Ei.
  destruct (intn_law 100 _ _ _ ltac:(lia) Ei) as (Hu2 & Hi2 & a & -> & Ha). intros E.
  assert (∀ r0 w3, Exec uuid_insert [Text (EncodeToString id); Int a] w2 = (r0, w3) → _) as Hlaw
    by (intros r0 w3; apply (uuid_law (EncodeToString id) a w2 r0 w3); [rewrite length_encode; lia|lia]).
  rewrite <-Hi1, <-Hi2, <-Hu1, <-Hu2. split.
  - apply or_fatal_cases in E as (r0 & E & _). by apply Hlaw in E as [? _].
  - eapply (exec_entry uuid_key uuid_demo (EncodeToString id) a); [by exists id|done| |exact E].
    intros r0 w3 E3. by apply Hlaw in E3 as [_ ?].
Qed.

Lemma int_entry_spec i w r w' :
  0 ≤ i < 2 ^ 31 → int_entry i w = (r, w') →
  uuid_demo w' = uuid_demo w ∧ entry_spec (eq i) (int_demo w) r (int_demo w').
Proof.
  intros Hi. unfold int_entry, bind. destruct (Intn 100 w) as [r2 w2] eqn:Ei.
  destruct (intn_law 100 _ _ _ ltac:(lia) Ei) as (Hu2 & Hi2 & a & -> & Ha). intros E.
  assert (∀ r0 w3, Exec int_insert [Int i; Int a] w2 = (r0, w3) → _) as Hlaw
    by (intros r0 w3; apply (int_law i a w2 r0 w3); lia).
  rewrite <-Hi2, <-Hu2. split.
  - apply or_fatal_cases in E as (r0 & E & _). by apply Hlaw in E as [? _].
  - eapply (exec_entry (eq i) int_demo i a); [done|done| |exact E].
    intros r0 w3 E3. by apply Hlaw in E3 as [_ ?].
Qed.

(** * The loops *)

(** [ks]: rows under free keys, one for each element of [l]. *)
Record rows_for {A K} `{Countable K} (key : A → K → Prop) (l : list A) (ks : list (K * Z))
    (m m' : gmap K Z) : Prop := {
  rf_keys : Forall2 (λ x k, key x k.1 ∧ 0 ≤ k.2 < 100) l ks;
  rf_distinct : NoDup ks.*1;
  rf_new k : k ∈ ks.*1 → m !! k = None;
  rf_table : m' = list_to_map ks ∪ m;
}.

Lemma rows_for_nil {A K} `{Countable K} (key : A → K → Prop) m : rows_for key [] [] m m.
Proof.
  split; [done|apply NoDup_nil_2|by intros k ?%not_elem_of_nil|].
  by rewrite list_to_map_nil, (left_id_L ∅ (∪)).
Qed.

Lemma rows_for_cons {A K} `{Countable K} (key : A → K → Prop) x l k a ks m m1 m' :
  key x k → 0 ≤ a < 100 → inserted k a m m1 → rows_for key l ks m1 m' →
  rows_for key (x :: l) ((k, a) :: ks) m m'.
Proof.
  intros Hx Ha [Hk ->] [Hks Hnd Hnew ->].
  assert (k ∉ ks.*1) as Hni by (intros Hin%Hnew; by rewrite lookup_insert_eq in Hin).
  split.
  - by apply Forall2_cons.
  - csimpl. by apply NoDup_cons.
  - csimpl. intros k' [->|Hk']%elem_of_cons; [done|].
    pose proof (Hnew k' Hk') as E. apply lookup_insert_None in E. tauto.
  - rewrite list_to_map_cons. rewrite <-insert_union_l. rewrite insert_union_r; [done|].
    by apply not_elem_of_list_to_map_1.
Qed.

(** A loop that ends has put a row for each element; one that is fatal for the first few. *)
Lemma for_each_spec {A K} `{Countable K} (key : A → K → Prop) (table : W → gmap K Z)
    (body : A → M W unit) l w r w' :
  (∀ x w r w', x ∈ l → body x w = (r, w') → entry_spec (key x) (table w) r (table w')) →
  for_each body l w = (r, w') →
  ∃ j ks, rows_for key (take j l) ks (table w) (table w') ∧
    match r with Ok _ => j = length l | Panic _ => (j ≤ length l)%nat | _ => False end.
Proof.
  intros Hb. revert w. induction l as [|x l IH]; intros w; cbn [for_each].
  { intros [= <- <-]. exists 0%nat, []. split; [apply rows_for_nil|done]. }
  unfold bind. destruct (body x w) as [r1 w1] eqn:E.
  pose proof (Hb x _ _ _ (list_elem_of_here _ _) E) as He. destruct r1 as [u|e|why|]; [|done| |done].
  - destruct He as (k & a & Hk & Ha & Hin). intros E'.
    destruct (IH ltac:(intros; eapply Hb; [by right|done]) w1 E') as (j & ks & Hr & Hj).
    exists (S j), ((k, a) :: ks). split; [cbn; by eapply rows_for_cons|].
    destruct r; cbn; [congruence|done|lia|done].
  - intros [= <- <-]. destruct He as [->|(k & a & Hk & Ha & Hin)].
    + exists 0%nat, []. split; [apply rows_for_nil|cbn; lia].
    + exists 1%nat, [(k, a)]. split; [|cbn; lia]. cbn [take]. rewrite take_0.
      eapply rows_for_cons; [done..|]. apply rows_for_nil.
Qed.

Lemma rows_for_length {A K} `{Countable K} (key : A → K → Prop) l ks m m' :
  rows_for key l ks m m' → length ks = length l.
Proof. intros [Hf _ _ _]. symmetry. by eapply Forall2_length. Qed.

Lemma rows_for_size {A K} `{Countable K} (key : A → K → Prop) l ks m m' :
  rows_for key l ks m m' → size m' = (length l + size m)%nat.
Proof.
  intros Hr. rewrite <-(rows_for_length _ _ _ _ _ Hr). destruct Hr as [_ Hnd Hnew ->].
  rewrite map_size_disj_union.
  - by rewrite map_size_list_to_map.
  - apply map_disjoint_spec. intros k a b Ha Hb. apply elem_of_list_to_map_2 in Ha.
    rewrite Hnew in Hb; [done|]. apply list_elem_of_fmap. by exists (k, a).
Qed.
End laws.

(** * What the program promises *)

Section theorems.
Context `{MachineLaws W}.

(** The text of a UUID fills its column, and different UUIDs have different texts. *)
Lemma uuid_key_fits k : uuid_key k → String.length k = 32%nat ∧ ∃ id, decode k = Some id ∧ length id = 16%nat.
Proof.
  intros (id & Hid & ->). split; [rewrite length_encode; lia|]. exists id. by rewrite decode_encode.
Qed.

(** A loop that ends with a panic: some rounds, and one that panics. *)
Lemma for_each_panic {A} (body : A → M W unit) l w why w' :
  for_each body l w = (Panic why, w') →
  ∃ l1 x l2 w1, l = l1 ++ x :: l2 ∧ for_each body l1 w = (Ok (), w1) ∧ body x w1 = (Panic why, w').
Proof.
  revert w. induction l as [|x l IH]; intros w; cbn [for_each]; [done|]. unfold bind.
  destruct (body x w) as [r1 w1] eqn:E. destruct r1 as [[]|e|why1|]; [|done| |done].
  - intros (l1 & y & l2 & w2 & -> & E1 & E2)%IH. exists (x :: l1), y, l2, w2. split; [done|]. split; [|done].
    cbn [for_each]. unfold bind. by rewrite E.
  - intros [= <- <-]. by exists [], x, l, w.
Qed.

(** The rows after a loop over UUIDs. *)
Lemma insert_uuids_spec l w r w' :
  for_each (λ _ : Z, uuid_entry) l w = (r, w') →
  int_demo w' = int_demo w ∧ uuid_demo w ⊆ uuid_demo w' ∧
  (∀ k a, uuid_demo w' !! k = Some a → uuid_demo w !! k = None →
     0 ≤ a < 100 ∧ String.length k = 32%nat ∧ ∃ id, decode k = Some id ∧ length id = 16%nat) ∧
  match r with
  | Ok _ => size (uuid_demo w') = (length l + size (uuid_demo w))%nat
  | Panic _ => True
  | _ => False
  end.
Proof.
  intros E. assert (int_demo w' = int_demo w) as Hint.
  { revert w E. induction l as [|x l IH]; intros w; cbn [for_each]; [by intros [= _ <-]|]. unfold bind.
    destruct (uuid_entry w) as [r1 w1] eqn:E. apply uuid_entry_spec in E as [Hi _].
    destruct r1; [intros E'%IH; by rewrite E'|by intros [= _ <-]..]. }
  split; [done|].
  destruct (for_each_spec (λ _, uuid_key) uuid_demo _ _ _ _ _
    ltac:(intros x w1 r1 w1' _ E1; by apply uuid_entry_spec in E1 as [_ ?]) E) as (j & ks & Hr & Hj).
  pose proof (rows_for_size _ _ _ _ _ Hr) as Hs. rewrite length_take in Hs. split_and!.
  - rewrite (rf_table _ _ _ _ _ Hr). apply map_union_subseteq_r. apply map_disjoint_spec.
    intros k a b Ha%elem_of_list_to_map_2 Hb.
    rewrite (rf_new _ _ _ _ _ Hr) in Hb; [done|]. apply list_elem_of_fmap. by exists (k, a).
  - intros k a Hk Hk'. rewrite (rf_table _ _ _ _ _ Hr) in Hk. rewrite lookup_union_l in Hk by done.
    apply elem_of_list_to_map_2 in Hk. pose proof (rf_keys _ _ _ _ _ Hr) as Hf.
    apply list_elem_of_lookup in Hk as [i Hi]. destruct (Forall2_lookup_r _ _ _ _ _ Hf Hi) as (x & _ & Hkey & Ha).
    cbn in *. split; [done|]. by apply uuid_key_fits.
  - destruct r; [subst j|done..]. lia.
Qed.

(** C30: The loop over the UUIDs puts one row for each round under a new identifier of exactly 32
    characters, from which the UUID can be read back, and leaves the rows that were there.
    When it is cut short, some rounds were complete and the next one panicked: a row for each
    of the complete ones is there, and perhaps that of the last. *)
Theorem uuid_rows n w r w' :
  0 ≤ n → insert_uuids n w = (r, w') →
  int_demo w' = int_demo w ∧ uuid_demo w ⊆ uuid_demo w' ∧
  (∀ k a, uuid_demo w' !! k = Some a → uuid_demo w !! k = None →
     0 ≤ a < 100 ∧ String.length k = 32%nat ∧ ∃ id, decode k = Some id ∧ length id = 16%nat) ∧
  match r with
  | Ok _ => Z.of_nat (size (uuid_demo w')) = n + Z.of_nat (size (uuid_demo w))
  | Panic why => ∃ j w1, 0 ≤ j < n ∧ insert_uuids j w = (Ok (), w1) ∧ uuid_entry w1 = (Panic why, w') ∧
      Z.of_nat (size (uuid_demo w1)) = j + Z.of_nat (size (uuid_demo w)) ∧ uuid_demo w1 ⊆ uuid_demo w' ∧
      (uuid_demo w' = uuid_demo w1 ∨ size (uuid_demo w') = S (size (uuid_demo w1)))
  | _ => False
  end.
Proof.
  intros Hn E. destruct (insert_uuids_spec _ _ _ _ E) as (H1 & H2 & H3 & H4). do 3 (split; [done|]).
  destruct r as [u|e|why|]; [|done| |done].
  - rewrite H4, length_seqZ. lia.
  - apply for_each_panic in E as (l1 & x & l2 & w1 & El & E1 & E2).
    pose proof (f_equal length El) as Hlen. rewrite length_app, length_seqZ in Hlen. cbn in Hlen.
    assert (l1 = seqZ 0 (Z.of_nat (length l1))) as El1.
    { replace n with (Z.of_nat (length l1) + (n - Z.of_nat (length l1))) in El by lia.
      rewrite seqZ_app in El by lia. apply app_inj_1 in El as [El _]; [by rewrite El|rewrite length_seqZ; lia]. }
    rewrite El1 in E1. exists (Z.of_nat (length l1)), w1. split; [lia|]. split; [exact E1|]. split; [exact E2|].
    destruct (insert_uuids_spec _ _ _ _ E1) as (_ & _ & _ & Hs). rewrite length_seqZ in Hs. split; [lia|].
    apply uuid_entry_spec in E2 as [_ [->|(k & a & _ & _ & Hk & ->)]]; [split; [done|by left]|].
    split; [by apply insert_subseteq|right]. by rewrite map_size_insert_None.
Qed.

Lemma insert_ints_spec n w r w' :
  0 ≤ n ≤ 2 ^ 31 → insert_ints n w = (r, w') →
  ∃ j ks, rows_for eq (take j (seqZ 0 n)) ks (int_demo w) (int_demo w') ∧
    match r with Ok _ => j = Z.to_nat n | Panic _ => (j ≤ Z.to_nat n)%nat | _ => False end.
Proof.
  intros Hn E.
  destruct (for_each_spec (λ (x : Z) k, x = k) int_demo int_entry (seqZ 0 n) w r w') as (j & ks & Hr & Hj);
    [|exact E|].
  - intros x w1 r1 w1' Hx%elem_of_seqZ E1. by apply int_entry_spec in E1 as [_ ?]; [|lia].
  - rewrite length_seqZ in Hj. by exists j, ks.
Qed.

(** The rows of the integers below a bound. *)
Lemma rows_for_ints n ks m m' i :
  rows_for eq (seqZ 0 n) ks m m' → 0 ≤ i < n → m !! i = None ∧ ∃ a, m' !! i = Some a ∧ 0 ≤ a < 100.
Proof.
  intros [Hf Hnd Hnew ->] Hi. assert (seqZ 0 n !! Z.to_nat i = Some i) as Hl.
  { apply lookup_seqZ. lia. }
  destruct (Forall2_lookup_l _ _ _ _ _ Hf Hl) as ([k a] & Hk & Hik & Ha). cbn in Hik, Ha. subst k.
  assert ((i, a) ∈ ks) as Hin by by eapply list_elem_of_lookup_2.
  split; [apply Hnew; apply list_elem_of_fmap; by exists (i, a)|].
  exists a. split; [|done]. apply lookup_union_Some_l. by apply elem_of_list_to_map_1.
Qed.

(** The loop over the integers puts the rows 0 to n - 1, which must be new: a second run ends
    with a fatal error and leaves the table as it is. *)
Theorem int_rows_once n w w1 :
  0 < n ≤ 2 ^ 31 → insert_ints n w = (Ok (), w1) →
  (∀ i, 0 ≤ i < n → int_demo w !! i = None ∧ ∃ a, int_demo w1 !! i = Some a ∧ 0 ≤ a < 100) ∧
  (∀ i, ¬ 0 ≤ i < n → int_demo w1 !! i = int_demo w !! i) ∧
  (∀ r w2, insert_ints n w1 = (r, w2) → (∃ why, r = Panic why) ∧ int_demo w2 = int_demo w1).
Proof.
  intros Hn E. destruct (insert_ints_spec n w _ w1 ltac:(lia) E) as (j & ks & Hr & ->).
  assert (take (Z.to_nat n) (seqZ 0 n) = seqZ 0 n) as Ht by (apply take_ge; rewrite length_seqZ; lia).
  rewrite Ht in Hr. split; [by intros i; eapply rows_for_ints|]. split.
  - intros i Hi. destruct Hr as [Hf _ _ ->]. apply lookup_union_r. apply not_elem_of_list_to_map_1.
    intros ([k a] & -> & Hk)%list_elem_of_fmap. apply list_elem_of_lookup in Hk as [x Hx].
    destruct (Forall2_lookup_r _ _ _ _ _ Hf Hx) as (y & Hy & Hyk & _). cbn in Hi, Hyk. subst y.
    apply lookup_seqZ in Hy. lia.
  - intros r w2 E2. destruct (insert_ints_spec n w1 r w2 ltac:(lia) E2) as (j & ks2 & Hr2 & Hj).
    assert (j = 0%nat) as ->.
    { destruct j as [|j]; [done|]. exfalso. rewrite (seqZ_cons 0 n) in Hr2 by lia. cbn [take] in Hr2.
      destruct Hr2 as [Hf _ Hnew _]. apply Forall2_cons_inv_l in Hf as ([k a] & ks' & [Hk _] & _ & ->). cbn in Hk. subst k.
      destruct (rows_for_ints n ks _ _ 0 Hr ltac:(lia)) as [_ (a' & Ha' & _)].
      rewrite (Hnew 0) in Ha'; [done|]. left. }
    rewrite take_0 in Hr2. pose proof (rows_for_length _ _ _ _ _ Hr2) as Hl. destruct ks2; [|done].
    rewrite (rf_table _ _ _ _ _ Hr2), list_to_map_nil, (left_id_L ∅ (∪)).
    split; [|done]. destruct r; [lia|done|by eexists|done].
Qed.
End theorems.

(** * A machine *)

(** UUIDs by counting, ages by the calendar. *)
Record host := mkHost { u_rows : gmap string Z; i_rows : gmap Z Z; clock : Z }.

Definition errDuplicate : goerr := ErrNew "Error 1062: Duplicate entry".
Definition host_exec (query : string) (args : list value) : M host unit := λ w,
  match args with
  | [Text id; Int age] =>
      if decide (query = sql_uuid ∧ u_rows w !! id = None)
      then (Ok (), mkHost (<[id := age]> (u_rows w)) (i_rows w) (clock w)) else (Err errDuplicate, w)
  | [Int id; Int age] =>
      if decide (query = sql_int ∧ i_rows w !! id = None)
      then (Ok (), mkHost (u_rows w) (<[id := age]> (i_rows w)) (clock w)) else (Err errDuplicate, w)
  | _ => (Err errDuplicate, w)
  end.

#[export] Instance host_machine : Machine host := {
  New := λ w, (Ok (LittleEndianList.le_split 16 (clock w)), mkHost (u_rows w) (i_rows w) (clock w + 1));
  Intn n := λ w, (Ok (clock w mod n), mkHost (u_rows w) (i_rows w) (clock w + 1));
  Exec := host_exec;
}.

#[export] Program Instance host_laws : MachineLaws host := { uuid_demo := u_rows; int_demo := i_rows }.
Next Obligation.
  intros w r w' [= <- <-]. split_and!; [done..|]. apply LittleEndianList.length_le_split.
Qed.
Next Obligation.
  intros n w r w' Hn [= <- <-]. split_and!; [done..|]. eexists. split; [reflexivity|].
  by apply Z.mod_pos_bound.
Qed.
Next Obligation.
  intros id age w r w' _ _. cbn [Exec host_machine host_exec].
  case_decide as Hc; intros [= <- <-]; (split; [done|]); [by destruct Hc|by left].
Qed.
Next Obligation.
  intros id age w r w' _ _. cbn [Exec host_machine host_exec].
  case_decide as Hc; intros [= <- <-]; (split; [done|]); [by destruct Hc|by left].
Qed.

Definition new_host : host := mkHost ∅ ∅ 0.

Lemma uuid_rows_witness : Z.of_nat (size (u_rows (insert_uuids 5 new_host).2)) = 5.
Proof.
  assert (insert_uuids 5 new_host = (Ok (), (insert_uuids 5 new_host).2)) as E by (vm_compute; reflexivity).
  revert E. generalize (insert_uuids 5 new_host).2. intros w E.
  exact (proj2 (proj2 (proj2 (uuid_rows (W := host) 5 new_host (Ok ()) w ltac:(lia) E)))).
Defined.

Lemma int_rows_once_witness : i_rows (insert_ints 5 new_host).2 !! 7 = None.
Proof.
  assert (insert_ints 5 new_host = (Ok (), (insert_ints 5 new_host).2)) as E by (vm_compute; reflexivity).
  revert E. generalize (insert_ints 5 new_host).2. intros w E.
  exact (proj1 (proj2 (int_rows_once (W := host) 5 new_host w ltac:(lia) E)) 7 ltac:(lia)).
Defined.

End UuidTable.
