(* ===== verification/Dynamo.v ===== *)
(** [relational-db/dynamo-db-implementation/dynamo/]: DynamoDB's table operations on top of
    SQL.  The code builds the statements and their arguments; the database behind
    [database/sql] is a parameter. *)

From Stdlib Require Import ZArith Lia Ascii String.
From stdpp Require Import gmap strings list fin_maps.
From S2P Require Import Prelude GoLib.

Module Dynamo.

(** * Package strings *)

(** [strings.Join(l, sep)]. *)
Fixpoint join (sep : string) (l : list string) : string :=
  match l with
  | [] => ""
  | [s] => s
  | s :: l => s +:+ sep +:+ join sep l
  end.

(** [strings.Split(s, ",")]: at least one part. *)
Fixpoint split (c : ascii) (s : string) : list string :=
  match s with
  | EmptyString => [EmptyString]
  | String x s =>
      if Ascii.eqb x c then EmptyString :: split c s
      else match split c s with
           | [] => [String x EmptyString]
           | p :: ps => String x p :: ps
           end
  end.

(** * Data: types.go *)

(** A value of type [interface{}]: nil, a string, a pointer to a string (with the text, the
    address in it, that "%s" prints), or anything else, of which only that text matters. *)
Inductive iface := INil | IStr (s : string) | IPtr (text s : string) | IOther (text : string).
#[export] Instance iface_eq_dec : EqDecision iface.
Proof. solve_decision. Defined.

Definition sprint (v : iface) : string :=
  match v with INil => "%!s(<nil>)" | IStr s | IPtr s _ | IOther s => s end.

Record KeyAttributes := mkKeys { PartitionKey : string; SortKey : iface }.
Record LocalSecondaryIndex := mkLSI { IndexName : string; LSISortKey : string }.
Record DynamoDBTableAttributes := mkAttrs {
  TableName : string;
  Keys : KeyAttributes;
  LSIs : list LocalSecondaryIndex;
}.

Record CreateTableInput := mkCreate {
  ct_TableName : string;
  ct_Attributes : list string;
  ct_Keys : KeyAttributes;
  ct_LSIs : list LocalSecondaryIndex;
}.
Record PutItemInput := mkPut {
  pi_TableName : string;
  pi_KeyAttributes : gmap string string;
  pi_Values : gmap string string;
}.
Record GetItemInput := mkGet {
  gi_TableName : string;
  gi_PartitionKey : string;
  gi_SortKey : iface;
  gi_ProjectionExpression : string;
}.
Record QueryInput := mkQuery {
  q_TableName : string;
  q_KeyConditionExpression : string;
  q_KeyValues : gmap string string;
  q_ProjectionExpression : string;
  q_ScanIndexForward : bool;
  q_IndexName : iface;
}.

(** [map[string]string], indexed: the empty string for an absent key. *)
Definition at_key (m : gmap string string) (k : string) : string := default "" (m !! k).

(** * The database *)

(** A row as [sql.NullString]s; the rows of a query, and the error their iteration
    ended with, if any. *)
Abbreviation row := (list (option string)).
Class SqlDriver (D : Type) := {
  exec : string → list iface → D → (unit + goerr) * D;
  query : string → list iface → D → ((list row * option goerr) + goerr) * D;
}.

Record DynamoDB (D : Type) := mkDynamo {
  dbConn : D;
  tableAttributes : gmap string DynamoDBTableAttributes;
}.
Arguments mkDynamo {D}. Arguments dbConn {D}. Arguments tableAttributes {D}.

Section operations.
Context `{SqlDriver D} `{MapRange}.
Abbreviation M := (M (DynamoDB D)).

Definition on_db {A} (f : D → (A + goerr) * D) : M A := λ s,
  let '(r, d) := f (dbConn s) in
  (match r with inl a => Ok a | inr e => Err e end, mkDynamo d (tableAttributes s)).

(** [v.(string)]. *)
Definition as_string (v : iface) : M string :=
  match v with IStr s => ret s | _ => panic "interface conversion" end.

(** [fmt.Errorf]. *)
Definition errorf {A} (msg : string) : M A := fail (ErrNew msg).

(** * CreateTable *)

Definition create_statement (input : CreateTableInput) : string :=
  let tableName := ct_TableName input in
  let partitionKey := PartitionKey (ct_Keys input) in
  let sortKey := SortKey (ct_Keys input) in
  let statement := "CREATE TABLE IF NOT EXISTS " +:+ tableName +:+ " ( " +:+ partitionKey
    +:+ " VARCHAR(255) NOT NULL," in
  let statement :=
    if bool_decide (sortKey = INil) then statement
    else statement +:+ sprint sortKey +:+ " VARCHAR(255) NOT NULL," in
  let statement := fold_left (λ statement attr,
    if negb (bool_decide (attr = partitionKey)) && negb (bool_decide (IStr attr = sortKey))
    then statement +:+ attr +:+ " VARCHAR(255)," else statement) (ct_Attributes input) statement in
  let statement :=
    if bool_decide (sortKey = INil) then statement +:+ " PRIMARY KEY (" +:+ partitionKey +:+ ")"
    else statement +:+ " PRIMARY KEY (" +:+ partitionKey +:+ ", " +:+ sprint sortKey +:+ ")" in
  let statement := fold_left (λ statement lsi,
    statement +:+ ", INDEX " +:+ IndexName lsi +:+ " (" +:+ partitionKey +:+ ", "
      +:+ LSISortKey lsi +:+ ")") (ct_LSIs input) statement in
  statement +:+ ");".

Definition CreateTable (input : CreateTableInput) : M unit :=
  do! on_db (exec (create_statement input) []) in
  modify (λ s, mkDynamo (dbConn s)
    (<[ct_TableName input := mkAttrs (ct_TableName input) (ct_Keys input) (ct_LSIs input)]>
      (tableAttributes s))).

(** * PutItem *)

(** [tableAttributes[tableName]]. *)
Definition attributes (tableName : string) : M DynamoDBTableAttributes :=
  let! s := get_st in
  match tableAttributes s !! tableName with
  | Some attrs => ret attrs
  | None => errorf ("table " +:+ tableName +:+ " does not exist")
  end.

(** The columns and arguments of the INSERT: the keys, then the other values in the
    order of the map. *)
Definition put_pairs (partitionKeyAttr : string) (sortKeyAttr : option string)
    (input : PutItemInput) : list (string * string) :=
  let key k := (k, at_key (pi_KeyAttributes input) k) in
  key partitionKeyAttr ::
  match sortKeyAttr with Some sk => [key sk] | None => [] end ++
  range (pi_Values input).

Definition replace_statement (tableName : string) (columns : list string) : string :=
  "REPLACE INTO " +:+ tableName +:+ " (" +:+ join ", " columns +:+ ") VALUES ("
    +:+ join ", " ((λ _, "?") <$> columns) +:+ ");".

Definition PutItem (input : PutItemInput) : M unit :=
  let tableName := pi_TableName input in
  if String.eqb tableName "" then errorf "table name is required" else
  let! value := attributes tableName in
  let partitionKeyAttr := PartitionKey (Keys value) in
  let sortKeyAttr := SortKey (Keys value) in
  if String.eqb (at_key (pi_KeyAttributes input) partitionKeyAttr) ""
  then errorf ("partition key " +:+ partitionKeyAttr +:+ " is required") else
  let! sk :=
    if bool_decide (sortKeyAttr = INil) then ret None
    else
      let! sk := as_string sortKeyAttr in
      if String.eqb (at_key (pi_KeyAttributes input) sk) ""
      then errorf ("sort key " +:+ sk +:+ " is required for this table") else ret (Some sk) in
  let pairs := put_pairs partitionKeyAttr sk input in
  on_db (exec (replace_statement tableName pairs.*1) (IStr <$> pairs.*2)).

(** * GetItem *)

Definition select_statement (projection tableName partitionKeyAttr : string)
    (sortKeyAttr : iface) : string :=
  let statement := "SELECT " +:+ projection +:+ " FROM " +:+ tableName +:+ " WHERE "
    +:+ partitionKeyAttr +:+ " = ?" in
  if bool_decide (sortKeyAttr = INil) then statement
  else statement +:+ " AND " +:+ sprint sortKeyAttr +:+ " = ?".

(** [row.Scan] into as many values as there are columns. *)
Definition scan (columns : list string) (r : row) : M row :=
  if (length r =? length columns)%nat then ret r
  else errorf "sql: wrong number of destination arguments in Scan".

(** The map made of a row: trimmed column names, the empty string for NULL. *)
Definition item_of (columns : list string) (values : row) : gmap string string :=
  fold_left (λ m cv, <[TrimSpace cv.1 := default "" cv.2]> m) (zip columns values) ∅.

(** The first row, or the error [row.Scan] reports. *)
Definition first_row (columns : list string) (rows : list row) (end_err : option goerr) : M row :=
  match rows, end_err with
  | r :: _, _ => scan columns r
  | [], Some e => fail e
  | [], None => fail ErrNoRows
  end.

Definition GetItem (input : GetItemInput) : M (gmap string string) :=
  if String.eqb (gi_TableName input) "" || String.eqb (gi_PartitionKey input) ""
  then errorf "table name and partition key are required" else
  let tableName := gi_TableName input in
  let! keyAttrs := attributes tableName in
  let partitionKeyAttr := PartitionKey (Keys keyAttrs) in
  let sortKeyAttr := SortKey (Keys keyAttrs) in
  if negb (bool_decide (sortKeyAttr = INil)) && bool_decide (gi_SortKey input = IStr "")
  then errorf ("sort key " +:+ sprint sortKeyAttr +:+ " is required for this table") else
  let args := IStr (gi_PartitionKey input) ::
    if bool_decide (sortKeyAttr = INil) then [] else [gi_SortKey input] in
  let statement := select_statement (gi_ProjectionExpression input) tableName
    partitionKeyAttr sortKeyAttr in
  let! result := attempt (on_db (query statement args)) in
  match result with
  | inr _ => errorf "no rows found"
  | inl (rows, end_err) =>
      let columns := split "," (gi_ProjectionExpression input) in
      let! values := first_row columns rows end_err in
      ret (item_of columns values)
  end.

(** * Query *)

(** The sort key of a local secondary index, the first with the name. *)
Fixpoint find_lsi (name : string) (lsis : list LocalSecondaryIndex) : option string :=
  match lsis with
  | [] => None
  | lsi :: lsis => if String.eqb (IndexName lsi) name then Some (LSISortKey lsi) else find_lsi name lsis
  end.

Definition effectiveSortKey (input : QueryInput) (attrs : DynamoDBTableAttributes) : M string :=
  if negb (bool_decide (q_IndexName input = INil)) && negb (bool_decide (q_IndexName input = IStr ""))
  then
    let! indexNameStr := as_string (q_IndexName input) in
    match find_lsi indexNameStr (LSIs attrs) with
    | Some sk => ret sk
    | None => errorf ("index " +:+ indexNameStr +:+ " does not exist on table "
        +:+ q_TableName input +:+ " (or is not a registered LSI)")
    end
  else if negb (bool_decide (SortKey (Keys attrs) = INil)) then as_string (SortKey (Keys attrs))
  else ret "".

Definition query_statement (input : QueryInput) (sortKey : string) : string :=
  let statement := "SELECT " +:+ q_ProjectionExpression input +:+ " FROM " +:+ q_TableName input
    +:+ " WHERE " +:+ q_KeyConditionExpression input in
  if String.eqb sortKey "" then statement
  else if negb (q_ScanIndexForward input) then statement +:+ " ORDER BY " +:+ sortKey +:+ " DESC"
  else statement +:+ " ORDER BY " +:+ sortKey +:+ " ASC".

(** The arguments: the key values in the order of the map. *)
Definition query_args (input : QueryInput) : list iface := IStr <$> (range (q_KeyValues input)).*2.

(** The loop over the rows. *)
Fixpoint scan_all (columns : list string) (rows : list row) : M (list (gmap string string)) :=
  match rows with
  | [] => ret []
  | r :: rows =>
      let! values := scan columns r in
      let! items := scan_all columns rows in
      ret (item_of columns values :: items)
  end.

(** [rows.Err()] is not looked at. *)
Definition Query (input : QueryInput) : M (list (gmap string string)) :=
  if String.eqb (q_TableName input) "" || String.eqb (q_KeyConditionExpression input) ""
  then errorf "table name and partition key are required" else
  let! attrs := attributes (q_TableName input) in
  let! sortKey := effectiveSortKey input attrs in
  let! result := on_db (query (query_statement input sortKey) (query_args input)) in
  scan_all (split "," (q_ProjectionExpression input)) result.1.
End operations.

(** * Joining and splitting *)

Lemma split_cons_head c s : ∃ p ps, split c s = p :: ps.
Proof.
  induction s as [|x s (p & ps & E)]; simpl; [by eexists _, _|].
  destruct (Ascii.eqb x c); [by eexists _, _|]. rewrite E. by eexists _, _.
Qed.

Lemma split_without c s : without c s → split c s = [s].
Proof.
  induction s as [|x s IH]; [done|]. intros [Hx Hs]. simpl.
  destruct (Ascii.eqb_spec x c); [done|]. by rewrite IH.
Qed.

Lemma split_app c s t : without c s → split c (s +:+ String c t) = s :: split c t.
Proof.
  induction s as [|x s IH]; simpl.
  - intros _. by rewrite Ascii.eqb_refl.
  - intros [Hx Hs]. destruct (Ascii.eqb_spec x c); [done|]. by rewrite IH.
Qed.

(** Splitting undoes joining. *)
Lemma split_join c l : l ≠ [] → Forall (without c) l → split c (join (String c "") l) = l.
Proof.
  intros Hne Hf. induction Hf as [|s l Hs Hf IH]; [done|]. destruct l as [|s' l].
  - by apply split_without.
  - change (join (String c "") (s :: s' :: l)) with (s +:+ String c (join (String c "") (s' :: l))).
    rewrite split_app by done. by rewrite IH.
Qed.

Lemma join_concat sep l : join sep l = String.concat sep l.
Proof.
  induction l as [|s [|s' l] IH]; [done..|].
  change (s +:+ sep +:+ join sep (s' :: l) = s +:+ sep +:+ String.concat sep (s' :: l)). by rewrite IH.
Qed.

End Dynamo.
