(* ===== verification/Sql.v ===== *)
(** The statements of SQL that [relational-db/dynamo-db-implementation/] relies on: their
    abstract syntax, the text that SQL gives to each, and what each does to a database of
    tables with primary keys.  Nothing here mentions the code that builds the statements. *)

From Stdlib Require Import ZArith Lia Ascii String.
From stdpp Require Import gmap strings list fin_maps sorting.
From S2P Require Import Prelude GoLib Dynamo.
Import Dynamo(iface, IStr, IPtr, SqlDriver, exec, query, at_key).

Module Sql.

(** * Statements *)

(** The columns of a table, with NOT NULL or without, all of VARCHAR(255); its primary key; its
    indexes, with their columns. *)
Record schema := mkSchema {
  fields : list (string * bool);
  primary : list string;
  indexes : list (string * list string);
}.
Definition names (s : schema) : list string := (fields s).*1.

(** CREATE TABLE IF NOT EXISTS; REPLACE of one row, its cells as arguments; SELECT of the rows
    in which every condition [column = ?] holds, perhaps ordered by a column, ascending or not. *)
Inductive statement :=
| Create (name : string) (s : schema)
| Replace (name : string) (cols : list string)
| Select (cols : list string) (name : string) (conds : list string) (order : option (string * bool)).

(** Texts one after another, and with separators. *)
Definition cat (l : list string) : string := foldr String.append "" l.
Definition field_text (f : string * bool) : string :=
  f.1 +:+ " VARCHAR(255)" +:+ (if f.2 then " NOT NULL," else ",").
Definition index_text (i : string * list string) : string :=
  ", INDEX " +:+ i.1 +:+ " (" +:+ String.concat ", " i.2 +:+ ")".
Definition order_text (o : option (string * bool)) : string :=
  match o with None => "" | Some (c, asc) => " ORDER BY " +:+ c +:+ (if asc then " ASC" else " DESC") end.
Definition condition (c : string) : string := c +:+ " = ?".

Definition text (q : statement) : string :=
  match q with
  | Create n s =>
      "CREATE TABLE IF NOT EXISTS " +:+ n +:+ " ( " +:+ cat (field_text <$> fields s)
        +:+ " PRIMARY KEY (" +:+ String.concat ", " (primary s) +:+ ")" +:+ cat (index_text <$> indexes s) +:+ ");"
  | Replace n cols =>
      "REPLACE INTO " +:+ n +:+ " (" +:+ String.concat ", " cols +:+ ") VALUES ("
        +:+ String.concat ", " (replicate (length cols) "?"%string) +:+ ");"
  | Select cols n conds order =>
      "SELECT " +:+ String.concat "," cols +:+ " FROM " +:+ n +:+ " WHERE "
        +:+ String.concat " AND " (condition <$> conds) +:+ order_text order
  end.

(** * Tables *)

(** A row, by its columns; a NULL is absent.  A table, by the collated primary keys. *)
Abbreviation item := (gmap string string).
Abbreviation table := (gmap (list string) item).

(** What database/sql documents of the arguments of a statement: a pointer stands for what it
    points to. *)
Definition deref (v : iface) : iface := match v with IPtr _ s => IStr s | v => v end.

Section collation.
Context (collate : string → string) (str_le : string → string → Prop).

(** [column = v] holds: the cell is not NULL, and the same for the collation. *)
Definition cell_is (x : item) (cv : string * string) : Prop :=
  match x !! cv.1 with Some w => collate w = collate cv.2 | None => False end.
#[export] Instance cell_is_dec x cv : Decision (cell_is x cv).
Proof. unfold cell_is. destruct (x !! cv.1); solve_decision. Defined.

Definition key_of (primary : list string) (x : item) : list string :=
  (λ c, collate (at_key x c)) <$> primary.

(** Each row is under its key, whose cells are not NULL. *)
Definition keyed (primary : list string) (m : table) : Prop :=
  ∀ k x, m !! k = Some x → k = key_of primary x ∧ ∀ c, c ∈ primary → is_Some (x !! c).

Definition before (order : option (string * bool)) (x y : item) : Prop :=
  match order with
  | None => True
  | Some (c, true) => str_le (at_key x c) (at_key y c)
  | Some (c, false) => str_le (at_key y c) (at_key x c)
  end.

(** The rows that satisfy the conditions, in the order asked for. *)
Definition selection (m : table) (conds : list (string * string)) (order : option (string * bool))
    (l : list item) : Prop :=
  l ≡ₚ (filter (λ kx : list string * item, Forall (cell_is kx.2) conds) (map_to_list m)).*2 ∧
  StronglySorted (before order) l.
End collation.

(** Of a row, the cells of some columns. *)
Definition project (cols : list string) (x : item) : list (option string) := (λ c, x !! c) <$> cols.

(** * What SQL documents *)

(** A SELECT that may be sent to a table: of its columns, each at most once, with conditions on
    its columns and a value for each. *)
Definition askable (s : schema) (cols conds : list string) (order : option (string * bool)) (args : list iface)
    (vs : list string) : Prop :=
  NoDup cols ∧ cols ⊆ names s ∧ cols ≠ [] ∧ conds ⊆ names s ∧ conds ≠ [] ∧
  (∀ c asc, order = Some (c, asc) → c ∈ names s) ∧ length conds = length vs ∧ deref <$> args = IStr <$> vs.

(** [catalog]: the tables that may be created.  Comparisons and orders are those of the
    collation.  A statement may fail; a failed one changes nothing.  The iteration over the rows of a query may break off with an error [e];
    it has then delivered the first of them. *)
Class SqlServer (D : Type) `{SqlDriver D} (catalog : gmap string schema) := {
  collate : string → string;
  str_le : string → string → Prop;
  tables : D → gmap string (schema * table);
  keyed_law d n s m : tables d !! n = Some (s, m) → keyed collate (primary s) m;
  create_law n s d r d' : catalog !! n = Some s → exec (text (Create n s)) [] d = (r, d') →
    tables d' = match r, tables d !! n with
                | inl _, None => <[n := (s, ∅)]> (tables d)
                | _, _ => tables d
                end;
  replace_law n s m cols vs d r d' :
    tables d !! n = Some (s, m) → NoDup cols → cols ⊆ names s → primary s ⊆ cols → length cols = length vs →
    exec (text (Replace n cols)) (IStr <$> vs) d = (r, d') →
    let x := list_to_map (zip cols vs) in
    tables d' = match r with
                | inl _ => <[n := (s, <[key_of collate (primary s) x := x]> m)]> (tables d)
                | inr _ => tables d
                end;
  select_law n s m cols conds order args vs d rows e d' :
    tables d !! n = Some (s, m) → askable s cols conds order args vs →
    query (text (Select cols n conds order)) args d = (inl (rows, e), d') →
    ∃ l, selection collate str_le m (zip conds vs) order l ∧
      rows `prefix_of` (project cols <$> l) ∧ (e = None → rows = project cols <$> l);
  query_law q args d r d' : query q args d = (r, d') → tables d' = tables d;
}.

(** A database that answers every such SELECT, to the last row. *)
Definition reliable `{SqlServer D catalog} : Prop := ∀ n s m cols conds order args vs d,
  tables d !! n = Some (s, m) → askable s cols conds order args vs →
  ∃ rows d', query (text (Select cols n conds order)) args d = (inl (rows, None), d').

(** * A look-up by the primary key *)

Section by_key.
Context (collate : string → string) (str_le : string → string → Prop).

Lemma at_key_Some (x : item) c v : x !! c = Some v → at_key x c = v.
Proof. unfold at_key. by intros ->. Qed.

Lemma cells_key (x : item) primary key :
  (∀ c, c ∈ primary → is_Some (x !! c)) → length primary = length key →
  Forall (cell_is collate x) (zip primary key) ↔ key_of collate primary x = collate <$> key.
Proof.
  revert key. induction primary as [|c primary IH]; intros [|v key] Hs Hl; try done.
  cbn [zip zip_with]. rewrite Forall_cons, IH; [|intros; apply Hs; by right|by injection Hl].
  unfold key_of. csimpl. unfold cell_is at 1. cbn [fst snd].
  destruct (Hs c ltac:(by left)) as [w Hw]. rewrite Hw, (at_key_Some _ _ _ Hw).
  split; [intros [-> ->]; done|by intros [= -> ->]].
Qed.

Lemma selection_key m primary key l :
  keyed collate primary m → length primary = length key →
  selection collate str_le m (zip primary key) None l → l = option_list (m !! (collate <$> key)).
Proof.
  intros Hk Hl [Hp _]. set (K := collate <$> key) in *.
  assert (filter (λ kx : list string * item, Forall (cell_is collate kx.2) (zip primary key)) (map_to_list m) ≡ₚ
    option_list ((λ x, (K, x)) <$> m !! K)) as HK.
  { apply NoDup_Permutation; [apply NoDup_filter, NoDup_map_to_list|destruct (m !! K); cbn; [apply NoDup_singleton|apply NoDup_nil_2]|].
    intros [k x]. rewrite list_elem_of_filter, elem_of_map_to_list. cbn [snd]. split.
    - intros [Hc Hx]. destruct (Hk _ _ Hx) as [Ek Hs]. apply cells_key in Hc; [|done..].
      assert (k = K) as -> by (rewrite Ek; exact Hc). rewrite Hx. by left.
    - destruct (m !! K) as [y|] eqn:Ey; cbn; [|by intros ?%not_elem_of_nil].
      intros [= -> ->]%list_elem_of_singleton. split; [|done]. destruct (Hk _ _ Ey) as [Ek Hs].
      apply cells_key; [done|done|]. by rewrite <-Ek. }
  rewrite HK in Hp. destruct (m !! K) as [x|]; cbn in *.
  - by apply Permutation_singleton_r in Hp.
  - by apply Permutation_nil_r in Hp.
Qed.
End by_key.

End Sql.
