(* ===== verification/SqlServer.v ===== *)
(** A concrete database that does what [Sql] documents: the tables of
    [relational-db/dynamo-db-implementation/main.go], kept as maps, and a reader of the
    statements.  The examples of the table operations run on it. *)

From Stdlib Require Import ZArith Lia Ascii String.
From stdpp Require Import gmap strings list fin_maps sorting.
From S2P Require Import Prelude GoLib Dynamo Sql.
Import Dynamo Sql.

Module SqlServer.
Local Open Scope string_scope.

(** * The catalog *)

Definition users_schema : schema :=
  mkSchema [("org_id", true); ("user_id", true); ("name", false); ("age", false)] ["org_id"; "user_id"] [].
Definition orders_schema : schema :=
  mkSchema [("user_id", true); ("order_id", true); ("amount", false); ("status", false)] ["user_id"; "order_id"]
    [("status_index", ["user_id"; "status"])].
Definition known : list (string * schema) := [("users", users_schema); ("orders", orders_schema)].
Definition catalog : gmap string schema := list_to_map known.

Lemma catalog_Some n s :
  catalog !! n = Some s → n = "users" ∧ s = users_schema ∨ n = "orders" ∧ s = orders_schema.
Proof.
  intros [[= -> ->]|[[= -> ->]|[]%elem_of_nil]%elem_of_cons]%elem_of_list_to_map_2%elem_of_cons; auto.
Qed.

(** * Reading a SELECT *)

Fixpoint read_conds (ws : list string) : option (list string * list string) :=
  match ws with
  | c :: eq :: q :: rest =>
      if String.eqb eq "=" && String.eqb q "?" then
        match rest with
        | a :: more => if String.eqb a "AND"
                       then x ← read_conds more; Some (c :: x.1, x.2) else Some ([c], rest)
        | [] => Some ([c], [])
        end
      else None
  | _ => None
  end.

Definition read_order (ws : list string) : option (option (string * bool)) :=
  match ws with
  | [] => Some None
  | [o; b; c; dir] => if String.eqb o "ORDER" && String.eqb b "BY" then Some (Some (c, String.eqb dir "ASC")) else None
  | _ => None
  end.

Definition read_select (t : string) : option (list string * string * list string * option (string * bool)) :=
  match split " " t with
  | _ :: cols :: _ :: n :: _ :: ws =>
      x ← read_conds ws; o ← read_order x.2; Some (split "," cols, n, x.1, o)
  | _ => None
  end.

(** The words of a SELECT. *)
Fixpoint cond_words (conds : list string) : list string :=
  match conds with
  | [] => []
  | [c] => [c; "="; "?"]
  | c :: conds => c :: "=" :: "?" :: "AND" :: cond_words conds
  end.
Definition order_words (o : option (string * bool)) : list string :=
  match o with None => [] | Some (c, asc) => ["ORDER"; "BY"; c; if asc then "ASC" else "DESC"] end.
Definition select_words cols n conds o : list string :=
  ["SELECT"; String.concat "," cols; "FROM"; n; "WHERE"] ++ cond_words conds ++ order_words o.

Lemma concat_cons sep x y l : String.concat sep (x :: y :: l) = x +:+ sep +:+ String.concat sep (y :: l).
Proof. done. Qed.

Lemma conds_words conds o : conds ≠ [] →
  String.concat " " (cond_words conds ++ order_words o) =
    String.concat " AND " (condition <$> conds) +:+ order_text o.
Proof.
  intros Hne. induction conds as [|c [|c' conds] IH]; [done|..].
  - destruct o as [[c' asc]|]; cbn; unfold condition; [|by rewrite str_app_nil_r]. rewrite <-!str_app_assoc. by destruct asc.
  - specialize (IH ltac:(done)). change (condition <$> c :: c' :: conds) with (condition c :: condition c' :: (condition <$> conds)).
    rewrite concat_cons. change (condition c' :: (condition <$> conds)) with (condition <$> c' :: conds).
    rewrite <-!str_app_assoc, <-IH. unfold condition. rewrite <-!str_app_assoc. destruct conds; reflexivity.
Qed.

Lemma select_text_words cols n conds o : conds ≠ [] →
  text (Select cols n conds o) = String.concat " " (select_words cols n conds o).
Proof.
  intros Hne. unfold text. rewrite <-conds_words by done. unfold select_words.
  assert (∃ w ws, (cond_words conds ++ order_words o)%list = w :: ws) as (w & ws & ->).
  { destruct conds as [|c [|c' conds]]; [done|..]; by eexists _, _. }
  cbn [app]. by rewrite !concat_cons, <-?str_app_assoc.
Qed.

(** Names that the reader tells apart. *)
Definition plain_name (c : string) : Prop := without " " c ∧ without "," c.
#[export] Instance plain_name_dec c : Decision (plain_name c).
Proof. unfold plain_name. solve_decision. Defined.

Lemma without_app c s t : without c s → without c t → without c (s +:+ t).
Proof. induction s as [|x s IH]; [done|]. intros [Hx Hs] Ht. by split; [|apply IH]. Qed.
Lemma without_concat c sep l : without c sep → Forall (without c) l → without c (String.concat sep l).
Proof.
  intros Hsep. induction 1 as [|s [|s' l] Hs Hl IH]; [done..|]. rewrite concat_cons.
  apply without_app; [done|]. by apply without_app.
Qed.

Lemma words_plain cols n conds o :
  Forall plain_name cols → plain_name n → Forall plain_name conds →
  (∀ c asc, o = Some (c, asc) → plain_name c) → Forall (without " ") (select_words cols n conds o).
Proof.
  intros Hcols Hn Hconds Ho. unfold select_words. repeat apply Forall_cons_2.
  - apply (bool_decide_unpack _). exact I.
  - apply without_concat; [apply (bool_decide_unpack _); exact I|]. eapply Forall_impl; [exact Hcols|by intros ? []].
  - apply (bool_decide_unpack _). exact I.
  - apply Hn.
  - apply (bool_decide_unpack _). exact I.
  - apply Forall_app. split.
    + induction Hconds as [|c [|c' conds] Hc Hcs IH]; [done|..]; cbn [cond_words]; repeat apply Forall_cons_2;
        try (apply (bool_decide_unpack _); exact I); (apply Hc || exact IH || done).
    + destruct o as [[c asc]|]; [|done]. destruct (Ho c asc eq_refl) as [Hc _].
      repeat apply Forall_cons_2; try (apply (bool_decide_unpack _); exact I); [done|].
      destruct asc; apply (bool_decide_unpack _); exact I.
Qed.

Lemma read_conds_ok conds o : conds ≠ [] →
  read_conds (cond_words conds ++ order_words o) = Some (conds, order_words o).
Proof.
  intros Hne. induction conds as [|c [|c' conds] IH]; [done|..].
  - by destruct o as [[c' []]|].
  - change (cond_words (c :: c' :: conds)) with (c :: "=" :: "?" :: "AND" :: cond_words (c' :: conds)).
    cbn [app read_conds]. cbn [String.eqb Ascii.eqb Bool.eqb andb]. by rewrite IH.
Qed.

(** A SELECT is read back. *)
Lemma read_select_ok cols n conds o :
  cols ≠ [] → conds ≠ [] → Forall plain_name cols → plain_name n → Forall plain_name conds →
  (∀ c asc, o = Some (c, asc) → plain_name c) →
  read_select (text (Select cols n conds o)) = Some (cols, n, conds, o).
Proof.
  intros Hne Hcne Hcols Hn Hconds Ho. unfold read_select.
  rewrite select_text_words, <-join_concat by done. rewrite (split_join " "); [|done|by apply words_plain].
  unfold select_words. cbn [app]. rewrite read_conds_ok by done.
  rewrite bind_Some. eexists. split; [done|]. cbn [fst snd].
  assert (read_order (order_words o) = Some o) as -> by by destruct o as [[c []]|].
  rewrite bind_Some. exists o. split; [done|]. do 4 f_equal.
  rewrite <-join_concat. apply split_join; [done|]. eapply Forall_impl; [exact Hcols|by intros ? []].
Qed.

(** * Reading a REPLACE *)

(** The lists of at most [n] of these columns. *)
Fixpoint lists_of (n : nat) (columns : list string) : list (list string) :=
  match n with
  | O => [[]]
  | S n => [] :: flat_map (λ c, cons c <$> lists_of n columns) columns
  end.

Lemma elem_of_lists n columns l :
  (length l ≤ n)%nat → l ⊆ columns → l ∈ lists_of n columns.
Proof.
  revert l. induction n as [|n IH]; intros [|c l] Hn Hl; simpl in *; try lia; try by left.
  right. apply list_elem_of_In, in_flat_map. exists c.
  split; [apply list_elem_of_In, Hl; by left|]. apply list_elem_of_In, list_elem_of_fmap.
  exists l. split; [done|]. apply IH; [lia|]. intros x Hx. apply Hl. by right.
Qed.

(** The list of columns a statement was built from. *)
Section find_text.
Context (columns : list string).

Definition candidates : list (list string) := filter NoDup (lists_of (length columns) columns).
Definition find_text (f : list string → string) (text : string) : option (list string) :=
  List.find (λ l, String.eqb (f l) text) candidates.
Definition distinct (f : list string → string) : bool :=
  forallb (λ l, forallb (λ l', implb (String.eqb (f l) (f l')) (bool_decide (l = l'))) candidates)
    candidates.

Lemma elem_of_candidates l : NoDup l → l ⊆ columns → l ∈ candidates.
Proof.
  intros Hnd Hl. apply list_elem_of_filter. split; [done|]. apply elem_of_lists; [|done].
  apply (submseteq_length _ columns). by apply NoDup_submseteq.
Qed.

Lemma find_text_ok f l : distinct f = true → NoDup l → l ⊆ columns → find_text f (f l) = Some l.
Proof.
  intros Hd Hnd Hl. pose proof (elem_of_candidates l Hnd Hl) as Hin%list_elem_of_In.
  unfold find_text. destruct (List.find _ _) as [l'|] eqn:E.
  - apply find_some in E as [Hin' He]. unfold distinct in Hd. rewrite forallb_forall in Hd.
    specialize (Hd l' Hin'). rewrite forallb_forall in Hd. specialize (Hd l Hin).
    rewrite He in Hd. simpl in Hd. by apply bool_decide_eq_true in Hd as ->.
  - eapply find_none in E; [|exact Hin]. simpl in E. by rewrite String.eqb_refl in E.
Qed.

Lemma find_text_none f t : (∀ l, String.eqb (f l) t = false) → find_text f t = None.
Proof.
  intros Hf. unfold find_text. destruct (List.find _ _) as [l|] eqn:E; [|done].
  apply find_some in E as [_ E]. by rewrite Hf in E.
Qed.
End find_text.

Definition read_replace (t : string) : option (string * schema * list string) :=
  match find_text (names users_schema) (λ cols, text (Replace "users" cols)) t,
        find_text (names orders_schema) (λ cols, text (Replace "orders" cols)) t with
  | Some cols, _ => Some ("users", users_schema, cols)
  | None, Some cols => Some ("orders", orders_schema, cols)
  | None, None => None
  end.

Lemma replace_distinct :
  distinct (names users_schema) (λ cols, text (Replace "users" cols)) = true ∧
  distinct (names orders_schema) (λ cols, text (Replace "orders" cols)) = true.
Proof. split; vm_compute; reflexivity. Qed.

Lemma read_replace_ok n s cols :
  catalog !! n = Some s → NoDup cols → cols ⊆ names s → read_replace (text (Replace n cols)) = Some (n, s, cols).
Proof.
  intros [[-> ->]|[-> ->]]%catalog_Some Hnd Hsub; unfold read_replace.
  - by rewrite (find_text_ok _ (λ cols, text (Replace "users" cols)) cols (proj1 replace_distinct) Hnd Hsub).
  - rewrite find_text_none by (intros l; reflexivity).
    by rewrite (find_text_ok _ (λ cols, text (Replace "orders" cols)) cols (proj2 replace_distinct) Hnd Hsub).
Qed.

(** * The server *)

(** The tables that were created.  Rows that are not under their key are not rows. *)
Abbreviation store := (gmap string table).
Definition clean (s : schema) (m : table) : table :=
  filter (λ kx : list string * item, kx.1 = key_of id (primary s) kx.2 ∧ Forall (λ c, is_Some (kx.2 !! c)) (primary s)) m.
Definition table_of (d : store) (n : string) : option (schema * table) :=
  s ← catalog !! n; m ← d !! n; Some (s, clean s m).

Definition strings_of (args : list iface) : option (list string) :=
  mapM (λ v, match deref v with IStr s => Some s | _ => None end) args.

Definition syntax_error {A} : A + goerr := inr (ErrNew "syntax error").

Definition read_create (t : string) : option string :=
  fst <$> List.find (λ ns : string * schema, String.eqb (text (Create ns.1 ns.2)) t) known.

#[local] Instance before_dec o : RelDecision (before String.le o).
Proof. intros x y. unfold before. destruct o as [[c []]|]; apply _. Defined.
#[local] Instance before_trans o : Transitive (before String.le o).
Proof. intros x y z. unfold before. destruct o as [[c []]|]; [intros; by etransitivity..|done]. Qed.
#[local] Instance before_total o : Total (before String.le o).
Proof.
  intros x y. unfold before. destruct o as [[c []]|]; [| |by left];
    destruct (total String.le (at_key x c) (at_key y c)); auto.
Qed.

Definition select_rows (m : table) (conds : list (string * string)) (o : option (string * bool)) : list item :=
  merge_sort (before String.le o)
    (filter (λ kx : list string * item, Forall (cell_is id kx.2) conds) (map_to_list m)).*2.

#[export] Instance store_driver : SqlDriver store := {
  exec t args d :=
    match read_create t with
    | Some n => (inl (), match d !! n with Some _ => d | None => <[n := ∅]> d end)
    | None =>
        match read_replace t, strings_of args with
        | Some (n, s, cols), Some vs =>
            match d !! n with
            | Some m => let x := list_to_map (zip cols vs) in
                        (inl (), <[n := <[key_of id (primary s) x := x]> m]> d)
            | None => (syntax_error, d)
            end
        | _, _ => (syntax_error, d)
        end
    end;
  query t args d :=
    match read_select t, strings_of args with
    | Some (cols, n, conds, o), Some vs =>
        match table_of d n with
        | Some (_, m) => (inl (project cols <$> select_rows m (zip conds vs) o, None), d)
        | None => (syntax_error, d)
        end
    | _, _ => (syntax_error, d)
    end;
}.

(** ** It does what is documented *)

Lemma strings_of_deref args vs : deref <$> args = IStr <$> vs → strings_of args = Some vs.
Proof.
  revert vs. induction args as [|v args IH]; intros [|w vs] E; try done. injection E as Ev E.
  unfold strings_of in *. cbn [mapM]. by rewrite Ev, (IH _ E).
Qed.

Lemma select_rows_selection m conds o : selection id String.le m conds o (select_rows m conds o).
Proof. split; [apply merge_sort_Permutation|]. apply StronglySorted_merge_sort; apply _. Qed.

Definition tables_of (d : store) : gmap string (schema * table) := map_imap (λ n _, table_of d n) d.

Lemma lookup_tables d n : tables_of d !! n = table_of d n.
Proof.
  unfold tables_of. rewrite map_lookup_imap. unfold table_of.
  destruct (d !! n) as [m|]; [done|]. cbn [mbind option_bind]. by destruct (catalog !! n).
Qed.

Lemma tables_insert d n s m : catalog !! n = Some s → tables_of (<[n := m]> d) = <[n := (s, clean s m)]> (tables_of d).
Proof.
  intros Hs. apply map_eq. intros n'. rewrite lookup_tables. unfold table_of.
  destruct (decide (n' = n)) as [->|Hne].
  - by rewrite Hs, !lookup_insert_eq.
  - by rewrite !lookup_insert_ne, lookup_tables by done.
Qed.

Lemma tables_Some d n s m :
  tables_of d !! n = Some (s, m) → catalog !! n = Some s ∧ ∃ m0, d !! n = Some m0 ∧ m = clean s m0.
Proof.
  rewrite lookup_tables. unfold table_of. intros (s' & Hs & (m0 & Hm & [= -> <-])%bind_Some)%bind_Some. eauto.
Qed.

Lemma clean_insert s m cols vs (x := list_to_map (zip cols vs) : item) :
  primary s ⊆ cols → length cols = length vs → clean s (<[key_of id (primary s) x := x]> m) = <[key_of id (primary s) x := x]> (clean s m).
Proof.
  intros Hp Hl. unfold clean. apply map_filter_insert_True. cbn. split; [done|]. apply Forall_forall. intros c Hc%Hp.
  unfold x. rewrite <-not_eq_None_Some. intros Hn%not_elem_of_list_to_map_2. apply Hn. rewrite fst_zip; [done|lia].
Qed.

Lemma read_create_catalog n s : catalog !! n = Some s → read_create (text (Create n s)) = Some n.
Proof. intros [[-> ->]|[-> ->]]%catalog_Some; vm_compute; reflexivity. Qed.

Lemma store_select n s m cols conds o args vs d :
  tables_of d !! n = Some (s, m) → askable s cols conds o args vs →
  query (text (Select cols n conds o)) args d = (inl (project cols <$> select_rows m (zip conds vs) o, None), d).
Proof.
  intros Ht (Hnd & Hsub & Hne & Hcs & Hcne & Ho & Hl & Ha). unfold query, store_driver.
  pose proof Ht as (Hc & _)%tables_Some.
  assert (Forall plain_name (names s) ∧ plain_name n) as [Hs Hn].
  { apply catalog_Some in Hc as [[-> ->]|[-> ->]]; split; apply (bool_decide_unpack _); vm_compute; exact I. }
  rewrite Forall_forall in Hs.
  rewrite read_select_ok; [|done|done|apply Forall_forall; by intros c Hc'%Hsub%Hs|done
    |apply Forall_forall; by intros c Hc'%Hcs%Hs|by intros c asc Hca%Ho%Hs].
  rewrite lookup_tables in Ht. by rewrite (strings_of_deref _ _ Ha), Ht.
Qed.

#[export] Instance store_server : SqlServer store catalog.
Proof.
  refine {| collate := id; str_le := String.le; tables := tables_of |}.
  - intros d n s m (_ & m0 & _ & ->)%tables_Some k x [_ [Hk Hs]]%map_lookup_filter_Some.
    split; [done|]. by rewrite Forall_forall in Hs.
  - intros n s d r d' Hs. unfold exec, store_driver. rewrite (read_create_catalog n s Hs). intros [= <- <-].
    rewrite lookup_tables. unfold table_of. rewrite Hs. cbn [mbind option_bind].
    destruct (d !! n) as [m|]; [done|]. cbn. by rewrite (tables_insert _ _ s) by done.
  - intros n s m cols vs d r d' (Hc & m0 & Hm & ->)%tables_Some Hnd Hsub Hp Hl. unfold exec, store_driver.
    change (read_create (text (Replace n cols))) with (@None string).
    rewrite (read_replace_ok n s cols Hc Hnd Hsub), (strings_of_deref _ vs) by (by rewrite <-list_fmap_compose).
    rewrite Hm. intros [= <- <-]. cbn zeta. rewrite (tables_insert _ _ s) by done. by rewrite clean_insert.
  - intros n s m cols conds o args vs d rows e d' Ht Ha. rewrite (store_select _ _ _ _ _ _ _ _ _ Ht Ha). intros [= <- <- _].
    eexists. split; [apply select_rows_selection|]. split; [done|by intros].
  - intros t args d r d'. unfold query, store_driver. repeat case_match; intros [= _ <-]; done.
Defined.

Lemma store_reliable : reliable (D := store).
Proof. intros n s m cols conds o args vs d Ht Ha. eexists _, _. by eapply store_select. Qed.
End SqlServer.
