(* ===== verification/DynamoTheorems.v ===== *)
(** What the table operations promise over a SQL database: an item that was put is got
    back, whatever the order of the Go maps; and where arguments go astray. *)

From Stdlib Require Import ZArith Lia Ascii String.
From stdpp Require Import gmap strings list fin_maps.
From S2P Require Import Prelude GoLib Dynamo Sql SqlServer.
Import Dynamo Sql.

(** * Items *)

(** A column of a row, in the item made of it. *)
Lemma item_of_lookup proj values c v :
  NoDup proj → Forall (λ c, TrimSpace c = c) proj → (c, v) ∈ zip proj values →
  item_of proj values !! c = Some (default "" v).
Proof.
  unfold item_of. intros Hnd Hf. generalize (∅ : gmap string string). revert values.
  induction Hf as [|p proj Hp Hf IH]; intros [|w values] m; cbn [zip zip_with]; try by intros ?%not_elem_of_nil.
  apply NoDup_cons in Hnd as [Hni Hnd]. cbn [fold_left fst snd zip]. cbn beta. cbn [fst snd]. rewrite Hp.
  intros [[= -> ->]|Hin]%elem_of_cons; [|by apply IH].
  clear IH. assert (∀ l m, p ∉ l.*1 → Forall (λ cv : string * option string, TrimSpace cv.1 = cv.1) l →
    fold_left (λ m cv, <[TrimSpace cv.1 := default "" cv.2]> m) l m !! p = (m : gmap string string) !! p) as Hfold.
  { induction l as [|x l IHl]; intros m' Hx Hl; [done|]. apply Forall_cons in Hl as [Hx' Hl].
    csimpl in *. rewrite not_elem_of_cons in Hx. rewrite IHl by tauto.
    rewrite Hx', lookup_insert_ne; [done|]. intros Heq. destruct Hx as [Hx _]. by apply Hx. }
  rewrite Hfold; [by rewrite lookup_insert_eq|..].
  - intros (x & -> & Hx)%list_elem_of_fmap. destruct x as [a b]. by apply elem_of_zip_l in Hx.
  - apply Forall_forall. intros [a b] Hx%elem_of_zip_l. by eapply Forall_forall in Hf.
Qed.

(** A column name as the code uses it. *)
Definition column (c : string) : Prop := without "," c ∧ TrimSpace c = c.

#[export] Instance column_dec c : Decision (column c).
Proof. unfold column. solve_decision. Defined.

Lemma split_proj proj : proj ≠ [] → Forall column proj → split "," (String.concat "," proj) = proj.
Proof.
  intros Hne Hc. rewrite <-join_concat. apply split_join; [done|].
  eapply Forall_impl; [exact Hc|by intros c []].
Qed.

(** * The statements *)

Definition key_columns (pk : string) (sk : option string) : list string := pk :: option_list sk.
Definition iface_of (sk : option string) : iface := match sk with Some s => IStr s | None => INil end.

Lemma replace_text n cols : replace_statement n cols = text (Replace n cols).
Proof.
  unfold replace_statement, text. rewrite !join_concat.
  assert ((λ _ : string, "?"%string) <$> cols = replicate (length cols) "?"%string) as ->; [|done].
  induction cols as [|c cols IH]; [done|]. cbn. f_equal. exact IH.
Qed.

Lemma select_text proj n pk sk :
  select_statement (String.concat "," proj) n pk (iface_of sk) = text (Select proj n (key_columns pk sk) None).
Proof.
  unfold select_statement, text, key_columns, condition. destruct sk as [k|]; cbn [iface_of option_list].
  - rewrite bool_decide_false by discriminate. csimpl. cbn [String.concat order_text sprint].
    rewrite str_app_nil_r, <-!str_app_assoc. reflexivity.
  - rewrite bool_decide_true by done. csimpl. cbn [String.concat order_text]. by rewrite str_app_nil_r.
Qed.

(** The sort key of a query, with the direction; none is the empty text. *)
Definition order_of (input : QueryInput) (sk : string) : option (string * bool) :=
  if String.eqb sk "" then None else Some (sk, q_ScanIndexForward input).

Lemma query_text input sk proj conds :
  q_ProjectionExpression input = String.concat "," proj →
  q_KeyConditionExpression input = String.concat " AND " (condition <$> conds) →
  query_statement input sk = text (Select proj (q_TableName input) conds (order_of input sk)).
Proof.
  intros Ep Ec. unfold query_statement, text, order_of. rewrite Ep, Ec. destruct (String.eqb sk ""); cbn [order_text].
  - by rewrite str_app_nil_r.
  - destruct (q_ScanIndexForward input); cbn [negb]; by rewrite <-!str_app_assoc.
Qed.

(** The table that [CreateTable] asks for. *)
Definition schema_of (input : CreateTableInput) : schema :=
  let pk := PartitionKey (ct_Keys input) in
  let sk := match SortKey (ct_Keys input) with INil => None | v => Some (sprint v) end in
  mkSchema
    (((λ c, (c, true)) <$> key_columns pk sk) ++
     ((λ c, (c, false)) <$> filter (λ c, c ≠ pk ∧ IStr c ≠ SortKey (ct_Keys input)) (ct_Attributes input)))
    (key_columns pk sk)
    ((λ lsi, (IndexName lsi, [pk; LSISortKey lsi])) <$> ct_LSIs input).

Lemma cat_app l1 l2 : cat (l1 ++ l2) = cat l1 +:+ cat l2.
Proof.
  induction l1 as [|x l1 IH]; [done|].
  change (x +:+ cat (l1 ++ l2) = (x +:+ cat l1) +:+ cat l2). by rewrite IH, str_app_assoc.
Qed.

Lemma attributes_text pk sortKey attrs st :
  fold_left (λ statement attr,
    if negb (bool_decide (attr = pk)) && negb (bool_decide (IStr attr = sortKey))
    then statement +:+ attr +:+ " VARCHAR(255)," else statement) attrs st =
  st +:+ cat (field_text <$> ((λ c, (c, false)) <$> filter (λ c, c ≠ pk ∧ IStr c ≠ sortKey) attrs)).
Proof.
  revert st. induction attrs as [|a attrs IH]; intros st; cbn [fold_left]; [by rewrite str_app_nil_r|].
  rewrite IH, filter_cons. clear IH. destruct (decide (a ≠ pk ∧ IStr a ≠ sortKey)) as [[H1 H2]|Hn].
  - rewrite !bool_decide_false by done. csimpl. unfold field_text at 2. cbn [fst snd]. by rewrite <-!str_app_assoc.
  - destruct (bool_decide_reflect (a = pk)), (bool_decide_reflect (IStr a = sortKey)); cbn; tauto || done.
Qed.

Lemma indexes_text pk lsis st :
  fold_left (λ statement lsi, statement +:+ ", INDEX " +:+ IndexName lsi +:+ " (" +:+ pk +:+ ", "
    +:+ LSISortKey lsi +:+ ")") lsis st =
  st +:+ cat (index_text <$> ((λ lsi, (IndexName lsi, [pk; LSISortKey lsi])) <$> lsis)).
Proof.
  revert st. induction lsis as [|l lsis IH]; intros st; cbn [fold_left]; [by rewrite str_app_nil_r|].
  rewrite IH. csimpl. unfold index_text at 2. cbn [fst snd String.concat]. by rewrite <-!str_app_assoc.
Qed.

Lemma key_fields_text pk sk :
  cat (field_text <$> ((λ c, (c, true)) <$> key_columns pk sk)) =
    pk +:+ " VARCHAR(255) NOT NULL," +:+ match sk with Some k => k +:+ " VARCHAR(255) NOT NULL," | None => "" end.
Proof. destruct sk as [k|]; cbn; unfold field_text; cbn [fst snd]; by rewrite !str_app_nil_r, <-?str_app_assoc. Qed.

Lemma key_list_text pk sk :
  String.concat ", " (key_columns pk sk) = pk +:+ match sk with Some k => ", " +:+ k | None => "" end.
Proof. destruct sk as [k|]; [done|]. cbn. by rewrite str_app_nil_r. Qed.

Lemma create_text input : create_statement input = text (Create (ct_TableName input) (schema_of input)).
Proof.
  unfold create_statement. rewrite indexes_text, attributes_text. unfold text, schema_of. cbn [fields primary indexes].
  rewrite fmap_app, cat_app, key_fields_text, key_list_text.
  destruct (SortKey (ct_Keys input)) as [|k|t k|k];
    [rewrite !bool_decide_true by done|rewrite !bool_decide_false by done..]; cbn [sprint];
    by rewrite ?str_app_nil_r, <-?str_app_assoc.
Qed.

(** * The operations *)

(** Names the code and SQL agree on. *)
Record table_ok (tableName pk : string) (sk : option string) (sch : schema) : Prop := {
  ok_name : tableName ≠ "";
  ok_columns : Forall column (names sch);
  ok_primary : primary sch = key_columns pk sk;
  ok_keys : NoDup (key_columns pk sk) ∧ key_columns pk sk ⊆ names sch;
}.

Section table.
Context `{SqlServer D catalog} `{MapRange}.
Context {tableName pk : string} {sk : option string} {sch : schema} (Hok : table_ok tableName pk sk sch).

Implicit Types s : DynamoDB D.

(** The table is registered with its keys, and is there. *)
Definition registered s : Prop := ∃ lsis,
  tableAttributes s !! tableName = Some (mkAttrs tableName (mkKeys pk (iface_of sk)) lsis).
Definition holds s (m : table) : Prop := registered s ∧ tables (dbConn s) !! tableName = Some (sch, m).

(** The item of a put: its values and its keys. *)
Definition put_item_of (input : PutItemInput) : item :=
  list_to_map ((λ k, (k, at_key (pi_KeyAttributes input) k)) <$> key_columns pk sk)
    ∪ pi_Values input.
Definition put_key (input : PutItemInput) : list string :=
  at_key (pi_KeyAttributes input) <$> key_columns pk sk.

(** A put whose values are columns other than the keys. *)
Definition put_ok (input : PutItemInput) : Prop :=
  pi_TableName input = tableName ∧
  ∀ k, is_Some (pi_Values input !! k) → k ∈ names sch ∧ k ∉ key_columns pk sk.

Lemma put_pairs_eq input :
  put_pairs pk sk input =
    ((λ k, (k, at_key (pi_KeyAttributes input) k)) <$> key_columns pk sk) ++ range (pi_Values input).
Proof. unfold put_pairs, key_columns. by destruct sk. Qed.

Lemma key_pairs_fst input :
  ((λ k, (k, at_key (pi_KeyAttributes input) k)) <$> key_columns pk sk).*1 = key_columns pk sk.
Proof. rewrite <-list_fmap_compose. apply list_fmap_id. Qed.

Lemma range_columns input k : k ∈ (range (pi_Values input)).*1 → is_Some (pi_Values input !! k).
Proof. intros ([k' v] & -> & Hin%elem_of_range)%list_elem_of_fmap. by exists v. Qed.

Lemma put_pairs_columns input :
  put_ok input →
  NoDup (put_pairs pk sk input).*1 ∧ (put_pairs pk sk input).*1 ⊆ names sch ∧
  key_columns pk sk ⊆ (put_pairs pk sk input).*1.
Proof using Hok.
  intros [_ Hv]. rewrite put_pairs_eq, fmap_app, key_pairs_fst. destruct (ok_keys _ _ _ _ Hok) as [Hnd Hsub].
  split_and!.
  - apply NoDup_app. split; [done|]. split; [|apply NoDup_range].
    intros k Hk Hin%range_columns%Hv. tauto.
  - intros k [Hk|Hk%range_columns%Hv]%elem_of_app; [by apply Hsub|tauto].
  - intros k Hk. apply elem_of_app. by left.
Qed.

Lemma range_to_map (m : gmap string string) : list_to_map (range m) = m.
Proof.
  transitivity (list_to_map (map_to_list m) : gmap string string).
  - apply list_to_map_proper; [apply NoDup_range|apply range_perm].
  - apply list_to_map_to_list.
Qed.

(** Whatever the order of the map, the item stored is the same. *)
Lemma put_pairs_item input : list_to_map (put_pairs pk sk input) = put_item_of input.
Proof. by rewrite put_pairs_eq, list_to_map_app, range_to_map. Qed.

Lemma put_item_key input : key_of collate (primary sch) (put_item_of input) = collate <$> put_key input.
Proof using Hok.
  rewrite (ok_primary _ _ _ _ Hok). unfold put_key, key_of. rewrite <-list_fmap_compose. apply list_fmap_ext.
  intros i k Hk%list_elem_of_lookup_2. simpl. unfold at_key at 1, put_item_of.
  erewrite lookup_union_Some_l; [done|]. apply elem_of_list_to_map; [rewrite key_pairs_fst; apply (ok_keys _ _ _ _ Hok)|].
  apply list_elem_of_fmap. by exists k.
Qed.

(** ** PutItem *)

Lemma attributes_ok s :
  registered s → ∃ lsis,
  attributes tableName s = (Ok (mkAttrs tableName (mkKeys pk (iface_of sk)) lsis), s).
Proof.
  intros [lsis E]. exists lsis. unfold attributes. rewrite (bind_ok get_st _ _ _ _ eq_refl).
  by rewrite E.
Qed.

(** The check of the sort key. *)
Lemma sort_key_check input s :
  (if bool_decide (iface_of sk = INil) then ret None
   else let! k := as_string (iface_of sk) in
        if String.eqb (at_key (pi_KeyAttributes input) k) ""
        then errorf ("sort key " +:+ k +:+ " is required for this table") else ret (Some k)) s =
  (match sk with
   | Some k => if String.eqb (at_key (pi_KeyAttributes input) k) ""
               then Err (ErrNew ("sort key " +:+ k +:+ " is required for this table")) else Ok sk
   | None => Ok sk
   end, s).
Proof.
  destruct sk as [k|]; cbn [iface_of]; [|done].
  rewrite bool_decide_false by discriminate. cbn [as_string]. unfold bind, ret. by destruct (String.eqb _ _).
Qed.

(** A put either fails before the database is asked, or is one REPLACE. *)
Lemma PutItem_sends input s :
  registered s → put_ok input →
  (∃ e, PutItem input s = (Err e, s)) ∨
  PutItem input s = on_db (exec (text (Replace tableName (put_pairs pk sk input).*1))
    (IStr <$> (put_pairs pk sk input).*2)) s.
Proof using Hok.
  intros Hr [Ht _]. destruct (attributes_ok s Hr) as [lsis Ea]. unfold PutItem. rewrite Ht.
  destruct (String.eqb_spec tableName "") as [?|_]; [by destruct (ok_name _ _ _ _ Hok)|].
  rewrite (bind_ok _ _ _ _ _ Ea). cbn [Keys PartitionKey SortKey].
  destruct (String.eqb (at_key (pi_KeyAttributes input) pk) ""); [left; by eexists|].
  rewrite <-replace_text. pose proof (sort_key_check input s) as Es.
  destruct sk as [k|]; [|right; by rewrite (bind_ok _ _ _ _ _ Es)].
  destruct (String.eqb (at_key (pi_KeyAttributes input) k) "").
  - left. eexists. by rewrite (bind_err _ _ _ _ _ Es).
  - right. by rewrite (bind_ok _ _ _ _ _ Es).
Qed.

Lemma PutItem_spec input s m r s' :
  holds s m → put_ok input → PutItem input s = (r, s') →
  tableAttributes s' = tableAttributes s ∧
  match r with
  | Ok _ => tables (dbConn s') =
      <[tableName := (sch, <[collate <$> put_key input := put_item_of input]> m)]> (tables (dbConn s))
  | Err _ => tables (dbConn s') = tables (dbConn s)
  | _ => False
  end.
Proof using Hok.
  intros [Hr Hm] Hp E. destruct (PutItem_sends input s Hr Hp) as [[e E']|E']; rewrite E' in E.
  { by injection E as <- <-. }
  destruct (put_pairs_columns input Hp) as (Hnd & Hsub & Hk). revert E. unfold on_db.
  destruct (exec _ _ (dbConn s)) as [o d'] eqn:Ex.
  eapply replace_law in Ex; [|exact Hm|done|done|by rewrite (ok_primary _ _ _ _ Hok)|by rewrite !length_fmap].
  cbn zeta in Ex. rewrite zip_fst_snd, put_pairs_item, put_item_key in Ex.
  intros [= <- <-]. split; [done|]. by destruct o as [[]|e].
Qed.

(** ** Reading changes nothing *)

Definition known s : gmap string DynamoDBTableAttributes * gmap string (schema * table) :=
  (tableAttributes s, tables (dbConn s)).

Lemma keeps_query q args : keeps known (on_db (query q args)).
Proof.
  intros s. unfold on_db. destruct (query q args (dbConn s)) as [o d] eqn:E. unfold known. cbn.
  by rewrite (query_law _ _ _ _ _ E).
Qed.
Lemma keeps_attributes n : keeps known (attributes (D := D) n).
Proof. intros s. unfold attributes, bind, get_st. by destruct (tableAttributes s !! n). Qed.
Lemma keeps_as_string v : keeps known (as_string (D := D) v).
Proof. by destruct v. Qed.
Lemma keeps_scan columns r : keeps known (scan (D := D) columns r).
Proof. intros s. unfold scan. by destruct (length r =? length columns)%nat. Qed.
Lemma keeps_errorf {A} msg : keeps known (errorf (D := D) (A := A) msg).
Proof. done. Qed.
Local Hint Resolve keeps_query keeps_attributes keeps_as_string keeps_scan keeps_errorf : keeps.

Lemma keeps_first_row columns rows e : keeps known (first_row (D := D) columns rows e).
Proof. unfold first_row. keeps_tac. Qed.
Lemma keeps_scan_all columns rows : keeps known (scan_all (D := D) columns rows).
Proof. induction rows as [|r rows IH]; cbn [scan_all]; keeps_tac. Qed.
Local Hint Resolve keeps_first_row keeps_scan_all : keeps.

Lemma keeps_GetItem input : keeps known (GetItem (D := D) input).
Proof. unfold GetItem. keeps_tac. Qed.
Lemma keeps_Query input : keeps known (Query (D := D) input).
Proof. unfold Query, effectiveSortKey. keeps_tac. Qed.

(** ** GetItem *)

(** A get of some columns, by a key of strings, the sort key perhaps through a pointer. *)
Definition get_ok (input : GetItemInput) (proj key : list string) : Prop :=
  gi_TableName input = tableName ∧ gi_ProjectionExpression input = String.concat "," proj ∧
  NoDup proj ∧ proj ⊆ names sch ∧ proj ≠ [] ∧
  key = gi_PartitionKey input :: match gi_SortKey input with
                           | IStr k | IPtr _ k => (λ _, k) <$> option_list sk
                           | _ => []
                           end ∧
  length key = length (key_columns pk sk).

(** Cells of a projected row, in the item made of it. *)
Lemma item_of_project proj x c :
  NoDup proj → Forall column proj → c ∈ proj → item_of proj (project proj x) !! c = Some (at_key x c).
Proof.
  intros Hnd Hcol Hc. apply (item_of_lookup proj _ c (x !! c)); [done|eapply Forall_impl; [exact Hcol|by intros ? []]|].
  apply list_elem_of_lookup in Hc as [i Hi]. apply list_elem_of_lookup_2 with i.
  unfold project. rewrite lookup_zip_with, Hi. cbn. by rewrite list_lookup_fmap, Hi.
Qed.

Lemma projected_columns proj : proj ⊆ names sch → Forall column proj.
Proof using Hok.
  intros Hsub. pose proof (ok_columns _ _ _ _ Hok) as Hf. rewrite Forall_forall in Hf |- *.
  intros c Hc. by apply Hf, Hsub.
Qed.

Lemma get_askable proj args key :
  NoDup proj → proj ⊆ names sch → proj ≠ [] → length (key_columns pk sk) = length key →
  deref <$> args = IStr <$> key → askable sch proj (key_columns pk sk) None args key.
Proof using Hok. intros ?????. split_and!; try done. apply (ok_keys _ _ _ _ Hok). Qed.

(** The arguments that are sent are those of the key. *)
Lemma get_args input key :
  key = gi_PartitionKey input :: match gi_SortKey input with
                           | IStr k | IPtr _ k => (λ _, k) <$> option_list sk
                           | _ => []
                           end →
  length key = length (key_columns pk sk) →
  deref <$> (IStr (gi_PartitionKey input) :: if bool_decide (iface_of sk = INil) then [] else [gi_SortKey input]) =
    IStr <$> key.
Proof.
  intros -> Hlen. unfold key_columns in Hlen. destruct sk as [k|]; cbn [iface_of].
  - rewrite bool_decide_false by discriminate. by destruct (gi_SortKey input).
  - by destruct (gi_SortKey input).
Qed.

(** A get of a key that is there succeeds, when the database answers. *)
Lemma GetItem_found input proj key s m :
  reliable (D := D) → holds s m → get_ok input proj key → gi_PartitionKey input ≠ "" → gi_SortKey input ≠ IStr "" →
  is_Some (m !! (collate <$> key)) → ∃ x s', GetItem input s = (Ok x, s').
Proof using Hok.
  intros Hrel [Hr Hm] (Ht & Hproj & Hnd & Hsub & Hne & Hkey & Hlen) Hp Hs [row Hrow]. unfold GetItem. rewrite Ht.
  destruct (String.eqb_spec tableName "") as [?|_]; [by destruct (ok_name _ _ _ _ Hok)|].
  destruct (String.eqb_spec (gi_PartitionKey input) "") as [?|_]; [done|]. cbn [orb].
  destruct (attributes_ok s Hr) as [lsis Ea]. rewrite (bind_ok _ _ _ _ _ Ea). cbn [Keys PartitionKey SortKey].
  rewrite (bool_decide_false (gi_SortKey input = IStr "")), andb_false_r by done. rewrite Hproj, select_text.
  set (args := IStr (gi_PartitionKey input) :: _).
  pose proof (get_args input key Hkey Hlen : deref <$> args = IStr <$> key) as Hargs.
  pose proof (get_askable _ _ _ Hnd Hsub Hne (eq_sym Hlen) Hargs) as Hask.
  destruct (Hrel _ _ _ _ _ _ _ _ _ Hm Hask) as (rows & d' & Eq).
  destruct (select_law _ _ _ _ _ None _ _ _ _ _ _ Hm Hask Eq) as (l & Hl & _ & Hall). rewrite Hall in Eq by done.
  rewrite <-(ok_primary _ _ _ _ Hok) in Hl, Hlen. apply selection_key in Hl; [|by eapply keyed_law|done].
  rewrite Hrow in Hl. subst l. rewrite split_proj by (done || by apply projected_columns).
  unfold bind, attempt, on_db. rewrite Eq. cbn. unfold scan, project. rewrite length_fmap, Nat.eqb_refl. by eexists _, _.
Qed.

Lemma GetItem_spec input proj key s m x s' :
  holds s m → get_ok input proj key → GetItem input s = (Ok x, s') →
  ∃ row, m !! (collate <$> key) = Some row ∧ ∀ c, c ∈ proj → x !! c = Some (at_key row c).
Proof using Hok.
  intros [Hr Hm] (Ht & Hproj & Hnd & Hsub & Hne & Hkey & Hlen). unfold GetItem.
  destruct (_ || _); [done|]. rewrite Ht. destruct (attributes_ok s Hr) as [lsis Ea].
  rewrite (bind_ok _ _ _ _ _ Ea). cbn [Keys PartitionKey SortKey].
  destruct (negb _ && _) eqn:Eg; [done|]. rewrite Hproj, select_text.
  set (args := IStr (gi_PartitionKey input) ::
    if bool_decide (iface_of sk = INil) then [] else [gi_SortKey input]).
  pose proof (get_args input key Hkey Hlen : deref <$> args = IStr <$> key) as Hargs.
  intros (result & s1 & E1 & E)%bind_inv. destruct result as [[rows e]|e]; [|done].
  assert (query (text (Select proj tableName (key_columns pk sk) None)) args (dbConn s) =
    (inl (rows, e), dbConn s1)) as Eq.
  { revert E1. unfold attempt, on_db. destruct (query _ _ _) as [[]]; intros [=]; by subst. }
  destruct (select_law _ _ _ _ _ None _ _ _ _ _ _ Hm (get_askable _ _ _ Hnd Hsub Hne (eq_sym Hlen) Hargs) Eq) as (l & Hl & Hpre & _).
  rewrite <-(ok_primary _ _ _ _ Hok) in Hl, Hlen.
  apply selection_key in Hl; [|by eapply keyed_law|done].
  pose proof (projected_columns proj Hsub) as Hcol. rewrite split_proj in E by done.
  apply bind_inv in E as (values & s2 & Ef & [= <- <-]).
  destruct rows as [|r rows]; [by destruct e|]. cbn [first_row] in Ef.
  destruct (m !! (collate <$> key)) as [row|] eqn:Ec; [|subst l; by destruct Hpre].
  exists row. split; [done|]. intros c Hc. subst l. destruct Hpre as [rest Hrest]. injection Hrest as Hr0 _.
  revert Ef. unfold scan. destruct (_ =? _)%nat; [|done]. intros [= <- _]. rewrite <-Hr0.
  by apply item_of_project.
Qed.

(** ** Query *)

(** Which key sorts the answer: the index's when one is named, else the table's. *)
Definition sorted_by (input : QueryInput) (attrs : DynamoDBTableAttributes) (by_ : string) : Prop :=
  match q_IndexName input with
  | IStr n =>
      if String.eqb n "" then SortKey (Keys attrs) = if String.eqb by_ "" then INil else IStr by_
      else find_lsi n (LSIs attrs) = Some by_
  | INil => SortKey (Keys attrs) = if String.eqb by_ "" then INil else IStr by_
  | _ => False
  end.

Lemma sorted_by_ok input attrs by_ s :
  sorted_by input attrs by_ → effectiveSortKey input attrs s = (Ok by_, s).
Proof.
  unfold sorted_by, effectiveSortKey. destruct (q_IndexName input) as [|n|? ?|t]; [| |done..].
  - intros ->. cbn. by destruct (String.eqb_spec by_ "") as [->|_].
  - destruct (String.eqb_spec n "") as [->|?]; [intros ->; cbn; by destruct (String.eqb_spec by_ "") as [->|_]|]. intros Hf.
    rewrite !bool_decide_false by congruence. cbn. unfold bind, ret. by rewrite Hf.
Qed.

Lemma scan_all_ok columns rows s :
  Forall (λ r : row, length r = length columns) rows →
  scan_all columns rows s = (Ok (item_of columns <$> rows), s).
Proof.
  induction 1 as [|r rows Hr _ IH]; [done|]. cbn [scan_all]. unfold scan.
  rewrite Hr, Nat.eqb_refl. rewrite (bind_ok (ret r) _ s r s eq_refl), (bind_ok _ _ _ _ _ IH). done.
Qed.

(** A query in the form SQL knows: the projected columns, and the columns that are compared. *)
Record query_ok (input : QueryInput) (attrs : DynamoDBTableAttributes) (by_ : string) (proj conds : list string) : Prop := {
  qo_table : q_TableName input = tableName;
  qo_sorted : sorted_by input attrs by_;
  qo_proj : q_ProjectionExpression input = String.concat "," proj;
  qo_proj_cols : NoDup proj ∧ proj ⊆ names sch ∧ proj ≠ [];
  qo_conds : q_KeyConditionExpression input = String.concat " AND " (condition <$> conds);
  qo_conds_cols : conds ⊆ names sch ∧ conds ≠ [];
  qo_values : length conds = size (q_KeyValues input);
  qo_by : by_ = ""%string ∨ by_ ∈ names sch;
}.

(** The values, in the order in which Go runs over the map. *)
Definition query_values (input : QueryInput) : list string := (range (q_KeyValues input)).*2.

Lemma condition_ne c conds : String.concat " AND " (condition <$> c :: conds) ≠ "".
Proof. destruct conds as [|c' conds]; cbn; unfold condition; by destruct c. Qed.

(** What [Query] does with the answer to the SELECT of these conditions, in this order. *)
Lemma Query_answer input attrs by_ proj conds s r d' :
  query_ok input attrs by_ proj conds → tableAttributes s !! tableName = Some attrs →
  query (text (Select proj tableName conds (order_of input by_))) (IStr <$> query_values input) (dbConn s) = (r, d') →
  Query input s = match r with
                  | inl (rows, _) => scan_all proj rows (mkDynamo d' (tableAttributes s))
                  | inr e => (Err e, mkDynamo d' (tableAttributes s))
                  end.
Proof using Hok.
  intros [Ht Hs Hp (Hnd & Hsub & Hne) Hc [_ Hcne] _ _] Ha Hq. unfold Query. rewrite Ht.
  destruct (String.eqb_spec tableName "") as [?|_]; [by destruct (ok_name _ _ _ _ Hok)|].
  destruct conds as [|c conds]; [done|].
  destruct (String.eqb_spec (q_KeyConditionExpression input) "") as [E|_];
    [rewrite Hc in E; by destruct (condition_ne c conds)|]. cbn [orb].
  rewrite (bind_ok _ _ s attrs s); [|unfold attributes; rewrite (bind_ok get_st _ _ _ _ eq_refl); by rewrite Ha].
  rewrite (bind_ok _ _ _ _ _ (sorted_by_ok _ _ _ _ Hs)), (query_text _ _ _ _ Hp Hc), Hp, Ht.
  rewrite split_proj by (done || by apply projected_columns).
  unfold bind, on_db, query_args. change (IStr <$> (range (q_KeyValues input)).*2) with (IStr <$> query_values input).
  rewrite Hq. by destruct r as [[rows e]|e].
Qed.

Lemma query_askable input attrs by_ proj conds :
  query_ok input attrs by_ proj conds →
  askable sch proj conds (order_of input by_) (IStr <$> query_values input) (query_values input).
Proof.
  intros [_ _ _ (Hnd & Hsub & Hne) _ [Hcs Hcne] Hlen Hby]. split_and!; try done.
  - intros c asc. unfold order_of. destruct (String.eqb_spec by_ ""); [done|]. intros [= <- _]. by destruct Hby.
  - unfold query_values. by rewrite length_fmap, Hlen, range_perm, length_map_to_list.
  - by rewrite <-list_fmap_compose.
Qed.

(** The rows of the answer. *)
Lemma Query_rows input attrs by_ proj conds s m rows e d' :
  query_ok input attrs by_ proj conds → tables (dbConn s) !! tableName = Some (sch, m) →
  query (text (Select proj tableName conds (order_of input by_))) (IStr <$> query_values input) (dbConn s) =
    (inl (rows, e), d') →
  ∃ l n, selection collate str_le m (zip conds (query_values input)) (order_of input by_) l ∧
    rows = project proj <$> take n l ∧ (e = None → take n l = l).
Proof.
  intros Hok' Hm Hq. destruct (select_law _ _ _ _ _ _ _ _ _ _ _ _ Hm (query_askable _ _ _ _ _ Hok') Hq) as (l & Hl & Hpre & Hall).
  exists l. destruct e as [e|].
  - destruct Hpre as [rest Hpre]. exists (length rows). split; [done|]. split; [|done].
    by rewrite fmap_take, Hpre, take_app_length.
  - exists (length l). rewrite take_ge by done. auto.
Qed.
End table.

(** * The theorems *)

(** C24: A table with this primary key exists in the database and is registered.  An item that was
    put is what a get of its key returns, column by column, with the empty string for a column
    that was not given, whatever the order in which Go runs over the values; a get of another
    key is answered as before the put; nothing else in the database changes. *)
Theorem put_get `{SqlServer D catalog} `{MapRange} tableName pk sk sch put s m s1 get proj key x s2 :
  table_ok tableName pk sk sch → holds (tableName := tableName) (pk := pk) (sk := sk) (sch := sch) s m →
  put_ok (tableName := tableName) (pk := pk) (sk := sk) (sch := sch) put → PutItem put s = (Ok tt, s1) →
  get_ok (tableName := tableName) (pk := pk) (sk := sk) (sch := sch) get proj key → GetItem get s1 = (Ok x, s2) →
  (if decide (collate <$> key = collate <$> put_key (pk := pk) (sk := sk) put)
   then ∀ c, c ∈ proj → x !! c = Some (at_key (put_item_of (pk := pk) (sk := sk) put) c)
   else ∃ row, m !! (collate <$> key) = Some row ∧ ∀ c, c ∈ proj → x !! c = Some (at_key row c)) ∧
  ∀ n, n ≠ tableName → tables (dbConn s2) !! n = tables (dbConn s) !! n.
Proof.
  intros Hok Hh Hp Ep Hg Eg. pose proof Hh as [Hr Hm].
  destruct (PutItem_spec Hok put s m (Ok tt) s1 Hh Hp Ep) as [Ha Ht].
  pose proof (keeps_GetItem get s1) as K. rewrite Eg in K. injection K as _ K. cbn [snd] in K.
  assert (holds (tableName := tableName) (pk := pk) (sk := sk) (sch := sch) s1
    (<[collate <$> put_key (pk := pk) (sk := sk) put := put_item_of (pk := pk) (sk := sk) put]> m)) as Hh1.
  { split; [|by rewrite Ht, lookup_insert_eq]. destruct Hr as [lsis E]. exists lsis. by rewrite Ha. }
  destruct (GetItem_spec Hok get proj key s1 _ x s2 Hh1 Hg Eg) as (row & El & Hi). split.
  - destruct (decide _) as [Ek|Ek].
    + rewrite Ek, lookup_insert_eq in El. by injection El as <-.
    + rewrite lookup_insert_ne in El by done. by exists row.
  - intros n Hn. by rewrite K, Ht, lookup_insert_ne.
Qed.

(** C34: A query of some columns, with conditions [column = ?], is the SELECT of the rows in which
    each column is the value that Go's map happens to deliver for it, sorted by the named
    index's sort key, or else the table's, in the direction asked for: its items are these rows,
    in this order, with the empty string for NULL.  An error of the database is returned; but an
    iteration that broke off gives the rows seen so far as if they were all. *)
Theorem query_rows `{SqlServer D catalog} `{MapRange} tableName pk sk sch input attrs by_ proj conds (s : DynamoDB D) m r d' :
  table_ok tableName pk sk sch → tables (dbConn s) !! tableName = Some (sch, m) →
  tableAttributes s !! tableName = Some attrs →
  query_ok (tableName := tableName) (sch := sch) input attrs by_ proj conds →
  query (text (Select proj tableName conds (order_of input by_))) (IStr <$> query_values input) (dbConn s) = (r, d') →
  match r with
  | inr e => Query input s = (Err e, mkDynamo d' (tableAttributes s))
  | inl (_, e) => ∃ items l n, Query input s = (Ok items, mkDynamo d' (tableAttributes s)) ∧
      selection collate str_le m (zip conds (query_values input)) (order_of input by_) l ∧
      Forall2 (λ x item : gmap string string, ∀ c, c ∈ proj → item !! c = Some (at_key x c)) (take n l) items ∧
      (e = None → length items = length l)
  end.
Proof.
  intros Hok Hm Ha Hq E. pose proof (Query_answer Hok _ _ _ _ _ _ _ _ Hq Ha E) as EQ.
  destruct r as [[rows e]|e]; [|done].
  destruct (Query_rows _ _ _ _ _ _ _ _ _ _ Hq Hm E) as (l & n & Hl & -> & He).
  destruct (qo_proj_cols _ _ _ _ _ Hq) as (Hnd & Hsub & _). rewrite scan_all_ok in EQ.
  2: { apply Forall_fmap, Forall_forall. intros x _. unfold project. cbn. by rewrite length_fmap. }
  eexists _, l, n. split; [exact EQ|]. split; [done|]. split.
  - apply Forall2_fmap_r, Forall2_fmap_r, Forall_Forall2_diag, Forall_forall. intros x _ c Hc.
    apply item_of_project; [done|by apply (projected_columns Hok)|done].
  - intros ->. rewrite !length_fmap. by rewrite He.
Qed.

(** ** The order of the arguments *)

(** A run over a map that takes the keys [ks] first. *)
Fixpoint range_from {A} (ks : list string) (m : gmap string A) : list (string * A) :=
  match ks with
  | [] => map_to_list m
  | k :: ks =>
      match m !! k with
      | Some v => (k, v) :: range_from ks (delete k m)
      | None => range_from ks m
      end
  end.

Lemma range_from_perm {A} ks (m : gmap string A) : range_from ks m ≡ₚ map_to_list m.
Proof.
  revert m. induction ks as [|k ks IH]; intros m; [done|]. cbn [range_from].
  destruct (m !! k) as [v|] eqn:E; [|done]. transitivity ((k, v) :: map_to_list (delete k m)); [by apply perm_skip|by apply map_to_list_delete].
Qed.

Definition keys_first (ks : list string) : MapRange :=
  {| range _ m := range_from ks m; range_perm _ m := range_from_perm ks m |}.

Lemma range_from_keys {A} (l : list (string * A)) m :
  l ≡ₚ map_to_list m → range_from l.*1 m = l.
Proof.
  revert m. induction l as [|[k v] l IH]; intros m Hl.
  - by apply Permutation_nil_l in Hl.
  - assert (m !! k = Some v) as E by (apply elem_of_map_to_list; rewrite <-Hl; by left).
    csimpl. rewrite E. f_equal. apply IH.
    apply (Permutation_cons_inv (a := (k, v))). etransitivity; [exact Hl|].
    symmetry. by apply map_to_list_delete.
Qed.

(** The arguments of a query go out in the order in which Go happens to run over the map of
    key values: every order can occur, while the statement's placeholders stay. *)
Theorem query_argument_order input l :
  l ≡ₚ map_to_list (q_KeyValues input) →
  ∃ order : MapRange, @query_args order input = IStr <$> l.*2.
Proof.
  intros Hl. exists (keys_first l.*1). unfold query_args. cbn [range keys_first].
  by rewrite range_from_keys.
Qed.

(** The last query of main.go. *)
Definition main_query : QueryInput := mkQuery "orders" "user_id = ? AND status = ?"
  (<["user_id" := "user#1"]> (<["status" := "completed"]> ∅))
  "user_id,order_id,amount,status" true (IStr "status_index").

Lemma query_argument_order_witness :
  (∃ order : MapRange, @query_args order main_query = [IStr "user#1"; IStr "completed"]) ∧
  (∃ order : MapRange, @query_args order main_query = [IStr "completed"; IStr "user#1"]).
Proof.
  split.
  - apply (query_argument_order main_query [("user_id", "user#1"); ("status", "completed")]%string).
    apply (bool_decide_unpack _). vm_compute. exact I.
  - apply (query_argument_order main_query [("status", "completed"); ("user_id", "user#1")]%string).
    apply (bool_decide_unpack _). vm_compute. exact I.
Defined.

(** ** Examples *)

Import SqlServer(store, catalog, users_schema, orders_schema).
#[local] Existing Instances SqlServer.store_driver SqlServer.store_server.

Definition users_db : DynamoDB store :=
  mkDynamo {[ "users"%string := ∅ ]} {[ "users"%string := mkAttrs "users" (mkKeys "org_id" (IStr "user_id")) [] ]}.
Definition put_john : PutItemInput := mkPut "users"
  (<["org_id" := "org#1"]> (<["user_id" := "user#2"]> ∅))
  (<["name" := "John Doe"]> (<["age" := "26"]> ∅)).
Definition get_john : GetItemInput := mkGet "users" "org#1" (IStr "user#2") "name,age".

Definition is_ok {A} (o : outcome A) : bool := match o with Ok _ => true | _ => false end.

Lemma put_john_columns k :
  is_Some (pi_Values put_john !! k) → k ∈ names users_schema ∧ k ∉ key_columns "org_id" (Some "user_id"%string).
Proof.
  intros [v Hk]. cbn [pi_Values put_john] in Hk.
  apply lookup_insert_Some in Hk as [[<- _]|[_ [[<- _]|[_ Hk]]%lookup_insert_Some]].
  1-2: split; [apply (bool_decide_unpack _)|apply (bool_decide_unpack _)]; vm_compute; exact I.
  by rewrite lookup_empty in Hk.
Qed.

(** Facts about concrete lists of columns, by computation. *)
Lemma sub_columns (l columns : list string) :
  forallb (λ c, bool_decide (c ∈ columns)) l = true → l ⊆ columns.
Proof.
  intros Hl x Hx. rewrite forallb_forall in Hl. apply list_elem_of_In in Hx.
  by apply Hl, bool_decide_eq_true in Hx.
Qed.

Lemma users_ok : table_ok "users" "org_id" (Some "user_id"%string) users_schema.
Proof.
  split; [done|apply (bool_decide_unpack _); vm_compute; exact I|done|].
  split; [apply (bool_decide_unpack _); vm_compute; exact I|]. apply sub_columns. vm_compute. reflexivity.
Qed.
Lemma orders_ok : table_ok "orders" "user_id" (Some "order_id"%string) orders_schema.
Proof.
  split; [done|apply (bool_decide_unpack _); vm_compute; exact I|done|].
  split; [apply (bool_decide_unpack _); vm_compute; exact I|]. apply sub_columns. vm_compute. reflexivity.
Qed.

Lemma put_get_witness :
  ∃ x, (GetItem get_john (PutItem put_john users_db).2).1 = Ok x ∧
    ∀ c, c ∈ ["name"; "age"] → x !! c = Some (at_key (put_item_of (pk := "org_id")
      (sk := Some "user_id"%string) put_john) c).
Proof.
  destruct (GetItem get_john (PutItem put_john users_db).2) as [o s2] eqn:Eg.
  assert (is_ok o = true) as Hok.
  { pose proof (f_equal (λ x, is_ok x.1) Eg) as Hx. cbn [fst] in Hx. rewrite <-Hx.
    vm_compute. reflexivity. }
  destruct o as [x| | |]; [|discriminate..].
  exists x. split; [done|].
  pose proof (put_get "users" "org_id" (Some "user_id"%string) users_schema put_john users_db ∅
    (PutItem put_john users_db).2 get_john ["name"; "age"] ["org#1"; "user#2"] x s2 users_ok) as Hpg.
  rewrite decide_True in Hpg by (vm_compute; reflexivity). apply Hpg; clear Hpg.
  - split; [exists []; apply lookup_singleton_eq|]. vm_compute. reflexivity.
  - split; [done|]. apply put_john_columns.
  - destruct (PutItem put_john users_db) as [o' s1] eqn:Ep. cbn [snd].
    pose proof (f_equal (λ x, is_ok x.1) Ep) as Hp. cbn [fst] in Hp.
    assert (is_ok o' = true) as Hok' by (rewrite <-Hp; vm_compute; reflexivity).
    by destruct o' as [[]| | |].
  - split_and!; [reflexivity|reflexivity| | |discriminate|reflexivity|reflexivity];
      [|apply sub_columns; vm_compute; reflexivity].
    apply (bool_decide_unpack _). vm_compute. exact I.
  - exact Eg.
Defined.

Definition orders_attributes : DynamoDBTableAttributes :=
  mkAttrs "orders" (mkKeys "user_id" (IStr "order_id")) [mkLSI "status_index" "status"].

(** The query on an empty table. *)
Lemma query_rows_witness :
  let s := mkDynamo ({[ "orders"%string := ∅ ]} : store) {[ "orders"%string := orders_attributes ]} in
  ∃ items, Query main_query s = (Ok items, s).
Proof.
  intros s. pose proof (query_rows "orders" "user_id" (Some "order_id"%string) orders_schema main_query orders_attributes
    "status" ["user_id"; "order_id"; "amount"; "status"] ["user_id"; "status"] s ∅ (inl ([], None)) (dbConn s) orders_ok) as Hq.
  destruct Hq as (items & l & n & E & _).
  - vm_compute. reflexivity.
  - done.
  - split; [done|reflexivity|reflexivity|split_and!|reflexivity|split|vm_compute; reflexivity|right]; try done.
    + apply (bool_decide_unpack _). vm_compute. exact I.
    + apply sub_columns. vm_compute. reflexivity.
    + apply (bool_decide_unpack _). vm_compute. exact I.
  - vm_compute. reflexivity.
  - exists items. exact E.
Defined.
