(* ===== verification/DynamoMain.v ===== *)
(** [relational-db/dynamo-db-implementation/main.go]: the calls of [main], composed, over a
    database that does what SQL documents of the statements it is sent; and what they print. *)

From Stdlib Require Import ZArith Lia Ascii String.
From stdpp Require Import gmap strings list fin_maps sorting.
From S2P Require Import Prelude GoLib Dynamo Sql SqlServer DynamoTheorems.
Import Dynamo Sql.
Import SqlServer(store, catalog, users_schema, orders_schema).

Module DynamoMain.

Local Open Scope string_scope.

(** * The program *)

Definition map_of (l : list (string * string)) : gmap string string := list_to_map l.

Definition users_table_input : CreateTableInput :=
  mkCreate "users" ["org_id"; "user_id"; "name"; "age"] (mkKeys "org_id" (IStr "user_id")) [].
Definition orders_table_input : CreateTableInput :=
  mkCreate "orders" ["order_id"; "user_id"; "amount"; "status"] (mkKeys "user_id" (IStr "order_id"))
    [mkLSI "status_index" "status"].

Definition put_user1 : PutItemInput :=
  mkPut "users" (map_of [("org_id", "org#1"); ("user_id", "user#1")])
    (map_of [("name", "Shubham Sharma"); ("age", "28")]).
Definition put_user2 : PutItemInput :=
  mkPut "users" (map_of [("org_id", "org#1"); ("user_id", "user#2")])
    (map_of [("name", "John Doe"); ("age", "26")]).
Definition put_order1 : PutItemInput :=
  mkPut "orders" (map_of [("order_id", "order#1"); ("user_id", "user#1")])
    (map_of [("amount", "250"); ("status", "pending")]).
Definition put_order2 : PutItemInput :=
  mkPut "orders" (map_of [("order_id", "order#2"); ("user_id", "user#1")])
    (map_of [("amount", "450"); ("status", "completed")]).

(** The sort key is a pointer to the variable [user1], at some address. *)
Definition get_user1 (address : string) : GetItemInput :=
  mkGet "users" "org#1" (IPtr address "user#1") "org_id,user_id,name,age".
Definition query_orders : QueryInput :=
  mkQuery "orders" "user_id = ?" (map_of [("user_id", "user#1")])
    "user_id,order_id,amount,status" false INil.
Definition query_completed : QueryInput :=
  mkQuery "orders" "user_id = ? AND status = ?"
    (map_of [("user_id", "user#1"); ("status", "completed")])
    "user_id,order_id,amount,status" true (IStr "status_index").

Section program.
Context `{SqlDriver D} `{MapRange}.

(** The errors of the calls are dropped; here they are results, with what [GetItem] and the two
    [Query]s print. *)
Record results := mkResults {
  setup : list (unit + goerr);
  got : item + goerr;
  queried : list item + goerr;
  completed : list item + goerr;
}.

Definition main (address : string) : M (DynamoDB D) results :=
  let! c1 := attempt (CreateTable users_table_input) in
  let! c2 := attempt (CreateTable orders_table_input) in
  let! p1 := attempt (PutItem put_user1) in
  let! p2 := attempt (PutItem put_user2) in
  let! p3 := attempt (PutItem put_order1) in
  let! p4 := attempt (PutItem put_order2) in
  let! g := attempt (GetItem (get_user1 address)) in
  let! q1 := attempt (Query query_orders) in
  let! q2 := attempt (Query query_completed) in
  ret (mkResults [c1; c2; p1; p2; p3; p4] g q1 q2).
End program.

(** * What the calls do *)

Lemma attempt_inl {S A} (m : M S A) s (r : A + goerr) s' :
  attempt m s = (Ok r, s') → m s = (match r with inl a => Ok a | inr e => Err e end, s').
Proof. unfold attempt. by destruct (m s) as [[a|e|w|] s1]; intros [= <- <-]. Qed.

Definition is_inl {A B} (r : A + B) : Prop := match r with inl _ => True | inr _ => False end.

Definition user1 : item := put_item_of (pk := "org_id") (sk := Some "user_id") put_user1.
Definition user2 : item := put_item_of (pk := "org_id") (sk := Some "user_id") put_user2.
Definition order1 : item := put_item_of (pk := "user_id") (sk := Some "order_id") put_order1.
Definition order2 : item := put_item_of (pk := "user_id") (sk := Some "order_id") put_order2.
Definition user_columns : list string := ["org_id"; "user_id"; "name"; "age"].
Definition order_columns : list string := ["user_id"; "order_id"; "amount"; "status"].

Definition attributes_of (input : CreateTableInput) : DynamoDBTableAttributes :=
  mkAttrs (ct_TableName input) (ct_Keys input) (ct_LSIs input).

(** The columns of the four puts, by computation. *)
Lemma put_columns_ok (l : list (string * string)) (columns keys : list string) :
  forallb (λ x, bool_decide (x.1 ∈ columns ∧ x.1 ∉ keys)) l = true →
  ∀ k, is_Some (map_of l !! k) → k ∈ columns ∧ k ∉ keys.
Proof.
  intros Hl k [v Hv%elem_of_list_to_map_2]. rewrite forallb_forall in Hl.
  apply list_elem_of_In in Hv. specialize (Hl _ Hv). by apply bool_decide_eq_true in Hl.
Qed.

Section calls.
Context `{SqlServer D catalog} `{MapRange}.
Implicit Types s : DynamoDB D.

(** The rows of a table; of a table that is not there yet, none. *)
Definition rows_at (d : D) (n : string) : table := from_option snd ∅ (tables d !! n).

(** A table is not there yet, or is as [main] would create it. *)
Definition creatable (d : D) (n : string) (sch : schema) : Prop :=
  tables d !! n = None ∨ tables d !! n = Some (sch, rows_at d n).

Lemma CreateTable_ok input s s' :
  catalog !! ct_TableName input = Some (schema_of input) →
  creatable (dbConn s) (ct_TableName input) (schema_of input) → CreateTable input s = (Ok (), s') →
  tables (dbConn s') =
    <[ct_TableName input := (schema_of input, rows_at (dbConn s) (ct_TableName input))]> (tables (dbConn s)) ∧
  tableAttributes s' = <[ct_TableName input := attributes_of input]> (tableAttributes s).
Proof.
  intros Hcat Hc (u & s1 & E & [= <-])%bind_inv. unfold on_db in E. rewrite create_text in E.
  destruct (exec _ [] (dbConn s)) as [o d] eqn:Ex.
  pose proof (create_law _ _ _ _ _ Hcat Ex) as Ht. destruct o; [|done]. injection E as _ <-.
  split; [|done]. cbn [dbConn]. rewrite Ht. unfold rows_at. destruct Hc as [Hn|Hs].
  - by rewrite Hn.
  - rewrite Hs. cbn [from_option snd]. symmetry. by rewrite insert_id.
Qed.
End calls.

(** * What main prints *)

Section main.
Context `{SqlServer D catalog} `{MapRange}.
Implicit Types s : DynamoDB D.

Definition users_key (u : string) : list string := collate <$> ["org#1"; u].
Definition orders_key (o : string) : list string := collate <$> ["user#1"; o].

Definition users_after (m : table) : table :=
  <[users_key "user#2" := user2]> (<[users_key "user#1" := user1]> m).
Definition orders_after (m : table) : table :=
  <[orders_key "order#2" := order2]> (<[orders_key "order#1" := order1]> m).

(** The state after the two tables and the four items. *)
Record set_up s s' : Prop := {
  su_users_attr : tableAttributes s' !! "users" = Some (attributes_of users_table_input);
  su_orders_attr : tableAttributes s' !! "orders" = Some (attributes_of orders_table_input);
  su_users : tables (dbConn s') !! "users" = Some (users_schema, users_after (rows_at (dbConn s) "users"));
  su_orders : tables (dbConn s') !! "orders" = Some (orders_schema, orders_after (rows_at (dbConn s) "orders"));
}.

Lemma put_user (l : list (string * string)) (vs : item) (m : table) s s' :
  put_ok (tableName := "users") (pk := "org_id") (sk := Some "user_id") (sch := users_schema) (mkPut "users" (map_of l) vs) →
  tableAttributes s !! "users" = Some (attributes_of users_table_input) →
  tables (dbConn s) !! "users" = Some (users_schema, m) →
  PutItem (mkPut "users" (map_of l) vs) s = (Ok (), s') →
  tableAttributes s' = tableAttributes s ∧
  tables (dbConn s') = <["users" := (users_schema,
    <[collate <$> put_key (pk := "org_id") (sk := Some "user_id") (mkPut "users" (map_of l) vs) :=
      put_item_of (pk := "org_id") (sk := Some "user_id") (mkPut "users" (map_of l) vs)]> m)]> (tables (dbConn s)).
Proof. intros Hp Ha Hm E. apply (PutItem_spec users_ok _ _ _ _ _ (conj (ex_intro _ [] Ha) Hm) Hp E). Qed.

Lemma put_order (l : list (string * string)) (vs : item) (m : table) s s' :
  put_ok (tableName := "orders") (pk := "user_id") (sk := Some "order_id") (sch := orders_schema) (mkPut "orders" (map_of l) vs) →
  tableAttributes s !! "orders" = Some (attributes_of orders_table_input) →
  tables (dbConn s) !! "orders" = Some (orders_schema, m) →
  PutItem (mkPut "orders" (map_of l) vs) s = (Ok (), s') →
  tableAttributes s' = tableAttributes s ∧
  tables (dbConn s') = <["orders" := (orders_schema,
    <[collate <$> put_key (pk := "user_id") (sk := Some "order_id") (mkPut "orders" (map_of l) vs) :=
      put_item_of (pk := "user_id") (sk := Some "order_id") (mkPut "orders" (map_of l) vs)]> m)]> (tables (dbConn s)).
Proof.
  intros Hp Ha Hm E.
  apply (PutItem_spec orders_ok _ _ _ _ _ (conj (ex_intro _ [mkLSI "status_index" "status"] Ha) Hm) Hp E).
Qed.

Lemma main_inv address s x s' :
  creatable (dbConn s) "users" users_schema → creatable (dbConn s) "orders" orders_schema →
  main address s = (Ok x, s') → Forall is_inl (setup x) →
  ∃ s1 s2 s3, set_up s s1 ∧
    GetItem (get_user1 address) s1 = (match got x with inl a => Ok a | inr e => Err e end, s2) ∧
    Query query_orders s2 = (match queried x with inl a => Ok a | inr e => Err e end, s3) ∧
    Query query_completed s3 = (match completed x with inl a => Ok a | inr e => Err e end, s').
Proof.
  intros Cu Co. unfold main.
  intros (c1 & t1 & E1%attempt_inl & (c2 & t2 & E2%attempt_inl & (p1 & t3 & E3%attempt_inl &
    (p2 & t4 & E4%attempt_inl & (p3 & t5 & E5%attempt_inl & (p4 & t6 & E6%attempt_inl &
    (g & t7 & E7%attempt_inl & (q1 & t8 & E8%attempt_inl & (q2 & t9 & E9%attempt_inl & [= <- <-])%bind_inv)%bind_inv)%bind_inv)%bind_inv)%bind_inv)%bind_inv)%bind_inv)%bind_inv)%bind_inv.
  cbn [setup got queried completed]. intros Hin.
  exists t6, t7, t8. split_and!; [|done..].
  repeat (apply Forall_cons in Hin as [? Hin]).
  destruct c1 as [[]|], c2 as [[]|], p1 as [[]|], p2 as [[]|], p3 as [[]|], p4 as [[]|]; try done.
  apply CreateTable_ok in E1 as [T1 A1]; [|done..].
  apply CreateTable_ok in E2 as [T2 A2]; [|done|].
  2: { change (creatable (dbConn t1) "orders" orders_schema). unfold creatable, rows_at.
       rewrite T1, lookup_insert_ne by done. exact Co. }
  cbn [ct_TableName users_table_input orders_table_input] in A1, A2, T1, T2.
  set (u0 := rows_at (dbConn s) "users") in *. set (o0 := rows_at (dbConn t1) "orders") in *.
  assert (o0 = rows_at (dbConn s) "orders") as Ho0 by (unfold o0, rows_at; by rewrite T1, lookup_insert_ne).
  assert (tables (dbConn t2) !! "users" = Some (users_schema, u0) ∧
    tables (dbConn t2) !! "orders" = Some (orders_schema, o0)) as [Hu Ho].
  { rewrite T2, T1. split; [by rewrite lookup_insert_ne, lookup_insert_eq|by rewrite lookup_insert_eq]. }
  assert (tableAttributes t2 !! "users" = Some (attributes_of users_table_input) ∧
    tableAttributes t2 !! "orders" = Some (attributes_of orders_table_input)) as [Au Ao].
  { rewrite A2, A1. split; [by rewrite lookup_insert_ne, lookup_insert_eq|by rewrite lookup_insert_eq]. }
  clear A1 A2 T1 T2 Cu Co.
  apply put_user with (m := u0) in E3 as [A3 T3]; [|split; [done|by apply put_columns_ok]|exact Au|exact Hu].
  rewrite <-A3 in Au, Ao.
  eapply put_user in E4 as [A4 T4]; [|split; [done|by apply put_columns_ok]|exact Au|rewrite T3; apply lookup_insert_eq].
  rewrite <-A4 in Au, Ao.
  assert (tables (dbConn t4) !! "orders" = Some (orders_schema, o0)) as Ho4 by by rewrite T4, T3, !lookup_insert_ne.
  apply put_order with (m := o0) in E5 as [A5 T5]; [|split; [done|by apply put_columns_ok]|exact Ao|exact Ho4].
  rewrite <-A5 in Au, Ao.
  eapply put_order in E6 as [A6 T6]; [|split; [done|by apply put_columns_ok]|exact Ao|rewrite T5; apply lookup_insert_eq].
  rewrite <-A6 in Au, Ao.
  split; [done|done| |].
  - rewrite T6, T5, !lookup_insert_ne, T4, lookup_insert_eq by done. reflexivity.
  - rewrite T6, lookup_insert_eq, Ho0. reflexivity.
Qed.

(** The collation tells the keys and the states of the orders apart, and sorts the two orders. *)
Record plain_collation : Prop := {
  pc_users : collate "user#1" ≠ collate "user#2";
  pc_orders : collate "order#1" ≠ collate "order#2";
  pc_status : collate "pending" ≠ collate "completed";
  pc_names : collate "user#1" ≠ collate "completed";
  pc_sorted : ¬ str_le "order#2" "order#1";
}.

(** Before the run there are no other orders of the user, and none of a user "completed". *)
Definition no_other_orders (m : table) : Prop := ∀ k x, m !! k = Some x →
  (cell_is collate x ("user_id", "user#1") → k = orders_key "order#1" ∨ k = orders_key "order#2") ∧
  ¬ cell_is collate x ("user_id", "completed").

Lemma orders_key_ne : plain_collation → orders_key "order#1" ≠ orders_key "order#2".
Proof. intros Hc E. apply (pc_orders Hc). by injection E. Qed.

(** The rows that satisfy the conditions, given as a list. *)
Lemma selection_list (m : table) conds o l (L : list (list string * item)) :
  NoDup L → (∀ kx, kx ∈ L ↔ m !! kx.1 = Some kx.2 ∧ Forall (cell_is collate kx.2) conds) →
  selection collate str_le m conds o l → l ≡ₚ L.*2 ∧ StronglySorted (before str_le o) l.
Proof.
  intros Hnd HL [Hp Hs]. split; [|done]. rewrite Hp. apply fmap_Permutation, NoDup_Permutation.
  - apply NoDup_filter, NoDup_map_to_list.
  - done.
  - intros [k x]. rewrite list_elem_of_filter, HL, elem_of_map_to_list. cbn. tauto.
Qed.

Lemma view_items l :
  Forall (λ x : item, x = order1 ∨ x = order2) l → item_of order_columns <$> (project order_columns <$> l) = l.
Proof.
  assert (∀ x, x = order1 ∨ x = order2 → item_of order_columns (project order_columns x) = x) as Hx.
  { intros x [->| ->]; apply (bool_decide_unpack _); vm_compute; exact I. }
  induction 1 as [|x l Hl _ IH]; [done|]. csimpl. f_equal; [by apply Hx|exact IH].
Qed.

(** The orders after the set-up. *)
Lemma order_cases (m : table) k x :
  orders_after m !! k = Some x →
  k = orders_key "order#2" ∧ x = order2 ∨
  k = orders_key "order#1" ∧ k ≠ orders_key "order#2" ∧ x = order1 ∨
  k ≠ orders_key "order#1" ∧ k ≠ orders_key "order#2" ∧ m !! k = Some x.
Proof.
  unfold orders_after. intros [[<- <-]|[Hn2 [[<- <-]|[Hn1 Hm]]%lookup_insert_Some]]%lookup_insert_Some; auto 10.
Qed.

Section orders.
Context (m : table) (Hc : plain_collation) (Hm : no_other_orders m).

Lemma lookup_orders :
  orders_after m !! orders_key "order#1" = Some order1 ∧ orders_after m !! orders_key "order#2" = Some order2.
Proof using Hc.
  split; [|apply lookup_insert_eq]. unfold orders_after. rewrite lookup_insert_ne, lookup_insert_eq; [done|].
  intros E. by apply (orders_key_ne Hc).
Qed.

(** The orders of the user, by descending keys. *)
Lemma by_user_rows l :
  selection collate str_le (orders_after m) [("user_id", "user#1")] (Some ("order_id", false)) l →
  l = [order2; order1].
Proof using Hc Hm.
  intros Hs. destruct lookup_orders as [L1 L2].
  apply (selection_list _ _ _ _ [(orders_key "order#2", order2); (orders_key "order#1", order1)]) in Hs as [Hp Hsort].
  - symmetry in Hp. csimpl in *. apply Permutation_length_2_inv in Hp as [->| ->]; [done|].
    exfalso. apply StronglySorted_inv in Hsort as [_ Hf]. apply Forall_cons in Hf as [Hle _].
    by apply (pc_sorted Hc).
  - apply NoDup_cons. split; [|apply NoDup_singleton]. by intros [=]%list_elem_of_singleton.
  - intros [k x]. cbn [fst snd]. rewrite elem_of_cons, list_elem_of_singleton, Forall_singleton. split.
    + intros [[= -> ->]|[= -> ->]]; (split; [done|]); reflexivity.
    + intros [Hk Hu]. apply order_cases in Hk as [[-> ->]|[(-> & _ & ->)|(Hn1 & Hn2 & Hk)]]; [by left|by right|].
      destruct (proj1 (Hm k x Hk) Hu); contradiction.
Qed.

(** The completed ones: those of the user; but of a user "completed", in state "user#1", none. *)
Lemma by_status_rows u st o l :
  selection collate str_le (orders_after m) [("user_id", u); ("status", st)] o l →
  (u, st) = ("user#1", "completed") ∨ (u, st) = ("completed", "user#1") →
  l = if decide ([u; st] = ["user#1"; "completed"]) then [order2] else [].
Proof using Hc Hm.
  intros Hs Hargs. pose proof (pc_names Hc) as Huc. destruct lookup_orders as [L1 L2]. destruct Hargs as [[= -> ->]|[= -> ->]].
  - apply (selection_list _ _ _ _ [(orders_key "order#2", order2)]) in Hs as [Hp _].
    + by apply Permutation_singleton_r in Hp as ->.
    + apply NoDup_singleton.
    + intros [k x]. cbn [fst snd]. rewrite list_elem_of_singleton, Forall_cons, Forall_singleton. split.
      * intros [= -> ->]. split; [done|]. split; reflexivity.
      * intros (Hk & Hu & Hst). apply order_cases in Hk as [[-> ->]|[(-> & _ & ->)|(Hn1 & Hn2 & Hk)]]; [done|..].
        -- by destruct (pc_status Hc).
        -- destruct (proj1 (Hm k x Hk) Hu); contradiction.
  - apply (selection_list _ _ _ _ []) in Hs as [Hp _].
    + by apply Permutation_nil_r in Hp as ->.
    + apply NoDup_nil_2.
    + intros [k x]. rewrite Forall_cons, Forall_singleton. cbn [fst snd]. split; [by intros ?%not_elem_of_nil|].
      intros (Hk & Hu & _). exfalso.
      apply order_cases in Hk as [[-> ->]|[(-> & _ & ->)|(Hn1 & Hn2 & Hk)]]; [done..|].
      by destruct (Hm k x Hk) as [_ []].
Qed.
End orders.

(** The arguments of the last query, in the order of the map. *)
Lemma completed_args :
  query_values query_completed = ["user#1"; "completed"] ∨ query_values query_completed = ["completed"; "user#1"].
Proof.
  unfold query_values. assert (range (q_KeyValues query_completed) ≡ₚ [("user_id", "user#1"); ("status", "completed")]) as Hp.
  { rewrite range_perm. apply (bool_decide_unpack _). vm_compute. exact I. }
  apply (fmap_Permutation snd) in Hp. symmetry in Hp. csimpl in *.
  by apply Permutation_length_2_inv in Hp as [->| ->]; [left|right].
Qed.

Lemma orders_args : query_values query_orders = ["user#1"].
Proof.
  unfold query_values. assert (range (q_KeyValues query_orders) ≡ₚ [("user_id", "user#1")]) as Hp
    by (rewrite range_perm; apply (bool_decide_unpack _); vm_compute; exact I).
  by apply Permutation_singleton_r in Hp as ->.
Qed.

Lemma query_orders_ok : query_ok (tableName := "orders") (sch := orders_schema) query_orders
  (attributes_of orders_table_input) "order_id" order_columns ["user_id"].
Proof.
  split; [done..| |done| |by rewrite <-(length_map_to_list (q_KeyValues _))|right; apply (bool_decide_unpack _); vm_compute; exact I].
  - split_and!; [apply (bool_decide_unpack _); vm_compute; exact I|apply sub_columns; vm_compute; reflexivity|done].
  - split; [apply sub_columns; vm_compute; reflexivity|done].
Qed.

Lemma query_completed_ok : query_ok (tableName := "orders") (sch := orders_schema) query_completed
  (attributes_of orders_table_input) "status" order_columns ["user_id"; "status"].
Proof.
  split; [done..| |done| |by rewrite <-(length_map_to_list (q_KeyValues _))|right; apply (bool_decide_unpack _); vm_compute; exact I].
  - split_and!; [apply (bool_decide_unpack _); vm_compute; exact I|apply sub_columns; vm_compute; reflexivity|done].
  - split; [apply sub_columns; vm_compute; reflexivity|done].
Qed.

(** A query of the orders whose rows are known. *)
Lemma query_prints input by_ conds s m L r s' :
  query_ok (tableName := "orders") (sch := orders_schema) input (attributes_of orders_table_input) by_ order_columns conds →
  tableAttributes s !! "orders" = Some (attributes_of orders_table_input) →
  tables (dbConn s) !! "orders" = Some (orders_schema, m) →
  (∀ l, selection collate str_le m (zip conds (query_values input)) (order_of input by_) l → l = L) →
  Forall (λ x : item, x = order1 ∨ x = order2) L →
  Query input s = (r, s') →
  (∀ items, r = Ok items → items `prefix_of` L) ∧ (reliable (D := D) → r = Ok L).
Proof.
  intros Hq Ha Hm Hl HL. destruct (query (text (Select order_columns "orders" conds (order_of input by_)))
    (IStr <$> query_values input) (dbConn s)) as [rr d'] eqn:Eq.
  rewrite (Query_answer orders_ok _ _ _ _ _ _ _ _ Hq Ha Eq). destruct rr as [[rows e]|e].
  - destruct (Query_rows _ _ _ _ _ _ _ _ _ _ Hq Hm Eq) as (l & n & Hsel & -> & He). apply Hl in Hsel as ->.
    rewrite scan_all_ok by (apply Forall_fmap, Forall_forall; by intros x _).
    rewrite view_items by by apply Forall_take. intros [= <- _]. split.
    + intros items [= <-]. apply prefix_take.
    + intros Hrel. destruct (Hrel _ _ _ _ _ _ _ _ _ Hm (query_askable _ _ _ _ _ Hq)) as (rows & d'' & Eq').
      rewrite Eq in Eq'. injection Eq' as _ -> _. by rewrite He.
  - intros [= <- _]. split; [done|]. intros Hrel. exfalso.
    destruct (Hrel _ _ _ _ _ _ _ _ _ Hm (query_askable _ _ _ _ _ Hq)) as (rows & d'' & Eq').
    by rewrite Eq in Eq'.
Qed.

Definition printed {A} (r : A + goerr) : outcome A := match r with inl a => Ok a | inr e => Err e end.

Lemma get_user1_ok address :
  get_ok (tableName := "users") (sk := Some "user_id") (pk := "org_id") (sch := users_schema) (get_user1 address)
    user_columns ["org#1"; "user#1"].
Proof.
  split_and!; [done..| | |discriminate|reflexivity|reflexivity].
  - apply (bool_decide_unpack _). vm_compute. exact I.
  - apply sub_columns. vm_compute. reflexivity.
Qed.

(** C25: The two tables are not there or are as main creates them, and hold no other orders of the
    user; the collation tells the keys, names and states apart and sorts the order keys; the six
    calls that create the tables and put the items succeed.  Then, when the database answers
    every SELECT to its last row: the look-up prints the first user, column by column; the first
    query prints the user's two orders, the last one first; the second prints the completed
    order when Go runs over its two key values in the right order, and nothing when it takes
    them the other way round.  In any case what a call prints, if it does not fail, is this, or
    for the queries the beginning of it (an iteration over the rows that breaks off leaves the
    end out). *)
Theorem main_prints address s x s' :
  plain_collation → no_other_orders (rows_at (dbConn s) "orders") →
  creatable (dbConn s) "users" users_schema → creatable (dbConn s) "orders" orders_schema →
  main address s = (Ok x, s') → Forall is_inl (setup x) →
  let last := if decide (query_values query_completed = ["user#1"; "completed"]) then [order2] else [] in
  (∀ i c, got x = inl i → c ∈ user_columns → i !! c = Some (at_key user1 c)) ∧
  (∀ l, queried x = inl l → l `prefix_of` [order2; order1]) ∧
  (∀ l, completed x = inl l → l `prefix_of` last) ∧
  (reliable (D := D) → is_inl (got x) ∧ queried x = inl [order2; order1] ∧ completed x = inl last).
Proof.
  intros Hc Hm Cu Co E Hin last. destruct (main_inv address s x s' Cu Co E Hin) as (s1 & s2 & s3 & [Au Ao Hu Ho] & Eg & Eq1 & Eq2).
  pose proof (keeps_GetItem (get_user1 address) s1) as K1. rewrite Eg in K1.
  pose proof (keeps_Query query_orders s2) as K2. rewrite Eq1 in K2. unfold known in K1, K2. cbn [snd] in K1, K2.
  injection K1 as A2 T2. injection K2 as A3 T3.
  assert (holds (tableName := "users") (pk := "org_id") (sk := Some "user_id") (sch := users_schema) s1
    (users_after (rows_at (dbConn s) "users"))) as Hh by (split; [by exists []|exact Hu]).
  assert (users_after (rows_at (dbConn s) "users") !! users_key "user#1" = Some user1) as Hrow.
  { unfold users_after. rewrite lookup_insert_ne, lookup_insert_eq; [done|]. intros F. apply (pc_users Hc). by injection F. }
  assert (tableAttributes s2 !! "orders" = Some (attributes_of orders_table_input)) as Ao2 by by rewrite A2.
  assert (tableAttributes s3 !! "orders" = Some (attributes_of orders_table_input)) as Ao3 by by rewrite A3, A2.
  rewrite <-T2 in Ho. pose proof Ho as Ho3. rewrite <-T3 in Ho3.
  apply (query_prints _ _ _ _ _ [order2; order1] _ _ query_orders_ok Ao2 Ho) in Eq1 as [P1 R1];
    [|intros l Hl; rewrite orders_args in Hl; by apply (by_user_rows _ Hc Hm)|rewrite !Forall_cons, Forall_nil; auto].
  apply (query_prints _ _ _ _ _ last _ _ query_completed_ok Ao3 Ho3) in Eq2 as [P2 R2].
  2: { unfold last. intros l Hl. destruct completed_args as [Ea|Ea]; rewrite Ea in Hl |- *;
       apply (by_status_rows _ Hc Hm) in Hl; auto. }
  2: { unfold last. destruct (decide _); rewrite ?Forall_cons, Forall_nil; auto. }
  split_and!.
  - intros i c Ei Hcol. rewrite Ei in Eg.
    destruct (GetItem_spec users_ok _ _ _ _ _ _ _ Hh (get_user1_ok address) Eg) as (row & Hrow' & Hi).
    rewrite (Hi c Hcol). do 2 f_equal. change (users_after (rows_at (dbConn s) "users") !! users_key "user#1" = Some row) in Hrow'.
    congruence.
  - intros l El. rewrite El in P1. by apply P1.
  - intros l El. rewrite El in P2. by apply P2.
  - intros Hrel. specialize (R1 Hrel). specialize (R2 Hrel). split_and!.
    + destruct (GetItem_found users_ok _ _ _ _ _ Hrel Hh (get_user1_ok address)) as (i & s'' & Ei);
        [done|done|by exists user1|]. rewrite Ei in Eg. by destruct (got x).
    + destruct (queried x); congruence.
    + destruct (completed x); congruence.
Qed.
End main.

(** * A run *)

#[local] Existing Instances SqlServer.store_driver SqlServer.store_server.

(** The database before its first run. *)
Definition no_tables : DynamoDB store := mkDynamo ∅ ∅.

Lemma main_prints_witness :
  ∃ x s', main "0xc000014070" no_tables = (Ok x, s') ∧
    queried x = inl [order2; order1] ∧
    completed x = inl (if decide (query_values query_completed = ["user#1"; "completed"]) then [order2] else []).
Proof.
  destruct (main "0xc000014070" no_tables) as [o s'] eqn:E.
  assert (match o with Ok x => forallb (λ x : unit + goerr, match x with inl _ => true | inr _ => false end) (setup x)
          | _ => false end = true) as Hin.
  { pose proof (f_equal (λ r, match r.1 with
      Ok x => forallb (λ x : unit + goerr, match x with inl _ => true | inr _ => false end) (setup x) | _ => false end) E) as Hx.
    cbn [fst] in Hx. rewrite <-Hx. vm_compute. reflexivity. }
  destruct o as [x|e|w|]; [|done..]. exists x, s'. split; [done|].
  destruct (main_prints "0xc000014070" no_tables x s') as (_ & _ & _ & Hrel); [|done|by left|by left|exact E| |].
  - split; by intros Hf; vm_compute in Hf.
  - rewrite forallb_forall in Hin. apply Forall_forall. intros y Hy%list_elem_of_In%Hin. by destruct y.
  - destruct (Hrel SqlServer.store_reliable) as (_ & Hq & Hl). split; [exact Hq|exact Hl].
Defined.
End DynamoMain.
