(* ===== verification/Upsert.v ===== *)
(** [relational-db/upsert/main.go]: a hundred goroutines that write rows of their own, with
    INSERT, with INSERT ... ON DUPLICATE KEY UPDATE, or with REPLACE.  The database is a
    parameter; each [Exec] is one step of it. *)

From Stdlib Require Import ZArith Lia Ascii String.
From stdpp Require Import gmap strings list list_numbers fin_maps relations.
From S2P Require Import Prelude GoLib.

Module Upsert.

(** * The database *)

(** The table [upsert_testing]: rows by their unique name, and where the automatic
    identifiers go on. *)
Record row := mkRow { row_id : Z; row_age : Z }.
Record table := mkTable { rows : gmap string row; next_id : Z }.

Definition nl : string := String "010"%char "".
Definition tab : string := String "009"%char "".

(** The statements that the database is relied on for. *)
Definition sql_insert : string := "INSERT INTO upsert_testing (name, age) VALUES (?, ?);".
Definition sql_upsert : string :=
  "INSERT INTO upsert_testing (name, age) VALUES (?, ?)" +:+ nl +:+ tab +:+ tab +:+ tab
    +:+ "  ON DUPLICATE KEY UPDATE age = VALUES(age);".
Definition sql_replace : string := "REPLACE INTO upsert_testing (name, age) VALUES (?, ?);".
Definition queries : list string := [sql_insert; sql_upsert; sql_replace].

(** [db.Exec(query, name, age)]. *)
Class Database (D : Type) := exec : string → string → Z → D → (unit + goerr) → D → Prop.

(** The row a statement leaves under a name: an INSERT wants the name to be new; an update
    keeps the identifier; a REPLACE deletes the old row and inserts. *)
Definition accepts (query name : string) (age : Z) (t : table) (r : row) : Prop :=
  row_age r = age ∧
  match rows t !! name with
  | Some old =>
      if decide (query = sql_insert) then False
      else if decide (query = sql_upsert) then row_id r = row_id old
      else next_id t ≤ row_id r
  | None => next_id t ≤ row_id r
  end.

Definition stored (query name : string) (age : Z) (t t' : table) : Prop :=
  ∃ r, accepts query name age t r ∧ rows t' = <[name := r]> (rows t) ∧
    next_id t ≤ next_id t'.
Definition same_rows (t t' : table) : Prop := rows t' = rows t ∧ next_id t ≤ next_id t'.

(** A call that fails did nothing, or its reply was lost. *)
Class DatabaseLaws (D : Type) `{Database D} := {
  contents : D → table;
  exec_law query name age d r d' : query ∈ queries → exec query name age d r d' →
    match r with
    | inl _ => stored query name age (contents d) (contents d')
    | inr _ => same_rows (contents d) (contents d') ∨ stored query name age (contents d) (contents d')
    end;
}.

(** * The goroutines *)

(** [fmt.Sprintf("name_%d_%d", iteration, i)]. *)
Definition name (iteration i : Z) : string := "name_" +:+ itoa iteration +:+ "_" +:+ itoa i.

Definition goroutines : Z := 100.
Definition iterations : Z := 10000.

(** A goroutine at iteration [i] of its loop, at its end, or returned early at [i]. *)
Inductive worker := Running (i : Z) | Finished | Failed (i : Z).
#[export] Instance worker_eq_dec : EqDecision worker.
Proof. solve_decision. Defined.

(** The head of the loop. *)
Definition loop (i : Z) : worker := if i <=? iterations then Running i else Finished.
Definition ended (w : worker) : bool := match w with Running _ => false | _ => true end.

Section run.
Context `{Database D}.

Record state := mkState { db : D; wg : Z; workers : list worker }.

(** What follows the [Exec] of iteration [i]. *)
Definition continue (i : Z) (r : unit + goerr) : worker :=
  match r with inr _ => Failed i | inl _ => loop (i + 1) end.
(** The deferred [wg.Done()], when the goroutine ends. *)
Definition wg_done (w : worker) (wg : Z) : Z := if ended w then wg - 1 else wg.

(** Goroutine [k + 1] makes its next call. *)
Inductive step (query : string) (age : Z → Z) : state → state → Prop :=
| step_exec s k i r d' :
    workers s !! k = Some (Running i) →
    exec query (name (1 + Z.of_nat k) i) (age i) (db s) r d' →
    step query age s (mkState d' (wg_done (continue i r) (wg s)) (<[k := continue i r]> (workers s))).

Definition start (d : D) : state :=
  mkState d goroutines ((λ _, loop 1) <$> seqZ 1 goroutines).

(** A call of one of the functions: it returns when the wait group is at zero; [ws] is how
    its goroutines ended. *)
Definition bench (query : string) (age : Z → Z) (d : D) (ws : list worker) (d' : D) : Prop :=
  ∃ s, rtc (step query age) (start d) s ∧ wg s = 0 ∧ db s = d' ∧ workers s = ws.

(** The statements that the three functions send. *)
Definition insert_query : string := "INSERT INTO upsert_testing (name, age) VALUES (?, ?);".
Definition upsert_query : string :=
  "INSERT INTO upsert_testing (name, age) VALUES (?, ?)" +:+ nl +:+ tab +:+ tab +:+ tab
    +:+ "  ON DUPLICATE KEY UPDATE age = VALUES(age);".
Definition replace_query : string := "REPLACE INTO upsert_testing (name, age) VALUES (?, ?);".

Definition insertIntoTable := bench insert_query (λ i, i).
Definition benchmarkOnDuplicateKeyUpdate := bench upsert_query (λ i, i + 1).
Definition benchmarkReplaceInto := bench replace_query (λ i, i + 1).

Definition main (d : D) (ws1 ws2 : list worker) (d' : D) : Prop :=
  ∃ d1, insertIntoTable d ws1 d1 ∧ benchmarkReplaceInto d1 ws2 d'.
End run.
Arguments state : clear implicits.

(** * Names *)

Lemma name_inj g i g' i' : name g i = name g' i' → g = g' ∧ i = i'.
Proof.
  unfold name. intros E%(inj (String.append "name_")).
  apply (str_sep_inj "_") in E as [?%(inj itoa) ?%(inj itoa)]; [done|..]; apply itoa_without; by repeat constructor.
Qed.

Definition in_loop (i : Z) : Prop := 1 ≤ i ≤ iterations.
Definition goroutine (g : Z) : Prop := 1 ≤ g ≤ goroutines.

(** A name the goroutines write, or another. *)
Lemma name_cases n :
  (∃ g i, goroutine g ∧ in_loop i ∧ n = name g i) ∨
  (∀ g i, goroutine g → in_loop i → n ≠ name g i).
Proof.
  destruct (decide (Exists (λ g, Exists (λ i, n = name g i) (seqZ 1 iterations)) (seqZ 1 goroutines))) as [He|He].
  - left. apply Exists_exists in He as (g & Hg%elem_of_seqZ & He).
    apply Exists_exists in He as (i & Hi%elem_of_seqZ & ->).
    exists g, i. unfold goroutine, in_loop. split_and!; [lia..|done].
  - right. intros g i Hg Hi ->. unfold goroutine, in_loop in *. apply He. apply Exists_exists.
    exists g. split; [apply elem_of_seqZ; lia|]. apply Exists_exists. exists i.
    split; [apply elem_of_seqZ; lia|done].
Qed.

(** * What a goroutine has done to its rows *)

Section invariant.
Context `{DatabaseLaws D} (query : string) (age : Z → Z).
Hypothesis query_ok : query ∈ queries.

Implicit Types (t : table) (s : state D).

Lemma stored_next n a t t' : stored query n a t t' → next_id t ≤ next_id t'.
Proof. by intros (r & _ & _ & ?). Qed.

(** A row accepted later, when nothing had touched its name. *)
Lemma accepts_earlier n a t0 t r :
  rows t !! n = rows t0 !! n → next_id t0 ≤ next_id t → accepts query n a t r → accepts query n a t0 r.
Proof.
  unfold accepts. intros -> Hn [Ha Hr]. split; [done|]. destruct (rows t0 !! n); [|lia].
  repeat case_decide; [done|done|lia].
Qed.

Definition at_ (w : worker) : Z :=
  match w with Running i | Failed i => i | Finished => iterations + 1 end.

(** The row of iteration [i] is written before the goroutine's position, and as it was from
    there on; a call that failed leaves it open. *)
Definition written (t0 : table) (g i : Z) (v : option row) : Prop :=
  ∃ r, v = Some r ∧ accepts query (name g i) (age i) t0 r.
Definition cell (t0 : table) (w : worker) (g i : Z) (v : option row) : Prop :=
  if i <? at_ w then written t0 g i v
  else v = rows t0 !! name g i ∨ w = Failed i ∧ written t0 g i v.

Record inv (t0 : table) s : Prop := {
  i_wg : wg s = zsum ((λ w, if ended w then 0 else 1) <$> workers s);
  i_len : length (workers s) = Z.to_nat goroutines;
  i_pos k w : workers s !! k = Some w → in_loop (at_ w) ∨ w = Finished;
  i_cells k w i : workers s !! k = Some w → in_loop i →
    cell t0 w (1 + Z.of_nat k) i (rows (contents (db s)) !! name (1 + Z.of_nat k) i);
  i_others n : (∀ g i, goroutine g → in_loop i → n ≠ name g i) →
    rows (contents (db s)) !! n = rows t0 !! n;
  i_next : next_id t0 ≤ next_id (contents (db s));
}.

Lemma inv_start d : inv (contents d) (start d).
Proof.
  assert (∀ k w, workers (start d) !! k = Some w → w = Running 1) as Hw.
  { intros k w. cbn [start workers]. rewrite list_lookup_fmap. by intros (? & _ & ->)%fmap_Some. }
  split; try done.
  - intros k w ->%Hw. by left.
  - intros k w i ->%Hw Hi. unfold cell. cbn [at_]. destruct (Z.ltb_spec i 1); [unfold in_loop in Hi; lia|].
    by left.
Qed.

(** The goroutine of a position is one of the hundred. *)
Lemma inv_goroutine t0 s k w : inv t0 s → workers s !! k = Some w → goroutine (1 + Z.of_nat k).
Proof.
  intros Hi Hk%lookup_lt_Some. rewrite (i_len _ _ Hi) in Hk. unfold goroutine, goroutines in *. lia.
Qed.

(** The positions after a call. *)
Lemma continue_at i r : in_loop i →
  match r with inl _ => at_ (continue i r) = i + 1 | inr _ => at_ (continue i r) = i end ∧
  (in_loop (at_ (continue i r)) ∨ continue i r = Finished).
Proof.
  intros Hi. destruct r as [[]|e]; cbn; [|by split; [|left]]. unfold loop.
  destruct (Z.leb_spec (i + 1) iterations); cbn; [split; [done|left]|split; [|by right]];
    unfold in_loop in *; lia.
Qed.

(** A call leaves the cells of its goroutine in order. *)
Lemma cell_step t0 t g i i' r v' :
  in_loop i → in_loop i' → rows t !! name g i = rows t0 !! name g i → next_id t0 ≤ next_id t →
  match r with
  | inl _ => ∃ x, accepts query (name g i) (age i) t x ∧ v' i = Some x
  | inr _ => v' i = rows t !! name g i ∨ ∃ x, accepts query (name g i) (age i) t x ∧ v' i = Some x
  end →
  (∀ j, j ≠ i → v' j = rows t !! name g j) →
  cell t0 (Running i) g i' (rows t !! name g i') → cell t0 (continue i r) g i' (v' i').
Proof.
  intros Hi Hi' Hrow Hn Hr Hv Hc. destruct (continue_at i r Hi) as [Hat _]. unfold cell in *. cbn [at_] in Hc.
  assert (∀ x, accepts query (name g i) (age i) t x ∧ v' i = Some x → written t0 g i (v' i)) as Hw.
  { intros x [Hx ->]. exists x. split; [done|]. by eapply accepts_earlier. }
  destruct (decide (i' = i)) as [->|Hne].
  - destruct r as [u|e]; rewrite Hat.
    + destruct (Z.ltb_spec i (i + 1)); [|lia]. destruct Hr as [x Hx]. by eapply Hw.
    + rewrite Z.ltb_irrefl. destruct Hr as [->|[x Hx]]; [by left|right]. split; [done|]. by eapply Hw.
  - rewrite Hv by done.
    assert ((i' <? at_ (continue i r)) = (i' <? i)) as ->.
    { apply eq_true_iff_eq. rewrite !Z.ltb_lt. destruct r; rewrite Hat; lia. }
    destruct (i' <? i); [done|]. left. by destruct Hc as [?|[? _]].
Qed.

(** What a call does to the rows. *)
Lemma exec_rows n a d r d' :
  exec query n a d r d' →
  next_id (contents d) ≤ next_id (contents d') ∧
  (∀ n', n' ≠ n → rows (contents d') !! n' = rows (contents d) !! n') ∧
  match r with
  | inl _ => ∃ x, accepts query n a (contents d) x ∧ rows (contents d') !! n = Some x
  | inr _ => rows (contents d') !! n = rows (contents d) !! n ∨
      ∃ x, accepts query n a (contents d) x ∧ rows (contents d') !! n = Some x
  end.
Proof.
  intros E. pose proof (exec_law _ _ _ _ _ _ query_ok E) as Hl.
  assert (stored query n a (contents d) (contents d') →
    next_id (contents d) ≤ next_id (contents d') ∧
    (∀ n', n' ≠ n → rows (contents d') !! n' = rows (contents d) !! n') ∧
    ∃ x, accepts query n a (contents d) x ∧ rows (contents d') !! n = Some x) as Hst.
  { intros (x & Hx & -> & Hn). split; [done|]. split; [intros n' ?; by apply lookup_insert_ne|].
    exists x. by rewrite lookup_insert_eq. }
  destruct r as [u|e]; [by apply Hst|]. destruct Hl as [[-> Hn]|Hs]; [by auto|].
  destruct (Hst Hs) as (? & ? & ?). by auto.
Qed.

Lemma inv_step t0 s s' : step query age s s' → inv t0 s → inv t0 s'.
Proof.
  intros [s1 k i r d' Hk E] Hi. clear s s'. rename s1 into s.
  destruct (exec_rows _ _ _ _ _ E) as (Hn & Hother & Hr).
  pose proof (inv_goroutine _ _ _ _ Hi Hk) as Hg.
  assert (in_loop i) as Hil by (by destruct (i_pos _ _ Hi _ _ Hk)).
  pose proof Hi as [Iwg Ilen Ipos Icells Iothers Inext]. split; cbn [db wg workers].
  - rewrite (zsum_insert _ _ _ _ _ Hk), Iwg. unfold wg_done.
    change (ended (Running i)) with false. destruct (ended (continue i r)); lia.
  - by rewrite length_insert.
  - intros k' w [(<- & <- & _)|[Hne Hk']]%list_lookup_insert_Some; [by apply continue_at|by eapply Ipos].
  - intros k' w i' [(<- & <- & _)|[Hne Hk']]%list_lookup_insert_Some Hi'.
    + apply (cell_step t0 (contents (db s)) _ i i' r
        (λ j, rows (contents d') !! name (1 + Z.of_nat k) j)); try done.
      * specialize (Icells _ _ i Hk Hil). unfold cell in Icells. cbn [at_] in Icells.
        rewrite Z.ltb_irrefl in Icells. by destruct Icells as [?|[? _]].
      * intros j Hj. apply Hother. by intros [_ ?]%name_inj.
      * by apply Icells.
    + rewrite Hother; [by apply Icells|]. intros [? _]%name_inj. lia.
  - intros n Hn'. rewrite Hother; [by apply Iothers|]. by apply Hn'.
  - lia.
Qed.

Lemma reachable_ok d s : rtc (step query age) (start d) s → inv (contents d) s.
Proof.
  intros Hr. pose proof (inv_start d) as Hi. revert Hi. generalize (contents d). intros t0.
  induction Hr as [|s1 s2 s3 Hs _ IH]; [done|]. intros Hi. by eapply IH, inv_step.
Qed.

(** When the wait group is at zero every goroutine has ended. *)
Lemma all_ended t0 s k w : inv t0 s → wg s = 0 → workers s !! k = Some w → ended w = true.
Proof.
  intros Hi Hwg Hk. rewrite (i_wg _ _ Hi) in Hwg. destruct (ended w) eqn:Hw; [done|].
  enough (1 ≤ zsum ((λ w, if ended w then 0 else 1) <$> workers s)) by lia.
  apply zsum_elem.
  - apply Forall_fmap, Forall_forall. intros x _. cbn. by destruct (ended x).
  - apply list_elem_of_fmap. exists w. rewrite Hw. split; [done|]. by eapply list_elem_of_lookup_2.
Qed.

(** Goroutine [g] at its end: all rows are written, or those before the call that failed. *)
Lemma bench_spec d ws d' :
  bench query age d ws d' →
  length ws = Z.to_nat goroutines ∧
  (∀ k w, ws !! k = Some w → w = Finished ∨ ∃ i, w = Failed i ∧ in_loop i) ∧
  (∀ k w i, ws !! k = Some w → in_loop i →
     cell (contents d) w (1 + Z.of_nat k) i (rows (contents d') !! name (1 + Z.of_nat k) i)) ∧
  (∀ n, (∀ g i, goroutine g → in_loop i → n ≠ name g i) →
     rows (contents d') !! n = rows (contents d) !! n) ∧
  next_id (contents d) ≤ next_id (contents d').
Proof.
  intros (s & Hr & Hwg & <- & <-). pose proof (reachable_ok _ _ Hr) as Hi.
  split_and!; try apply Hi. intros k w Hk. pose proof (all_ended _ _ _ _ Hi Hwg Hk) as He.
  destruct (i_pos _ _ Hi _ _ Hk) as [Hp|?]; [|by left]. destruct w as [i| |i]; [done|by left|].
  right. by exists i.
Qed.

(** * Termination *)

(** The calls a goroutine may still make. *)
Definition remaining (w : worker) : Z := match w with Running i => iterations + 1 - i | _ => 0 end.

Lemma remaining_nonneg t0 s : inv t0 s → 0 ≤ zsum (remaining <$> workers s).
Proof.
  intros Hi. apply zsum_nonneg, Forall_fmap, Forall_lookup. intros k w Hk.
  destruct (i_pos _ _ Hi _ _ Hk) as [Hp| ->]; [|done]. destruct w; cbn in *; unfold in_loop in Hp; lia.
Qed.

Lemma remaining_step t0 s s' : step query age s s' → inv t0 s →
  zsum (remaining <$> workers s') < zsum (remaining <$> workers s).
Proof.
  intros [s1 k i r d' Hk E] Hi. cbn [workers]. rewrite (zsum_insert _ _ _ _ _ Hk).
  assert (in_loop i) as Hil by (by destruct (i_pos _ _ Hi _ _ Hk)). unfold in_loop in Hil.
  destruct r as [u|e]; cbn; [unfold loop; destruct (Z.leb_spec (i + 1) iterations); cbn|]; lia.
Qed.

(** Every goroutine ended, [wg] is at zero. *)
Lemma wg_zero t0 s : inv t0 s → (∀ k i, workers s !! k ≠ Some (Running i)) → wg s = 0.
Proof.
  intros Hi Hr. rewrite (i_wg _ _ Hi). clear Hi. destruct s as [d w ws]. cbn in *. clear d w.
  induction ws as [|w ws IH]; csimpl; [done|]. rewrite IH by (intros k i; apply (Hr (S k) i)).
  destruct w as [i| |i]; [|done..]. by destruct (Hr 0%nat i).
Qed.

(** A goroutine that has ended stays so. *)
Lemma ended_stays s s' k w :
  rtc (step query age) s s' → workers s !! k = Some w → ended w = true → workers s' !! k = Some w.
Proof.
  induction 1 as [|s1 s2 s3 Hs _ IH]; [done|]. intros Hk Hw. apply IH; [|done].
  destruct Hs as [s1 k' i r d' Hk' E]. cbn [workers]. rewrite list_lookup_insert_ne; [done|].
  intros ->. by rewrite Hk in Hk'; injection Hk' as ->.
Qed.

(** If the calls are answered, the function returns; without a goroutine that failed if they
    succeed. *)
Lemma can_end t0 (fails : Prop) s :
  (∀ s k i, inv t0 s → workers s !! k = Some (Running i) →
     ∃ r d', exec query (name (1 + Z.of_nat k) i) (age i) (db s) r d' ∧ (fails ∨ r = inl ())) →
  inv t0 s →
  ∃ s', rtc (step query age) s s' ∧ wg s' = 0 ∧
    (fails ∨ ((∀ i, Failed i ∉ workers s) → ∀ i, Failed i ∉ workers s')).
Proof.
  intros Ha. remember (Z.to_nat (zsum (remaining <$> workers s))) as n eqn:En.
  revert s En. induction (lt_wf n) as [n _ IH]. intros s -> Hi.
  destruct (decide (Exists (λ w, ended w = false) (workers s))) as [He|He].
  - apply Exists_exists in He as (w & Hw & He). apply list_elem_of_lookup in Hw as [k Hk].
    destruct w as [i| |i]; try done. destruct (Ha s k i Hi Hk) as (r & d' & E & Hr).
    set (s1 := mkState d' (wg_done (continue i r) (wg s)) (<[k := continue i r]> (workers s))).
    assert (step query age s s1) as Hs by by apply step_exec.
    pose proof (inv_step _ _ _ Hs Hi) as Hi'. pose proof (remaining_step _ _ _ Hs Hi).
    pose proof (remaining_nonneg _ _ Hi').
    destruct (IH (Z.to_nat (zsum (remaining <$> workers s1))) ltac:(lia) s1 eq_refl Hi')
      as (s' & Hr' & Hwg & Hf).
    exists s'. split; [by eapply rtc_l|]. split; [done|]. destruct Hr as [?| ->]; [by left|].
    destruct Hf as [?|Hf]; [by left|right]. intros Hnf. apply Hf. unfold s1. cbn [workers].
    intros j [k' Hj]%list_elem_of_lookup. apply list_lookup_insert_Some in Hj as [(_ & Hj & _)|[_ Hj]].
    + cbn in Hj. unfold loop in Hj. by destruct (i + 1 <=? iterations).
    + apply (Hnf j). by eapply list_elem_of_lookup_2.
  - exists s. split; [apply rtc_refl|]. split; [|by right]. apply (wg_zero t0); [done|].
    intros k i Hk. apply He. apply Exists_exists. exists (Running i). split; [|done].
    by eapply list_elem_of_lookup_2.
Qed.
End invariant.

(** * What the functions leave *)

Definition ages (t : table) : gmap string Z := row_age <$> rows t.

(** All goroutines came to their ends. *)
Definition complete (ws : list worker) : Prop := Forall (λ w, w = Finished) ws.

(** The loops one after another. *)
Definition loops (age : Z → Z) (is_ gs : list Z) (m : gmap string Z) : gmap string Z :=
  fold_left (λ m g, fold_left (λ m i, <[name g i := age i]> m) is_ m) gs m.
Definition sequential (age : Z → Z) : gmap string Z → gmap string Z :=
  loops age (seqZ 1 iterations) (seqZ 1 goroutines).

Lemma loop_other age g l (m : gmap string Z) n :
  (∀ i, i ∈ l → n ≠ name g i) → fold_left (λ m i, <[name g i := age i]> m) l m !! n = m !! n.
Proof.
  revert m. induction l as [|i l IH]; intros m Hn; [done|]. cbn. rewrite IH.
  - apply lookup_insert_ne. intros E. destruct (Hn i); [by left|done].
  - intros j Hj. apply Hn. by right.
Qed.

Lemma loop_at age g l (m : gmap string Z) i :
  i ∈ l → fold_left (λ m i, <[name g i := age i]> m) l m !! name g i = Some (age i).
Proof.
  revert m. induction l as [|j l IH]; intros m Hi; [by apply not_elem_of_nil in Hi|]. cbn.
  destruct (decide (i ∈ l)) as [Hl|Hl]; [by apply IH|]. apply elem_of_cons in Hi as [->|?]; [|done].
  rewrite loop_other; [apply lookup_insert_eq|]. intros i Hi [_ ->]%name_inj. done.
Qed.

Lemma loops_other age is_ gs m n :
  (∀ g i, g ∈ gs → i ∈ is_ → n ≠ name g i) → loops age is_ gs m !! n = m !! n.
Proof.
  unfold loops. revert m. induction gs as [|g gs IH]; intros m Hn; [done|]. cbn [fold_left].
  rewrite IH by (intros; apply Hn; [by right|done]). apply loop_other. intros i. apply Hn. by left.
Qed.

Lemma loops_at age is_ gs m g i :
  g ∈ gs → i ∈ is_ → loops age is_ gs m !! name g i = Some (age i).
Proof.
  intros Hg Hi. unfold loops. revert m. induction gs as [|h gs IH]; intros m; [by apply not_elem_of_nil in Hg|].
  cbn [fold_left]. destruct (decide (g ∈ gs)) as [Hl|Hl]; [by apply IH|].
  apply elem_of_cons in Hg as [<-|?]; [|done].
  pose proof (loops_other age is_ gs) as Ho. unfold loops in Ho. rewrite Ho; [by apply loop_at|].
  intros h j Hh _ [-> _]%name_inj. done.
Qed.

Lemma elem_of_goroutines g : g ∈ seqZ 1 goroutines ↔ goroutine g.
Proof. rewrite elem_of_seqZ. unfold goroutine. lia. Qed.
Lemma elem_of_iterations i : i ∈ seqZ 1 iterations ↔ in_loop i.
Proof. rewrite elem_of_seqZ. unfold in_loop. lia. Qed.

Lemma sequential_other age m n :
  (∀ g i, goroutine g → in_loop i → n ≠ name g i) → sequential age m !! n = m !! n.
Proof.
  intros Hn. unfold sequential. apply loops_other. intros g i Hg%elem_of_goroutines Hi%elem_of_iterations. by apply Hn.
Qed.

Lemma sequential_at age m g i :
  goroutine g → in_loop i → sequential age m !! name g i = Some (age i).
Proof.
  intros Hg%elem_of_goroutines Hi%elem_of_iterations. unfold sequential. by apply loops_at.
Qed.

(** * The theorems *)

Section theorems.
Context `{DatabaseLaws D}.
Implicit Types d : D.

(** The rows of a benchmark whose goroutines all came to their ends. *)
Lemma complete_written query age d ws d' g i :
  query ∈ queries → bench query age d ws d' → complete ws → goroutine g → in_loop i →
  written query age (contents d) g i (rows (contents d') !! name g i).
Proof.
  intros Hq Hb Hc Hg Hi. destruct (bench_spec query age Hq d ws d' Hb) as (Hl & _ & Hcell & _).
  assert (∃ w, ws !! Z.to_nat (g - 1) = Some w) as [w Hw].
  { apply lookup_lt_is_Some. rewrite Hl. unfold goroutine, goroutines in *. lia. }
  pose proof (Hcell _ _ i Hw Hi) as Hr. unfold complete in Hc. rewrite Forall_lookup in Hc.
  rewrite (Hc _ _ Hw) in Hr. unfold goroutine in Hg.
  replace (1 + Z.of_nat (Z.to_nat (g - 1))) with g in Hr by lia. unfold cell in Hr. cbn [at_] in Hr.
  destruct (Z.ltb_spec i (iterations + 1)); [done|unfold in_loop in Hi; lia].
Qed.

Lemma complete_ages query age d ws d' :
  query ∈ queries → bench query age d ws d' → complete ws →
  ages (contents d') = sequential age (ages (contents d)).
Proof.
  intros Hq Hb Hc. apply map_eq. intros n.
  destruct (name_cases n) as [(g & i & Hg & Hi & ->)|Hn].
  - rewrite sequential_at by done. unfold ages. rewrite lookup_fmap.
    destruct (complete_written _ _ _ _ _ _ _ Hq Hb Hc Hg Hi) as (r & -> & [<- _]). done.
  - rewrite sequential_other by done. unfold ages. rewrite !lookup_fmap.
    destruct (bench_spec query age Hq d ws d' Hb) as (_ & _ & _ & Hoth & _). by rewrite Hoth.
Qed.

Lemma queries_in : insert_query ∈ queries ∧ upsert_query ∈ queries ∧ replace_query ∈ queries.
Proof. unfold queries. set_solver. Qed.

(** C11: ON DUPLICATE KEY UPDATE and REPLACE leave the same ages, those of the loops run one after
    another, whatever the interleaving; but the first keeps the identifiers of the rows
    that were there, and the second gives every row it writes a new one. *)
Theorem upsert_and_replace_agree d d1 d2 ws1 ws2 :
  benchmarkOnDuplicateKeyUpdate d ws1 d1 → benchmarkReplaceInto d ws2 d2 →
  complete ws1 → complete ws2 →
  ages (contents d1) = sequential (λ i, i + 1) (ages (contents d)) ∧
  ages (contents d2) = ages (contents d1) ∧
  (∀ n r, rows (contents d) !! n = Some r →
     ∃ r1, rows (contents d1) !! n = Some r1 ∧ row_id r1 = row_id r) ∧
  (∀ g i, goroutine g → in_loop i →
     ∃ r2, rows (contents d2) !! name g i = Some r2 ∧ next_id (contents d) ≤ row_id r2).
Proof.
  destruct queries_in as (_ & Hu & Hr). intros H1 H2 Hc1 Hc2.
  pose proof (complete_ages _ _ _ _ _ Hu H1 Hc1) as ->. split; [done|].
  split; [by apply (complete_ages _ _ _ _ _ Hr H2)|]. split.
  - intros n r Hn. destruct (name_cases n) as [(g & i & Hg & Hi & ->)|Ho].
    + destruct (complete_written _ _ _ _ _ _ _ Hu H1 Hc1 Hg Hi) as (r1 & E1 & _ & Ha).
      exists r1. split; [done|]. by rewrite Hn in Ha.
    + destruct (bench_spec _ _ Hu _ _ _ H1) as (_ & _ & _ & Hoth & _). exists r. by rewrite Hoth.
  - intros g i Hg Hi. destruct (complete_written _ _ _ _ _ _ _ Hr H2 Hc2 Hg Hi) as (r2 & E2 & _ & Ha).
    exists r2. split; [done|]. by destruct (rows (contents d) !! name g i).
Qed.

(** [main]: the rows were new, and their ages are those of the second function. *)
Theorem main_rows d ws1 ws2 d' :
  main d ws1 ws2 d' → complete ws1 → complete ws2 →
  ages (contents d') = sequential (λ i, i + 1) (sequential (λ i, i) (ages (contents d))) ∧
  (∀ g i, goroutine g → in_loop i → rows (contents d) !! name g i = None).
Proof.
  destruct queries_in as (Hi & _ & Hr). intros (d1 & H1 & H2) Hc1 Hc2. split.
  - rewrite (complete_ages _ _ _ _ _ Hr H2 Hc2). by rewrite (complete_ages _ _ _ _ _ Hi H1 Hc1).
  - intros g i Hg Hil. destruct (complete_written _ _ _ _ _ _ _ Hi H1 Hc1 Hg Hil) as (r1 & _ & _ & Ha).
    by destruct (rows (contents d) !! name g i).
Qed.

(** A goroutine whose call failed has written the rows before that call, and none after it;
    the row of the call itself is open, since a reply can be lost.  The others go on. *)
Theorem failed_goroutine query age d ws d' k i :
  query ∈ queries → bench query age d ws d' → ws !! k = Some (Failed i) →
  let g := 1 + Z.of_nat k in
  let age_at j := row_age <$> rows (contents d') !! name g j in
  (∀ j, 1 ≤ j < i → age_at j = Some (age j)) ∧
  (age_at i = row_age <$> rows (contents d) !! name g i ∨ age_at i = Some (age i)) ∧
  (∀ j, i < j ≤ iterations → rows (contents d') !! name g j = rows (contents d) !! name g j) ∧
  (∀ k' j, ws !! k' = Some Finished → in_loop j →
     row_age <$> rows (contents d') !! name (1 + Z.of_nat k') j = Some (age j)).
Proof.
  intros Hq Hb Hk. destruct (bench_spec query age Hq d ws d' Hb) as (_ & Hend & Hcell & _).
  destruct (Hend _ _ Hk) as [?|(i' & [= <-] & Hil)]; [done|]. cbv zeta.
  assert (∀ g j, written query age (contents d) g j (rows (contents d') !! name g j) →
    row_age <$> rows (contents d') !! name g j = Some (age j)) as Hw by (by intros g j (r & -> & <- & _)).
  unfold in_loop in *. split_and!.
  - intros j Hj. apply Hw. specialize (Hcell _ _ j Hk ltac:(lia)). unfold cell in Hcell. cbn [at_] in Hcell.
    by destruct (Z.ltb_spec j i); [|lia].
  - specialize (Hcell _ _ i Hk ltac:(lia)). unfold cell in Hcell. cbn [at_] in Hcell.
    rewrite Z.ltb_irrefl in Hcell. destruct Hcell as [->|[_ Hc]]; [by left|right; by apply Hw].
  - intros j Hj. specialize (Hcell _ _ j Hk ltac:(lia)). unfold cell in Hcell. cbn [at_] in Hcell.
    destruct (Z.ltb_spec j i); [lia|]. destruct Hcell as [?|[[= ->] _]]; [done|lia].
  - intros k' j Hk' Hj. apply Hw. specialize (Hcell _ _ j Hk' Hj). unfold cell in Hcell. cbn [at_] in Hcell.
    by destruct (Z.ltb_spec j (iterations + 1)); [|lia].
Qed.
End theorems.

(** * A database *)

(** It executes the statements, and refuses the INSERT of a name that is there. *)
Definition errDuplicate : goerr := ErrNew "Error 1062: Duplicate entry".

Definition execute (query name : string) (age : Z) (t : table) : (unit + goerr) * table :=
  let put id next := (inl (), mkTable (<[name := mkRow id age]> (rows t)) next) in
  match rows t !! name with
  | Some old =>
      if decide (query = sql_insert) then (inr errDuplicate, t)
      else if decide (query = sql_upsert) then put (row_id old) (next_id t)
      else put (next_id t) (next_id t + 1)
  | None => put (next_id t) (next_id t + 1)
  end.

#[export] Instance table_database : Database table :=
  λ query name age t r t', (r, t') = execute query name age t.

Lemma execute_stored query n a t t' : (inl (), t') = execute query n a t → stored query n a t t'.
Proof.
  unfold execute, stored, accepts. destruct (rows t !! n) as [old|] eqn:E.
  - repeat case_decide; intros [= ->]; eexists (mkRow _ a); cbn; split_and!; reflexivity || lia.
  - intros [= ->]. eexists (mkRow _ a). cbn. split_and!; reflexivity || lia.
Qed.

#[export] Program Instance table_laws : DatabaseLaws table := { contents := λ t, t }.
Next Obligation.
  intros query n a t [[]|e] t' _ E; [by apply execute_stored|]. left. unfold exec, table_database, execute in E.
  destruct (rows t !! n); repeat case_decide; try done. by injection E as _ ->.
Qed.

(** On it the functions run to their ends. *)
Lemma run_ok query age t :
  query ∈ queries →
  (query = insert_query → ∀ g i, goroutine g → in_loop i → rows t !! name g i = None) →
  ∃ ws t', bench (D := table) query age t ws t' ∧ complete ws.
Proof.
  intros Hq Hnew. destruct (can_end (D := table) query age Hq t False (start t)) as (s & Hr & Hwg & [[]|Hf]).
  - intros s k i Hi Hk. destruct (execute query (name (1 + Z.of_nat k) i) (age i) (db s)) as [r t'] eqn:E.
    exists r, t'. split; [done|right]. unfold execute in E.
    pose proof (inv_goroutine _ _ _ _ _ _ Hi Hk) as Hg.
    assert (in_loop i) as Hil by (by destruct (i_pos _ _ _ _ Hi _ _ Hk)).
    destruct (rows (db s) !! name (1 + Z.of_nat k) i) as [old|] eqn:El; [|by injection E as <- _].
    repeat case_decide; try (by injection E as <- _).
    pose proof (i_cells _ _ _ _ Hi _ _ i Hk Hil) as Hc. unfold cell in Hc. cbn [at_] in Hc.
    rewrite Z.ltb_irrefl in Hc. cbn [contents table_laws] in Hc. rewrite El in Hc.
    destruct Hc as [Hc|[? _]]; [|done]. by rewrite Hnew in Hc.
  - exact (inv_start (D := table) query age t).
  - exists (workers s), (db s). split; [by exists s|].
    assert (∀ j, Failed j ∉ workers s) as Hnf.
    { apply Hf. intros j (? & [=] & _)%list_elem_of_fmap. }
    apply Forall_lookup. intros k w Hk.
    pose proof (all_ended _ _ _ _ _ _ (reachable_ok _ _ Hq _ _ Hr) Hwg Hk) as He.
    destruct w as [j| |j]; [done..|]. destruct (Hnf j). by eapply list_elem_of_lookup_2.
Qed.

(** A table with one of the rows. *)
Definition demo_table : table := mkTable {[ name 1 1 := mkRow 7 1 ]} 8.

Lemma upsert_and_replace_agree_witness :
  ∃ t1 t2, ages t2 = ages t1 ∧ (∃ r, rows t1 !! name 1 1 = Some r ∧ row_id r = 7) ∧
    (∃ r, rows t2 !! name 1 1 = Some r ∧ 8 ≤ row_id r).
Proof.
  destruct queries_in as (_ & Hu & Hr).
  destruct (run_ok upsert_query (λ i, i + 1) demo_table Hu) as (ws1 & t1 & H1 & Hc1); [done|].
  destruct (run_ok replace_query (λ i, i + 1) demo_table Hr) as (ws2 & t2 & H2 & Hc2); [done|].
  destruct (upsert_and_replace_agree (D := table) demo_table t1 t2 ws1 ws2 H1 H2 Hc1 Hc2) as (_ & Ha & Hk & Hn).
  exists t1, t2. split; [exact Ha|]. split; [exact (Hk (name 1 1) (mkRow 7 1) eq_refl)|].
  apply (Hn 1 1); unfold goroutine, in_loop, goroutines, iterations; lia.
Defined.

Lemma main_rows_witness :
  ∃ ws1 ws2 t, main (D := table) (mkTable ∅ 1) ws1 ws2 t ∧
    ages t = sequential (λ i, i + 1) (sequential (λ i, i) ∅).
Proof.
  destruct queries_in as (Hi & _ & Hr).
  destruct (run_ok insert_query (λ i, i) (mkTable ∅ 1) Hi) as (ws1 & t1 & H1 & Hc1); [done|].
  destruct (run_ok replace_query (λ i, i + 1) t1 Hr) as (ws2 & t2 & H2 & Hc2); [done|].
  assert (main (D := table) (mkTable ∅ 1) ws1 ws2 t2) as Hm by (by exists t1).
  exists ws1, ws2, t2. split; [exact Hm|].
  exact (proj1 (main_rows (D := table) (mkTable ∅ 1) ws1 ws2 t2 Hm Hc1 Hc2)).
Defined.

(** INSERT into the table with a row: the first goroutine returns at once. *)
Lemma failed_goroutine_witness :
  ∃ ws t, bench (D := table) insert_query (λ i, i) demo_table ws t ∧ ws !! 0%nat = Some (Failed 1) ∧
    ∀ j, 1 < j ≤ iterations → rows t !! name 1 j = None.
Proof.
  destruct queries_in as (Hi & _ & _).
  pose (s1 := mkState (D := table) demo_table (goroutines - 1) (<[0%nat := Failed 1]> (workers (start demo_table)))).
  assert (step (D := table) insert_query (λ i, i) (start demo_table) s1) as Hs.
  { apply (step_exec (D := table) insert_query (λ i, i) (start demo_table) 0 1 (inr errDuplicate) demo_table);
      reflexivity. }
  pose proof (inv_step (D := table) insert_query (λ i, i) Hi _ _ _ Hs (inv_start (D := table) insert_query (λ i, i) demo_table)) as Hinv.
  destruct (can_end (D := table) insert_query (λ i, i) Hi demo_table True s1) as (s & Hr & Hwg & _); [|exact Hinv|].
  { intros s k i _ _. destruct (execute insert_query (name (1 + Z.of_nat k) i) i (db s)) as [r t'] eqn:E.
    exists r, t'. split; [by symmetry|by left]. }
  pose proof (ended_stays (D := table) insert_query (λ i, i) s1 s 0 (Failed 1) Hr eq_refl eq_refl) as Hk.
  assert (bench (D := table) insert_query (λ i, i) demo_table (workers s) (db s)) as Hb
    by (exists s; split; [by eapply rtc_l|done]).
  exists (workers s), (db s). split; [exact Hb|]. split; [exact Hk|]. intros j Hj.
  destruct (failed_goroutine (D := table) insert_query (λ i, i) demo_table (workers s) (db s) 0 1 Hi Hb Hk)
    as (_ & _ & Hafter & _).
  etrans; [exact (Hafter j Hj)|]. apply lookup_singleton_ne. intros [_ ?]%name_inj. lia.
Defined.

End Upsert.
