(* ===== verification/SeatDb.v ===== *)
(** The database behind [relational-db/exclusive-locks/]: what the booking programs rely on
    of a SQL server with row locks and versioned reads, as laws over an abstract state;
    and a small logic for programs that talk to it, in which each program is
    verified alone against what the others may do. *)

From stdpp Require Import gmap strings list fin_maps sets.
From Stdlib Require Import ZArith Lia.
From S2P Require Import Prelude.

Module SeatDb.

(** * The abstract state *)

(** A row of the table: who has the seat, and its version (constant in the table without
    versions). *)
Record seat := mkSeat { owner : option Z; version : Z }.
Abbreviation seats := (gmap Z seat).

(** A transaction is open, rolled back by the server after a failed statement, left by a
    failed commit, or over. *)
Inductive status := Open | Aborted | InDoubt | Done.
#[export] Instance status_eq_dec : EqDecision status.
Proof. solve_decision. Defined.
Record txn := mkTxn { st : status; locks : gset Z; writes : seats }.
Definition gone (s : status) : txn := mkTxn s ∅ ∅.

(** [history]: every table that was ever committed, the present one included. *)
Record seatdb := mkDb { committed : seats; history : list seats; txns : gmap nat txn }.

Definition put_txn (t : nat) (x : txn) (d : seatdb) : seatdb :=
  mkDb (committed d) (history d) (<[t := x]> (txns d)).

(** Some rows are locked by no transaction but [t]. *)
Definition lockable (t : nat) (L : gset Z) (d : seatdb) : Prop :=
  ∀ t' x, t' ≠ t → txns d !! t' = Some x → L ## locks x.

(** The changes of a transaction [t] in state [x]. *)
Definition locked (t : nat) (x : txn) (L : gset Z) (d : seatdb) : seatdb :=
  put_txn t (mkTxn (st x) (L ∪ locks x) (writes x)) d.
Definition written (t : nat) (x : txn) (id : Z) (s : seat) (d : seatdb) : seatdb :=
  put_txn t (mkTxn (st x) (locks x) (<[id := s]> (writes x))) d.
Definition applied (t : nat) (x : txn) (d : seatdb) : seatdb :=
  mkDb (writes x ∪ committed d) ((writes x ∪ committed d) :: history d)
    (<[t := gone Done]> (txns d)).

(** The row [t] sees when it reads with a lock. *)
Definition current (x : txn) (d : seatdb) (id : Z) : option seat := (writes x ∪ committed d) !! id.

(** * The calls, and what is documented of them *)

(** A row as the programs scan it: a seat's number is not used; the third column is the
    owner or the version. *)
Record row := mkRow { row_id : Z; row_number : string; row_third : option Z }.

(** [sql.Result], of which only [RowsAffected()] is used. *)
Record result := mkResult { RowsAffected : Z + goerr }.

(** The calls of database/sql, as relations: a call may block or fail, and the server is
    free in which row it picks.  A transaction is used through its handle.
    [internal] is what the server does between calls. *)
Class SeatDatabase (D : Type) := {
  begin_ : D → (nat + goerr) → D → Prop;
  query_row : nat → string → D → (row + goerr) → D → Prop;
  exec : nat → string → list Z → D → (result + goerr) → D → Prop;
  commit : nat → D → (unit + goerr) → D → Prop;
  rollback : nat → D → (unit + goerr) → D → Prop;
  internal : D → D → Prop;
}.

Definition is_err {A} (r : A + goerr) : Prop := match r with inl _ => False | inr _ => True end.

(** A statement that fails may have taken locks, or cost the transaction its life. *)
Definition failed (t : nat) (x : txn) (d d' : seatdb) : Prop :=
  ∃ L, lockable t L d ∧ (d' = locked t x L d ∨ d' = put_txn t (gone Aborted) d).

(** A call of an open transaction has this effect or fails like that; a transaction that
    is over answers with an error.  Nothing is said of an aborted one. *)
Definition call_spec {A} (t : nat) (ok : txn → A → seatdb → Prop) (ko : txn → seatdb → Prop)
    (d : seatdb) (r : A + goerr) (d' : seatdb) : Prop :=
  match txns d !! t with
  | Some x =>
      match st x with
      | Open => match r with inl a => ok x a d' | inr _ => ko x d' end
      | Aborted => True
      | InDoubt | Done => is_err r ∧ d' = d
      end
  | None => True
  end.

(** The statements on the two tables that something is documented of. *)
Definition sql_select (lock : string) : string :=
  "SELECT id, number, user_id FROM seats WHERE user_id IS NULL LIMIT 1" +:+ lock.
Definition sql_update : string := "UPDATE seats SET user_id = ? WHERE id = ?".
Definition sql_select_v2 : string :=
  "SELECT id, number, version FROM seats_v2 WHERE user_id IS NULL LIMIT 1".
Definition sql_update_v2 : string :=
  "UPDATE seats_v2 SET user_id = ?, version = version + 1 WHERE id = ? AND version = ?".

(** The row delivered for a seat that is free. *)
Definition row_of (versioned : bool) (r : row) (s : seat) : Prop :=
  owner s = None ∧ row_third r = if versioned then Some (version s) else None.

(** A plain read sees a snapshot: some table that was committed. *)
Definition plain_read (versioned : bool) (d : seatdb) (r : row) (d' : seatdb) : Prop :=
  d' = d ∧ ∃ m s, m ∈ history d ∧ m !! row_id r = Some s ∧ row_of versioned r s.

(** A locking read sees the latest table and locks at least the row it delivers. *)
Definition locking_read (t : nat) (d : seatdb) (x : txn) (r : row) (d' : seatdb) : Prop :=
  ∃ L s, lockable t L d ∧ row_id r ∈ L ∧ d' = locked t x L d ∧
    current x d (row_id r) = Some s ∧ row_of false r s.

(** An update locks the row; it counts a row that it changed. *)
Definition update (t : nat) (d : seatdb) (x : txn) (id : Z) (new : seat → option seat)
    (r : result) (d' : seatdb) : Prop :=
  ∃ L, lockable t L d ∧ id ∈ L ∧
    let x' := mkTxn (st x) (L ∪ locks x) (writes x) in
    match s ← current x d id; new s with
    | Some s' => d' = written t x' id s' d ∧ (RowsAffected r = inl 1 ∨ is_err (RowsAffected r))
    | None => d' = locked t x L d ∧ (RowsAffected r = inl 0 ∨ is_err (RowsAffected r))
    end.

Definition take_seat (u : Z) (s : seat) : option seat :=
  if decide (owner s = Some u) then None else Some (mkSeat (Some u) (version s)).
Definition take_seat_v2 (u v : Z) (s : seat) : option seat :=
  if decide (version s = v) then Some (mkSeat (Some u) (version s + 1)) else None.

(** A commit that reports an error may have been carried out, or not, or its fate is open. *)
Definition commit_failed (t : nat) (x : txn) (d d' : seatdb) : Prop :=
  d' = applied t x d ∨ d' = put_txn t (gone Done) d ∨
  d' = put_txn t (mkTxn InDoubt (locks x) (writes x)) d.

Definition begin_spec (d : seatdb) (r : nat + goerr) (d' : seatdb) : Prop :=
  match r with
  | inl t => txns d !! t = None ∧ d' = put_txn t (gone Open) d
  | inr _ => d' = d
  end.

Definition query_spec (versioned : bool) (t : nat) (sql : string) (d : seatdb) (r : row + goerr)
    (d' : seatdb) : Prop :=
  (sql = (if versioned then sql_select_v2 else sql_select "") →
   call_spec t (λ _, plain_read versioned d) (λ x, failed t x d) d r d') ∧
  (versioned = false → sql = sql_select " FOR UPDATE" ∨ sql = sql_select " FOR UPDATE SKIP LOCKED" →
   call_spec t (locking_read t d) (λ x, failed t x d) d r d').

Definition exec_spec (versioned : bool) (t : nat) (sql : string) (args : list Z) (d : seatdb)
    (r : result + goerr) (d' : seatdb) : Prop :=
  (versioned = false → sql = sql_update → ∀ u id, args = [u; id] →
   call_spec t (λ x, update t d x id (take_seat u)) (λ x, failed t x d) d r d') ∧
  (versioned = true → sql = sql_update_v2 → ∀ u id v, args = [u; id; v] →
   call_spec t (λ x, update t d x id (take_seat_v2 u v)) (λ x, failed t x d) d r d').

Definition commit_spec (t : nat) (d : seatdb) (r : unit + goerr) (d' : seatdb) : Prop :=
  call_spec t (λ x _ d', d' = applied t x d) (λ x, commit_failed t x d) d r d'.

(** A rollback ends an open or aborted transaction, whatever it reports. *)
Definition rollback_spec (t : nat) (d d' : seatdb) : Prop :=
  match st <$> txns d !! t with
  | Some Open | Some Aborted => d' = put_txn t (gone Done) d
  | _ => d' = d
  end.

(** Between calls the server settles a commit in doubt, or loses a connection. *)
Definition internal_spec (d d' : seatdb) : Prop :=
  d' = d ∨ ∃ t x, txns d !! t = Some x ∧
    (d' = put_txn t (gone Done) d ∨ st x = InDoubt ∧ d' = applied t x d).

(** The laws for the table with or without versions. *)
Class SeatLaws (D : Type) `{SeatDatabase D} (versioned : bool) := {
  view : D → seatdb;
  begin_law d r d' : begin_ d r d' → begin_spec (view d) r (view d');
  query_law t sql d r d' : query_row t sql d r d' → query_spec versioned t sql (view d) r (view d');
  exec_law t sql args d r d' :
    exec t sql args d r d' → exec_spec versioned t sql args (view d) r (view d');
  commit_law t d r d' : commit t d r d' → commit_spec t (view d) r (view d');
  rollback_law t d r d' : rollback t d r d' → rollback_spec t (view d) (view d');
  internal_law d d' : internal d d' → internal_spec (view d) (view d');
}.

(** * Programs that call the database *)

(** What a goroutine still has to do; [Ret] is the success it printed, if any, and the
    error it returns. *)
Inductive prog :=
| Ret (told : option Z) (err : option goerr)
| Crash (why : string)
| PBegin (k : nat + goerr → prog)
| PQueryRow (t : nat) (sql : string) (k : row + goerr → prog)
| PExec (t : nat) (sql : string) (args : list Z) (k : result + goerr → prog)
| PCommit (t : nat) (k : unit + goerr → prog)
| PRollback (t : nat) (k : unit + goerr → prog).

Section run.
Context `{SeatDatabase D}.

Inductive prog_step : D → prog → D → prog → Prop :=
| step_begin d r d' k : begin_ d r d' → prog_step d (PBegin k) d' (k r)
| step_query d r d' t sql k : query_row t sql d r d' → prog_step d (PQueryRow t sql k) d' (k r)
| step_exec d r d' t sql args k : exec t sql args d r d' → prog_step d (PExec t sql args k) d' (k r)
| step_commit d r d' t k : commit t d r d' → prog_step d (PCommit t k) d' (k r)
| step_rollback d r d' t k : rollback t d r d' → prog_step d (PRollback t k) d' (k r).

(** Goroutines, each with its user, and the database. *)
Record sys := mkSys { db : D; threads : list (Z * prog) }.

(** [n] calls of goroutines, interleaved with what the server does. *)
Inductive run : nat → sys → sys → Prop :=
| run_refl s : run 0 s s
| run_internal n s d' s' :
    internal (db s) d' → run n (mkSys d' (threads s)) s' → run n s s'
| run_thread n s i u p d' p' s' :
    threads s !! i = Some (u, p) → prog_step (db s) p d' p' →
    run n (mkSys d' (<[i := (u, p')]> (threads s))) s' → run (S n) s s'.
End run.
Arguments sys : clear implicits.

End SeatDb.
