(* ===== verification/SeatLogic.v ===== *)
(** A logic for programs that share the seat database: what a transaction may count on
    while others run (its rely), what each of its calls must leave intact (its guarantee),
    and a weakest precondition whose soundness covers every interleaving. *)

From stdpp Require Import gmap strings list fin_maps sets.
From Stdlib Require Import ZArith Lia.
From S2P Require Import Prelude SeatDb.
Import SeatDb.

(** * Valid databases *)

Section validity.
Context (versioned : bool).

(** A later row of the same seat. *)
Definition later (s s' : seat) : Prop :=
  version s ≤ version s' ∧ (owner s ≠ None → s = s') ∧
  (versioned = true → version s = version s' → s = s').

Record valid (d : seatdb) : Prop := {
  v_locks t t' x x' :
    txns d !! t = Some x → txns d !! t' = Some x' → t ≠ t' → locks x ## locks x';
  v_writes t x id s : txns d !! t = Some x → writes x !! id = Some s →
    id ∈ locks x ∧ ∃ c, committed d !! id = Some c ∧ later c s;
  v_history m id s : m ∈ history d → m !! id = Some s →
    ∃ c, committed d !! id = Some c ∧ later s c;
  v_now : committed d ∈ history d;
}.

#[export] Instance later_preorder : PreOrder later.
Proof.
  split; [by intros s|]. intros s1 s2 s3 (H1 & H2 & H3) (H4 & H5 & H6). split_and!; [lia|..].
  - intros Ho. rewrite (H2 Ho). apply H5. by rewrite <-(H2 Ho).
  - intros Hv E. rewrite (H3 Hv) by lia. apply H6; [done|lia].
Qed.

(** * Rely and guarantee *)

(** What others, and the server, do to the transaction [T] of a goroutine. *)
Record rely (T : option nat) (d d' : seatdb) : Prop := {
  r_txns t x : txns d !! t = Some x →
    ∃ x', txns d' !! t = Some x' ∧ (T = Some t → x' = x ∨ x' = gone Done);
  r_locked t x id : T = Some t → txns d !! t = Some x → txns d' !! t = Some x → st x = Open →
    id ∈ locks x → committed d' !! id = committed d !! id;
  r_owned id s : committed d !! id = Some s → owner s ≠ None → committed d' !! id = Some s;
  r_seen m : m ∈ history d → m ∈ history d';
}.

#[export] Instance rely_preorder T : PreOrder (rely T).
Proof.
  split; [split; eauto|]. intros d1 d2 d3 [A1 A2 A3 A4] [B1 B2 B3 B4]. split; eauto.
  - intros t x (x2 & E2 & H2)%A1. destruct (B1 _ _ E2) as (x3 & E3 & H3). exists x3.
    split; [done|]. intros HT. specialize (H2 HT). specialize (H3 HT).
    destruct H2 as [->| ->], H3 as [->| ->]; auto.
  - intros t x id HT E1 E3 Ho Hid. destruct (A1 _ _ E1) as (x2 & E2 & H2).
    specialize (H2 HT). destruct H2 as [->| ->]; [by rewrite (B2 t x id), (A2 t x id)|].
    destruct (B1 _ _ E2) as (x3 & E3' & H3). specialize (H3 HT). simplify_eq.
    by destruct H3 as [->| ->].
Qed.

(** What a call of the transaction [T] leaves intact for everyone else. *)
Definition guar (T : option nat) (d d' : seatdb) : Prop :=
  valid d' ∧ ∀ T', T' = None ∨ T' ≠ T → rely T' d d'.

Lemma rely_refl T d : rely T d d.
Proof. reflexivity. Qed.
Lemma guar_refl T d : valid d → guar T d d.
Proof. intros Hv. split; [done|]. intros. apply rely_refl. Qed.

(** ** The changes of a transaction *)

(** A transaction put in place of another one, or a new one, that keeps [valid]. *)
Lemma put_txn_valid t x' d :
  valid d →
  (∀ t' x, t' ≠ t → txns d !! t' = Some x → locks x' ## locks x) →
  (∀ id s, writes x' !! id = Some s → id ∈ locks x' ∧ ∃ c, committed d !! id = Some c ∧ later c s) →
  valid (put_txn t x' d).
Proof.
  intros [V1 V2 V3 V4] Hl Hw. split; try done; cbn [txns put_txn].
  - intros t1 t2 x1 x2 H1 H2 Hne. apply lookup_insert_Some in H1, H2.
    destruct H1 as [[<- <-]|[? H1]], H2 as [[<- <-]|[? H2]]; [done|by eapply Hl| |by eapply V1].
    symmetry. by eapply Hl.
  - intros t1 x1 id s [[<- <-]|[? H1]]%lookup_insert_Some Hs; [by apply Hw|by eapply V2].
Qed.

Lemma put_txn_rely t x' d T :
  T ≠ Some t → rely T d (put_txn t x' d).
Proof.
  intros HT. split; eauto. intros t1 x1 H1. cbn. destruct (decide (t1 = t)) as [->|Hne].
  - exists x'. split; [apply lookup_insert_eq|done].
  - exists x1. rewrite lookup_insert_ne by done. auto.
Qed.

Lemma put_txn_guar t x' d :
  valid d →
  (∀ t' x, t' ≠ t → txns d !! t' = Some x → locks x' ## locks x) →
  (∀ id s, writes x' !! id = Some s → id ∈ locks x' ∧ ∃ c, committed d !! id = Some c ∧ later c s) →
  guar (Some t) d (put_txn t x' d).
Proof.
  intros. split; [by apply put_txn_valid|]. intros T' HT. apply put_txn_rely. by destruct HT as [->|].
Qed.

Lemma gone_guar t s d : valid d → guar (Some t) d (put_txn t (gone s) d).
Proof.
  intros Hv. apply put_txn_guar; [done|..]; cbn.
  - intros. apply disjoint_empty_l.
  - intros id s' Hs. by rewrite lookup_empty in Hs.
Qed.

(** The other locks keep away from a transaction that has taken more. *)
Lemma more_locks t x L d t' x' :
  valid d → txns d !! t = Some x → lockable t L d → t' ≠ t → txns d !! t' = Some x' →
  L ∪ locks x ## locks x'.
Proof.
  intros Hv Ht HL Hne Ht'. apply disjoint_union_l. split; [by eapply HL|].
  by eapply (v_locks _ Hv t t').
Qed.

Lemma locked_guar t x L d :
  valid d → txns d !! t = Some x → lockable t L d → guar (Some t) d (locked t x L d).
Proof.
  intros Hv Ht HL. apply put_txn_guar; [done|..]; cbn.
  - intros. by eapply more_locks.
  - intros id s Hs. destruct (v_writes _ Hv _ _ _ _ Ht Hs) as [Hin Hc']. split; [apply elem_of_union; by right|done].
Qed.

Lemma failed_guar t x d d' :
  valid d → txns d !! t = Some x → failed t x d d' → guar (Some t) d d'.
Proof. intros Hv Ht (L & HL & [->| ->]); [by apply locked_guar|by apply gone_guar]. Qed.

(** A write of a row that is free, under a lock. *)
Lemma written_guar t x L id c s d :
  valid d → txns d !! t = Some x → lockable t L d → id ∈ L →
  committed d !! id = Some c → later c s →
  guar (Some t) d (written t (mkTxn (st x) (L ∪ locks x) (writes x)) id s d).
Proof.
  intros Hv Ht HL Hid Hc Hl. apply put_txn_guar; [done|..]; cbn.
  - intros. by eapply more_locks.
  - intros id' s' [[<- <-]|[? Hs]]%lookup_insert_Some; [split; [apply elem_of_union; by left|eauto]|].
    destruct (v_writes _ Hv _ _ _ _ Ht Hs) as [Hin Hc']. split; [apply elem_of_union; by right|done].
Qed.

(** A seat after a commit is the same or later. *)
Lemma applied_later t x d id c :
  valid d → txns d !! t = Some x → committed d !! id = Some c →
  ∃ c', (writes x ∪ committed d) !! id = Some c' ∧ later c c'.
Proof.
  intros Hv Ht Hc. destruct (writes x !! id) as [s|] eqn:Es.
  - exists s. split; [by apply lookup_union_Some_l|].
    destruct (v_writes _ Hv _ _ _ _ Ht Es) as (_ & c' & Hc' & ?). by simplify_eq.
  - exists c. split; [|done]. by rewrite lookup_union_r.
Qed.

Lemma applied_guar t x d : valid d → txns d !! t = Some x → guar (Some t) d (applied t x d).
Proof.
  intros Hv Ht. pose proof Hv as [V1 V2 V3 V4]. split; [split|]; cbn.
  - intros t1 t2 x1 x2 H1 H2 Hne. apply lookup_insert_Some in H1, H2.
    destruct H1 as [[<- <-]|[? H1]], H2 as [[<- <-]|[? H2]];
      [done|apply disjoint_empty_l|apply disjoint_empty_r|by eapply V1].
  - intros t1 x1 id s [[<- <-]|[Hne H1]]%lookup_insert_Some Hs;
      [cbn in Hs; by rewrite lookup_empty in Hs|].
    destruct (V2 _ _ _ _ H1 Hs) as (Hid & c & Hc & ?). split; [done|]. exists c. split; [|done].
    rewrite lookup_union_r; [done|]. destruct (writes x !! id) as [s'|] eqn:E; [|done].
    destruct (V2 _ _ _ _ Ht E) as [Hid' _]. by destruct (V1 _ _ _ _ Ht H1 Hne id).
  - intros m id s [->|Hm]%elem_of_cons Hs; [by exists s|].
    destruct (V3 _ _ _ Hm Hs) as (c & Hc & ?).
    destruct (applied_later t x d id c Hv Ht Hc) as (c' & ? & ?).
    exists c'. split; [done|]. by transitivity c.
  - by left.
  - intros T' HT. assert (T' ≠ Some t) as HT' by by destruct HT as [->|]. split; cbn.
    + intros t1 x1 H1. destruct (decide (t1 = t)) as [->|Hne].
      * exists (gone Done). split; [apply lookup_insert_eq|done].
      * exists x1. rewrite lookup_insert_ne by done. auto.
    + intros t1 x1 id -> H1 _ Ho Hid. rewrite lookup_union_r; [done|].
      destruct (writes x !! id) as [s|] eqn:E; [|done].
      destruct (V2 _ _ _ _ Ht E) as [Hid' _]. assert (t ≠ t1) as Hne by congruence.
      by destruct (V1 _ _ _ _ Ht H1 Hne id).
    + intros id s Hs Ho. destruct (applied_later t x d id s Hv Ht Hs) as (c' & ? & _ & Hl & _).
      by rewrite (Hl Ho).
    + intros m Hm. by right.
Qed.

(** ** The calls *)

Lemma begin_guar d t : valid d → txns d !! t = None → guar (Some t) d (put_txn t (gone Open) d).
Proof. intros. by apply gone_guar. Qed.

Lemma rollback_guar t d d' : valid d → rollback_spec t d d' → guar (Some t) d d'.
Proof.
  intros Hv. unfold rollback_spec.
  destruct (st <$> txns d !! t) as [[]|]; intros ->; try (by apply guar_refl); by apply gone_guar.
Qed.

Lemma commit_failed_guar t x d d' :
  valid d → txns d !! t = Some x → commit_failed t x d d' → guar (Some t) d d'.
Proof.
  intros Hv Ht [->|[->| ->]]; [by apply applied_guar|by apply gone_guar|].
  apply put_txn_guar; [done|..]; cbn.
  - intros t' x' Hne Ht'. by eapply (v_locks _ Hv t t').
  - intros id s Hs. by eapply v_writes.
Qed.

(** A call of a transaction that is open or over keeps the guarantee, when both of its
    outcomes do. *)
Lemma call_spec_cases {A} t (ok : txn → A → seatdb → Prop) ko d r d' x :
  txns d !! t = Some x → st x ≠ Aborted → call_spec t ok ko d r d' →
  (st x = Open ∧ ∃ a, r = inl a ∧ ok x a d') ∨
  (st x = Open ∧ (∃ e, r = inr e) ∧ ko x d') ∨
  (st x ≠ Open ∧ (∃ e, r = inr e) ∧ d' = d).
Proof.
  unfold call_spec. intros ->. destruct (st x) eqn:Es; intros Ha H; [|done| |].
  - destruct r as [a|e]; [left; eauto|right; left; eauto].
  - right; right. destruct r as [a|e]; [by destruct H|]. destruct H. eauto.
  - right; right. destruct r as [a|e]; [by destruct H|]. destruct H. eauto.
Qed.

(** What the server does by itself is in everyone's rely. *)
Lemma gone_rely t T d : rely T d (put_txn t (gone Done) d).
Proof.
  split; try done; cbn.
  - intros t1 x1 H1. destruct (decide (t1 = t)) as [->|Hne].
    + exists (gone Done). rewrite lookup_insert_eq. auto.
    + exists x1. rewrite lookup_insert_ne by done. auto.
Qed.

Lemma applied_rely t x T d :
  valid d → txns d !! t = Some x → rely T d (applied t x d).
Proof.
  intros Hv Ht. destruct (decide (T = Some t)) as [->|HT].
  2:{ apply (applied_guar t x d Hv Ht). by right. }
  destruct (proj2 (applied_guar t x d Hv Ht) None) as [A1 A2 A3 A4]; [by left|].
  split; [|..|exact A3|exact A4]; cbn.
  - intros t1 x1 H1. destruct (decide (t1 = t)) as [->|Hne].
    + exists (gone Done). rewrite lookup_insert_eq. auto.
    + exists x1. rewrite lookup_insert_ne by done. auto.
  - intros t1 x1 id [= <-] _ E _ Hid. rewrite lookup_insert_eq in E. injection E as <-.
    by apply elem_of_empty in Hid.
Qed.

Lemma internal_ok d d' : valid d → internal_spec d d' → valid d' ∧ ∀ T, rely T d d'.
Proof.
  intros Hv [->|(t & x & Ht & [->|[_ ->]])]; [split; [done|intros; apply rely_refl]|..].
  - split; [by apply (gone_guar t)|]. intros T. apply gone_rely.
  - split; [by apply (applied_guar t)|]. intros T. by apply applied_rely.
Qed.

(** * Weakest preconditions *)

(** From [d], the database after the goroutine's last call, [p] keeps the guarantee at
    every call, whatever others do in between, and tells the user [u] only of seats that
    are [u]'s.  [T] is the goroutine's transaction. *)
Fixpoint wp (u : Z) (p : prog) (T : option nat) (d : seatdb) : Prop :=
  ∀ d1, rely T d d1 → valid d1 →
  match p with
  | Ret told _ => ∀ id, told = Some id → ∃ s, committed d1 !! id = Some s ∧ owner s = Some u
  | Crash _ => True
  | PBegin k => ∀ r d2, begin_spec d1 r d2 →
      wp u (k r) (match r with inl t => Some t | inr _ => T end) d2
  | PQueryRow t sql k => T = Some t ∧ ∀ r d2, query_spec versioned t sql d1 r d2 →
      guar T d1 d2 ∧ wp u (k r) T d2
  | PExec t sql args k => T = Some t ∧ ∀ r d2, exec_spec versioned t sql args d1 r d2 →
      guar T d1 d2 ∧ wp u (k r) T d2
  | PCommit t k => T = Some t ∧ ∀ r d2, commit_spec t d1 r d2 →
      guar T d1 d2 ∧ wp u (k r) T d2
  | PRollback t k => T = Some t ∧ ∀ r d2, rollback_spec t d1 d2 → wp u (k r) T d2
  end.

Lemma wp_rely u p T d d1 : rely T d d1 → wp u p T d → wp u p T d1.
Proof.
  intros Hr Hw. destruct p; cbn [wp] in *; intros d2 Hr2; apply Hw; by transitivity d1.
Qed.

(** * Soundness *)

Section adequacy.
Context `{SeatLaws D versioned}.

Record sys_inv (d : seatdb) (ths : list (Z * prog)) (Ts : list (option nat)) : Prop := {
  si_valid : valid d;
  si_len : length Ts = length ths;
  si_wp i u p T : ths !! i = Some (u, p) → Ts !! i = Some T → wp u p T d;
  si_txns i t : Ts !! i = Some (Some t) → is_Some (txns d !! t);
  si_apart i j t : Ts !! i = Some (Some t) → Ts !! j = Some (Some t) → i = j;
}.

(** The others' transactions are not [T]. *)
Lemma si_others d ths Ts i j T T' :
  sys_inv d ths Ts → Ts !! i = Some T → Ts !! j = Some T' → i ≠ j → T' = None ∨ T' ≠ T.
Proof.
  intros Hi HT HT' Hne. destruct T' as [t|]; [|by left]. right. intros <-.
  destruct Hne. by eapply si_apart.
Qed.

(** One goroutine moves to [p'] with the transaction [T'], the database to [d']. *)
Lemma sys_inv_move d ths Ts i u p p' T' d' :
  sys_inv d ths Ts → ths !! i = Some (u, p) → valid d' →
  (∀ j T, j ≠ i → Ts !! j = Some T → rely T d d' ∧ (T' = None ∨ T' ≠ T)) →
  (∀ t, T' = Some t → is_Some (txns d' !! t)) → wp u p' T' d' →
  sys_inv d' (<[i := (u, p')]> ths) (<[i := T']> Ts).
Proof.
  intros Hi Hth Hv Ho HT Hw. pose proof (lookup_lt_Some _ _ _ Hth) as Hlt.
  pose proof (si_len _ _ _ Hi) as Hlen. split; [done|by rewrite !length_insert|..].
  - intros j u1 p1 T1 H1 H2. apply list_lookup_insert_Some in H1, H2.
    destruct H1 as [(-> & [= -> ->] & _)|[Hne H1]], H2 as [(E & <- & _)|[? H2]]; try done.
    apply (wp_rely _ _ _ d); [by eapply Ho|]. by eapply si_wp.
  - intros j t [(-> & -> & _)|[Hne H1]]%list_lookup_insert_Some; [by apply HT|].
    destruct (si_txns _ _ _ Hi _ _ H1) as [x Hx].
    destruct (Ho j (Some t) (not_eq_sym Hne) H1) as [[Hr _ _ _] _].
    destruct (Hr _ _ Hx) as (x' & ? & _). by exists x'.
  - intros j1 j2 t H1 H2. apply list_lookup_insert_Some in H1, H2.
    destruct H1 as [(<- & HT1 & _)|[Hne1 H1]], H2 as [(<- & HT2 & _)|[Hne2 H2]];
      [done|..|by eapply si_apart].
    + destruct (Ho j2 _ (not_eq_sym Hne2) H2) as [_ [Hn|Hn]]; congruence.
    + destruct (Ho j1 _ (not_eq_sym Hne1) H1) as [_ [Hn|Hn]]; congruence.
Qed.

(** The same with a call that keeps the guarantee. *)
Lemma sys_inv_call d ths Ts i u p p' T d' :
  sys_inv d ths Ts → ths !! i = Some (u, p) → Ts !! i = Some T →
  guar T d d' → wp u p' T d' → sys_inv d' (<[i := (u, p')]> ths) Ts.
Proof.
  intros Hi Hth HT [Hv Hg] Hw. rewrite <-(list_insert_id Ts i T) by done.
  eapply sys_inv_move; try done.
  - intros j T1 Hne Hj. split.
    + apply Hg. by eapply (si_others d ths Ts i j).
    + destruct (si_others d ths Ts j i T1 T Hi Hj HT) as [->|?]; auto.
  - intros t ->. destruct (si_txns _ _ _ Hi _ _ HT) as [x Hx].
    destruct (Hg None) as [Hr _ _ _]; [by left|]. destruct (Hr _ _ Hx) as (x' & ? & _). by exists x'.
Qed.

Lemma prog_step_inv (a a' : D) ths Ts i u p p' :
  sys_inv (view a) ths Ts → ths !! i = Some (u, p) → prog_step a p a' p' →
  ∃ Ts', sys_inv (view a') (<[i := (u, p')]> ths) Ts'.
Proof.
  intros Hi Hth Hs. pose proof (si_valid _ _ _ Hi) as Hv.
  destruct (lookup_lt_is_Some_2 Ts i) as [T HT].
  { rewrite (si_len _ _ _ Hi). by eapply lookup_lt_Some. }
  pose proof (si_wp _ _ _ Hi _ _ _ _ Hth HT) as Hw.
  destruct Hs; cbn [wp] in Hw; specialize (Hw (view d) (rely_refl _ _) Hv).
  - match goal with Hb : begin_ _ _ _ |- _ => pose proof (begin_law _ _ _ Hb) as Hl end.
    specialize (Hw r (view d') Hl). destruct r as [t|e]; cbn in Hl.
    + destruct Hl as [Hf Hl]. rewrite Hl in *. destruct (begin_guar _ _ Hv Hf) as [Hv' Hg].
      exists (<[i := Some t]> Ts). eapply sys_inv_move; try done.
      * intros j T1 Hne Hj. assert (T1 ≠ Some t) as Hn.
        { intros ->. destruct (si_txns _ _ _ Hi _ _ Hj) as [x Hx]. congruence. }
        split; [apply Hg; by right|by right].
      * intros t1 [= <-]. exists (gone Open). apply lookup_insert_eq.
    + rewrite Hl in *. exists Ts. by eapply (sys_inv_call (view d)).
  - destruct Hw as [-> Hw]. exists Ts. edestruct Hw; [by eapply query_law|]. by eapply sys_inv_call.
  - destruct Hw as [-> Hw]. exists Ts. edestruct Hw; [by eapply exec_law|]. by eapply sys_inv_call.
  - destruct Hw as [-> Hw]. exists Ts. edestruct Hw; [by eapply commit_law|]. by eapply sys_inv_call.
  - destruct Hw as [-> Hw]. exists Ts.
    match goal with Hb : rollback _ _ _ _ |- _ => pose proof (rollback_law _ _ _ _ Hb) as Hl end.
    eapply sys_inv_call; try done; [by apply rollback_guar|by apply (Hw r)].
Qed.

(** Whatever is printed as a booking is one, and stays one. *)
Theorem wp_adequate n (s s' : sys D) i u id err :
  valid (view (db s)) →
  (∀ u p, (u, p) ∈ threads s → wp u p None (view (db s))) →
  run n s s' → threads s' !! i = Some (u, Ret (Some id) err) →
  ∃ c, committed (view (db s')) !! id = Some c ∧ owner c = Some u.
Proof.
  intros Hv Hw Hr Hi.
  assert (∃ Ts, sys_inv (view (db s)) (threads s) Ts) as HI.
  { exists (replicate (length (threads s)) None). split; [done|apply length_replicate|..].
    - intros j u1 p1 T Hj [-> _]%lookup_replicate. apply Hw. by eapply list_elem_of_lookup_2.
    - by intros j t [? _]%lookup_replicate.
    - by intros j1 j2 t [? _]%lookup_replicate. }
  clear Hv Hw. induction Hr as [s|n s d' s' Hint _ IH|n s j u1 p d' p' s' Hth Hs _ IH].
  - destruct HI as [Ts HI].
    destruct (lookup_lt_is_Some_2 Ts i) as [T HT].
    { rewrite (si_len _ _ _ HI). by eapply lookup_lt_Some. }
    pose proof (si_wp _ _ _ HI _ _ _ _ Hi HT) as Hw. cbn [wp] in Hw.
    by apply (Hw _ (rely_refl _ _) (si_valid _ _ _ HI)).
  - apply IH; [done|]. destruct HI as [Ts [I1 I2 I3 I4 I5]]. exists Ts. cbn [db threads].
    destruct (internal_ok _ _ I1 (internal_law _ _ Hint)) as [Hv' Hrel]. split; try done.
    + intros k u2 p2 T Hk HT. apply (wp_rely _ _ _ (view (db s))); [done|]. by eapply I3.
    + intros k t Hk. destruct (I4 _ _ Hk) as [x Hx].
      destruct (r_txns _ _ _ (Hrel None) _ _ Hx) as (x' & ? & _). by exists x'.
  - apply IH; [done|]. destruct HI as [Ts HI]. by eapply prog_step_inv.
Qed.
End adequacy.
End validity.
