(* ===== verification/Bookings.v ===== *)
(** [relational-db/exclusive-locks/]: the four [bookSeat]s (noupdate, update, updateskip,
    optimisticlock) as programs over the seat database, and what they promise: with a
    locking read, or with versions, a seat that was reported to a user is that user's. *)

From stdpp Require Import gmap strings list fin_maps sets.
From Stdlib Require Import ZArith Lia.
From S2P Require Import Prelude SeatDb SeatLogic.
Import SeatDb.

Module Bookings.

(** * The programs *)

(** The statements that the programs send. *)
Definition select_seat (lock : string) : string :=
  "SELECT id, number, user_id FROM seats WHERE user_id IS NULL LIMIT 1" +:+ lock.
Definition update_seat : string := "UPDATE seats SET user_id = ? WHERE id = ?".
Definition select_seat_v2 : string :=
  "SELECT id, number, version FROM seats_v2 WHERE user_id IS NULL LIMIT 1".
Definition update_seat_v2 : string :=
  "UPDATE seats_v2 SET user_id = ?, version = version + 1 WHERE id = ? AND version = ?".

(** [bookSeat] of noupdate, update and updateskip, which differ in the text of the SELECT.
    The printed lines of failures are left out; the one of the success is [told].
    First the part that books a seat it was given. *)
Definition book_selected (txn : nat) (userID selectedSeatID : Z) : prog :=
  PExec txn update_seat [userID; selectedSeatID] (λ updateResult, match updateResult with
  | inr err => PRollback txn (λ _, Ret None (Some (ErrWrap "failed to update seat" err)))
  | inl updateResult =>
      match RowsAffected updateResult with
      | inr err => PRollback txn (λ _, Ret None (Some (ErrWrap "failed to check rows affected" err)))
      | inl rowsAffected =>
          if rowsAffected =? 0
          then PRollback txn (λ _, Ret None (Some (ErrNew "no rows were affected. Booking failed")))
          else
            PCommit txn (λ r, match r with
            | inr err => Ret None (Some (ErrWrap "failed to commit transaction" err))
            | inl _ => Ret (Some selectedSeatID) None
            end)
      end
  end).

Definition bookSeat (select : string) (userID : Z) : prog :=
  PBegin (λ txn, match txn with
  | inr err => Ret None (Some err)
  | inl txn =>
      PQueryRow txn select (λ row, match row with
      | inr err =>
          PRollback txn (λ _, Ret None (Some
            (if decide (err = ErrNoRows) then ErrNew "no available seats to book"
             else ErrWrap "failed to select seat" err)))
      | inl row => book_selected txn userID (row_id row)
      end)
  end).

Definition noupdate_bookSeat : Z → prog := bookSeat (select_seat "").
Definition update_bookSeat : Z → prog := bookSeat (select_seat " FOR UPDATE").
Definition updateskip_bookSeat : Z → prog := bookSeat (select_seat " FOR UPDATE SKIP LOCKED").

(** [bookSeat] of optimisticlock: one iteration, going on with [continue]. *)
Definition book_version (txn : nat) (userID selectedSeatID selectedSeatVersion : Z)
    (continue : prog) : prog :=
  PExec txn update_seat_v2 [userID; selectedSeatID; selectedSeatVersion]
    (λ updateResult, match updateResult with
    | inr _ => PRollback txn (λ _, continue)
    | inl updateResult =>
        match RowsAffected updateResult with
        | inr _ => PRollback txn (λ _, continue)
        | inl rowsAffected =>
            if rowsAffected =? 0 then PRollback txn (λ _, continue)
            else
              PCommit txn (λ r, match r with
              | inr _ => PRollback txn (λ _, continue)
              | inl _ => Ret (Some selectedSeatID) None
              end)
        end
    end).

(** Scanning a NULL version into an [int] is an error, too. *)
Definition attempt_booking (userID : Z) (continue : prog) : prog :=
  PBegin (λ txn, match txn with
  | inr _ => Crash "Rollback of a nil *sql.Tx"
  | inl txn =>
      PQueryRow txn select_seat_v2 (λ row, match row with
      | inl (mkRow selectedSeatID _ (Some selectedSeatVersion)) =>
          book_version txn userID selectedSeatID selectedSeatVersion continue
      | _ => PRollback txn (λ _, continue)
      end)
  end).

Definition maxAttempts : nat := 50.

Fixpoint attempts (n : nat) (userID : Z) : prog :=
  match n with
  | O => Ret None None
  | S n => attempt_booking userID (attempts n userID)
  end.
Definition optimistic_bookSeat (userID : Z) : prog := attempts maxAttempts userID.

(** [BookSeats]: a goroutine for each of the users 1 to 100. *)
Definition BookSeats (bookSeat : Z → prog) : list (Z * prog) :=
  (λ i, (i, bookSeat i)) <$> seqZ 1 100.

(** * The stages of a booking *)

Section stages.
Context (versioned : bool).

(** A transaction that has written nothing yet. *)
Definition fresh_txn (t : nat) (d : seatdb) : Prop :=
  ∃ x, txns d !! t = Some x ∧
    (st x = Open ∧ writes x = ∅ ∨ st x = Done).

(** It holds the lock of a seat that is free. *)
Definition holds_free (t : nat) (id : Z) (d : seatdb) : Prop :=
  ∃ x, txns d !! t = Some x ∧
    (st x = Open ∧ writes x = ∅ ∧ id ∈ locks x ∧
       (∃ c, committed d !! id = Some c ∧ owner c = None) ∨ st x = Done).

(** It has written the user into the seat. *)
Definition has_taken (t : nat) (u id : Z) (d : seatdb) : Prop :=
  ∃ x, txns d !! t = Some x ∧
    (st x = Open ∧ (∃ s, writes x !! id = Some s ∧ owner s = Some u) ∨ st x = Done).

(** It is not one the server rolled back under the program. *)
Definition usable (t : nat) (d : seatdb) : Prop :=
  ∃ x, txns d !! t = Some x ∧ st x ≠ Aborted.

(** The seat was seen free at this version. *)
Definition seen_free (id v : Z) (d : seatdb) : Prop :=
  ∃ m s, m ∈ history d ∧ m !! id = Some s ∧ owner s = None ∧ version s = v.

(** Others do not disturb a stage. *)
Lemma stage_rely (P : txn → Prop) t d d1 :
  rely (Some t) d d1 → (∃ x, txns d !! t = Some x ∧ (P x ∨ st x = Done)) →
  ∃ x, txns d1 !! t = Some x ∧ (P x ∧ txns d !! t = Some x ∨ st x = Done).
Proof.
  intros [Hr _ _ _] (x & Hx & Hp). destruct (Hr _ _ Hx) as (x' & Hx' & Hs).
  exists x'. split; [done|]. destruct (Hs eq_refl) as [->| ->]; [|by right].
  destruct Hp as [?|?]; [by left|by right].
Qed.

Lemma fresh_txn_rely t d d1 : rely (Some t) d d1 → fresh_txn t d → fresh_txn t d1.
Proof.
  intros Hr Hf. destruct (stage_rely (λ x, st x = Open ∧ writes x = ∅) t d d1 Hr Hf) as (x & Hx & Hs).
  exists x. split; [done|]. destruct Hs as [[? _]|?]; [by left|by right].
Qed.

Lemma has_taken_rely t u id d d1 : rely (Some t) d d1 → has_taken t u id d → has_taken t u id d1.
Proof.
  intros Hr Hf. destruct (stage_rely (λ x, st x = Open ∧ ∃ s, writes x !! id = Some s ∧ owner s = Some u)
    t d d1 Hr Hf) as (x & Hx & Hs).
  exists x. split; [done|]. destruct Hs as [[? _]|?]; [by left|by right].
Qed.

Lemma holds_free_rely t id d d1 : rely (Some t) d d1 → holds_free t id d → holds_free t id d1.
Proof.
  intros Hr Hf. destruct (stage_rely (λ x, st x = Open ∧ writes x = ∅ ∧ id ∈ locks x ∧
       (∃ c, committed d !! id = Some c ∧ owner c = None)) t d d1 Hr Hf) as (x & Hx & Hs).
  exists x. split; [done|]. destruct Hs as [[(Ho & Hw & Hid & Hc) Hx']|?]; [left|by right].
  split_and!; try done. by rewrite (r_locked _ _ _ Hr t x id).
Qed.

Lemma usable_rely t d d1 : rely (Some t) d d1 → usable t d → usable t d1.
Proof.
  intros [Hr _ _ _] (x & Hx & Hs). destruct (Hr _ _ Hx) as (x' & Hx' & Hc).
  exists x'. split; [done|]. by destruct (Hc eq_refl) as [->| ->].
Qed.

Lemma seen_free_rely T id v d d1 : rely T d d1 → seen_free id v d → seen_free id v d1.
Proof. intros Hr (m & s & Hm & ?). exists m, s. split; [by eapply r_seen|done]. Qed.
End stages.

(** * The calls at their stages *)

Section calls.
Context (versioned : bool).
Abbreviation wp := (wp versioned).
Abbreviation guar := (guar versioned).
Abbreviation valid := (valid versioned).

Lemma wp_nothing_told u err T d : wp u (Ret None err) T d.
Proof. by intros d1 _ _ id [=]. Qed.

Lemma wp_rollback u t p d : (∀ d, wp u p (Some t) d) → wp u (PRollback t (λ _, p)) (Some t) d.
Proof. intros Hp d1 _ _. split; [done|]. intros. apply Hp. Qed.

(** A begun transaction is fresh. *)
Lemma begun t d d' : begin_spec d (inl t) d' → fresh_txn t d'.
Proof.
  intros [_ ->]. exists (gone Open). split; [apply lookup_insert_eq|by left].
Qed.

(** The commit of a booking, with [failure] for what follows a failed one. *)
Lemma commit_wp u t id (failure : goerr → prog) d :
  has_taken t u id d → (∀ e d, wp u (failure e) (Some t) d) →
  wp u (PCommit t (λ r, match r with
        | inr err => failure err
        | inl _ => Ret (Some id) None
        end)) (Some t) d.
Proof.
  intros Ht Hf d1 Hr Hv. pose proof (has_taken_rely _ _ _ _ _ Hr Ht) as (x & Hx & Hs).
  split; [done|]. intros r d2 Hc. assert (st x ≠ Aborted) as Ha by (destruct Hs as [[-> _]| ->]; done).
  destruct (call_spec_cases _ _ _ _ _ _ _ Hx Ha Hc) as
    [(Ho & [] & -> & ->)|[(Ho & [e ->] & Hko)|(_ & [e ->] & ->)]].
  - split; [by eapply applied_guar|]. intros d3 Hr3 _ id' [= <-].
    destruct Hs as [(_ & s & Hs & Hu)|Hd]; [|congruence]. exists s. split; [|done].
    apply (r_owned _ _ _ Hr3); [|by rewrite Hu]. cbn. by apply lookup_union_Some_l.
  - split; [by eapply commit_failed_guar|apply Hf].
  - split; [by apply guar_refl|apply Hf].
Qed.

(** An update of a seat that is free, by a transaction that is open or over: the row is
    changed, or the call fails. *)
Lemma update_wp u t id c new x d d2 (k : result + goerr → prog) r s' :
  valid d → txns d !! t = Some x → st x ≠ Aborted →
  (st x = Open → committed d !! id = Some c ∧ current x d id = Some c ∧
     new c = Some s' ∧ later versioned c s' ∧ owner s' = Some u) →
  call_spec t (λ x, update t d x id new) (λ x, failed t x d) d r d2 →
  (∀ e d, wp u (k (inr e)) (Some t) d) →
  (∀ a d, RowsAffected a = inl 1 ∨ is_err (RowsAffected a) → has_taken t u id d →
     wp u (k (inl a)) (Some t) d) →
  guar (Some t) d d2 ∧ wp u (k r) (Some t) d2.
Proof.
  intros Hv Hx Ha Hok Hc Hko Hk.
  destruct (call_spec_cases _ _ _ _ _ _ _ Hx Ha Hc) as
    [(Ho & a & -> & L & HL & Hid & Hu)|[(Ho & [e ->] & Hf)|(_ & [e ->] & ->)]].
  - destruct (Hok Ho) as (Hcm & Hcur & Hnew & Hl & Hown). rewrite Hcur in Hu. cbn in Hu. rewrite Hnew in Hu.
    destruct Hu as [-> Hra]. split; [by eapply written_guar|]. apply Hk; [done|].
    eexists. split; [apply lookup_insert_eq|]. left. split; [done|]. exists s'. split; [|done].
    apply lookup_insert_eq.
  - split; [by eapply failed_guar|apply Hko].
  - split; [by apply guar_refl|apply Hko].
Qed.
End calls.

(** [update_wp], with the continuation read off the goal. *)
Ltac apply_update_wp r c x s' :=
  lazymatch goal with
  | |- _ ∧ SeatLogic.wp ?v ?u ?p (Some ?t) ?d2 =>
      let p' := eval pattern r in p in
      lazymatch p' with
      | ?k r => eapply (update_wp v u t _ c _ x _ d2 k r s')
      end
  end.

(** * Locking reads *)

Section locking.
Abbreviation wp := (wp false).

Lemma book_selected_wp u t id d : holds_free t id d → wp u (book_selected t u id) (Some t) d.
Proof.
  intros Hf d1 Hr Hv. pose proof (holds_free_rely _ _ _ _ Hr Hf) as (x & Hx & Hs).
  split; [done|]. intros r d2 [He _]. specialize (He eq_refl eq_refl u id eq_refl).
  assert (st x ≠ Aborted) as Ha by (destruct Hs as [[-> _]| ->]; done).
  assert (∃ c, st x = Open → committed d1 !! id = Some c ∧ owner c = None ∧ writes x = ∅) as [c Hc].
  { destruct Hs as [(_ & Hw & _ & c & Hc & Ho)|Hd]; [by exists c|]. exists (mkSeat None 0). congruence. }
  apply_update_wp r c x (mkSeat (Some u) (version c)); [exact Hv|exact Hx|exact Ha| |exact He|..].
  - intros (Hcm & Ho & Hw)%Hc. unfold current, take_seat. rewrite Hw, (left_id_L ∅ (∪)), Ho.
    rewrite decide_False by done. by split_and!.
  - intros e d'. apply wp_rollback. intros. apply wp_nothing_told.
  - intros a d' Hra Ht. destruct (RowsAffected a) as [n|e].
    + destruct Hra as [[= ->]|[]]. cbn [Z.eqb]. apply (commit_wp false u t id); [done|].
      intros. apply wp_nothing_told.
    + apply wp_rollback. intros. apply wp_nothing_told.
Qed.

(** A SELECT with a lock makes the booking safe. *)
Lemma bookSeat_wp select u T d :
  select = select_seat " FOR UPDATE" ∨ select = select_seat " FOR UPDATE SKIP LOCKED" →
  wp u (bookSeat select u) T d.
Proof.
  intros Hsel d1 _ Hv r d2 Hb. destruct r as [t|e]; [|apply wp_nothing_told].
  intros d3 Hr Hv3. pose proof (fresh_txn_rely _ _ _ Hr (begun _ _ _ Hb)) as (x & Hx & Hs).
  split; [done|]. intros r d4 [_ Hq]. specialize (Hq eq_refl Hsel).
  assert (st x ≠ Aborted) as Ha by (destruct Hs as [[-> _]| ->]; done).
  assert (∀ e d, wp u (PRollback t (λ _, Ret None (Some
    (if decide (e = ErrNoRows) then ErrNew "no available seats to book"
     else ErrWrap "failed to select seat" e)))) (Some t) d) as Hko.
  { intros. apply wp_rollback. intros. apply wp_nothing_told. }
  destruct (call_spec_cases _ _ _ _ _ _ _ Hx Ha Hq) as
    [(Ho & row & -> & L & s & HL & Hid & -> & Hcur & Hrow & _)|[(Ho & [e ->] & Hf)|(_ & [e ->] & ->)]].
  - split; [by eapply locked_guar|]. apply book_selected_wp.
    destruct Hs as [[_ Hw]|?]; [|congruence]. unfold current in Hcur. rewrite Hw, (left_id_L ∅ (∪)) in Hcur.
    eexists. split; [apply lookup_insert_eq|]. left. cbn. split_and!; try done.
    + apply elem_of_union. by left.
    + by exists s.
  - split; [by eapply failed_guar|apply Hko].
  - split; [by apply guar_refl|apply Hko].
Qed.
End locking.

(** * Versions *)

Section versions.
Abbreviation wp := (wp true).

Lemma book_version_wp u t id v p d :
  fresh_txn t d → seen_free id v d → (∀ d, wp u p (Some t) d) →
  wp u (book_version t u id v p) (Some t) d.
Proof.
  intros Hf Hseen Hp d1 Hr Hv. pose proof (fresh_txn_rely _ _ _ Hr Hf) as (x & Hx & Hs).
  pose proof (seen_free_rely _ _ _ _ _ Hr Hseen) as (m & s & Hm & Hms & Hso & Hsv).
  split; [done|]. intros r d2 [_ He]. specialize (He eq_refl eq_refl u id v eq_refl).
  assert (st x ≠ Aborted) as Ha by (destruct Hs as [[-> _]| ->]; done).
  assert (∀ d, wp u (PRollback t (λ _, p)) (Some t) d) as Hko by (intros; by apply wp_rollback).
  destruct (v_history _ _ Hv m id s Hm Hms) as (c & Hc & Hl).
  destruct (decide (st x = Open ∧ version c ≠ v)) as [[Ho Hne]|Hcase].
  - destruct (call_spec_cases _ _ _ _ _ _ _ Hx Ha He) as
      [(_ & a & -> & L & HL & Hid & Hu)|[(_ & [e ->] & Hfl)|(? & _)]]; [| |done].
    + destruct Hs as [[_ Hw]|?]; [|congruence]. unfold current in Hu.
      rewrite Hw, (left_id_L ∅ (∪)), Hc in Hu. cbn in Hu. unfold take_seat_v2 in Hu.
      rewrite decide_False in Hu by done. destruct Hu as [-> Hra].
      split; [by eapply locked_guar|]. destruct (RowsAffected a) as [n|e]; [|apply Hko].
      destruct Hra as [[= ->]|[]]. apply Hko.
    + split; [by eapply failed_guar|apply Hko].
  - apply_update_wp r c x (mkSeat (Some u) (version c + 1)); [exact Hv|exact Hx|exact Ha| |exact He|..].
    + intros Ho. assert (version c = v) as Hcv by (destruct (decide (version c = v)); tauto).
      destruct Hs as [[_ Hw]|?]; [|congruence].
      assert (s = c) as -> by (apply Hl; [done|congruence]).
      unfold current, take_seat_v2. rewrite Hw, (left_id_L ∅ (∪)), decide_True by done.
      split_and!; try done. split; cbn; [lia|]. split; [by rewrite Hso|intros; lia].
    + intros e d'. apply Hko.
    + intros a d' Hra Ht. destruct (RowsAffected a) as [n|e]; [|apply Hko].
      destruct Hra as [[= ->]|[]]. cbn [Z.eqb]. by apply (commit_wp true u t id).
Qed.

Lemma attempt_booking_wp u p T d : (∀ T d, wp u p T d) → wp u (attempt_booking u p) T d.
Proof.
  intros Hp d1 _ Hv r d2 Hb. destruct r as [t|e]; [|by intros ? _ _].
  intros d3 Hr Hv3. pose proof (fresh_txn_rely _ _ _ Hr (begun _ _ _ Hb)) as Hf.
  split; [done|]. intros r d4 [Hq _]. specialize (Hq eq_refl). pose proof Hf as (x & Hx & Hs).
  assert (st x ≠ Aborted) as Ha by (destruct Hs as [[-> _]| ->]; done).
  assert (∀ d, wp u (PRollback t (λ _, p)) (Some t) d) as Hko by (intros; by apply wp_rollback).
  destruct (call_spec_cases _ _ _ _ _ _ _ Hx Ha Hq) as
    [(_ & [id num third] & -> & -> & m & s & Hm & Hms & Hso & Hth)|[(_ & [e ->] & Hfl)|(_ & [e ->] & ->)]].
  - split; [by apply guar_refl|]. cbn in Hth. subst third. apply book_version_wp; [done| |auto].
    by exists m, s.
  - split; [by eapply failed_guar|apply Hko].
  - split; [by apply guar_refl|apply Hko].
Qed.

Lemma attempts_wp n u T d : wp u (attempts n u) T d.
Proof.
  revert T d. induction n as [|n IH]; intros T d; [apply wp_nothing_told|].
  by apply attempt_booking_wp.
Qed.
End versions.

End Bookings.
