(* ===== verification/SeatServer.v ===== *)
(** A concrete seat database that satisfies the laws: it answers at once or blocks, picks the
    first seat that will do, and loses the replies of the commits its script names.
    The examples of the booking programs run on it. *)

From stdpp Require Import gmap strings list fin_maps sets.
From Stdlib Require Import ZArith Lia.
From S2P Require Import Prelude SeatDb SeatLogic.
Import SeatDb.

Module SeatServer.

Definition errTxDone : goerr := ErrNew "sql: transaction has already been committed or rolled back".

(** [commits]: for each commit to come, [None], or the reply is lost and this tells
    whether it was carried out. *)
Record server := mkServer { data : seatdb; commits : list (option bool) }.

Definition on_data (s : server) (d : seatdb) : server := mkServer d (commits s).

(** No other transaction has this row. *)
Definition unlocked (t : nat) (id : Z) (d : seatdb) : bool :=
  bool_decide (map_Forall (λ t' x, t' ≠ t → id ∉ locks x) (txns d)).

Definition first_free (p : Z → bool) (m : seats) : option (Z * seat) :=
  List.find (λ x : Z * seat, bool_decide (owner x.2 = None) && p x.1) (map_to_list m).

(** The result of a call, or [None] while it blocks. *)
Abbreviation answer A := (option ((A + goerr) * server)).

Definition with_txn {A} (t : nat) (s : server) (f : txn → answer A) : answer A :=
  match txns (data s) !! t with
  | Some x => if decide (st x = Open) then f x else Some (inr errTxDone, s)
  | None => Some (inr errTxDone, s)
  end.

Definition s_begin (s : server) : answer nat :=
  let t := fresh (dom (txns (data s))) in
  Some (inl t, on_data s (put_txn t (gone Open) (data s))).

Definition s_row (versioned : bool) (id : Z) (c : seat) : row :=
  mkRow id "" (if versioned then Some (version c) else None).

Definition s_lock_row (t : nat) (x : txn) (id : Z) (c : seat) (s : server) : answer row :=
  if unlocked t id (data s)
  then Some (inl (s_row false id c), on_data s (locked t x {[ id ]} (data s)))
  else None.

Definition s_query (versioned : bool) (t : nat) (sql : string) (s : server) : answer row :=
  with_txn t s (λ x,
    let d := data s in
    if decide (sql = if versioned then sql_select_v2 else sql_select "") then
      match m ← head (history d); first_free (λ _, true) m with
      | Some (id, c) => Some (inl (s_row versioned id c), s)
      | None => Some (inr ErrNoRows, s)
      end
    else if decide (sql = sql_select " FOR UPDATE") then
      match first_free (λ _, true) (writes x ∪ committed d) with
      | Some (id, c) => s_lock_row t x id c s
      | None => Some (inr ErrNoRows, s)
      end
    else if decide (sql = sql_select " FOR UPDATE SKIP LOCKED") then
      match first_free (λ id, unlocked t id d) (writes x ∪ committed d) with
      | Some (id, c) => s_lock_row t x id c s
      | None => Some (inr ErrNoRows, s)
      end
    else Some (inr (ErrNew "syntax error"), s)).

Definition s_update (t : nat) (x : txn) (id : Z) (new : seat → option seat) (s : server) :
    answer result :=
  let d := data s in
  if unlocked t id d then
    match c ← current x d id; new c with
    | Some c' =>
        Some (inl (mkResult (inl 1)),
          on_data s (written t (mkTxn (st x) ({[ id ]} ∪ locks x) (writes x)) id c' d))
    | None => Some (inl (mkResult (inl 0)), on_data s (locked t x {[ id ]} d))
    end
  else None.

Definition s_exec (versioned : bool) (t : nat) (sql : string) (args : list Z) (s : server) :
    answer result :=
  with_txn t s (λ x,
    match args with
    | [u; id] =>
        if decide (versioned = false ∧ sql = sql_update) then s_update t x id (take_seat u) s
        else Some (inr (ErrNew "syntax error"), s)
    | [u; id; v] =>
        if decide (versioned = true ∧ sql = sql_update_v2) then s_update t x id (take_seat_v2 u v) s
        else Some (inr (ErrNew "syntax error"), s)
    | _ => Some (inr (ErrNew "syntax error"), s)
    end).

Definition s_commit (t : nat) (s : server) : answer unit :=
  with_txn t s (λ x,
    match commits s with
    | Some true :: l => Some (inr ErrIO, mkServer (applied t x (data s)) l)
    | Some false :: l => Some (inr ErrIO, mkServer (put_txn t (gone Done) (data s)) l)
    | None :: l => Some (inl (), mkServer (applied t x (data s)) l)
    | [] => Some (inl (), mkServer (applied t x (data s)) [])
    end).

Definition s_rollback (t : nat) (s : server) : answer unit :=
  match st <$> txns (data s) !! t with
  | Some Open | Some Aborted => Some (inl (), on_data s (put_txn t (gone Done) (data s)))
  | _ => Some (inr errTxDone, s)
  end.

#[export] Instance server_database (versioned : bool) : SeatDatabase server := {
  begin_ s r s' := s_begin s = Some (r, s');
  query_row t sql s r s' := s_query versioned t sql s = Some (r, s');
  exec t sql args s r s' := s_exec versioned t sql args s = Some (r, s');
  commit t s r s' := s_commit t s = Some (r, s');
  rollback t s r s' := s_rollback t s = Some (r, s');
  internal s s' := s' = s;
}.

(** * The laws hold *)

Lemma unlocked_lockable t id d : unlocked t id d = true → lockable t {[ id ]} d.
Proof.
  intros Hu%bool_decide_eq_true t' x Hne Hx. specialize (Hu _ _ Hx Hne). by apply disjoint_singleton_l.
Qed.

(** A statement may fail without a trace. *)
Lemma failed_same t x d : txns d !! t = Some x → failed t x d d.
Proof.
  intros Hx. exists ∅. split; [intros t' x' _ _; apply disjoint_empty_l|]. left.
  unfold locked, put_txn. rewrite (left_id_L ∅ (∪)). destruct x, d. cbn in *. by rewrite insert_id.
Qed.

Lemma first_free_Some p m id c :
  first_free p m = Some (id, c) → m !! id = Some c ∧ owner c = None ∧ p id = true.
Proof.
  unfold first_free. intros [Hin Hp]%find_some.
  apply list_elem_of_In, elem_of_map_to_list in Hin. cbn in Hp.
  by apply andb_prop in Hp as [?%bool_decide_eq_true ?].
Qed.

(** A call whose function meets the law when the transaction is open. *)
Lemma with_txn_spec {A} t s f r s' (ok : txn → A → seatdb → Prop) ko :
  with_txn t s f = Some (r, s') →
  (∀ x, txns (data s) !! t = Some x → st x = Open → f x = Some (r, s') →
     match r with inl a => ok x a (data s') | inr _ => ko x (data s') end) →
  call_spec t ok ko (data s) r (data s').
Proof.
  unfold with_txn, call_spec. destruct (txns (data s) !! t) as [x|]; [|done]. intros E Hf.
  destruct (decide (st x = Open)) as [Ho|Hn].
  - rewrite Ho. by apply Hf.
  - injection E as <- <-. by destruct (st x).
Qed.

Lemma s_update_spec t x id new s r s' :
  txns (data s) !! t = Some x → s_update t x id new s = Some (r, s') →
  match r with
  | inl a => update t (data s) x id new a (data s')
  | inr _ => failed t x (data s) (data s')
  end.
Proof.
  intros Hx. unfold s_update. destruct (unlocked t id (data s)) eqn:Hu; [|done].
  destruct (c ← current x (data s) id; new c) as [c|] eqn:Ec; intros [= <- <-];
    exists {[ id ]}; (split; [by apply unlocked_lockable|]; split; [set_solver|]); rewrite Ec;
    (split; [done|by left]).
Qed.

Lemma s_lock_row_spec t x id c s r s' :
  current x (data s) id = Some c → owner c = None → s_lock_row t x id c s = Some (r, s') →
  match r with
  | inl a => locking_read t (data s) x a (data s')
  | inr _ => failed t x (data s) (data s')
  end.
Proof.
  intros Hc Ho. unfold s_lock_row. destruct (unlocked t id (data s)) eqn:Hu; [|done]. intros [= <- <-].
  exists {[ id ]}, c. split_and!; [by apply unlocked_lockable|cbn; set_solver|done|done|]. by split.
Qed.

Lemma s_query_plain versioned t s r s' :
  s_query versioned t (if versioned then sql_select_v2 else sql_select "") s = Some (r, s') →
  call_spec t (λ _, plain_read versioned (data s)) (λ x, failed t x (data s)) (data s) r (data s').
Proof.
  intros E. eapply with_txn_spec; [exact E|]. cbn beta. intros x Hx Ho. rewrite decide_True by done.
  destruct (m ← _; _) as [[id c]|] eqn:Ef; intros [= <- <-]; [|by apply failed_same].
  apply bind_Some in Ef as (m & Hm & (Hc & Hf & _)%first_free_Some). split; [done|].
  exists m, c. split; [|by split; [|split]]. destruct (history (data s)); [done|]. injection Hm as ->. by left.
Qed.

Lemma s_query_locking t sql s r s' :
  sql = sql_select " FOR UPDATE" ∨ sql = sql_select " FOR UPDATE SKIP LOCKED" →
  s_query false t sql s = Some (r, s') →
  call_spec t (locking_read t (data s)) (λ x, failed t x (data s)) (data s) r (data s').
Proof.
  intros Hsql E. eapply with_txn_spec; [exact E|]. cbn beta. intros x Hx Ho.
  rewrite decide_False by (by destruct Hsql as [->| ->]).
  assert (∀ p, match first_free p (writes x ∪ committed (data s)) with
    | Some (id, c) => s_lock_row t x id c s
    | None => Some (inr ErrNoRows, s)
    end = Some (r, s') →
    match r with
    | inl a => locking_read t (data s) x a (data s')
    | inr _ => failed t x (data s) (data s')
    end) as Hcase.
  { intros p. destruct (first_free p _) as [[id c]|] eqn:Ef.
    - apply first_free_Some in Ef as (Hc & Hf & _). by apply s_lock_row_spec.
    - intros [= <- <-]. by apply failed_same. }
  destruct (decide (sql = _)) as [_|Hn]; [apply Hcase|].
  rewrite decide_True by tauto. apply Hcase.
Qed.

Lemma s_commit_spec t s r s' : s_commit t s = Some (r, s') → commit_spec t (data s) r (data s').
Proof.
  intros E. eapply with_txn_spec; [exact E|]. cbn beta. intros x Hx Ho.
  destruct (commits s) as [|[[]|] l]; intros [= <- <-]; [done|by left|by right; left|done].
Qed.

#[export] Instance server_laws (versioned : bool) : SeatLaws (H := server_database versioned) server versioned.
Proof.
  refine {| view := data |}.
  - intros s r s' [= <- <-]. split; [|done]. apply not_elem_of_dom, is_fresh.
  - intros t sql s r s' E. split; [intros ->; by apply s_query_plain|].
    intros -> Hsql. by eapply s_query_locking.
  - intros t sql args s r s' E. split.
    + intros -> -> u id ->. eapply with_txn_spec; [exact E|]. cbv beta iota. intros x Hx _.
      rewrite decide_True by done. by apply s_update_spec.
    + intros -> -> u id v ->. eapply with_txn_spec; [exact E|]. cbv beta iota. intros x Hx _.
      rewrite decide_True by done. by apply s_update_spec.
  - intros t s r s'. apply s_commit_spec.
  - intros t s r s'. unfold rollback, server_database, s_rollback, rollback_spec.
    destruct (st <$> txns (data s) !! t) as [[]|]; by intros [= <- <-].
  - intros s s' ->. by left.
Defined.

(** * Running programs *)

Section scheduler.
Context (versioned : bool).
#[local] Existing Instance server_database.

(** One call of a goroutine; [None] when it is blocked or has ended. *)
Definition advance (p : prog) (s : server) : option (server * prog) :=
  match p with
  | Ret _ _ | Crash _ => None
  | PBegin k => '(r, s') ← s_begin s; Some (s', k r)
  | PQueryRow t sql k => '(r, s') ← s_query versioned t sql s; Some (s', k r)
  | PExec t sql args k => '(r, s') ← s_exec versioned t sql args s; Some (s', k r)
  | PCommit t k => '(r, s') ← s_commit t s; Some (s', k r)
  | PRollback t k => '(r, s') ← s_rollback t s; Some (s', k r)
  end.

Lemma advance_step p s s' p' :
  advance p s = Some (s', p') → prog_step (H := server_database versioned) s p s' p'.
Proof.
  destruct p; cbn [advance]; try done; intros ([r s1] & E & [= <- <-])%bind_Some; by constructor.
Qed.

(** The goroutines move in this order. *)
Fixpoint schedule (order : list nat) (s : sys server) : option (sys server) :=
  match order with
  | [] => Some s
  | i :: order =>
      '(u, p) ← threads s !! i;
      '(s', p') ← advance p (db s);
      schedule order (mkSys s' (<[i := (u, p')]> (threads s)))
  end.

Lemma schedule_run order s s' :
  schedule order s = Some s' → run (H := server_database versioned) (length order) s s'.
Proof.
  revert s. induction order as [|i order IH]; intros s; cbn [schedule length].
  - intros [= <-]. apply run_refl.
  - intros ([u p] & Hi & ([d p'] & Ha & E)%bind_Some)%bind_Some.
    eapply run_thread; [exact Hi|by apply advance_step|by apply IH].
Qed.
End scheduler.

(** What a goroutine has told its user, and whether it has ended with an error. *)
Definition told_by (s : sys server) (i : nat) : option (Z * option Z * bool) :=
  '(u, p) ← threads s !! i;
  match p with Ret told err => Some (u, told, bool_decide (is_Some err)) | _ => None end.

(** A table nobody has touched yet. *)
Definition start_db (m : seats) : seatdb := mkDb m [m] ∅.

End SeatServer.
