(* ===== verification/BookingTheorems.v ===== *)
(** What the booking programs promise of a shared seat table, on every database that keeps
    the laws and under every interleaving; and where they do not. *)

From stdpp Require Import gmap strings list list_numbers fin_maps sets.
From Stdlib Require Import ZArith Lia.
From S2P Require Import Prelude SeatDb SeatLogic Bookings SeatServer.
Import SeatDb Bookings SeatServer.

(** * Starting *)

(** Nothing has run on the table yet. *)
Definition untouched (d : seatdb) : Prop := txns d = ∅ ∧ history d = [committed d].

Lemma untouched_valid versioned d : untouched d → valid versioned d.
Proof.
  intros [Ht Hh]. split; rewrite ?Ht, ?Hh.
  - intros t t' x x' Hx. by rewrite lookup_empty in Hx.
  - intros t x id s Hx. by rewrite lookup_empty in Hx.
  - intros m id s ->%list_elem_of_singleton Hs. by exists s.
  - by left.
Qed.

(** The users of [BookSeats] are all different. *)
Lemma BookSeats_lookup b i u p : BookSeats b !! i = Some (u, p) → u = 1 + Z.of_nat i ∧ p = b u.
Proof.
  unfold BookSeats. rewrite list_lookup_fmap.
  intros (v & Hv & [= -> ->])%fmap_Some. by apply lookup_seqZ in Hv as [-> _].
Qed.

(** A goroutine keeps its user. *)
Lemma run_users `{SeatDatabase D} n (s s' : sys D) :
  run n s s' → (threads s').*1 = (threads s).*1.
Proof.
  induction 1 as [|n s d s' Hi _ IH|n s i u p d p' s' Hi _ _ IH]; [done|done|].
  rewrite IH. cbn. apply list_eq. intros j. rewrite !list_lookup_fmap.
  destruct (decide (i = j)) as [<-|Hne]; [|by rewrite list_lookup_insert_ne].
  rewrite list_lookup_insert_eq by (by eapply lookup_lt_Some). by rewrite Hi.
Qed.

Section bookings.
Context `{SeatLaws D versioned}.

(** Programs that keep the logic's guarantee, for the users of [BookSeats]. *)
Lemma bookings_exclusive b n (s s' : sys D) :
  (∀ u d, wp versioned u (b u) None d) →
  untouched (view (db s)) → threads s = BookSeats b → run n s s' →
  (∀ i u id err, threads s' !! i = Some (u, Ret (Some id) err) →
     ∃ c, committed (view (db s')) !! id = Some c ∧ owner c = Some u) ∧
  (∀ i j u u' id err err', threads s' !! i = Some (u, Ret (Some id) err) →
     threads s' !! j = Some (u', Ret (Some id) err') → i = j).
Proof.
  intros Hb Hu Ht Hr.
  assert (∀ i u id err, threads s' !! i = Some (u, Ret (Some id) err) →
     ∃ c, committed (view (db s')) !! id = Some c ∧ owner c = Some u) as Hown.
  { intros i u id err Hi. eapply (wp_adequate versioned n s s'); try done; [by apply untouched_valid|].
    rewrite Ht. intros u1 p1 [k Hk]%list_elem_of_lookup. by apply BookSeats_lookup in Hk as [_ ->]. }
  split; [done|]. intros i j u u' id err err' Hi Hj.
  destruct (Hown _ _ _ _ Hi) as (c & Hc & Ho), (Hown _ _ _ _ Hj) as (c' & Hc' & Ho').
  assert (∀ k v p, threads s' !! k = Some (v, p) → v = 1 + Z.of_nat k) as Hk.
  { intros k v p Hk. assert ((threads s).*1 !! k = Some v) as Hv.
    { rewrite <-(run_users n s s' Hr), list_lookup_fmap. by rewrite Hk. }
    rewrite Ht, list_lookup_fmap in Hv. apply fmap_Some in Hv as ([v' p'] & Hl & ->).
    by apply BookSeats_lookup in Hl as [-> _]. }
  apply Hk in Hi, Hj. simplify_eq. lia.
Qed.
End bookings.

(** C27: With a locking read, whatever the interleaving, the server's choices, its failures and
    the connections it loses: a seat reported to a user as booked is that user's in the
    table, and stays so; no seat is reported to two users. *)
Theorem locked_bookings_exclusive `{SeatLaws D false} b n (s s' : sys D) :
  b = update_bookSeat ∨ b = updateskip_bookSeat →
  untouched (view (db s)) → threads s = BookSeats b → run n s s' →
  (∀ i u id err, threads s' !! i = Some (u, Ret (Some id) err) →
     ∃ c, committed (view (db s')) !! id = Some c ∧ owner c = Some u) ∧
  (∀ i j u u' id err err', threads s' !! i = Some (u, Ret (Some id) err) →
     threads s' !! j = Some (u', Ret (Some id) err') → i = j).
Proof.
  intros Hb. apply bookings_exclusive. intros u d.
  destruct Hb as [->| ->]; apply bookSeat_wp; [by left|by right].
Qed.

(** C35: The optimistic variant promises the same with plain reads, on the table with versions: a seat
    reported to a user as booked is that user's and stays so, and no seat is reported to two
    users.  An update that finds the version it read has found the seat free. *)
Theorem optimistic_bookings_exclusive `{SeatLaws D true} n (s s' : sys D) :
  untouched (view (db s)) → threads s = BookSeats optimistic_bookSeat → run n s s' →
  (∀ i u id err, threads s' !! i = Some (u, Ret (Some id) err) →
     ∃ c, committed (view (db s')) !! id = Some c ∧ owner c = Some u) ∧
  (∀ i j u u' id err err', threads s' !! i = Some (u, Ret (Some id) err) →
     threads s' !! j = Some (u', Ret (Some id) err') → i = j).
Proof. apply bookings_exclusive. intros u d. apply attempts_wp. Qed.

(** * Runs *)

Definition two_seats : seats := <[1 := mkSeat None 1]> (<[2 := mkSeat None 1]> ∅).
Definition start (b : Z → prog) (m : seats) (script : list (option bool)) : sys server :=
  mkSys (mkServer (start_db m) script) (BookSeats b).
Lemma start_untouched b m script : untouched (data (db (start b m script))).
Proof. done. Qed.
Definition end_of (versioned : bool) (order : list nat) (s : sys server) : sys server :=
  default s (schedule versioned order s).

Definition never_blocks (versioned : bool) (order : list nat) (s : sys server) : bool :=
  match schedule versioned order s with Some _ => true | None => false end.

Lemma end_run versioned order s :
  never_blocks versioned order s = true →
  run (H := server_database versioned) (length order) s (end_of versioned order s).
Proof.
  unfold never_blocks, end_of. destruct (schedule versioned order s) as [s'|] eqn:E; [|done].
  intros _. by apply schedule_run.
Qed.

(** What an ended goroutine told. *)
Lemma told_by_ret s i u id :
  told_by s i = Some (u, Some id, false) → ∃ err, threads s !! i = Some (u, Ret (Some id) err).
Proof.
  unfold told_by. intros ([v p] & Hi & Hp)%bind_Some. destruct p; try done.
  injection Hp as -> -> _. by eexists.
Qed.

(** Two goroutines in turn, the second one skips the row the first one has locked. *)
Definition skipping : list nat := [0; 1; 0; 1; 0; 1; 0; 1]%nat.
Abbreviation skip_start := (start updateskip_bookSeat two_seats []).

Lemma locked_bookings_exclusive_witness :
  ∃ c, committed (data (db (end_of false skipping skip_start))) !! 1 = Some c ∧ owner c = Some 2.
Proof.
  set (s' := end_of false skipping skip_start).
  assert (run (H := server_database false) 8 skip_start s') as Hr
    by (apply (end_run false skipping); vm_compute; reflexivity).
  assert (told_by s' 1 = Some (2, Some 1, false)) as [err Hi]%told_by_ret by (vm_compute; reflexivity).
  clearbody s'.
  destruct (locked_bookings_exclusive (D := server) (H := server_database false) (H0 := server_laws false) updateskip_bookSeat 8
    skip_start s' (or_intror eq_refl) (start_untouched _ _ _) eq_refl Hr) as [Ho _].
  exact (Ho _ _ _ _ Hi).
Defined.

(** The second goroutine read the first one's seat, finds its version gone and tries again. *)
Definition conflict : list nat := [0; 1; 0; 1; 0; 0; 1; 1; 1; 1; 1; 1]%nat.
Abbreviation optimistic_start := (start optimistic_bookSeat two_seats []).

Lemma optimistic_bookings_exclusive_witness :
  ∃ c, committed (data (db (end_of true conflict optimistic_start))) !! 1 = Some c ∧ owner c = Some 2.
Proof.
  set (s' := end_of true conflict optimistic_start).
  assert (run (H := server_database true) 12 optimistic_start s') as Hr
    by (apply (end_run true conflict); vm_compute; reflexivity).
  assert (told_by s' 1 = Some (2, Some 1, false)) as [err Hi]%told_by_ret by (vm_compute; reflexivity).
  clearbody s'.
  destruct (optimistic_bookings_exclusive (D := server) (H := server_database true) (H0 := server_laws true) 12
    optimistic_start s' (start_untouched _ _ _) eq_refl Hr) as [Ho _].
  exact (Ho _ _ _ _ Hi).
Defined.

(** Without a lock two users are told that they booked the same seat, on a table with a
    second one free. *)
Theorem noupdate_double_booking :
  ∃ (s : sys server),
    run (H := server_database false) 8 (start noupdate_bookSeat two_seats []) s ∧
    told_by s 0 = Some (1, Some 2, false) ∧ told_by s 1 = Some (2, Some 2, false).
Proof.
  exists (end_of false [0; 1; 0; 1; 0; 0; 1; 1]%nat (start noupdate_bookSeat two_seats [])).
  split; [|vm_compute; auto].
  apply (end_run false [0; 1; 0; 1; 0; 0; 1; 1]%nat). vm_compute. reflexivity.
Qed.

(** The rows a user has. *)
Definition seats_of (u : Z) (s : sys server) : list Z :=
  (filter (λ x : Z * seat, owner x.2 = Some u) (map_to_list (committed (data (db s))))).*1.

(** The optimistic variant misreports: on a full table it returns no error after fifty
    attempts that booked nothing; and a user whose commit was carried out although its
    reply was lost is told of one seat and has two. *)
Theorem optimistic_misreports :
  (∃ s, run (H := server_database true) 150 (start optimistic_bookSeat ∅ []) s ∧
     told_by s 0 = Some (1, None, false)) ∧
  (∃ s, run (H := server_database true) 9 (start optimistic_bookSeat two_seats [Some true]) s ∧
     told_by s 0 = Some (1, Some 1, false) ∧ seats_of 1 s = [2; 1]).
Proof.
  split.
  - exists (end_of true (repeat 0 150)%nat (start optimistic_bookSeat ∅ [])). split; [|vm_compute; auto].
    apply (end_run true (repeat 0 150)%nat). vm_compute. reflexivity.
  - exists (end_of true (repeat 0 9)%nat (start optimistic_bookSeat two_seats [Some true])).
    split; [|vm_compute; auto]. apply (end_run true (repeat 0 9)%nat). vm_compute. reflexivity.
Qed.
