(* ===== verification/BookingSystem.v ===== *)
(** [relational-db/exclusive-locks/]: [main], [db.Init] and [BookSeats] put together: the
    bookings of [Bookings] run in goroutines that take their connection from the pool of
    [ConnPool], and a [WaitGroup] waits for them.  The whole refines both parts. *)

From stdpp Require Import gmap strings list list_numbers fin_maps sets relations.
From Stdlib Require Import ZArith Lia.
From S2P Require Import Prelude ConnPool SeatDb SeatLogic Bookings SeatServer BookingTheorems.
Import ConnPool(conn, cpool, tokens, conns, maxConn, send, receive, push, pop, newPool,
  client, Outside, Getting, Holding, Putting, Panicked, pool_step).
Import SeatDb Bookings SeatServer.

Module BookingSystem.

(** * The program *)

(** Where a goroutine is: before [Get] or between its two parts; booking on a connection;
    between the two parts of the deferred [Put]; before the deferred [wg.Done]; gone. *)
Inductive phase :=
| AtGet (p : prog)
| Popping (p : prog)
| Working (c : conn) (p : prog)
| Sending (p : prog)
| Leaving (p : prog)
| Ended (p : prog).

(** [bookSeat] is over, by a return or a panic. *)
Definition over (p : prog) : bool := match p with Ret _ _ | Crash _ => true | _ => false end.

(** The process dies when a panic has run the goroutine's deferred calls. *)
Definition crashed (x : Z * phase) : bool := match x.2 with Ended (Crash _) => true | _ => false end.

Definition users : nat := 100.

Section system.
Context `{SeatDatabase D}.

(** [waited]: [wg.Wait] has returned. *)
Record state := mkState {
  database : D;
  CommonPool : cpool;
  wg : Z;
  goroutines : list (Z * phase);
  waited : bool;
}.

Definition alive (s : state) : bool := forallb (λ x, negb (crashed x)) (goroutines s).

(** A goroutine in a new phase, with a new pool. *)
Definition moved (s : state) (i : nat) (u : Z) (ph : phase) (pool : cpool) : state :=
  mkState (database s) pool (wg s) (<[i := (u, ph)]> (goroutines s)) (waited s).

Variable bookSeat : Z → prog.

(** [BookSeats]: the loop over the users 1 to 100, with [wg.Add(1)] and [go]; the goroutines
    run between any two of its rounds; [wg.Wait] after it. *)
Inductive booking_step : state → state → Prop :=
| spawn s :
    alive s = true → (length (goroutines s) < users)%nat →
    let i := 1 + len (goroutines s) in
    booking_step s (mkState (database s) (CommonPool s) (wg s + 1) (goroutines s ++ [(i, AtGet (bookSeat i))])
      (waited s))
| wait s :
    alive s = true → length (goroutines s) = users → wg s = 0 →
    booking_step s (mkState (database s) (CommonPool s) (wg s) (goroutines s) true)
| get_receive s i u p pool :
    alive s = true → goroutines s !! i = Some (u, AtGet p) → receive (CommonPool s) = Some pool →
    booking_step s (moved s i u (Popping p) pool)
| get_pop s i u p c pool :
    alive s = true → goroutines s !! i = Some (u, Popping p) → pop (CommonPool s) = (Ok c, pool) →
    booking_step s (moved s i u (Working c p) pool)
| get_panic s i u p w pool :
    alive s = true → goroutines s !! i = Some (u, Popping p) → pop (CommonPool s) = (Panic w, pool) →
    booking_step s (moved s i u (Leaving (Crash w)) pool)
| call s i u c p d p' :
    alive s = true → goroutines s !! i = Some (u, Working c p) → prog_step (database s) p d p' →
    booking_step s (mkState d (CommonPool s) (wg s) (<[i := (u, Working c p')]> (goroutines s)) (waited s))
| put_push s i u c p pool :
    alive s = true → goroutines s !! i = Some (u, Working c p) → over p = true →
    push c (CommonPool s) = (Ok tt, pool) → booking_step s (moved s i u (Sending p) pool)
| put_send s i u p pool :
    alive s = true → goroutines s !! i = Some (u, Sending p) → send (CommonPool s) = Some pool →
    booking_step s (moved s i u (Leaving p) pool)
| wg_done s i u p :
    alive s = true → goroutines s !! i = Some (u, Leaving p) →
    booking_step s (mkState (database s) (CommonPool s) (wg s - 1) (<[i := (u, Ended p)]> (goroutines s))
      (waited s))
| server_step s d :
    alive s = true → internal (database s) d →
    booking_step s (mkState d (CommonPool s) (wg s) (goroutines s) (waited s)).

(** What [main] finds when [Init] is over. *)
Definition start (d : D) (pool : cpool) : state := mkState d pool 0 [] false.
End system.
Arguments state : clear implicits.

(** ** Init *)

Definition reset_seats : string := "UPDATE seats SET user_id = NULL".
Definition reset_seats_v2 : string := "UPDATE seats_v2 SET user_id = NULL, version = 1".

(** A statement outside a transaction: [db.Exec]. *)
Class Direct (D : Type) := direct : string → D → (unit + goerr) → D → Prop.

Section init.
Context `{Direct D}.

(** [resetSeats] with a pool: [Some] pool when it returns, [None] when it panics (the
    connection has been put back, and the process dies). *)
Inductive resetSeats : D * cpool → D * option cpool → Prop :=
| reset_all d pool p1 c p2 d1 d2 p3 p4 :
    receive pool = Some p1 → pop p1 = (Ok c, p2) →
    direct reset_seats d (inl ()) d1 → direct reset_seats_v2 d1 (inl ()) d2 →
    push c p2 = (Ok tt, p3) → send p3 = Some p4 →
    resetSeats (d, pool) (d2, Some p4)
| reset_first_fails d pool p1 c p2 err d1 :
    receive pool = Some p1 → pop p1 = (Ok c, p2) →
    direct reset_seats d (inr err) d1 → resetSeats (d, pool) (d1, None)
| reset_second_fails d pool p1 c p2 d1 err d2 :
    receive pool = Some p1 → pop p1 = (Ok c, p2) →
    direct reset_seats d (inl ()) d1 → direct reset_seats_v2 d1 (inr err) d2 →
    resetSeats (d, pool) (d2, None).

Definition poolSize : nat := 101.
Definition Init (newConn : nat → conn) (d : D) (r : D * option cpool) : Prop :=
  ∃ pool, newPool newConn poolSize = Some pool ∧ resetSeats (d, pool) r.
End init.

(** * The two parts in the whole *)

Definition prog_of (ph : phase) : prog :=
  match ph with AtGet p | Popping p | Working _ p | Sending p | Leaving p | Ended p => p end.
Definition client_of (ph : phase) : client :=
  match ph with
  | AtGet _ | Leaving _ | Ended _ => Outside
  | Popping _ => Getting
  | Working c _ => Holding c
  | Sending _ => Putting
  end.
Definition unfinished (ph : phase) : Z := match ph with Ended _ => 0 | _ => 1 end.
Definition phase_ok (ph : phase) : Prop :=
  match ph with Sending p | Leaving p | Ended p => over p = true | _ => True end.

(** One element of a list changes, seen through a function and beside other elements. *)
Lemma insert_seen {A B} (f : A → B) (l : list A) (r : list B) i x y :
  l !! i = Some x → (f <$> <[i := y]> l) ++ r = <[i := f y]> ((f <$> l) ++ r).
Proof.
  intros Hi%lookup_lt_Some. rewrite list_fmap_insert, insert_app_l; [done|by rewrite length_fmap].
Qed.
Lemma lookup_seen {A B} (f : A → B) (l : list A) (r : list B) i x :
  l !! i = Some x → ((f <$> l) ++ r) !! i = Some (f x).
Proof.
  intros Hi. rewrite lookup_app_l by (rewrite length_fmap; by eapply lookup_lt_Some).
  by rewrite list_lookup_fmap, Hi.
Qed.

Section refinement.
Context `{SeatDatabase D}.
Variable bookSeat : Z → prog.
Implicit Types s : state D.
Abbreviation step := (booking_step bookSeat).

(** The goroutines that are still to be started are there from the beginning. *)
Definition bookings s : sys D :=
  mkSys (database s) ((prod_map id prog_of <$> goroutines s) ++
    drop (length (goroutines s)) (BookSeats bookSeat)).
Definition clients_of s : list client :=
  ((λ x : Z * phase, client_of x.2) <$> goroutines s) ++
    replicate (users - length (goroutines s)) Outside.
Definition pool_state s : ConnPool.state := ConnPool.mkState (clients_of s) (CommonPool s).

Record sys_ok (cs : list conn) s : Prop := {
  so_pool : ConnPool.pool_inv cs (pool_state s);
  so_length : (length (goroutines s) ≤ users)%nat;
  so_wg : wg s = zsum ((λ x : Z * phase, unfinished x.2) <$> goroutines s);
  so_phase : Forall (λ x : Z * phase, phase_ok x.2) (goroutines s);
  so_waited : waited s = true → length (goroutines s) = users ∧ wg s = 0 ∧ alive s = true;
}.

Lemma run_trans n m (a b c : sys D) : run n a b → run m b c → run (n + m) a c.
Proof.
  induction 1 as [|n a d b Hd _ IH|n a i u p d p' b Hi Hp _ IH]; intros Hr; [done|..].
  - eapply run_internal; [exact Hd|by apply IH].
  - eapply run_thread; [exact Hi|exact Hp|by apply IH].
Qed.

(** A goroutine moves on in the pool or with its program only. *)
Lemma moved_seen s i u ph ph' pool :
  goroutines s !! i = Some (u, ph) →
  clients_of s !! i = Some (client_of ph) ∧
  pool_state (moved s i u ph' pool) = ConnPool.mkState (<[i := client_of ph']> (clients_of s)) pool.
Proof.
  intros Hi. split; [apply (lookup_seen (λ x : Z * phase, client_of x.2) _ _ _ _ Hi)|]. unfold pool_state, clients_of, moved. cbn.
  rewrite length_insert. f_equal. apply (insert_seen (λ x : Z * phase, client_of x.2) _ _ _ _ (u, ph') Hi).
Qed.
Lemma moved_bookings s i u ph ph' pool :
  goroutines s !! i = Some (u, ph) → prog_of ph' = prog_of ph → bookings (moved s i u ph' pool) = bookings s.
Proof.
  intros Hi Hp. unfold bookings, moved. cbn. rewrite length_insert. f_equal.
  rewrite (insert_seen _ _ _ _ _ _ Hi). apply list_insert_id.
  rewrite (lookup_seen _ _ _ _ _ Hi). cbn. by rewrite Hp.
Qed.

Lemma unfinished_positive s i u ph :
  goroutines s !! i = Some (u, ph) → unfinished ph = 1 →
  wg s = zsum ((λ x : Z * phase, unfinished x.2) <$> goroutines s) → 1 ≤ wg s.
Proof.
  intros Hi Hu ->. apply zsum_elem.
  - apply Forall_fmap, Forall_forall. intros [v []] _; cbn; lia.
  - rewrite <-Hu. apply (list_elem_of_fmap_2 (λ x : Z * phase, unfinished x.2) _ (u, ph)).
    by eapply list_elem_of_lookup_2.
Qed.

(** While a goroutine runs, [Wait] does not return. *)
Lemma not_waited cs s i u ph :
  sys_ok cs s → goroutines s !! i = Some (u, ph) → unfinished ph = 1 → waited s = true → False.
Proof.
  intros Hok Hi Hu (_ & Hz & _)%(so_waited _ _ Hok).
  pose proof (unfinished_positive s i u ph Hi Hu (so_wg _ _ Hok)). lia.
Qed.

(** What a move within the pool keeps. *)
Lemma moved_ok cs s i u ph ph' pool :
  sys_ok cs s → goroutines s !! i = Some (u, ph) →
  ConnPool.pool_step (pool_state s) (ConnPool.mkState (<[i := client_of ph']> (clients_of s)) pool) →
  unfinished ph = 1 → unfinished ph' = 1 → phase_ok ph' →
  sys_ok cs (moved s i u ph' pool) ∧ ConnPool.pool_step (pool_state s) (pool_state (moved s i u ph' pool)).
Proof.
  intros Hok Hi Hs Hu Hu' Hf. pose proof Hok as [Op Ol Ow Of Od]. destruct (moved_seen s i u ph ph' pool Hi) as [_ E].
  rewrite E. split; [|done]. split.
  - rewrite E. by eapply ConnPool.pool_step_inv.
  - cbn. by rewrite length_insert.
  - cbn. rewrite (zsum_insert _ _ _ _ _ Hi), Ow. cbn. lia.
  - cbn. by apply Forall_insert.
  - intros Hw. by destruct (not_waited cs s i u ph Hok Hi Hu).
Qed.

(** ** Every step of the whole is a step of the parts *)

Definition pool_moves s s' : Prop :=
  pool_state s' = pool_state s ∨ ConnPool.pool_step (pool_state s) (pool_state s').

Lemma in_pool cs s i u ph ph' pool :
  sys_ok cs s → goroutines s !! i = Some (u, ph) →
  ConnPool.pool_step (pool_state s) (ConnPool.mkState (<[i := client_of ph']> (clients_of s)) pool) →
  unfinished ph = 1 → unfinished ph' = 1 → phase_ok ph' → prog_of ph' = prog_of ph →
  let s' := moved s i u ph' pool in
  sys_ok cs s' ∧ pool_moves s s' ∧ ∃ n, run n (bookings s) (bookings s').
Proof.
  intros Hok Hi Hs Hu Hu' Hf Hp. destruct (moved_ok cs s i u ph ph' pool Hok Hi Hs Hu Hu' Hf) as [? ?].
  split; [done|]. split; [by right|]. exists 0%nat. rewrite (moved_bookings s i u ph ph' pool Hi Hp). apply run_refl.
Qed.

(** The pool's rules, for the goroutine's client. *)
Lemma client_lookup s i u ph :
  goroutines s !! i = Some (u, ph) → ConnPool.clients (pool_state s) !! i = Some (client_of ph).
Proof. intros Hi. apply (moved_seen s i u ph ph (CommonPool s) Hi). Qed.

(** A new goroutine was there in both parts. *)
Lemma spawned s (i := 1 + len (goroutines s)) w :
  (length (goroutines s) < users)%nat →
  let s' := mkState (database s) (CommonPool s) w (goroutines s ++ [(i, AtGet (bookSeat i))]) (waited s) in
  pool_state s' = pool_state s ∧ bookings s' = bookings s.
Proof.
  intros Hlt. cbv zeta. unfold pool_state, clients_of, bookings. cbn [goroutines database CommonPool].
  rewrite length_app, !fmap_app, <-!(assoc_L (++)). cbn [length]. split; do 2 f_equal.
  - replace (users - length (goroutines s))%nat with (S (users - (length (goroutines s) + 1)))%nat by lia.
    done.
  - assert (BookSeats bookSeat !! length (goroutines s) = Some (i, bookSeat i)) as Hn.
    { unfold BookSeats. rewrite list_lookup_fmap, (proj2 (lookup_seqZ _ _ _ i)); [done|].
      split; [done|]. unfold users in Hlt. lia. }
    rewrite (drop_S _ _ _ Hn). by rewrite Nat.add_1_r.
Qed.

(** A goroutine stays where it is for the pool. *)
Lemma same_client s i u ph ph' d w :
  goroutines s !! i = Some (u, ph) → client_of ph' = client_of ph →
  pool_state (mkState d (CommonPool s) w (<[i := (u, ph')]> (goroutines s)) (waited s)) = pool_state s.
Proof.
  intros Hi Hc. destruct (moved_seen s i u ph ph' (CommonPool s) Hi) as [Hl E].
  unfold moved, pool_state, clients_of in *. cbn in *. rewrite E, Hc. f_equal. by apply list_insert_id.
Qed.

Lemma step_refines cs s s' :
  step s s' → sys_ok cs s → sys_ok cs s' ∧ pool_moves s s' ∧ ∃ n, run n (bookings s) (bookings s').
Proof.
  intros Hs Hok. pose proof Hok as [Op Ol Ow Of Od].
  destruct Hs as [s _ Hlt i|s Ha Hl Hw|s i u p pool _ Hi E|s i u p c pool _ Hi E|s i u p w pool _ Hi E|
    s i u c p d p' _ Hi E|s i u c p pool _ Hi Ho E|s i u p pool _ Hi E|s i u p _ Hi|s d _ E].
  - destruct (spawned s (wg s + 1) Hlt) as [E1 E2]. fold i in E1, E2. split; [|split].
    + split; cbn [goroutines wg waited]; rewrite ?E1; [done| | | |].
      * rewrite length_app. cbn. lia.
      * rewrite fmap_app, zsum_app, <-Ow. done.
      * apply Forall_app_2; [done|]. by apply Forall_singleton.
      * intros [? _]%Od. lia.
    + by left.
    + exists 0%nat. rewrite E2. apply run_refl.
  - split; [|split; [by left|exists 0%nat; apply run_refl]]. by split.
  - eapply in_pool; [done|exact Hi|eapply (ConnPool.get_receive (pool_state s)); [exact (client_lookup _ _ _ _ Hi)|done]|done..].
  - eapply in_pool; [done|exact Hi|eapply (ConnPool.get_pop (pool_state s)); [exact (client_lookup _ _ _ _ Hi)|done]|done..].
  - destruct (ConnPool.pop_spec (CommonPool s)) as (l & c & _ & E');
      [by apply (ConnPool.get_pops _ _ i Op), (client_lookup _ _ _ _ Hi)|congruence].
  - split; [|split].
    + split; cbn [goroutines wg waited]; rewrite ?(same_client _ _ _ _ _ _ _ Hi), ?length_insert by done; try done.
      * rewrite (zsum_insert _ _ _ _ _ Hi), Ow. cbn. lia.
      * by apply Forall_insert.
      * intros Hw. by destruct (not_waited cs s i u _ Hok Hi eq_refl).
    + left. by apply (same_client _ _ _ _ _ _ _ Hi).
    + exists 1%nat. eapply run_thread; [|exact E|].
      * apply (lookup_seen (prod_map id prog_of) _ _ _ _ Hi).
      * unfold bookings. cbn. rewrite length_insert, (insert_seen _ _ _ _ _ _ Hi). apply run_refl.
  - eapply in_pool; [done|exact Hi|eapply (ConnPool.put_push (pool_state s)); [exact (client_lookup _ _ _ _ Hi)|done]|done..].
  - eapply in_pool; [done|exact Hi|eapply (ConnPool.put_send (pool_state s)); [exact (client_lookup _ _ _ _ Hi)|done]|done|done| |done].
    apply (Forall_lookup_1 _ _ _ _ Of Hi).
  - split; [|split].
    + split; cbn [goroutines wg waited]; rewrite ?(same_client _ _ _ _ _ _ _ Hi), ?length_insert by done; try done.
      * rewrite (zsum_insert _ _ _ _ _ Hi), Ow. cbn. lia.
      * apply Forall_insert; [done|]. apply (Forall_lookup_1 _ _ _ _ Of Hi).
      * intros Hw. by destruct (not_waited cs s i u _ Hok Hi eq_refl).
    + left. by apply (same_client _ _ _ _ _ _ _ Hi).
    + exists 0%nat. assert (∀ a b : sys D, a = b → run 0 a b) as Hr by (intros ? ? ->; apply run_refl).
      apply Hr. symmetry. apply (moved_bookings s i u _ (Ended p) (CommonPool s) Hi eq_refl).
  - split; [|split; [by left|exists 0%nat; eapply run_internal; [exact E|apply run_refl]]]. by split.
Qed.

Lemma reachable_refines cs s0 s :
  sys_ok cs s0 → rtc step s0 s →
  sys_ok cs s ∧ rtc ConnPool.pool_step (pool_state s0) (pool_state s) ∧ ∃ n, run n (bookings s0) (bookings s).
Proof.
  intros Hok Hr. revert Hok. induction Hr as [s|s0 s1 s Hs _ IH]; intros Hok.
  { split; [done|]. split; [done|]. exists 0%nat. apply run_refl. }
  destruct (step_refines cs s0 s1 Hs Hok) as (Hok1 & Hp & n & Hn).
  destruct (IH Hok1) as (Hok2 & Hp2 & m & Hm). split; [done|]. split.
  - destruct Hp as [<-|Hp]; [done|by eapply rtc_l].
  - exists (n + m)%nat. by eapply run_trans.
Qed.
End refinement.

(** ** Init leaves a full pool *)

Section init_spec.
Context `{SeatDatabase D} `{Direct D}.

Lemma resetSeats_pool d pool d' pool' : resetSeats (d, pool) (d', Some pool') → pool' = pool.
Proof.
  intros Hr. inversion Hr as [? ? p1 c p2 d1 d2 p3 p4 E1 E2 _ _ E3 E4| |]; subst.
  revert E1 E3 E4. unfold receive. destruct (Z.ltb_spec 0 (tokens pool)); [|done].
  intros [= <-] [= <-]. destruct pool as [t cs m]. cbn [tokens conns maxConn] in *.
  destruct cs as [|c' cs _] using rev_ind; [done|].
  destruct (ConnPool.pop_spec (ConnPool.mkPool (t - 1) (cs ++ [c']) m)) as (l & c1 & El & Ep).
  { cbn [ConnPool.conns]. rewrite len_app. unfold len at 2. cbn. pose proof (len_nonneg cs). lia. }
  rewrite Ep in E2. injection E2 as -> <-. unfold send. cbn [tokens conns maxConn] in *.
  destruct (_ <? _); [|done]. intros [= <-]. f_equal; [lia|done].
Qed.

Lemma Init_pool newConn d d' pool :
  Init newConn d (d', Some pool) → ConnPool.start newConn poolSize users (pool_state (start d' pool)).
Proof.
  intros (p0 & Hp & Hr%resetSeats_pool). subst. by split.
Qed.

Lemma start_ok newConn d d' pool :
  Init newConn d (d', Some pool) → sys_ok (newConn <$> seq 0 poolSize) (start d' pool).
Proof.
  intros Hi. split; [|unfold start, users; cbn; lia|done|constructor|done].
  by eapply ConnPool.pool_inv_start, Init_pool.
Qed.
End init_spec.

(** * No goroutine waits for a connection *)

Section pool.
Context `{SeatDatabase D}.
Implicit Types s : state D.

(** A client outside leaves a token to the others. *)
Lemma out_token_le (l : list client) : zsum (ConnPool.out_token <$> l) ≤ len l.
Proof.
  induction l as [|c l IH]; [done|]. csimpl. rewrite len_cons. destruct c; cbn; lia.
Qed.

Lemma token_left newConn s i :
  sys_ok (newConn <$> seq 0 poolSize) s → clients_of s !! i = Some Outside → 2 ≤ tokens (CommonPool s).
Proof.
  intros Hok Hi. destruct (so_pool _ _ Hok) as [Im _ It _ _ _]. cbn in Im, It.
  rewrite <-(take_drop_middle _ _ _ Hi), fmap_app, zsum_app in It. csimpl in It.
  pose proof (out_token_le (take i (clients_of s))). pose proof (out_token_le (drop (S i) (clients_of s))).
  assert (len (clients_of s) = 100) as Hl.
  { unfold len, clients_of. rewrite length_app, length_fmap, length_replicate.
    pose proof (so_length _ _ Hok). unfold users in *. lia. }
  rewrite <-(take_drop_middle _ _ _ Hi), len_app, len_cons in Hl.
  rewrite Im in It. unfold poolSize in It. vm_compute (len _) in It. lia.
Qed.

(** When [Wait] has returned, all goroutines have ended. *)
Lemma waited_ended cs s :
  sys_ok cs s → waited s = true → Forall (λ x : Z * phase, ∃ p, x.2 = Ended p ∧ over p = true) (goroutines s).
Proof.
  intros Hok Hw. destruct (so_waited _ _ Hok Hw) as (_ & Hz & _). apply Forall_lookup_2.
  intros i [u ph] Hi. pose proof (so_phase _ _ Hok) as Hf. apply (Forall_lookup_1 _ _ _ _ Hf) in Hi as Hph.
  pose proof (unfinished_positive s i u ph Hi) as Hu. rewrite <-(so_wg _ _ Hok), Hz in Hu.
  destruct ph; try (specialize (Hu eq_refl eq_refl); lia). by eexists.
Qed.

Lemma waited_pool newConn s :
  sys_ok (newConn <$> seq 0 poolSize) s → waited s = true →
  conns (CommonPool s) ≡ₚ newConn <$> seq 0 poolSize ∧ tokens (CommonPool s) = 101.
Proof.
  intros Hok Hw. pose proof (waited_ended _ _ Hok Hw) as He.
  destruct (so_waited _ _ Hok Hw) as (Hl & _ & _). destruct (so_pool _ _ Hok) as [Im Ip It _ _ _].
  assert (clients_of s = replicate users Outside) as Ec.
  { unfold clients_of. rewrite Hl, Nat.sub_diag. cbn [replicate]. rewrite app_nil_r, <-Hl. clear -He.
    induction He as [|x l (p & E & _) _ IH]; [done|]. csimpl. by rewrite E, IH. }
  cbn [ConnPool.pool pool_state ConnPool.clients] in *. rewrite Ec in It. unfold ConnPool.held in Ip.
  change (ConnPool.clients (pool_state s)) with (clients_of s) in Ip. rewrite Ec in Ip. split.
  - rewrite <-Ip. change (omap _ _) with (@nil conn). by rewrite (right_id_L [] (++)).
  - rewrite Im in It. vm_compute (zsum _) in It. vm_compute (len _) in It. lia.
Qed.

(** What a goroutine does next with the pool, it can do now. *)
Definition at_once s (ph : phase) : Prop :=
  match ph with
  | AtGet _ => receive (CommonPool s) ≠ None
  | Popping _ => ∃ c pool, pop (CommonPool s) = (Ok c, pool)
  | Sending _ => send (CommonPool s) ≠ None
  | _ => True
  end.

Lemma goroutine_at_once newConn s i u ph :
  sys_ok (newConn <$> seq 0 poolSize) s → goroutines s !! i = Some (u, ph) → at_once s ph.
Proof.
  intros Hok Hi. pose proof (client_lookup s i u ph Hi) as Hc. pose proof (so_pool _ _ Hok) as Hp.
  destruct ph as [p|p|c p|p|p|p]; cbn; try done.
  - pose proof (token_left newConn s i Hok Hc). unfold receive. by destruct (Z.ltb_spec 0 (tokens (CommonPool s))); [|lia].
  - destruct (ConnPool.pop_spec _ (ConnPool.get_pops _ _ _ Hp Hc)) as (l & c & _ & E). by eexists _, _.
  - pose proof (ConnPool.put_sends _ _ _ Hp Hc) as Hlt. cbn in Hlt. unfold send.
    by destruct (Z.ltb_spec (tokens (CommonPool s)) (maxConn (CommonPool s))); [|lia].
Qed.

(** Two goroutines that work have two connections. *)
Lemma own_connection cs s i j u u' c p p' :
  NoDup cs → sys_ok cs s → goroutines s !! i = Some (u, Working c p) →
  goroutines s !! j = Some (u', Working c p') → i = j.
Proof.
  intros Hnd Hok Hi%client_lookup Hj%client_lookup.
  pose proof (ConnPool.pi_perm _ _ (so_pool _ _ Hok)) as Hp. rewrite <-Hp in Hnd.
  apply NoDup_app in Hnd as (_ & _ & Hnd). unfold ConnPool.held in Hnd. revert i j Hi Hj Hnd.
  generalize (ConnPool.clients (pool_state s)) as l. clear.
  induction l as [|x l IH]; intros [|i] [|j] Hi Hj Hnd; try done; cbn in Hi, Hj.
  - injection Hi as ->. csimpl in Hnd. apply NoDup_cons in Hnd as [Hn _]. destruct Hn.
    apply list_elem_of_omap. exists (Holding c). split; [by eapply list_elem_of_lookup_2|done].
  - injection Hj as ->. csimpl in Hnd. apply NoDup_cons in Hnd as [Hn _]. destruct Hn.
    apply list_elem_of_omap. exists (Holding c). split; [by eapply list_elem_of_lookup_2|done].
  - f_equal. apply (IH i j Hi Hj). csimpl in Hnd. destruct (ConnPool.held_by x); [by apply NoDup_cons in Hnd as [_ ?]|done].
Qed.

Variable bookSeat : Z → prog.
Abbreviation step := (booking_step bookSeat).
Definition moves s : Prop := ∃ s', step s s' ∧ database s' = database s ∧ s' ≠ s.

Lemma phase_moves newConn s i u ph :
  sys_ok (newConn <$> seq 0 poolSize) s → alive s = true → goroutines s !! i = Some (u, ph) →
  unfinished ph = 1 → (∃ c p, ph = Working c p ∧ over p = false) ∨ moves s.
Proof.
  intros Hok Ha Hi Hu. pose proof (goroutine_at_once newConn s i u ph Hok Hi) as Hn.
  assert (∀ ph' pool w, ph' ≠ ph →
    mkState (database s) pool w (<[i := (u, ph')]> (goroutines s)) (waited s) ≠ s) as Hne.
  { intros ph' pool w Hp E. apply (f_equal (λ s, goroutines s !! i)) in E. cbn in E.
    rewrite Hi, list_lookup_insert_eq in E by (by eapply lookup_lt_Some). congruence. }
  destruct ph as [p|p|c p|p|p|p]; cbn in Hn.
  - right. destruct (receive (CommonPool s)) as [pool|] eqn:E; [|done].
    eexists. split; [by eapply get_receive|]. split; [done|by apply Hne].
  - right. destruct Hn as (c & pool & E). eexists. split; [by eapply get_pop|]. split; [done|by apply Hne].
  - destruct (over p) eqn:Eo; [right|left; by exists c, p].
    eexists. split; [by eapply put_push|]. split; [done|by apply Hne].
  - right. destruct (send (CommonPool s)) as [pool|] eqn:E; [|done].
    eexists. split; [by eapply put_send|]. split; [done|by apply Hne].
  - right. eexists. split; [by eapply wg_done|]. split; [done|by apply Hne].
  - done.
Qed.

Lemma system_moves newConn s :
  sys_ok (newConn <$> seq 0 poolSize) s → alive s = true →
  waited s = true ∨ (∃ i u c p, goroutines s !! i = Some (u, Working c p) ∧ over p = false) ∨ moves s.
Proof.
  intros Hok Ha. destruct (decide (length (goroutines s) < users)%nat) as [Hlt|Hge].
  { right; right. eexists. split; [by apply spawn|]. split; [done|]. intros E%(f_equal wg). cbn in E. lia. }
  assert (length (goroutines s) = users) as Hl by (pose proof (so_length _ _ Hok); lia).
  destruct (decide (Forall (λ x : Z * phase, unfinished x.2 = 0) (goroutines s))) as [Hf|Hn].
  - destruct (waited s) eqn:Ew; [by left|]. right; right. eexists. split; [apply wait; [done|done|]|].
    + rewrite (so_wg _ _ Hok). clear -Hf. induction Hf as [|x l Hx _ IH]; [done|]. csimpl. lia.
    + split; [done|]. intros E%(f_equal waited). cbn in E. congruence.
  - apply not_Forall_Exists in Hn; [|intros x; apply _]. apply Exists_exists in Hn as ([u ph] & Hin & Hu).
    apply list_elem_of_lookup in Hin as [i Hi]. assert (unfinished ph = 1) as Hu1 by (cbn in Hu; destruct ph; cbn in *; lia).
    destruct (phase_moves newConn s i u ph Hok Ha Hi Hu1) as [(c & p & -> & Ho)|Hm]; [|by auto].
    right; left. by exists i, u, c, p.
Qed.
End pool.

(** C16: The hundred goroutines and the pool of 101: however they are interleaved and whatever the
    database does, no goroutine ever waits in [Get] or [Put], no two work on the same
    connection, and the only thing that can hold [BookSeats] up is a call of the database that
    does not return.  When [wg.Wait] has returned, all goroutines have, and every connection
    is back in the pool. *)
Theorem bookings_never_wait `{SeatDatabase D} `{Direct D} newConn bookSeat d d' pool s :
  NoDup (newConn <$> seq 0 poolSize) →
  Init newConn d (d', Some pool) → rtc (booking_step bookSeat) (start d' pool) s →
  (∀ i u ph, goroutines s !! i = Some (u, ph) → at_once s ph) ∧
  (∀ i j u u' c p p', goroutines s !! i = Some (u, Working c p) →
     goroutines s !! j = Some (u', Working c p') → i = j) ∧
  (alive s = true → waited s = true ∨
     (∃ i u c p, goroutines s !! i = Some (u, Working c p) ∧ over p = false) ∨ moves bookSeat s) ∧
  (waited s = true →
     (∀ x, x ∈ goroutines s → ∃ told err, x.2 = Ended (Ret told err)) ∧
     conns (CommonPool s) ≡ₚ newConn <$> seq 0 poolSize ∧ tokens (CommonPool s) = 101).
Proof.
  intros Hnd Hi Hr. pose proof (start_ok newConn d d' pool Hi) as Hs0.
  destruct (reachable_refines bookSeat _ _ _ Hs0 Hr) as (Hok & _ & _). split; [|split; [|split]].
  - intros i u ph. by apply goroutine_at_once with newConn.
  - intros i j u u' c p p'. by eapply own_connection.
  - by apply system_moves with newConn.
  - intros Hw. split; [|by apply waited_pool]. intros x Hx.
    pose proof (waited_ended _ _ Hok Hw) as He. rewrite Forall_forall in He. destruct (He x Hx) as (p & E & Ho).
    destruct (so_waited _ _ Hok Hw) as (_ & _ & Ha). unfold alive in Ha. rewrite forallb_forall in Ha.
    apply list_elem_of_In in Hx. specialize (Ha x Hx). unfold crashed in Ha. rewrite E in Ha |- *.
    destruct p; try done. by eexists _, _.
Qed.

(** * main *)

(** The row a reset leaves. *)
Definition reset_row (versioned : bool) (c : seat) : seat :=
  mkSeat None (if versioned then 1 else version c).

(** What is documented of an UPDATE on its own: it is a transaction that is committed when it
    returns, and what begins later reads what it left.  The table of the laws is [seats_v2] with
    versions, [seats] without; the statement on the other table does not touch it. *)
Class DirectLaws (D : Type) (versioned : bool) `{SeatLaws D versioned} `{Direct D} := {
  reset_law d d' :
    txns (view d) = ∅ → direct
      (if versioned then "UPDATE seats_v2 SET user_id = NULL, version = 1" else "UPDATE seats SET user_id = NULL") d (inl ()) d' →
    txns (view d') = ∅ ∧ history (view d') = [committed (view d')] ∧
    committed (view d') = reset_row versioned <$> committed (view d);
  other_law d d' :
    direct
      (if versioned then "UPDATE seats SET user_id = NULL" else "UPDATE seats_v2 SET user_id = NULL, version = 1") d (inl ()) d' → view d' = view d;
}.

Section main.
Context `{DirectLaws D versioned}.
Implicit Types s : state D.

Lemma Init_untouched newConn d d' pool :
  txns (view d) = ∅ → Init newConn d (d', Some pool) →
  untouched (view d') ∧ committed (view d') = reset_row versioned <$> committed (view d).
Proof.
  intros Hq (pool0 & _ & Hr). inversion Hr as [? ? p1 c p2 d1 d2 p3 p4 _ _ E1 E2 _ _| |]; subst.
  unfold untouched. destruct versioned.
  - pose proof (other_law _ _ E1) as Ev. rewrite <-Ev in Hq |- *.
    by destruct (reset_law _ _ Hq E2) as (? & ? & ?).
  - rewrite (other_law _ _ E2). by destruct (reset_law _ _ Hq E1) as (? & ? & ?).
Qed.

(** The bookings that are safe on the table. *)
Definition safe_booking (b : Z → prog) : Prop :=
  if versioned then b = optimistic_bookSeat else b = update_bookSeat ∨ b = updateskip_bookSeat.

Lemma safe_wp b u d : safe_booking b → wp versioned u (b u) None d.
Proof.
  unfold safe_booking. destruct versioned; [intros ->; apply attempts_wp|].
  intros [->| ->]; apply bookSeat_wp; [by left|by right].
Qed.

(** What a goroutine has told, in the whole and in the bookings. *)
Lemma told_in_bookings b s i u ph p :
  goroutines s !! i = Some (u, ph) → prog_of ph = p → threads (bookings b s) !! i = Some (u, p).
Proof. intros Hi <-. apply (lookup_seen (prod_map id prog_of) _ _ _ _ Hi). Qed.

(** C8: [main], from [db.Init] on: whatever the table held before, after [Init] every seat is free;
    and then, however the hundred goroutines are interleaved and whatever the server and the
    pool do, a seat that a goroutine reported to its user is that user's in the table, and no
    seat is reported twice. *)
Theorem main_books newConn b d d' pool s :
  safe_booking b → txns (view d) = ∅ →
  Init newConn d (d', Some pool) → rtc (booking_step b) (start d' pool) s →
  committed (view d') = reset_row versioned <$> committed (view d) ∧
  (∀ i u ph id err, goroutines s !! i = Some (u, ph) → prog_of ph = Ret (Some id) err →
     ∃ c, committed (view (database s)) !! id = Some c ∧ owner c = Some u) ∧
  (∀ i j u u' ph ph' id err err', goroutines s !! i = Some (u, ph) → prog_of ph = Ret (Some id) err →
     goroutines s !! j = Some (u', ph') → prog_of ph' = Ret (Some id) err' → i = j).
Proof.
  intros Hb Hq Hi Hr. destruct (Init_untouched newConn d d' pool Hq Hi) as [Hu Hc]. split; [done|].
  destruct (reachable_refines b _ _ _ (start_ok newConn d d' pool Hi) Hr) as (_ & _ & n & Hn).
  destruct (bookings_exclusive b n (bookings b (start d' pool)) (bookings b s)) as [Ho Hone];
    [by intros; apply safe_wp|done|done|done|]. split.
  - intros i u ph id err Hg Hp. eapply Ho. by eapply told_in_bookings.
  - intros i j u u' ph ph' id err err' Hg Hp Hg' Hp'.
    eapply Hone; by eapply told_in_bookings.
Qed.
End main.

(** * Runs *)

(** The statements at once, on the server of [SeatServer]. *)
#[export] Instance server_direct (versioned : bool) : Direct server := λ sql s r s',
  r = inl () ∧
  s' = if decide (sql = if versioned then "UPDATE seats_v2 SET user_id = NULL, version = 1"
                       else "UPDATE seats SET user_id = NULL")
       then mkServer (start_db (reset_row versioned <$> committed (data s))) (commits s) else s.

#[export] Instance server_direct_laws (versioned : bool) :
  DirectLaws (H := server_database versioned) (H0 := server_laws versioned) (H1 := server_direct versioned)
    server versioned.
Proof.
  refine {| reset_law := _; other_law := _ |}.
  - intros d d' _ [_ ->]. by rewrite decide_True.
  - intros d d' [_ ->]. rewrite decide_False; [done|]. by destruct versioned.
Defined.

Inductive action := Spawn | Turn (i : nat) | Wait.

Section actions.
Context (versioned : bool) (b : Z → prog).
Abbreviation step := (booking_step (H := server_database versioned) b).

Definition turn (s : state server) (i : nat) (u : Z) (ph : phase) : option (state server) :=
  match ph with
  | AtGet p => pool ← receive (CommonPool s); Some (moved s i u (Popping p) pool)
  | Popping p =>
      match pop (CommonPool s) with
      | (Ok c, pool) => Some (moved s i u (Working c p) pool)
      | _ => None
      end
  | Working c p =>
      if over p then
        match push c (CommonPool s) with
        | (Ok _, pool) => Some (moved s i u (Sending p) pool)
        | _ => None
        end
      else
        '(d, p') ← advance versioned p (database s);
        Some (mkState d (CommonPool s) (wg s) (<[i := (u, Working c p')]> (goroutines s)) (waited s))
  | Sending p => pool ← send (CommonPool s); Some (moved s i u (Leaving p) pool)
  | Leaving p =>
      Some (mkState (database s) (CommonPool s) (wg s - 1) (<[i := (u, Ended p)]> (goroutines s)) (waited s))
  | Ended _ => None
  end.

Definition act (s : state server) (a : action) : option (state server) :=
  if alive s then
    match a with
    | Spawn =>
        if decide (length (goroutines s) < users)%nat then
          let i := 1 + len (goroutines s) in
          Some (mkState (database s) (CommonPool s) (wg s + 1) (goroutines s ++ [(i, AtGet (b i))]) (waited s))
        else None
    | Turn i => '(u, ph) ← goroutines s !! i; turn s i u ph
    | Wait =>
        if decide (length (goroutines s) = users ∧ wg s = 0)
        then Some (mkState (database s) (CommonPool s) (wg s) (goroutines s) true) else None
    end
  else None.

Lemma turn_step s i u ph s' :
  alive s = true → goroutines s !! i = Some (u, ph) → turn s i u ph = Some s' → step s s'.
Proof.
  intros Ha Hi. destruct ph as [p|p|c p|p|p|p]; cbn [turn].
  - intros (pool & E & [= <-])%bind_Some. by eapply get_receive.
  - destruct (pop _) as [[c| | |] pool] eqn:E; try done. intros [= <-]. by eapply get_pop.
  - destruct (over p) eqn:Eo.
    + destruct (push c _) as [[[]| | |] pool] eqn:E; try done. intros [= <-]. by eapply put_push.
    + intros ([d p'] & E%advance_step & [= <-])%bind_Some. by eapply call.
  - intros (pool & E & [= <-])%bind_Some. by eapply put_send.
  - intros [= <-]. by eapply wg_done.
  - done.
Qed.

Lemma act_step s a s' : act s a = Some s' → step s s'.
Proof.
  unfold act. destruct (alive s) eqn:Ha; [|done]. destruct a as [|i|].
  - destruct (decide _); [|done]. intros [= <-]. by apply spawn.
  - intros ([u ph] & Hi & E)%bind_Some. by eapply turn_step.
  - destruct (decide _) as [[? ?]|]; [|done]. intros [= <-]. by apply wait.
Qed.

(** Actions that are not possible are passed over. *)
Definition play (l : list action) (s : state server) : state server :=
  fold_left (λ s a, default s (act s a)) l s.

Lemma play_steps l s : rtc step s (play l s).
Proof.
  revert s. induction l as [|a l IH]; intros s; [done|]. cbn. destruct (act s a) as [s'|] eqn:E; cbn.
  - eapply rtc_l; [by eapply act_step|apply IH].
  - apply IH.
Qed.
End actions.

(** [Init] on a table with both seats taken. *)
Definition taken_seats : seats := <[1 := mkSeat (Some 7) 4]> (<[2 := mkSeat (Some 8) 9]> ∅).
Definition old_server : server := mkServer (start_db taken_seats) [].
Definition full_pool : cpool := ConnPool.mkPool 101 (seq 0 101) 101.
Definition reset_server (versioned : bool) : server :=
  mkServer (start_db (reset_row versioned <$> taken_seats)) [].

Lemma demo_Init versioned :
  Init (H := server_direct versioned) (λ i, i) old_server (reset_server versioned, Some full_pool).
Proof.
  exists full_pool. split; [vm_compute; reflexivity|].
  apply (reset_all _ _ (ConnPool.mkPool 100 (seq 0 101) 101) 100%nat (ConnPool.mkPool 100 (seq 0 100) 101)
    (if versioned then old_server else reset_server false) _ (ConnPool.mkPool 100 (seq 0 101) 101));
    try (vm_compute; reflexivity); destruct versioned; (split; [done|]); vm_compute; reflexivity.
Qed.

(** The first two goroutines are started and run, the second one from the middle of the first. *)
Definition two_turns : list action :=
  [Spawn; Turn 0; Turn 0; Spawn; Turn 0; Turn 1; Turn 1; Turn 0; Turn 1; Turn 1; Turn 0; Turn 1] ++
  repeat (Turn 0) 4 ++ repeat (Turn 1) 8.
Definition two_played : state server :=
  play true optimistic_bookSeat two_turns (start (reset_server true) full_pool).

Definition told (s : state server) (i : nat) : option (option Z) :=
  x ← goroutines s !! i;
  match prog_of x.2 with Ret t _ => Some t | _ => None end.

Lemma told_ret s i t : told s i = Some t → ∃ u ph err, goroutines s !! i = Some (u, ph) ∧ prog_of ph = Ret t err.
Proof.
  unfold told. intros ([u ph] & Hi & Hp)%bind_Some. cbn in Hp.
  destruct (prog_of ph) eqn:E; try done. injection Hp as ->. by eexists _, _, _.
Qed.

Lemma main_books_witness :
  told two_played 0 = Some (Some 2) ∧ told two_played 1 = Some (Some 1) ∧
  ∃ u ph c, goroutines two_played !! 1%nat = Some (u, ph) ∧
    committed (data (database two_played)) !! 1 = Some c ∧ owner c = Some u.
Proof.
  assert (told two_played 0 = Some (Some 2) ∧ told two_played 1 = Some (Some 1)) as [Ht0 Ht]
    by (split; vm_compute; reflexivity).
  assert (rtc (booking_step (H := server_database true) optimistic_bookSeat) (start (reset_server true) full_pool) two_played)
    as Hr by exact (play_steps true optimistic_bookSeat two_turns _).
  revert Ht0 Ht Hr. generalize two_played as s. intros s Ht0 Ht Hr.
  split; [exact Ht0|]. split; [exact Ht|]. destruct (told_ret _ _ _ Ht) as (u & ph & err & Hi & Hp).
  destruct (main_books (H := server_database true) (H0 := server_laws true) (H2 := server_direct_laws true)
    (λ i, i) optimistic_bookSeat old_server (reset_server true) full_pool s) as (_ & Ho & _);
    [done|done|apply demo_Init|exact Hr|].
  destruct (Ho _ _ _ _ _ Hi Hp) as (c & Hc & Hu). exists u, ph, c. exact (conj Hi (conj Hc Hu)).
Defined.

(** All hundred, one after another, with locks. *)
Definition all_turns : list action :=
  flat_map (λ i, Spawn :: repeat (Turn i) 12) (seq 0 100) ++ [Wait].
Definition all_played : state server :=
  play false update_bookSeat all_turns (start (reset_server false) full_pool).

Lemma bookings_never_wait_witness :
  waited all_played = true ∧ tokens (CommonPool all_played) = 101 ∧ told all_played 99 = Some None ∧
  ∀ x, x ∈ goroutines all_played → ∃ told err, x.2 = Ended (Ret told err).
Proof.
  assert (waited all_played = true ∧ told all_played 99 = Some None) as [Hw Ht] by (split; vm_compute; reflexivity).
  assert (rtc (booking_step (H := server_database false) update_bookSeat) (start (reset_server false) full_pool) all_played)
    as Hr by exact (play_steps false update_bookSeat all_turns _).
  revert Hw Ht Hr. generalize all_played as s. intros s Hw Ht Hr.
  destruct (bookings_never_wait (H := server_database false) (H0 := server_direct false) (λ i, i) update_bookSeat
    old_server (reset_server false) full_pool s) as (_ & _ & _ & He);
    [apply (bool_decide_unpack _); vm_compute; exact I|apply demo_Init|exact Hr|].
  destruct (He Hw) as (Ha & _ & Htok). split_and!; [exact Hw|exact Htok|exact Ht|exact Ha].
Defined.
End BookingSystem.
