(* ===== verification/Sse.v ===== *)
(** [communication-mechanisms/server-sent-events/main.go]: a goroutine appends lines to a
    file, and every client of the event stream polls the file and is sent the lines that
    are new: the handlers and what each of them does to the files.  [SseSite] interleaves
    them. *)

From Stdlib Require Import ZArith Lia Ascii String.
From stdpp Require Import gmap strings list list_numbers fin_maps relations.
From S2P Require Import Prelude GoLib GoFS GoHttp.
Import Http(Conn, new_conn, through, Error, SeeOther, set_header).

Module Sse.

(** * bufio.Scanner, by lines *)

Definition newline : byte := Byte.x0a.
Definition carriage_return : byte := Byte.x0d.

(** [bufio.MaxScanTokenSize]: a line this long, or longer, ends the scan. *)
Definition MaxScanTokenSize : Z := 65536.

(** A line without its end, given in reverse: a final "\r" goes, too. *)
Definition token (rev_line : bytes) : string :=
  string_of (reverse (match rev_line with
                      | c :: l => if decide (c = carriage_return) then l else rev_line
                      | [] => []
                      end)).

(** What [scanner.Scan] and [scanner.Text] deliver of these bytes; [cur] is the line so far,
    in reverse. *)
Fixpoint scan_from (cur : bytes) (data : bytes) : list string :=
  match data with
  | [] => if decide (cur = []) then [] else if len cur <? MaxScanTokenSize then [token cur] else []
  | c :: data =>
      if decide (c = newline)
      then if len cur <? MaxScanTokenSize then token cur :: scan_from [] data else []
      else scan_from (c :: cur) data
  end.
Definition scan_lines (data : bytes) : list string := scan_from [] data.

(** The lines of a file.  A read that fails ends the data, its error is not looked at; a
    scan that overlaps with writers sees the file of its last read. *)
Definition scan_file (h : File) : M World (list string) :=
  let! (_, f) := resolve h in
  let! fault := syscall in
  let! w := get_st in
  let data := drop (Z.to_nat (fd_pos f)) (content w (fd_ino f)) in
  ret (scan_lines (match fault with None => data | Some k => take k data end)).

(** * The producer *)

Definition file_path (id : string) : string := "deployments/" +:+ id +:+ ".txt".

Definition appendMessage (msg fileName : string) : M World unit :=
  let! f := attempt (OpenFile (file_path fileName) (mkFlags false true false)) in
  match f with
  | inr _ => ret ()
  | inl f => defer (ignore (Close f)) (ignore (Write f (bytes_of msg)))
  end.

(** The handler works on the files and on its response. *)
Definition on_files {A} (m : M World A) : M (World * Conn) A := zoom fst (λ w s, (w, s.2)) m.
Definition on_reply {A} (m : M Conn A) : M (World * Conn) A := zoom snd (λ c s, (s.1, c)) m.

(** Whether the goroutine was started; [uuid] is what [NewUUID] gave. *)
Definition startDeployment (uuid : string) : M (World * Conn) bool :=
  let! f := attempt (on_files (Create (file_path uuid))) in
  match f with
  | inr _ => do! on_reply (Error "Unable to start deployment" 500) in ret false
  | inl f =>
      defer (on_files (ignore (Close f)))
        (do! on_files (ignore (Write f (bytes_of ("Deployment started..." +:+ String "010"%char "")))) in
         do! on_reply (SeeOther ("/deployment/" +:+ uuid)) in
         ret true)
  end.

(** The lines the goroutine appends; [random i] is the number drawn in step [i]. *)
Definition messages (random : Z → Z) : list string :=
  ((λ i, "Step " +:+ itoa i +:+ " completed: " +:+ itoa (random i) +:+ String "010"%char "") <$> seqZ 1 1000)
    ++ ["Deployment finished!" +:+ String "010"%char ""].

(** * A client of the stream *)

Definition event (line : string) : string :=
  "data: " +:+ line +:+ String "010"%char (String "010"%char "").

(** The start of [sseHandler]; [false]: it has returned. *)
Definition sse_open (deploymentId : string) : M Conn bool :=
  if String.eqb deploymentId "" then do! Error "Deployment ID is required" 400 in ret false
  else do! through (set_header "Content-Type" "text/event-stream") in ret true.

(** The loop over the new lines.  What is written is flushed at once; an error of the write
    is not looked at. *)
Fixpoint send_lines (lines : list string) : M Conn unit :=
  match lines with
  | [] => ret ()
  | line :: lines => do! through (Http.Write (bytes_of (event line))) in send_lines lines
  end.

(** [lastLine], and the response. *)
Record client := mkClient { lastLine : nat; response : Conn }.

(** One round of the loop of [sseHandler]. *)
Definition poll (deploymentId : string) (c : client) : M World client :=
  let! file := attempt (OpenFile (file_path deploymentId) (mkFlags false false false)) in
  match file with
  | inr _ => ret c
  | inl file =>
      let! lines := scan_file file in
      do! ignore (Close file) in
      let new := drop (lastLine c) lines in
      ret (mkClient (lastLine c + length new) (send_lines new (response c)).2)
  end.

(** * Lines *)

(** A line that comes through the scanner as it is. *)
Definition plain (l : string) : Prop :=
  Forall (λ c, c ≠ newline ∧ c ≠ carriage_return) (bytes_of l) ∧ len (bytes_of l) < MaxScanTokenSize.
Definition line_of (l : string) : string := l +:+ String "010"%char "".

Lemma bytes_of_app s t : bytes_of (s +:+ t) = bytes_of s ++ bytes_of t.
Proof.
  unfold bytes_of, String.list_byte_of_string. induction s as [|c s IH]; [done|]. simpl. by rewrite IH.
Qed.

Lemma token_plain l : Forall (λ c, c ≠ newline ∧ c ≠ carriage_return) l → token (reverse l) = string_of l.
Proof.
  intros Hl. unfold token. rewrite <-(reverse_involutive l) at 2. f_equal.
  destruct (reverse l) as [|c r] eqn:E; [done|]. rewrite decide_False; [done|]. intros ->.
  assert (carriage_return ∈ l) as Hin by (apply elem_of_reverse; rewrite E; by left).
  rewrite Forall_forall in Hl. by destruct (Hl _ Hin).
Qed.

Lemma scan_from_plain cur l data :
  Forall (λ c, c ≠ newline ∧ c ≠ carriage_return) l →
  scan_from cur (l ++ data) = scan_from (reverse l ++ cur) data.
Proof.
  intros Hl. revert cur. induction Hl as [|c l [Hc _] _ IH]; intros cur; [done|]. cbn [app scan_from].
  rewrite decide_False by done. rewrite IH, reverse_cons, <-(assoc_L (++)). done.
Qed.

Lemma len_reverse {A} (l : list A) : len (reverse l) = len l.
Proof. unfold len. by rewrite length_reverse. Qed.

(** A line and its end. *)
Lemma scan_line l data : plain l → scan_lines (bytes_of (line_of l) ++ data) = l :: scan_lines data.
Proof.
  intros [Hl Hlen]. unfold scan_lines, line_of. rewrite bytes_of_app, <-(assoc_L (++)).
  rewrite scan_from_plain by done. rewrite (right_id_L [] (++)). cbn [app scan_from bytes_of].
  change (bytes_of (String "010"%char "") ++ data) with (newline :: data). cbn [scan_from].
  rewrite decide_True by done. rewrite len_reverse.
  destruct (Z.ltb_spec (len (bytes_of l)) MaxScanTokenSize); [|lia].
  by rewrite token_plain, string_of_bytes_of.
Qed.

Lemma scan_plain ls : Forall plain ls → scan_lines (concat ((λ l, bytes_of (line_of l)) <$> ls)) = ls.
Proof.
  induction 1 as [|l ls Hl _ IH]; [done|]. csimpl. by rewrite scan_line, IH.
Qed.

(** * The files *)

(** A message goes to the end of the deployment's file, if there is one. *)
Lemma append_nf msg id w :
  calm w → ∃ w', appendMessage msg id w = (Ok (), w') ∧ calm w' ∧
    ∀ p, file_at w' p =
      if decide (p = file_path id) then (λ b, b ++ bytes_of msg) <$> file_at w p else file_at w p.
Proof.
  intros Hc. pose proof Hc as [F W]. unfold appendMessage.
  destruct (w_dir w !! file_path id) as [i|] eqn:Ed.
  - rewrite (bind_ok _ _ _ _ _ (attempt_ok _ _ _ _ (OpenFile_existing w _ i false true F Ed))).
    cbv beta iota. destruct (Write_Close (with_fd i true w) (w_next w) i true 0 (file_path id) (bytes_of msg))
      as (w2 & w3 & E2 & E3 & C3 & H3); [by apply calm_with_fd|apply lookup_insert_eq|done|].
    exists w3. split; [|split; [exact C3|]].
    + unfold defer. rewrite (ignore_ok _ _ _ _ E2). by rewrite (ignore_ok _ _ _ _ E3).
    + intros p. rewrite H3. case_decide as Hp; [|done]. subst p.
      unfold file_at. rewrite Ed. cbn. by rewrite write_bytes_end.
  - exists w. split; [|split; [done|]].
    + unfold OpenFile, bind, attempt. rewrite guarded_nf by done. by rewrite Ed.
    + intros p. case_decide as Hp; [|done]. subst p. unfold file_at. by rewrite Ed.
Qed.

Lemma scan_file_nf w n i b :
  w_faults w = [] → w_fd w !! n = Some (mkFd i false 0 true) → content w i = b →
  scan_file (Some n) w = (Ok (scan_lines b), w).
Proof.
  intros F Hn Hb. unfold scan_file. rewrite (bind_ok _ _ _ _ _ (resolve_fd w n _ Hn eq_refl)).
  cbv beta iota. rewrite (bind_ok _ _ _ _ _ (syscall_nf w F)).
  rewrite (bind_ok get_st _ _ _ _ eq_refl). cbn [fd_pos fd_ino]. by rewrite drop_0, Hb.
Qed.

(** What one poll sends: the lines from [lastLine] on; without a file, nothing. *)
Lemma poll_nf id c w :
  calm w → ∃ w', poll id c w =
    (Ok match file_at w (file_path id) with
        | None => c
        | Some b => let new := drop (lastLine c) (scan_lines b) in
                    mkClient (lastLine c + length new) (send_lines new (response c)).2
        end, w') ∧ calm w' ∧ ∀ p, file_at w' p = file_at w p.
Proof.
  intros Hc. pose proof Hc as [F W]. unfold poll, file_at at 1.
  destruct (w_dir w !! file_path id) as [i|] eqn:Ed; cbn [fmap option_fmap option_map].
  - rewrite (bind_ok _ _ _ _ _ (attempt_ok _ _ _ _ (OpenFile_existing w _ i false false F Ed))).
    cbv beta iota. set (w1 := with_fd i false w). set (n := w_next w).
    assert (w_fd w1 !! n = Some (mkFd i false 0 true)) as Hn by apply lookup_insert_eq.
    rewrite (bind_ok _ _ _ _ _ (scan_file_nf w1 n i (content w i) F Hn eq_refl)).
    rewrite (bind_ok _ _ _ _ _ (ignore_ok _ _ _ _ (Close_fd w1 F n _ Hn eq_refl))).
    eexists. split; [reflexivity|]. split; [|done].
    split; [done|]. apply wf_set_fd; [cbn; lia|by apply wf_with_fd].
  - exists w. split; [|done]. unfold OpenFile, bind, attempt. rewrite guarded_nf by done. by rewrite Ed.
Qed.

(** The start of a deployment empties its file and writes the first line. *)
Lemma start_nf uuid w c :
  calm w → ∃ w', startDeployment uuid (w, c) =
    (Ok true, (w', (SeeOther ("/deployment/" +:+ uuid) c).2)) ∧ calm w' ∧
    ∀ p, file_at w' p =
      if decide (p = file_path uuid) then Some (bytes_of (line_of "Deployment started...")) else file_at w p.
Proof.
  intros Hc. pose proof Hc as [F W]. unfold startDeployment.
  rewrite (bind_ok _ _ _ (inl (Some (w_next w))) (emptied (file_path uuid) w, c)).
  2: { unfold attempt, on_files, zoom, Create. cbn [fst snd]. by rewrite (OpenFile_trunc w _ F). }
  set (w1 := emptied (file_path uuid) w). set (i := default (w_next w) (w_dir w !! file_path uuid)).
  destruct (Write_Close w1 (w_next w) i false 0 (file_path uuid) (bytes_of (line_of "Deployment started...")))
    as (w2 & w3 & E2 & E3 & C3 & H3); [by apply calm_emptied|apply emptied_fd|apply lookup_insert_eq|].
  exists w3. split; [|split; [exact C3|]].
  - unfold defer. rewrite (bind_ok _ _ _ () (w2, c)).
    2: { unfold on_files, zoom. cbn [fst snd]. change ("Deployment started..." +:+ _) with (line_of "Deployment started...").
         by rewrite (ignore_ok _ _ _ _ E2). }
    assert (∃ c', SeeOther ("/deployment/" +:+ uuid) c = (Ok (), c')) as [c' Ec].
    { unfold SeeOther, through, set_header, Http.WriteHeader, bind, modify, get_st.
      destruct c as [[[?|] ? ?] ?]; by eexists. }
    rewrite (bind_ok _ _ _ () (w2, c')) by (unfold on_reply, zoom; cbn [fst snd]; by rewrite Ec).
    rewrite Ec. unfold ret, on_files, zoom. cbn [fst snd]. by rewrite (ignore_ok _ _ _ _ E3).
  - intros p. rewrite H3. case_decide as Hp.
    + assert (content w1 i = []) as -> by (unfold content, w1, emptied; cbn; by rewrite lookup_insert_eq).
      by rewrite write_whole.
    + unfold w1. rewrite file_at_emptied by done. by rewrite decide_False.
Qed.

(** * The lines of a deployment *)

Definition step_line (random : Z → Z) (i : Z) : string :=
  "Step " +:+ itoa i +:+ " completed: " +:+ itoa (random i).
Definition deployment_lines (random : Z → Z) : list string :=
  (step_line random <$> seqZ 1 1000) ++ ["Deployment finished!"%string].

Lemma messages_lines random : messages random = line_of <$> deployment_lines random.
Proof. unfold messages, deployment_lines. rewrite fmap_app. by f_equal. Qed.

(** The texts of the numbers the messages hold. *)
Lemma number_plain n :
  0 ≤ n ≤ 1000 →
  Forall (λ c, c ≠ newline ∧ c ≠ carriage_return) (bytes_of (itoa n)) ∧ len (bytes_of (itoa n)) ≤ 4.
Proof.
  intros Hn. assert (forallb (λ n, bool_decide (Forall (λ c, c ≠ newline ∧ c ≠ carriage_return) (bytes_of (itoa n)))
    && (len (bytes_of (itoa n)) <=? 4)) (seqZ 0 1001) = true) as Hall by (vm_compute; reflexivity).
  rewrite forallb_forall in Hall. specialize (Hall n). rewrite <-list_elem_of_In, elem_of_seqZ in Hall.
  specialize (Hall ltac:(lia)). apply andb_prop in Hall as [?%bool_decide_eq_true ?]. split; [done|lia].
Qed.

Lemma deployment_plain random :
  (∀ i, 0 ≤ random i < 1000) → Forall plain (deployment_lines random).
Proof.
  intros Hr. apply Forall_app. split.
  - apply Forall_fmap, Forall_forall. intros i Hi%elem_of_seqZ. unfold compose, step_line, plain.
    destruct (number_plain i) as [Hp Hl]; [lia|]. specialize (Hr i).
    destruct (number_plain (random i)) as [Hp' Hl']; [lia|].
    rewrite !bytes_of_app, !len_app, !Forall_app. unfold MaxScanTokenSize. split; [split_and!; try done|].
    + apply (bool_decide_unpack _). vm_compute. exact I.
    + apply (bool_decide_unpack _). vm_compute. exact I.
    + change (len (bytes_of "Step ")) with 5. change (len (bytes_of " completed: ")) with 12. lia.
  - constructor; [|done]. split; [apply (bool_decide_unpack _)|]; vm_compute; done.
Qed.


End Sse.
