(* ===== verification/SseSite.v ===== *)
(** The event-stream server as a whole: deployments that are started and append to their
    files, and clients of their streams, interleaved; against what an [EventSource] of a
    browser makes of the bytes a client is sent. *)

From Stdlib Require Import ZArith Lia Ascii String.
From stdpp Require Import gmap strings list list_numbers fin_maps relations.
From S2P Require Import Prelude GoLib GoFS GoHttp Sse.
Import Http.

Module SseSite.
Import Sse(carriage_return, file_path, appendMessage, startDeployment, messages, event,
  sse_open, send_lines, client, mkClient, lastLine, response, poll, plain, line_of, deployment_lines).

(** * The steps of the site *)

(** [deployments]: how many messages each started deployment has appended. *)
Record site := mkSite {
  world : World;
  deployments : gmap string nat;
  clients : list (string * client);
}.

Section site.
(** What [rand.Intn(1000)] gives in each step of each deployment. *)
Context (random : string → Z → Z).

(** A uuid is given once.  The goroutine of a deployment sleeps between two messages, a
    client's one between two polls. *)
Inductive sse_step : site → site → Prop :=
  | start_step s id started w' c' :
      deployments s !! id = None →
      startDeployment id (world s, new_conn) = (Ok started, (w', c')) →
      sse_step s (mkSite w' (if started then <[id := 0%nat]> (deployments s) else deployments s) (clients s))
  | append_step s id n msg w' :
      deployments s !! id = Some n → messages (random id) !! n = Some msg →
      appendMessage msg id (world s) = (Ok (), w') →
      sse_step s (mkSite w' (<[id := S n]> (deployments s)) (clients s))
  | connect_step s id c' :
      sse_open id new_conn = (Ok true, c') →
      sse_step s (mkSite (world s) (deployments s) (clients s ++ [(id, mkClient 0 c')]))
  | poll_step s k id c c' w' :
      clients s !! k = Some (id, c) → poll id c (world s) = (Ok c', w') →
      sse_step s (mkSite w' (deployments s) (<[k := (id, c')]> (clients s))).

(** The lines of a deployment after [n] messages, and of one as it stands. *)
Definition so_far (id : string) (n : nat) : list string :=
  take (S n) ("Deployment started..."%string :: deployment_lines (random id)).
Definition lines_now (ds : gmap string nat) (id : string) : list string :=
  match ds !! id with Some n => so_far id n | None => [] end.
End site.

(** * The other end: what an EventSource reads *)

(** The lines of a stream, each ended by LF, CR or both; the last one, without an end, is
    not there yet. *)
Fixpoint stream_lines (cur data : bytes) : list bytes :=
  match data with
  | [] => []
  | c :: data =>
      if decide (c = Byte.x0a) then reverse cur :: stream_lines [] data
      else if decide (c = carriage_return)
      then reverse cur :: match data with
                          | d :: rest => if decide (d = Byte.x0a) then stream_lines [] rest else stream_lines [] data
                          | [] => []
                          end
      else stream_lines (c :: cur) data
  end.

(** The value of a line of field [data], less one space after the colon. *)
Definition data_field (l : bytes) : option bytes :=
  if decide (take 4 l = bytes_of "data")
  then match drop 4 l with
       | [] => Some []
       | c :: v => if decide (c = Byte.x3a)
                   then Some (match v with d :: v' => if decide (d = Byte.x20) then v' else v | [] => [] end)
                   else None
       end
  else None.

(** The lines of data of one event. *)
Fixpoint join_lines (ls : list bytes) : bytes :=
  match ls with [] => [] | [l] => l | l :: ls => l ++ Byte.x0a :: join_lines ls end.

(** A line of data is kept, an empty line dispatches the event, other fields are nothing. *)
Fixpoint dispatch (buf : list bytes) (ls : list bytes) : list string :=
  match ls with
  | [] => []
  | [] :: ls => match buf with
                | [] => dispatch [] ls
                | _ => string_of (join_lines (reverse buf)) :: dispatch [] ls
                end
  | l :: ls => dispatch (match data_field l with Some v => v :: buf | None => buf end) ls
  end.

(** The messages of a stream (one without a byte order mark). *)
Definition parse_events (data : bytes) : list string := dispatch [] (stream_lines [] data).

Lemma stream_line l data :
  Forall (λ c, c ≠ Sse.newline ∧ c ≠ carriage_return) l → ∀ cur,
  stream_lines cur (l ++ Byte.x0a :: data) = (reverse cur ++ l) :: stream_lines [] data.
Proof.
  induction 1 as [|c l [Hn Hr] _ IH]; intros cur; cbn [app stream_lines].
  - by rewrite decide_True, (right_id_L [] (++)).
  - rewrite !decide_False by done. by rewrite IH, reverse_cons, <-(assoc_L (++)).
Qed.

(** An event comes through as its line. *)
Lemma parse_event l data : plain l → parse_events (bytes_of (event l) ++ data) = l :: parse_events data.
Proof.
  intros [Hl _]. unfold parse_events, event. rewrite !Sse.bytes_of_app, <-!(assoc_L (++)).
  change (bytes_of (String "010" (String "010" "")) ++ data) with (Byte.x0a :: Byte.x0a :: data).
  rewrite (assoc_L (++)). rewrite stream_line.
  2: { apply Forall_app. split; [|done]. apply (bool_decide_unpack _). vm_compute. exact I. }
  change (stream_lines [] (Byte.x0a :: data)) with ([] :: stream_lines [] data).
  change (string_of (bytes_of l) :: dispatch [] (stream_lines [] data) = l :: dispatch [] (stream_lines [] data)).
  by rewrite string_of_bytes_of.
Qed.

Definition events (ls : list string) : bytes := concat ((λ l, bytes_of (event l)) <$> ls).

Lemma parse_events_events ls : Forall plain ls → parse_events (events ls) = ls.
Proof.
  induction 1 as [|l ls Hl _ IH]; [done|]. change (events (l :: ls)) with (bytes_of (event l) ++ events ls).
  by rewrite parse_event, IH.
Qed.

(** * A response *)

Definition stream_header : Header := {["Content-Type" := ["text/event-stream"]]}.
(** The response after these lines. *)
Definition streamed (ls : list string) : Conn :=
  match ls with
  | [] => mkConn (mkWriter None stream_header []) None
  | _ => mkConn (mkWriter (Some 200) stream_header (events ls)) (Some stream_header)
  end.

Lemma sse_open_streamed id b c' : sse_open id new_conn = (Ok b, c') → b = true → c' = streamed [].
Proof. unfold sse_open. intros E ->. destruct (String.eqb id ""); inversion E; reflexivity. Qed.

Lemma send_streamed new ls : (send_lines new (streamed ls)).2 = streamed (ls ++ new).
Proof.
  revert ls. induction new as [|l new IH]; intros ls; cbn [send_lines]; [by rewrite (right_id_L [] (++))|].
  rewrite cons_middle, (assoc_L (++)). rewrite <-IH. f_equal. unfold bind.
  assert (through (Http.Write (bytes_of (event l))) (streamed ls) = (Ok (), streamed (ls ++ [l]))) as ->; [|done].
  destruct ls as [|l0 ls].
  - unfold streamed, events. cbn [app fmap list_fmap concat]. by rewrite (right_id_L [] (++)).
  - change (streamed ((l0 :: ls) ++ [l])) with (mkConn (mkWriter (Some 200) stream_header (events ((l0 :: ls) ++ [l])))
      (Some stream_header)).
    unfold events at 1. rewrite fmap_app, concat_app. cbn [fmap list_fmap concat]. by rewrite (right_id_L [] (++)).
Qed.

Lemma parse_streamed ls : Forall plain ls → parse_events (wBody (cWriter (streamed ls))) = ls.
Proof. intros Hp. destruct ls as [|l ls]; [done|]. by apply (parse_events_events (l :: ls)). Qed.

(** The status, and the header, go out with the first event. *)
Lemma streamed_status ls :
  if decide (wBody (cWriter (streamed ls)) = []) then wStatus (cWriter (streamed ls)) = None
  else wStatus (cWriter (streamed ls)) = Some 200 ∧ cSent (streamed ls) = Some stream_header.
Proof. by destruct ls. Qed.

(** * The invariant *)

Lemma file_path_inj id id' : file_path id = file_path id' → id = id'.
Proof.
  unfold file_path. intros E. simplify_eq/=. by apply str_app_inj_tail in E as [? _].
Qed.

Definition lines_bytes (ls : list string) : bytes := concat ((λ l, bytes_of (line_of l)) <$> ls).

Section stream.
Context (random : string → Z → Z) (Hrandom : ∀ id i, 0 ≤ random id i < 1000).

Lemma so_far_plain id n : Forall plain (so_far random id n).
Proof.
  apply Forall_take. constructor; [|by apply Sse.deployment_plain].
  split; [apply (bool_decide_unpack _)|]; vm_compute; done.
Qed.

Lemma lines_now_plain ds id : Forall plain (lines_now random ds id).
Proof. unfold lines_now. destruct (ds !! id); [apply so_far_plain|done]. Qed.

Lemma so_far_S id n l :
  deployment_lines (random id) !! n = Some l → so_far random id (S n) = so_far random id n ++ [l].
Proof. intros Hl. unfold so_far. by apply (take_S_r _ (S n)). Qed.

(** One client: it is as far as [lastLine] says. *)
Definition on_track (ds : gmap string nat) (id : string) (c : client) : Prop :=
  (lastLine c ≤ length (lines_now random ds id))%nat ∧
  response c = streamed (take (lastLine c) (lines_now random ds id)).

Record site_inv (s : site) : Prop := {
  inv_calm : calm (world s);
  inv_files id : file_at (world s) (file_path id) = lines_bytes <$> (so_far random id <$> deployments s !! id);
  inv_clients id c : (id, c) ∈ clients s → on_track (deployments s) id c;
}.

(** A client stays on track as long as lines are only added. *)
Lemma on_track_extend ds ds' id c :
  (∃ more, lines_now random ds' id = lines_now random ds id ++ more) → on_track ds id c → on_track ds' id c.
Proof.
  intros [more E] [Hl Hr]. unfold on_track. rewrite E, take_app_le by done.
  split; [rewrite length_app; lia|done].
Qed.

Lemma lines_now_insert ds id id' n :
  lines_now random (<[id := n]> ds) id' = if decide (id' = id) then so_far random id n else lines_now random ds id'.
Proof. unfold lines_now. case_decide as Hid; [subst; by simplify_map_eq|by rewrite lookup_insert_ne]. Qed.

(** A poll sends what is missing. *)
Lemma poll_on_track s id c :
  site_inv s → on_track (deployments s) id c →
  let lines := lines_now random (deployments s) id in
  ∃ w', poll id c (world s) = (Ok (mkClient (length lines) (streamed lines)), w') ∧ calm w' ∧
    ∀ p, file_at w' p = file_at (world s) p.
Proof.
  intros [I1 I2 _] [Hl Hr] lines. destruct (Sse.poll_nf id c _ I1) as (w' & E & Hw). exists w'. split; [|done].
  rewrite E, I2. clear E. unfold lines, lines_now in *. destruct (deployments s !! id) as [n|] eqn:En;
    cbn [fmap option_fmap option_map].
  - unfold lines_bytes. rewrite Sse.scan_plain by apply so_far_plain.
    rewrite Hr, send_streamed, take_drop, length_drop. do 3 f_equal. lia.
  - destruct c as [k r]. cbn in *. assert (k = 0)%nat as -> by lia. by subst r.
Qed.

Lemma start_step_inv s id started w' c' :
  deployments s !! id = None → startDeployment id (world s, new_conn) = (Ok started, (w', c')) → site_inv s →
  site_inv (mkSite w' (if started then <[id := 0%nat]> (deployments s) else deployments s) (clients s)).
Proof.
  intros Hid E [I1 I2 I3]. destruct (Sse.start_nf id _ new_conn I1) as (w1 & E1 & Hc & Hw).
  rewrite E in E1. simplify_eq. split; cbn [world deployments clients]; [done| |].
  - intros id'. rewrite Hw. destruct (decide (id' = id)) as [->|Hne].
    + by rewrite decide_True, lookup_insert_eq by done.
    + rewrite decide_False by (by intros ?%file_path_inj). by rewrite lookup_insert_ne.
  - intros id' c Hin. eapply on_track_extend, I3, Hin. rewrite lines_now_insert. case_decide as Hi; [|by exists [];
      rewrite (right_id_L [] (++))]. subst id'. unfold lines_now. rewrite Hid. by eexists.
Qed.

Lemma append_step_inv s id n msg w' :
  deployments s !! id = Some n → messages (random id) !! n = Some msg →
  appendMessage msg id (world s) = (Ok (), w') → site_inv s →
  site_inv (mkSite w' (<[id := S n]> (deployments s)) (clients s)).
Proof.
  intros Hid Hm E [I1 I2 I3]. rewrite Sse.messages_lines in Hm. apply list_lookup_fmap_Some in Hm as (l & -> & Hl).
  destruct (Sse.append_nf (line_of l) id _ I1) as (w1 & E1 & Hc & Hw). rewrite E in E1. simplify_eq.
  pose proof (so_far_S _ _ _ Hl) as HS. split; cbn [world deployments clients]; [done| |].
  - intros id'. rewrite Hw, I2. destruct (decide (id' = id)) as [->|Hne].
    + rewrite decide_True, lookup_insert_eq, Hid by done. cbn [fmap option_fmap option_map].
      rewrite HS. unfold lines_bytes. rewrite fmap_app, concat_app. cbn. by rewrite (right_id_L [] (++)).
    + rewrite decide_False by (by intros ?%file_path_inj). by rewrite lookup_insert_ne.
  - intros id' c Hin. eapply on_track_extend, I3, Hin. rewrite lines_now_insert. case_decide as Hi.
    + subst id'. unfold lines_now. rewrite Hid, HS. by eexists.
    + by exists []; rewrite (right_id_L [] (++)).
Qed.

Lemma sse_step_inv s s' : sse_step random s s' → site_inv s → site_inv s'.
Proof.
  intros Hs Hi. destruct Hs as [s id started w' c' Hid E|s id n msg w' Hid Hm E|s id c' E|s k id c c' w' Hk E].
  - by eapply start_step_inv.
  - by eapply append_step_inv.
  - pose proof Hi as [I1 I2 I3]. split; cbn [world deployments clients]; [done..|].
    intros id' c [Hin|Heq%list_elem_of_singleton]%elem_of_app; [by apply I3|]. simplify_eq.
    split; [cbn; lia|]. by eapply sse_open_streamed.
  - assert ((id, c) ∈ clients s) as Hin by by eapply list_elem_of_lookup_2.
    destruct (poll_on_track s id c Hi) as (w1 & E1 & Hc & Hw); [by apply inv_clients|].
    rewrite E in E1. simplify_eq. pose proof Hi as [I1 I2 I3].
    split; cbn [world deployments clients]; [done|intros id'; by rewrite Hw|].
    intros id' c1 [k1 Hk1]%list_elem_of_lookup.
    apply list_lookup_insert_Some in Hk1 as [(_ & Heq & _)|[_ Hk1]].
    + simplify_eq. split; [done|]. cbn. by rewrite firstn_all.
    + apply I3. by eapply list_elem_of_lookup_2.
Qed.

Lemma site_reachable w s :
  calm w → (∀ id, file_at w (file_path id) = None) → rtc (sse_step random) (mkSite w ∅ []) s → site_inv s.
Proof.
  intros Hc Hnone Hr. assert (site_inv (mkSite w ∅ [])) as Hi.
  { split; cbn [world deployments clients]; [done| |by intros ? ? ?%not_elem_of_nil].
    intros id. by rewrite Hnone. }
  remember (mkSite w ∅ []) as s0 eqn:E0. clear E0. induction Hr as [|s1 s2 s3 Hs _ IH]; [done|].
  by eapply IH, sse_step_inv.
Qed.
End stream.

(** C36: When no file operation fails, and however starts, messages, new clients and polls
    are interleaved: what a client has been sent is an event stream that an EventSource reads
    as the first [lastLine] lines of its own deployment, once each and in order, whatever the
    other deployments do (nothing, not even a status, before its deployment is started); and
    its next poll sends all that is missing. *)
Theorem stream_exactly_once random w s id c :
  (∀ id i, 0 ≤ random id i < 1000) → calm w → (∀ id, file_at w (file_path id) = None) →
  rtc (sse_step random) (mkSite w ∅ []) s → (id, c) ∈ clients s →
  let lines := lines_now random (deployments s) id in
  parse_events (wBody (cWriter (response c))) = take (lastLine c) lines ∧
  (if decide (wBody (cWriter (response c)) = []) then wStatus (cWriter (response c)) = None
   else wStatus (cWriter (response c)) = Some 200 ∧ cSent (response c) = Some stream_header) ∧
  ∃ c' w', poll id c (world s) = (Ok c', w') ∧ lastLine c' = length lines ∧
    parse_events (wBody (cWriter (response c'))) = lines.
Proof.
  intros Hrnd Hw Hnone Hr Hin lines. pose proof (site_reachable random Hrnd w s Hw Hnone Hr) as Hi.
  pose proof (inv_clients _ _ Hi _ _ Hin) as Ht. destruct (poll_on_track random Hrnd s id c Hi Ht) as (w' & E & _).
  destruct Ht as [_ Ht]. pose proof (lines_now_plain random Hrnd (deployments s) id) as Hp. fold lines in Ht, E, Hp.
  rewrite Ht. split; [by apply parse_streamed, Forall_take|]. split; [apply streamed_status|].
  eexists _, _. split; [exact E|]. split; [done|]. by apply parse_streamed.
Qed.

(** A site with one deployment, whose client came before it was started. *)
Lemma stream_exactly_once_witness :
  ∃ w0 w1 c' w2,
    startDeployment "a1" (empty_world, new_conn) = (Ok true, w0) ∧
    appendMessage (line_of "Step 1 completed: 7") "a1" w0.1 = (Ok (), w1) ∧
    poll "a1" (mkClient 0 (streamed [])) w1 = (Ok c', w2) ∧
    parse_events (wBody (cWriter (response c'))) = ["Deployment started..."; "Step 1 completed: 7"]%string.
Proof.
  destruct (Sse.start_nf "a1" empty_world new_conn calm_empty) as (w0 & E0 & Hw0 & _).
  destruct (Sse.append_nf (line_of "Step 1 completed: 7") "a1" _ Hw0) as (w1 & E1 & _).
  destruct (stream_exactly_once (λ _ _, 7) empty_world
    (mkSite w1 (<["a1" := 1%nat]> {["a1" := 0%nat]}) [("a1", mkClient 0 (streamed []))]) "a1" (mkClient 0 (streamed [])))
    as (_ & _ & c' & w2 & E2 & _ & Hp).
  - intros _ _. lia.
  - exact calm_empty.
  - done.
  - apply (rtc_l _ _ (mkSite empty_world ∅ [("a1", mkClient 0 (streamed []))])).
    { apply (connect_step _ (mkSite empty_world ∅ []) "a1"). reflexivity. }
    apply (rtc_l _ _ (mkSite w0 {["a1" := 0%nat]} [("a1", mkClient 0 (streamed []))])).
    { apply (start_step _ (mkSite empty_world ∅ [("a1", mkClient 0 (streamed []))]) "a1" true _ _ (lookup_empty _) E0). }
    apply rtc_once.
    pose proof (append_step (λ _ _, 7) (mkSite w0 {["a1" := 0%nat]} [("a1", mkClient 0 (streamed []))]) "a1" 0
      (line_of "Step 1 completed: 7") w1 (lookup_singleton_eq _ _) eq_refl E1) as H. exact H.
  - by left.
  - eexists (w0, _), w1, c', w2. split; [exact E0|]. split; [exact E1|]. split; [exact E2|exact Hp].
Defined.

(** ** A write cut short *)

(** The first message is cut after five bytes, its error ignored; the client polls, the
    second message ends up on the same line, and the client polls again. *)
Definition cut_short : list string :=
  let w := (startDeployment "a1" (empty_world, new_conn)).2.1 in
  let w := (appendMessage (line_of "Step 1 completed: 7") "a1" (set_faults [None; Some 5%nat] w)).2 in
  let polled c w := match poll "a1" c w with (Ok c', w') => (c', w') | (_, w') => (c, w') end in
  let '(c, w) := polled (mkClient 0 (streamed [])) w in
  let w := (appendMessage (line_of "Step 2 completed: 8") "a1" w).2 in
  let '(c, w) := polled c w in
  parse_events (wBody (cWriter (response c))).

(** The client gets the stump and never the second message. *)
Lemma cut_short_sent : cut_short = ["Deployment started..."; "Step "]%string.
Proof. vm_compute. reflexivity. Qed.

End SseSite.
