(* ===== verification/Chat.v ===== *)
(** [communication-mechanisms/websockets/main.go]: a chat room on a socket.io server; and
    [communication-mechanisms/redis-pubsub/main.go]: a publisher and subscribers of a channel.
    The socket.io library and the Redis client are parameters. *)

From Stdlib Require Import ZArith Lia Ascii String.
From stdpp Require Import gmap strings list list_numbers fin_maps sets sorting relations.
From S2P Require Import Prelude GoLib GoHttp LoadBalancerHandler.

(** * websockets/main.go *)

Module Chat.
Import Handler.

Record Message := mkMessage { Username : string; Text : string }.
#[export] Instance message_eq_dec : EqDecision Message.
Proof. solve_decision. Defined.

(** A connection, by its [ID()]. *)
Abbreviation conn := string.

(** [rooms]: who is in a room; [calls]: the broadcasts so far, each with its event and whom it
    still has to send it to; [outbox]: what was sent to a connection, in order, with the number
    of the broadcast it comes from. *)
Record broadcast := mkBroadcast { b_event : string; b_msg : Message; b_left : gset conn }.
Record hub := mkHub {
  rooms : string → gset conn;
  calls : gmap nat broadcast;
  outbox : conn → list (nat * (string * Message));
}.

(** What the callbacks call, and what the library does when a connection ends.  A broadcast
    goes on until it [Returns]; calls of different goroutines overlap.  [Internal] is what the
    library does meanwhile. *)
Class SocketIO (S : Type) := {
  SetContext : conn → string → S → S → Prop;
  Join : conn → string → S → S → Prop;
  BroadcastToRoom : string → string → string → Message → S → nat → S → Prop;
  Returns : nat → S → S → Prop;
  drop_conn : conn → S → S → Prop;
  Internal : S → S → Prop;
}.

Definition same_but (h h' : hub) (R : string → gset conn) : Prop :=
  (∀ room, rooms h' room = R room) ∧ calls h' = calls h ∧ ∀ c, outbox h' c = outbox h c.

(** A broadcast sends the event to each member of the room once; one that has left since may
    be passed over. *)
Definition send_next (h h' : hub) : Prop := ∃ k b c, calls h !! k = Some b ∧ c ∈ b_left b ∧
  (∀ room, rooms h' room = rooms h room) ∧
  calls h' = <[k := mkBroadcast (b_event b) (b_msg b) (b_left b ∖ {[ c ]})]> (calls h) ∧
  ((∀ c', outbox h' c' = outbox h c' ++ if decide (c' = c) then [(k, (b_event b, b_msg b))] else []) ∨
   (∀ room, c ∉ rooms h room) ∧ ∀ c', outbox h' c' = outbox h c').

(** The namespace "" is the root, as is "/". *)
Class SocketIOLaws (S : Type) `{SocketIO S} := {
  view : S → hub;
  context_law c v s s' : SetContext c v s s' → same_but (view s) (view s') (rooms (view s));
  join_law c room s s' : Join c room s s' →
    same_but (view s) (view s') (λ room', if decide (room' = room) then {[ c ]} ∪ rooms (view s) room'
      else rooms (view s) room');
  broadcast_law room event msg s k s' : BroadcastToRoom "" room event msg s k s' →
    calls (view s) !! k = None ∧
    (∀ room', rooms (view s') room' = rooms (view s) room') ∧
    calls (view s') = <[k := mkBroadcast event msg (rooms (view s) room)]> (calls (view s)) ∧
    ∀ c, outbox (view s') c = outbox (view s) c;
  returns_law k s s' : Returns k s s' → same_but (view s) (view s') (rooms (view s)) ∧
    ∀ b, calls (view s) !! k = Some b → b_left b = ∅;
  drop_law c s s' : drop_conn c s s' → same_but (view s) (view s') (λ room, rooms (view s) room ∖ {[ c ]});
  internal_law s s' : Internal s s' → same_but (view s) (view s') (rooms (view s)) ∨ send_next (view s) (view s');
}.

Definition chatRoom : string := "chat".

(** The calls a callback makes, one after another; the callbacks return no error. *)
Inductive call := CSetContext (c : conn) (v : string) | CJoin (c : conn) (room : string)
  | CBroadcast (namespace room event : string) (msg : Message).

Definition OnConnect (c : conn) : list call := [CSetContext c ""; CJoin c chatRoom].
Definition OnMessage (c : conn) (msg : Message) : list call := [CBroadcast "" chatRoom "message" msg].
(** These two only log. *)
Definition OnError (c : conn) (e : goerr) : list call := [].
Definition OnDisconnect (c : conn) (reason : string) : list call := [].

(** What happens on a connection after its beginning, and how it is handled. *)
Inductive event := Said (msg : Message) | Erred (e : goerr) | Left (reason : string).
Definition handle (c : conn) (e : event) : list call :=
  match e with
  | Said msg => OnMessage c msg
  | Erred e => OnError c e
  | Left reason => OnDisconnect c reason
  end.

(** The goroutine of a connection runs its callbacks one after another: it is in [OnConnect],
    with calls to come, or in a later callback, perhaps waiting for a broadcast to return. *)
Inductive goroutine := Connecting (l : list call) | Calling (l : list call) | Waiting (k : nat) (l : list call).

(** Something said: by whom, what, the number of its broadcast; the connections there were, and
    those of them that had been through [OnConnect] and had not ended. *)
Record utterance := mkSaid { number : nat; speaker : conn; what : Message; known : gset conn; here : gset conn }.

Record chat (S : Type) := mkChat {
  lib : S;
  gos : gmap conn goroutine;
  ended : gset conn;
  said : list utterance;
}.
Arguments mkChat {S}. Arguments lib {S}. Arguments gos {S}. Arguments ended {S}. Arguments said {S}.

#[export] Instance call_eq_dec : EqDecision call.
Proof. solve_decision. Defined.
#[export] Instance goroutine_eq_dec : EqDecision goroutine.
Proof. solve_decision. Defined.

Definition is_connecting (g : goroutine) : Prop := match g with Connecting _ => True | _ => False end.
#[export] Instance is_connecting_dec g : Decision (is_connecting g).
Proof. destruct g; apply _. Defined.
Definition listening {S} (s : chat S) : gset conn :=
  dom (filter (λ x : conn * goroutine, ¬ is_connecting x.2) (gos s)) ∖ ended s.

Section steps.
Context `{SocketIO T}.

(** A connection comes, something happens on it when its callbacks are over, a goroutine makes
    its next call, or a broadcast of its returns; a connection ends, whatever its goroutine
    is doing; the library goes on. *)
Inductive chat_step : chat T → chat T → Prop :=
| step_connect h g e u c : g !! c = None →
    chat_step (mkChat h g e u) (mkChat h (<[c := Connecting (OnConnect c)]> g) e u)
| step_connected h g e u c : g !! c = Some (Connecting []) →
    chat_step (mkChat h g e u) (mkChat h (<[c := Calling []]> g) e u)
| step_event h g e u c x : g !! c = Some (Calling []) →
    chat_step (mkChat h g e u) (mkChat h (<[c := Calling (handle c x)]> g) e u)
| step_context h g e u c c' v l h' : g !! c = Some (Connecting (CSetContext c' v :: l)) → SetContext c' v h h' →
    chat_step (mkChat h g e u) (mkChat h' (<[c := Connecting l]> g) e u)
| step_join h g e u c c' room l h' : g !! c = Some (Connecting (CJoin c' room :: l)) → Join c' room h h' →
    chat_step (mkChat h g e u) (mkChat h' (<[c := Connecting l]> g) e u)
| step_broadcast h g e u c ns room ev msg l k h' :
    g !! c = Some (Calling (CBroadcast ns room ev msg :: l)) → BroadcastToRoom ns room ev msg h k h' →
    chat_step (mkChat h g e u)
      (mkChat h' (<[c := Waiting k l]> g) e (u ++ [mkSaid k c msg (dom g) (listening (mkChat h g e u))]))
| step_returns h g e u c k l h' : g !! c = Some (Waiting k l) → Returns k h h' →
    chat_step (mkChat h g e u) (mkChat h' (<[c := Calling l]> g) e u)
| step_end h g e u c h' : is_Some (g !! c) → drop_conn c h h' →
    chat_step (mkChat h g e u) (mkChat h' g ({[ c ]} ∪ e) u)
| step_internal h g e u h' : Internal h h' → chat_step (mkChat h g e u) (mkChat h' g e u).
End steps.

(** ** What the chat promises *)

Section promises.
Context `{SocketIOLaws T}.
Implicit Types s : chat T.

(** What a goroutine may have in hand. *)
Definition go_ok (c : conn) (g : goroutine) : Prop :=
  match g with
  | Connecting l => l = OnConnect c ∨ l = [CJoin c chatRoom] ∨ l = []
  | Calling l => l = [] ∨ ∃ msg, l = OnMessage c msg
  | Waiting _ l => l = []
  end.

Record chat_inv s : Prop := {
  ci_go c g : gos s !! c = Some g → go_ok c g;
  (* members have connected, and those who are through with OnConnect are members *)
  ci_known c : c ∈ rooms (view (lib s)) chatRoom → is_Some (gos s !! c);
  ci_member c g : gos s !! c = Some g → g = Connecting [] ∨ ¬ is_connecting g → c ∉ ended s →
    c ∈ rooms (view (lib s)) chatRoom;
  (* the broadcasts are those of the utterances *)
  ci_call u : u ∈ said s → ∃ left, calls (view (lib s)) !! number u = Some (mkBroadcast "message" (what u) left) ∧
    left ⊆ known u ∧ known u ⊆ dom (gos s) ∧ here u ⊆ dom (filter (λ x : conn * goroutine, ¬ is_connecting x.2) (gos s)) ∧
    (∀ c, c ∈ left → number u ∉ (outbox (view (lib s)) c).*1) ∧
    (∀ c, c ∈ here u → c ∉ ended s → c ∈ left ∨ number u ∈ (outbox (view (lib s)) c).*1) ∧
    (left = ∅ ∨ ∃ l, gos s !! speaker u = Some (Waiting (number u) l));
  ci_numbers : NoDup (number <$> said s);
  ci_calls k : is_Some (calls (view (lib s)) !! k) → k ∈ number <$> said s;
  (* what was sent is theirs, once *)
  ci_sent c k x : (k, x) ∈ outbox (view (lib s)) c →
    ∃ u, u ∈ said s ∧ number u = k ∧ c ∈ known u ∧ x = ("message", what u);
  ci_once c : NoDup (outbox (view (lib s)) c).*1;
  (* a speaker's utterances are broadcast one after another *)
  ci_order c i j u u' l1 l2 : said s !! i = Some u → said s !! j = Some u' → (i < j)%nat → speaker u = speaker u' →
    (outbox (view (lib s)) c).*1 = l1 ++ number u' :: l2 → number u ∉ l2;
  ci_past i j u u' b : said s !! i = Some u → said s !! j = Some u' → (i < j)%nat → speaker u = speaker u' →
    calls (view (lib s)) !! number u = Some b → b_left b = ∅;
}.

(** A step that neither begins a broadcast nor sends anything. *)
Lemma chat_inv_frame s s' :
  chat_inv s → said s' = said s → calls (view (lib s')) = calls (view (lib s)) →
  (∀ c, outbox (view (lib s')) c = outbox (view (lib s)) c) →
  (∀ c g, gos s' !! c = Some g → go_ok c g) →
  (∀ c, c ∈ rooms (view (lib s')) chatRoom → is_Some (gos s' !! c)) →
  (∀ c g, gos s' !! c = Some g → g = Connecting [] ∨ ¬ is_connecting g → c ∉ ended s' →
    c ∈ rooms (view (lib s')) chatRoom) →
  ended s ⊆ ended s' →
  (∀ c g, gos s !! c = Some g → ∃ g', gos s' !! c = Some g' ∧ (¬ is_connecting g → ¬ is_connecting g') ∧
    ∀ k l, g = Waiting k l → g' = g ∨ ∀ b, calls (view (lib s)) !! k = Some b → b_left b = ∅) →
  chat_inv s'.
Proof.
  intros [I1 I2 I3 I4 I5 I6 I7 I8 I9 I10] Eu Ec Eo G1 G2 G3 He Hg. split; try done; rewrite ?Eu, ?Ec in *; try done.
  - intros u Hu. destruct (I4 u Hu) as (left & H1 & H2 & H3 & H4 & H5 & H6 & H7). exists left. split; [done|].
    split; [done|]. split.
    { intros c Hc%H3%elem_of_dom. destruct Hc as [g Hc]. destruct (Hg c g Hc) as (g' & ? & _). apply elem_of_dom. by exists g'. }
    split.
    { intros c Hc%H4%elem_of_dom. destruct Hc as [g [Hc Hn]%map_lookup_filter_Some].
      destruct (Hg c g Hc) as (g' & Hc' & Hn' & _). apply elem_of_dom. exists g'. apply map_lookup_filter_Some. split; [done|by apply Hn']. }
    split; [intros c Hc; rewrite Eo; by apply H5|]. split; [intros c Hc Hce; rewrite Eo; apply H6; [done|by intros ?%He]|].
    destruct H7 as [->|[l Hw]]; [by left|]. destruct (Hg _ _ Hw) as (g' & Hw' & _ & Hk).
    destruct (Hk _ _ eq_refl) as [->|Hb]; [right; by exists l|left]. by apply (Hb _ H1).
  - intros c k x. rewrite Eo. apply I7.
  - intros c. rewrite Eo. apply I8.
  - intros c i j u u' l1 l2. rewrite Eo. apply I9.
Qed.

(** A goroutine goes on. *)
Lemma go_on_insert (g : gmap conn goroutine) c x y :
  g !! c = Some x → (¬ is_connecting x → ¬ is_connecting y) →
  (∀ P : nat → Prop, (∀ k l, x = Waiting k l → P k) →
    ∀ c' z, g !! c' = Some z → ∃ z', <[c := y]> g !! c' = Some z' ∧ (¬ is_connecting z → ¬ is_connecting z') ∧
      ∀ k l, z = Waiting k l → z' = z ∨ P k).
Proof.
  intros Hc Hn P HP c' z Hz. destruct (decide (c' = c)) as [->|Hne].
  - rewrite Hc in Hz. injection Hz as <-. exists y. rewrite lookup_insert_eq. split; [done|]. split; [done|].
    intros k l E. right. by eapply HP.
  - exists z. rewrite lookup_insert_ne by done. split; [done|]. split; [done|]. auto.
Qed.

Lemma step_inv_frame h g e u h' c x y :
  chat_inv (mkChat h g e u) → g !! c = Some x → go_ok c y → (¬ is_connecting x → ¬ is_connecting y) →
  (∀ k l, x = Waiting k l → ∀ b, calls (view h) !! k = Some b → b_left b = ∅) →
  calls (view h') = calls (view h) → (∀ c, outbox (view h') c = outbox (view h) c) →
  (∀ c', c' ∈ rooms (view h') chatRoom → c' = c ∨ c' ∈ rooms (view h) chatRoom) →
  (∀ c', c' ∈ rooms (view h) chatRoom → c' ∈ rooms (view h') chatRoom) →
  (y = Connecting [] ∨ ¬ is_connecting y → c ∉ e → c ∈ rooms (view h') chatRoom) →
  chat_inv (mkChat h' (<[c := y]> g) e u).
Proof.
  intros Hi Hc Hy Hn Hw Ec Eo Hr Hr' Hm. pose proof Hi as [I1 I2 I3 _ _ _ _ _ _ _]. cbn [lib gos ended said] in *.
  eapply chat_inv_frame; [exact Hi|done..| | | |done|]; cbn [lib gos ended said].
  - intros c' g' [[<- <-]|[? ?]]%lookup_insert_Some; [done|by apply I1].
  - intros c' Hc'. destruct (decide (c' = c)) as [->|Hne]; [rewrite lookup_insert_eq; by eexists|].
    rewrite lookup_insert_ne by done. apply I2. by destruct (Hr c' Hc').
  - intros c' g' [[<- <-]|[? Hg']]%lookup_insert_Some; [done|]. intros Hg1 He. by apply Hr', (I3 c' g').
  - eapply (go_on_insert g c x y Hc Hn (λ k, ∀ b, calls (view h) !! k = Some b → b_left b = ∅)). exact Hw.
Qed.

Lemma same_but_rooms h h' R : same_but h h' R → ∀ c, c ∈ rooms h' chatRoom ↔ c ∈ R chatRoom.
Proof. intros (Hr & _ & _) c. by rewrite Hr. Qed.

(** A new broadcast. *)
Lemma broadcast_inv h g e u c msg l k h' :
  chat_inv (mkChat h g e u) → g !! c = Some (Calling (CBroadcast "" chatRoom "message" msg :: l)) → l = [] →
  BroadcastToRoom "" chatRoom "message" msg h k h' →
  chat_inv (mkChat h' (<[c := Waiting k l]> g) e (u ++ [mkSaid k c msg (dom g) (listening (mkChat h g e u))])).
Proof.
  intros Hi Hc -> Hb. destruct (broadcast_law _ _ _ _ _ _ Hb) as (Hf & Hr & Ec & Eo).
  pose proof Hi as [I1 I2 I3 I4 I5 I6 I7 I8 I9 I10]. cbn [lib gos ended said] in *.
  assert (k ∉ number <$> u) as Hk.
  { intros (u0 & -> & Hu)%list_elem_of_fmap. destruct (I4 u0 Hu) as (left & H1 & _). congruence. }
  assert (∀ c', k ∉ (outbox (view h) c').*1) as Hnew.
  { intros c' ([k0 x] & -> & Hx)%list_elem_of_fmap. destruct (I7 _ _ _ Hx) as (u0 & Hu & <- & _).
    apply Hk, list_elem_of_fmap. by exists u0. }
  assert (∀ u0, u0 ∈ u → speaker u0 = c → ∀ b, calls (view h) !! number u0 = Some b → b_left b = ∅) as Hpast.
  { intros u0 Hu Hs b Hb'. destruct (I4 u0 Hu) as (left & H1 & _ & _ & _ & _ & _ & [->|[l Hw]]); by simplify_eq. }
  assert (∀ u0, u0 ∈ u → calls (view h') !! number u0 = calls (view h) !! number u0) as Hold.
  { intros u0 Hu. rewrite Ec, lookup_insert_ne; [done|]. intros ->. apply Hk, list_elem_of_fmap. by exists u0. }
  assert (∀ i u0, (u ++ [mkSaid k c msg (dom g) (listening (mkChat h g e u))]) !! i = Some u0 →
    (u !! i = Some u0 ∧ u0 ∈ u) ∨ i = length u ∧ u0 = mkSaid k c msg (dom g) (listening (mkChat h g e u))) as Hcases.
  { intros i u0 [Hu|[Hle [Hi0 Hu]%list_lookup_singleton_Some]]%lookup_app_Some;
      [left; split; [done|by eapply list_elem_of_lookup_2]|right; split; [lia|done]]. }
  split; cbn [lib gos ended said].
  - intros c' g' [[<- <-]|[? ?]]%lookup_insert_Some; [done|by apply I1].
  - intros c'. rewrite Hr. intros Hc'%I2. destruct (decide (c' = c)) as [->|Hne]; [rewrite lookup_insert_eq; by eexists|].
    by rewrite lookup_insert_ne.
  - intros c' g' Hg' Hg1 He. rewrite Hr. apply lookup_insert_Some in Hg' as [[<- <-]|[? Hg']]; [|by apply (I3 c' g')].
    apply (I3 c _ Hc); [right; cbn; auto|done].
  - intros u0 [Hu|Hu%list_elem_of_singleton]%elem_of_app.
    + destruct (I4 u0 Hu) as (left & H1 & H2 & H3 & H4 & H5 & H6 & H7). exists left. rewrite Hold by done.
      split; [done|]. split; [done|]. split; [intros c0 Hc0; rewrite dom_insert; apply elem_of_union; right; by auto|]. split.
      { intros c' Hc'%H4%elem_of_dom. destruct Hc' as [g' [Hg' Hn]%map_lookup_filter_Some]. apply elem_of_dom.
        destruct (decide (c' = c)) as [->|Hne].
        - exists (Waiting k []). apply map_lookup_filter_Some. rewrite lookup_insert_eq. by split; [|cbn; auto].
        - exists g'. apply map_lookup_filter_Some. by rewrite lookup_insert_ne. }
      split; [intros c' Hc'; rewrite Eo; by apply H5|]. split; [intros c' Hc' Hce; rewrite Eo; by apply H6|].
      destruct H7 as [->|[l Hw]]; [by left|]. destruct (decide (speaker u0 = c)) as [Es|Hne].
      * left. by apply (Hpast u0 Hu Es _ H1).
      * right. exists l. by rewrite lookup_insert_ne.
    + subst u0. exists (rooms (view h) chatRoom). cbn [number what known here speaker].
      rewrite Ec, lookup_insert_eq. split; [done|]. split; [intros c' Hc'%I2; by apply elem_of_dom|].
      split; [intros c0 Hc0; rewrite dom_insert; apply elem_of_union; right; by auto|]. split.
      { unfold listening. cbn [gos ended]. intros c' [Hc' _]%elem_of_difference. apply elem_of_dom in Hc' as [g' [Hg' Hn]%map_lookup_filter_Some].
        apply elem_of_dom. destruct (decide (c' = c)) as [->|Hne].
        - exists (Waiting k []). apply map_lookup_filter_Some. rewrite lookup_insert_eq. by split; [|cbn; auto].
        - exists g'. apply map_lookup_filter_Some. by rewrite lookup_insert_ne. }
      split; [intros c' _; rewrite Eo; apply Hnew|]. split; [|right; exists []; by rewrite lookup_insert_eq].
      unfold listening. cbn [gos ended]. intros c' [Hc' _]%elem_of_difference Hce. left.
      apply elem_of_dom in Hc' as [g' [Hg' Hn]%map_lookup_filter_Some]. apply (I3 c' g' Hg'); [by right|done].
  - rewrite fmap_app. apply NoDup_app. split; [done|]. split; [|apply NoDup_singleton].
    intros k0 Hk0 ->%list_elem_of_singleton. done.
  - intros k0. rewrite Ec, fmap_app, elem_of_app. intros [b [[<- _]|[_ Hk0]]%lookup_insert_Some]; [right; by left|].
    left. apply I6. by exists b.
  - intros c' k0 x. rewrite Eo. intros (u0 & ? & ?)%I7. exists u0. split; [apply elem_of_app; by left|done].
  - intros c'. rewrite Eo. apply I8.
  - intros c' i j u0 u1 l1 l2 Hu0 Hu1 Hij Hs. rewrite Eo. intros El.
    destruct (Hcases _ _ Hu1) as [[Hu1' _]|[-> ->]].
    + apply Hcases in Hu0 as [[Hu0 _]|[-> _]]; [by eapply I9|]. apply lookup_lt_Some in Hu1'. lia.
    + exfalso. apply (Hnew c'). rewrite El. apply elem_of_app. right. by left.
  - intros i j u0 u1 b Hu0 Hu1 Hij Hs.
    destruct (Hcases _ _ Hu0) as [[Hu0' Hin]|[-> ->]]; [|apply lookup_lt_Some in Hu1; rewrite length_app in Hu1; cbn in Hu1; lia].
    rewrite Hold by done. destruct (Hcases _ _ Hu1) as [[Hu1' _]|[-> ->]]; [by eapply I10|]. by apply Hpast.
Qed.

(** The library sends one event of a broadcast. *)
Lemma send_inv h g e u h' :
  chat_inv (mkChat h g e u) → send_next (view h) (view h') → chat_inv (mkChat h' g e u).
Proof.
  intros Hi (k & b & c & Hk & Hin & Hr & Ec & Ho). pose proof Hi as [I1 I2 I3 I4 I5 I6 I7 I8 I9 I10]. cbn [lib gos ended said] in *.
  destruct (list_elem_of_fmap_1 _ _ _ (I6 k ltac:(by eexists))) as (uk & -> & Huk).
  destruct (I4 uk Huk) as (left & Hl & Hlk & _ & _ & Hfresh & _). rewrite Hk in Hl. injection Hl as ->. cbn [b_event b_msg b_left] in *.
  assert (∀ c', outbox (view h') c' = outbox (view h) c' ∨
    c' = c ∧ outbox (view h') c' = outbox (view h) c' ++ [(number uk, ("message", what uk))]) as Hcases.
  { intros c'. destruct Ho as [Ho|[_ Ho]]; rewrite Ho; [|by left]. destruct (decide (c' = c)) as [->|]; [by right|].
    left. by rewrite (right_id_L [] (++)). }
  assert (∀ c' k', k' ∈ (outbox (view h) c').*1 → k' ∈ (outbox (view h') c').*1) as Hkeep.
  { intros c' k' Hk'. destruct (Hcases c') as [->|[_ ->]]; [done|]. rewrite fmap_app. apply elem_of_app. by left. }
  split; cbn [lib gos ended said]; try done.
  - intros c'. rewrite Hr. apply I2.
  - intros c' g' ? ? ?. rewrite Hr. by eapply I3.
  - intros u0 Hu. destruct (I4 u0 Hu) as (left0 & H1 & H2 & H3 & H4 & H5 & H6 & H7). rewrite Ec.
    destruct (decide (number u0 = number uk)) as [En|En].
    + rewrite En in *. rewrite Hk in H1. injection H1 as Ew ->. exists (left0 ∖ {[ c ]}). rewrite lookup_insert_eq, Ew.
      split; [done|]. split; [intros c' [Hc' _]%elem_of_difference; by apply H2|]. split; [done|]. split; [done|]. split.
      { intros c' [Hc' Hne]%elem_of_difference. destruct (Hcases c') as [->|[-> _]]; [by apply H5|].
        destruct Hne. by apply elem_of_singleton. }
      split; [|destruct H7 as [->|?]; [left; apply set_eq; intros c'; rewrite elem_of_difference; split; [tauto|by intros ?%elem_of_empty]|by right]].
      intros c' Hc' Hce. destruct (H6 c' Hc' Hce) as [Hl|Hl]; [|right; by apply Hkeep].
      destruct (decide (c' = c)) as [->|Hne]; [|left; apply elem_of_difference; by rewrite elem_of_singleton].
      destruct Ho as [Ho|[Hgone _]].
      * right. rewrite Ho, decide_True, fmap_app by done. apply elem_of_app. right. by left.
      * destruct (Hgone chatRoom). apply H4, elem_of_dom in Hc' as [g' [Hg' Hn]%map_lookup_filter_Some].
        apply (I3 c g' Hg'); [right; exact Hn|done].
    + rewrite lookup_insert_ne by done. exists left0. do 4 (split; [done|]). split.
      { intros c' Hc'. destruct (Hcases c') as [->|[-> ->]]; [by apply H5|]. rewrite fmap_app.
        intros [?|E%list_elem_of_singleton]%elem_of_app; [by eapply H5|done]. }
      split; [|done]. intros c' Hc' Hce. destruct (H6 c' Hc' Hce); [by left|right; by apply Hkeep].
  - intros k'. rewrite Ec. intros [b [[<- _]|[_ Hk']]%lookup_insert_Some]; [apply list_elem_of_fmap; by exists uk|].
    apply I6. by eexists.
  - intros c' k' x Hx. destruct (Hcases c') as [E|[-> E]]; rewrite E in Hx; [by eapply I7|].
    apply elem_of_app in Hx as [Hx|Hx%list_elem_of_singleton]; [by eapply I7|]. injection Hx as -> ->.
    exists uk. split; [done|]. split; [done|]. split; [by apply Hlk|done].
  - intros c'. destruct (Hcases c') as [->|[-> ->]]; [apply I8|]. rewrite fmap_app. apply NoDup_app. split; [apply I8|].
    split; [|apply NoDup_singleton]. intros k' Hk' ->%list_elem_of_singleton. by eapply Hfresh.
  - intros c' i j u0 u1 l1 l2 Hu0 Hu1 Hij Hs El. destruct (Hcases c') as [E|[-> E]]; rewrite E in El; [by eapply I9|].
    rewrite fmap_app in El. cbn in El. destruct l2 as [|k2 l2 _] using rev_ind; [apply not_elem_of_nil|].
    assert (k2 = number uk ∧ (outbox (view h) c).*1 = l1 ++ number u1 :: l2) as [-> E2].
    { rewrite app_comm_cons, (assoc_L (++)) in El. by apply app_inj_tail in El as [? ->]. }
    rewrite elem_of_app, list_elem_of_singleton. intros [Hl2|En]; [exact (I9 _ _ _ _ _ _ _ Hu0 Hu1 Hij Hs E2 Hl2)|].
    rewrite <-En in Hk. pose proof (I10 _ _ _ _ _ Hu0 Hu1 Hij Hs Hk) as Hemp. cbn in Hemp. subst left. by apply elem_of_empty in Hin.
  - intros i j u0 u1 b0 Hu0 Hu1 Hij Hs. rewrite Ec. intros [[En <-]|[_ Hb0]]%lookup_insert_Some; [|exact (I10 _ _ _ _ _ Hu0 Hu1 Hij Hs Hb0)].
    rewrite En in Hk. pose proof (I10 _ _ _ _ _ Hu0 Hu1 Hij Hs Hk) as Hemp. cbn in Hemp. subst left. by apply elem_of_empty in Hin.
Qed.

Lemma chat_step_inv s s' : chat_inv s → chat_step s s' → chat_inv s'.
Proof.
  intros Hi Hs. pose proof Hi as [I1 I2 I3 _ _ _ _ _ _ _].
  destruct Hs as [h g e u c Hc|h g e u c Hc|h g e u c x Hc|h g e u c c' v l h' Hc Hl|h g e u c c' room l h' Hc Hl
    |h g e u c ns room ev msg l k h' Hc Hl|h g e u c k l h' Hc Hl|h g e u c h' Hc Hl|h g e u h' Hl]; cbn [lib gos ended said] in *.
  - eapply chat_inv_frame; [exact Hi|done..| | | |done|]; cbn [lib gos ended said].
    + intros c' g' [[<- <-]|[? ?]]%lookup_insert_Some; [by left|by apply I1].
    + intros c' Hc'. destruct (decide (c' = c)) as [->|Hne]; [rewrite lookup_insert_eq; by eexists|].
      rewrite lookup_insert_ne by done. by apply I2.
    + intros c' g' [[<- <-]|[? Hg']]%lookup_insert_Some; [intros [?|Hn]; [done|by destruct Hn]|by apply (I3 c' g')].
    + intros c' z Hz. exists z. rewrite lookup_insert_ne by congruence. auto.
  - eapply step_inv_frame; [exact Hi|exact Hc|by left|cbn; auto|done|done|done|by right|done|].
    intros _. apply (I3 c _ Hc). by left.
  - eapply step_inv_frame; [exact Hi|exact Hc| |done|done|done|done|by right|done|].
    + destruct x; cbn; [right; by eexists|by left..].
    + intros _. apply (I3 c _ Hc). right. cbn. auto.
  - apply context_law in Hl. pose proof (same_but_rooms _ _ _ Hl) as Hr. destruct Hl as (_ & Ec & Eo).
    assert (l = [CJoin c chatRoom]) as -> by by (destruct (I1 c _ Hc) as [[= _ _ ->]|[?|?]]).
    eapply step_inv_frame; [exact Hi|exact Hc|right; by left|done|done|done|done|right; by apply Hr|by apply Hr|].
    intros [?|Hn]; [done|by destruct Hn].
  - apply join_law in Hl. pose proof (same_but_rooms _ _ _ Hl) as Hr. destruct Hl as (_ & Ec & Eo).
    assert (c' = c ∧ room = chatRoom ∧ l = []) as (-> & -> & ->) by by (destruct (I1 c _ Hc) as [?|[[= -> -> ->]|?]]).
    cbn beta in Hr. setoid_rewrite decide_True in Hr; [|done].
    eapply step_inv_frame; [exact Hi|exact Hc|right; by right|done|done|done|done| | |].
    + intros c' [Hc'%elem_of_singleton|Hc']%Hr%elem_of_union; auto.
    + intros c' Hc'. apply Hr, elem_of_union. by right.
    + intros _ _. apply Hr, elem_of_union. left. by apply elem_of_singleton.
  - destruct (I1 c _ Hc) as [?|[msg' [= -> -> -> <- ->]]]; [done|]. by apply broadcast_inv.
  - apply returns_law in Hl as [Hl Hb]. pose proof (same_but_rooms _ _ _ Hl) as Hr. destruct Hl as (_ & Ec & Eo).
    pose proof (I1 c _ Hc) as Hl0. cbn in Hl0. subst l.
    eapply step_inv_frame; [exact Hi|exact Hc|by left|by auto|intros k0 l0 [= <- <-]; exact Hb|done|done|right; by apply Hr|by apply Hr|].
    intros _ He. apply Hr, (I3 c _ Hc); [right; cbn; auto|done].
  - apply drop_law in Hl. pose proof (same_but_rooms _ _ _ Hl) as Hr. destruct Hl as (_ & Ec & Eo).
    eapply chat_inv_frame; [exact Hi|done..|done| | | |]; cbn [lib gos ended said].
    + intros c' [Hc' _]%Hr%elem_of_difference. by apply I2.
    + intros c' g' Hg' Hn [Hne He]%not_elem_of_union. apply Hr, elem_of_difference. split; [by apply (I3 c' g')|done].
    + intros c' Hc'. apply elem_of_union. by right.
    + intros c' z Hz. exists z. auto.
  - apply internal_law in Hl as [Hl|Hl]; [|by eapply send_inv].
    pose proof (same_but_rooms _ _ _ Hl) as Hr. destruct Hl as (_ & Ec & Eo).
    eapply chat_inv_frame; [exact Hi|done..| | |done|]; cbn [lib gos ended said].
    + intros c' Hc'%Hr. by apply I2.
    + intros c' g' Hg' Hn He. apply Hr. by apply (I3 c' g').
    + intros c' z Hz. exists z. auto.
Qed.

(** The server as it starts. *)
Definition chat_start (h : T) : chat T := mkChat h ∅ ∅ [].
Definition no_one (h : T) : Prop :=
  (∀ room, rooms (view h) room = ∅) ∧ calls (view h) = ∅ ∧ ∀ c, outbox (view h) c = [].

Lemma chat_start_inv h : no_one h → chat_inv (chat_start h).
Proof.
  intros (Hr & Hc & Ho). split; cbn [lib gos ended said chat_start].
  - by intros c g ?%lookup_empty_Some.
  - intros c. rewrite Hr. by intros ?%elem_of_empty.
  - by intros c g ?%lookup_empty_Some.
  - by intros u ?%not_elem_of_nil.
  - apply NoDup_nil_2.
  - intros k. rewrite Hc, lookup_empty. by intros [? ?].
  - intros c k x. rewrite Ho. by intros ?%not_elem_of_nil.
  - intros c. rewrite Ho. apply NoDup_nil_2.
  - done.
  - done.
Qed.

End promises.
(** ** The HTTP side *)

(** [loggedMux]; [ServeHTTP] is what the routes do. *)
Definition loggedMux (ServeHTTP : Request → M Writer unit) (r : Request) : M Writer unit :=
  do! set_header "Access-Control-Allow-Origin" "*" in
  do! set_header "Access-Control-Allow-Methods" "GET, POST, OPTIONS" in
  do! set_header "Access-Control-Allow-Headers" "Content-Type" in
  if String.eqb (Method r) "OPTIONS" then WriteHeader 200 else ServeHTTP r.

Definition cors : Header :=
  list_to_map [("Access-Control-Allow-Origin", ["*"]);
    ("Access-Control-Allow-Methods", ["GET, POST, OPTIONS"]);
    ("Access-Control-Allow-Headers", ["Content-Type"])].

(** A preflight is answered at once, with the headers; any other request goes to the routes,
    which find the headers set. *)
Lemma loggedMux_spec ServeHTTP r :
  loggedMux ServeHTTP r empty_writer =
    if String.eqb (Method r) "OPTIONS" then (Ok (), mkWriter (Some 200) cors [])
    else ServeHTTP r (mkWriter None cors []).
Proof.
  assert (∀ k : M Writer unit,
    (do! set_header "Access-Control-Allow-Origin" "*" in
     do! set_header "Access-Control-Allow-Methods" "GET, POST, OPTIONS" in
     do! set_header "Access-Control-Allow-Headers" "Content-Type" in k) empty_writer =
    k (mkWriter None cors [])) as E by (intros k; vm_compute; reflexivity).
  unfold loggedMux. rewrite E. by destruct (String.eqb (Method r) "OPTIONS").
Qed.

(** ** A server *)

#[export] Instance hub_socketio : SocketIO hub := {
  SetContext _ _ h h' := h' = h;
  Join c room h h' :=
    h' = mkHub (λ r, if decide (r = room) then {[ c ]} ∪ rooms h r else rooms h r) (calls h) (outbox h);
  BroadcastToRoom _ room ev msg h k h' := k = fresh (dom (calls h)) ∧
    h' = mkHub (rooms h) (<[k := mkBroadcast ev msg (rooms h room)]> (calls h)) (outbox h);
  Returns k h h' := h' = h ∧ ∃ b, calls h !! k = Some b ∧ b_left b = ∅;
  drop_conn c h h' := h' = mkHub (λ r, rooms h r ∖ {[ c ]}) (calls h) (outbox h);
  Internal h h' := ∃ k b c, calls h !! k = Some b ∧ c ∈ b_left b ∧
    h' = mkHub (rooms h) (<[k := mkBroadcast (b_event b) (b_msg b) (b_left b ∖ {[ c ]})]> (calls h))
      (λ c', outbox h c' ++ if decide (c' = c) then [(k, (b_event b, b_msg b))] else []);
}.

#[export] Instance hub_laws : SocketIOLaws hub.
Proof.
  refine {| view := id |}; cbn.
  - by intros c v h h' ->.
  - by intros c room h h' ->.
  - intros room ev msg h k h' [-> ->]. split; [apply not_elem_of_dom, is_fresh|done].
  - intros k h h' (-> & b & Hb & Hl). split; [done|]. intros b' Hb'. by simplify_eq.
  - by intros c h h' ->.
  - intros h h' (k & b & c & Hk & Hc & ->). right. exists k, b, c. by repeat split; [..|left].
Defined.

(** What happens, in a given order. *)
Inductive act := Connect (c : conn) | On (c : conn) (x : event) | Next (c : conn) | Send (k : nat) (c : conn) | End (c : conn).

Definition act_on (a : act) (s : chat hub) : option (chat hub) :=
  let '(mkChat h g e u) := s in
  match a with
  | Connect c => match g !! c with None => Some (mkChat h (<[c := Connecting (OnConnect c)]> g) e u) | Some _ => None end
  | On c x => match g !! c with Some (Calling []) => Some (mkChat h (<[c := Calling (handle c x)]> g) e u) | _ => None end
  | Next c =>
      match g !! c with
      | Some (Connecting []) => Some (mkChat h (<[c := Calling []]> g) e u)
      | Some (Connecting (CSetContext _ _ :: l)) => Some (mkChat h (<[c := Connecting l]> g) e u)
      | Some (Connecting (CJoin c' room :: l)) =>
          Some (mkChat (mkHub (λ r, if decide (r = room) then {[ c' ]} ∪ rooms h r else rooms h r) (calls h) (outbox h))
            (<[c := Connecting l]> g) e u)
      | Some (Calling (CBroadcast _ room ev msg :: l)) =>
          let k := fresh (dom (calls h)) in
          Some (mkChat (mkHub (rooms h) (<[k := mkBroadcast ev msg (rooms h room)]> (calls h)) (outbox h))
            (<[c := Waiting k l]> g) e (u ++ [mkSaid k c msg (dom g) (listening s)]))
      | Some (Waiting k l) =>
          b ← calls h !! k; if decide (b_left b = ∅) then Some (mkChat h (<[c := Calling l]> g) e u) else None
      | _ => None
      end
  | Send k c =>
      b ← calls h !! k;
      if decide (c ∈ b_left b) then
        Some (mkChat (mkHub (rooms h) (<[k := mkBroadcast (b_event b) (b_msg b) (b_left b ∖ {[ c ]})]> (calls h))
          (λ c', outbox h c' ++ if decide (c' = c) then [(k, (b_event b, b_msg b))] else [])) g e u)
      else None
  | End c => match g !! c with
             | Some _ => Some (mkChat (mkHub (λ r, rooms h r ∖ {[ c ]}) (calls h) (outbox h)) g ({[ c ]} ∪ e) u)
             | None => None
             end
  end.

Lemma chat_act_step a s s' : act_on a s = Some s' → chat_step s s'.
Proof.
  destruct s as [h g e u]. destruct a as [c|c x|c|k c|c]; cbn [act_on].
  - destruct (g !! c) eqn:Ec; [done|]. intros [= <-]. by constructor.
  - destruct (g !! c) as [[l|[|]|k l]|] eqn:Ec; try done. intros [= <-]. by constructor.
  - destruct (g !! c) as [[[|[c' v|c' room|ns room ev msg] l]|[|[c' v|c' room|ns room ev msg] l]|k l]|] eqn:Ec; try done.
    + intros [= <-]. by constructor.
    + intros [= <-]. by eapply step_context.
    + intros [= <-]. by eapply step_join.
    + intros [= <-]. by eapply step_broadcast.
    + intros (b & Hb & E)%bind_Some. destruct (decide (b_left b = ∅)); [|done]. injection E as <-.
      eapply step_returns; [done|]. split; [done|]. by exists b.
  - intros (b & Hb & E)%bind_Some. destruct (decide (c ∈ b_left b)); [|done]. injection E as <-.
    apply step_internal. by exists k, b, c.
  - destruct (g !! c) eqn:Ec; [|done]. intros [= <-]. apply step_end; [by eexists|done].
Qed.

Fixpoint acts (l : list act) (s : chat hub) : option (chat hub) :=
  match l with [] => Some s | a :: l => s ← act_on a s; acts l s end.
Lemma acts_steps l s s' : acts l s = Some s' → rtc chat_step s s'.
Proof.
  revert s. induction l as [|a l IH]; intros s; cbn [acts]; [by intros [= ->]|].
  intros (s1 & H1%chat_act_step & H2%IH)%bind_Some. by eapply rtc_l.
Qed.

(** Two connections speak at the same time, and get what was said in different orders. *)
Definition empty_hub : hub := mkHub (λ _, ∅) ∅ (λ _, []).
Definition demo_acts : list act :=
  [Connect "a"; Next "a"; Connect "b"; Next "a"; Next "b"; Next "a"; Next "b"; Next "b";
   On "a" (Said (mkMessage "ann" "1")); On "b" (Said (mkMessage "bob" "2")); Next "a"; Next "b";
   Send 0 "a"; Send 1 "b"; Send 0 "b"; Send 1 "a"; Next "a"; Next "b"].
Definition demo_chat : chat hub := default (chat_start empty_hub) (acts demo_acts (chat_start empty_hub)).

Example demo_boxes :
  (λ c, (λ x : nat * (string * Message), Text x.2.2) <$> outbox (lib demo_chat) c) <$> ["a"; "b"] = [["1"; "2"]; ["2"; "1"]].
Proof. vm_compute. reflexivity. Qed.

Definition happened {A} (o : option A) : bool := match o with Some _ => true | None => false end.
Definition first_said : utterance := default (mkSaid 0 "" (mkMessage "" "") ∅ ∅) (head (said demo_chat)).

End Chat.

(** * redis-pubsub/main.go *)

Module PubSub.

Definition channel : string := "chat:room1".

(** What [Receive] delivers: the confirmation of the subscription, or a message. *)
Inductive notice := Subscription | Payload (v : Z).

(** The calls of go-redis.  [Publish] may fail, and the client may send it again;
    [Receive] blocks, gives what comes next, or fails; it connects first, when [Subscribe] has
    not been able to. *)
Class Redis (R : Type) := {
  Publish : string → Z → R → (unit + goerr) → R → Prop;
  Subscribe : string → nat → R → R → Prop;
  Receive : nat → R → (notice + goerr) → R → Prop;
}.

(** [feed id]: what is on its way to a subscriber of the channel, once it is subscribed.  A
    publication reaches all subscribers of the moment, in the same number of copies. *)
Class RedisLaws (R : Type) `{Redis R} := {
  feed : R → nat → option (list notice);
  publish_law v r o r' : Publish channel v r o r' →
    ∃ copies, (∀ id, feed r' id = (λ q, q ++ replicate copies (Payload v)) <$> feed r id) ∧
      (o = inl () → (0 < copies)%nat);
  subscribe_law id r r' : Subscribe channel id r r' → feed r id = None →
    (∀ id', id' ≠ id → feed r' id' = feed r id') ∧
    (feed r' id = None ∨ feed r' id = Some [Subscription]);
  receive_law id r o r' : Receive id r o r' →
    (∀ id', id' ≠ id → feed r' id' = feed r id') ∧
    match o with
    | inl x => ∃ q, (feed r id = Some (x :: q) ∨ feed r id = None ∧ x :: q = [Subscription]) ∧
        feed r' id = Some q
    | inr _ => feed r' id = feed r id
    end;
}.

(** [publish]: the next value; it goes on whatever [Publish] reports. *)
Definition publications : Z := 20.

(** A subscriber before its [Subscribe], in its loop, or at its end after an error; with the
    notices it printed. *)
Inductive phase := Starting | Receiving | Stopped.
Record subscriber := mkSub { sub_phase : phase; received : list notice }.

(** [published]: what the publisher printed, the values with the results of their [Publish]. *)
Record system (R : Type) := mkSystem {
  redis : R; next : Z; published : list (Z * (unit + goerr)); subs : list subscriber
}.
Arguments mkSystem {R}. Arguments redis {R}. Arguments next {R}. Arguments published {R}. Arguments subs {R}.

Section program.
Context `{Redis R}.

(** The four goroutines of [main], which stops them after 100 ms, wherever they are. *)
Inductive pubsub_step : system R → system R → Prop :=
| step_publish s o r' :
    next s < publications → Publish channel (next s) (redis s) o r' →
    pubsub_step s (mkSystem r' (next s + 1) (published s ++ [(next s, o)]) (subs s))
| step_subscribe s id sub r' :
    subs s !! id = Some sub → sub_phase sub = Starting → Subscribe channel id (redis s) r' →
    pubsub_step s (mkSystem r' (next s) (published s) (<[id := mkSub Receiving (received sub)]> (subs s)))
| step_receive s id sub o r' :
    subs s !! id = Some sub → sub_phase sub = Receiving → Receive id (redis s) o r' →
    pubsub_step s (mkSystem r' (next s) (published s) (<[id := match o with
      | inl x => mkSub Receiving (received sub ++ [x])
      | inr _ => mkSub Stopped (received sub)
      end]> (subs s))).

Definition main_start (r : R) : system R := mkSystem r 0 [] (replicate 3 (mkSub Starting [])).
End program.

Section theorems.
Context `{RedisLaws R}.
Implicit Types s : system R.

(** What reaches the subscribers, when each value goes out in so many copies. *)
Definition sent_out (pub : list (Z * (unit + goerr))) (copies : list nat) : list Z :=
  concat (zip_with (λ (p : Z * (unit + goerr)) n, replicate n p.1) pub copies).

(** One copy at least of a value whose [Publish] succeeded. *)
Definition copies_ok (pub : list (Z * (unit + goerr))) (copies : list nat) : Prop :=
  Forall2 (λ p n, p.2 = inl () → (0 < n)%nat) pub copies.

(** [history]: what was sent out so far; a subscriber has got, or will get, the
    confirmation and then all of it from some moment on. *)
Definition sub_ok (history : list Z) s (id : nat) (sub : subscriber) : Prop :=
  match feed (redis s) id with
  | None => received sub = []
  | Some q => ∃ before rest, history = before ++ rest ∧
      received sub ++ q = Subscription :: (Payload <$> rest)
  end ∧ (sub_phase sub = Starting → received sub = [] ∧ feed (redis s) id = None).

Record pubsub_inv s (copies : list nat) : Prop := {
  pi_next : 0 ≤ next s ≤ publications;
  pi_values : (published s).*1 = seqZ 0 (next s);
  pi_copies : copies_ok (published s) copies;
  pi_subs id sub : subs s !! id = Some sub → sub_ok (sent_out (published s) copies) s id sub;
}.

Lemma sent_out_snoc pub copies v o n : copies_ok pub copies →
  sent_out (pub ++ [(v, o)]) (copies ++ [n]) = sent_out pub copies ++ replicate n v.
Proof.
  intros Hc%Forall2_length. unfold sent_out. rewrite zip_with_app by done. rewrite concat_app. cbn.
  by rewrite (right_id_L [] (++)).
Qed.

(** A publication lengthens the history and every feed. *)
Lemma publish_sub history s n v o r' id sub :
  (∀ id, feed r' id = (λ q, q ++ replicate n (Payload v)) <$> feed (redis s) id) →
  sub_ok history s id sub → sub_ok (history ++ replicate n v) (mkSystem r' (next s + 1) (published s ++ [(v, o)]) (subs s)) id sub.
Proof.
  intros Hfeed [H1 H2]. unfold sub_ok in *. cbn [redis]. rewrite Hfeed.
  destruct (feed (redis s) id) as [q|]; cbn; [|by split].
  split; [|intros Hst; by destruct (H2 Hst)].
  destruct H1 as (before & rest & -> & E). exists before, (rest ++ replicate n v).
  rewrite !(assoc_L (++)), E, fmap_app, fmap_replicate. by split.
Qed.

(** A subscriber that receives, or not. *)
Lemma receive_sub history s id sub o r' :
  sub_phase sub = Receiving → Receive id (redis s) o r' → sub_ok history s id sub →
  ∀ l, sub_ok history (mkSystem r' (next s) (published s) l) id (match o with
    | inl x => mkSub Receiving (received sub ++ [x])
    | inr _ => mkSub Stopped (received sub)
    end).
Proof.
  intros Hph Hr [H1 _] l. destruct (receive_law _ _ _ _ Hr) as [_ Ho]. unfold sub_ok. cbn [redis].
  destruct o as [x|e]; cbn [sub_phase received]; [|by rewrite Ho].
  destruct Ho as (q & Hq & ->). split; [|done]. rewrite <-(assoc_L (++)). cbn [app].
  destruct Hq as [Hq|[Hq Eq]]; rewrite Hq in H1; [done|].
  rewrite H1, Eq. exists history, []. by rewrite (right_id_L [] (++)).
Qed.

Lemma pubsub_step_inv s s' copies :
  pubsub_step s s' → pubsub_inv s copies → ∃ copies', pubsub_inv s' copies'.
Proof.
  intros Hs [I1 I2 I3 I4]. destruct Hs as [s o r' Hlt Hp|s id sub r' Hid Hph Hp|s id sub o r' Hid Hph Hp].
  - destruct (publish_law _ _ _ _ Hp) as (n & Hfeed & Hn). exists (copies ++ [n]).
    split; cbn [next subs published]; [lia| | |].
    + by rewrite fmap_app, I2, seqZ_app by lia.
    + apply Forall2_app; [done|]. by repeat constructor.
    + intros id sub Hid. rewrite sent_out_snoc by done. by apply publish_sub, I4.
  - exists copies. destruct (I4 _ _ Hid) as [_ H2]. destruct (H2 Hph) as [Hrec Hnone].
    destruct (subscribe_law _ _ _ Hp Hnone) as [Hoth Hown]. split; cbn [next subs published]; [done..|].
    intros id' sub' [(<- & <- & _)|[Hne Hid']]%list_lookup_insert_Some; unfold sub_ok; cbn [redis sub_phase received].
    + rewrite Hrec. split; [|done]. destruct Hown as [->| ->]; [done|].
      eexists _, []. by rewrite (right_id_L [] (++)).
    + rewrite Hoth by done. by apply I4.
  - exists copies. split; cbn [next subs published]; [done..|].
    intros id' sub' [(<- & <- & _)|[Hne Hid']]%list_lookup_insert_Some.
    + by apply receive_sub; [..|apply I4].
    + unfold sub_ok. cbn [redis]. rewrite (proj1 (receive_law _ _ _ _ Hp)) by done. by apply I4.
Qed.

(** C29: The publisher has published 0, 1, 2 and so on, below 20.  Each value went out in some
    number of copies, at least one when its [Publish] succeeded; and what a subscriber prints is
    the confirmation of its subscription and then, from some moment on and as far as it got,
    all that went out, in the order of publication, without a gap. *)
Theorem subscribers_in_order r s :
  (∀ id, feed r id = None) → rtc pubsub_step (main_start r) s →
  (published s).*1 = seqZ 0 (len (published s)) ∧ len (published s) ≤ publications ∧
  ∃ copies, copies_ok (published s) copies ∧
    ∀ id sub, subs s !! id = Some sub →
      ∃ before rest, sent_out (published s) copies = before ++ rest ∧
        received sub `prefix_of` Subscription :: (Payload <$> rest).
Proof.
  intros Hf Hr. assert (pubsub_inv (main_start r) []) as Hi.
  { split; [cbn; unfold publications; lia|done|constructor|].
    intros id sub [-> _]%(lookup_replicate 3). unfold sub_ok. cbn. by rewrite Hf. }
  assert (∃ copies, pubsub_inv s copies) as [copies [I1 I2 I3 I4]].
  { revert Hi. generalize (@nil nat) as h. induction Hr as [s1|s1 s2 s3 Hs _ IH]; intros h Hi; [by exists h|].
    destruct (pubsub_step_inv _ _ _ Hs Hi) as (h' & Hi'). by apply (IH h'). }
  assert (next s = len (published s)) as En.
  { pose proof (f_equal length I2) as El. rewrite length_fmap, length_seqZ in El. unfold len. lia. }
  rewrite <-En. split; [done|]. split; [lia|]. exists copies. split; [done|].
  intros id sub Hid. destruct (I4 _ _ Hid) as [H1 _]. destruct (feed (redis s) id) as [q|].
  - destruct H1 as (before & rest & Eh & E). exists before, rest. split; [done|]. rewrite <-E.
    by apply prefix_app_r.
  - rewrite H1. eexists _, []. rewrite (right_id_L [] (++)). split; [done|]. apply prefix_nil.
Qed.
End theorems.

(** A server without failures: everyone's feed. *)
Abbreviation feeds := (gmap nat (list notice)).

#[export] Instance feeds_redis : Redis feeds := {
  Publish _ v r o r' := o = inl () ∧ r' = (λ q, q ++ [Payload v]) <$> r;
  Subscribe _ id r r' := r' = <[id := [Subscription]]> r;
  Receive id r o r' := ∃ x q, r !! id = Some (x :: q) ∧ o = inl x ∧ r' = <[id := q]> r;
}.

#[export] Program Instance feeds_laws : RedisLaws feeds := { feed r id := r !! id }.
Next Obligation.
  intros v r o r' [-> ->]. exists 1%nat. split; [intros id; apply lookup_fmap|lia].
Qed.
Next Obligation.
  intros id r r' -> _. split; [intros id' ?; by apply lookup_insert_ne|]. right. apply lookup_insert_eq.
Qed.
Next Obligation.
  intros id r o r' (x & q & Hq & -> & ->). split; [intros id' ?; by apply lookup_insert_ne|].
  exists q. split; [by left|apply lookup_insert_eq].
Qed.

(** The second subscriber comes after the first publication and gets the second. *)
Definition demo_end : system feeds :=
  mkSystem (<[1%nat := [Payload 1]]> ∅) 2 [(0, inl ()); (1, inl ())]
    [mkSub Starting []; mkSub Receiving [Subscription]; mkSub Starting []].

Lemma demo_reached : rtc pubsub_step (main_start (∅ : feeds)) demo_end.
Proof.
  set (l1 := [mkSub Starting []; mkSub Receiving []; mkSub Starting []]).
  eapply rtc_l; [by apply (step_publish (main_start ∅) (inl ()) ∅)|].
  eapply rtc_l; [by apply (step_subscribe (R := feeds) (mkSystem ∅ 1 [(0, inl ())] (subs (main_start (∅ : feeds)))) 1
    (mkSub Starting []) (<[1%nat := [Subscription]]> ∅))|].
  eapply rtc_l; [by apply (step_publish (R := feeds) (mkSystem (<[1%nat := [Subscription]]> ∅) 1 [(0, inl ())] l1)
    (inl ()) (<[1%nat := [Subscription; Payload 1]]> ∅))|].
  apply rtc_once.
  eapply (step_receive (R := feeds) (mkSystem (<[1%nat := [Subscription; Payload 1]]> ∅) 2 [(0, inl ()); (1, inl ())] l1) 1
    (mkSub Receiving []) (inl Subscription)); [done|done|]. by exists Subscription, [Payload 1].
Qed.

Lemma subscribers_in_order_witness :
  ∃ copies, copies_ok (published demo_end) copies ∧ ∃ before rest, sent_out (published demo_end) copies = before ++ rest ∧
    [Subscription] `prefix_of` Subscription :: (Payload <$> rest).
Proof.
  destruct (subscribers_in_order (R := feeds) ∅ demo_end) as (_ & _ & copies & Hs & Hsub);
    [intros id; apply lookup_empty|exact demo_reached|].
  exists copies. split; [exact Hs|]. exact (Hsub 1%nat (mkSub Receiving [Subscription]) eq_refl).
Defined.

End PubSub.
