(* ===== verification/Demos.v ===== *)
(** [http-server/main.go] and [socketio/main.go]: a handler that numbers its requests, and a
    server made of raw system calls. *)

From Stdlib Require Import ZArith Lia Ascii String.
From stdpp Require Import gmap strings list list_numbers fin_maps sets relations.
From S2P Require Import Prelude GoLib GoHttp.

(** * http-server/main.go *)

Module HttpServer.
Import Http.

(** The critical section of [handler]: the number of the request, and the next one. *)
Definition take_number : M Z Z :=
  let! currentCount := get_st in
  do! put_st (i64 (currentCount + 1)) in
  ret currentCount.

(** What follows it: the printed line has the path and the number. *)
Definition respond (path : string) : M Writer unit :=
  if negb (String.eqb path "/") then NotFound
  else Write (bytes_of ("Hello from Golang server" +:+ String "010"%char "")).

Definition faviconHandler : M Writer unit := NotFound.

(** The requests between their two parts, and the lines printed. *)
Record site := mkSite { count : Z; inside : list (string * Z); printed : list (string * Z) }.

(** Requests to "/" come and go in any order; those for the icon touch nothing. *)
Inductive site_step : site → site → Prop :=
| step_arrive s path n c' :
    take_number (count s) = (Ok n, c') →
    site_step s (mkSite c' (inside s ++ [(path, n)]) (printed s))
| step_respond s l1 path n l2 :
    inside s = l1 ++ (path, n) :: l2 →
    site_step s (mkSite (count s) (l1 ++ l2) (printed s ++ [(path, n)])).

Definition numbers (s : site) : list Z := (inside s ++ printed s).*2.

Definition requests (s : site) : Z := len (inside s ++ printed s).

Definition numbered (s : site) : Prop :=
  requests s < 2 ^ 63 → count s = requests s ∧ numbers s ≡ₚ seqZ 0 (requests s).

Lemma numbered_step s s' : site_step s s' → numbered s → numbered s'.
Proof.
  intros [s1 path k c' E|s1 l1 path k l2 E] Hn; unfold numbered, requests, numbers in *; cbn [inside printed count].
  - injection E as <- <-. rewrite !len_app, len_cons, len_nil in *.
    pose proof (len_nonneg (inside s1)). pose proof (len_nonneg (printed s1)). intros Hlt.
    destruct Hn as [Hc Hp]; [lia|]. split; [cbn; rewrite i64_small by lia; lia|].
    rewrite <-(assoc_L (++)). cbn [app]. rewrite <-Permutation_middle. csimpl.
    etrans; [apply perm_skip, Hp|]. rewrite Hc.
    replace (len (inside s1) + (1 + 0) + len (printed s1)) with (len (inside s1) + len (printed s1) + 1) by lia.
    rewrite (seqZ_app 0 (len (inside s1) + len (printed s1)) 1) by lia. apply Permutation_cons_append.
  - rewrite E in Hn. assert ((l1 ++ l2) ++ printed s1 ++ [(path, k)] ≡ₚ (l1 ++ (path, k) :: l2) ++ printed s1) as Hp.
    { rewrite (assoc_L (++)). etrans; [symmetry; apply Permutation_cons_append|].
      apply (Permutation_app_tail (printed s1) (Permutation_middle l1 l2 (path, k))). }
    assert (len ((l1 ++ l2) ++ printed s1 ++ [(path, k)]) = len ((l1 ++ (path, k) :: l2) ++ printed s1)) as ->
      by (unfold len; by rewrite Hp).
    intros Hlt. destruct (Hn Hlt) as [Hc Hq]. split; [exact Hc|]. etrans; [|exact Hq].
    by apply fmap_Permutation.
Qed.

(** Whatever the interleaving, the requests get the numbers from 0 on, each number once, as
    long as there are fewer than 2^63. *)
Theorem requests_numbered s :
  rtc site_step (mkSite 0 [] []) s → requests s < 2 ^ 63 →
  count s = requests s ∧ numbers s ≡ₚ seqZ 0 (requests s) ∧ NoDup (numbers s).
Proof.
  intros Hr Hlt. assert (numbered s) as Hn.
  { assert (numbered (mkSite 0 [] [])) as H0 by done.
    revert H0. induction Hr as [|s1 s2 s3 Hs _ IH]; [done|]. intros H0. by apply IH, (numbered_step s1). }
  destruct (Hn Hlt) as [Hc Hp]. split; [done|]. split; [done|]. rewrite Hp. apply NoDup_seqZ.
Qed.

Lemma requests_numbered_witness :
  numbers (mkSite 2 [("/", 0)] [("/x", 1)]) ≡ₚ seqZ 0 2.
Proof.
  apply (requests_numbered (mkSite 2 [("/", 0)] [("/x", 1)])); [|reflexivity].
  eapply rtc_l; [by apply (step_arrive (mkSite 0 [] []) "/" 0 1)|].
  eapply rtc_l; [by apply (step_arrive (mkSite 1 [("/", 0)] []) "/x" 1 2)|].
  apply rtc_once. by apply (step_respond (mkSite 2 [("/", 0); ("/x", 1)] []) [("/", 0)] "/x" 1 []).
Defined.

(** The home page is answered with the greeting, any other path with 404. *)
Lemma respond_reply path :
  ∃ h, (respond path empty_writer).2 =
    if String.eqb path "/"
    then mkWriter (Some 200) h (bytes_of ("Hello from Golang server" +:+ String "010"%char ""))
    else mkWriter (Some 404) h (bytes_of ("404 page not found" +:+ String "010"%char "")).
Proof. unfold respond. destruct (String.eqb path "/"); eexists; reflexivity. Qed.

End HttpServer.

(** * socketio/main.go *)

Module RawSocket.

(** The system calls; an error is an [errno], which the program does not tell apart. *)
Class Kernel (K : Type) := {
  Socket : K → (Z + unit) * K;
  Bind : Z → K → (unit + unit) * K;
  Listen : Z → Z → K → (unit + unit) * K;
  Accept : Z → K → (Z + unit) * K;
  Write : Z → string → K → (unit + unit) * K;
  Close : Z → K → (unit + unit) * K;
}.

(** [fds]: the open descriptors; [served]: the accepted connections that were closed, with
    what was written to them.  A new descriptor is one that was not open; a call on a
    descriptor that is not open fails; a write may be short. *)
Class KernelLaws (K : Type) `{Kernel K} := {
  fds : K → gmap Z (option string);
  served : K → list string;
  socket_law k r k' : Socket k = (r, k') → served k' = served k ∧
    match r with inl fd => fds k !! fd = None ∧ fds k' = <[fd := None]> (fds k) | inr _ => fds k' = fds k end;
  bind_law fd k r k' : Bind fd k = (r, k') → fds k' = fds k ∧ served k' = served k ∧
    (fds k !! fd = None → r = inr ());
  listen_law fd n k r k' : Listen fd n k = (r, k') → fds k' = fds k ∧ served k' = served k;
  accept_law fd k r k' : Accept fd k = (r, k') → served k' = served k ∧
    match r with
    | inl c => fds k !! c = None ∧ fds k' = <[c := Some ""]> (fds k)
    | inr _ => fds k' = fds k
    end;
  write_law fd msg k r k' out : Write fd msg k = (r, k') → fds k !! fd = Some (Some out) →
    served k' = served k ∧ ∃ b, String.prefix b msg = true ∧ fds k' = <[fd := Some (out +:+ b)]> (fds k);
  close_law fd k r k' : Close fd k = (r, k') →
    fds k' = delete fd (fds k) ∧
    served k' = served k ++ match fds k !! fd with Some (Some out) => [out] | _ => [] end;
}.

Definition greeting : string := "Hello from raw syscalls!" +:+ String "010"%char "".

Section program.
Context `{Kernel K}.

Definition call {A} (f : K → (A + unit) * K) : M K (A + unit) := λ k, let '(r, k') := f k in (Ok r, k').

(** One round of the loop. *)
Definition round (fd : Z) : M K unit :=
  let! r := call (Accept fd) in
  match r with
  | inr _ => ret ()
  | inl clientFD =>
      do! call (Write clientFD greeting) in
      do! call (Close clientFD) in ret ()
  end.

(** The loop has no end; [rounds] is how often it went round. *)
Fixpoint loop (rounds : nat) (fd : Z) : M K unit :=
  match rounds with
  | O => ret ()
  | S rounds => do! round fd in loop rounds fd
  end.

(** The error of [Socket] is dropped, its descriptor is then -1. *)
Definition main (rounds : nat) : M K unit :=
  let! r := call Socket in
  let fd := match r with inl fd => fd | inr _ => -1 end in
  let! r := call (Bind fd) in
  match r with
  | inr _ => do! call (Close fd) in panic "bind"
  | inl _ =>
      let! r := call (Listen fd 128) in
      match r with
      | inr _ => do! call (Close fd) in panic "listen"
      | inl _ => loop rounds fd
      end
  end.
End program.

Section laws.
Context `{KernelLaws K}.
Implicit Types k : K.

(** A round serves one connection or none, and leaves no descriptor behind. *)
Lemma round_spec fd k :
  ∃ k', round fd k = (Ok (), k') ∧ fds k' = fds k ∧
    ∃ l, served k' = served k ++ l ∧ (length l ≤ 1)%nat ∧ Forall (λ b, String.prefix b greeting = true) l.
Proof.
  unfold round, bind, call. destruct (Accept fd k) as [[c|e] k1] eqn:Ea.
  - destruct (accept_law _ _ _ _ Ea) as (Hs1 & Hc & Hf1).
    destruct (Write c greeting k1) as [r2 k2] eqn:Ew.
    destruct (write_law c greeting k1 r2 k2 "" Ew) as (Hs2 & b & Hb & Hf2); [by rewrite Hf1, lookup_insert_eq|].
    destruct (Close c k2) as [r3 k3] eqn:Ec. destruct (close_law _ _ _ _ Ec) as [Hf3 Hs3].
    exists k3. split; [done|]. split.
    { rewrite Hf3, Hf2, delete_insert_eq, Hf1. by apply delete_insert_id. }
    rewrite Hf2, lookup_insert_eq in Hs3. exists [b]. rewrite Hs3, Hs2, Hs1. split; [done|]. split; [done|].
    by repeat constructor.
  - destruct (accept_law _ _ _ _ Ea) as [Hs Hf]. exists k1. split; [done|]. split; [done|].
    exists []. rewrite Hs, (right_id_L [] (++)). split; [done|]. split; [cbn; lia|done].
Qed.

Lemma loop_spec rounds fd k :
  ∃ k', loop rounds fd k = (Ok (), k') ∧ fds k' = fds k ∧
    ∃ l, served k' = served k ++ l ∧ (length l ≤ rounds)%nat ∧
      Forall (λ b, String.prefix b greeting = true) l.
Proof.
  revert k. induction rounds as [|rounds IH]; intros k; cbn [loop].
  { exists k. split; [done|]. split; [done|]. exists []. by rewrite (right_id_L [] (++)). }
  destruct (round_spec fd k) as (k1 & E & Hf & l & Hs & Hl & Hg). rewrite (bind_ok _ _ _ _ _ E).
  destruct (IH k1) as (k' & E' & Hf' & l' & Hs' & Hl' & Hg'). exists k'. split; [done|].
  split; [congruence|]. exists (l ++ l'). rewrite Hs', Hs, (assoc_L (++)). split; [done|].
  rewrite length_app. split; [lia|]. by apply Forall_app.
Qed.

(** A failed start: the descriptor is closed again. *)
Lemma failed_start k k1 k2 fd r r' :
  fds k !! (-1) = None → Socket k = (r, k1) → fd = match r with inl fd => fd | inr _ => -1 end →
  fds k2 = fds k1 → served k2 = served k1 → ∀ k', Close fd k2 = (r', k') →
  fds k' = fds k ∧ served k' = served k.
Proof.
  intros Hk Es -> Hf2 Hs2 k' Ec. destruct (socket_law _ _ _ Es) as [Hs1 Hf1].
  destruct (close_law _ _ _ _ Ec) as [Hf3 Hs3]. rewrite Hf3, Hs3, Hf2, Hs2, Hs1.
  destruct r as [fd|e]; [destruct Hf1 as [Hfd ->]|rewrite Hf1].
  - rewrite lookup_insert_eq, (right_id_L [] (++)), delete_insert_eq. split; [by apply delete_id|done].
  - rewrite Hk, (right_id_L [] (++)). split; [by apply delete_id|done].
Qed.

(** However often the loop goes round, and whatever fails: besides what was open before, only
    the listener is, nothing when the start panics; each accepted connection has been
    closed, one at a time, after a prefix of the greeting was written to it. *)
Theorem no_descriptor_leaks rounds k r k' :
  fds k !! (-1) = None → main rounds k = (r, k') →
  match r with
  | Ok _ => ∃ fd l, fds k !! fd = None ∧ fds k' = <[fd := None]> (fds k) ∧ served k' = served k ++ l ∧
      (length l ≤ rounds)%nat ∧ Forall (λ b, String.prefix b greeting = true) l
  | Panic _ => fds k' = fds k ∧ served k' = served k
  | _ => False
  end.
Proof.
  intros Hk. unfold main, bind at 1, call at 1. destruct (Socket k) as [r1 k1] eqn:Es. cbv zeta.
  set (fd := match r1 with inl fd => fd | inr _ => -1 end).
  unfold bind at 1, call at 1. destruct (Bind fd k1) as [r2 k2] eqn:Eb.
  destruct (bind_law _ _ _ _ Eb) as (Hf2 & Hs2 & Hb). destruct r2 as [u|e].
  2:{ unfold bind, call. destruct (Close fd k2) as [r3 k3] eqn:Ec. intros [= <- <-].
      by eapply failed_start. }
  unfold bind at 1, call at 1. destruct (Listen fd 128 k2) as [r3 k3] eqn:El.
  destruct (listen_law _ _ _ _ _ El) as [Hf3 Hs3]. destruct r3 as [u'|e].
  2:{ unfold bind, call. destruct (Close fd k3) as [r4 k4] eqn:Ec. intros [= <- <-].
      eapply failed_start; [exact Hk|exact Es|reflexivity| | |exact Ec]; congruence. }
  destruct (loop_spec rounds fd k3) as (k4 & E & Hf4 & l & Hs4 & Hl & Hg). rewrite E. intros [= <- <-].
  destruct (socket_law _ _ _ Es) as [Hs1 Hf1]. subst fd. destruct r1 as [fd|e].
  - destruct Hf1 as [Hfd Hf1]. exists fd, l. split; [done|]. split; [congruence|].
    split; [congruence|done].
  - exfalso. by assert (inl u = @inr unit unit ()) by (apply Hb; congruence).
Qed.
End laws.

(** A kernel with so many clients to come. *)
Record kernel := mkKernel { k_fds : gmap Z (option string); k_served : list string; clients : nat }.

Definition new_fd (k : kernel) : Z := fresh ({[ -1 ]} ∪ dom (k_fds k)).
Definition with_fds (m : gmap Z (option string)) (k : kernel) : kernel := mkKernel m (k_served k) (clients k).

#[export] Instance kernel_calls : Kernel kernel := {
  Socket k := let fd := new_fd k in (inl fd, with_fds (<[fd := None]> (k_fds k)) k);
  Bind fd k := match k_fds k !! fd with Some _ => (inl (), k) | None => (inr (), k) end;
  Listen fd _ k := (inl (), k);
  Accept _ k :=
    match clients k with
    | O => (inr (), k)
    | S n => let fd := new_fd k in (inl fd, mkKernel (<[fd := Some ""]> (k_fds k)) (k_served k) n)
    end;
  Write fd msg k :=
    match k_fds k !! fd with
    | Some (Some out) => (inl (), with_fds (<[fd := Some (out +:+ msg)]> (k_fds k)) k)
    | _ => (inr (), k)
    end;
  Close fd k :=
    (inl (), mkKernel (delete fd (k_fds k))
       (k_served k ++ match k_fds k !! fd with Some (Some out) => [out] | _ => [] end) (clients k));
}.

Lemma new_fd_none k : k_fds k !! new_fd k = None.
Proof.
  apply not_elem_of_dom. pose proof (is_fresh ({[ -1 ]} ∪ dom (k_fds k))) as Hf. set_solver.
Qed.

Lemma prefix_refl s : String.prefix s s = true.
Proof. induction s as [|c s IH]; [done|]. cbn [String.prefix]. by destruct (ascii_dec c c). Qed.

#[export] Program Instance kernel_laws : KernelLaws kernel := { fds := k_fds; served := k_served }.
Next Obligation. intros k r k' [= <- <-]. split_and!; [done|apply new_fd_none|done]. Qed.
Next Obligation.
  intros fd k r k'. cbn. destruct (k_fds k !! fd); intros [= <- <-]; by split_and!.
Qed.
Next Obligation. by intros fd n k r k' [= <- <-]. Qed.
Next Obligation.
  intros fd k r k'. cbn. destruct (clients k); intros [= <- <-]; split_and!; try done. apply new_fd_none.
Qed.
Next Obligation.
  intros fd msg k r k' out. cbn. intros E Hk. rewrite Hk in E. injection E as <- <-.
  split; [done|]. exists msg. split; [apply prefix_refl|done].
Qed.
Next Obligation. by intros fd k r k' [= <- <-]. Qed.

Definition two_clients : kernel := mkKernel ∅ [] 2.

Lemma no_descriptor_leaks_witness :
  ∃ fd l, k_fds (main 3 two_clients).2 = <[fd := None]> ∅ ∧ k_served (main 3 two_clients).2 = l ∧
    (length l ≤ 3)%nat.
Proof.
  assert (main 3 two_clients = (Ok (), (main 3 two_clients).2)) as E by (vm_compute; reflexivity).
  revert E. generalize (main 3 two_clients).2. intros k E.
  destruct (no_descriptor_leaks (K := kernel) 3 two_clients (Ok ()) k (lookup_empty _) E) as (fd & l & _ & Hf & Hs & Hl & _).
  exists fd, l. split; [exact Hf|]. split; [exact Hs|exact Hl].
Defined.
End RawSocket.
