(* ===== verification/TcpServer.v ===== *)
(** [tcp_servers/multi_threaded.go]: an echo server with a goroutine per connection and a
    shutdown that closes the listener, closes the connections it knows of and waits.  The
    accept loop, the handlers, [Stop] and the clients are interleaved between calls that
    share state. *)

From Stdlib Require Import ZArith Lia Ascii String.
From stdpp Require Import gmap strings list fin_maps sets relations.
From S2P Require Import Prelude GoLib.

Module TcpServer.

(** * State *)

(** Where [handleConnection] is: not started, at the read or at the write of its loop, or in
    its deferred calls. *)
Inductive handler := Unborn | Serving | Echoing (line : string) | Closing | Untracking | Finishing | Ended.
#[export] Instance handler_eq_dec : EqDecision handler.
Proof. solve_decision. Defined.

(** A connection: its handler, the lines the client has sent (with their newlines), how many
    of them the handler's [bufio.Reader] has taken from the socket and how many [ReadString]
    has returned, the lines written back and the part of a line that a failed write sent,
    whether the server's end is closed and whether the client has gone. *)
Record connection := mkConn {
  pc : handler;
  lines : list string;
  filled : nat;
  nread : nat;
  echoed : list string;
  stump : string;
  closed : bool;
  gone : bool;
}.
Definition fresh_conn : connection := mkConn Unborn [] 0 0 [] "" false false.

(** The field [ln]: nil until [Start] has set it. *)
Inductive listener := NoListener | Open | Closed.

(** Where [Start] is; it ends with nil or with an error. *)
Inductive start_pc := Listening | Accepting | Accepted (c : nat) | Tracked (c : nat) | Added (c : nat)
  | Returned | Failed (e : goerr).
#[export] Instance start_pc_eq_dec : EqDecision start_pc.
Proof. solve_decision. Defined.
(** Where [Stop] is; [seen]: it found a listener to close. *)
Inductive stop_pc := Running | PastListener (seen : bool) | Swept (seen : bool) | Stopped (seen : bool).

Record Server := mkServer {
  addr : string;
  ln : listener;
  wg : Z;                           (* the counter of the wait group *)
  conns : gset nat;                 (* the tracked connections *)
  all : list connection;            (* every connection ever made, by number *)
  start : start_pc;
  stop : stop_pc;
}.

Definition set_ln (l : listener) (s : Server) : Server :=
  mkServer (addr s) l (wg s) (conns s) (all s) (start s) (stop s).
Definition set_all (l : list connection) (s : Server) : Server :=
  mkServer (addr s) (ln s) (wg s) (conns s) l (start s) (stop s).
Definition set_conn (k : nat) (c : connection) (s : Server) : Server := set_all (<[k := c]> (all s)) s.
Definition set_start (p : start_pc) (s : Server) : Server :=
  mkServer (addr s) (ln s) (wg s) (conns s) (all s) p (stop s).
Definition set_stop (p : stop_pc) (s : Server) : Server :=
  mkServer (addr s) (ln s) (wg s) (conns s) (all s) (start s) p.
Definition set_pc (h : handler) (c : connection) : connection :=
  mkConn h (lines c) (filled c) (nread c) (echoed c) (stump c) (closed c) (gone c).
Definition close (c : connection) : connection :=
  mkConn (pc c) (lines c) (filled c) (nread c) (echoed c) (stump c) true (gone c).

Definition NewServer (addr : string) : Server := mkServer addr NoListener 0 ∅ [] Listening Running.

(** [trackConn]. *)
Definition trackConn (k : nat) (add : bool) (s : Server) : Server :=
  mkServer (addr s) (ln s) (wg s) (if add then {[k]} ∪ conns s else conns s ∖ {[k]}) (all s)
    (start s) (stop s).
(** [s.wg.Add(n)]. *)
Definition wg_add (n : Z) (s : Server) : Server :=
  mkServer (addr s) (ln s) (wg s + n) (conns s) (all s) (start s) (stop s).

(** [if s.ln != nil { s.ln.Close() }]; and whether there was one. *)
Definition has_listener (s : Server) : bool := match ln s with NoListener => false | _ => true end.
Definition close_ln (s : Server) : Server := if has_listener s then set_ln Closed s else s.

(** The loop of [Stop] over the tracked connections. *)
Definition sweep (s : Server) : list connection :=
  imap (λ k c, if decide (k ∈ conns s) then close c else c) (all s).

(** * The handler *)

(** The empty buffer of the reader is filled from the socket, up to line [n]. *)
Definition fill_buffer (n : nat) (c : connection) : connection :=
  mkConn (pc c) (lines c) n (nread c) (echoed c) (stump c) (closed c) (gone c).

(** A line has been read: the loop ends with "exit", otherwise the line is to be written. *)
Definition take_line (line : string) (c : connection) : connection :=
  let msg := TrimSpace line in
  mkConn (if String.eqb msg "exit" then Closing else Echoing line)
    (lines c) (filled c) (S (nread c)) (echoed c) (stump c) (closed c) (gone c).

(** [conn.Write]: it takes the whole line, or fails after it has sent a part of it. *)
Definition write_back (line : string) (failed : option string) (c : connection) : connection :=
  match failed with
  | None => mkConn Serving (lines c) (filled c) (nread c) (echoed c ++ [line]) (stump c) (closed c) (gone c)
  | Some part => mkConn Closing (lines c) (filled c) (nread c) (echoed c) part (closed c) (gone c)
  end.

(** * Steps *)

(** [ReadString] returns the lines its reader holds, even of a connection that has been closed,
    and only then reads from the socket.  A read from the socket fails when the connection is
    closed, and may when the client has gone; so does a write, which may have sent a part of
    the line before. *)
Inductive server_step : Server → Server → Prop :=
(** [Start] *)
| listen s : start s = Listening → server_step s (set_start Accepting (set_ln Open s))
| listen_fails s e : start s = Listening → server_step s (set_start (Failed e) s)
| accept s :
    start s = Accepting → ln s = Open →
    server_step s (set_start (Accepted (length (all s))) (set_all (all s ++ [fresh_conn]) s))
| accept_fails s : start s = Accepting → ln s = Open → server_step s s
| accept_closed s : start s = Accepting → ln s = Closed → server_step s (set_start Returned s)
| track s k : start s = Accepted k → server_step s (set_start (Tracked k) (trackConn k true s))
| add s k : start s = Tracked k → server_step s (set_start (Added k) (wg_add 1 s))
| spawn s k c :
    start s = Added k → all s !! k = Some c →
    server_step s (set_start Accepting (set_conn k (set_pc Serving c) s))
(** [handleConnection] *)
| fill s k c n :
    all s !! k = Some c → pc c = Serving → filled c = nread c → closed c = false →
    (filled c < n ≤ length (lines c))%nat →
    server_step s (set_conn k (fill_buffer n c) s)
| read s k c line :
    all s !! k = Some c → pc c = Serving → (nread c < filled c)%nat → lines c !! nread c = Some line →
    server_step s (set_conn k (take_line line c) s)
| read_fails s k c :
    all s !! k = Some c → pc c = Serving → filled c = nread c → closed c = true ∨ gone c = true →
    server_step s (set_conn k (set_pc Closing c) s)
| write s k c line :
    all s !! k = Some c → pc c = Echoing line → closed c = false →
    server_step s (set_conn k (write_back line None c) s)
| write_fails s k c line part rest :
    all s !! k = Some c → pc c = Echoing line → closed c = true ∨ gone c = true →
    line = (part +:+ rest)%string →
    server_step s (set_conn k (write_back line (Some part) c) s)
| close_conn s k c :
    all s !! k = Some c → pc c = Closing →
    server_step s (set_conn k (set_pc Untracking (close c)) s)
| untrack s k c :
    all s !! k = Some c → pc c = Untracking →
    server_step s (set_conn k (set_pc Finishing c) (trackConn k false s))
| wg_done s k c :
    all s !! k = Some c → pc c = Finishing →
    server_step s (set_conn k (set_pc Ended c) (wg_add (-1) s))
(** [Stop] *)
| close_listener s :
    stop s = Running → server_step s (set_stop (PastListener (has_listener s)) (close_ln s))
| sweep_conns s b :
    stop s = PastListener b → server_step s (set_stop (Swept b) (set_all (sweep s) s))
| wait s b : stop s = Swept b → wg s = 0 → server_step s (set_stop (Stopped b) s).

Inductive client_step : Server → Server → Prop :=
| client_sends s k c line :
    all s !! k = Some c →
    client_step s (set_conn k
      (mkConn (pc c) (lines c ++ [line]) (filled c) (nread c) (echoed c) (stump c) (closed c) (gone c)) s)
| client_leaves s k c :
    all s !! k = Some c →
    client_step s (set_conn k (mkConn (pc c) (lines c) (filled c) (nread c) (echoed c) (stump c) (closed c) true) s).

Definition step (s s' : Server) : Prop := server_step s s' ∨ client_step s s'.

(** * The process *)

(** [ListenMultiThreaded]: [Start] in a goroutine, whose error is fatal; [Stop] begins when a
    signal comes, at any time; when it returns, so does [main]. *)
Inductive process := Live (s : Server) | Exited (code : Z) (s : Server).

Inductive main_step : process → process → Prop :=
| main_runs s s' : step s s' → main_step (Live s) (Live s')
| main_fatal s e : start s = Failed e → main_step (Live s) (Exited 1 s)
| main_returns s b : stop s = Stopped b → main_step (Live s) (Exited 0 s).

Definition ListenMultiThreaded : process := Live (NewServer ":8080").
Definition server_of (p : process) : Server := match p with Live s | Exited _ s => s end.

(** * Invariants *)

(** A handler that counts in the wait group. *)
Definition counts (c : connection) : Z :=
  match pc c with Serving | Echoing _ | Closing | Untracking | Finishing => 1 | _ => 0 end.
Definition handlers (s : Server) : Z := zsum (counts <$> all s).

(** A connection in its loop, or before it, that the server has not closed. *)
Definition in_loop (h : handler) : bool :=
  match h with Unborn | Serving | Echoing _ => true | _ => false end.
Definition waiting (c : connection) : Prop := closed c = false ∧ in_loop (pc c) = true.

(** The connection [Start] is busy with. *)
Definition pending (p : start_pc) : option nat :=
  match p with Accepted k | Tracked k | Added k => Some k | _ => None end.
Definition added (p : start_pc) : Z := match p with Added _ => 1 | _ => 0 end.
Definition before_listen (p : start_pc) : bool :=
  match p with Listening | Failed _ => true | _ => false end.
(** [Stop] has closed a listener; and the connections, too. *)
Definition seen (p : stop_pc) : bool :=
  match p with PastListener b | Swept b | Stopped b => b | Running => false end.
Definition cleaned (p : stop_pc) : bool :=
  match p with Swept b | Stopped b => b | _ => false end.

Record tcp_inv (s : Server) : Prop := {
  i_wg : wg s = handlers s + added (start s);
  i_unborn k c : all s !! k = Some c → pc c = Unborn ↔ pending (start s) = Some k;
  i_pending k : pending (start s) = Some k → is_Some (all s !! k);
  i_tracked k c : all s !! k = Some c → waiting c → start s ≠ Accepted k → k ∈ conns s;
  i_ln : ln s = NoListener ↔ before_listen (start s) = true;
  i_quiet : before_listen (start s) = true → all s = [];
  i_seen : seen (stop s) = true → ln s = Closed;
  (** after the sweep at most one connection is late *)
  i_late k k' c c' : cleaned (stop s) = true →
    all s !! k = Some c → all s !! k' = Some c' → waiting c → waiting c' → k = k';
  i_pending_late k c k' : cleaned (stop s) = true →
    all s !! k = Some c → waiting c → pending (start s) = Some k' → k = k';
  i_stopped : stop s = Stopped true →
    handlers s + (if pending (start s) is Some _ then 1 else 0) ≤ 1;
}.

Lemma counts_nonneg c : 0 ≤ counts c.
Proof. unfold counts. by destruct (pc c). Qed.

Lemma handlers_nonneg s : 0 ≤ handlers s.
Proof. apply zsum_nonneg, Forall_fmap, Forall_forall. intros c _. apply counts_nonneg. Qed.

Lemma handlers_set k c c' s :
  all s !! k = Some c → handlers (set_conn k c' s) = handlers s - counts c + counts c'.
Proof. intros Hk. unfold handlers. cbn. by apply zsum_insert. Qed.

(** One connection moves on; [conns'] and [wg'] are what trackConn and Done make of the rest. *)
Lemma inv_set s k c c' wg' conns' :
  tcp_inv s → all s !! k = Some c → (pc c' = Unborn ↔ pc c = Unborn) → (waiting c' → waiting c) →
  wg' - wg s = counts c' - counts c → counts c' ≤ counts c →
  (∀ j, j ≠ k ∨ waiting c' → j ∈ conns s → j ∈ conns') →
  tcp_inv (mkServer (addr s) (ln s) wg' conns' (<[k := c']> (all s)) (start s) (stop s)).
Proof.
  intros [I1 I2 I3 I4 I5 I9 I10 I6 I7 I8] Hk Hu Hw Hwg Hc Hconns.
  assert (∀ j x, <[k := c']> (all s) !! j = Some x → ∃ y, all s !! j = Some y ∧
    (pc x = Unborn ↔ pc y = Unborn) ∧ (waiting x → waiting y) ∧ (j ≠ k ∨ x = c')) as Hj.
  { intros j x [(-> & <- & _)|[Hne Hx]]%list_lookup_insert_Some; [by exists c; eauto|exists x; auto]. }
  pose proof (handlers_set k c c' s Hk) as Hh. unfold handlers in Hh. cbn [set_conn set_all all] in Hh.
  constructor; unfold handlers; cbn [start all conns ln stop wg]; rewrite ?Hh; fold (handlers s).
  - lia.
  - intros j x (y & Hy & E & _)%Hj. rewrite E. by apply I2.
  - intros j Hp. destruct (I3 j Hp) as [y Hy]. destruct (decide (j = k)) as [->|].
    + exists c'. by rewrite list_lookup_insert_eq by (by eapply lookup_lt_Some).
    + exists y. by rewrite list_lookup_insert_ne.
  - intros j x (y & Hy & _ & Hwy & Hor)%Hj Hx Hs. apply Hconns; [destruct Hor as [?| ->]; auto|by eapply I4; auto].
  - done.
  - intros Hb. by rewrite (I9 Hb) in Hk.
  - done.
  - intros j j' x x' Hst (y & Hy & _ & Hwy & _)%Hj (y' & Hy' & _ & Hwy' & _)%Hj Hx Hx'.
    eapply (I6 j j' y y'); auto.
  - intros j x k' Hst (y & Hy & _ & Hwy & _)%Hj Hx Hp. eapply (I7 j y); auto.
  - intros Hst. specialize (I8 Hst). lia.
Qed.

Lemma not_waiting c : in_loop (pc c) = false → ¬ waiting c.
Proof. intros ? [_ ?]. congruence. Qed.

Lemma counts_1 c : pc c ≠ Unborn → pc c ≠ Ended → counts c = 1.
Proof. unfold counts. by destruct (pc c). Qed.

(** A handler that moves on within its life. *)
Lemma inv_handler s k c c' conns' :
  tcp_inv s → all s !! k = Some c → pc c ≠ Unborn → pc c ≠ Ended → pc c' ≠ Unborn → pc c' ≠ Ended →
  (waiting c' → waiting c) → (∀ j, j ≠ k ∨ waiting c' → j ∈ conns s → j ∈ conns') →
  tcp_inv (mkServer (addr s) (ln s) (wg s) conns' (<[k := c']> (all s)) (start s) (stop s)).
Proof. intros. apply (inv_set s k c); try done; rewrite ?(counts_1 c), ?(counts_1 c') by done; lia. Qed.

(** ** The steps *)

#[local] Ltac fields :=
  cbn [set_start set_stop set_ln set_all set_conn trackConn wg_add start all conns ln stop wg pending
    added before_listen seen cleaned] in *.

Lemma inv_listen s : start s = Listening → tcp_inv s → tcp_inv (set_start Accepting (set_ln Open s)).
Proof.
  intros E [I1 I2 I3 I4 I5 I9 I10 I6 I7 I8]. rewrite E in *.
  assert (ln s = NoListener) as El by by apply I5.
  constructor; fields; try done; rewrite ?(I9 eq_refl) in *; try done.
  intros Hs. specialize (I10 Hs). congruence.
Qed.

Lemma inv_listen_fails s e : start s = Listening → tcp_inv s → tcp_inv (set_start (Failed e) s).
Proof.
  intros E [I1 I2 I3 I4 I5 I9 I10 I6 I7 I8]. rewrite E in *.
  constructor; fields; try done. by rewrite (I9 eq_refl).
Qed.

Lemma inv_accept s :
  start s = Accepting → ln s = Open → tcp_inv s →
  tcp_inv (set_start (Accepted (length (all s))) (set_all (all s ++ [fresh_conn]) s)).
Proof.
  intros E El [I1 I2 I3 I4 I5 I9 I10 I6 I7 I8]. rewrite E in *.
  assert (seen (stop s) = false) as Er by (destruct (seen (stop s)); [specialize (I10 eq_refl); congruence|done]).
  assert (cleaned (stop s) = false) as Ec by by destruct (stop s).
  assert (∀ k c, (all s ++ [fresh_conn]) !! k = Some c →
    all s !! k = Some c ∧ k ≠ length (all s) ∨ k = length (all s) ∧ c = fresh_conn) as Hl.
  { intros k c [Hk|[Hle Hk]]%lookup_app_Some; [left; split; [done|]|right].
    - apply lookup_lt_Some in Hk. lia.
    - apply list_lookup_singleton_Some in Hk as [? <-]. split; [lia|done]. }
  constructor; fields; rewrite ?Er, ?Ec; try done.
  - unfold handlers. fields. rewrite fmap_app, zsum_app. cbn. fold (handlers s). lia.
  - intros k c [[Hk Hne]|[-> ->]]%Hl; [rewrite (I2 k c Hk); cbn; split; [done|congruence]|done].
  - intros k [= <-]. eexists. rewrite lookup_app_r, Nat.sub_diag by lia. done.
  - intros k c [[Hk Hne]|[-> ->]]%Hl Hw Hs; [by eapply I4|done].
  - intros Hs. rewrite Hs in Er. discriminate.
Qed.

Lemma inv_accept_closed s : start s = Accepting → tcp_inv s → tcp_inv (set_start Returned s).
Proof.
  intros E [I1 I2 I3 I4 I5 I9 I10 I6 I7 I8]. rewrite E in *.
  constructor; fields; try done. intros k c Hk Hw _. by eapply I4.
Qed.

Lemma inv_track s k : start s = Accepted k → tcp_inv s → tcp_inv (set_start (Tracked k) (trackConn k true s)).
Proof.
  intros E [I1 I2 I3 I4 I5 I9 I10 I6 I7 I8]. rewrite E in *. constructor; fields; try done.
  intros j c Hj Hw _. apply elem_of_union. destruct (decide (j = k)) as [->|Hne].
  - left. by apply elem_of_singleton.
  - right. eapply I4; [done|done|congruence].
Qed.

Lemma inv_add s k : start s = Tracked k → tcp_inv s → tcp_inv (set_start (Added k) (wg_add 1 s)).
Proof.
  intros E [I1 I2 I3 I4 I5 I9 I10 I6 I7 I8]. rewrite E in *. constructor; fields; try done.
  - change (handlers (set_start (Added k) (wg_add 1 s))) with (handlers s). lia.
  - intros j c Hj Hw _. by eapply I4.
Qed.

Lemma inv_spawn s k c :
  start s = Added k → all s !! k = Some c → tcp_inv s →
  tcp_inv (set_start Accepting (set_conn k (set_pc Serving c) s)).
Proof.
  intros E Hk [I1 I2 I3 I4 I5 I9 I10 I6 I7 I8]. rewrite E in *. fields.
  assert (pc c = Unborn) as Hu by by apply (I2 k c Hk).
  assert (handlers (set_conn k (set_pc Serving c) s) = handlers s + 1) as Hh.
  { rewrite (handlers_set k c) by done. unfold counts. rewrite Hu. cbn. lia. }
  assert (∀ j x, <[k := set_pc Serving c]> (all s) !! j = Some x →
    ∃ y, all s !! j = Some y ∧ (waiting x → waiting y) ∧ (pc x = Unborn → pc y = Unborn ∧ j ≠ k)) as Hj.
  { intros j x [(-> & <- & _)|[Hne Hx]]%list_lookup_insert_Some; [exists c|exists x]; split_and!; try done.
    intros [Hcl _]. split; [done|by rewrite Hu]. }
  constructor; fields; try done.
  - change (handlers _) with (handlers (set_conn k (set_pc Serving c) s)). lia.
  - intros j x (y & Hy & _ & Hx)%Hj. split; [|done]. intros [Hyu Hne]%Hx.
    apply (I2 j y Hy) in Hyu. congruence.
  - intros j x (y & Hy & Hw & _)%Hj Hx _. by eapply I4; auto.
  - intros j j' x x' Hst (y & Hy & Hw & _)%Hj (y' & Hy' & Hw' & _)%Hj Hx Hx'. eapply (I6 j j' y y'); auto.
  - intros Hst. specialize (I8 Hst). change (handlers _) with (handlers (set_conn k (set_pc Serving c) s)). lia.
Qed.

Lemma inv_close_listener s :
  stop s = Running → tcp_inv s → tcp_inv (set_stop (PastListener (has_listener s)) (close_ln s)).
Proof.
  intros E [I1 I2 I3 I4 I5 I9 I10 I6 I7 I8]. unfold close_ln, has_listener.
  destruct (ln s) eqn:El; constructor; fields; rewrite ?El; try done;
    (split; [done|]); intros Hb; by apply I5 in Hb.
Qed.

Lemma inv_sweep s b :
  stop s = PastListener b → tcp_inv s → tcp_inv (set_stop (Swept b) (set_all (sweep s) s)).
Proof.
  intros E [I1 I2 I3 I4 I5 I9 I10 I6 I7 I8]. rewrite E in *. fields.
  assert (∀ k c, sweep s !! k = Some c → ∃ y, all s !! k = Some y ∧ pc c = pc y ∧
    (waiting c → waiting y ∧ k ∉ conns s)) as Hl.
  { intros k c. unfold sweep. rewrite list_lookup_imap. intros (y & Hy & ->)%fmap_Some. exists y.
    destruct (decide (k ∈ conns s)); (split; [done|]); split; try done. by intros [? _]. }
  assert (∀ k c, sweep s !! k = Some c → waiting c → start s = Accepted k) as Hlate.
  { intros k c (y & Hy & _ & Hw)%Hl [Hwy Hn]%Hw. destruct (decide (start s = Accepted k)); [done|].
    by destruct Hn; eapply I4. }
  constructor; fields; try done.
  - rewrite I1. f_equal. unfold handlers. fields. f_equal. apply list_eq. intros k.
    unfold sweep. rewrite !list_lookup_fmap, list_lookup_imap. destruct (all s !! k); [|done].
    cbn. by destruct (decide _).
  - intros k c (y & Hy & -> & _)%Hl. by apply I2.
  - intros k [y Hy]%I3. eexists. unfold sweep. rewrite list_lookup_imap, Hy. done.
  - intros k c Hk Hw Hs. by destruct Hs; eapply Hlate.
  - intros Hb. unfold sweep. by rewrite (I9 Hb).
  - intros k k' c c' _ Hk Hk' Hw Hw'. pose proof (Hlate _ _ Hk Hw). pose proof (Hlate _ _ Hk' Hw'). congruence.
  - intros k c k' _ Hk Hw Hp. rewrite (Hlate _ _ Hk Hw) in Hp. by injection Hp.
Qed.

Lemma inv_wait s b : stop s = Swept b → wg s = 0 → tcp_inv s → tcp_inv (set_stop (Stopped b) s).
Proof.
  intros E Hw [I1 I2 I3 I4 I5 I9 I10 I6 I7 I8]. rewrite E in *. fields. pose proof (handlers_nonneg s).
  constructor; fields; try done.
  intros _. change (handlers _) with (handlers s). destruct (start s); cbn in *; lia.
Qed.

(** The steps of a handler, outside its loop and in it. *)
Lemma inv_leaves s k c h st cl conns' :
  tcp_inv s → all s !! k = Some c → pc c ≠ Unborn → pc c ≠ Ended → h ≠ Ended → in_loop h = false →
  (∀ j, j ≠ k → j ∈ conns s → j ∈ conns') →
  tcp_inv (mkServer (addr s) (ln s) (wg s) conns'
    (<[k := mkConn h (lines c) (filled c) (nread c) (echoed c) st cl (gone c)]> (all s)) (start s) (stop s)).
Proof.
  intros Hi Hk Hu He Hh Hl Hc. assert (¬ waiting (mkConn h (lines c) (filled c) (nread c) (echoed c) st cl (gone c))) as Hw
    by by apply not_waiting.
  apply (inv_handler s k c); try done; [cbn; by intros ->|]. intros j [Hj|?]; [by apply Hc|done].
Qed.

Lemma inv_read s k c line :
  tcp_inv s → all s !! k = Some c → pc c = Serving → tcp_inv (set_conn k (take_line line c) s).
Proof.
  intros Hi Hk Hp. apply (inv_handler s k c); rewrite ?Hp; try done; auto.
  - cbn. by destruct (String.eqb _ _).
  - cbn. by destruct (String.eqb _ _).
  - intros [Hcl _]. split; [exact Hcl|by rewrite Hp].
Qed.

Lemma inv_fill s k c n :
  tcp_inv s → all s !! k = Some c → pc c = Serving → tcp_inv (set_conn k (fill_buffer n c) s).
Proof. intros Hi Hk Hp. apply (inv_handler s k c); cbn; rewrite ?Hp; try done; auto. Qed.

Lemma inv_write s k c line failed :
  tcp_inv s → all s !! k = Some c → pc c = Echoing line → tcp_inv (set_conn k (write_back line failed c) s).
Proof.
  intros Hi Hk Hp. apply (inv_handler s k c); rewrite ?Hp; try done; auto; try (by destruct failed).
  intros [Hcl _]. split; [by destruct failed|by rewrite Hp].
Qed.

Lemma server_step_inv s s' : server_step s s' → tcp_inv s → tcp_inv s'.
Proof.
  intros Hs Hi. destruct Hs as [s E|s e E|s E El|s E El|s E El|s k E|s k E|s k c E Hk
    |s k c n Hk Hp _ _ _|s k c line Hk Hp _ _|s k c Hk Hp _ _|s k c line Hk Hp _|s k c line part rest Hk Hp _ _
    |s k c Hk Hp|s k c Hk Hp|s k c Hk Hp
    |s E|s b E|s b E Hw].
  - by apply inv_listen.
  - by apply inv_listen_fails.
  - by apply inv_accept.
  - done.
  - by apply inv_accept_closed.
  - by apply inv_track.
  - by apply inv_add.
  - by apply inv_spawn.
  - by apply inv_fill.
  - by apply inv_read.
  - apply (inv_leaves s k c); rewrite ?Hp; auto.
  - by eapply inv_write.
  - by eapply inv_write.
  - apply (inv_leaves s k c); rewrite ?Hp; auto.
  - apply (inv_leaves s k c); rewrite ?Hp; try done. intros j Hj Hin. set_solver.
  - apply (inv_set s k c (set_pc Ended c) (wg s + -1)); rewrite ?Hp; try done.
    + intros Hw. by apply not_waiting in Hw.
    + rewrite (counts_1 c) by congruence. cbn. lia.
    + unfold counts. rewrite Hp. done.
  - by apply inv_close_listener.
  - by apply inv_sweep.
  - by apply inv_wait.
Qed.

Lemma client_step_inv s s' : client_step s s' → tcp_inv s → tcp_inv s'.
Proof.
  intros [] Hi; (eapply (inv_set _ _ c); [done|done|done|done| |done|auto]);
    (match goal with |- _ = counts ?c' - _ => change (counts c') with (counts c) end); lia.
Qed.

(** What holds of a new server and is kept by every step, holds always. *)
Lemma reachable_ind (P : Server → Prop) a s :
  P (NewServer a) → (∀ s s', tcp_inv s → step s s' → P s → P s') →
  rtc step (NewServer a) s → tcp_inv s ∧ P s.
Proof.
  intros H0 Hstep Hr. assert (tcp_inv (NewServer a) ∧ P (NewServer a)) as Hi.
  { split; [|done]. by constructor. }
  remember (NewServer a) as s0. clear Heqs0 H0. induction Hr as [|s1 s2 s3 Hs _ IH]; [done|].
  destruct Hi as [Hi Hp]. apply IH. split; [|by eapply Hstep].
  destruct Hs; [by eapply server_step_inv|by eapply client_step_inv].
Qed.

Lemma reachable_tcp a s : rtc step (NewServer a) s → tcp_inv s.
Proof. by apply (reachable_ind (λ _, True)). Qed.

(** ** What is echoed *)

Definition is_exit (line : string) : Prop := TrimSpace line = "exit"%string.

Record conn_ok (c : connection) : Prop := {
  ok_read : (nread c ≤ filled c ≤ length (lines c))%nat;
  ok_echo : echoed c `prefix_of` take (nread c) (lines c);
  ok_exit : Forall (λ l, ¬ is_exit l) (echoed c);
  ok_loop : pc c = Unborn ∨ pc c = Serving → echoed c = take (nread c) (lines c);
  ok_line l : pc c = Echoing l → ¬ is_exit l ∧ echoed c ++ [l] = take (nread c) (lines c);
  ok_why : pc c = Closing → closed c = true ∨ gone c = true ∨
    ∃ l, lines c !! length (echoed c) = Some l ∧ is_exit l;
  ok_whole : in_loop (pc c) = true → stump c = ""%string;
  ok_stump : stump c = ""%string ∨
    ∃ l rest, lines c !! length (echoed c) = Some l ∧ ¬ is_exit l ∧ l = (stump c +:+ rest)%string;
}.

(** Fields that do not matter for it. *)
Lemma conn_ok_same c h cl g :
  conn_ok c → (h = Unborn ∨ h = Serving → pc c = Unborn ∨ pc c = Serving) →
  (∀ l, h = Echoing l → pc c = Echoing l) →
  (h = Closing → cl = true ∨ g = true ∨
     pc c = Closing ∧ cl = closed c ∧ (gone c = true → g = true)) →
  conn_ok (mkConn h (lines c) (filled c) (nread c) (echoed c) (stump c) cl g).
Proof.
  intros [C1 C2 C3 C4 C6 C5 C7 C8] Hh Hl Hw. constructor; cbn; auto.
  - intros Hc. destruct (Hw Hc) as [?|[?|(Hp & -> & Hg)]]; [by left|by right; left|].
    destruct (C5 Hp) as [?|[?|?]]; auto.
  - intros Hin. apply C7. destruct h; try discriminate Hin.
    + destruct Hh as [-> | ->]; auto.
    + destruct Hh as [-> | ->]; auto.
    + by rewrite (Hl line).
Qed.

Lemma fill_ok n c :
  conn_ok c → pc c = Serving → (filled c < n ≤ length (lines c))%nat → conn_ok (fill_buffer n c).
Proof. intros [C1 C2 C3 C4 C6 C5 C7 C8] Hp Hn. constructor; cbn; auto. lia. Qed.

Lemma take_line_ok line c :
  conn_ok c → pc c = Serving → (nread c < filled c)%nat → lines c !! nread c = Some line →
  conn_ok (take_line line c).
Proof.
  intros [C1 C2 C3 C4 C6 C5 C7 C8] Hp Hlf Hl. rewrite Hp in C7. specialize (C7 eq_refl). specialize (C4 (or_intror Hp)).
  pose proof (lookup_lt_Some _ _ _ Hl) as Hlt. pose proof (take_S_r _ _ _ Hl) as Ht.
  assert (length (echoed c) = nread c) as Hn by (rewrite C4, length_take; lia).
  unfold take_line. destruct (String.eqb_spec (TrimSpace line) "exit") as [He|He];
    constructor; cbn; try lia; rewrite ?Ht, ?C4; try done; try (by eexists); rewrite <-?C4; try done;
    try (by intros [?|?]); auto.
  - intros _. right; right. exists line. by rewrite Hn.
  - by intros l [= <-].
Qed.

Lemma write_ok line c : conn_ok c → pc c = Echoing line → conn_ok (write_back line None c).
Proof.
  intros [C1 C2 C3 C4 C6 C5 C7 C8] Hp. rewrite Hp in C7. specialize (C7 eq_refl).
  destruct (C6 line Hp) as [He Ht]. constructor; cbn; try done; auto.
  - by rewrite Ht.
  - by apply Forall_app; repeat constructor.
Qed.

Lemma write_fails_ok line part rest c :
  conn_ok c → pc c = Echoing line → closed c = true ∨ gone c = true → line = (part +:+ rest)%string →
  conn_ok (write_back line (Some part) c).
Proof.
  intros [C1 C2 C3 C4 C6 C5 C7 C8] Hp Hor Hl.
  destruct (C6 line Hp) as [He Ht]. constructor; cbn; try done; auto; try (by intros [?|?]).
  - intros _. destruct Hor; auto.
  - right. exists line, rest. split_and!; [|done..].
    assert (length (echoed c ++ [line]) = length (take (nread c) (lines c))) as Hlen by by rewrite Ht.
    rewrite length_app, length_take in Hlen. cbn in Hlen.
    eapply prefix_lookup_Some; [|apply prefix_take]. rewrite <-Ht. by apply list_lookup_middle.
Qed.

Lemma client_says_ok c line :
  conn_ok c →
  conn_ok (mkConn (pc c) (lines c ++ [line]) (filled c) (nread c) (echoed c) (stump c) (closed c) (gone c)).
Proof.
  intros [C1 C2 C3 C4 C6 C5 C7 C8].
  constructor; cbn; rewrite ?length_app, ?take_app_le by lia; auto; [lia|..].
  - intros Hp. destruct (C5 Hp) as [?|[?|(l & Hl & ?)]]; [auto..|].
    right; right. exists l. split; [by apply lookup_app_l_Some|done].
  - destruct C8 as [?|(l & rest & Hl & ?)]; [by left|].
    right. exists l, rest. split; [by apply lookup_app_l_Some|done].
Qed.

Lemma server_step_conn_ok s s' :
  tcp_inv s → server_step s s' → Forall conn_ok (all s) → Forall conn_ok (all s').
Proof.
  intros Hi Hs Hf. assert (∀ k c, all s !! k = Some c → conn_ok c) as Hk by (intros k c; by eapply Forall_lookup_1).
  destruct Hs as [s E|s e E|s E El|s E El|s E El|s k E|s k E|s k c E Hl
    |s k c n Hl Hp Hfn Hcl Hn|s k c line Hl Hp Hlt Hin|s k c Hl Hp Hfn Hor|s k c line Hl Hp Hcl
    |s k c line part rest Hl Hp Hor Hpart|s k c Hl Hp|s k c Hl Hp|s k c Hl Hp
    |s E|s b E|s b E Hw]; fields; try done;
    try (apply Forall_insert; [done|]; specialize (Hk k c Hl)).
  - apply Forall_app. split; [done|]. constructor; [|done]. constructor; cbn; [lia|done|by constructor|done..|by left].
  - apply (conn_ok_same c); [done| |done..].
    intros _. left. apply (i_unborn _ Hi k c Hl). by rewrite E.
  - by apply fill_ok.
  - by apply take_line_ok.
  - apply (conn_ok_same c); [done|by intros [?|?]|done|]. tauto.
  - by apply write_ok.
  - by eapply write_fails_ok.
  - apply (conn_ok_same c); [done|by intros [?|?]|done..].
  - apply (conn_ok_same c); [done|by intros [?|?]|done..].
  - apply (conn_ok_same c); [done|by intros [?|?]|done..].
  - unfold close_ln. by destruct (has_listener s).
  - unfold sweep. apply Forall_lookup. intros k c. rewrite list_lookup_imap.
    intros (y & Hy & ->)%fmap_Some. destruct (decide _); [|by eapply Hk].
    apply (conn_ok_same y); [by eapply Hk|done|done|by left].
Qed.

Lemma step_conn_ok s s' : tcp_inv s → step s s' → Forall conn_ok (all s) → Forall conn_ok (all s').
Proof.
  intros Hi [Hs|Hs] Hf; [by eapply server_step_conn_ok|].
  assert (∀ k c, all s !! k = Some c → conn_ok c) as Hk by (intros k c; by eapply Forall_lookup_1).
  destruct Hs as [s k c line Hl|s k c Hl]; (apply Forall_insert; [done|]).
  - apply client_says_ok. by eapply Hk.
  - apply (conn_ok_same c); [by eapply Hk|done|done|]. by right; left.
Qed.

Lemma reachable_conns_ok a s : rtc step (NewServer a) s → Forall conn_ok (all s).
Proof. intros Hr. apply (reachable_ind (λ s, Forall conn_ok (all s)) a s); [done|apply step_conn_ok|done]. Qed.

(** C37: Every client gets back a prefix of its own lines, as they were and in order, up to its
    first "exit"; a handler at the read of its loop has echoed every line it read, one at the
    write all but the last, and one that left the loop did so for an "exit", a closed
    connection or a client that has gone; what a write that failed has sent is the beginning
    of the next line. *)
Theorem lines_echoed a s k c :
  rtc step (NewServer a) s → all s !! k = Some c →
  echoed c `prefix_of` lines c ∧ Forall (λ l, ¬ is_exit l) (echoed c) ∧
  (pc c = Serving → echoed c = take (nread c) (lines c)) ∧
  (∀ l, pc c = Echoing l → echoed c ++ [l] = take (nread c) (lines c)) ∧
  (pc c = Closing → closed c = true ∨ gone c = true ∨
     ∃ l, lines c !! length (echoed c) = Some l ∧ is_exit l) ∧
  (stump c = ""%string ∨
     ∃ l rest, lines c !! length (echoed c) = Some l ∧ ¬ is_exit l ∧ l = (stump c +:+ rest)%string).
Proof.
  intros Hr Hk. destruct (Forall_lookup_1 _ _ _ _ (reachable_conns_ok a s Hr) Hk) as [C1 C2 C3 C4 C6 C5 C7 C8].
  split_and!; auto.
  - transitivity (take (nread c) (lines c)); [done|]. apply prefix_take.
  - intros l Hl. by apply C6.
Qed.

(** * Shutting down *)

(** What [ListenMultiThreaded] goes through is what the server goes through. *)
Lemma process_server p s0 :
  rtc main_step (Live s0) p → rtc step s0 (server_of p) ∧
  match p with
  | Live _ => True
  | Exited code s => code = 1 ∧ (∃ e, start s = Failed e) ∨ code = 0 ∧ ∃ b, stop s = Stopped b
  end.
Proof.
  intros Hr. remember (Live s0) as q eqn:Eq. revert s0 Eq.
  induction Hr as [q|q1 q2 q3 Hs Hr IH]; intros s0 ->; [done|].
  inversion Hs as [? s' Hst|? e E|? b E]; subst.
  - destruct (IH s' eq_refl) as [Hrs Hp]. split; [by eapply rtc_l|done].
  - inversion Hr as [|? ? ? Hs' _]; subst; [|inversion Hs']. split; [done|]. left. eauto.
  - inversion Hr as [|? ? ? Hs' _]; subst; [|inversion Hs']. split; [done|]. right. eauto.
Qed.

(** C38: The process, until it ends: the wait group counts the handlers that run (and one [Start] is
    about to start), so it never turns negative; once [Stop] has closed the listener and the
    connections at most one is still waiting for its client; when the process returns after
    that, at most one handler runs or is to be started, that of the connection accepted while
    [Stop] began; and when it dies of an error, no connection was ever accepted. *)
Theorem shutdown p :
  rtc main_step ListenMultiThreaded p →
  let s := server_of p in
  0 ≤ wg s ∧ wg s = handlers s + added (start s) ∧
  (cleaned (stop s) = true → ln s = Closed ∧ ∀ k k' c c',
     all s !! k = Some c → all s !! k' = Some c' → waiting c → waiting c' → k = k') ∧
  match p with
  | Live _ => True
  | Exited code s =>
      code = 1 ∧ all s = [] ∨
      code = 0 ∧ ∃ b, stop s = Stopped b ∧
        (b = true → handlers s + (if pending (start s) is Some _ then 1 else 0) ≤ 1)
  end.
Proof.
  intros [Hr Hp]%process_server s. pose proof (reachable_tcp _ _ Hr) as [I1 I2 I3 I4 I5 I9 I10 I6 I7 I8].
  fold s in I1, I2, I3, I4, I5, I6, I7, I8, I9, I10. pose proof (handlers_nonneg s).
  split; [destruct (start s); cbn in *; lia|]. split; [done|]. split.
  - intros Hc. split; [apply I10; by destruct (stop s)|]. intros k k' c c'. by apply I6.
  - destruct p as [|code s']; [done|]. subst s. cbn [server_of] in *.
    destruct Hp as [(-> & e & E)|(-> & b & E)]; [left|right]; (split; [done|]).
    + apply I9. by rewrite E.
    + exists b. split; [done|]. intros ->. by apply I8.
Qed.

(** The way of a handler to its end. *)
Definition finishes (k : nat) (s : Server) : Prop :=
  ∃ s' c', rtc server_step s s' ∧ all s' = <[k := c']> (all s) ∧ pc c' = Ended ∧
    wg s' = wg s - 1 ∧ stop s' = stop s ∧ start s' = start s.

Lemma finishes_after k s s1 c1 :
  server_step s s1 → all s1 = <[k := c1]> (all s) → wg s1 = wg s → stop s1 = stop s →
  start s1 = start s → finishes k s1 → finishes k s.
Proof.
  intros Hs Ha Hw Hst Hsa (s' & c' & Hr & Ha' & Hp & Hw' & Hst' & Hsa').
  exists s', c'. split; [by eapply rtc_l|]. rewrite Ha', Ha, list_insert_insert_eq.
  split_and!; congruence || lia || done.
Qed.

Lemma handler_ends s k c :
  all s !! k = Some c → conn_ok c → counts c = 1 → (waiting c → gone c = true) → finishes k s.
Proof.
  intros Hk Hok Hc Hs.
  assert (∀ s c, all s !! k = Some c → pc c = Finishing → finishes k s) as H1.
  { intros s1 c1 Hk1 Hp1. eexists _, (set_pc Ended c1). split; [apply rtc_once; by eapply (wg_done s1 k c1)|].
    cbn. by split_and!. }
  assert (∀ s c, all s !! k = Some c → pc c = Untracking → finishes k s) as H2.
  { intros s1 c1 Hk1 Hp1. pose proof (lookup_lt_Some _ _ _ Hk1).
    eapply finishes_after; [by apply (untrack s1 k c1)|done..|].
    by eapply H1; [apply list_lookup_insert_eq|]. }
  assert (∀ s c, all s !! k = Some c → pc c = Closing → finishes k s) as H3.
  { intros s1 c1 Hk1 Hp1. pose proof (lookup_lt_Some _ _ _ Hk1).
    eapply finishes_after; [by apply (close_conn s1 k c1)|done..|].
    by eapply H2; [apply list_lookup_insert_eq|]. }
  pose proof (lookup_lt_Some _ _ _ Hk).
  assert (in_loop (pc c) = true → closed c = true ∨ gone c = true) as Hor.
  { intros Hl. destruct (closed c) eqn:Hcl; [by left|right]. by apply Hs. }
  assert (∀ s c line, all s !! k = Some c → pc c = Echoing line → closed c = true ∨ gone c = true →
    finishes k s) as H4.
  { intros s1 c1 line Hk1 Hp1 Hor1. pose proof (lookup_lt_Some _ _ _ Hk1).
    eapply finishes_after; [by apply (write_fails s1 k c1 line "" line)|done..|].
    by eapply H3; [apply list_lookup_insert_eq|]. }
  destruct (pc c) as [| |line| | | |] eqn:Hp; unfold counts in Hc; rewrite Hp in Hc; try lia; eauto.
  pose proof (ok_read c Hok) as Hf. destruct (decide (filled c = nread c)) as [He|Hne].
  - eapply finishes_after; [by apply (read_fails s k c); auto|done..|].
    by eapply H3; [apply list_lookup_insert_eq|].
  - destruct (lookup_lt_is_Some_2 (lines c) (nread c)) as [line Hl]; [lia|].
    eapply finishes_after; [apply (read s k c line); [done|done|lia|done]|done..|].
    destruct (String.eqb (TrimSpace line) "exit") eqn:Hx.
    + eapply H3; [by apply list_lookup_insert_eq|]. cbn. by rewrite Hx.
    + eapply (H4 _ _ line); [by apply list_lookup_insert_eq|cbn; by rewrite Hx|by apply Hor].
Qed.

Lemma counts_0_1 c : counts c = 0 ∨ counts c = 1.
Proof. unfold counts. destruct (pc c); auto. Qed.

(** A handler that runs, if the count says that there is one. *)
Lemma some_handler l : 0 < zsum (counts <$> l) → ∃ k c, l !! k = Some c ∧ counts c = 1.
Proof.
  induction l as [|c l IH]; csimpl; [lia|]. intros Hz. destruct (counts_0_1 c) as [E|E]; [|by exists 0%nat, c].
  destruct IH as (k & c' & ? & ?); [lia|]. by exists (S k), c'.
Qed.

(** C39: Once [Stop] has closed the connections, [Start] is between two connections and no
    client is being waited for, [Stop] can return without any client's help. *)
Theorem stop_returns a s b :
  rtc step (NewServer a) s → stop s = Swept b → pending (start s) = None →
  (∀ k c, all s !! k = Some c → waiting c → gone c = true) →
  ∃ s', rtc server_step s s' ∧ stop s' = Stopped b.
Proof.
  intros Hr. pose proof (reachable_tcp a s Hr) as Hi. pose proof (reachable_conns_ok a s Hr) as Hok.
  clear Hr. remember (Z.to_nat (wg s)) as n eqn:Hn.
  revert s Hi Hok Hn. induction n as [|n IH]; intros s Hi Hok Hn Hst Hp Hw; pose proof (handlers_nonneg s);
    pose proof (i_wg s Hi) as Hwg; assert (added (start s) = 0) as Ha by (by destruct (start s)).
  - eexists. split; [apply rtc_once, (wait s b); [done|lia]|done].
  - destruct (some_handler (all s)) as (k & c & Hk & Hc); [unfold handlers in *; lia|].
    destruct (handler_ends s k c Hk (Forall_lookup_1 _ _ _ _ Hok Hk) Hc (Hw k c Hk))
      as (s1 & c' & Hr1 & Hall & Hend & Hwg1 & Hst1 & Hs1).
    assert (tcp_inv s1 ∧ Forall conn_ok (all s1)) as [Hi1 Hok1].
    { clear -Hi Hok Hr1. induction Hr1 as [|a b d Hs _ IH]; [done|].
      apply IH; [by eapply server_step_inv|by eapply server_step_conn_ok]. }
    destruct (IH s1) as (s2 & Hr2 & H2).
    + done.
    + done.
    + lia.
    + congruence.
    + by rewrite Hs1.
    + intros j x. rewrite Hall. intros [(-> & <- & _)|[_ Hj]]%list_lookup_insert_Some [Hcl Hpc]; [|by apply (Hw j x)].
      by rewrite Hend in Hpc.
    + exists s2. split; [by transitivity s1|done].
Qed.

(** ** Runs *)

Lemma by_server s1 s2 s3 : server_step s1 s2 → rtc step s2 s3 → rtc step s1 s3.
Proof. intros. eapply rtc_l; [by left|done]. Qed.
Lemma by_client s1 s2 s3 : client_step s1 s2 → rtc step s2 s3 → rtc step s1 s3.
Proof. intros. eapply rtc_l; [by right|done]. Qed.

(** The next steps of a concrete run, by their rules. *)
#[local] Tactic Notation "by_rule" uconstr(r) := eapply by_server; [eapply r; first [reflexivity | cbn; lia]|].
#[local] Ltac connects :=
  by_rule accept; by_rule track; by_rule add; by_rule spawn.
#[local] Ltac stops := by_rule close_listener; by_rule sweep_conns.

(** A connection accepted when [Stop] begins, tracked after the sweep. *)
Definition late : Server :=
  mkServer ":8080" Closed 1 ({[0%nat]} ∪ ∅) [mkConn Serving [] 0 0 [] "" false false] Returned (Swept true).

Lemma late_reached : rtc step (NewServer ":8080") late.
Proof.
  by_rule listen. by_rule accept. stops. by_rule track. by_rule add. by_rule spawn.
  by_rule accept_closed. apply rtc_refl.
Qed.

(** The shutdown can hang: with a connection tracked after the sweep nothing in the server
    can move, so [Stop] waits for as long as that client keeps silent. *)
Theorem stop_may_hang :
  rtc step (NewServer ":8080") late ∧ stop late = Swept true ∧ ∀ s', ¬ server_step late s'.
Proof.
  split; [exact late_reached|]. split; [done|]. intros s' Hs.
  inversion Hs as [s E|s e E|s E El|s E El|s E El|s k E|s k E|s k c E Hl
    |s k c n Hl Hp Hfn Hcl Hn|s k c line Hl Hp Hlt Hin|s k c Hl Hp Hfn Hor|s k c line Hl Hp Hcl
    |s k c line part rest Hl Hp Hor Hpart|s k c Hl Hp|s k c Hl Hp|s k c Hl Hp
    |s E|s b E|s b E Hw]; subst s; try discriminate;
    cbn in Hl; apply list_lookup_singleton_Some in Hl as [-> <-]; try discriminate.
  - cbn in Hn. lia.
  - by destruct Hor.
Qed.

(** A [Stop] that comes before [Start] listens finds no listener: it returns, and the server
    listens all the same and serves a client. *)
Definition early : Server :=
  mkServer ":8080" Open 1 ({[0%nat]} ∪ ∅) [mkConn Serving ["hello"%string] 1 1 ["hello"%string] "" false false]
    Accepting (Stopped false).

Theorem stop_too_early : rtc step (NewServer ":8080") early.
Proof.
  stops. by_rule wait. by_rule listen. connects.
  eapply by_client; [by eapply (client_sends _ 0 _ "hello")|].
  by_rule (fill _ 0 _ 1). by_rule (read _ 0). by_rule (write _ 0 _ "hello"). apply rtc_refl.
Qed.

(** A server that stops with a client connected. *)
Definition swept : Server :=
  mkServer ":8080" Closed 1 ({[0%nat]} ∪ ∅) [mkConn Serving [] 0 0 [] "" true false] Returned (Swept true).

Lemma stop_returns_witness : ∃ s', rtc server_step swept s' ∧ stop s' = Stopped true.
Proof.
  apply (stop_returns ":8080" swept true); [|done|done|].
  - by_rule listen. connects. stops. by_rule accept_closed. apply rtc_refl.
  - intros k c Hk [Hcl _]. apply list_lookup_singleton_Some in Hk as [_ <-]. discriminate.
Defined.

Lemma shutdown_witness :
  0 ≤ wg late ∧ wg late = handlers late + added (start late) ∧
  (cleaned (stop late) = true → ln late = Closed ∧ ∀ k k' c c',
     all late !! k = Some c → all late !! k' = Some c' → waiting c → waiting c' → k = k') ∧ True.
Proof.
  apply (shutdown (Live late)). unfold ListenMultiThreaded.
  apply (rtc_congruence Live _ _ _ (λ s s', main_runs s s') late_reached).
Defined.

(** A client that said hello and then left. *)
Definition greeted : Server :=
  mkServer ":8080" Open 1 ({[0%nat]} ∪ ∅) [mkConn Serving ["hello"%string] 1 1 ["hello"%string] "" false true]
    Accepting Running.

Lemma lines_echoed_witness :
  ["hello"%string] `prefix_of` ["hello"%string] ∧ Forall (λ l, ¬ is_exit l) ["hello"%string] ∧
  (Serving = Serving → ["hello"%string] = ["hello"%string]) ∧
  (∀ l, Serving = Echoing l → ["hello"%string] ++ [l] = ["hello"%string]) ∧
  (Serving = Closing → false = true ∨ true = true ∨
     ∃ l, ["hello"%string] !! 1%nat = Some l ∧ is_exit l) ∧
  (""%string = ""%string ∨
     ∃ l rest, ["hello"%string] !! 1%nat = Some l ∧ ¬ is_exit l ∧ l = ("" +:+ rest)%string).
Proof.
  apply (lines_echoed ":8080" greeted 0 (mkConn Serving ["hello"%string] 1 1 ["hello"%string] "" false true)); [|done].
  by_rule listen. connects.
  eapply by_client; [by eapply (client_sends _ 0 _ "hello")|].
  by_rule (fill _ 0 _ 1). by_rule (read _ 0). by_rule (write _ 0 _ "hello").
  eapply by_client; [by eapply (client_leaves _ 0)|]. apply rtc_refl.
Defined.

End TcpServer.
