(* ===== verification/TcpLoops.v ===== *)
(** [tcp_servers/single_threaded.go] and [tcp_servers/single_threaded_with_epoll.go]: the echo
    servers without goroutines.  The first serves one connection after the other; the
    second answers the events of a kernel queue.  The kernel is a parameter with the
    laws of non-blocking sockets. *)

From Stdlib Require Import ZArith Lia Ascii String.
From stdpp Require Import gmap strings list fin_maps sets.
From S2P Require Import Prelude GoLib.

(** * single_threaded.go *)

Module OneByOne.

(** [handleConnection]: the responses to the lines of a client; write errors are ignored,
    and a line without its newline is not answered. *)
Fixpoint handleConnection (lines : list string) : list string :=
  match lines with
  | [] => []
  | message :: lines =>
      let message := TrimSpace message in
      let response := "Echo: " +:+ message +:+ String "010"%char "" in
      response :: if String.eqb message "QUIT" then [] else handleConnection lines
  end.

(** [Listen]: the connections in the order they are accepted; an [Accept] that fails is
    tried again. *)
Definition Listen (accepts : list (option (list string))) : list (list string) :=
  omap (fmap handleConnection) accepts.

(** The responses answer the lines in order, up to the first "QUIT" and including it. *)
Definition response (line : string) : string := "Echo: " +:+ TrimSpace line +:+ String "010"%char "".

Lemma handleConnection_spec lines :
  ∃ n, handleConnection lines = response <$> take n lines ∧
    (∀ i l, (S i < n)%nat → lines !! i = Some l → TrimSpace l ≠ "QUIT"%string) ∧
    ((n < length lines)%nat → ∃ l, lines !! pred n = Some l ∧ TrimSpace l = "QUIT"%string).
Proof.
  induction lines as [|l lines (n & IH1 & IH2 & IH3)]; [exists 0%nat; split_and!; [done|..]; intros; cbn in *; lia|]. cbn [handleConnection].
  destruct (String.eqb_spec (TrimSpace l) "QUIT") as [E|E].
  - exists 1%nat. split; [done|]. split; [intros; lia|]. intros _. by exists l.
  - exists (S n). split; [by rewrite IH1|]. split.
    + intros [|i] l' Hi Hl; [by injection Hl as <-|]. apply (IH2 i l'); [lia|done].
    + intros Hn. cbn in Hn. destruct n as [|n]; [|apply IH3; lia]. exists l.
      destruct lines as [|l' lines]; [cbn in Hn; lia|]. cbn in IH1. discriminate.
Qed.

End OneByOne.

(** * single_threaded_with_epoll.go *)

Module EventLoop.

Definition bufSize : Z := 4096.

Inductive errno := EAGAIN | EINTR | EOther.
#[export] Instance errno_eq_dec : EqDecision errno.
Proof. solve_decision. Defined.

(** * The kernel *)

(** The calls of golang.org/x/sys/unix the loop makes; [Change fd add] is the [Kevent] call
    that adds the descriptor to the queue, or takes it away. *)
Class Kernel (K : Type) := {
  Read : Z → K → (bytes + errno) * K;
  Write : Z → bytes → K → (nat + errno) * K;
  Accept : Z → K → (Z + errno) * K;
  SetNonblock : Z → K → (unit + errno) * K;
  Change : Z → bool → K → (unit + errno) * K;
  Close : Z → K → (unit + errno) * K;
}.

(** A client's socket: the bytes that ever came in, those not read yet, whether the peer has
    closed its end, and the bytes that went out. *)
Record sock := mkSock { said : bytes; pending : bytes; peer_closed : bool; out : bytes }.

(** What POSIX documents of non-blocking sockets.  [socks]: the open client sockets whose
    connection is intact; [waiting]: the connections to be accepted.  A read gives what
    is pending, at most a buffer of it, nothing at the end, or EAGAIN; [taken] is how
    much of a write is taken. *)
Class KernelLaws (K : Type) `{Kernel K} := {
  socks : K → gmap Z sock;
  waiting : K → list sock;
  taken : K → Z → bytes → nat;
  read_law fd k s r k' : Read fd k = (r, k') → socks k !! fd = Some s →
    waiting k' = waiting k ∧
    match pending s with
    | [] => r = (if peer_closed s then inl [] else inr EAGAIN) ∧ socks k' = socks k
    | _ => ∃ b rest, r = inl b ∧ b ≠ [] ∧ len b ≤ bufSize ∧ pending s = b ++ rest ∧
        socks k' = <[fd := mkSock (said s) rest (peer_closed s) (out s)]> (socks k)
    end;
  write_law fd b k s r k' : Write fd b k = (r, k') → socks k !! fd = Some s →
    waiting k' = waiting k ∧
    socks k' = <[fd := mkSock (said s) (pending s) (peer_closed s) (out s ++ take (taken k fd b) b)]> (socks k);
  accept_law lfd k r k' : Accept lfd k = (r, k') →
    match r with
    | inl cfd => socks k !! cfd = None ∧ ∃ s, waiting k = s :: waiting k' ∧ socks k' = <[cfd := s]> (socks k)
    | inr e => socks k' = socks k ∧ waiting k' = waiting k
    end;
  nonblock_law fd k r k' : SetNonblock fd k = (r, k') → socks k' = socks k ∧ waiting k' = waiting k;
  change_law fd b k r k' : Change fd b k = (r, k') → socks k' = socks k ∧ waiting k' = waiting k;
  close_law fd k r k' : Close fd k = (r, k') → socks k' = delete fd (socks k) ∧ waiting k' = waiting k;
}.

(** * The loop *)

(** An event of the queue: the descriptor, and the EV_EOF flag; the kernel sets it when the
    peer has closed, even if there is data left to read. *)
Record event := mkEvent { ident : Z; eof : bool }.

Section loop.
Context `{Kernel K}.

Definition kqAddRead (fd : Z) (k : K) : K := (Change fd true k).2.
Definition kqDelRead (fd : Z) (k : K) : K := (Change fd false k).2.

(** The end of a client. *)
Definition hang_up (fd : Z) (k : K) : K := (Close fd (kqDelRead fd k)).2.

(** The reads and writes of a ready client; [None]: out of fuel. *)
Fixpoint drain (fuel : nat) (readyFD : Z) (k : K) : option K :=
  match fuel with
  | O => None
  | S fuel =>
      let '(r, k) := Read readyFD k in
      match r with
      | inr rerr => if decide (rerr = EAGAIN) then Some k else Some (hang_up readyFD k)
      | inl [] => Some (hang_up readyFD k)
      | inl b => drain fuel readyFD (Write readyFD b k).2
      end
  end.

(** The accepts of a ready listener, until one fails. *)
Fixpoint accept_all (fuel : nat) (fd : Z) (k : K) : option K :=
  match fuel with
  | O => None
  | S fuel =>
      let '(r, k) := Accept fd k in
      match r with
      | inr _ => Some k
      | inl cfd => accept_all fuel fd (kqAddRead cfd (SetNonblock cfd k).2)
      end
  end.

Definition handle_event (fuel : nat) (fd : Z) (ev : event) (k : K) : option K :=
  if ident ev =? fd then accept_all fuel fd k
  else if eof ev then Some (hang_up (ident ev) k)
  else drain fuel (ident ev) k.

(** The loop over the events of one [Kevent]; [fd] is the listener. *)
Fixpoint handle_events (fuel : nat) (fd : Z) (events : list event) (k : K) : option K :=
  match events with
  | [] => Some k
  | ev :: events => k ← handle_event fuel fd ev k; handle_events fuel fd events k
  end.
End loop.

(** * What the loop does *)

Section laws.
Context `{KernelLaws K}.

(** What is left of a drained socket: nothing, if the peer has closed. *)
Definition drained (s : sock) : option sock :=
  if peer_closed s then None else Some (mkSock (said s) [] false (out s ++ pending s)).

Lemma hang_up_spec fd k :
  socks (hang_up fd k) = delete fd (socks k) ∧ waiting (hang_up fd k) = waiting k.
Proof.
  unfold hang_up, kqDelRead. destruct (Change fd false k) as [r k1] eqn:E1. cbn.
  destruct (Close fd k1) as [r' k2] eqn:E2. cbn.
  destruct (close_law _ _ _ _ E2) as [-> ->]. by destruct (change_law _ _ _ _ _ E1) as [-> ->].
Qed.

(** A read takes a byte at least, so the loop ends, whatever the writes take. *)
Lemma drain_ends fuel fd k s :
  socks k !! fd = Some s → (length (pending s) < fuel)%nat → is_Some (drain fuel fd k).
Proof.
  revert k s. induction fuel as [|fuel IH]; intros k s Hs Hf; [lia|]. cbn [drain].
  destruct (Read fd k) as [r k1] eqn:Er. pose proof (read_law _ _ _ _ _ Er Hs) as [_ Hr].
  destruct (pending s) as [|b0 p] eqn:Ep.
  - destruct Hr as [-> _]. destruct (peer_closed s); [by eexists|]. rewrite decide_True by done. by eexists.
  - destruct Hr as (b & rest & -> & Hb & _ & Hp & Hk1). destruct b as [|x b]; [done|].
    destruct (Write fd (x :: b) k1) as [r2 k2] eqn:Ew. cbn [snd].
    destruct (write_law _ _ _ (mkSock (said s) rest (peer_closed s) (out s)) _ _ Ew) as [_ Hk2];
      [rewrite Hk1; apply lookup_insert_eq|].
    eapply IH; [rewrite Hk2; apply lookup_insert_eq|]. cbn. apply (f_equal length) in Hp. rewrite length_app in Hp. cbn in *. lia.
Qed.

Hypothesis taken_all : ∀ k fd b, taken k fd b = length b.

Lemma insert_drained (m : gmap Z sock) fd s s' :
  partial_alter (λ _, s') fd (<[fd := s]> m) = partial_alter (λ _, s') fd m.
Proof.
  apply map_eq. intros j. destruct (decide (j = fd)) as [->|Hne].
  - by rewrite !lookup_partial_alter_eq.
  - rewrite !lookup_partial_alter_ne by done. by rewrite lookup_insert_ne.
Qed.

(** What the loop leaves of a client whose writes are taken whole. *)
Lemma drain_spec fuel fd k s :
  socks k !! fd = Some s → (length (pending s) < fuel)%nat →
  ∃ k', drain fuel fd k = Some k' ∧ socks k' = partial_alter (λ _, drained s) fd (socks k) ∧
    waiting k' = waiting k.
Proof.
  revert k s. induction fuel as [|fuel IH]; intros k s Hs Hf; [lia|]. cbn [drain].
  destruct (Read fd k) as [r k1] eqn:Er. pose proof (read_law _ _ _ _ _ Er Hs) as [Hw1 Hr].
  destruct (pending s) as [|b0 p] eqn:Ep.
  - destruct Hr as [-> Hk1]. unfold drained. rewrite Ep. destruct (peer_closed s) eqn:Ec.
    + eexists. split; [reflexivity|]. destruct (hang_up_spec fd k1) as [-> ->]. by rewrite Hk1.
    + rewrite decide_True by done. eexists. split; [reflexivity|]. split; [|done]. rewrite Hk1.
      apply map_eq. intros j. destruct (decide (j = fd)) as [->|Hne].
      * rewrite lookup_partial_alter_eq, Hs, (right_id_L [] (++)). destruct s; cbn in *. by subst.
      * by rewrite lookup_partial_alter_ne.
  - destruct Hr as (b & rest & -> & Hb & _ & Hp & Hk1). destruct b as [|x b]; [done|].
    destruct (Write fd (x :: b) k1) as [r2 k2] eqn:Ew. cbn [snd].
    assert (socks k1 !! fd = Some (mkSock (said s) rest (peer_closed s) (out s))) as Hs1
      by (rewrite Hk1; apply lookup_insert_eq).
    destruct (write_law _ _ _ _ _ _ Ew Hs1) as [Hw2 Hk2]. rewrite taken_all, firstn_all in Hk2.
    cbn [said pending peer_closed out] in Hk2. set (s2 := mkSock _ rest _ _) in Hk2.
    destruct (IH k2 s2) as (k' & E' & Hk' & Hw'); [rewrite Hk2; apply lookup_insert_eq| |].
    { apply (f_equal length) in Hp. rewrite length_app in Hp. unfold s2. cbn in *. lia. }
    exists k'. split; [done|]. split; [|congruence]. rewrite Hk', Hk2, Hk1, !insert_drained.
    assert (drained s2 = drained s) as ->; [|done].
    unfold drained, s2. cbn. rewrite Ep, Hp, <-(assoc_L (++)). done.
Qed.

(** The accepts end: each takes one of the waiting connections. *)
Lemma accept_all_spec fuel fd k :
  (length (waiting k) < fuel)%nat →
  ∃ k', accept_all fuel fd k = Some k' ∧ socks k ⊆ socks k' ∧
    (size (socks k') + length (waiting k') = size (socks k) + length (waiting k))%nat.
Proof.
  revert k. induction fuel as [|fuel IH]; intros k Hf; [lia|]. cbn [accept_all].
  destruct (Accept fd k) as [r k1] eqn:Ea. pose proof (accept_law _ _ _ _ Ea) as Ha.
  destruct r as [cfd|e]; [|destruct Ha as [Hs Hw]; exists k1; by rewrite Hs, Hw].
  destruct Ha as (Hn & s & Hw & Hs). unfold kqAddRead.
  destruct (SetNonblock cfd k1) as [r2 k2] eqn:E2. cbn. destruct (nonblock_law _ _ _ _ E2) as [Hs2 Hw2].
  destruct (Change cfd true k2) as [r3 k3] eqn:E3. cbn. destruct (change_law _ _ _ _ _ E3) as [Hs3 Hw3].
  destruct (IH k3) as (k' & E' & Hsub & Hsz).
  { rewrite Hw3, Hw2. rewrite Hw in Hf. cbn in Hf. lia. }
  exists k'. split; [done|]. rewrite Hs3, Hs2, Hs in Hsub, Hsz. rewrite Hw3, Hw2 in Hsz. split.
  - etransitivity; [|exact Hsub]. by apply insert_subseteq.
  - rewrite Hsz, Hw, map_size_insert_None by done. cbn. lia.
Qed.

(** What an event leaves of its client: EV_EOF closes it unread. *)
Definition served (eof : bool) (s : sock) : option sock := if eof then None else drained s.

Lemma client_event_spec fuel fd ev k s :
  ident ev ≠ fd → socks k !! ident ev = Some s → (length (pending s) < fuel)%nat →
  ∃ k', handle_event fuel fd ev k = Some k' ∧
    socks k' = partial_alter (λ _, served (eof ev) s) (ident ev) (socks k) ∧ waiting k' = waiting k.
Proof.
  intros Hne Hs Hf. unfold handle_event. destruct (Z.eqb_spec (ident ev) fd); [done|].
  destruct (eof ev); [|by apply drain_spec]. eexists. split; [reflexivity|]. apply hang_up_spec.
Qed.

(** A batch of events of different clients, with fuel for each. *)
Definition client_events (fuel : nat) (fd : Z) (es : list event) (k : K) : Prop :=
  NoDup (ident <$> es) ∧
  Forall (λ ev, ident ev ≠ fd ∧ ∃ s, socks k !! ident ev = Some s ∧ (length (pending s) < fuel)%nat) es.
End laws.

(** A batch of client events is handled to the end (the reads and writes of a client stop):
    each client without EV_EOF gets all that was pending back, in order, and is closed
    exactly if it has closed its end; a client with EV_EOF is closed and what was
    pending is lost; no other client is touched. *)
Theorem batch_served `{KernelLaws K} fuel fd es (k : K) :
  (∀ (k : K) fd b, taken k fd b = length b) → client_events fuel fd es k →
  ∃ k', handle_events fuel fd es k = Some k' ∧ waiting k' = waiting k ∧
    (∀ ev s, ev ∈ es → socks k !! ident ev = Some s → socks k' !! ident ev = served (eof ev) s) ∧
    (∀ j, j ∉ ident <$> es → socks k' !! j = socks k !! j).
Proof.
  intros Ht [Hnd Hf]. revert k Hf. induction es as [|ev es IH]; intros k Hf.
  { exists k. split; [done|]. split; [done|]. split; [by intros ? ? ?%not_elem_of_nil|done]. }
  apply Forall_cons in Hf as [(Hne & s & Hs & Hl) Hf]. csimpl in Hnd. apply NoDup_cons in Hnd as [Hni Hnd].
  destruct (client_event_spec Ht fuel fd ev k s Hne Hs Hl) as (k1 & E1 & Hk1 & Hb1).
  assert (∀ j, j ∈ ident <$> es → socks k1 !! j = socks k !! j) as Hsame.
  { intros j Hin. rewrite Hk1, lookup_partial_alter_ne; [done|]. by intros <-. }
  destruct (IH Hnd k1) as (k' & E' & Hb' & Hin' & Hout').
  { eapply Forall_impl; [|by intros ? HH; exact HH]. apply Forall_forall. intros ev' He.
    rewrite Forall_forall in Hf. rewrite Hsame by by apply list_elem_of_fmap_2. by apply Hf. }
  exists k'. cbn [handle_events]. rewrite E1. cbn. split; [done|]. split; [congruence|]. split.
  - intros ev' s' [->|Hin]%elem_of_cons Hs'.
    + rewrite Hout' by done. rewrite Hk1, lookup_partial_alter_eq. by simplify_eq.
    + apply (Hin' ev' s' Hin). rewrite Hsame; [done|]. by apply list_elem_of_fmap_2.
  - intros j Hn. csimpl in Hn. apply not_elem_of_cons in Hn as [Hj Hn]. rewrite Hout' by done.
    by rewrite Hk1, lookup_partial_alter_ne by done.
Qed.

(** * A kernel *)

Record sockets := mkSockets { open : gmap Z sock; queue : list sock }.

#[export] Instance sockets_kernel : Kernel sockets := {
  Read fd k :=
    match open k !! fd with
    | None => (inr EOther, k)
    | Some s =>
        match pending s with
        | [] => (if peer_closed s then inl [] else inr EAGAIN, k)
        | _ =>
            (inl (take 4096 (pending s)),
             mkSockets (<[fd := mkSock (said s) (drop 4096 (pending s)) (peer_closed s) (out s)]> (open k)) (queue k))
        end
    end;
  Write fd b k :=
    (inl (length b), mkSockets (alter (λ s, mkSock (said s) (pending s) (peer_closed s) (out s ++ b)) fd (open k)) (queue k));
  Accept _ k :=
    match queue k with
    | [] => (inr EAGAIN, k)
    | s :: l => let fd := fresh (dom (open k)) in (inl fd, mkSockets (<[fd := s]> (open k)) l)
    end;
  SetNonblock _ k := (inl (), k);
  Change _ _ k := (inl (), k);
  Close fd k := (inl (), mkSockets (delete fd (open k)) (queue k));
}.

#[export] Instance sockets_laws : KernelLaws sockets.
Proof.
  refine {| socks := open; waiting := queue; taken _ _ b := length b |}.
  - intros fd k s r k' E Hs. revert E. unfold Read, sockets_kernel. rewrite Hs.
    destruct (pending s) as [|x p] eqn:Ep; intros [= <- <-]; [done|]. split; [done|].
    exists (take 4096 (x :: p)), (drop 4096 (x :: p)). split_and!; [done|done| |by rewrite take_drop|done].
    unfold len, bufSize. rewrite length_take. lia.
  - intros fd b k s r k' [= <- <-] Hs. split; [done|]. cbn. rewrite firstn_all.
    apply map_eq. intros j. destruct (decide (j = fd)) as [->|Hne].
    + by rewrite lookup_alter_eq, lookup_insert_eq, Hs.
    + by rewrite lookup_alter_ne, lookup_insert_ne.
  - intros lfd k r k'. unfold Accept, sockets_kernel. destruct (queue k) as [|s l] eqn:Eq; intros [= <- <-].
    + by rewrite Eq.
    + split; [apply not_elem_of_dom, is_fresh|]. by exists s.
  - by intros fd k r k' [= <- <-].
  - by intros fd b k r k' [= <- <-].
  - by intros fd k r k' [= <- <-].
Defined.

(** Two clients: one that waits for its echo, one that said something and left. *)
Definition two_clients : sockets :=
  mkSockets (<[5 := mkSock (bytes_of "hello") (bytes_of "hello") false []]> (<[6 := mkSock (bytes_of "bye") (bytes_of "bye") true []]> ∅)) [].

Lemma batch_served_witness :
  ∃ k' : sockets, handle_events 9 3 [mkEvent 5 false; mkEvent 6 true] two_clients = Some k' ∧
    open k' !! 5 = Some (mkSock (bytes_of "hello") [] false (bytes_of "hello")) ∧ open k' !! 6 = None.
Proof.
  destruct (batch_served (K := sockets) 9 3 [mkEvent 5 false; mkEvent 6 true] two_clients)
    as (k' & E & _ & Hin & _).
  - done.
  - split; [apply (bool_decide_unpack _); vm_compute; exact I|].
    constructor; [|constructor; [|done]]; (split; [done|]).
    + exists (mkSock (bytes_of "hello") (bytes_of "hello") false []). split; [by vm_compute|cbn; lia].
    + exists (mkSock (bytes_of "bye") (bytes_of "bye") true []). split; [by vm_compute|cbn; lia].
  - exists k'. split; [exact E|]. split.
    + apply (Hin (mkEvent 5 false) (mkSock (bytes_of "hello") (bytes_of "hello") false [])); [by left|by vm_compute].
    + apply (Hin (mkEvent 6 true) (mkSock (bytes_of "bye") (bytes_of "bye") true [])); [by right; left|by vm_compute].
Defined.

End EventLoop.
