(* ===== verification/EventServer.v ===== *)
(** [tcp_servers/single_threaded_with_epoll.go], the whole of [ListeningForConnections]: the
    listening socket and the queue are set up, and the loop of [EventLoop] runs on what the
    kernel reports, between arrivals of data and connections. *)

From Stdlib Require Import ZArith Lia Ascii String.
From stdpp Require Import gmap strings list fin_maps sets.
From S2P Require Import Prelude GoLib TcpLoops.
Import EventLoop.

Module EventServer.

(** * The kernel, continued *)

(** The calls of the set-up, and [Kevent] without changes, which waits for events. *)
Class EventKernel (K : Type) := {
  Socket : K → (Z + errno) * K;
  SetReuseAddr : Z → K → (unit + errno) * K;
  Bind : Z → K → (unit + errno) * K;
  Listen : Z → K → (unit + errno) * K;
  Kqueue : K → (Z + errno) * K;
  Kevent : Z → K → (list event + errno) * K;
}.

(** A connection that nobody has read from yet. *)
Definition fresh_sock (s : sock) : Prop := out s = [] ∧ said s = pending s.

(** What happens to the clients while the loop waits: data comes in, peers close, connections
    break, new ones queue up. *)
Definition arrivals (m m' : gmap Z sock) : Prop := ∀ fd s', m' !! fd = Some s' →
  ∃ s more, m !! fd = Some s ∧ out s' = out s ∧ pending s' = pending s ++ more ∧ said s' = said s ++ more.

(** [handles]: the listeners and queues that are open; [registered]: the descriptors some queue
    may report.  A new descriptor is one that was not in use. *)
Class EventLaws (K : Type) `{KernelLaws K} `{EventKernel K} := {
  handles : K → gset Z;
  registered : K → gset Z;
  quiet (k k' : K) : Prop :=
    socks k' = socks k ∧ waiting k' = waiting k ∧ handles k' = handles k ∧ registered k' = registered k;
  read_event fd k r k' : Read fd k = (r, k') → handles k' = handles k ∧ registered k' = registered k;
  read_broken fd k r k' : Read fd k = (r, k') → socks k !! fd = None →
    (∃ e, r = inr e) ∧ socks k' = socks k ∧ waiting k' = waiting k;
  write_event fd b k r k' : Write fd b k = (r, k') → handles k' = handles k ∧ registered k' = registered k;
  accept_event fd k r k' : Accept fd k = (r, k') → handles k' = handles k ∧ registered k' = registered k ∧
    ∀ c, r = inl c → c ∉ handles k;
  nonblock_event fd k r k' : SetNonblock fd k = (r, k') → handles k' = handles k ∧ registered k' = registered k;
  change_event fd add k r k' : Change fd add k = (r, k') → handles k' = handles k ∧
    registered k' ⊆ (if add then {[ fd ]} else ∅) ∪ registered k;
  close_event fd k r k' : Close fd k = (r, k') →
    handles k' = handles k ∖ {[ fd ]} ∧ registered k' ⊆ registered k;
  socket_law k r k' : Socket k = (r, k') →
    socks k' = socks k ∧ waiting k' = waiting k ∧ registered k' = registered k ∧
    match r with
    | inl fd => (fd ∉ handles k) ∧ (fd ∉ registered k) ∧ handles k' = {[ fd ]} ∪ (handles k)
    | inr _ => handles k' = handles k
    end;
  reuse_law fd k r k' : SetReuseAddr fd k = (r, k') → quiet k k';
  bind_law fd k r k' : Bind fd k = (r, k') → quiet k k';
  listen_law fd k r k' : Listen fd k = (r, k') → quiet k k';
  kqueue_law k r k' : Kqueue k = (r, k') →
    socks k' = socks k ∧ waiting k' = waiting k ∧ registered k' = registered k ∧
    match r with
    | inl kq => (kq ∉ handles k) ∧ (kq ∉ registered k) ∧ handles k' = {[ kq ]} ∪ (handles k)
    | inr _ => handles k' = handles k
    end;
  kevent_law kq k r k' : Kevent kq k = (r, k') →
    handles k' = handles k ∧ registered k' = registered k ∧ arrivals (socks k) (socks k') ∧
    (Forall fresh_sock (waiting k) → Forall fresh_sock (waiting k')) ∧
    ∀ es ev, r = inl es → ev ∈ es → ident ev ∈ registered k;
}.

(** * The program *)

Section program.
Context `{Kernel K} `{EventKernel K}.

Definition errno_err (e : errno) : goerr :=
  match e with
  | EAGAIN => ErrNew "resource temporarily unavailable"
  | EINTR => ErrNew "interrupted system call"
  | EOther => ErrIO
  end.

(** [if err := f(); err != nil { return err }]. *)
Definition sys {A} (f : K → (A + errno) * K) : M K A := λ k,
  let '(r, k') := f k in (match r with inl a => Ok a | inr e => Err (errno_err e) end, k').

(** Where a call is: still in the loop, or back with nil; an error is the outcome [Err]. *)
Inductive turn := Going | Nil.

(** One round: the events of one [Kevent]; an interrupted one is tried again. *)
Definition round (fuel : nat) (fd kq : Z) : M K turn := λ k,
  let '(r, k) := Kevent kq k in
  match r with
  | inr EINTR => (Ok Going, k)
  | inr err => (Err (errno_err err), k)
  | inl events => match handle_events fuel fd events k with Some k' => (Ok Going, k') | None => (NoFuel, k) end
  end.

(** The loop has no end of its own; [rounds] is how long it is watched. *)
Fixpoint loop (rounds fuel : nat) (fd kq : Z) : M K turn :=
  match rounds with
  | O => ret Going
  | S rounds =>
      let! t := round fuel fd kq in
      match t with Going => loop rounds fuel fd kq | Nil => ret Nil end
  end.

(** [defer cleanup()], in a function that may still be running: then it has not run yet. *)
Definition on_return (cleanup : M K unit) (m : M K turn) : M K turn := λ k,
  let '(r, k) := m k in
  match r with
  | Ok Going | NoFuel => (r, k)
  | _ => let '(_, k) := cleanup k in (r, k)
  end.

Definition ListeningForConnections (rounds fuel : nat) : M K turn :=
  let! fd := sys Socket in
  on_return (do! sys (Close fd) in ret tt) (
    do! sys (SetReuseAddr fd) in
    do! sys (SetNonblock fd) in
    do! sys (Bind fd) in
    do! sys (Listen fd) in
    let! kq := sys Kqueue in
    on_return (do! sys (Close kq) in ret tt) (
      do! sys (Change fd true) in
      loop rounds fuel fd kq)).

(** [main] of tcp_servers/main.go. *)
Definition main (rounds fuel : nat) : M K turn :=
  let! err := attempt (ListeningForConnections rounds fuel) in
  match err with
  | inr _ => panic "ListeningForConnections"
  | inl t => ret t
  end.
End program.

(** * Echoing *)

Section laws.
Context `{EventLaws K}.
Implicit Types k : K.

(** A client has said the chunks that were read, of a buffer at most, and what is still to be
    read; it has been sent what the kernel took of a write of each chunk. *)
Definition echoed (fd : Z) (s : sock) : Prop := ∃ chunks : list (bytes * nat),
  said s = concat chunks.*1 ++ pending s ∧
  out s = concat ((λ c : bytes * nat, take c.2 c.1) <$> chunks) ∧
  Forall (λ c, len c.1 ≤ bufSize ∧ ∃ k, c.2 = taken k fd c.1) chunks.

(** When the kernel takes every write to the client whole, nothing is missing. *)
Lemma echoed_whole fd s : (∀ k b, taken k fd b = length b) → echoed fd s → said s = out s ++ pending s.
Proof.
  intros Hw (chunks & -> & -> & Hf). f_equal. clear -Hw Hf.
  induction Hf as [|[c n] chunks [_ [k Hn]] _ IH]; [done|]. csimpl in *. rewrite IH, Hn, Hw. by rewrite firstn_all.
Qed.

Lemma echoed_fresh fd s : fresh_sock s → echoed fd s.
Proof. intros [Ho Hs]. exists []. by rewrite Ho, Hs. Qed.
Definition echoing k : Prop :=
  Forall fresh_sock (waiting k) ∧ ∀ fd s, socks k !! fd = Some s → echoed fd s.

(** The handles are [hs]; no queue reports one of them, but perhaps the listener's. *)
Record stage (fd : Z) (hs : gset Z) k : Prop := {
  st_handles : handles k = {[ fd ]} ∪ hs;
  st_fd : fd ∉ hs;
  st_registered : registered k ## hs;
  st_echoing : echoing k;
}.

Definition same_handles k k' : Prop := handles k' = handles k ∧ registered k' = registered k.

Lemma echoing_same k k' : socks k' = socks k → waiting k' = waiting k → echoing k → echoing k'.
Proof. intros Es Ew [Hw He]. split; [by rewrite Ew|]. intros j s. rewrite Es. apply He. Qed.
Lemma stage_same fd hs k k' : same_handles k k' → echoing k' → stage fd hs k → stage fd hs k'.
Proof. intros [Eh Er] He [Sh Sf Sr _]. split; [by rewrite Eh|done|by rewrite Er|done]. Qed.
Lemma stage_quiet fd hs k k' : quiet k k' → stage fd hs k → stage fd hs k'.
Proof.
  intros (Es & Ew & Eh & Er) Hst. apply (stage_same fd hs k k'); [by split| |done].
  eapply echoing_same; [done|done|apply Hst].
Qed.

(** ** The end of a client *)

Lemma stage_change fd hs add c k r k' :
  Change c add k = (r, k') → (add = true → c ∉ hs) → stage fd hs k → stage fd hs k'.
Proof.
  intros E Hc [Sh Sf Sr Se]. destruct (change_law _ _ _ _ _ E) as [Es Ew].
  destruct (change_event _ _ _ _ _ E) as [Eh Er]. split; [by rewrite Eh|done| |by eapply echoing_same].
  destruct add; [specialize (Hc eq_refl)|]; clear -Er Sr Hc; set_solver.
Qed.

Lemma stage_close fd hs c k r k' :
  Close c k = (r, k') → c ∉ {[ fd ]} ∪ hs → stage fd hs k → stage fd hs k'.
Proof.
  intros E Hc [Sh Sf Sr [Hw He]]. destruct (close_law _ _ _ _ E) as [Es Ew].
  destruct (close_event _ _ _ _ E) as [Eh Er]. split; [rewrite Eh, Sh; clear -Hc; set_solver|done|clear -Er Sr; set_solver|].
  split; [by rewrite Ew|]. intros j s. rewrite Es. intros [_ Hj]%lookup_delete_Some. by eapply He.
Qed.

Lemma stage_hang_up fd hs c k : c ∉ {[ fd ]} ∪ hs → stage fd hs k → stage fd hs (hang_up c k).
Proof.
  intros Hc Hs. unfold hang_up, kqDelRead. destruct (Change c false k) as [r1 k1] eqn:E1.
  destruct (Close c (r1, k1).2) as [r2 k2] eqn:E2.
  eapply stage_close; [exact E2|done|]. by eapply stage_change.
Qed.

(** ** The loops *)

Lemma stage_drain fuel fd hs c k k' :
  drain fuel c k = Some k' → c ∉ {[ fd ]} ∪ hs → stage fd hs k → stage fd hs k'.
Proof.
  intros E Hc. revert k E. induction fuel as [|fuel IH]; intros k E Hst; [done|]. cbn [drain] in E.
  destruct (Read c k) as [r k1] eqn:Er. pose proof (read_event _ _ _ _ Er) as Hh.
  assert (∀ e, r = inr e → echoing k1 → stage fd hs k') as Herr.
  { intros e -> He. assert (stage fd hs k1) as Hst1 by by eapply stage_same.
    destruct (decide _); injection E as <-; [done|by apply stage_hang_up]. }
  destruct (socks k !! c) as [s|] eqn:Es.
  - destruct (read_law _ _ _ _ _ Er Es) as [Ew Hr]. destruct Hst as [Sh Sf Sr [Hw He]].
    destruct (pending s) as [|b0 p] eqn:Ep.
    + destruct Hr as [-> Ek]. assert (echoing k1) as He1 by (by eapply echoing_same).
      destruct (peer_closed s); [|by eapply Herr].
      injection E as <-. apply stage_hang_up; [done|]. by eapply stage_same.
    + destruct Hr as (b & rest & -> & Hb & Hbuf & Hp & Ek). destruct b as [|x b]; [done|].
      destruct (Write c (x :: b) k1) as [r2 k2] eqn:E2. apply (IH k2); [exact E|].
      destruct Hh as [Eh1 Er1], (write_event _ _ _ _ _ E2) as [Eh2 Er2].
      destruct (write_law _ _ _ (mkSock (said s) rest (peer_closed s) (out s)) _ _ E2) as [Ew2 Ek2];
        [by rewrite Ek, lookup_insert_eq|].
      split; [by rewrite Eh2, Eh1|done|by rewrite Er2, Er1|]. split; [by rewrite Ew2, Ew|].
      intros j s'. rewrite Ek2, Ek, insert_insert_eq. intros [[<- <-]|[_ Hj]]%lookup_insert_Some; [|by eapply He].
      destruct (He _ _ Es) as (chunks & Hs & Ho & Hf). exists (chunks ++ [(x :: b, taken k1 c (x :: b))]).
      cbn [said out pending]. rewrite !fmap_app, !concat_app, Ho, Hs, Ep, Hp. cbn [fmap list_fmap concat fst snd].
      rewrite !(right_id_L [] (++)), <-!(assoc_L (++)). split; [done|]. split; [done|].
      apply Forall_app. split; [done|]. apply Forall_singleton. split; [done|]. by exists k1.
  - destruct (read_broken _ _ _ _ Er Es) as ([e ->] & Ek & Ew). eapply Herr; [done|].
    eapply echoing_same; [done|done|apply Hst].
Qed.

Lemma stage_accept_all fuel fd hs k k' :
  accept_all fuel fd k = Some k' → stage fd hs k → stage fd hs k'.
Proof.
  revert k. induction fuel as [|fuel IH]; intros k E Hst; [done|]. cbn [accept_all] in E.
  destruct (Accept fd k) as [r k1] eqn:Ea. destruct (accept_event _ _ _ _ Ea) as (Eh & Er & Hc).
  pose proof (accept_law _ _ _ _ Ea) as Hl. destruct r as [c|e].
  - destruct Hl as (_ & s & Ew & Es). specialize (Hc c eq_refl).
    destruct Hst as [Sh Sf Sr [Hw He]]. rewrite Ew in Hw. apply Forall_cons in Hw as [Hfresh Hw].
    unfold kqAddRead in E. destruct (SetNonblock c k1) as [r2 k2] eqn:E2. cbn [snd] in E.
    destruct (Change c true k2) as [r3 k3] eqn:E3. apply (IH k3); [exact E|].
    eapply stage_change; [exact E3|intros _; set_solver|].
    destruct (nonblock_law _ _ _ _ E2) as [Es2 Ew2], (nonblock_event _ _ _ _ E2) as [Eh2 Er2].
    split; [by rewrite Eh2, Eh|done|by rewrite Er2, Er|]. split; [by rewrite Ew2|].
    intros j s'. rewrite Es2, Es. intros [[<- <-]|[_ Hj]]%lookup_insert_Some; [|by eapply He].
    by apply echoed_fresh.
  - injection E as <-. destruct Hl as [Es Ew]. eapply stage_same; [by split| |exact Hst].
    eapply echoing_same; [done|done|apply Hst].
Qed.

Lemma stage_events fuel fd hs es k k' :
  handle_events fuel fd es k = Some k' → (∀ ev, ev ∈ es → ident ev ∉ hs) → stage fd hs k → stage fd hs k'.
Proof.
  revert k. induction es as [|ev es IH]; intros k; cbn [handle_events]; [by intros [= <-]|].
  intros (k1 & E1 & E)%bind_Some Hes Hst. apply (IH k1 E); [intros; apply Hes; by right|].
  assert (ident ev ∉ hs) as Hi by (apply Hes; by left). revert E1. unfold handle_event.
  destruct (Z.eqb_spec (ident ev) fd) as [_|Hne]; [intros; by eapply stage_accept_all|].
  destruct (eof ev); [intros [= <-]; apply stage_hang_up; [set_solver|done]|].
  intros E1. eapply stage_drain; [exact E1|set_solver|done].
Qed.

(** A round keeps the stage: while the loop waits, what comes in is said and pending. *)
Lemma stage_round fuel fd kq hs : preserves (stage fd hs) (round fuel fd kq).
Proof.
  intros k Hst. unfold round. destruct (Kevent kq k) as [r k1] eqn:Ek.
  destruct (kevent_law _ _ _ _ Ek) as (Eh & Er & Ha & Hw & Hes).
  assert (stage fd hs k1) as Hst1.
  { eapply stage_same; [by split| |exact Hst]. destruct (st_echoing _ _ _ Hst) as [Hw0 He]. split; [auto|].
    intros j s' (s & more & Hj & Ho & Hp & Hs)%Ha. destruct (He _ _ Hj) as (chunks & Es & Eo & Hf).
    exists chunks. rewrite Hs, Ho, Hp, Es, (assoc_L (++)). by split_and!. }
  destruct r as [es|[]]; try done. destruct (handle_events fuel fd es k1) as [k2|] eqn:E; [|done].
  eapply stage_events; [exact E| |exact Hst1]. intros ev Hin. pose proof (st_registered _ _ _ Hst).
  specialize (Hes es ev eq_refl Hin). set_solver.
Qed.
Lemma stage_loop n fuel fd kq hs : preserves (stage fd hs) (loop n fuel fd kq).
Proof.
  induction n as [|n IH]; cbn [loop]; [apply preserves_ret|]. apply preserves_bind; [apply stage_round|].
  intros []; [done|apply preserves_ret].
Qed.

(** ** Enough fuel *)

(** A computation that gives the same with any fuel from some amount on. *)
Definition settles {A} (f : nat → option A) : Prop :=
  ∃ fuel0 a, ∀ fuel, (fuel0 ≤ fuel)%nat → f fuel = Some a.

Lemma settles_mono {A} (f : nat → option A) n :
  (∀ fuel a, f fuel = Some a → f (S fuel) = Some a) → is_Some (f n) → settles f.
Proof.
  intros Hf [a Ha]. exists n, a. intros fuel Hle.
  induction Hle as [|fuel _ IH]; [done|by apply Hf].
Qed.

Lemma drain_mono fuel c k k' : drain fuel c k = Some k' → drain (S fuel) c k = Some k'.
Proof.
  revert k. induction fuel as [|fuel IH]; intros k E; [done|]. cbn [drain] in E. simpl.
  destruct (Read c k) as [[[|x b]|e] k1]; [done| |done]. by apply IH in E.
Qed.
Lemma accept_mono fuel fd k k' : accept_all fuel fd k = Some k' → accept_all (S fuel) fd k = Some k'.
Proof.
  revert k. induction fuel as [|fuel IH]; intros k E; [done|]. cbn [accept_all] in E. simpl.
  destruct (Accept fd k) as [[c|e] k1]; [|done]. by apply IH in E.
Qed.

Lemma settles_event fd ev k : settles (λ fuel, handle_event fuel fd ev k).
Proof.
  unfold handle_event. destruct (ident ev =? fd).
  - apply settles_mono with (S (length (waiting k))); [intros; by apply accept_mono|].
    destruct (accept_all_spec (S (length (waiting k))) fd k) as (k' & -> & _); [lia|done].
  - destruct (eof ev); [by eexists 0%nat, _|].
    destruct (socks k !! ident ev) as [s|] eqn:Es.
    + apply settles_mono with (S (length (pending s))); [intros; by apply drain_mono|].
      apply (drain_ends _ _ _ s Es). lia.
    + apply settles_mono with 1%nat; [intros; by apply drain_mono|]. cbn [drain].
      destruct (Read (ident ev) k) as [r k1] eqn:Er.
      destruct (read_broken _ _ _ _ Er Es) as ([e ->] & _). by destruct (decide _).
Qed.

Lemma settles_events fd es k : settles (λ fuel, handle_events fuel fd es k).
Proof.
  revert k. induction es as [|ev es IH]; intros k; [by eexists 0%nat, _|]. cbn [handle_events].
  destruct (settles_event fd ev k) as (n1 & k1 & H1'). destruct (IH k1) as (n2 & k2 & H2').
  exists (n1 `max` n2)%nat, k2. intros fuel Hle. rewrite H1' by lia. cbn. apply H2'. lia.
Qed.

(** The calls whose errors end the function. *)
Definition works {A} (f : K → (A + errno) * K) : Prop := ∀ k, match (f k).1 with inl _ => True | inr _ => False end.
Definition no_failures : Prop :=
  works Socket ∧ (∀ fd, works (SetReuseAddr fd)) ∧ (∀ fd, works (SetNonblock fd)) ∧ (∀ fd, works (Bind fd)) ∧
  (∀ fd, works (Listen fd)) ∧ works Kqueue ∧ (∀ fd, works (Change fd true)) ∧
  ∀ kq k e, (Kevent kq k).1 = inr e → e = EINTR.

(** Runs that are at the same point with any fuel from some amount on: still going, or back with
    an error, which does not come by itself. *)
Definition ends (f : nat → outcome turn * K) : Prop :=
  ∃ fuel0 r k, (r = Ok Going ∨ (¬ no_failures) ∧ ∃ e, r = Err e) ∧ ∀ fuel, (fuel0 ≤ fuel)%nat → f fuel = (r, k).

Lemma ends_sys {A} (f : K → (A + errno) * K) (m : nat → A → M K turn) k :
  (no_failures → works f) → (∀ a k', f k = (inl a, k') → ends (λ fuel, m fuel a k')) →
  ends (λ fuel, bind (sys f) (m fuel) k).
Proof.
  intros Hf Hm. unfold bind, sys. destruct (f k) as [[a|e] k'] eqn:E; [by apply Hm|].
  exists 0%nat, (Err (errno_err e)), k'. split; [|done]. right. split; [|by eexists].
  intros Hn. specialize (Hf Hn k). by rewrite E in Hf.
Qed.

Lemma ends_return {A} (c : K → (A + errno) * K) (m : nat → M K turn) k :
  ends (λ fuel, m fuel k) → ends (λ fuel, on_return (bind (sys c) (λ _, ret tt)) (m fuel) k).
Proof.
  intros (n & r & k' & Hr & E). unfold on_return.
  destruct Hr as [->|[Hn [e ->]]].
  - exists n, (Ok Going), k'. split; [by left|]. intros fuel Hle. by rewrite E.
  - destruct (bind (sys c) (λ _, ret tt) k') as [r' k2] eqn:Ec. exists n, (Err e), k2. split; [right; eauto|].
    intros fuel Hle. by rewrite E, Ec.
Qed.

Lemma ends_loop n fd kq k : ends (λ fuel, loop n fuel fd kq k).
Proof.
  revert k. induction n as [|n IH]; intros k; cbn [loop]; [exists 0%nat, (Ok Going), k; split; [by left|done]|].
  unfold bind, round. destruct (Kevent kq k) as [[es|e] k1] eqn:Ek.
  - destruct (settles_events fd es k1) as (n1 & k2 & E1). destruct (IH k2) as (n2 & r & k3 & Hr & E2).
    exists (n1 `max` n2)%nat, r, k3. split; [done|]. intros fuel Hle. rewrite E1 by lia. apply E2. lia.
  - destruct e; [|apply IH|]; (eexists 0%nat, (Err _), k1; split; [|done]; right; split; [|by eexists]);
      intros (_ & _ & _ & _ & _ & _ & _ & Hk); specialize (Hk kq k); rewrite Ek in Hk; by specialize (Hk _ eq_refl).
Qed.

(** ** The set-up *)

Lemma preserves_sys {A} (P : K → Prop) (f : K → (A + errno) * K) :
  (∀ k r k', f k = (r, k') → P k → P k') → preserves P (sys f).
Proof. intros Hf k Hk. unfold sys. destruct (f k) as [r k'] eqn:E. by eapply Hf. Qed.

(** A function that has returned. *)
Definition returned (r : outcome turn) : Prop := r ≠ Ok Going ∧ r ≠ NoFuel.
#[export] Instance turn_eq_dec : EqDecision turn.
Proof. solve_decision. Defined.

(** It keeps the echoes, and the handles when it has returned. *)
Definition tidy (fd : Z) (hs : gset Z) (m : M K turn) : Prop := ∀ k r k',
  stage fd hs k → m k = (r, k') → echoing k' ∧ (returned r → stage fd hs k').

Lemma tidy_sys {A} fd hs (f : K → (A + errno) * K) (m : M K turn) :
  (∀ k r k', f k = (r, k') → stage fd hs k → stage fd hs k') → tidy fd hs m → tidy fd hs (bind (sys f) (λ _, m)).
Proof.
  intros Hf Hm k r k' Hst. unfold bind, sys. destruct (f k) as [[a|e] k1] eqn:E.
  - apply Hm. by eapply Hf.
  - intros [= <- <-]. assert (stage fd hs k1) as Hst1 by by eapply Hf. split; [apply Hst1|done].
Qed.

(** What [Close] leaves, when it runs at the end. *)
Lemma close_on_return (c : Z) (m : M K turn) k r k' :
  on_return (do! sys (Close c) in ret tt) m k = (r, k') →
  ∃ k1, m k = (r, k1) ∧ (¬ returned r ∧ k' = k1 ∨ returned r ∧ k' = (Close c k1).2).
Proof.
  unfold on_return, bind, sys. destruct (m k) as [r1 k1] eqn:Em.
  destruct r1 as [[]|e|w|]; try (intros [= <- <-]; exists k1; split; [done|]; left; by split; [intros [? ?]|]);
    destruct (Close c k1) as [[] k2] eqn:Ec; intros [= <- <-]; exists k1; rewrite Ec; (split; [done|]); right; by split; [split|].
Qed.

Lemma tidy_close fd kq hs (m : M K turn) :
  kq ∉ {[ fd ]} ∪ hs → preserves (stage fd ({[ kq ]} ∪ hs)) m →
  ∀ k r k', stage fd ({[ kq ]} ∪ hs) k → on_return (do! sys (Close kq) in ret tt) m k = (r, k') →
  echoing k' ∧ (returned r → stage fd hs k').
Proof.
  intros Hkq Hm k r k' Hst (k1 & Em & Hk')%close_on_return. specialize (Hm k Hst). rewrite Em in Hm. cbn in Hm.
  destruct Hk' as [[Hr ->]|[Hr ->]]; [split; [apply Hm|done]|].
  destruct (Close kq k1) as [r2 k2] eqn:E. destruct Hm as [Sh Sf Sr [Hw He]].
  destruct (close_law _ _ _ _ E) as [Es Ew], (close_event _ _ _ _ E) as [Eh Er]. cbn [snd].
  assert (stage fd hs k2) as Hend; [|split; [apply Hend|done]].
  split; [rewrite Eh, Sh; clear -Hkq; set_solver|clear -Sf; set_solver|clear -Er Sr; set_solver|].
  split; [by rewrite Ew|]. intros j s. rewrite Es. intros [_ Hj]%lookup_delete_Some. by eapply He.
Qed.

Lemma tidy_queue n fuel fd hs :
  tidy fd hs (let! kq := sys Kqueue in
    on_return (do! sys (Close kq) in ret tt) (do! sys (Change fd true) in loop n fuel fd kq)).
Proof.
  intros k r k' Hst. unfold bind at 1, sys at 1. destruct (Kqueue k) as [r1 k1] eqn:E.
  destruct (kqueue_law _ _ _ E) as (Es & Ew & Er & Hr). destruct Hst as [Sh Sf Sr Se].
  assert (echoing k1) as He1 by by eapply echoing_same. destruct r1 as [kq|e]; cbn.
  - destruct Hr as (Hkq & Hkr & Eh). rewrite Sh in Hkq, Eh. intros Em. eapply tidy_close; [exact Hkq| | |exact Em].
    + apply preserves_bind; [|intros _; apply stage_loop]. apply preserves_sys.
      intros ? ? ? Ec Hst. eapply stage_change; [exact Ec|intros _; apply Hst|exact Hst].
    + split; [rewrite Eh; clear; set_solver|clear -Hkq Sf; set_solver|rewrite Er; clear -Hkr Sr; set_solver|done].
  - intros [= <- <-]. split; [done|]. intros _. split; [by rewrite Hr|done|by rewrite Er|done].
Qed.

Lemma ListeningForConnections_keeps n fuel k r0 k0 :
  echoing k → registered k ## handles k → ListeningForConnections n fuel k = (r0, k0) →
  echoing k0 ∧ (returned r0 → handles k0 = handles k).
Proof.
  intros He Hd. unfold ListeningForConnections, bind at 1, sys at 1. destruct (Socket k) as [r k1] eqn:E.
  destruct (socket_law _ _ _ E) as (Es & Ew & Er & Hr).
  assert (echoing k1) as He1 by by eapply echoing_same.
  destruct r as [fd|e]; [|by intros [= <- <-]]. destruct Hr as (Hfd & Hfr & Eh).
  assert (stage fd (handles k) k1) as Hst by (split; [done|done|by rewrite Er|done]).
  set (m := bind (sys (SetReuseAddr fd)) _). assert (tidy fd (handles k) m) as Hm.
  { unfold m. apply tidy_sys; [intros ? ? ? Ec Hs; eapply stage_quiet; [exact (reuse_law _ _ _ _ Ec)|exact Hs]|].
    apply tidy_sys; [intros ? ? ? Ec Hs; destruct (nonblock_law _ _ _ _ Ec), (nonblock_event _ _ _ _ Ec); eapply stage_quiet; [|exact Hs]; by split_and!|].
    apply tidy_sys; [intros ? ? ? Ec Hs; eapply stage_quiet; [exact (bind_law _ _ _ _ Ec)|exact Hs]|].
    apply tidy_sys; [intros ? ? ? Ec Hs; eapply stage_quiet; [exact (listen_law _ _ _ _ Ec)|exact Hs]|].
    apply tidy_queue. }
  intros (k2 & Em & Hk0)%close_on_return. destruct (Hm _ _ _ Hst Em) as [He2 Hst2].
  destruct Hk0 as [[Hr ->]|[Hr ->]]; [done|]. destruct (Hst2 Hr) as [Sh _ _ [Hw _]].
  destruct (Close fd k2) as [r2 k3] eqn:Ec.
  destruct (close_law _ _ _ _ Ec) as [Es3 Ew3], (close_event _ _ _ _ Ec) as [Eh3 _]. cbn [snd].
  split; [|intros _; rewrite Eh3, Sh; clear -Hfd; set_solver]. split; [by rewrite Ew3|].
  intros j s. rewrite Es3. intros [_ Hj]%lookup_delete_Some. by eapply He2.
Qed.

Lemma ListeningForConnections_ends n k : ends (λ fuel, ListeningForConnections n fuel k).
Proof.
  unfold ListeningForConnections. apply (ends_sys Socket (λ fuel fd, _)); [by intros (? & _)|]. intros fd k1 _.
  apply ends_return.
  apply (ends_sys (SetReuseAddr fd) (λ fuel _, _)); [intros (_ & Hf & _); apply Hf|]. intros _ k2 _.
  apply (ends_sys (SetNonblock fd) (λ fuel _, _)); [intros (_ & _ & Hf & _); apply Hf|]. intros _ k3 _.
  apply (ends_sys (Bind fd) (λ fuel _, _)); [intros (_ & _ & _ & Hf & _); apply Hf|]. intros _ k4 _.
  apply (ends_sys (Listen fd) (λ fuel _, _)); [intros (_ & _ & _ & _ & Hf & _); apply Hf|]. intros _ k5 _.
  apply (ends_sys Kqueue (λ fuel kq, _)); [by intros (_ & _ & _ & _ & _ & Hf & _)|]. intros kq k6 _. apply ends_return.
  apply (ends_sys (Change fd true) (λ fuel _, _)); [intros (_ & _ & _ & _ & _ & _ & Hf & _); apply Hf|]. intros _ k7 _. apply ends_loop.
Qed.
End laws.

(** C40: The event loop from the set-up on, watched for any number of rounds: every round ends.
    The function is then still going, or it is back, with an error and never without one, and
    has closed the listener and the queue; as long as the calls of the set-up do not fail, nor
    [Kevent] but for interrupts, it goes on.  At any time what a connected client has said is
    the chunks that were read and what is still to be read, and it has been sent, chunk by chunk
    and in order, what the kernel took of one write of each: the end of a partial write is
    lost, as the code's comment says.  A client whose writes the kernel takes whole loses nothing,
    and nothing is doubled or mixed up between clients. *)
Theorem event_server_echoes `{EventLaws K} n (k : K) :
  echoing k → registered k ## handles k →
  ∃ fuel0 r k', (∀ fuel, (fuel0 ≤ fuel)%nat → ListeningForConnections n fuel k = (r, k')) ∧
    (r = Ok Going ∨ ¬ no_failures ∧ (∃ e, r = Err e) ∧ handles k' = handles k) ∧
    ∀ fd s, socks k' !! fd = Some s → echoed fd s ∧
      ((∀ k b, taken k fd b = length b) → said s = out s ++ pending s).
Proof.
  intros He Hd. destruct (ListeningForConnections_ends n k) as (fuel0 & r & k' & Hr & E).
  destruct (ListeningForConnections_keeps n fuel0 k r k' He Hd) as [[_ He'] Hh]; [by apply E|].
  exists fuel0, r, k'. split; [done|]. split.
  - destruct Hr as [->|[Hn [e ->]]]; [by left|]. right. split; [done|]. split; [by exists e|]. by apply Hh.
  - intros fd s Hs. split; [by apply He'|]. intros Hw. apply (echoed_whole fd); [done|]. by apply He'.
Qed.

(** * A kernel with a script *)

(** What comes in while the loop waits: data for the clients, and new connections with what
    they say at once. *)
Record arrival := mkArrival { data : list (Z * bytes); connections : list bytes }.
Record world := mkWorld { base : sockets; hs : gset Z; regs : gset Z; script : list arrival }.

Definition on_base (w : world) (k : sockets) : world := mkWorld k (hs w) (regs w) (script w).
Definition receive (m : gmap Z sock) (x : Z * bytes) : gmap Z sock :=
  alter (λ s, mkSock (said s ++ x.2) (pending s ++ x.2) (peer_closed s) (out s)) x.1 m.
Definition arrive (a : arrival) (k : sockets) : sockets :=
  mkSockets (fold_left receive (data a) (open k)) (queue k ++ ((λ b, mkSock b b false []) <$> connections a)).

Definition ready (w : world) (fd : Z) : bool :=
  match open (base w) !! fd with
  | Some s => negb (bool_decide (pending s = [])) || peer_closed s
  | None => negb (bool_decide (fd ∉ hs w)) && negb (bool_decide (length (queue (base w)) = 0%nat))
  end.
Definition report (w : world) : list event :=
  (λ fd, mkEvent fd false) <$> List.filter (ready w) (elements (regs w)).

#[export] Instance world_kernel : Kernel world := {
  Read fd w := let '(r, k) := Read fd (base w) in (r, on_base w k);
  Write fd b w := let '(r, k) := Write fd b (base w) in (r, on_base w k);
  Accept _ w :=
    match queue (base w) with
    | [] => (inr EAGAIN, w)
    | s :: l =>
        let c := fresh (dom (open (base w)) ∪ hs w) in
        (inl c, on_base w (mkSockets (<[c := s]> (open (base w))) l))
    end;
  SetNonblock _ w := (inl (), w);
  Change fd add w :=
    (inl (), mkWorld (base w) (hs w) (if add then {[ fd ]} ∪ regs w else regs w ∖ {[ fd ]}) (script w));
  Close fd w :=
    (inl (), mkWorld (mkSockets (delete fd (open (base w))) (queue (base w))) (hs w ∖ {[ fd ]})
       (regs w ∖ {[ fd ]}) (script w));
}.

#[export] Instance world_event_kernel : EventKernel world := {
  Socket w := let fd := fresh (dom (open (base w)) ∪ hs w ∪ regs w) in
    (inl fd, mkWorld (base w) ({[ fd ]} ∪ hs w) (regs w) (script w));
  SetReuseAddr _ w := (inl (), w);
  Bind _ w := (inl (), w);
  Listen _ w := (inl (), w);
  Kqueue w := let kq := fresh (dom (open (base w)) ∪ hs w ∪ regs w) in
    (inl kq, mkWorld (base w) ({[ kq ]} ∪ hs w) (regs w) (script w));
  Kevent _ w :=
    match script w with
    | [] => (inr EOther, w)
    | a :: l =>
        let w := mkWorld (arrive a (base w)) (hs w) (regs w) l in (inl (report w), w)
    end;
}.

#[export] Instance world_laws : KernelLaws world.
Proof.
  refine {| socks w := open (base w); waiting w := queue (base w); taken _ _ b := length b |}.
  - intros fd w s r w' E Hs. unfold Read, world_kernel in E.
    destruct (Read fd (base w)) as [r1 k1] eqn:E1. injection E as <- <-.
    exact (read_law fd (base w) s r1 k1 E1 Hs).
  - intros fd b w s r w' E Hs. unfold Write, world_kernel in E.
    destruct (Write fd b (base w)) as [r1 k1] eqn:E1. injection E as <- <-.
    exact (write_law fd b (base w) s r1 k1 E1 Hs).
  - intros lfd w r w'. unfold Accept, world_kernel. destruct (queue (base w)) as [|s l] eqn:Eq; intros [= <- <-].
    + by rewrite Eq.
    + split; [|by exists s]. apply not_elem_of_dom.
      pose proof (is_fresh (dom (open (base w)) ∪ hs w)) as Hf. set_solver.
  - by intros fd w r w' [= <- <-].
  - by intros fd b w r w' [= <- <-].
  - by intros fd w r w' [= <- <-].
Defined.

(** What a client has received while the loop waited. *)
Lemma receive_arrivals l m : arrivals m (fold_left receive l m).
Proof.
  revert m. induction l as [|[fd b] l IH]; intros m j s' Hj; cbn in Hj.
  - exists s', []. by rewrite !app_nil_r.
  - apply IH in Hj as (s & more & Hj & Ho & Hp & Hs). unfold receive in Hj. cbn in Hj.
    apply lookup_alter_Some in Hj as [(-> & s0 & Hs0 & ->)|[_ Hj]].
    + exists s0, (b ++ more). cbn in *. by rewrite !(assoc_L (++)), <-Hp, <-Hs.
    + by exists s, more.
Qed.

Lemma fresh_handle w (fd := fresh (dom (open (base w)) ∪ hs w ∪ regs w)) : (fd ∉ hs w) ∧ (fd ∉ regs w).
Proof. pose proof (is_fresh (dom (open (base w)) ∪ hs w ∪ regs w)) as Hf. fold fd in Hf. set_solver. Qed.

#[export] Instance world_event_laws : EventLaws world.
Proof.
  refine {| handles := hs; registered := regs |}.
  - intros fd w r w' E. unfold Read, world_kernel in E. destruct (Read fd (base w)). by injection E as <- <-.
  - intros fd w r w' E Hn. cbn in Hn. unfold Read, world_kernel, Read, sockets_kernel in E. rewrite Hn in E.
    injection E as <- <-. split; [by eexists|done].
  - intros fd b w r w' E. unfold Write, world_kernel in E. destruct (Write fd b (base w)). by injection E as <- <-.
  - intros fd w r w'. unfold Accept, world_kernel. destruct (queue (base w)); intros [= <- <-]; [done|].
    split; [done|]. split; [done|]. intros c [= <-].
    pose proof (is_fresh (dom (open (base w)) ∪ hs w)) as Hf. set_solver.
  - by intros fd w r w' [= <- <-].
  - intros fd add w r w' [= <- <-]. split; [done|]. cbn. destruct add; [done|]. set_solver.
  - intros fd w r w' [= <- <-]. split; [done|]. cbn. set_solver.
  - intros w r w' [= <- <-]. destruct (fresh_handle w) as [? ?]. by split_and!.
  - by intros fd w r w' [= <- <-].
  - by intros fd w r w' [= <- <-].
  - by intros fd w r w' [= <- <-].
  - intros w r w' [= <- <-]. destruct (fresh_handle w) as [? ?]. by split_and!.
  - intros kq w r w'. unfold Kevent, world_event_kernel. destruct (script w) as [|a l]; intros [= <- <-].
    + split_and!; [done|done| |done|done]. intros j s Hj. exists s, []. by rewrite !app_nil_r.
    + split_and!; [done|done|apply receive_arrivals| |].
      * intros Hw. apply Forall_app_2; [done|]. apply Forall_fmap, Forall_forall. by intros b _.
      * intros es ev [= <-] Hin. apply list_elem_of_fmap in Hin as (fd & -> & Hin).
        apply list_elem_of_In, filter_In in Hin as [Hin _]. apply list_elem_of_In in Hin.
        by apply elem_of_elements in Hin.
Defined.

(** Two clients connect, say things in turn, and the queue fails in the end. *)
Definition visit : world := mkWorld (mkSockets ∅ []) ∅ ∅
  [mkArrival [] [bytes_of "he"; bytes_of "hi"]; mkArrival [] []; mkArrival [(2, bytes_of "llo"); (3, bytes_of "!")] [];
   mkArrival [(2, bytes_of "?")] []].

(** What the clients said and were sent, and what is left open. *)
Definition transcript (w : world) : list (Z * (bytes * bytes)) * list Z :=
  ((λ x : Z * sock, (x.1, (said x.2, out x.2))) <$> map_to_list (open (base w)), elements (hs w)).

Example visit_served :
  transcript (ListeningForConnections 5 20 visit).2 =
    ([(3, (bytes_of "hi!", bytes_of "hi!")); (2, (bytes_of "hello?", bytes_of "hello?"))], []).
Proof. vm_compute. reflexivity. Qed.

Lemma event_server_echoes_witness :
  ∃ fuel0 r w', (∀ fuel, (fuel0 ≤ fuel)%nat → ListeningForConnections 4 fuel visit = (r, w')) ∧
    (r = Ok Going ∨ (∃ e, r = Err e) ∧ handles w' = handles visit) ∧
    ∀ fd s, open (base w') !! fd = Some s → said s = out s ++ pending s.
Proof.
  destruct (event_server_echoes 4 visit) as (fuel0 & r & w' & Hf & Hr & Hw).
  - split; [constructor|]. intros fd s Hs. by destruct (lookup_empty_Some fd s).
  - apply disjoint_empty_l.
  - exists fuel0, r, w'. split; [exact Hf|]. split; [by destruct Hr as [?|(_ & ? & ?)]; [left|right]|]. intros fd s Hs. by apply (Hw fd s Hs).
Defined.
End EventServer.
