(* ===== verification/Mains.v ===== *)
(** The main functions of [bitcask/main.go], [word-dictionary/main.go] and
    [consistent_hashing/main.go]: each starts its component and runs it once. *)

From stdpp Require Import gmap strings list fin_maps.
From Stdlib Require Import ZArith Lia.
From S2P Require Import Prelude GoLib GoFS.
From S2P Require BitcaskStore BitcaskMerge BitcaskMergeRefine BitcaskTheorems.
From S2P Require WordDictionary WordDictionarySpec WordDictionaryImport WordDictionaryTheorems.
From S2P Require ConsistentHashing.

(** [for _, x := range l]. *)
Fixpoint range {S A} (l : list A) (body : A → M S unit) : M S unit :=
  match l with
  | [] => ret tt
  | x :: l => do! body x in range l body
  end.

(** * bitcask/main.go *)

Module BitcaskMain.
Import BitcaskStore BitcaskMerge BitcaskMergeRefine BitcaskTheorems.

(** The body of the loop; [now] is what [time.Now] gives in that round.  What the calls
    return is dropped. *)
Definition round (now : Z → Z) (i : Z) : M Store unit :=
  let str := bytes_of (itoa i) in
  do! ignore (Put (now i) str str) in
  ignore (Get str).

Definition main (now : Z → Z) (w : World) : outcome unit * Store :=
  range (seqZ 0 10000) (round now) (mkStore New w).

(** The first [n] numbers in decimal, each its own value. *)
Definition numbered (n : Z) (m : kvmap) : Prop :=
  ∀ k v, m !! k = Some v ↔ v = bytes_of k ∧ ∃ i, 0 ≤ i < n ∧ k = itoa i.

Lemma numbered_more n m :
  0 ≤ n → numbered n m → numbered (n + 1) (<[itoa n := bytes_of (itoa n)]> m).
Proof.
  intros Hn H k v. rewrite lookup_insert_Some, (H k v). split.
  - intros [[<- <-]|[Hk [-> (i & Hi & ->)]]]; (split; [done|]).
    + exists n. split; [lia|done].
    + exists i. split; [lia|done].
  - intros [-> (i & Hi & ->)]. destruct (decide (n = i)) as [->|Hne]; [by left|].
    right. split; [by intros ?%itoa_inj|]. split; [done|]. exists i. split; [lia|done].
Qed.

Lemma key_fits now i : 0 ≤ i < 10000 → op_ok (OPut now (bytes_of (itoa i)) (bytes_of (itoa i))).
Proof.
  intros Hi. assert (forallb (λ i, len (bytes_of (itoa i)) <? 5) (seqZ 0 10000) = true) as H
    by by vm_compute.
  rewrite forallb_forall in H. specialize (H i). rewrite <-list_elem_of_In in H.
  specialize (H ltac:(apply elem_of_seqZ; lia)).
  apply Z.ltb_lt in H. unfold op_ok, entry_ok, entry_size, headerSize. simpl. lia.
Qed.

(** One round: the [Get] finds what the [Put] before it wrote. *)
Lemma stored_round now i L s m :
  Inv L s m → Clean L s → 0 ≤ i < 10000 →
  ∃ s1 s2 L2, Put (now i) (bytes_of (itoa i)) (bytes_of (itoa i)) s = (Ok tt, s1) ∧
    Get (bytes_of (itoa i)) s1 = (Ok (bytes_of (itoa i)), s2) ∧
    round now i s = (Ok tt, s2) ∧ Inv L2 s2 (<[itoa i := bytes_of (itoa i)]> m) ∧ Clean L2 s2.
Proof.
  intros H C Hi. set (str := bytes_of (itoa i)).
  destruct (run_op_spec L s m (OPut (now i) str str) H C (key_fits _ i Hi))
    as (s1 & L1 & E1 & H1 & C1 & _).
  destruct (run_op_spec L1 s1 _ (OGet str) H1 C1 I) as (s2 & L2 & E2 & H2 & C2 & _).
  cbn [run_op spec_op fst snd] in *. subst str. autorewrite with go in *.
  rewrite lookup_insert_eq in E2.
  assert (Put (now i) (bytes_of (itoa i)) (bytes_of (itoa i)) s = (Ok tt, s1)) as E.
  { unfold bind in E1. destruct (Put _ _ _ s) as [[[]|e|w|] s']; try done.
    by injection E1 as <-. }
  exists s1, s2, L2. split_and!; [done|done| |done|done].
  unfold round. rewrite (bind_ok _ _ _ _ _ (ignore_ok _ _ _ _ E)).
  by apply (ignore_ok _ _ _ _ E2).
Qed.

Lemma rounds_spec now n k L s m :
  Inv L s m → Clean L s → numbered k m → 0 ≤ k → k + Z.of_nat n ≤ 10000 →
  ∃ L' s' m', range (seqZ k (Z.of_nat n)) (round now) s = (Ok tt, s') ∧
    Inv L' s' m' ∧ Clean L' s' ∧ numbered (k + Z.of_nat n) m'.
Proof.
  revert k L s m. induction n as [|n IH]; intros k L s m H C Hm Hk Hn.
  - exists L, s, m. split_and!; [done..|]. by rewrite Z.add_0_r.
  - destruct (stored_round now k L s m H C ltac:(lia)) as (_ & s1 & L1 & _ & _ & E & H1 & C1).
    destruct (IH (k + 1) L1 s1 _ H1 C1 (numbered_more _ _ Hk Hm)) as (L' & s' & m' & E' & P);
      [lia..|].
    exists L', s', m'. rewrite seqZ_cons by lia. split; [|].
    + simpl. rewrite (bind_ok _ _ _ _ _ E). replace (Z.pred (Z.of_nat (S n))) with (Z.of_nat n)
        by lia. by rewrite <-Z.add_1_r.
    + by replace (k + Z.of_nat (S n)) with (k + 1 + Z.of_nat n) by lia.
Qed.

(** On a fresh disk that does not fail the program ends, and the store then holds the
    numbers below 10000, each under itself, and nothing else. *)
Theorem main_stores_numbers now w :
  fresh_disk w →
  ∃ s m, main now w = (Ok tt, s) ∧ represents s m ∧
    ∀ k v, m !! k = Some v ↔ v = bytes_of k ∧ ∃ i, 0 ≤ i < 10000 ∧ k = itoa i.
Proof.
  intros Hw. destruct (represents_new 65536 w Hw) as (L & H & C).
  destruct (rounds_spec now (Z.to_nat 10000) 0 L (mkStore New w) ∅ H C) as (L' & s & m & E & H' & C' & Hm);
    [|lia..|].
  { intros k v. rewrite lookup_empty. split; [done|]. intros [_ (i & Hi & _)]. lia. }
  exists s, m. split_and!; [|by exists L'|exact Hm].
  rewrite Z2Nat.id in E by lia. exact E.
Qed.

Lemma main_stores_numbers_witness :
  ∃ s m, main (λ i, i) empty_world = (Ok tt, s) ∧ represents s m ∧
    ∀ k v, m !! k = Some v ↔ v = bytes_of k ∧ ∃ i, 0 ≤ i < 10000 ∧ k = itoa i.
Proof. apply (main_stores_numbers (λ i, i) empty_world fresh_empty). Defined.

End BitcaskMain.

(** * word-dictionary/main.go *)

Module DictionaryMain.
Import WordDictionary.WordDict WordDictionarySpec WordDictionaryImport WordDictionaryTheorems.

(** The program: [init], then [main], which looks at no error.  Through a [file] that is
    nil [Sync] and [Close] give an error. *)
Definition main : M DState unit :=
  do! start in
  do! ignore (Insert "Apple" "A fruit") in
  do! ignore (Insert "Ball" "A Ball") in
  do! ignore (Insert "Cat" "A Cat") in
  do! ignore (Import "./change_log") in
  let! f := gets file in
  do! ignore (ondisk (Sync f)) in
  let! f := gets file in
  ignore (ondisk (Close f)).

(** The start on a disk without a dictionary. *)
Lemma start_fresh w :
  wf_world w → w_faults w = [] → w_dir w !! FilePath = None →
  ∃ s, start (blank w) = (Ok tt, s) ∧ DInv [] s ∅ ∧ others_kept w (dwd s).
Proof.
  intros W F N. set (w1 := opened FilePath true w).
  assert (OpenFile FilePath appendFlags w = (Ok (Some (w_next w)), w1)) as E1.
  { unfold OpenFile. rewrite guarded_nf by done. subst w1. rewrite opened_new by done.
    simpl. by rewrite N. }
  set (fd := mkFd (w_next w) true 0 true).
  assert (w_fd w1 !! w_next w = Some fd ∧ w_ino w1 !! w_next w = Some [] ∧
    w_dir w1 !! FilePath = Some (w_next w)) as (Efd & Ei & Ed).
  { subst w1. rewrite opened_new by done. simpl. by rewrite !lookup_insert_eq. }
  assert (w_faults w1 = []) as F1 by (subst w1; by rewrite opened_faults).
  pose proof (StatSize_fd w1 F1 _ fd Efd eq_refl) as E2.
  unfold content in E2. cbn [fd_ino fd] in E2. rewrite Ei in E2. cbn in E2.
  exists (mkDState (mkDict ∅ 0) (Some (w_next w)) w1). split_and!.
  - unfold start, init, NewWordDictionary.
    erewrite bind_ok; [|erewrite bind_ok; [|apply attempt_ok, ondisk_ok, E1]; done].
    erewrite bind_ok; [|erewrite bind_ok; [|done]; erewrite bind_ok;
      [|apply attempt_ok, ondisk_ok, E2]; done]. done.
  - constructor; simpl; [done|by apply wf_opened| |done|done|done].
    exists (w_next w), (w_next w), 0. by split_and!.
  - intros p i Hp Hi. simpl. subst w1. rewrite opened_dir, lookup_insert_ne by done.
    split; [done|]. destruct (wf_dir _ W _ _ Hi) as [c Hc].
    rewrite Hc. by apply opened_ino.
Qed.

Lemma main_steps w s1 s2 :
  start (blank w) = (Ok tt, s1) → insert_all demo_words s1 = (Ok tt, s2) →
  main (blank w) =
    (do! ignore (Import "./change_log") in
     let! f := gets file in
     do! ignore (ondisk (Sync f)) in
     let! f := gets file in
     ignore (ondisk (Close f))) s2.
Proof.
  intros E1 E2. unfold main. rewrite (bind_ok _ _ _ _ _ E1). clear E1. revert E2.
  cbn [insert_all demo_words].
  intros (? & t1 & E1 & (? & t2 & E2 & (? & t3 & E3 & [= <-])%bind_inv)%bind_inv)%bind_inv.
  rewrite (bind_ok _ _ _ _ _ (ignore_ok _ _ _ _ E1)).
  rewrite (bind_ok _ _ _ _ _ (ignore_ok _ _ _ _ E2)).
  by rewrite (bind_ok _ _ _ _ _ (ignore_ok _ _ _ _ E3)).
Qed.

(** The end: the file is synced and closed, its contents stay. *)
Lemma main_end l s m :
  DInv l s m →
  ∃ s', (let! f := gets file in do! ignore (ondisk (Sync f)) in
         let! f := gets file in ignore (ondisk (Close f))) s = (Ok tt, s') ∧
    dict s' = dict s ∧ file_at (dwd s') FilePath = Some (wenc_all l).
Proof.
  intros H. destruct (di_file _ _ _ H) as (n & ino & pos & Ef & En & Ed & Ei).
  pose proof (di_faults _ _ _ H) as F.
  pose proof (ondisk_ok _ s _ _ (Sync_fd _ F n _ En eq_refl)) as E1.
  assert (mkDState (dict s) (file s) (dwd s) = s) as Es by by destruct s.
  rewrite Es in E1. pose proof (ondisk_ok _ s _ _ (Close_fd _ F n _ En eq_refl)) as E2.
  eexists. split_and!.
  - erewrite bind_ok by done. rewrite Ef. rewrite (bind_ok _ _ _ _ _ (ignore_ok _ _ _ _ E1)).
    erewrite bind_ok by done. rewrite Ef. exact (ignore_ok _ _ _ _ E2).
  - done.
  - unfold file_at, content. simpl. rewrite Ed. simpl. by rewrite Ei.
Qed.

(** On a disk without a dictionary, beside a sorted change log, the program ends with the
    dictionary file sorted, holding the three words and the change log, the latter
    winning; and the index leads to them. *)
Theorem main_imports w hi ch :
  wf_world w → w_faults w = [] → w_dir w !! FilePath = None →
  w_dir w !! "./change_log" = Some hi → w_ino w !! hi = Some (wenc_all ch) →
  sorted ch → Forall w_ok ch →
  ∃ s out, main (blank w) = (Ok tt, s) ∧ file_at (dwd s) FilePath = Some (wenc_all out) ∧
    sorted out ∧ meanings out = meanings ch ∪ meanings demo_entries ∧
    indexes out (wordMetaMap (dict s)) (meanings out).
Proof.
  intros W F N Hd Hi Hs Hok.
  destruct (start_fresh w W F N) as (s1 & E1 & H1 & O1).
  destruct (insert_all_spec demo_words [] s1 ∅ H1) as (s2 & E2 & H2 & O2);
    [by repeat constructor|].
  rewrite (main_steps w s1 s2 E1 E2).
  assert (inserted demo_words ∅ = demo_entries) as Ein by by vm_compute.
  rewrite Ein in H2. cbn [app] in H2.
  destruct (O1 "./change_log" hi) as [Hd1 Hi1]; [done..|].
  destruct (O2 "./change_log" hi) as [Hd2 Hi2]; [done..|].
  rewrite Hi1, Hi in Hi2.
  destruct (Import_spec _ s2 _ "./change_log" hi ch H2 Hd2 Hi2 Hok ltac:(done))
    as (s3 & E3 & H3).
  assert (sorted demo_entries) as Hse by by repeat constructor.
  destruct (main_end _ _ _ H3) as (s4 & E4 & Ed4 & Ef4).
  exists s4, (merge_entries demo_entries ch). split_and!.
  - by rewrite (bind_ok _ _ _ _ _ (ignore_ok _ _ _ _ E3)).
  - done.
  - by apply merge_sorted.
  - by apply merge_union.
  - rewrite Ed4. apply H3.
Qed.

(** A disk with the change log alone. *)
Definition log_disk (ch : list wentry) : World :=
  mkWorld (<["./change_log"%string := 0%nat]> ∅) (<[0%nat := wenc_all ch]> ∅) ∅ 1 [].

Lemma wf_log_disk ch : wf_world (log_disk ch).
Proof.
  constructor; simpl.
  - intros p i [[<- <-]|[_ H]]%lookup_insert_Some; [by eexists|by rewrite lookup_empty in H].
  - intros p q i [[<- <-]|[_ H]]%lookup_insert_Some [[<- ?]|[_ H']]%lookup_insert_Some;
      try done; by rewrite lookup_empty in *.
  - intros i [b [[<- _]|[_ H]]%lookup_insert_Some]; [lia|by rewrite lookup_empty in H].
  - intros i [b H]. by rewrite lookup_empty in H.
Qed.

Lemma main_imports_witness :
  ∃ s out, main (blank (log_disk demo_log)) = (Ok tt, s) ∧
    file_at (dwd s) FilePath = Some (wenc_all out) ∧
    sorted out ∧ meanings out = meanings demo_log ∪ meanings demo_entries ∧
    indexes out (wordMetaMap (dict s)) (meanings out).
Proof.
  apply (main_imports _ 0 demo_log); try done; [apply wf_log_disk|by repeat constructor..].
Defined.

(** A second run on the same disk: its index starts empty, so it appends its words again,
    and the import of the same change log now leaves the old meaning of a word it
    changed. *)
Definition again (s : DState) : DState := blank (dwd s).
Definition first_run : DState := (main (blank (log_disk demo_log))).2.
Definition second_run : DState := (main (again first_run)).2.

(** The meaning a run's dictionary gives, were the file still open. *)
Definition lookup_in (s : DState) (word : string) : outcome string :=
  (GetMeaning word (set_file (Some 99%nat)
    (mkDState (dict s) (file s) (set_fd (insert 99%nat (mkFd
      (default 0%nat (w_dir (dwd s) !! FilePath)) true 0 true)) (dwd s))))).1.

Theorem second_run_reverts :
  lookup_in first_run "Ball" = Ok "Round"%string ∧
  lookup_in second_run "Ball" = Ok "A Ball"%string ∧
  option_map len (file_at (dwd first_run) FilePath) = Some 53 ∧
  option_map len (file_at (dwd second_run) FilePath) = Some 95.
Proof. by vm_compute. Qed.

End DictionaryMain.

(** * consistent_hashing/main.go *)

Module RingMain.
Import ConsistentHashing.Ring.

Definition newStorageNode (name host : string) : StorageNode := mkNode name host.

(** The ring and the lines printed so far. *)
Record MState := mkMain { ring : ConsistentHashingRing; printed : list string }.
Definition onring {A} (m : M ConsistentHashingRing A) : M MState A :=
  zoom ring (λ c s, mkMain c (printed s)) m.
Definition Println (line : string) : M MState unit :=
  modify (λ s, mkMain (ring s) (printed s ++ [line])).

(** [targetNode.name] of a nil pointer panics. *)
Definition nameOf (x : option StorageNode) : M MState string :=
  match x with Some x => ret (name x) | None => panic "nil pointer dereference" end.

Definition keys : list string :=
  ["user:1"; "user:101"; "user:1028"; "user:17917"; "user:2917191"; "user:18191910";
   "user:176181618"]%string.

Definition keyLine (key name : string) : string :=
  "Key '" +:+ key +:+ "' maps to node: " +:+ name.

(** The body of the two loops over the keys. *)
Definition printKey (key : string) : M MState unit :=
  let! ch := gets ring in
  let! n := nameOf (getNode ch key) in
  Println (keyLine key n).

Definition main : M MState unit :=
  do! modify (λ s, mkMain NewConsistentHashingRing (printed s)) in
  do! onring (addNode (newStorageNode "A" "127.0.0.1")) in
  do! onring (addNode (newStorageNode "B" "192.168.1.2")) in
  do! onring (addNode (newStorageNode "C" "255.255.0.1")) in
  do! Println "Nodes distribution:" in
  let! ch := gets ring in
  do! range (imap (λ idx hash, (idx, hash)) (nodes ch))
    (λ '(idx, hash), Println ("node[" +:+ itoa (Z.of_nat idx) +:+ "] - " +:+ itoa hash)) in
  do! Println "" in
  do! range keys printKey in
  let! ch := gets ring in
  match nodes ch with
  | [] => panic "index out of range"
  | first :: _ =>
      let nodeToBeDeleted := nodeMap ch !! first in
      let! n := nameOf nodeToBeDeleted in
      do! Println ("Node to be deleted: " +:+ n) in
      match nodeToBeDeleted with
      | None => panic "nil pointer dereference"
      | Some x =>
          do! onring (deleteNode x) in
          do! Println "Mappings after deletion of node" in
          do! Println "" in
          do! Println "" in
          range keys printKey
      end
  end.

Definition mappings (owners : list string) : list string := zip_with keyLine keys owners.
Definition start : MState := mkMain NewConsistentHashingRing [].

(** The program ends; it prints the 300 slots, the owners of the seven keys, the node of
    the first slot, which it deletes, and the owners again: only the keys of the deleted
    node B have moved, to C. *)
Theorem main_moves_only_deleted :
  (main start).1 = Ok tt ∧ length (printed (main start).2) = 320%nat ∧
  drop 302 (printed (main start).2) =
    mappings ["C"; "A"; "B"; "A"; "C"; "B"; "A"]%string ++
    ["Node to be deleted: B"; "Mappings after deletion of node"; ""; ""]%string ++
    mappings ["C"; "A"; "C"; "A"; "C"; "C"; "A"]%string.
Proof. by vm_compute. Qed.

End RingMain.
